(* ===== verification/_CoqProject ===== *)
-Q . S2P
Prelude.v
Text.v
Script.v
Frame.v
Seq.v
Outbox.v
Wal.v
Spiller.v
Message.v
Conn.v
Link.v
RingBuffer.v
CwTypes.v
LogCollect.v
Rotator.v
ManagerLogs.v
PtySubs.v
Heartbeat.v
Controller.v
Callbacks.v
EventBus.v
Supervise.v
Agent.v
Runner.v
Config.v
Flags.v
Resource.v
Collectors.v
Backoff.v
SessionFiles.v
GoTime.v
Json.v
Sandbox.v
Cgroup.v
Platform.v
Mgmt.v
Manager.v
AgentMain.v
MetaFile.v
Session.v
AgentReports.v
System.v
MgmtApi.v
Cli.v
Serve.v
