(* ===== verification/Prelude.v ===== *)
(** * cli-wrapper: a verified model of the process supervisor

    cli-wrapper runs command line programs under supervision.  A host process
    uses the library in pkg/cliwrap; for every managed program it spawns an
    agent process, which owns the child and talks to the host over a socket
    pair with a framed message protocol.  This development models the Go code
    of both sides as functions on explicit state and proves what makes each
    part correct.

    ** The parts, how they interact, and where they are

    - Frame (internal/ipc/frame.go, reader.go, writer.go): the 17-byte header
      and its codec, [ReadFrame] over a stream delivered in arbitrary chunks,
      [WriteFrame] over a sink that may fail in the middle.
    - Seq (seq.go, acktracker.go): sequence numbers, watermark deduplication,
      pending acknowledgements.
    - Outbox, Wal, Spiller (outbox.go, wal.go, spiller.go): the bounded send
      queue and the log that takes its overflow.  The log file is its bytes;
      appends may be torn and [Retire] may stop anywhere.
    - Message (message.go, codec.go, codec_pty.go, errors.go): the payloads.
      MessagePack is third-party: it is the class [Codec], with its round trip
      as the class [CodecLaws].
    - Conn (conn.go): a connection as one state on which senders, the reader
      goroutine, the writer goroutine, ack waiters and [Close] take steps; the
      reader's place in its loop (reading, in the handler, at a stage of the
      disconnect callback) is part of the state.  Link: two connections joined
      by a pair of byte streams.
    - RingBuffer (agent/ringbuffer.go, logcollect/ringbuf.go): both byte rings
      behind one interface, the class [ByteRing].
    - CwTypes (internal/cwtypes/types.go, pkg/cliwrap/spec_builder.go): specs,
      validation, states, the builder.
    - LogCollect, Rotator (internal/logcollect): the in-memory sink with its
      time and line filters, and the rotating log files.
    - ManagerLogs (pkg/cliwrap/manager_logs.go, options.go): what the manager
      does with a log chunk, snapshots, and the live watchers.
    - PtySubs, Controller (internal/controller): the host side of one agent:
      start, capability negotiation, stop, message handling, PTY subscribers,
      crash records, reattach.  Callbacks (controller.go, [setState]): the same
      code one step of a goroutine at a time, the swap of the state, the read
      of the callback and its call apart.  Heartbeat (heartbeat.go): the heartbeat
      goroutine with its ticker and deadline against a clock.
    - EventBus (pkg/event, internal/eventbus): events, filters, subscriptions.
    - Supervise (internal/supervise): the restart loop over the interface
      [BackoffStrategy], agent spawning, the agent handle, the exit watcher;
      Backoff: its default strategy, in binary64 (math.Pow is the class
      [MathPow] with its documented laws).
    - Agent (internal/agent): the agent side: message dispatch, the goroutine
      of the child, PTY and pipe output, exit statuses, drain, persistent
      sessions and the reattach handshake the controller reads.
    - SessionFiles, MetaFile (agent/persistent_meta.go, dispatcher.go): the pid
      file and the text of meta.json; Json and GoTime are the parts of
      encoding/json and time these use.  Session: a session from its agent to
      the host that reattaches.
    - Runner (agent/runner.go, runner_pty.go): the two ways a child is run,
      step by step: escalation from SIGTERM to SIGKILL, and the process on a
      pseudo-terminal with its read pump.
    - AgentMain (agent/main.go, cmd/cliwrap-agent): the whole agent process.
    - AgentReports, System: what an agent reports about its child, and a
      controller and an agent at the two ends of one socket pair.
    - Platform (internal/platform and the Windows stubs): the platform helper.
    - Config (pkg/config): byte sizes, environment expansion, durations,
      loading and validating a file (YAML parsing is an argument).
    - Resource, Collectors, Cgroup (internal/resource, internal/cgroup): limit
      evaluation, the sampling loop, the text of the system's files.
    - Script, Sandbox (pkg/sandbox): shell quoting and entry point scripts with
      a reference shell lexer, the interface [Provider] with its laws and the
      five providers on a file system.  No code but the tests prepares a
      sandbox, so no caller is modelled.
    - Manager (pkg/cliwrap): the registry of handles, a handle's life over its
      controller, the watcher that publishes events, shutdown, reattach.  A
      pending [Start] holds the lock of its handle ([lock_waits]).
    - Mgmt (internal/mgmt): the management protocol, server connections and
      client, over the interface [ManagerAPI]; MgmtApi (mgmt_api.go) implements
      that interface with the manager.
    - Flags, Cli (cmd/cliwrap): the flag package and the commands; Serve: what
      [run] does from serving to its exit, and [kill].
    - Prelude and Text hold the shared notation, tactics, hints and lemmas.

    The files build on each other: Spiller on Outbox and Wal, Conn on Frame,
    Seq and Spiller, Controller and Agent on Conn, Manager on both, AgentMain
    on Agent and Supervise, Session on MetaFile and Manager, System on Link,
    Controller and AgentMain, MgmtApi on Manager, ManagerLogs and Mgmt, Cli on
    all of the host side.

    ** How state and concurrency are represented

    Structs are records, enumerations inductive types, machine integers are
    [Z] with their wrap-around written out ([u8], [u32], [u64], [i32], [i64]),
    Go maps [gmap], errors the type [result] or [option].  A method is a
    function that returns the new state with its results and the list of what
    it did that others can see.  Code that blocks or releases a lock is split
    there: the parts are separate steps ([..._begin], [..._end], one step per
    loop iteration).  A component's runs are lists of steps ([run_trace]), in
    any order, so a theorem about all runs covers every interleaving of these
    steps.  Choices of the Go scheduler between ready cases of a [select], the
    iteration order of maps and the answers of the operating system are
    arguments of the steps.  A channel shared by several goroutines is an
    address in a store; sending on a closed one sets a panic flag.

    ** What the theorems show

    - The wire: encoding and decoding are inverse and the decoder accepts
      nothing else (Frame, [decode_accepts_exactly_encodings]); a stream of
      frames is recovered from any chunking; a failed write leaves a prefix.
    - Delivery: the frames a connection writes whole are a prefix of its queue
      and reach the peer's handler exactly once and in order, acks match their
      frame, a disconnect is reported at most once, the read loop ends, and
      [Close] joins both loops from wherever they are.
    - Storage: the log refines a list of messages with a byte budget,
      retirement is atomic under crashes, an accepted message is not lost by
      the spiller, the outbox is a bounded FIFO; a torn record poisons a log.
    - Output: rings, sinks and rotated files keep exactly the newest data (one
      file too many when a rotator may keep only one) and
      filters select exactly what they promise; names of files do not clash.
    - Control: every change of the controller's state is reported once by the
      goroutine that made it and the state means what the agent said; one child
      per agent, and an acknowledged stop means the child has been waited for;
      a reattaching host sees the session's last output; events of a process
      come in life-cycle order; persistent agents survive shutdown; restarts
      and their delays are bounded; spawning leaves the host one descriptor and
      the agent the arguments and environment it was meant to get (and, as a
      finding says, the host's end of the socket pair).
    - The agent process: which files each failing start-up leaves behind; one
      that succeeds wakes, drains and cleans up once; a stopped child gets SIGTERM, its grace
      period, then SIGKILL, in bounded time; a pseudo-terminal leaks nothing.
    - Both sides together: a controller and an agent, however their steps and
      the bytes between them interleave, start, report and stop a child; a
      silent agent is noticed within the time the heartbeat promises; the
      texts an agent leaves on disk, and its handshake, give the next host
      back the session it recorded.
    - The command run: it terminates every agent it spawned, except those of
      persistent processes, and exits in bounded time after a signal.
    - Management: any sequence of calls whose requests and answers fit a frame
      refines calls of the manager; watchers and event streams deliver in
      order; an answer that exceeds a frame is not sent.
    - Sandboxes: what a scriptdir sandbox writes, runs and removes, failures
      included; the command lines run exactly the given command with the
      configured isolation; scripts run the command they quote.
    - Limits: the evaluator agrees with a definition over the whole history.
    - Configuration and command line: the accepted byte sizes and their values,
      the meaning of environment references, what a loaded file guarantees and
      that [run] registers it, what commands report.
    - Races and limits that are part of the behaviour: publication against
      close, the ring dump against live data, overflow of byte sizes.

    ** Bounds and fuel

    Loops over data are structural or run on fuel that is the length of their
    input, which the lemmas show sufficient ([read_frames_stream],
    [trim_left_app], [expand_template], [read_loop_terminates], [pval_fuel]).  The restart
    loop runs on the list of answers it gets; [restart_loop_bounded] says how
    many suffice.  A read loop needs at most one turn per byte and four more
    (the read that fails and three stages of the callback), a closing
    connection three turns of its reader and one of its writer
    ([close_joins_goroutines]), a goroutine of the controller two to report
    ([controller_state_sound]).

    ** What is not modelled

    The timers of single calls only as nondeterministic choices; wall-clock
    time as an argument.  Text of floating point numbers (strconv), math.Pow,
    MessagePack, YAML and the fallback of time.Parse beyond RFC 3339 are
    arguments, with laws where a theorem needs them; the text of JSON and of
    times is modelled.  Not modelled: the texts of most
    error values, and the helpers of the tests. *)

From stdpp Require Export base tactics list strings gmap fin_maps numbers sorting.
From Stdlib Require Export Strings.Byte.
From Stdlib Require Import NArith ZArith Lia.

#[global] Open Scope Z_scope.

(** ** Notations, tactics and the hint database *)

Declare Scope cliwrap_scope.
Delimit Scope cliwrap_scope with cw.

Create HintDb cliwrap.
Create Rewrite HintDb cliwrap.

(** Fallible code: [Ok] carries the value, [Err] the error. *)
Inductive result (E A : Type) : Type :=
| Ok (a : A)
| Err (e : E).
Arguments Ok {E A} a.
Arguments Err {E A} e.

Definition result_bind {E A B} (m : result E A) (k : A → result E B) : result E B :=
  match m with Ok a => k a | Err e => Err e end.

Definition is_ok {E A} (m : result E A) : bool :=
  match m with Ok _ => true | Err _ => false end.

Notation "'let!' x ':=' m 'in' k" :=
  (result_bind m (fun x => k))
  (at level 10, x pattern, m at level 100, k at level 200) : cliwrap_scope.
#[global] Open Scope cliwrap_scope.

(** Splits every [match] and [if] left in the goal or a hypothesis. *)
Ltac split_matches :=
  repeat (case_match; simplify_eq/=; try done).

(** Turns boolean tests on [Z] and [nat] into propositions and calls [lia]. *)
Ltac bool_lia :=
  repeat match goal with
  | H : andb _ _ = true |- _ => apply andb_true_iff in H as [? ?]
  | H : orb _ _ = false |- _ => apply orb_false_iff in H as [? ?]
  | H : negb _ = true |- _ => apply negb_true_iff in H
  | H : negb _ = false |- _ => apply negb_false_iff in H
  end; lia.

(** ** Machine-width integers

    A Go integer of width [w] is a [Z]; these are the conversions the source
    writes as [uint8(x)], [uint32(x)], [int64(x)], ... *)

Definition wrap_u (w : Z) (z : Z) : Z := z mod 2 ^ w.
Definition wrap_i (w : Z) (z : Z) : Z := (z + 2 ^ (w - 1)) mod 2 ^ w - 2 ^ (w - 1).

Definition u8 : Z → Z := wrap_u 8.
Definition u32 : Z → Z := wrap_u 32.
Definition u64 : Z → Z := wrap_u 64.
Definition i32 : Z → Z := wrap_i 32.
Definition i64 : Z → Z := wrap_i 64.

Definition in_u (w z : Z) : Prop := 0 ≤ z < 2 ^ w.
Definition in_i (w z : Z) : Prop := - 2 ^ (w - 1) ≤ z < 2 ^ (w - 1).

Lemma wrap_u_small w z : in_u w z → wrap_u w z = z.
Proof. apply Z.mod_small. Qed.

Lemma wrap_u_range w z : 0 ≤ w → in_u w (wrap_u w z).
Proof. intros. apply Z.mod_pos_bound. lia. Qed.

Lemma wrap_i_small w z : 0 < w → in_i w z → wrap_i w z = z.
Proof.
  intros Hw [H1 H2]. unfold wrap_i.
  assert (2 ^ w = 2 * 2 ^ (w - 1)) as Hp.
  { rewrite <- Z.pow_succ_r by lia. f_equal. lia. }
  rewrite Z.mod_small; lia.
Qed.

Lemma wrap_i_range w z : 0 < w → in_i w (wrap_i w z).
Proof.
  intros Hw. unfold in_i, wrap_i.
  assert (2 ^ w = 2 * 2 ^ (w - 1)) as Hp.
  { rewrite <- Z.pow_succ_r by lia. f_equal. lia. }
  pose proof (Z.mod_pos_bound (z + 2 ^ (w - 1)) (2 ^ w)). lia.
Qed.

(** ** Bytes *)

Abbreviation byte := Byte.byte.
Abbreviation bytes := (list byte).

#[global] Instance byte_eq_dec : EqDecision byte := Byte.byte_eq_dec.

Definition Z_of_byte (b : byte) : Z := Z.of_N (Byte.to_N b).
Definition byte_of_Z (z : Z) : byte :=
  match Byte.of_N (Z.to_N (z mod 256)) with Some b => b | None => Byte.x00 end.

Lemma Z_of_byte_range b : 0 ≤ Z_of_byte b < 256.
Proof. unfold Z_of_byte. pose proof (Byte.to_N_bounded b). lia. Qed.

Lemma Z_of_byte_of_Z z : Z_of_byte (byte_of_Z z) = z mod 256.
Proof.
  unfold Z_of_byte, byte_of_Z.
  assert (0 ≤ z mod 256 < 256) as Hr by (apply Z.mod_pos_bound; lia).
  destruct (Byte.of_N _) as [b|] eqn:E.
  - apply Byte.to_of_N in E. lia.
  - exfalso. apply Byte.of_N_None_iff in E. lia.
Qed.

Lemma byte_of_Z_of_byte b : byte_of_Z (Z_of_byte b) = b.
Proof.
  unfold Z_of_byte, byte_of_Z. pose proof (Byte.to_N_bounded b).
  rewrite Z.mod_small by lia. by rewrite N2Z.id, Byte.of_to_N.
Qed.

#[global] Instance Z_of_byte_inj : Inj (=) (=) Z_of_byte.
Proof. intros a b H. by rewrite <- (byte_of_Z_of_byte a), H, byte_of_Z_of_byte. Qed.

(** ** Big-endian words: [binary.BigEndian.PutUint64] and [Uint64] (and the
    32-bit ones), for any number of bytes. *)

Fixpoint be_put (n : nat) (z : Z) : bytes :=
  match n with
  | O => []
  | S n' => byte_of_Z (Z.shiftr z (8 * Z.of_nat n')) :: be_put n' z
  end.

Definition be_get (bs : bytes) : Z :=
  fold_left (fun acc b => Z.lor (Z.shiftl acc 8) (Z_of_byte b)) bs 0.

Lemma length_be_put n z : length (be_put n z) = n.
Proof. induction n; simpl; auto. Qed.

Lemma lor_shiftl_byte acc b :
  Z.lor (Z.shiftl acc 8) (Z_of_byte b) = acc * 256 + Z_of_byte b.
Proof.
  pose proof (Z_of_byte_range b).
  assert (Z.land (Z.shiftl acc 8) (Z_of_byte b) = 0) as Hland.
  { apply Z.bits_inj'. intros n Hn. rewrite Z.land_spec, Z.bits_0, Z.shiftl_spec by done.
    destruct (decide (n < 8)).
    - by rewrite Z.testbit_neg_r by lia.
    - rewrite <- (Z.mod_small (Z_of_byte b) (2 ^ 8)) by lia.
      rewrite (Z.mod_pow2_bits_high _ 8) by lia. apply andb_false_r. }
  rewrite <- Z.lxor_lor, <- Z.add_nocarry_lxor by done.
  rewrite Z.shiftl_mul_pow2 by lia. lia.
Qed.

Lemma be_get_snoc bs b : be_get (bs ++ [b]) = be_get bs * 256 + Z_of_byte b.
Proof. unfold be_get. rewrite fold_left_app. simpl. apply lor_shiftl_byte. Qed.

Lemma be_get_nonneg bs : 0 ≤ be_get bs.
Proof.
  induction bs as [|b bs IH] using rev_ind; [done|].
  rewrite be_get_snoc. pose proof (Z_of_byte_range b). lia.
Qed.

Lemma be_get_bound bs : be_get bs < 2 ^ (8 * Z.of_nat (length bs)).
Proof.
  induction bs as [|b bs IH] using rev_ind; [done|].
  rewrite be_get_snoc, length_app, Nat2Z.inj_add, Z.mul_add_distr_l, Z.pow_add_r by lia.
  pose proof (Z_of_byte_range b). simpl. lia.
Qed.

(** The last byte written is the low one. *)
Lemma be_put_snoc n z : be_put (S n) z = be_put n (z / 256) ++ [byte_of_Z z].
Proof.
  revert z. induction n as [|n IH]; intros z.
  { simpl. by rewrite Z.shiftr_0_r. }
  change (be_put (S (S n)) z) with (byte_of_Z (Z.shiftr z (8 * Z.of_nat (S n))) :: be_put (S n) z).
  rewrite IH. simpl. f_equal. f_equal.
  change 256 with (2 ^ 8). rewrite <- Z.shiftr_div_pow2 by lia.
  rewrite Z.shiftr_shiftr by lia. f_equal. lia.
Qed.

Lemma be_get_put n z : be_get (be_put n z) = z mod 2 ^ (8 * Z.of_nat n).
Proof.
  revert z. induction n as [|n IH]; intros z.
  { simpl. by rewrite Z.mod_1_r. }
  rewrite be_put_snoc, be_get_snoc, IH, Z_of_byte_of_Z.
  replace (8 * Z.of_nat (S n)) with (8 + 8 * Z.of_nat n) by lia.
  rewrite Z.pow_add_r by lia. change (2 ^ 8) with 256.
  rewrite Z.rem_mul_r by lia. lia.
Qed.

Lemma be_put_get bs : be_put (length bs) (be_get bs) = bs.
Proof.
  induction bs as [|b bs IH] using rev_ind; [done|].
  rewrite length_app, Nat.add_comm. simpl Nat.add. rewrite be_put_snoc, be_get_snoc.
  pose proof (Z_of_byte_range b). f_equal.
  - rewrite Z.div_add_l, Z.div_small by lia. by rewrite Z.add_0_r.
  - f_equal. apply (inj Z_of_byte). rewrite Z_of_byte_of_Z.
    rewrite Z.add_comm, Z.mod_add by lia. by apply Z.mod_small.
Qed.

(** ** Slices: the builtin [copy] and suffixes *)

(** [copy(dst[off:], src)]: overwrites [dst] from [off], never growing it. *)
Definition copy_at {A} (off : nat) (src dst : list A) : list A :=
  take off dst ++ take (length dst - off) src ++ drop (off + length src) dst.

(** The number of elements [copy(dst[off:], src)] returns. *)
Definition copy_count {A} (off : nat) (src dst : list A) : nat :=
  Nat.min (length dst - off) (length src).

Lemma length_copy_at {A} off (src dst : list A) :
  (off ≤ length dst)%nat → length (copy_at off src dst) = length dst.
Proof.
  intros. unfold copy_at. rewrite !length_app, !length_take, length_drop. lia.
Qed.

(** The [n] last elements of a list. *)
Definition last_n {A} (n : nat) (l : list A) : list A := drop (length l - n) l.

Lemma length_last_n {A} n (l : list A) : length (last_n n l) = Nat.min n (length l).
Proof. unfold last_n. rewrite length_drop. lia. Qed.

Lemma last_n_all {A} n (l : list A) : (length l ≤ n)%nat → last_n n l = l.
Proof. intros. unfold last_n. by replace (length l - n)%nat with 0%nat by lia. Qed.

Lemma last_n_suffix {A} n (l : list A) : last_n n l `suffix_of` l.
Proof. exists (take (length l - n) l). unfold last_n. by rewrite take_drop. Qed.

Lemma last_n_app_r {A} n (l k : list A) :
  (n ≤ length k)%nat → last_n n (l ++ k) = last_n n k.
Proof.
  intros. unfold last_n. rewrite length_app, drop_app_ge by lia. f_equal. lia.
Qed.

Lemma last_n_app_l {A} n (l k : list A) :
  (length k ≤ n)%nat → last_n n (l ++ k) = last_n (n - length k) l ++ k.
Proof.
  intros. unfold last_n. rewrite length_app.
  destruct (decide (length l ≤ n - length k)%nat).
  - rewrite !(proj2 (Nat.sub_0_le _ _)) by lia. done.
  - rewrite drop_app_le by lia. do 2 f_equal. lia.
Qed.

(** Keeping a suffix of a suffix is keeping a suffix. *)
Lemma last_n_app_last_n {A} n (l k : list A) :
  last_n n (last_n n l ++ k) = last_n n (l ++ k).
Proof.
  destruct (decide (length k ≤ n)%nat).
  - rewrite !last_n_app_l by lia. f_equal. unfold last_n. rewrite length_drop, drop_drop.
    f_equal. lia.
  - by rewrite !last_n_app_r by lia.
Qed.

Lemma last_n_last_n {A} n m (l : list A) :
  (n ≤ m)%nat → last_n n (last_n m l) = last_n n l.
Proof. intros. unfold last_n. rewrite length_drop, drop_drop. f_equal. lia. Qed.

#[global] Hint Rewrite @length_last_n @length_be_put : cliwrap.
#[global] Hint Resolve last_n_suffix Z_of_byte_range be_get_nonneg : cliwrap.

(** ** Association of a total function along a list of events *)

(** Folding a transition that also emits outputs. *)
Fixpoint run_trace {S I O} (f : S → I → S * list O) (s : S) (xs : list I) : S * list O :=
  match xs with
  | [] => (s, [])
  | i :: xs' =>
      let '(s1, o1) := f s i in
      let '(s2, o2) := run_trace f s1 xs' in
      (s2, o1 ++ o2)
  end.

Lemma run_trace_app {S I O} (f : S → I → S * list O) s xs js :
  run_trace f s (xs ++ js) =
  let '(s1, o1) := run_trace f s xs in
  let '(s2, o2) := run_trace f s1 js in
  (s2, o1 ++ o2).
Proof.
  revert s. induction xs as [|i xs IH]; intros s; simpl.
  - by destruct (run_trace f s js).
  - destruct (f s i) as [s1 o1]. rewrite IH.
    destruct (run_trace f s1 xs) as [s2 o2], (run_trace f s2 js) as [s3 o3].
    by rewrite (assoc_L (++)).
Qed.

(** Rule induction over a run: an invariant of the state and the outputs so
    far that every step with an admissible input preserves. *)
Lemma run_trace_inv {S I O} (f : S → I → S * list O) (Inv : S → list O → Prop) (P : I → Prop) :
  (∀ s os i, Inv s os → P i → Inv (f s i).1 (os ++ (f s i).2)) →
  ∀ xs s os, Inv s os → Forall P xs →
  let '(s', os') := run_trace f s xs in Inv s' (os ++ os').
Proof.
  intros Hstep xs. induction xs as [|i xs IH]; intros s os H Hxs; cbn [run_trace].
  - by rewrite app_nil_r.
  - inversion Hxs as [|? ? Hi Hxs']; subst. pose proof (Hstep s os i H Hi) as H1.
    destruct (f s i) as [s1 o1]. specialize (IH s1 (os ++ o1) H1 Hxs').
    destruct (run_trace f s1 xs) as [s2 o2]. by rewrite <- (assoc_L (++)) in IH.
Qed.

(** The same for an invariant of the state alone. *)
Lemma run_trace_state_inv {S I O} (f : S → I → S * list O) (Inv : S → Prop) (P : I → Prop) :
  (∀ s i, Inv s → P i → Inv (f s i).1) → ∀ xs s, Inv s → Forall P xs → Inv (run_trace f s xs).1.
Proof.
  intros Hstep xs s Hs Hxs. pose proof (run_trace_inv f (λ s _, Inv s) P (λ s _ i, Hstep s i) xs s [] Hs Hxs) as H.
  by destruct (run_trace f s xs).
Qed.

Lemma filter_all {A} (P : A → Prop) `{!∀ x, Decision (P x)} (l : list A) : Forall P l → filter P l = l.
Proof. induction 1 as [|x l Hx _ IH]; [done|]. by rewrite filter_cons, decide_True, IH. Qed.
