(* ===== verification/Text.v ===== *)
(** * Strings: lemmas shared by the components that build names, paths and
    command lines.  A Go string is a sequence of bytes, here a [string]. *)

From Stdlib Require Export Strings.Ascii.
From stdpp Require Export pretty.
From S2P Require Import Prelude.

#[global] Open Scope Z_scope.

(** The bytes of a string. *)
Definition chars (s : string) : list ascii := String.list_ascii_of_string s.
Definition of_chars (l : list ascii) : string := String.string_of_list_ascii l.

Lemma chars_app s t : chars (s ++ t)%string = chars s ++ chars t.
Proof. induction s as [|c s IH]; [done|]. unfold chars in *. simpl. by rewrite IH. Qed.

Lemma chars_of l : chars (of_chars l) = l.
Proof. apply String.list_ascii_of_string_of_list_ascii. Qed.
Lemma of_chars_of s : of_chars (chars s) = s.
Proof. apply String.string_of_list_ascii_of_string. Qed.

#[global] Instance chars_inj : Inj (=) (=) chars.
Proof. intros s t H. by rewrite <- (of_chars_of s), H, of_chars_of. Qed.

Lemma of_chars_app l k : of_chars (l ++ k) = (of_chars l ++ of_chars k)%string.
Proof. apply (inj chars). by rewrite chars_app, !chars_of. Qed.

#[global] Instance string_app_inj_l s : Inj (=) (=) (String.append s).
Proof.
  intros t u H. apply (inj chars). apply (f_equal chars) in H. rewrite !chars_app in H.
  by apply app_inv_head in H.
Qed.

Lemma string_app_inj_r s t u : (s ++ u)%string = (t ++ u)%string → s = t.
Proof.
  intros H. apply (inj chars). apply (f_equal chars) in H. rewrite !chars_app in H.
  by apply app_inv_tail in H.
Qed.

(** Splitting at the first occurrence of a separator. *)
Lemma split_first {A} (c : A) (l1 l2 r1 r2 : list A) :
  c ∉ l1 → c ∉ l2 → l1 ++ c :: r1 = l2 ++ c :: r2 → l1 = l2 ∧ r1 = r2.
Proof.
  revert l2. induction l1 as [|x l1 IH]; intros [|y l2] H1 H2 E; simpl in E.
  - by injection E.
  - injection E as -> _. exfalso. apply H2. left.
  - injection E as -> _. exfalso. apply H1. left.
  - injection E as -> E. rewrite not_elem_of_cons in H1, H2.
    destruct H1, H2. by destruct (IH l2) as [-> ->].
Qed.

(** Decimal numerals consist of digits. *)
Definition is_digit (c : ascii) : bool :=
  (48 <=? N_of_ascii c)%N && (N_of_ascii c <=? 57)%N.

Lemma pretty_N_char_digit x : is_digit (pretty_N_char x) = true.
Proof. unfold pretty_N_char. by repeat case_match. Qed.

Lemma pretty_N_go_digits x s :
  forallb is_digit (chars s) = true → forallb is_digit (chars (pretty_N_go x s)) = true.
Proof.
  revert s. induction (N.lt_wf_0 x) as [x _ IH]; intros s Hs.
  destruct (decide (x = 0)%N) as [->|]; [by rewrite pretty_N_go_0|].
  rewrite pretty_N_go_step by lia. apply IH; [apply N.div_lt; lia|].
  cbn [chars String.list_ascii_of_string forallb]. by rewrite pretty_N_char_digit.
Qed.

Lemma pretty_N_digits (x : N) : forallb is_digit (chars (pretty x)) = true.
Proof.
  unfold pretty, pretty_N. case_decide; [done|]. by apply pretty_N_go_digits.
Qed.

Lemma pretty_N_no_char (x : N) c : is_digit c = false → c ∉ chars (pretty x).
Proof.
  intros Hc Hin. pose proof (pretty_N_digits x) as H. rewrite forallb_forall in H.
  apply list_elem_of_In, H in Hin. congruence.
Qed.

(** ** Paths: [filepath.Clean] and [filepath.Join] on a Unix system *)

Definition slash : ascii := "/"%char.

Fixpoint split_slash (l : list ascii) : list (list ascii) :=
  match l with
  | [] => [[]]
  | c :: l' =>
      if Ascii.eqb c slash then [] :: split_slash l'
      else match split_slash l' with x :: xs => (c :: x) :: xs | [] => [[c]] end
  end.

(** The elements kept so far, innermost first. *)
Fixpoint clean_parts (rooted : bool) (acc parts : list (list ascii)) : list (list ascii) :=
  match parts with
  | [] => reverse acc
  | p :: ps =>
      if decide (p = [] ∨ p = ["."]%char) then clean_parts rooted acc ps
      else if decide (p = [".";"."]%char) then
        match acc with
        | [] => clean_parts rooted (if rooted then [] else [p]) ps
        | q :: acc' => if decide (q = [".";"."]%char) then clean_parts rooted (p :: acc) ps
                       else clean_parts rooted acc' ps
        end
      else clean_parts rooted (p :: acc) ps
  end.

Fixpoint join_slash (l : list (list ascii)) : list ascii :=
  match l with
  | [] => []
  | [x] => x
  | x :: l' => x ++ slash :: join_slash l'
  end.

Definition path_clean (l : list ascii) : list ascii :=
  let rooted := match l with c :: _ => Ascii.eqb c slash | [] => false end in
  match rooted, join_slash (clean_parts rooted [] (split_slash l)) with
  | false, [] => ["."%char]
  | false, r => r
  | true, r => slash :: r
  end.

(** [filepath.Join]: empty elements are ignored. *)
Definition path_join (elems : list string) : string :=
  match filter (λ l, l ≠ []) (chars <$> elems) with
  | [] => ""
  | ls => of_chars (path_clean (join_slash ls))
  end.

Example path_join_home : path_join ["/home/u/"; ".cliwrap"; "sessions"] = "/home/u/.cliwrap/sessions"%string.
Proof. reflexivity. Qed.
Example path_join_dots : path_join ["a/../.."; "b"] = "../b"%string.
Proof. reflexivity. Qed.
