(* ===== verification/Script.v ===== *)
(** * Scripts of sandboxes: pkg/sandbox/script.go

    The entrypoint script a provider puts into a sandbox, and where scripts are
    written.  A reference lexer for the part of the POSIX shell language the
    script uses says what a shell makes of its text. *)

From S2P Require Import Prelude Text.

(** ** Script and quoting *)

Record Script := mkScript { sc_InnerPath : string; sc_Mode : Z; sc_Contents : bytes }.

Definition chr (n : N) : ascii := ascii_of_N n.
Definition quote : ascii := chr 39.
Definition backslash : ascii := chr 92.
Definition space : ascii := chr 32.
Definition nl : ascii := chr 10.

(** The characters that make [shellQuote] quote: blank, tab, newline, both
    quotes, backslash, dollar and backquote. *)
Definition quote_triggers : list ascii := chr <$> [32; 9; 10; 39; 34; 92; 36; 96]%N.
Definition triggers (c : ascii) : bool := existsb (Ascii.eqb c) quote_triggers.

(** [strings.ReplaceAll(s, "'", `'\''`)]. *)
Definition escape_quote (c : ascii) : list ascii :=
  if Ascii.eqb c quote then [quote; backslash; quote; quote] else [c].

Definition shellQuote (s : list ascii) : list ascii :=
  match s with
  | [] => [quote; quote]
  | _ => if negb (existsb triggers s) then s
         else quote :: (s ≫= escape_quote) ++ [quote]
  end.

(** The text of the script; [env] in the order the map is iterated. *)
Definition export_line (kv : string * string) : list ascii :=
  chars "export " ++ chars kv.1 ++ chars "=" ++ shellQuote (chars kv.2) ++ [nl].
Definition entrypoint_text (cmd : string) (args : list string) (env : list (string * string)) : list ascii :=
  chars "#!/bin/sh" ++ [nl] ++ chars "set -e" ++ [nl] ++ (env ≫= export_line) ++
  chars "exec " ++ chars cmd ++ (args ≫= λ a, space :: shellQuote (chars a)) ++ [nl].

Definition NewEntrypointScript (cmd : string) (args : list string) (env : list (string * string)) : Script :=
  mkScript "/cliwrap/entrypoint.sh" 493 (byte_of_ascii <$> entrypoint_text cmd args env).

(** ** A shell's view of such a text *)

(** Operators other than the separators, expansions and double quotes are
    outside this fragment. *)
Definition separators : list ascii := chr <$> [10; 59]%N.
Definition unsupported : list ascii := chr <$> [124; 38; 60; 62; 40; 41; 36; 96; 34; 42; 63; 91]%N.
Definition is_in (l : list ascii) (c : ascii) : bool := existsb (Ascii.eqb c) l.
Definition blanks : list ascii := chr <$> [32; 9]%N.
Definition hash : ascii := chr 35.
Definition tilde : ascii := chr 126.

Inductive lex_state := Between | InWord (w : list ascii) | InQuote (w : list ascii) | InComment.

(** Ends a word, and a command unless it is empty. *)
Definition end_word (st : lex_state) (cmd : list (list ascii)) : list (list ascii) :=
  match st with InWord w => cmd ++ [w] | _ => cmd end.
Definition end_command (cmd : list (list ascii)) (done : list (list (list ascii))) : list (list (list ascii)) :=
  match cmd with [] => done | _ => done ++ [cmd] end.
Definition word_of (st : lex_state) : list ascii := match st with InWord w => w | _ => [] end.

(** The simple commands of a text, each the list of its words; [None] where
    the text leaves the fragment. *)
Fixpoint sh_lex (l : list ascii) (st : lex_state) (cmd : list (list ascii)) (done : list (list (list ascii)))
    : option (list (list (list ascii))) :=
  match l with
  | [] => match st with InQuote _ => None | _ => Some (end_command (end_word st cmd) done) end
  | c :: l' =>
      match st with
      | InQuote w => if Ascii.eqb c quote then sh_lex l' (InWord w) cmd done else sh_lex l' (InQuote (w ++ [c])) cmd done
      | InComment => if Ascii.eqb c nl then sh_lex l' Between [] (end_command cmd done) else sh_lex l' InComment cmd done
      | _ =>
          if Ascii.eqb c quote then sh_lex l' (InQuote (word_of st)) cmd done
          else if Ascii.eqb c backslash then
            match l' with
            | [] => None
            | d :: l'' => if Ascii.eqb d nl then sh_lex l'' st cmd done
                          else sh_lex l'' (InWord (word_of st ++ [d])) cmd done
            end
          else if is_in blanks c then sh_lex l' Between (end_word st cmd) done
          else if is_in separators c then sh_lex l' Between [] (end_command (end_word st cmd) done)
          else if is_in unsupported c then None
          else if match st with Between => Ascii.eqb c hash | _ => false end then sh_lex l' InComment cmd done
          else if match st with Between => Ascii.eqb c tilde | _ => false end then None
          else sh_lex l' (InWord (word_of st ++ [c])) cmd done
      end
  end.
Definition sh_commands (l : list ascii) : option (list (list (list ascii))) := sh_lex l Between [] [].

(** ** Which strings survive quoting *)

(** Characters a shell takes literally anywhere. *)
Definition literal (c : ascii) : bool :=
  negb (triggers c || is_in separators c || is_in unsupported c || Ascii.eqb c hash || Ascii.eqb c tilde).
(** Strings that are quoted, or need no quoting. *)
Definition quotable (s : list ascii) : bool := existsb triggers s || forallb literal s.

Definition open_state (st : lex_state) : Prop := match st with Between | InWord _ => True | _ => False end.

Lemma literal_spec c : literal c = true →
  Ascii.eqb c quote = false ∧ Ascii.eqb c backslash = false ∧ is_in blanks c = false ∧ is_in separators c = false ∧
  is_in unsupported c = false ∧ Ascii.eqb c hash = false ∧ Ascii.eqb c tilde = false.
Proof. destruct c as [[] [] [] [] [] [] [] []]; vm_compute; try done. Qed.

Lemma lex_literals s x st cmd done :
  open_state st → s ≠ [] → forallb literal s = true →
  sh_lex (s ++ x) st cmd done = sh_lex x (InWord (word_of st ++ s)) cmd done.
Proof.
  revert st. induction s as [|c s IH]; intros st Hst Hne Hs; [done|].
  simpl in Hs. apply andb_true_iff in Hs as [Hc Hs].
  destruct (literal_spec c Hc) as (H1 & H2 & H3 & H4 & H5 & H6 & H7).
  assert (sh_lex ((c :: s) ++ x) st cmd done = sh_lex (s ++ x) (InWord (word_of st ++ [c])) cmd done) as ->.
  { destruct st; try done; cbn [app sh_lex]; by rewrite H1, H2, H3, H4, H5, ?H6, ?H7. }
  destruct (decide (s = [])) as [->|]; [done|]. rewrite IH by done. simpl. by rewrite <- app_assoc.
Qed.

Lemma lex_in_quote s x w cmd done :
  sh_lex ((s ≫= escape_quote) ++ quote :: x) (InQuote w) cmd done = sh_lex x (InWord (w ++ s)) cmd done.
Proof.
  revert w. induction s as [|c s IH]; intros w; simpl; [by rewrite app_nil_r|].
  unfold escape_quote at 1. destruct (Ascii.eqb c quote) eqn:E; simpl.
  - apply Ascii.eqb_eq in E as ->. rewrite IH. by rewrite <- app_assoc.
  - rewrite E, IH. by rewrite <- app_assoc.
Qed.

Lemma lex_shellQuote s x st cmd done :
  open_state st → quotable s = true →
  sh_lex (shellQuote s ++ x) st cmd done = sh_lex x (InWord (word_of st ++ s)) cmd done.
Proof.
  intros Hst Hq. destruct s as [|c s]; [destruct st; try done; simpl; by rewrite app_nil_r|].
  unfold shellQuote, quotable in *. destruct (existsb triggers (c :: s)); cbn [negb].
  - rewrite <- app_comm_cons, <- app_assoc. cbn [app].
    assert (∀ y, sh_lex (quote :: y) st cmd done = sh_lex y (InQuote (word_of st)) cmd done) as ->.
    { intros y. by destruct st. }
    apply lex_in_quote.
  - by apply lex_literals.
Qed.

Lemma lex_space x st cmd done : open_state st → sh_lex (space :: x) st cmd done = sh_lex x Between (end_word st cmd) done.
Proof. by destruct st. Qed.
Lemma lex_newline x st cmd done :
  open_state st → sh_lex (nl :: x) st cmd done = sh_lex x Between [] (end_command (end_word st cmd) done).
Proof. by destruct st. Qed.

Lemma lex_args args x w cmd done :
  Forall (λ a, quotable (chars a) = true) args →
  sh_lex ((args ≫= λ a, space :: shellQuote (chars a)) ++ nl :: x) (InWord w) cmd done =
  sh_lex x Between [] (done ++ [cmd ++ [w] ++ (chars <$> args)]).
Proof.
  intros Hargs. revert w cmd. induction Hargs as [|a args Ha _ IH]; intros w cmd; cbn [mbind list_bind app fmap list_fmap].
  - rewrite lex_newline by done. cbn [end_word]. by destruct cmd.
  - rewrite lex_space by done. rewrite <- app_assoc, lex_shellQuote by done.
    cbn [word_of app]. rewrite IH. cbn [end_word app]. by rewrite <- app_assoc.
Qed.

Lemma lex_word s x cmd done :
  s ≠ [] → forallb literal s = true → sh_lex (s ++ x) Between cmd done = sh_lex x (InWord s) cmd done.
Proof. intros. by rewrite lex_literals. Qed.

Lemma lex_export kv x done :
  forallb literal (chars kv.1) = true → quotable (chars kv.2) = true →
  sh_lex (export_line kv ++ x) Between [] done =
  sh_lex x Between [] (done ++ [[chars "export"; chars kv.1 ++ chars "=" ++ chars kv.2]]).
Proof.
  intros Hk Hv. destruct kv as [k v]. cbn [fst snd] in *. unfold export_line. cbn [fst snd].
  change (chars "export ") with (chars "export" ++ [space]). rewrite <- !app_assoc.
  rewrite lex_word by done. cbn [app]. rewrite lex_space by done.
  rewrite (app_assoc (chars k)), lex_word; [|by destruct (chars k)|by rewrite forallb_app, Hk].
  rewrite lex_shellQuote by done. cbn [word_of]. rewrite lex_newline by done. cbn [end_word end_command app].
  by rewrite <- !app_assoc.
Qed.

Lemma lex_exports env x done :
  Forall (λ kv, forallb literal (chars kv.1) = true ∧ quotable (chars kv.2) = true) env →
  sh_lex ((env ≫= export_line) ++ x) Between [] done =
  sh_lex x Between [] (done ++ ((λ kv, [chars "export"; chars kv.1 ++ chars "=" ++ chars kv.2]) <$> env)).
Proof.
  intros Henv. revert done. induction Henv as [|kv env [Hk Hv] _ IH]; intros done;
    [simpl; by rewrite app_nil_r|].
  rewrite bind_cons, fmap_cons, <- app_assoc, lex_export by done. rewrite IH. by rewrite <- app_assoc.
Qed.

(** A shell that reads the entrypoint script runs [set -e], one [export
    KEY=VALUE] per variable with exactly the value given, and then [exec] with
    the command and exactly the given arguments as its words, whatever blanks,
    quotes, backslashes, dollars and newlines values and arguments contain, as
    long as the strings [shellQuote] leaves bare have no other shell operator
    and the command and the names, which are never quoted, are literal. *)
Theorem entrypoint_runs_command cmd args env :
  cmd ≠ ""%string → forallb literal (chars cmd) = true →
  Forall (λ a, quotable (chars a) = true) args →
  Forall (λ kv, forallb literal (chars kv.1) = true ∧ quotable (chars kv.2) = true) env →
  sh_commands (ascii_of_byte <$> sc_Contents (NewEntrypointScript cmd args env)) =
  Some ([[chars "set"; chars "-e"]] ++
        ((λ kv, [chars "export"; chars kv.1 ++ chars "=" ++ chars kv.2]) <$> env) ++
        [[chars "exec"; chars cmd] ++ (chars <$> args)]).
Proof.
  intros Hne Hcmd Hargs Henv. cbn [NewEntrypointScript sc_Contents]. rewrite <- list_fmap_compose.
  rewrite (list_fmap_ext _ id) by (intros; apply ascii_of_byte_of_ascii). rewrite list_fmap_id.
  unfold sh_commands, entrypoint_text.
  assert (∀ x, sh_lex (chars "#!/bin/sh" ++ [nl] ++ chars "set -e" ++ [nl] ++ x) Between [] [] =
               sh_lex x Between [] [[chars "set"; chars "-e"]]) as -> by done.
  rewrite lex_exports by done.
  change (chars "exec ") with (chars "exec" ++ [space]). rewrite <- app_assoc, lex_word by done.
  cbn [app]. rewrite lex_space by done.
  rewrite lex_word by (done || by destruct cmd). cbn [end_word app].
  rewrite lex_args by done. cbn [sh_lex end_word end_command].
  reflexivity.
Qed.

Lemma entrypoint_runs_command_witness :
  sh_commands (ascii_of_byte <$> sc_Contents (NewEntrypointScript "/bin/echo" ["it's"; "$HOME; reboot"; ""] [("X", "a b")])) =
  Some [chars <$> ["set"; "-e"]; chars <$> ["export"; "X=a b"];
        chars <$> ["exec"; "/bin/echo"; "it's"; "$HOME; reboot"; ""]].
Proof.
  rewrite (entrypoint_runs_command "/bin/echo" ["it's"; "$HOME; reboot"; ""] [("X", "a b")]);
    [reflexivity|done|reflexivity|repeat constructor|repeat constructor].
Defined.

(** An argument with a separator and none of the characters [shellQuote] looks
    for stays bare: the shell runs a second command. *)
Theorem unquoted_separator_splits_command :
  sh_commands (entrypoint_text "/bin/echo" ["x;reboot"] []) =
  Some [chars <$> ["set"; "-e"]; chars <$> ["exec"; "/bin/echo"; "x"]; chars <$> ["reboot"]].
Proof. reflexivity. Qed.

(** ** Writing a script below a root *)

(** Regular files with their permission bits, and the directories. *)
Record host_fs := mkHostFs { hf_files : gmap string (Z * bytes); hf_dirs : gset string }.

(** [filepath.Dir]: everything up to the last slash, cleaned. *)
Fixpoint until_last_slash (l : list ascii) : list ascii :=
  match l with
  | [] => []
  | c :: l' => if existsb (Ascii.eqb slash) (c :: l') then c :: until_last_slash l' else []
  end.
Definition path_dir (p : string) : string := of_chars (path_clean (until_last_slash (chars p))).

(** Which system call fails, a failing write leaving a prefix of the bytes. *)
Inductive write_fault := NoFault | MkdirFails | WriteFails (k : nat) | ChmodFails.

Definition trim_slash (s : string) : string :=
  match chars s with c :: l => if Ascii.eqb c slash then of_chars l else s | [] => s end.

(** [os.WriteFile]: a new file gets the mode less the umask, an existing one keeps its own. *)
Definition write_file (fs : host_fs) (dst : string) (mode umask : Z) (contents : bytes) : host_fs :=
  let m := match hf_files fs !! dst with Some (m0, _) => m0 | None => Z.ldiff mode umask end in
  mkHostFs (<[dst := (m, contents)]> (hf_files fs)) (hf_dirs fs).

Definition script_dst (s : Script) (root : string) : string := path_join [root; trim_slash (sc_InnerPath s)].

Definition WriteInto (s : Script) (root : string) (umask : Z) (flt : write_fault) (fs : host_fs) : host_fs * bool :=
  let dst := script_dst s root in
  match flt with
  | MkdirFails => (fs, false)
  | _ =>
      let fs1 := mkHostFs (hf_files fs) ({[ path_dir dst ]} ∪ hf_dirs fs) in
      match flt with
      | WriteFails k => (write_file fs1 dst (sc_Mode s) umask (take k (sc_Contents s)), false)
      | _ =>
          let fs2 := write_file fs1 dst (sc_Mode s) umask (sc_Contents s) in
          match flt with
          | ChmodFails => (fs2, false)
          | _ => (mkHostFs (<[dst := (sc_Mode s, sc_Contents s)]> (hf_files fs2)) (hf_dirs fs2), true)
          end
      end
  end.

(** The components a rooted path names. *)
Definition components (p : string) : list (list ascii) := clean_parts true [] (split_slash (chars p)).
Definition dotdot : list ascii := [".";"."]%char.
Definition proper (p : list ascii) : Prop := p ≠ [] ∧ p ≠ ["."%char] ∧ p ≠ dotdot ∧ slash ∉ p.

Lemma clean_parts_app r acc l k :
  ∃ acc', clean_parts r acc l = reverse acc' ∧ clean_parts r acc (l ++ k) = clean_parts r acc' k.
Proof.
  revert acc. induction l as [|p l IH]; intros acc; simpl; [by exists acc|]. repeat case_match; apply IH.
Qed.

(** Without [..], cleaning only adds elements. *)
Lemma clean_parts_grows r acc l :
  dotdot ∉ l → ∃ more, clean_parts r acc l = reverse acc ++ more.
Proof.
  revert acc. induction l as [|p l IH]; intros acc Hd; simpl; [exists []; by rewrite app_nil_r|].
  apply not_elem_of_cons in Hd as [Hp Hd]. case_decide; [by apply IH|].
  rewrite decide_False by (by intros ->). destruct (IH (p :: acc) Hd) as [more ->].
  exists (p :: more). by rewrite reverse_cons, <- app_assoc.
Qed.

Lemma split_slash_no_slash l : Forall (λ p, slash ∉ p) (split_slash l).
Proof.
  induction l as [|c l IH]; simpl; [by repeat constructor; set_solver|].
  destruct (Ascii.eqb c slash) eqn:E; [constructor; [set_solver|done]|].
  apply Ascii.eqb_neq in E. destruct (split_slash l) as [|x xs]; inversion IH; constructor; set_solver.
Qed.

Lemma clean_parts_proper acc l :
  Forall proper acc → Forall (λ p, slash ∉ p) l → Forall proper (clean_parts true acc l).
Proof.
  revert acc. induction l as [|p l IH]; intros acc Ha Hl; simpl; [by rewrite Forall_reverse|].
  inversion_clear Hl as [|?? Hp Hl']. case_decide as E; [by apply IH|]. case_decide.
  - destruct acc as [|q acc]; [by apply IH|]. inversion_clear Ha as [|?? [? [? [? ?]]] ?].
    rewrite decide_False by done. by apply IH.
  - apply IH; [|done]. constructor; [|done]. split_and!; naive_solver.
Qed.

Lemma split_slash_nonempty l : split_slash l ≠ [].
Proof. destruct l as [|c l]; simpl; [done|]. repeat case_match; done. Qed.

Lemma split_slash_app l k : split_slash (l ++ slash :: k) = split_slash l ++ split_slash k.
Proof.
  induction l as [|c l IH]; [done|]. simpl. rewrite IH. destruct (Ascii.eqb c slash); [done|].
  pose proof (split_slash_nonempty l). by destruct (split_slash l).
Qed.

Lemma split_slash_one p : slash ∉ p → split_slash p = [p].
Proof.
  induction p as [|c p IH]; [done|]. intros H. apply not_elem_of_cons in H as [Hc Hp]. simpl.
  rewrite (IH Hp). by apply not_eq_sym, Ascii.eqb_neq in Hc as ->.
Qed.

Lemma split_join l : l ≠ [] → Forall (λ p, slash ∉ p) l → split_slash (join_slash l) = l.
Proof.
  intros Hne H. induction H as [|p l Hp Hl IH]; [done|]. simpl. destruct l as [|q l]; [by apply split_slash_one|].
  rewrite split_slash_app, IH, split_slash_one by done. done.
Qed.

Lemma clean_parts_id acc l : Forall proper l → clean_parts true acc l = reverse acc ++ l.
Proof.
  intros H. revert acc. induction H as [|p l (H1 & H2 & H3 & H4) _ IH]; intros acc; simpl; [by rewrite app_nil_r|].
  rewrite decide_False by naive_solver. rewrite decide_False by done. by rewrite IH, reverse_cons, <- app_assoc.
Qed.

(** Cleaning a rooted path does not change what it names. *)
Lemma components_clean l :
  components (of_chars (path_clean (slash :: l))) = clean_parts true [] (split_slash l).
Proof.
  unfold components. rewrite chars_of. unfold path_clean.
  change (Ascii.eqb slash slash) with true. cbn iota.
  change (split_slash (slash :: l)) with ([] :: split_slash l).
  change (clean_parts true [] ([] :: split_slash l)) with (clean_parts true [] (split_slash l)).
  pose proof (clean_parts_proper [] (split_slash l) (Forall_nil_2 _) (split_slash_no_slash l)) as Hp.
  set (ps := clean_parts true [] (split_slash l)) in *.
  change (split_slash (slash :: join_slash ps)) with ([] :: split_slash (join_slash ps)). simpl.
  destruct (decide (ps = [])) as [->|Hne]; [done|].
  rewrite split_join; [by rewrite clean_parts_id|done|]. eapply Forall_impl; [exact Hp|]. by intros ? (_ & _ & _ & ?).
Qed.

Lemma components_join root rel :
  components (path_join [String slash root; rel]) =
  clean_parts true [] (split_slash (chars root) ++ split_slash (chars rel)).
Proof.
  destruct (chars rel) as [|c l] eqn:E.
  - assert (path_join [String slash root; rel] = of_chars (path_clean (slash :: chars root))) as ->.
    { unfold path_join. cbn [fmap list_fmap]. by rewrite E. }
    rewrite components_clean. change (split_slash []) with [[] : list ascii]. by destruct (clean_parts_app true [] (split_slash (chars root)) [[]]) as (acc & -> & ->).
  - assert (path_join [String slash root; rel] = of_chars (path_clean (slash :: chars root ++ slash :: c :: l))) as ->.
    { unfold path_join. cbn [fmap list_fmap]. by rewrite E. }
    by rewrite components_clean, split_slash_app.
Qed.

(** [p] names something in the tree below [root]. *)
Definition inside (root p : string) : Prop := components root `prefix_of` components p.
#[global] Instance inside_dec root p : Decision (inside root p).
Proof. unfold inside. apply _. Defined.

Lemma script_dst_inside s root :
  dotdot ∉ split_slash (chars (sc_InnerPath s)) → inside (String slash root) (script_dst s (String slash root)).
Proof.
  intros Hd. unfold inside, script_dst. rewrite components_join.
  change (components (String slash root)) with (clean_parts true [] (split_slash (chars root))).
  destruct (clean_parts_app true [] (split_slash (chars root)) (split_slash (chars (trim_slash (sc_InnerPath s)))))
    as (acc & -> & ->).
  destruct (clean_parts_grows true acc (split_slash (chars (trim_slash (sc_InnerPath s))))) as [more ->];
    [|by eexists].
  unfold trim_slash. destruct (chars (sc_InnerPath s)) as [|c l] eqn:E; [by rewrite E|].
  destruct (Ascii.eqb c slash) eqn:Ec; [|by rewrite E]. rewrite chars_of.
  apply Ascii.eqb_eq in Ec as ->. simpl in Hd. set_solver.
Qed.

(** Whatever fails, only the destination is touched. *)
Lemma write_into_frame s root umask flt fs p :
  p ≠ script_dst s root → hf_files (WriteInto s root umask flt fs).1 !! p = hf_files fs !! p.
Proof. intros Hp. unfold WriteInto. destruct flt; simpl; by rewrite ?lookup_insert_ne by done. Qed.

(** A script that writes successfully is found at its destination with
    exactly its bytes and its mode, whatever the umask and whatever was there
    before, no other file changes, and the destination is inside the root when
    the inner path has no [..] element. *)
Theorem write_into_exact s root umask flt fs fs' :
  WriteInto s (String slash root) umask flt fs = (fs', true) →
  hf_files fs' !! script_dst s (String slash root) = Some (sc_Mode s, sc_Contents s) ∧
  (∀ p, p ≠ script_dst s (String slash root) → hf_files fs' !! p = hf_files fs !! p) ∧
  path_dir (script_dst s (String slash root)) ∈ hf_dirs fs' ∧
  (dotdot ∉ split_slash (chars (sc_InnerPath s)) →
   inside (String slash root) (script_dst s (String slash root))).
Proof.
  intros H. split_and!; [| |..]; [| |unfold WriteInto in H; destruct flt; simplify_eq/=; set_solver|apply script_dst_inside].
  - unfold WriteInto in H. destruct flt; simplify_eq/=. by rewrite lookup_insert_eq.
  - intros p Hp. change fs' with (fs', true).1. rewrite <- H. by apply write_into_frame.
Qed.

Lemma write_into_exact_witness :
  let s := NewEntrypointScript "/bin/true" [] [] in
  let fs := mkHostFs {[ "/tmp/d/cliwrap/entrypoint.sh" := (384, []) ]} ∅ in
  hf_files (WriteInto s "/tmp/d" 63 NoFault fs).1 !! script_dst s "/tmp/d" = Some (493, sc_Contents s) ∧
  inside "/tmp/d" (script_dst s "/tmp/d").
Proof.
  intros s fs. destruct (write_into_exact s "tmp/d" 63 NoFault fs _ eq_refl) as (H1 & _ & _ & H4).
  split; [exact H1|]. apply H4. by apply (bool_decide_unpack _).
Defined.

(** With [..] the destination leaves the root. *)
Example inner_path_escapes_root :
  script_dst (mkScript "../../etc/cron.d/x" 420 []) "/tmp/d" = "/etc/cron.d/x"%string.
Proof. reflexivity. Qed.
