(* ===== verification/Frame.v ===== *)
(** * The wire frame: internal/ipc/frame.go, reader.go, writer.go

    The 17-byte header, its encoder and decoder, and the frame reader and
    writer over byte streams.  A stream is read in arbitrary chunks
    ([Reader]) and written to a sink that may fail part way ([Writer]). *)

From S2P Require Import Prelude.

(** ** Protocol constants and message types *)

Definition MagicByte0 : Z := 0xC1.
Definition MagicByte1 : Z := 0xD9.
Definition ProtocolVersion : Z := 0x01.
Definition HeaderSize : nat := 17.
Definition MaxPayloadSize : Z := 16 * 1024 * 1024.

Definition FlagAckRequired : Z := 0x01.
Definition FlagIsReplay : Z := 0x02.
Definition FlagFileRef : Z := 0x04.

(** [Flags.Has]: all bits of [mask] are set. *)
Definition Flags_Has (f mask : Z) : bool := Z.land f mask =? mask.

Definition MsgHello : Z := 0x01.
Definition MsgStartChild : Z := 0x02.
Definition MsgStopChild : Z := 0x03.
Definition MsgSignalChild : Z := 0x04.
Definition MsgWriteStdin : Z := 0x05.
Definition MsgSetLogLevel : Z := 0x06.
Definition MsgPing : Z := 0x07.
Definition MsgShutdown : Z := 0x08.
Definition MsgAckControl : Z := 0x0A.
Definition MsgResume : Z := 0x0B.
Definition MsgTypePTYWrite : Z := 0x20.
Definition MsgTypePTYResize : Z := 0x22.
Definition MsgTypePTYSignal : Z := 0x23.
Definition MsgTypeCapabilityQuery : Z := 0x30.
Definition MsgTypeReattachQuery : Z := 0x40.
Definition MsgHelloAck : Z := 0x81.
Definition MsgChildStarted : Z := 0x82.
Definition MsgChildExited : Z := 0x83.
Definition MsgLogChunk : Z := 0x84.
Definition MsgLogFileRef : Z := 0x85.
Definition MsgChildError : Z := 0x86.
Definition MsgPong : Z := 0x87.
Definition MsgResourceSample : Z := 0x88.
Definition MsgAgentFatal : Z := 0x89.
Definition MsgAckData : Z := 0x8A.
Definition MsgTypePTYData : Z := 0x90.
Definition MsgTypePTYRingDump : Z := 0x91.
Definition MsgTypeCapabilityReply : Z := 0xB0.

Definition AllMessageTypes : list Z :=
  [ MsgHello; MsgStartChild; MsgStopChild; MsgSignalChild;
    MsgWriteStdin; MsgSetLogLevel; MsgPing; MsgShutdown;
    MsgAckControl; MsgResume;
    MsgTypePTYWrite; MsgTypePTYResize; MsgTypePTYSignal;
    MsgTypeCapabilityQuery;
    MsgTypeReattachQuery;
    MsgHelloAck; MsgChildStarted; MsgChildExited; MsgLogChunk;
    MsgLogFileRef; MsgChildError; MsgPong; MsgResourceSample;
    MsgAgentFatal; MsgAckData;
    MsgTypePTYData; MsgTypePTYRingDump;
    MsgTypeCapabilityReply ].

(** ** The header *)

Record Header := mkHeader {
  h_MsgType : Z;
  h_Flags : Z;
  h_SeqNo : Z;
  h_Length : Z
}.

#[global] Instance Header_eq_dec : EqDecision Header.
Proof. solve_decision. Defined.

(** The zero value of the struct, which [var h Header] declares. *)
Definition zero_header : Header := mkHeader 0 0 0 0.

(** The ranges of the Go field types (uint8, uint8, uint64, uint32). *)
Definition header_wf (h : Header) : Prop :=
  in_u 8 (h_MsgType h) ∧ in_u 8 (h_Flags h) ∧ in_u 64 (h_SeqNo h) ∧ in_u 32 (h_Length h).

Inductive io_err := EOF | ErrUnexpectedEOF | ErrIO (code : Z).

Inductive frame_err :=
| ErrShortHeader
| ErrInvalidMagic
| ErrUnsupportedVersion
| ErrFrameTooLarge
| ErrLengthMismatch
| ErrStream (e : io_err).

#[global] Instance io_err_eq_dec : EqDecision io_err.
Proof. solve_decision. Defined.
#[global] Instance frame_err_eq_dec : EqDecision frame_err.
Proof. solve_decision. Defined.

(** [Header.Encode]: the 17 bytes it stores. *)
Definition Encode (h : Header) : bytes :=
  [ byte_of_Z MagicByte0; byte_of_Z MagicByte1; byte_of_Z ProtocolVersion;
    byte_of_Z (h_MsgType h); byte_of_Z (h_Flags h) ]
  ++ be_put 8 (h_SeqNo h) ++ be_put 4 (h_Length h).

(** The whole method, on its destination slice; [None] is the index panic of
    the bounds-check hint when [dst] is too short. *)
Definition EncodeInto (h : Header) (dst : bytes) : option bytes :=
  if (length dst <? HeaderSize)%nat then None else Some (copy_at 0 (Encode h) dst).

Definition nth_Z (src : bytes) (i : nat) : Z :=
  match src !! i with Some b => Z_of_byte b | None => 0 end.

Definition slice (i j : nat) (src : bytes) : bytes := take (j - i) (drop i src).

(** [Header.Decode]: the header it leaves behind (the receiver [h] when it
    fails before the first store) and its error. *)
Definition Decode (h : Header) (src : bytes) : Header * option frame_err :=
  if (length src <? HeaderSize)%nat then (h, Some ErrShortHeader)
  else if negb (nth_Z src 0 =? MagicByte0) || negb (nth_Z src 1 =? MagicByte1)
  then (h, Some ErrInvalidMagic)
  else if negb (nth_Z src 2 =? ProtocolVersion) then (h, Some ErrUnsupportedVersion)
  else
    let h' := mkHeader (nth_Z src 3) (nth_Z src 4)
                       (be_get (slice 5 13 src)) (be_get (slice 13 17 src)) in
    if MaxPayloadSize <? h_Length h' then (h', Some ErrFrameTooLarge) else (h', None).

(** ** Streams *)

(** What is left of an [io.Reader]: the pieces the next [Read] calls return
    and the error that follows them. *)
Record Reader := mkReader { r_chunks : list bytes; r_end : io_err }.

(** The loop of [io.ReadFull]: reads [need] more bytes, chunk by chunk. *)
Fixpoint read_loop (need : nat) (cs : list bytes) : bytes * list bytes :=
  match need, cs with
  | O, _ => ([], cs)
  | S _, [] => ([], [])
  | S _, c :: cs' =>
      if (length c <=? need)%nat
      then let '(bs, r) := read_loop (need - length c) cs' in (c ++ bs, r)
      else (take need c, drop need c :: cs')
  end.

(** [io.ReadFull]: [n] bytes, or the reader's error ([ErrUnexpectedEOF] when
    EOF came after some bytes). *)
Definition ReadFull (n : nat) (r : Reader) : Reader * bytes * option io_err :=
  let '(bs, cs) := read_loop n (r_chunks r) in
  let r' := mkReader cs (r_end r) in
  if (n <=? length bs)%nat then (r', bs, None)
  else match r_end r with
       | EOF => (r', bs, Some (if (0 <? length bs)%nat then ErrUnexpectedEOF else EOF))
       | e => (r', bs, Some e)
       end.

(** An [io.Writer]: what reached the sink, and how many bytes it still takes
    before it fails ([None]: it never fails). *)
Record Writer := mkWriter { w_out : bytes; w_room : option nat }.

Definition write_err : io_err := ErrIO 0.

Definition Write (w : Writer) (p : bytes) : Writer * nat * option io_err :=
  match w_room w with
  | None => (mkWriter (w_out w ++ p) None, length p, None)
  | Some k =>
      if (length p <=? k)%nat
      then (mkWriter (w_out w ++ p) (Some (k - length p)%nat), length p, None)
      else (mkWriter (w_out w ++ take k p) (Some 0%nat), k, Some write_err)
  end.

(** ** The frame reader *)

Record FrameReader := mkFrameReader { fr_r : Reader; fr_cap : Z }.

Definition NewFrameReader (r : Reader) (maxPayload : Z) : FrameReader :=
  mkFrameReader r
    (if (maxPayload =? 0) || (MaxPayloadSize <? maxPayload) then MaxPayloadSize else maxPayload).

Definition ReadFrame (fr : FrameReader) : FrameReader * Header * bytes * option frame_err :=
  let '(r1, scratch, e1) := ReadFull HeaderSize (fr_r fr) in
  let fr1 := mkFrameReader r1 (fr_cap fr) in
  match e1 with
  | Some e => (fr1, zero_header, [], Some (ErrStream e))
  | None =>
      let '(h, e2) := Decode zero_header scratch in
      match e2 with
      | Some e => (fr1, h, [], Some e)
      | None =>
          if fr_cap fr <? h_Length h then (fr1, h, [], Some ErrFrameTooLarge)
          else if h_Length h =? 0 then (fr1, h, [], None)
          else
            let '(r2, body, e3) := ReadFull (Z.to_nat (h_Length h)) r1 in
            let fr2 := mkFrameReader r2 (fr_cap fr) in
            match e3 with
            | Some EOF => (fr2, h, [], Some (ErrStream ErrUnexpectedEOF))
            | Some e => (fr2, h, [], Some (ErrStream e))
            | None => (fr2, h, body, None)
            end
      end
  end.

(** ** The frame writer *)

Definition WriteFrame (w : Writer) (h : Header) (payload : bytes)
    : Writer * nat * option frame_err :=
  if MaxPayloadSize <? h_Length h then (w, 0%nat, Some ErrFrameTooLarge)
  else if negb (h_Length h =? Z.of_nat (length payload)) then (w, 0%nat, Some ErrLengthMismatch)
  else
    let '(w1, n, e1) := Write w (Encode h) in
    match e1 with
    | Some e => (w1, n, Some (ErrStream e))
    | None =>
        if (length payload =? 0)%nat then (w1, n, None)
        else
          let '(w2, m, e2) := Write w1 payload in
          (w2, (n + m)%nat, ErrStream <$> e2)
    end.

(** A message: [ipc.OutboxMessage], a header with its payload. *)
Record OutboxMessage := mkMsg { m_Header : Header; m_Payload : bytes }.

#[global] Instance OutboxMessage_eq_dec : EqDecision OutboxMessage.
Proof. solve_decision. Defined.

(** The bytes of one frame. *)
Definition frame_bytes (m : OutboxMessage) : bytes := Encode (m_Header m) ++ m_Payload m.

(** What [WriteFrame] accepts. *)
Definition msg_ok (m : OutboxMessage) : Prop :=
  header_wf (m_Header m) ∧
  h_Length (m_Header m) = Z.of_nat (length (m_Payload m)) ∧
  h_Length (m_Header m) ≤ MaxPayloadSize.

(** ** Header lemmas *)

Lemma length_Encode h : length (Encode h) = HeaderSize.
Proof. done. Qed.

Lemma slice_app (a b c : bytes) i j :
  i = length a → j = (length a + length b)%nat → slice i j (a ++ b ++ c) = b.
Proof.
  intros -> ->. unfold slice. rewrite drop_app_length.
  replace (length a + length b - length a)%nat with (length b) by lia.
  by rewrite take_app_length.
Qed.

Lemma Encode_slices h rest :
  slice 5 13 (Encode h ++ rest) = be_put 8 (h_SeqNo h) ∧
  slice 13 17 (Encode h ++ rest) = be_put 4 (h_Length h).
Proof. split; done. Qed.

Lemma byte_roundtrip z : in_u 8 z → Z_of_byte (byte_of_Z z) = z.
Proof. intros. rewrite Z_of_byte_of_Z. by apply Z.mod_small. Qed.

Lemma be_roundtrip n z : in_u (8 * Z.of_nat n) z → be_get (be_put n z) = z.
Proof. intros. rewrite be_get_put. by apply Z.mod_small. Qed.

#[export] Hint Rewrite byte_roundtrip be_roundtrip using done : cliwrap.

(** Decoding an encoded header stores exactly that header; only the length
    check is left to fail. *)
Lemma Decode_Encode h0 h rest :
  header_wf h →
  Decode h0 (Encode h ++ rest) =
    (h, if MaxPayloadSize <? h_Length h then Some ErrFrameTooLarge else None).
Proof.
  intros (Ht & Hf & Hs & Hl). unfold Decode.
  destruct (Encode_slices h rest) as [-> ->].
  assert ((length (Encode h ++ rest) <? HeaderSize)%nat = false) as ->.
  { apply Nat.ltb_ge. rewrite length_app, length_Encode. lia. }
  change (nth_Z (Encode h ++ rest) 0) with MagicByte0.
  change (nth_Z (Encode h ++ rest) 1) with MagicByte1.
  change (nth_Z (Encode h ++ rest) 2) with ProtocolVersion.
  change (nth_Z (Encode h ++ rest) 3) with (Z_of_byte (byte_of_Z (h_MsgType h))).
  change (nth_Z (Encode h ++ rest) 4) with (Z_of_byte (byte_of_Z (h_Flags h))).
  rewrite !byte_roundtrip, !be_roundtrip by done. simpl.
  destruct h; simpl in *. by destruct (MaxPayloadSize <? _).
Qed.

Lemma Decode_Encode_exact h0 h :
  header_wf h →
  Decode h0 (Encode h) =
    (h, if MaxPayloadSize <? h_Length h then Some ErrFrameTooLarge else None).
Proof. intros. rewrite <- (app_nil_r (Encode h)). by apply Decode_Encode. Qed.

Lemma nth_Z_eq src i b z : src !! i = Some b → nth_Z src i = z → b = byte_of_Z z.
Proof. unfold nth_Z. intros -> <-. by rewrite byte_of_Z_of_byte. Qed.

(** What a successful decode says about its input: the 17 bytes are the
    encoding of the header it returns, and no other. *)
Lemma Decode_inv h0 src h :
  Decode h0 src = (h, None) →
  (HeaderSize ≤ length src)%nat ∧ take HeaderSize src = Encode h ∧
  header_wf h ∧ h_Length h ≤ MaxPayloadSize.
Proof.
  unfold Decode. intros H. case_match eqn:E1; [done|].
  case_match eqn:E2; [done|]. case_match eqn:E3; [done|].
  case_match eqn:E4; [done|]. injection H as <-. cbn [h_Length] in *.
  apply Nat.ltb_ge in E1. split; [done|].
  apply orb_false_iff in E2 as [E2a E2b].
  apply negb_false_iff, Z.eqb_eq in E2a, E2b, E3. apply Z.ltb_ge in E4.
  do 17 (destruct src as [|? src]; [unfold HeaderSize in E1; simpl in E1; lia|]).
  eapply nth_Z_eq in E2a, E2b, E3; [|reflexivity..]. subst.
  split; [|split; [repeat split; simpl; try apply Z_of_byte_range|done]].
  - unfold Encode. cbn [h_MsgType h_Flags h_SeqNo h_Length].
    match goal with |- context [be_put 8 (be_get ?l)] =>
      change (be_put 8 (be_get l)) with (be_put (length l) (be_get l)) end.
    match goal with |- context [be_put 4 (be_get ?l)] =>
      change (be_put 4 (be_get l)) with (be_put (length l) (be_get l)) end.
    unfold nth_Z. cbn [lookup list_lookup]. rewrite !be_put_get, !byte_of_Z_of_byte. done.
  - apply be_get_nonneg.
  - eapply Z.lt_le_trans; [apply be_get_bound|]. done.
  - apply be_get_nonneg.
  - eapply Z.lt_le_trans; [apply be_get_bound|]. done.
Qed.

(** ** Stream lemmas: only the concatenation of the chunks matters *)

Definition r_bytes (r : Reader) : bytes := concat (r_chunks r).
#[global] Arguments r_bytes : simpl never.

Lemma read_loop_spec n cs :
  let '(bs, r) := read_loop n cs in
  bs = take n (concat cs) ∧ concat r = drop n (concat cs).
Proof.
  revert n. induction cs as [|c cs IH]; intros [|n]; simpl; try done.
  destruct (length c <=? S n)%nat eqn:E.
  - apply Nat.leb_le in E. specialize (IH (S n - length c)%nat).
    destruct (read_loop _ cs) as [bs r]. destruct IH as [-> ->].
    rewrite take_app, drop_app. by rewrite (take_ge c), (drop_ge c) by lia.
  - apply Nat.leb_gt in E. simpl.
    rewrite take_app, drop_app. replace (S n - length c)%nat with 0%nat by lia.
    by rewrite take_0, app_nil_r, drop_0.
Qed.

(** [ReadFull] with enough bytes left. *)
Lemma ReadFull_ok n r :
  (n ≤ length (r_bytes r))%nat →
  ∃ r', ReadFull n r = (r', take n (r_bytes r), None) ∧
        r_bytes r' = drop n (r_bytes r) ∧ r_end r' = r_end r.
Proof.
  intros Hn. unfold ReadFull. pose proof (read_loop_spec n (r_chunks r)) as Hl.
  destruct (read_loop n (r_chunks r)) as [bs cs]. destruct Hl as [-> Hc].
  fold (r_bytes r) in *. rewrite length_take, Nat.min_l by done.
  rewrite Nat.leb_refl. eexists. split; [done|]. done.
Qed.

(** [ReadFull] on a stream that ends too soon. *)
Lemma ReadFull_short n r :
  (length (r_bytes r) < n)%nat →
  ∃ r', ReadFull n r =
    (r', r_bytes r,
     Some (match r_end r with
           | EOF => if (0 <? length (r_bytes r))%nat then ErrUnexpectedEOF else EOF
           | e => e
           end)) ∧ r_bytes r' = [] ∧ r_end r' = r_end r.
Proof.
  intros Hn. unfold ReadFull. pose proof (read_loop_spec n (r_chunks r)) as Hl.
  destruct (read_loop n (r_chunks r)) as [bs cs]. destruct Hl as [-> Hc].
  fold (r_bytes r) in *. rewrite take_ge by lia. rewrite drop_ge in Hc by lia.
  assert ((n <=? length (r_bytes r))%nat = false) as -> by (apply Nat.leb_gt; lia).
  exists (mkReader cs (r_end r)). split; [by destruct (r_end r)|]. done.
Qed.

(** The reader after a successful read of a whole frame. *)
Lemma ReadFrame_frame fr m rest :
  msg_ok m → h_Length (m_Header m) ≤ fr_cap fr →
  r_bytes (fr_r fr) = frame_bytes m ++ rest →
  ∃ fr', ReadFrame fr = (fr', m_Header m, m_Payload m, None) ∧
         r_bytes (fr_r fr') = rest ∧ r_end (fr_r fr') = r_end (fr_r fr) ∧
         fr_cap fr' = fr_cap fr.
Proof.
  intros (Hwf & Hlen & Hmax) Hcap Hb. unfold frame_bytes in Hb.
  rewrite <- (assoc_L (++)) in Hb. unfold ReadFrame.
  destruct (ReadFull_ok HeaderSize (fr_r fr)) as (r1 & -> & Hb1 & He1).
  { rewrite Hb, length_app, length_Encode. lia. }
  rewrite Hb, <- (length_Encode (m_Header m)), take_app_length.
  rewrite Decode_Encode_exact by done.
  rewrite (proj2 (Z.ltb_ge _ _)), (proj2 (Z.ltb_ge (fr_cap fr) _)) by done.
  rewrite Hb, <- (length_Encode (m_Header m)), drop_app_length in Hb1.
  destruct (h_Length (m_Header m) =? 0) eqn:E0.
  - apply Z.eqb_eq in E0. assert (m_Payload m = []) as Hnil.
    { apply length_zero_iff_nil. lia. }
    rewrite Hnil in *. exists (mkFrameReader r1 (fr_cap fr)). rewrite <- He1. done.
  - destruct (ReadFull_ok (Z.to_nat (h_Length (m_Header m))) r1) as (r2 & -> & Hb2 & He2).
    { rewrite Hb1, length_app. lia. }
    rewrite Hb1, Hlen, Nat2Z.id, take_app_length in *.
    rewrite drop_app_length in Hb2. exists (mkFrameReader r2 (fr_cap fr)).
    rewrite <- He1, <- He2. done.
Qed.

(** Writing to a sink that does not fail. *)
Lemma WriteFrame_ok out m :
  msg_ok m →
  WriteFrame (mkWriter out None) (m_Header m) (m_Payload m) =
    (mkWriter (out ++ frame_bytes m) None, length (frame_bytes m), None).
Proof.
  intros (Hwf & Hlen & Hmax). unfold WriteFrame, frame_bytes.
  rewrite (proj2 (Z.ltb_ge _ _)), (proj2 (Z.eqb_eq _ _)) by done.
  unfold Write. cbn [negb w_room w_out].
  destruct (length (m_Payload m) =? 0)%nat eqn:E.
  - apply Nat.eqb_eq, length_zero_iff_nil in E. by rewrite E, !app_nil_r.
  - cbn [fmap option_fmap option_map]. by rewrite <- (assoc_L (++)), length_app.
Qed.

(** ** Properties *)

(** The decoder accepts exactly the canonical encodings: it succeeds on
    [src] iff [src] starts with the 17 bytes of an in-range header within the
    payload cap, and the header it returns is that one. *)
Theorem decode_accepts_exactly_encodings (h0 : Header) (src : bytes) (h : Header) :
  Decode h0 src = (h, None) ↔
  (header_wf h ∧ h_Length h ≤ MaxPayloadSize ∧ Encode h `prefix_of` src).
Proof.
  split.
  - intros H. apply Decode_inv in H as (Hl & Ht & Hwf & Hmax). split_and!; [done..|].
    exists (drop HeaderSize src). by rewrite <- Ht, take_drop.
  - intros (Hwf & Hmax & [rest ->]). rewrite Decode_Encode by done.
    by rewrite (proj2 (Z.ltb_ge _ _)).
Qed.

(** The loop every consumer of a connection runs: read frames until the first
    error.  The fuel bounds the number of frames; one more than the number of
    frames on the stream is enough ([read_frames_stream]). *)
Fixpoint read_frames (fuel : nat) (fr : FrameReader) : list OutboxMessage * option frame_err :=
  match fuel with
  | O => ([], None)
  | S fuel' =>
      let '(fr', h, body, e) := ReadFrame fr in
      match e with
      | Some e => ([], Some e)
      | None => let '(ms, e') := read_frames fuel' fr' in (mkMsg h body :: ms, e')
      end
  end.

Definition stream_bytes (ms : list OutboxMessage) : bytes := concat (frame_bytes <$> ms).

(** A stream that ends strictly inside a frame. *)
Lemma ReadFrame_partial fr m part :
  msg_ok m → h_Length (m_Header m) ≤ fr_cap fr →
  part `prefix_of` frame_bytes m → part ≠ frame_bytes m →
  r_bytes (fr_r fr) = part → r_end (fr_r fr) = EOF →
  ∃ fr' h, ReadFrame fr =
    (fr', h, [], Some (ErrStream (if (0 <? length part)%nat then ErrUnexpectedEOF else EOF))).
Proof.
  intros (Hwf & Hlen & Hmax) Hcap [q Hq] Hne Hb Hend. unfold ReadFrame.
  destruct (decide (length part < HeaderSize)%nat) as [Hshort|Hlong].
  - destruct (ReadFull_short HeaderSize (fr_r fr)) as (r1 & -> & _); [by rewrite Hb|].
    rewrite Hb, Hend. eauto.
  - destruct (ReadFull_ok HeaderSize (fr_r fr)) as (r1 & -> & Hb1 & He1); [rewrite Hb; lia|].
    assert (∃ b, part = Encode (m_Header m) ++ b ∧ m_Payload m = b ++ q) as (b & -> & Hpay).
    { exists (drop HeaderSize part). unfold frame_bytes in Hq.
      rewrite <- (take_drop HeaderSize part), <- (assoc_L (++)) in Hq.
      apply app_inj_1 in Hq as [Ht Hd].
      - split; [by rewrite Ht, take_drop | done].
      - rewrite length_take, length_Encode. lia. }
    rewrite Hb, <- (length_Encode (m_Header m)), take_app_length.
    rewrite Hb, <- (length_Encode (m_Header m)), drop_app_length in Hb1.
    rewrite Decode_Encode_exact by done.
    rewrite (proj2 (Z.ltb_ge _ _)), (proj2 (Z.ltb_ge (fr_cap fr) _)) by done.
    assert (length b < length (m_Payload m))%nat as Hlt.
    { rewrite Hpay, length_app. destruct q; simpl; [|lia]. exfalso. apply Hne.
      unfold frame_bytes. by rewrite Hpay, app_nil_r. }
    rewrite (proj2 (Z.eqb_neq _ _)) by lia.
    destruct (ReadFull_short (Z.to_nat (h_Length (m_Header m))) r1) as (r2 & -> & _).
    { rewrite Hb1. lia. }
    rewrite He1, Hend, length_app, length_Encode. simpl. destruct (0 <? _)%nat; eauto.
Qed.

Lemma read_frames_stream fr ms m part fuel :
  Forall (λ m, msg_ok m ∧ h_Length (m_Header m) ≤ fr_cap fr) (m :: ms) →
  part `prefix_of` frame_bytes m → part ≠ frame_bytes m →
  r_bytes (fr_r fr) = stream_bytes ms ++ part → r_end (fr_r fr) = EOF →
  (length ms < fuel)%nat →
  read_frames fuel fr =
    (ms, Some (ErrStream (if (0 <? length part)%nat then ErrUnexpectedEOF else EOF))).
Proof.
  revert fr ms. induction fuel as [|fuel IH]; intros fr ms Hall Hpre Hne Hb Hend Hfuel; [lia|].
  inversion Hall as [|?? [Hm Hmc] Hms]; subst. simpl.
  destruct ms as [|m1 ms].
  - destruct (ReadFrame_partial fr m part) as (fr' & h & ->); done.
  - inversion Hms as [|?? [Hok Hcap] Hms']; subst. cbn [stream_bytes fmap list_fmap concat] in Hb.
    rewrite <- (assoc_L (++)) in Hb.
    destruct (ReadFrame_frame fr m1 _ Hok Hcap Hb) as (fr' & -> & Hb' & He' & Hc').
    rewrite (IH fr' ms); try done; [by destruct m1| |by rewrite He'|simpl in Hfuel; lia].
    rewrite Hc'. by constructor.
Qed.

(** C19: framing is self-delimiting.  Write any list of well-formed messages,
    cut the byte stream anywhere (strictly inside one more frame, or right at
    a boundary), hand it to the reader in chunks of any size: the reader
    returns exactly the complete messages, in order, and then [io.EOF] at a
    frame boundary, [io.ErrUnexpectedEOF] inside a frame. *)
Theorem stream_roundtrip (r : Reader) (cap : Z) (ms : list OutboxMessage)
    (m : OutboxMessage) (part : bytes)
    (Hok : Forall (λ m, msg_ok m ∧ h_Length (m_Header m) ≤ fr_cap (NewFrameReader r cap)) (m :: ms))
    (Hpart : part `prefix_of` frame_bytes m ∧ part ≠ frame_bytes m)
    (Hbytes : concat (r_chunks r) = concat (frame_bytes <$> ms) ++ part)
    (Hend : r_end r = EOF) :
  read_frames (S (length ms)) (NewFrameReader r cap) =
    (ms, Some (ErrStream (if (0 <? length part)%nat then ErrUnexpectedEOF else EOF))).
Proof.
  destruct Hpart as [Hpre Hne]. eapply read_frames_stream; try done. lia.
Qed.

Definition ex_msg1 : OutboxMessage := mkMsg (mkHeader MsgPing 0 1 2) [x68; x69].
Definition ex_msg2 : OutboxMessage := mkMsg (mkHeader MsgShutdown 1 2 0) [].
(** One whole frame, then 17 bytes of the next one's 19, in three chunks. *)
Definition ex_reader : Reader :=
  mkReader [take 5 (frame_bytes ex_msg2); drop 5 (frame_bytes ex_msg2) ++ take 1 (frame_bytes ex_msg1);
            take 16 (drop 1 (frame_bytes ex_msg1))] EOF.

Lemma stream_roundtrip_witness :
  read_frames 2 (NewFrameReader ex_reader 0) = ([ex_msg2], Some (ErrStream ErrUnexpectedEOF)).
Proof.
  apply (stream_roundtrip ex_reader 0 [ex_msg2] ex_msg1 (take 17 (frame_bytes ex_msg1))).
  - repeat constructor; vm_compute; congruence.
  - split; [exists (drop 17 (frame_bytes ex_msg1)); reflexivity | discriminate].
  - reflexivity.
  - reflexivity.
Defined.

Lemma ReadFrame_inv fr fr' h body :
  ReadFrame fr = (fr', h, body, None) →
  msg_ok (mkMsg h body) ∧ h_Length h ≤ fr_cap fr ∧
  r_bytes (fr_r fr) = frame_bytes (mkMsg h body) ++ r_bytes (fr_r fr').
Proof.
  unfold ReadFrame. intros Hread. set (r := fr_r fr) in *.
  destruct (decide (length (r_bytes r) < HeaderSize)%nat) as [Hs|Hs].
  { destruct (ReadFull_short HeaderSize r Hs) as (r1 & Hr & _). rewrite Hr in Hread. done. }
  destruct (ReadFull_ok HeaderSize r ltac:(lia)) as (r1 & Hr & Hb1 & He1). rewrite Hr in Hread.
  destruct (Decode zero_header _) as [h1 [e|]] eqn:Hd; [done|].
  apply Decode_inv in Hd as (_ & Ht & Hwf & Hmax). rewrite take_take, Nat.min_id in Ht.
  destruct (fr_cap fr <? h_Length h1) eqn:Ec; [done|]. apply Z.ltb_ge in Ec.
  assert (0 ≤ h_Length h1) as Hpos by apply Hwf.
  destruct (h_Length h1 =? 0) eqn:E0.
  - apply Z.eqb_eq in E0. simplify_eq. split_and!; try done.
    unfold frame_bytes. cbn [fr_r m_Header m_Payload]. rewrite Hb1. by rewrite app_nil_r, <- Ht, take_drop.
  - apply Z.eqb_neq in E0.
    destruct (decide (length (r_bytes r1) < Z.to_nat (h_Length h1))%nat) as [Hs2|Hs2].
    { destruct (ReadFull_short _ r1 Hs2) as (r2 & Hr2 & _). rewrite Hr2 in Hread. by repeat case_match. }
    destruct (ReadFull_ok (Z.to_nat (h_Length h1)) r1 ltac:(lia)) as (r2 & Hr2 & Hb2 & _).
    rewrite Hr2 in Hread. simplify_eq.
    split; [split; [done|split; [|done]]|split; [done|]].
    + cbn [m_Header m_Payload]. rewrite length_take. lia.
    + unfold frame_bytes. cbn [fr_r m_Header m_Payload]. rewrite Hb2.
      by rewrite <- (assoc_L (++)), take_drop, Hb1, <- Ht, take_drop.
Qed.

(** Whatever bytes the peer sends and however they are chunked, a frame
    the reader accepts is well formed, its body has exactly the announced
    length, that length is within both caps, and exactly its bytes were
    consumed from the stream. *)
Theorem read_frame_sound (r : Reader) (maxPayload : Z) (fr' : FrameReader)
    (h : Header) (body : bytes)
    (Hread : ReadFrame (NewFrameReader r maxPayload) = (fr', h, body, None)) :
  msg_ok (mkMsg h body) ∧ h_Length h ≤ fr_cap (NewFrameReader r maxPayload) ≤ MaxPayloadSize ∧
  concat (r_chunks r) = frame_bytes (mkMsg h body) ++ concat (r_chunks (fr_r fr')).
Proof.
  split_and!; try apply (ReadFrame_inv _ _ _ _ Hread).
  unfold NewFrameReader. simpl. case_match; [done|]. bool_lia.
Qed.

Lemma read_frame_sound_witness :
  msg_ok ex_msg2 ∧ 0 ≤ MaxPayloadSize ≤ MaxPayloadSize ∧
  concat (r_chunks ex_reader) = frame_bytes ex_msg2 ++ take 17 (frame_bytes ex_msg1).
Proof.
  pose proof (read_frame_sound ex_reader 0
    (mkFrameReader (mkReader [take 1 (frame_bytes ex_msg1); take 16 (drop 1 (frame_bytes ex_msg1))] EOF)
       MaxPayloadSize) (m_Header ex_msg2) [] ltac:(vm_compute; reflexivity)) as H.
  exact H.
Defined.

(** A failing sink keeps the prefix of the frame it had room for. *)
Lemma WriteFrame_cut (out : bytes) (k : nat) (m : OutboxMessage) (Hok : msg_ok m) :
  ∃ w' n e,
    WriteFrame (mkWriter out (Some k)) (m_Header m) (m_Payload m) = (w', n, e) ∧
    w_out w' = out ++ take k (frame_bytes m) ∧
    n = length (take k (frame_bytes m)) ∧
    (e = None ↔ (length (frame_bytes m) ≤ k)%nat).
Proof.
  destruct Hok as (Hwf & Hlen & Hmax). unfold WriteFrame.
  rewrite (proj2 (Z.ltb_ge _ _)), (proj2 (Z.eqb_eq _ _)) by done.
  cbn [negb]. unfold Write. cbn [w_room w_out]. unfold frame_bytes.
  assert (length (Encode (m_Header m)) = HeaderSize) as HL by apply length_Encode.
  rewrite take_app. rewrite !length_app. destruct (_ <=? k)%nat eqn:E1; cbn [w_room w_out].
  - apply Nat.leb_le in E1. rewrite (take_ge (Encode _)) by lia.
    destruct (length (m_Payload m) =? 0)%nat eqn:E0.
    + apply Nat.eqb_eq, length_zero_iff_nil in E0. rewrite E0, take_nil. do 3 eexists.
      split; [done|]. rewrite !app_nil_r. split_and!; [done..|].
      split; [intros _; cbn [length] in *; lia|done].
    + destruct (length (m_Payload m) <=? _)%nat eqn:E2.
      * apply Nat.leb_le in E2. do 3 eexists. split; [done|].
        rewrite (take_ge (m_Payload m)) by lia.
        split_and!; [by rewrite (assoc_L (++))|done|split; [lia|done]].
      * apply Nat.leb_gt in E2. do 3 eexists. split; [done|].
        rewrite length_take. split_and!; [by rewrite (assoc_L (++))|lia|].
        split; [done|lia].
  - apply Nat.leb_gt in E1. do 3 eexists. split; [done|].
    replace (k - _)%nat with 0%nat by lia. rewrite take_0, app_nil_r, length_take.
    cbn [length]. split_and!; [done|lia|split; [done|lia]].
Qed.

Lemma WriteFrame_prefix w m :
  msg_ok m →
  ∃ w' n e part, WriteFrame w (m_Header m) (m_Payload m) = (w', n, e) ∧
    w_out w' = w_out w ++ part ∧ part `prefix_of` frame_bytes m ∧
    (e = None ↔ part = frame_bytes m).
Proof.
  intros Hm. destruct w as [out [k|]].
  - destruct (WriteFrame_cut out k m Hm) as (w' & n & e & H1 & H2 & _ & H3).
    exists w', n, e, (take k (frame_bytes m)). split_and!; try done; [apply prefix_take|].
    rewrite H3. split; [intros; by apply take_ge|]. intros H.
    apply (f_equal length) in H. rewrite length_take in H. lia.
  - rewrite WriteFrame_ok by done. do 3 eexists. exists (frame_bytes m). by split_and!.
Qed.

(** A frame write that fails leaves a prefix of the frame on the wire, the
    count it returns is the length of that prefix, and it succeeds iff the
    whole frame fitted. *)
Theorem write_frame_torn (out : bytes) (k : nat) (m : OutboxMessage) (Hok : msg_ok m) :
  ∃ w' n e,
    WriteFrame (mkWriter out (Some k)) (m_Header m) (m_Payload m) = (w', n, e) ∧
    w_out w' = out ++ take k (frame_bytes m) ∧
    n = length (take k (frame_bytes m)) ∧
    (e = None ↔ (length (frame_bytes m) ≤ k)%nat).
Proof. by apply WriteFrame_cut. Qed.

Lemma write_frame_torn_witness :
  ∃ w' n e, WriteFrame (mkWriter [] (Some 18%nat)) (m_Header ex_msg1) (m_Payload ex_msg1) = (w', n, e) ∧
    w_out w' = [] ++ take 18 (frame_bytes ex_msg1) ∧ n = length (take 18 (frame_bytes ex_msg1)) ∧
    (e = None ↔ (length (frame_bytes ex_msg1) ≤ 18)%nat).
Proof. apply (write_frame_torn [] 18 ex_msg1). repeat split; vm_compute; congruence. Defined.
