(* ===== verification/Seq.v ===== *)
(** * Sequence numbers: internal/ipc/seq.go and acktracker.go

    The outbound generator, the receiver's watermark deduplication and the set
    of sequence numbers awaiting acknowledgement.  Each method runs under the
    object's lock (or is one atomic operation), so it is one transition. *)

From S2P Require Import Prelude.

(** ** [SeqGenerator]: an atomic uint64 counter *)

Record SeqGenerator := mkSeqGen { g_n : Z }.

Definition NewSeqGenerator (start : Z) : SeqGenerator :=
  let start' := if start =? 0 then 1 else start in
  mkSeqGen (u64 (start' - 1)).

Definition Next (g : SeqGenerator) : SeqGenerator * Z :=
  let n := u64 (g_n g + 1) in (mkSeqGen n, n).

(** [k] calls of [Next]. *)
Fixpoint next_many (k : nat) (g : SeqGenerator) : SeqGenerator * list Z :=
  match k with
  | O => (g, [])
  | S k' => let '(g1, s) := Next g in let '(g2, ss) := next_many k' g1 in (g2, s :: ss)
  end.

Lemma Next_small g : 0 ≤ g_n g → g_n g + 1 < 2 ^ 64 → Next g = (mkSeqGen (g_n g + 1), g_n g + 1).
Proof. intros. unfold Next, u64. by rewrite wrap_u_small by (unfold in_u; lia). Qed.

Lemma next_many_seqZ k g :
  0 ≤ g_n g → g_n g + Z.of_nat k < 2 ^ 64 →
  next_many k g = (mkSeqGen (g_n g + Z.of_nat k), seqZ (g_n g + 1) (Z.of_nat k)).
Proof.
  revert g. induction k as [|k IH]; intros [n] Hn Hk; simpl g_n in *.
  - simpl. by rewrite Z.add_0_r.
  - cbn [next_many]. rewrite Next_small by (simpl; lia). cbn [g_n].
    rewrite IH by (simpl; lia). cbn [g_n]. rewrite (seqZ_cons (n + 1)) by lia. f_equal; [f_equal; lia|].
    do 2 f_equal; lia.
Qed.

(** ** [DedupTracker]: the highest sequence number observed *)

Record DedupTracker := mkDedup { d_lastSeen : Z }.

Definition NewDedupTracker : DedupTracker := mkDedup 0.

Definition Seen (d : DedupTracker) (seq : Z) : DedupTracker * bool :=
  if seq <=? d_lastSeen d then (d, true) else (mkDedup seq, false).

(** The tracker after a list of arrivals, and the arrivals it let through. *)
Fixpoint dedup_run (d : DedupTracker) (seqs : list Z) : DedupTracker * list Z :=
  match seqs with
  | [] => (d, [])
  | s :: ss =>
      let '(d1, dup) := Seen d s in
      let '(d2, out) := dedup_run d1 ss in
      (d2, if dup then out else s :: out)
  end.

Lemma Seen_lastSeen d s : d_lastSeen (fst (Seen d s)) = Z.max (d_lastSeen d) s.
Proof. unfold Seen. case_match; simpl; lia. Qed.

Lemma dedup_run_lastSeen d ss :
  d_lastSeen (fst (dedup_run d ss)) = foldr Z.max (d_lastSeen d) ss.
Proof.
  revert d. induction ss as [|s ss IH]; intros d; [done|]. simpl.
  pose proof (Seen_lastSeen d s) as H. destruct (Seen d s) as [d1 dup].
  specialize (IH d1). destruct (dedup_run d1 ss) as [d2 out]. simpl in *. rewrite IH, H.
  clear. induction ss as [|x ss IH]; simpl; lia.
Qed.

Lemma foldr_max_lt d ss s : foldr Z.max d ss < s ↔ d < s ∧ ∀ x, x ∈ ss → x < s.
Proof.
  induction ss as [|y ss IH]; simpl.
  - split; [|tauto]. intros. split; [done|]. by intros x ?%elem_of_nil.
  - rewrite Z.max_lub_lt_iff, IH. setoid_rewrite elem_of_cons.
    split; [intros (? & ? & ?)|intros (? & ?)]; split_and!; auto; naive_solver.
Qed.

Lemma dedup_run_sorted d ss :
  let out := snd (dedup_run d ss) in
  StronglySorted Z.lt out ∧ Forall (λ x, d_lastSeen d < x) out.
Proof.
  revert d. induction ss as [|s ss IH]; intros d; [by repeat constructor|].
  simpl. unfold Seen. destruct (s <=? d_lastSeen d) eqn:E.
  - specialize (IH d). by destruct (dedup_run d ss).
  - apply Z.leb_gt in E. specialize (IH (mkDedup s)).
    destruct (dedup_run _ ss) as [d2 out]. simpl in *. destruct IH as [IH1 IH2].
    split; constructor; try done. eapply Forall_impl; [done|]. intros; simpl in *; lia.
Qed.

Lemma dedup_run_increasing d ss :
  StronglySorted Z.lt ss → Forall (λ x, d_lastSeen d < x) ss → snd (dedup_run d ss) = ss.
Proof.
  intros Hs. revert d. induction Hs as [|s ss Hs IH Hall]; intros d Hd; [done|].
  inversion Hd; subst. simpl. unfold Seen. rewrite (proj2 (Z.leb_gt _ _)) by done.
  specialize (IH (mkDedup s) Hall). destruct (dedup_run _ ss). simpl in *. by subst.
Qed.

(** ** [AckTracker]: the set of sequence numbers awaiting acknowledgement *)

Record AckTracker := mkAckTracker { a_pending : gset Z }.

Definition NewAckTracker : AckTracker := mkAckTracker ∅.
Definition MarkPending (a : AckTracker) (seq : Z) : AckTracker :=
  mkAckTracker ({[seq]} ∪ a_pending a).
Definition Ack (a : AckTracker) (seq : Z) : AckTracker :=
  mkAckTracker (a_pending a ∖ {[seq]}).

(** [Pending]: the keys, in map order, then sorted. *)
Definition Pending (a : AckTracker) : list Z := merge_sort Z.le (elements (a_pending a)).

(** [MaxPendingSeq]: a fold over the keys from 0. *)
Definition MaxPendingSeq (a : AckTracker) : Z :=
  fold_left (fun maxSeq s => if maxSeq <? s then s else maxSeq) (elements (a_pending a)) 0.

Lemma fold_max_spec l m :
  let r := fold_left (fun maxSeq s => if maxSeq <? s then s else maxSeq) l m in
  (m ≤ r) ∧ (∀ x, x ∈ l → x ≤ r) ∧ (r = m ∨ r ∈ l).
Proof.
  revert m. induction l as [|y l IH]; intros m; simpl.
  - split_and!; [lia| |by left]. by intros x ?%elem_of_nil.
  - destruct (IH (if m <? y then y else m)) as (H1 & H2 & H3).
    destruct (m <? y) eqn:E; split_and!.
    + lia.
    + intros x [->|?]%elem_of_cons; [done|by apply H2].
    + right. apply elem_of_cons. naive_solver.
    + done.
    + apply Z.ltb_ge in E. intros x [->|?]%elem_of_cons; [lia|by apply H2].
    + destruct H3; [by left|right; by right].
Qed.

(** ** Properties *)

(** For every history of arrivals on a fresh connection, the receiver lets
    a frame through iff its sequence number is positive and larger than every
    one that arrived before it. *)
Theorem dedup_delivers_iff_new_maximum (pre : list Z) (s : Z) :
  snd (Seen (fst (dedup_run NewDedupTracker pre)) s) = false ↔
  (0 < s ∧ ∀ x, x ∈ pre → x < s).
Proof.
  unfold Seen. rewrite dedup_run_lastSeen.
  destruct (s <=? _) eqn:E; simpl; rewrite <- foldr_max_lt; simpl in *; split; try done; lia.
Qed.

(** The [AckTracker] is a set of outstanding sequence numbers whose
    snapshot is sorted without repetition and whose maximum is the largest
    outstanding number (0 when there is none). *)
Theorem ack_tracker_pending_spec (a : AckTracker) (Hpos : ∀ x, x ∈ a_pending a → 0 < x) :
  StronglySorted Z.lt (Pending a) ∧
  (∀ x, x ∈ Pending a ↔ x ∈ a_pending a) ∧
  MaxPendingSeq a = default 0 (last (Pending a)).
Proof.
  assert (∀ x, x ∈ Pending a ↔ x ∈ a_pending a) as Hin.
  { intros x. unfold Pending. rewrite merge_sort_Permutation. apply elem_of_elements. }
  assert (StronglySorted Z.lt (Pending a)) as Hsorted.
  { unfold Pending. set (l := merge_sort Z.le (elements (a_pending a))).
    assert (NoDup l) as Hnd. { unfold l. rewrite merge_sort_Permutation. apply NoDup_elements. }
    assert (StronglySorted Z.le l) as Hs by (apply StronglySorted_merge_sort; apply _).
    clearbody l. induction Hs as [|x l Hs IH Hall]; [constructor|].
    apply NoDup_cons in Hnd as [Hx Hnd]. constructor; [by apply IH|].
    rewrite Forall_forall in *. intros y Hy. specialize (Hall y Hy).
    assert (x ≠ y) by (intros ->; done). lia. }
  split_and!; [done..|]. unfold MaxPendingSeq.
  destruct (fold_max_spec (elements (a_pending a)) 0) as (H1 & H2 & H3).
  set (r := fold_left _ _ _) in *. clearbody r.
  destruct (last (Pending a)) as [z|] eqn:Hl; simpl.
  - apply last_Some in Hl as [p Hp]. rewrite Hp in Hin, Hsorted.
    assert (z ∈ a_pending a) as Hz by (apply Hin; set_solver).
    assert (z ≤ r) by (apply H2; by apply elem_of_elements).
    destruct H3 as [->|Hr]; [specialize (Hpos z Hz); lia|].
    apply elem_of_elements, Hin, elem_of_app in Hr as [Hr|?%list_elem_of_singleton]; [|done].
    apply StronglySorted_app_1_elem_of with (x1 := r) (x2 := z) in Hsorted; [lia|done|set_solver].
  - apply last_None in Hl. destruct H3 as [->|Hr]; [done|].
    apply elem_of_elements, Hin in Hr. rewrite Hl in Hr. by apply elem_of_nil in Hr.
Qed.

Lemma ack_tracker_pending_spec_witness :
  let a := Ack (MarkPending (MarkPending (MarkPending NewAckTracker 9) 2) 5) 9 in
  StronglySorted Z.lt (Pending a) ∧ (∀ x, x ∈ Pending a ↔ x ∈ a_pending a) ∧
  MaxPendingSeq a = default 0 (last (Pending a)).
Proof.
  apply ack_tracker_pending_spec. intros x. simpl. set_unfold. lia.
Defined.
