(* ===== verification/Outbox.v ===== *)
(** * The bounded outbox: internal/ipc/outbox.go

    A buffered channel, a [done] channel that is only ever closed, and a spill
    function that runs when the channel is full.  The spill function is a
    closure over other state (the WAL), which is threaded as [W].

    The two choices the code leaves to the scheduler are arguments: whether
    another goroutine closed the outbox between the two [select]s of
    [Enqueue], and which ready case a [select] picked. *)

From S2P Require Import Prelude Frame.

Section Outbox.
Context {W : Type}.

(** A [SpillFunc]: the new state and whether it returned a nil error. *)
Definition SpillFunc : Type := W → OutboxMessage → W * bool.

Record Outbox := mkOutbox {
  ob_ch : list OutboxMessage;
  ob_cap : nat;
  ob_done : bool;
  ob_spill : option SpillFunc
}.

Definition NewOutbox (capacity : Z) (spill : option SpillFunc) : Outbox :=
  mkOutbox [] (Z.to_nat (if capacity <? 1 then 1 else capacity)) false spill.

Definition ob_push (o : Outbox) (msg : OutboxMessage) : Outbox :=
  mkOutbox (ob_ch o ++ [msg]) (ob_cap o) (ob_done o) (ob_spill o).

Definition ob_with_ch (o : Outbox) (ch : list OutboxMessage) : Outbox :=
  mkOutbox ch (ob_cap o) (ob_done o) (ob_spill o).

(** [Close]: closes [done] (once); the data channel is never closed. *)
Definition Close (o : Outbox) : Outbox :=
  mkOutbox (ob_ch o) (ob_cap o) true (ob_spill o).

Definition ob_full (o : Outbox) : bool := (ob_cap o <=? length (ob_ch o))%nat.

(** The scheduler's choices during one [Enqueue]. *)
Record enq_sched := mkSched {
  es_closed_between : bool;   (** [Close] ran between the two selects *)
  es_pick_done : bool         (** the second select took the [done] case *)
}.

Definition Enqueue (s : enq_sched) (o : Outbox) (w : W) (msg : OutboxMessage)
    : Outbox * W * bool :=
  if ob_done o then (o, w, false)
  else
    let o1 := if es_closed_between s then Close o else o in
    if ob_done o1 && (es_pick_done s || ob_full o1) then (o1, w, false)
    else if negb (ob_full o1) then (ob_push o1 msg, w, true)
    else match ob_spill o1 with
         | None => (o1, w, false)
         | Some spill => let '(w', ok) := spill w msg in (o1, w', ok)
         end.

(** No other goroutine interferes. *)
Definition alone : enq_sched := mkSched false false.

Inductive deq_result :=
| DeqMsg (msg : OutboxMessage)
| DeqFalse
| DeqBlocked.

(** [Dequeue(timeout)] at the moment its [select] is entered or woken.
    [timed]: the timeout is positive; [fired]: its timer has fired;
    [pick_timer]: the select took the timer case although another was ready. *)
Definition Dequeue (timed fired pick_timer : bool) (o : Outbox) : Outbox * deq_result :=
  if timed && fired && pick_timer then (o, DeqFalse)
  else match ob_ch o with
       | msg :: q => (ob_with_ch o q, DeqMsg msg)
       | [] => if ob_done o then (o, DeqFalse)
               else if timed && fired then (o, DeqFalse) else (o, DeqBlocked)
       end.

(** [InjectFront]: despite its name a non-blocking send on the same channel. *)
Definition InjectFront (o : Outbox) (msg : OutboxMessage) : Outbox * bool :=
  if ob_done o then (o, false)
  else if negb (ob_full o) then (ob_push o msg, true) else (o, false).

(** ** Invariant *)

Definition outbox_wf (o : Outbox) : Prop :=
  (1 ≤ ob_cap o)%nat ∧ (length (ob_ch o) ≤ ob_cap o)%nat.

Lemma NewOutbox_wf capacity spill : outbox_wf (NewOutbox capacity spill).
Proof. unfold NewOutbox, outbox_wf. simpl. case_match; lia. Qed.

Lemma ob_push_wf o msg : outbox_wf o → ob_full o = false → outbox_wf (ob_push o msg).
Proof.
  unfold outbox_wf, ob_full. intros [? ?] Hfull%Nat.leb_gt. simpl. rewrite length_app. simpl. lia.
Qed.

Lemma Close_wf o : outbox_wf o → outbox_wf (Close o).
Proof. done. Qed.

Lemma Enqueue_wf s o w msg : outbox_wf o → outbox_wf (Enqueue s o w msg).1.1.
Proof.
  intros H. unfold Enqueue. destruct (ob_done o); [done|].
  assert (outbox_wf (if es_closed_between s then Close o else o)) as H1 by (case_match; done).
  set (o1 := if es_closed_between s then Close o else o) in *. clearbody o1.
  destruct (_ && _); [done|]. destruct (ob_full o1) eqn:E; simpl.
  - destruct (ob_spill o1) as [sp|]; [|done]. by destruct (sp w msg).
  - by apply ob_push_wf.
Qed.

Lemma Dequeue_wf t f p o : outbox_wf o → outbox_wf (Dequeue t f p o).1.
Proof.
  intros [H1 H2]. unfold Dequeue. destruct (t && f && p); [done|].
  destruct (ob_ch o) as [|m q] eqn:E.
  - repeat case_match; split; simpl; rewrite ?E; done.
  - split; simpl in *; lia.
Qed.

Lemma InjectFront_wf o msg : outbox_wf o → outbox_wf (InjectFront o msg).1.
Proof.
  intros H. unfold InjectFront. destruct (ob_done o); [done|].
  destruct (ob_full o) eqn:E; [done|]. by apply ob_push_wf.
Qed.

(** ** The channel's view of a history: who entered, who left *)

Inductive ob_op :=
| OpEnqueue (s : enq_sched) (msg : OutboxMessage)
| OpDequeue (timed fired pick_timer : bool)
| OpInject (msg : OutboxMessage)
| OpClose.

(** What one operation shows: a message taken into the channel, one handed to
    the spill function with its answer, one refused, one delivered. *)
Inductive ob_event :=
| EvQueued (msg : OutboxMessage)
| EvSpilled (msg : OutboxMessage) (ok : bool)
| EvRefused (msg : OutboxMessage)
| EvDelivered (msg : OutboxMessage).

Definition ob_step (ow : Outbox * W) (op : ob_op) : (Outbox * W) * list ob_event :=
  let '(o, w) := ow in
  match op with
  | OpEnqueue s msg =>
      let '(o', w', ok) := Enqueue s o w msg in
      ((o', w'),
       [ if (length (ob_ch o) <? length (ob_ch o'))%nat then EvQueued msg
         else if ob_full o && negb (ob_done o') && (match ob_spill o with Some _ => true | None => false end)
         then EvSpilled msg ok else EvRefused msg ])
  | OpDequeue t f p =>
      let '(o', r) := Dequeue t f p o in
      ((o', w), match r with DeqMsg m => [EvDelivered m] | _ => [] end)
  | OpInject msg =>
      let '(o', ok) := InjectFront o msg in
      ((o', w), [if ok then EvQueued msg else EvRefused msg])
  | OpClose => ((Close o, w), [])
  end.

Definition queued (e : ob_event) : option OutboxMessage :=
  match e with EvQueued m => Some m | _ => None end.
Definition delivered (e : ob_event) : option OutboxMessage :=
  match e with EvDelivered m => Some m | _ => None end.

Lemma Enqueue_ch s o w msg :
  ob_ch (Enqueue s o w msg).1.1 = ob_ch o ∨ ob_ch (Enqueue s o w msg).1.1 = ob_ch o ++ [msg].
Proof.
  unfold Enqueue. destruct (ob_done o); [by left|].
  set (o1 := if es_closed_between s then Close o else o).
  assert (ob_ch o1 = ob_ch o) as Hc by (unfold o1; case_match; done).
  repeat case_match; simplify_eq/=; rewrite ?Hc; auto.
Qed.

Lemma ob_step_fifo o w op :
  let '((o', w'), evs) := ob_step (o, w) op in
  omap delivered evs ++ ob_ch o' = ob_ch o ++ omap queued evs.
Proof.
  destruct op as [s msg|t f p|msg|]; simpl.
  - pose proof (Enqueue_ch s o w msg) as H. destruct (Enqueue s o w msg) as [[o' w'] ok].
    simpl in H. destruct H as [H|H]; rewrite H.
    + rewrite Nat.ltb_irrefl. destruct (_ && _); simpl; by rewrite app_nil_r.
    + rewrite length_app. simpl. rewrite (proj2 (Nat.ltb_lt _ _)) by lia. done.
  - unfold Dequeue. repeat case_match; simplify_eq/=; by rewrite ?app_nil_r.
  - unfold InjectFront. repeat case_match; simplify_eq/=; by rewrite ?app_nil_r.
  - by rewrite app_nil_r.
Qed.

Lemma ob_trace_fifo o w ops :
  let '((o', w'), evs) := run_trace ob_step (o, w) ops in
  omap delivered evs ++ ob_ch o' = ob_ch o ++ omap queued evs.
Proof.
  revert o w. induction ops as [|op ops IH]; intros o w; cbn [run_trace].
  - by rewrite app_nil_r.
  - pose proof (ob_step_fifo o w op) as H1.
    destruct (ob_step (o, w) op) as [[o1 w1] ev1]. specialize (IH o1 w1).
    destruct (run_trace ob_step (o1, w1) ops) as [[o2 w2] ev2].
    rewrite !omap_app, <- (assoc_L (++)), IH, (assoc_L (++)), H1. by rewrite (assoc_L (++)).
Qed.

Lemma ob_step_wf o w op :
  outbox_wf o → outbox_wf (ob_step (o, w) op).1.1 ∧ ob_cap (ob_step (o, w) op).1.1 = ob_cap o.
Proof.
  intros Ho. destruct op as [s m|t f p|m|]; simpl.
  - pose proof (Enqueue_wf s o w m Ho). assert (ob_cap (Enqueue s o w m).1.1 = ob_cap o).
    { unfold Enqueue. repeat case_match; simplify_eq/=; done. }
    by destruct (Enqueue s o w m) as [[] ].
  - pose proof (Dequeue_wf t f p o Ho). assert (ob_cap (Dequeue t f p o).1 = ob_cap o).
    { unfold Dequeue. repeat case_match; simplify_eq/=; done. }
    by destruct (Dequeue t f p o).
  - pose proof (InjectFront_wf o m Ho). assert (ob_cap (InjectFront o m).1 = ob_cap o).
    { unfold InjectFront. repeat case_match; simplify_eq/=; done. }
    by destruct (InjectFront o m).
  - done.
Qed.

Lemma ob_trace_wf o w ops :
  outbox_wf o →
  let '((o', _), _) := run_trace ob_step (o, w) ops in outbox_wf o' ∧ ob_cap o' = ob_cap o.
Proof.
  revert o w. induction ops as [|op ops IH]; intros o w Ho; [done|]. cbn [run_trace].
  destruct (ob_step_wf o w op Ho) as [H1 H2].
  destruct (ob_step (o, w) op) as [[o1 w1] ev1]. simpl in *. specialize (IH o1 w1 H1).
  destruct (run_trace ob_step (o1, w1) ops) as [[o2 w2] ev2]. by rewrite <- H2.
Qed.

End Outbox.

Arguments Outbox : clear implicits.
Arguments SpillFunc : clear implicits.

#[export] Hint Resolve NewOutbox_wf Close_wf Enqueue_wf Dequeue_wf InjectFront_wf : cliwrap.

(** ** Properties *)

(** The outbox is a bounded FIFO under every interleaving of producers,
    consumer, injector and close: the messages delivered, followed by those
    still queued, are exactly the messages that entered the channel, in entry
    order; and the queue never exceeds its capacity. *)
Theorem outbox_bounded_fifo {W} (capacity : Z) (spill : option (SpillFunc W)) (w : W)
    (ops : list ob_op) :
  let '((o', w'), evs) := run_trace ob_step (NewOutbox capacity spill, w) ops in
  omap delivered evs ++ ob_ch o' = omap queued evs ∧
  (length (ob_ch o') ≤ Z.to_nat (Z.max 1 capacity))%nat.
Proof.
  pose proof (ob_trace_fifo (NewOutbox capacity spill) w ops) as H.
  pose proof (ob_trace_wf (NewOutbox capacity spill) w ops (NewOutbox_wf capacity spill)) as Hwf.
  destruct (run_trace _ _ _) as [[o' w'] evs]. destruct Hwf as [[_ Hl] Hc]. split; [done|].
  rewrite Hc in Hl. simpl in Hl. case_match; bool_lia.
Qed.
