(* ===== verification/Wal.v ===== *)
(** * The write-ahead log: internal/ipc/wal.go

    The log is one file of frames plus the counters kept in memory.  Every
    operation takes the outcome of its system calls as an argument, so the
    same definitions describe the run where nothing fails, the run where a
    call fails half way, and (for [Retire]) the disk a crash leaves behind. *)

From S2P Require Import Prelude Frame.

Inductive wal_err :=
| ErrWALFull
| ErrOpen
| ErrSeek
| ErrReadHeader
| ErrDecodeHeader (e : frame_err)
| ErrReadPayload
| ErrWriteRec
| ErrFsync
| ErrRetire (stage : nat)
| ErrClosed.

(** [w.f]: an open descriptor of the log file, one that was closed but not
    replaced, or nil. *)
Inductive wal_fd := FdOpen | FdClosed | FdNil.

(** [wal_file] is the content of the file at [w.path]; [wal_bwerr] is the
    sticky error of the [bufio.Writer]. *)
Record WAL := mkWAL {
  wal_file : bytes;
  wal_f : wal_fd;
  wal_bwerr : bool;
  wal_sizeCap : Z;
  wal_curBytes : Z
}.

Definition wal_live (w : WAL) : bool := match wal_f w with FdOpen => true | _ => false end.

(** [OpenWAL] on a directory whose log file holds [disk] ([None]: no file). *)
Definition OpenWAL (disk : option bytes) (sizeCap : Z) (fails : bool) : result wal_err WAL :=
  if fails then Err ErrOpen
  else let content := default [] disk in
       Ok (mkWAL content FdOpen false sizeCap (Z.of_nat (length content))).

(** The outcome of the system calls of one [Append]: how many bytes of the
    record the flush got to the file ([None]: all), and whether fsync worked. *)
Record append_io := mkAppendIO { ai_room : option nat; ai_sync : bool }.
Definition io_ok : append_io := mkAppendIO None true.

Definition rec_size (msg : OutboxMessage) : Z :=
  Z.of_nat HeaderSize + Z.of_nat (length (m_Payload msg)).

Definition Append (io : append_io) (w : WAL) (msg : OutboxMessage) : WAL * option wal_err :=
  let recSize := rec_size msg in
  if wal_sizeCap w <? wal_curBytes w + recSize then (w, Some ErrWALFull)
  else if wal_bwerr w then (w, Some ErrWriteRec)
  else
    let rec := Encode (m_Header msg) ++ m_Payload msg in
    let room := if wal_live w then default (length rec) (ai_room io) else 0%nat in
    if (room <? length rec)%nat
    then (mkWAL (wal_file w ++ take room rec) (wal_f w) true (wal_sizeCap w) (wal_curBytes w),
          Some ErrWriteRec)
    else if negb (ai_sync io)
    then (mkWAL (wal_file w ++ rec) (wal_f w) false (wal_sizeCap w) (wal_curBytes w),
          Some ErrFsync)
    else (mkWAL (wal_file w ++ rec) (wal_f w) false (wal_sizeCap w) (wal_curBytes w + recSize),
          None).

(** The record loop of [readAllLocked] on the bytes of the file.  Every
    iteration consumes at least a header, so [S (length bs)] is enough fuel;
    [None] is the result of too little. *)
Fixpoint read_all (fuel : nat) (bs : bytes) : option (result wal_err (list OutboxMessage)) :=
  match fuel with
  | O => None
  | S fuel' =>
      if (length bs =? 0)%nat then Some (Ok [])
      else if (length bs <? HeaderSize)%nat then Some (Err ErrReadHeader)
      else
        let '(h, e) := Decode zero_header (take HeaderSize bs) in
        match e with
        | Some e => Some (Err (ErrDecodeHeader e))
        | None =>
            let rest := drop HeaderSize bs in
            let n := Z.to_nat (h_Length h) in
            if (0 <? h_Length h) && (length rest <? n)%nat then Some (Err ErrReadPayload)
            else
              match read_all fuel' (drop n rest) with
              | Some (Ok ms) => Some (Ok (mkMsg h (take n rest) :: ms))
              | r => r
              end
        end
  end.

(** [readAllLocked]: also renews the buffered writer when it succeeds. *)
Definition readAllLocked (w : WAL) : WAL * option (result wal_err (list OutboxMessage)) :=
  if negb (wal_live w) then (w, Some (Err ErrSeek))
  else match read_all (S (length (wal_file w))) (wal_file w) with
       | Some (Ok ms) =>
           (mkWAL (wal_file w) (wal_f w) false (wal_sizeCap w) (wal_curBytes w), Some (Ok ms))
       | r => (w, r)
       end.

Definition Replay (w : WAL) : WAL * option (result wal_err (list OutboxMessage)) :=
  readAllLocked w.

(** Where the rewrite of [Retire] stops: it completes, or one of its calls
    fails (or the process dies there).  [RF_write k]: [k] bytes of the
    temporary file were written. *)
Inductive retire_fault :=
| RF_none
| RF_open_tmp
| RF_write (k : nat)
| RF_sync
| RF_close_tmp
| RF_rename
| RF_close_old
| RF_reopen.

(** The records a retire keeps. *)
Definition kept_records (ackedSeq : Z) (all : list OutboxMessage) : list OutboxMessage :=
  filter (λ m, ackedSeq < h_SeqNo (m_Header m)) all.

Definition total_size (ms : list OutboxMessage) : Z := foldr (λ m t, rec_size m + t) 0 ms.

(** [Retire]: the log after it, the content of the temporary file it left
    ([None]: none), and its error. *)
Definition Retire (fault : retire_fault) (w : WAL) (ackedSeq : Z)
    : WAL * option bytes * option wal_err :=
  match readAllLocked w with
  | (w1, Some (Ok all)) =>
      let kept := kept_records ackedSeq all in
      let new := stream_bytes kept in
      let swapped := mkWAL new FdClosed (wal_bwerr w1) (wal_sizeCap w1) (wal_curBytes w1) in
      match fault with
      | RF_open_tmp => (w1, None, Some (ErrRetire 0))
      | RF_write k => (w1, Some (take k new), Some (ErrRetire 1))
      | RF_sync => (w1, Some new, Some (ErrRetire 2))
      | RF_close_tmp => (w1, Some new, Some (ErrRetire 3))
      | RF_rename => (w1, Some new, Some (ErrRetire 4))
      | RF_close_old => (swapped, None, Some (ErrRetire 5))
      | RF_reopen => (swapped, None, Some (ErrRetire 6))
      | RF_none =>
          (mkWAL new FdOpen false (wal_sizeCap w1) (total_size kept), None, None)
      end
  | (w1, Some (Err e)) => (w1, None, Some e)
  | (w1, None) => (w1, None, Some ErrSeek)
  end.

(** [Close]: flushes, closes and forgets the descriptor; a nil descriptor
    makes it a no-op. *)
Definition Close (w : WAL) : WAL * option wal_err :=
  match wal_f w with
  | FdNil => (w, None)
  | fd =>
      if wal_bwerr w then (w, Some ErrWriteRec)
      else (mkWAL (wal_file w) FdNil false (wal_sizeCap w) (wal_curBytes w),
            match fd with FdOpen => None | _ => Some ErrClosed end)
  end.

(** ** Reading back *)

Lemma frame_bytes_length m : msg_ok m → Z.of_nat (length (frame_bytes m)) = rec_size m.
Proof. intros _. unfold frame_bytes, rec_size. rewrite length_app, length_Encode. lia. Qed.

Lemma stream_bytes_cons m ms : stream_bytes (m :: ms) = frame_bytes m ++ stream_bytes ms.
Proof. done. Qed.

Lemma stream_bytes_app ms ms' : stream_bytes (ms ++ ms') = stream_bytes ms ++ stream_bytes ms'.
Proof. unfold stream_bytes. by rewrite fmap_app, concat_app. Qed.

Lemma stream_bytes_length ms :
  Forall msg_ok ms → Z.of_nat (length (stream_bytes ms)) = total_size ms.
Proof.
  induction 1 as [|m ms Hm Hms IH]; [done|].
  rewrite stream_bytes_cons, length_app, Nat2Z.inj_add, frame_bytes_length by done. simpl. lia.
Qed.

(** One step of the record loop over a complete record. *)
Lemma read_all_frame fuel m rest :
  msg_ok m →
  read_all (S fuel) (frame_bytes m ++ rest) =
  match read_all fuel rest with Some (Ok ms) => Some (Ok (m :: ms)) | r => r end.
Proof.
  intros (Hwf & Hlen & Hmax). cbn [read_all]. unfold frame_bytes.
  rewrite <- (assoc_L (++)), length_app, length_Encode.
  rewrite (proj2 (Nat.eqb_neq _ _)), (proj2 (Nat.ltb_ge _ _)) by (unfold HeaderSize; lia).
  rewrite <- (length_Encode (m_Header m)), take_app_length, drop_app_length.
  rewrite Decode_Encode_exact by done. rewrite (proj2 (Z.ltb_ge _ _)) by done.
  rewrite Hlen, Nat2Z.id, length_app, take_app_length, drop_app_length.
  rewrite (proj2 (Nat.ltb_ge _ _)), andb_false_r by lia. by destruct m.
Qed.

Lemma read_all_stream fuel ms :
  Forall msg_ok ms → (length ms < fuel)%nat → read_all fuel (stream_bytes ms) = Some (Ok ms).
Proof.
  intros H. revert fuel. induction H as [|m ms Hm Hms IH]; intros [|fuel] Hf; simpl in Hf; try lia.
  - done.
  - rewrite stream_bytes_cons, read_all_frame by done. by rewrite IH by lia.
Qed.

Lemma length_stream_bytes ms : (length ms ≤ length (stream_bytes ms))%nat.
Proof.
  induction ms as [|m ms IH]; [done|]. rewrite stream_bytes_cons, length_app.
  unfold frame_bytes. rewrite length_app, length_Encode. unfold HeaderSize. simpl. lia.
Qed.

(** A proper, non-empty prefix of a record is an error of the record loop. *)
Lemma read_all_torn_record fuel m k :
  msg_ok m → (0 < k < length (frame_bytes m))%nat →
  ∃ err, read_all (S fuel) (take k (frame_bytes m)) = Some (Err err).
Proof.
  intros (Hwf & Hlen & Hmax) Hk. cbn [read_all].
  assert (length (take k (frame_bytes m)) = k) as -> by (rewrite length_take; lia).
  rewrite (proj2 (Nat.eqb_neq _ _)) by lia. destruct (k <? HeaderSize)%nat eqn:Eh; [eauto|].
  apply Nat.ltb_ge in Eh. unfold frame_bytes in *. rewrite length_app, length_Encode in Hk.
  rewrite take_app, length_Encode, (take_ge (Encode _)) by (rewrite length_Encode; lia).
  rewrite take_app_length', drop_app_length' by (by rewrite length_Encode).
  rewrite Decode_Encode_exact by done. rewrite (proj2 (Z.ltb_ge _ _)) by done. rewrite length_take.
  rewrite (proj2 (Z.ltb_lt _ _)), (proj2 (Nat.ltb_lt _ _)) by lia. simpl. eauto.
Qed.

(** ... and so it is after any number of complete records. *)
Lemma read_all_torn fuel ms m k :
  Forall msg_ok ms → msg_ok m → (0 < k < length (frame_bytes m))%nat → (length ms < fuel)%nat →
  ∃ err, read_all fuel (stream_bytes ms ++ take k (frame_bytes m)) = Some (Err err).
Proof.
  intros Hms Hm Hk. revert fuel.
  induction Hms as [|m' ms Hm' Hms IH]; intros [|fuel] Hfuel; simpl in Hfuel; try lia.
  - by apply read_all_torn_record.
  - destruct (IH fuel) as [err Herr]; [lia|]. exists err.
    rewrite stream_bytes_cons, <- (assoc_L (++)), read_all_frame by done. by rewrite Herr.
Qed.

(** The record loop always ends with [S (length bs)] steps, on any bytes. *)
Lemma read_all_total fuel bs : (length bs < fuel)%nat → read_all fuel bs ≠ None.
Proof.
  revert bs. induction fuel as [|fuel IH]; intros bs Hf; [lia|]. cbn [read_all].
  destruct (length bs =? 0)%nat; [done|]. destruct (_ <? _)%nat eqn:E2; [done|].
  apply Nat.ltb_ge in E2. destruct (Decode _ _) as [h [e|]]; [done|].
  destruct (_ && _); [done|].
  destruct (read_all fuel _) as [[]|] eqn:Er; [done..|]. exfalso. eapply IH; [|done].
  rewrite !length_drop. unfold HeaderSize in *. lia.
Qed.

(** ** The abstract log: a list of messages with a byte budget *)

Inductive wal_op :=
| WAppend (msg : OutboxMessage)
| WReplay
| WRetire (ackedSeq : Z).

Inductive wal_obs :=
| ObsAppend (ok : bool)
| ObsReplay (ms : list OutboxMessage)
| ObsRetire
| ObsError.

Definition abs_step (cap : Z) (ms : list OutboxMessage) (op : wal_op)
    : list OutboxMessage * list wal_obs :=
  match op with
  | WAppend m =>
      if total_size ms + rec_size m <=? cap then (ms ++ [m], [ObsAppend true])
      else (ms, [ObsAppend false])
  | WReplay => (ms, [ObsReplay ms])
  | WRetire s => (filter (λ m, s < h_SeqNo (m_Header m)) ms, [ObsRetire])
  end.

(** The concrete log when no system call fails. *)
Definition wal_step (w : WAL) (op : wal_op) : WAL * list wal_obs :=
  match op with
  | WAppend m => let '(w', e) := Append io_ok w m in (w', [ObsAppend (bool_decide (e = None))])
  | WReplay =>
      let '(w', r) := Replay w in
      (w', [match r with Some (Ok ms) => ObsReplay ms | _ => ObsError end])
  | WRetire s =>
      let '(w', _, e) := Retire RF_none w s in
      (w', [match e with None => ObsRetire | Some _ => ObsError end])
  end.

(** The abstraction relation. *)
Definition wal_abs (w : WAL) (ms : list OutboxMessage) : Prop :=
  wal_file w = stream_bytes ms ∧ Forall msg_ok ms ∧ wal_f w = FdOpen ∧
  wal_bwerr w = false ∧ wal_curBytes w = total_size ms.

Definition op_ok (op : wal_op) : Prop :=
  match op with WAppend m => msg_ok m | _ => True end.

Lemma total_size_app ms ms' : total_size (ms ++ ms') = total_size ms + total_size ms'.
Proof. induction ms as [|m ms IH]; simpl in *; [done|]. rewrite IH. lia. Qed.

Lemma readAllLocked_abs w ms : wal_abs w ms → readAllLocked w = (w, Some (Ok ms)).
Proof.
  intros (Hf & Hok & Hl & Hb & Hc). unfold readAllLocked, wal_live. rewrite Hl, Hf. simpl negb.
  cbn match. rewrite read_all_stream; [|done|pose proof (length_stream_bytes ms); lia].
  f_equal. destruct w; simpl in *. by subst.
Qed.

Lemma Append_abs w ms m :
  wal_abs w ms → msg_ok m → total_size ms + rec_size m ≤ wal_sizeCap w →
  ∃ w', Append io_ok w m = (w', None) ∧ wal_abs w' (ms ++ [m]) ∧ wal_sizeCap w' = wal_sizeCap w.
Proof.
  intros (Hf & Hok & Hl & Hb & Hc) Hm Hcap. unfold Append, wal_live.
  rewrite Hc, Hb, Hl, (proj2 (Z.ltb_ge _ _)) by done. simpl default.
  rewrite Nat.ltb_irrefl. eexists. split; [done|]. split; [|done].
  unfold wal_abs. simpl. split_and!; try done.
  - rewrite Hf, stream_bytes_app. f_equal. unfold stream_bytes. simpl. by rewrite app_nil_r.
  - by apply Forall_app_2; [|constructor].
  - rewrite total_size_app. simpl. lia.
Qed.

Lemma kept_records_ok s ms : Forall msg_ok ms → Forall msg_ok (kept_records s ms).
Proof.
  induction 1 as [|m ms Hm Hms IH]; [constructor|]. unfold kept_records in *.
  rewrite filter_cons. case_decide; [by constructor|done].
Qed.

Lemma Retire_abs w ms s :
  wal_abs w ms →
  ∃ w', Retire RF_none w s = (w', None, None) ∧ wal_abs w' (kept_records s ms) ∧
        wal_sizeCap w' = wal_sizeCap w.
Proof.
  intros Hw. unfold Retire. rewrite (readAllLocked_abs _ _ Hw). eexists. split; [done|].
  split; [|done]. destruct Hw as (_ & Hok & _). unfold wal_abs. simpl.
  split_and!; auto using kept_records_ok.
Qed.

Lemma wal_step_abs w ms op :
  wal_abs w ms → op_ok op →
  wal_abs (wal_step w op).1 (abs_step (wal_sizeCap w) ms op).1 ∧
  (wal_step w op).2 = (abs_step (wal_sizeCap w) ms op).2 ∧
  wal_sizeCap (wal_step w op).1 = wal_sizeCap w.
Proof.
  intros Hw Hop. destruct op as [m| |s]; simpl in *.
  - destruct (total_size ms + rec_size m <=? wal_sizeCap w) eqn:E.
    + apply Z.leb_le in E. destruct (Append_abs w ms m) as (w' & -> & ? & ?); done.
    + unfold Append. destruct Hw as (? & ? & ? & ? & Hc). rewrite Hc.
      apply Z.leb_gt in E. rewrite (proj2 (Z.ltb_lt _ _)) by done. done.
  - unfold Replay. by rewrite (readAllLocked_abs _ _ Hw).
  - destruct (Retire_abs w ms s) as (w' & -> & ? & ?); done.
Qed.

(** ** Properties *)



(** C20: [Retire] is atomic on disk.  Wherever it stops, because a system call
    fails or because the process dies there, the file at the log's path is
    either the old log or the rewritten one, and reopening it replays either
    every record or exactly the unacknowledged ones. *)
Theorem retire_crash_atomic (w : WAL) (ms : list OutboxMessage) (fault : retire_fault)
    (ackedSeq : Z) (Hw : wal_abs w ms) :
  let '(w', _, _) := Retire fault w ackedSeq in
  (wal_file w' = wal_file w ∨ wal_file w' = stream_bytes (filter (λ m, ackedSeq < h_SeqNo (m_Header m)) ms)) ∧
  ∃ w2, OpenWAL (Some (wal_file w')) (wal_sizeCap w) false = Ok w2 ∧
        ((Replay w2).2 = Some (Ok ms) ∨ (Replay w2).2 = Some (Ok (filter (λ m, ackedSeq < h_SeqNo (m_Header m)) ms))).
Proof.
  fold (kept_records ackedSeq ms). assert (Forall msg_ok ms) as Hok by apply Hw.
  assert (∀ ms', Forall msg_ok ms' →
    (Replay (mkWAL (stream_bytes ms') FdOpen false (wal_sizeCap w)
       (Z.of_nat (length (stream_bytes ms'))))).2 = Some (Ok ms')) as Hre.
  { intros ms' H. unfold Replay. rewrite (readAllLocked_abs _ ms'); [done|].
    unfold wal_abs. simpl. split_and!; try done. by apply stream_bytes_length. }
  unfold Retire. rewrite (readAllLocked_abs _ _ Hw). assert (wal_file w = stream_bytes ms) as Hf by apply Hw.
  destruct fault; simpl; (split; [auto|]); eexists; (split; [done|]);
    rewrite ?Hf; auto using kept_records_ok.
Qed.

Definition ex_wal : WAL := mkWAL (stream_bytes [ex_msg1; ex_msg2]) FdOpen false 100 36.

Lemma retire_crash_atomic_witness :
  wal_abs ex_wal [ex_msg1; ex_msg2] ∧
  let '(w', _, _) := Retire RF_rename ex_wal 1 in
  (wal_file w' = wal_file ex_wal ∨ wal_file w' = stream_bytes (kept_records 1 [ex_msg1; ex_msg2])) ∧
  ∃ w2, OpenWAL (Some (wal_file w')) 100 false = Ok w2 ∧
    ((Replay w2).2 = Some (Ok [ex_msg1; ex_msg2]) ∨
     (Replay w2).2 = Some (Ok (kept_records 1 [ex_msg1; ex_msg2]))).
Proof.
  assert (wal_abs ex_wal [ex_msg1; ex_msg2]) as H
    by (repeat constructor; vm_compute; congruence).
  split; [exact H|]. exact (retire_crash_atomic ex_wal [ex_msg1; ex_msg2] RF_rename 1 H).
Defined.


