(* ===== verification/Spiller.v ===== *)
(** * Outbox plus write-ahead log: internal/ipc/spiller.go

    A [Spiller] owns an outbox and, unless it is in-memory, a WAL; the
    outbox's spill function is the spiller's own [spill].  The outcomes of the
    system calls its appends will meet are part of the state ([dk_io]; an
    exhausted list means that calls succeed). *)

From S2P Require Import Prelude Frame Outbox Wal.

(** What the spill closure reaches: [s.wal] (nil in no-WAL mode) and the disk. *)
Record disk := mkDisk { dk_wal : option WAL; dk_io : list append_io }.

Definition spill (d : disk) (msg : OutboxMessage) : disk * bool :=
  match dk_wal d with
  | None => (d, true)
  | Some w =>
      let '(io, ios) := match dk_io d with [] => (io_ok, []) | io :: ios => (io, ios) end in
      let '(w', e) := Append io w msg in
      (mkDisk (Some w') ios, bool_decide (e = None))
  end.

Record Spiller := mkSpiller { sp_ob : Outbox disk; sp_disk : disk }.

Definition NewSpiller (content : option bytes) (fails : bool) (ios : list append_io)
    (capacity walCap : Z) : result wal_err Spiller :=
  let! wal := OpenWAL content walCap fails in
  Ok (mkSpiller (NewOutbox capacity (Some spill)) (mkDisk (Some wal) ios)).

Definition NewInMemorySpiller (capacity : Z) : Spiller :=
  mkSpiller (NewOutbox capacity None) (mkDisk None []).

Definition set_wal (s : Spiller) (w : WAL) : Spiller :=
  mkSpiller (sp_ob s) (mkDisk (Some w) (dk_io (sp_disk s))).

Definition Ack (fault : retire_fault) (s : Spiller) (ackedSeq : Z) : Spiller * option wal_err :=
  match dk_wal (sp_disk s) with
  | None => (s, None)
  | Some w => let '(w', _, e) := Retire fault w ackedSeq in (set_wal s w', e)
  end.

(** The loop of [ReplayInto]: stops at the first message the queue refuses. *)
Fixpoint inject_all (o : Outbox disk) (msgs : list OutboxMessage) : Outbox disk :=
  match msgs with
  | [] => o
  | m :: ms => let '(o', ok) := InjectFront o m in if ok then inject_all o' ms else o'
  end.

(** [ReplayInto] with another outbox as target. *)
Definition ReplayInto (s : Spiller) (target : Outbox disk)
    : Spiller * Outbox disk * option (option wal_err) :=
  match dk_wal (sp_disk s) with
  | None => (s, target, Some None)
  | Some w =>
      match Replay w with
      | (w', Some (Ok msgs)) => (set_wal s w', inject_all target msgs, Some None)
      | (w', Some (Err e)) => (set_wal s w', target, Some (Some e))
      | (w', None) => (set_wal s w', target, None)
      end
  end.

(** [s.ReplayInto(s.Outbox())], as the spiller's own tests use it. *)
Definition replay_self (s : Spiller) : Spiller :=
  let '(s', o, _) := ReplayInto s (sp_ob s) in mkSpiller o (sp_disk s').

Definition Close (s : Spiller) : Spiller * option wal_err :=
  let ob := Outbox.Close (sp_ob s) in
  match dk_wal (sp_disk s) with
  | None => (mkSpiller ob (sp_disk s), None)
  | Some w => let '(w', e) := Wal.Close w in
              (mkSpiller ob (mkDisk (Some w') (dk_io (sp_disk s))), e)
  end.

(** ** Operations on a spiller and what they show *)

Inductive sp_op :=
| SpEnqueue (sch : enq_sched) (msg : OutboxMessage)
| SpDequeue (timed fired pick_timer : bool)
| SpSpill (msg : OutboxMessage)      (** the writer's last-ditch spill *)
| SpReplay
| SpAck (fault : retire_fault) (ackedSeq : Z).

Inductive sp_event :=
| SpAccepted (msg : OutboxMessage)
| SpDelivered (msg : OutboxMessage)
| SpAcked (seq : Z).

Definition sp_step (s : Spiller) (op : sp_op) : Spiller * list sp_event :=
  match op with
  | SpEnqueue sch m =>
      let '(o, d, ok) := Enqueue sch (sp_ob s) (sp_disk s) m in
      (mkSpiller o d, if ok then [SpAccepted m] else [])
  | SpDequeue t f p =>
      let '(o, r) := Dequeue t f p (sp_ob s) in
      (mkSpiller o (sp_disk s), match r with DeqMsg m => [SpDelivered m] | _ => [] end)
  | SpSpill m => (mkSpiller (sp_ob s) (fst (spill (sp_disk s) m)), [])
  | SpReplay => (replay_self s, [])
  | SpAck fault q => (fst (Ack fault s q), [SpAcked q])
  end.

(** ** The invariant: nothing accepted is lost

    Every accepted message whose sequence number was not acknowledged is
    still queued, was handed to the writer, or is a record of the log. *)

Definition log_holds (s : Spiller) (ms : list OutboxMessage) : Prop :=
  ∃ w, dk_wal (sp_disk s) = Some w ∧ wal_abs w ms.

Definition acked_le (evs : list sp_event) (q : Z) : Prop := ∃ a, SpAcked a ∈ evs ∧ q ≤ a.

Definition accounted (s : Spiller) (ms : list OutboxMessage) (evs : list sp_event)
    (m : OutboxMessage) : Prop :=
  m ∈ ob_ch (sp_ob s) ∨ SpDelivered m ∈ evs ∨ m ∈ ms ∨ acked_le evs (h_SeqNo (m_Header m)).

Definition no_loss (s : Spiller) (evs : list sp_event) : Prop :=
  ∃ ms, log_holds s ms ∧ ob_spill (sp_ob s) = Some spill ∧ dk_io (sp_disk s) = [] ∧
  ∀ m, SpAccepted m ∈ evs → accounted s ms evs m.

(** The faults a retire can meet and leave the log usable. *)
Definition fault_benign (f : retire_fault) : Prop :=
  match f with RF_close_old | RF_reopen => False | _ => True end.

Definition sp_op_ok (op : sp_op) : Prop :=
  match op with
  | SpEnqueue _ m | SpSpill m => msg_ok m
  | SpAck f _ => fault_benign f
  | _ => True
  end.

Lemma spill_log d w ms m :
  dk_wal d = Some w → dk_io d = [] → wal_abs w ms → msg_ok m →
  ∃ w', spill d m = (mkDisk (Some w') [],
                     bool_decide (total_size ms + rec_size m ≤ wal_sizeCap w)) ∧
        wal_abs w' (if bool_decide (total_size ms + rec_size m ≤ wal_sizeCap w)
                    then ms ++ [m] else ms).
Proof.
  intros Hd Hio Hw Hm. unfold spill. rewrite Hd, Hio.
  case_bool_decide as Hc.
  - destruct (Append_abs w ms m Hw Hm Hc) as (w' & -> & Hw' & _). eauto.
  - unfold Append. destruct Hw as (? & ? & ? & ? & Hcur) eqn:E. rewrite Hcur.
    rewrite (proj2 (Z.ltb_lt _ _)) by lia. exists w. split; [done|]. by subst.
Qed.

Lemma ob_spill_inject o ms : ob_spill (inject_all o ms) = ob_spill o.
Proof.
  revert o. induction ms as [|m ms IH]; intros o; [done|]. cbn [inject_all].
  unfold InjectFront. destruct (ob_done o); [done|].
  destruct (ob_full o); simpl; [done|]. by rewrite IH.
Qed.

Lemma inject_all_prefix o ms : ∃ k, ob_ch (inject_all o ms) = ob_ch o ++ take k ms.
Proof.
  revert o. induction ms as [|m ms IH]; intros o; [exists 0%nat; by rewrite app_nil_r|].
  cbn [inject_all]. unfold InjectFront.
  destruct (ob_done o); [exists 0%nat; by rewrite app_nil_r|].
  destruct (ob_full o); simpl; [exists 0%nat; by rewrite app_nil_r|].
  destruct (IH (ob_push o m)) as [k ->]. exists (S k). simpl. by rewrite <- (assoc_L (++)).
Qed.

Lemma Retire_benign f w ms q :
  wal_abs w ms → fault_benign f →
  ∃ ms', wal_abs (Retire f w q).1.1 ms' ∧ (ms' = ms ∨ ms' = kept_records q ms).
Proof.
  intros Hw Hf. destruct (Retire_abs w ms q Hw) as (w' & Hr & Hw' & _).
  unfold Retire in *. rewrite (readAllLocked_abs _ _ Hw) in *.
  destruct f; try done; eauto.
  exists (kept_records q ms). injection Hr as <-. eauto.
Qed.

Lemma accounted_mono s ms evs evs' m : accounted s ms evs m → accounted s ms (evs ++ evs') m.
Proof.
  intros [?|[?|[?|(a & ? & ?)]]]; [by left|right; left; set_solver|by do 2 right; left|].
  do 3 right. exists a. split; [set_solver|done].
Qed.

(** Enqueueing puts the message in the queue, or in the log, or refuses it. *)
Lemma Enqueue_cases sch (o : Outbox disk) d m :
  ∃ dn, let '(o', d', ok) := Enqueue sch o d m in
  o' = mkOutbox (ob_ch o') (ob_cap o) dn (ob_spill o) ∧
  ((ob_ch o' = ob_ch o ++ [m] ∧ d' = d ∧ ok = true) ∨
   (ob_ch o' = ob_ch o ∧ d' = d ∧ ok = false) ∨
   (ob_ch o' = ob_ch o ∧ ∃ f, ob_spill o = Some f ∧ f d m = (d', ok))).
Proof.
  exists (ob_done (Enqueue sch o d m).1.1). unfold Enqueue.
  destruct o as [ch cap dn sp], sch as [cb pk]. simpl.
  destruct dn; simpl; [eauto 10|]. destruct cb, pk; simpl;
    repeat (case_match; simplify_eq/=); eauto 10.
Qed.

(** A state that keeps the queue's content and accounts for a larger log. *)
Lemma no_loss_weaken s evs s' ms ms' :
  (∀ m, SpAccepted m ∈ evs → accounted s ms evs m) →
  (∀ m, m ∈ ob_ch (sp_ob s) → m ∈ ob_ch (sp_ob s')) → (∀ m, m ∈ ms → m ∈ ms') →
  log_holds s' ms' → ob_spill (sp_ob s') = Some spill → dk_io (sp_disk s') = [] →
  no_loss s' evs.
Proof.
  intros Hacc Hch Hms ? ? ?. exists ms'. split_and!; [done..|].
  intros m Hm. destruct (Hacc m Hm) as [?|[?|[?|?]]]; unfold accounted; auto.
Qed.

(** Accepting a message that the new state holds. *)
Lemma no_loss_accept s evs m : no_loss s evs →
  (m ∈ ob_ch (sp_ob s) ∨ ∃ ms, log_holds s ms ∧ m ∈ ms) → no_loss s (evs ++ [SpAccepted m]).
Proof.
  intros (ms & Hl & ? & ? & Hacc) Hm. exists ms. split_and!; [done..|].
  intros x. rewrite elem_of_app, list_elem_of_singleton. intros [Hx|[= ->]].
  { by apply accounted_mono, Hacc. }
  destruct Hm as [Hm|(ms' & (w' & Hw' & Ha') & Hm)]; [by left|right; right; left].
  destruct Hl as (w & Hw & Ha). rewrite Hw in Hw'. injection Hw' as <-.
  pose proof (readAllLocked_abs _ _ Ha) as E. rewrite (readAllLocked_abs _ _ Ha') in E.
  by injection E as ->.
Qed.

Lemma no_loss_enqueue s evs sch m :
  no_loss s evs → msg_ok m →
  no_loss (sp_step s (SpEnqueue sch m)).1 (evs ++ (sp_step s (SpEnqueue sch m)).2).
Proof.
  intros (ms & (w & Hd & Hw) & Hsp & Hio & Hacc) Hop. simpl.
  destruct (Enqueue_cases sch (sp_ob s) (sp_disk s) m) as [dn HE].
  destruct (Enqueue sch (sp_ob s) (sp_disk s) m) as [[o d] ok]. destruct HE as (Ho & HE). simpl.
  destruct HE as [(Hch & -> & ->)|[(Hch & -> & ->)|(Hch & fn & Hfn & Hcall)]].
  - apply no_loss_accept; [|left; simpl; rewrite Hch; set_solver].
    eapply no_loss_weaken; [done|..]; simpl; rewrite ?Hch; [set_solver|done|by exists w|by rewrite Ho|done].
  - rewrite app_nil_r.
    eapply no_loss_weaken; [done|..]; simpl; rewrite ?Hch; [done|done|by exists w|by rewrite Ho|done].
  - rewrite Hsp in Hfn. injection Hfn as <-.
    destruct (spill_log (sp_disk s) w ms m) as (w' & Hs & Hw'); [done..|].
    rewrite Hcall in Hs. injection Hs as -> ->.
    assert (no_loss (mkSpiller o (mkDisk (Some w') [])) evs).
    { eapply no_loss_weaken; [done|..]; simpl; rewrite ?Hch; [done| |by exists w'|by rewrite Ho|done].
      intros. case_match; set_solver. }
    case_bool_decide; [|by rewrite app_nil_r]. apply no_loss_accept; [done|]. right.
    exists (ms ++ [m]). split; [by exists w'|set_solver].
Qed.

Lemma no_loss_dequeue s evs t f p :
  no_loss s evs → no_loss (sp_step s (SpDequeue t f p)).1 (evs ++ (sp_step s (SpDequeue t f p)).2).
Proof.
  intros (ms & Hl & Hsp & Hio & Hacc). simpl. unfold Dequeue.
  destruct (t && f && p); [exists ms; by rewrite app_nil_r|].
  destruct (ob_ch (sp_ob s)) as [|m ch] eqn:Ech.
  { exists ms. repeat case_match; simplify_eq/=; by rewrite app_nil_r. }
  exists ms. split_and!; [done..|]. simpl.
  intros x. rewrite elem_of_app, list_elem_of_singleton. intros [Hx|?]; [|done].
  destruct (Hacc x Hx) as [H|H].
  - rewrite Ech, elem_of_cons in H. destruct H as [->|H]; [right; left; set_solver|by left].
  - apply accounted_mono. by right.
Qed.

Lemma no_loss_ack s evs f q :
  no_loss s evs → fault_benign f → no_loss (Ack f s q).1 (evs ++ [SpAcked q]).
Proof.
  intros (ms & (w & Hd & Hw) & Hsp & Hio & Hacc) Hop. unfold Ack. rewrite Hd.
  destruct (Retire_benign f w ms q Hw Hop) as (ms' & Hw' & Hms').
  destruct (Retire f w q) as [[w' tmp] e]. simpl in *.
  exists ms'. split_and!; [by exists w'|done..|].
  intros x. rewrite elem_of_app, list_elem_of_singleton. intros [Hx|?]; [|done].
  pose proof (accounted_mono _ _ _ [SpAcked q] _ (Hacc x Hx)) as Hm.
  destruct Hm as [H|[H|[H|H]]]; [by left|right; by left| |do 3 right; done].
  destruct (decide (q < h_SeqNo (m_Header x))) as [Hlt|Hge].
  - right. right. left. destruct Hms' as [-> | ->]; [done|].
    unfold kept_records. by apply list_elem_of_filter.
  - do 3 right. exists q. split; [set_solver|lia].
Qed.

Lemma no_loss_step s evs op :
  no_loss s evs → sp_op_ok op → no_loss (sp_step s op).1 (evs ++ (sp_step s op).2).
Proof.
  intros H Hop. destruct op as [sch m|t f p|m| |f q].
  - by apply no_loss_enqueue.
  - by apply no_loss_dequeue.
  - destruct H as (ms & (w & Hd & Hw) & Hsp & Hio & Hacc). simpl.
    destruct (spill_log (sp_disk s) w ms m) as (w' & -> & Hw'); [done..|]. rewrite app_nil_r.
    eapply no_loss_weaken; [done|..]; simpl; [done| |by exists w'|done..].
    intros. case_match; set_solver.
  - destruct H as (ms & (w & Hd & Hw) & Hsp & Hio & Hacc). simpl.
    unfold replay_self, ReplayInto, Replay. rewrite Hd, (readAllLocked_abs _ _ Hw), app_nil_r.
    destruct (inject_all_prefix (sp_ob s) ms) as [k Hk].
    eapply no_loss_weaken; [done|..]; simpl; rewrite ?Hk, ?ob_spill_inject;
      [set_solver|done|by exists w|done..].
  - simpl in *. pose proof (no_loss_ack s evs f q H Hop). done.
Qed.

(** ** Properties *)

(** C4: no message the spiller accepted is lost by it.  After any sequence of
    enqueues, dequeues, writer spills, replays and acknowledgements, every
    message whose enqueue returned true is queued, was dequeued by the writer,
    is a record of the log (readable by the next replay), or has a sequence
    number covered by an acknowledgement; this also holds when a retire fails
    before its rename. *)
Theorem spiller_loses_nothing (capacity walCap : Z) (ops : list sp_op)
    (Hops : Forall sp_op_ok ops) :
  ∃ s0, NewSpiller None false [] capacity walCap = Ok s0 ∧
  let '(s, evs) := run_trace sp_step s0 ops in
  ∃ w ms, dk_wal (sp_disk s) = Some w ∧ (Replay w).2 = Some (Ok ms) ∧
  ∀ m, SpAccepted m ∈ evs →
    m ∈ ob_ch (sp_ob s) ∨ SpDelivered m ∈ evs ∨ m ∈ ms ∨
    ∃ a, SpAcked a ∈ evs ∧ h_SeqNo (m_Header m) ≤ a.
Proof.
  eexists. split; [done|].
  match goal with |- context [run_trace sp_step ?s ops] => set (s0 := s) end.
  assert (no_loss s0 []) as H0.
  { exists []. split_and!; [|done|done|intros m Hm; by apply elem_of_nil in Hm].
    eexists. split; [done|]. by repeat constructor. }
  pose proof (run_trace_inv sp_step no_loss sp_op_ok no_loss_step ops s0 [] H0 Hops) as H.
  destruct (run_trace sp_step s0 ops) as [s evs].
  destruct H as (ms & (w & Hd & Hw) & _ & _ & Hacc). exists w, ms. split_and!; [done| |done].
  unfold Replay. by rewrite (readAllLocked_abs _ _ Hw).
Qed.

Lemma spiller_loses_nothing_witness :
  let ops := [SpEnqueue alone ex_msg1; SpEnqueue alone ex_msg2; SpDequeue false false false;
              SpReplay; SpAck RF_rename 1] in
  ∃ s0, NewSpiller None false [] 1 100 = Ok s0 ∧
  let '(s, evs) := run_trace sp_step s0 ops in
  ∃ w ms, dk_wal (sp_disk s) = Some w ∧ (Replay w).2 = Some (Ok ms) ∧
  ∀ m, SpAccepted m ∈ evs →
    m ∈ ob_ch (sp_ob s) ∨ SpDelivered m ∈ evs ∨ m ∈ ms ∨
    ∃ a, SpAcked a ∈ evs ∧ h_SeqNo (m_Header m) ≤ a.
Proof.
  apply spiller_loses_nothing. repeat constructor; vm_compute; congruence.
Defined.
