(* ===== verification/Message.v ===== *)
(** * Payload types and their codec: internal/ipc/message.go, codec.go,
    codec_pty.go, errors.go

    The structs the frames carry.  MessagePack itself is third-party code: it
    enters as the class [Codec], one instance per payload type, with its
    documented round trip as the law [CodecLaws]. *)

From Stdlib Require Import Floats.SpecFloat.
From S2P Require Import Prelude Frame.

(** ** Payloads, host to agent *)

Record HelloPayload := mkHello {
  hello_ProtocolVersion : Z; hello_AgentID : string; hello_StartedAt : Z }.

Record StartChildPTY := mkStartChildPTY {
  scp_InitialCols : Z; scp_InitialRows : Z; scp_Echo : bool }.

Record StartChildPayload := mkStartChild {
  sc_Command : string;
  sc_Args : list string;
  sc_Env : gmap string string;
  sc_WorkDir : string;
  sc_StdinMode : Z;
  sc_StopTimeout : Z;
  sc_PTY : option StartChildPTY }.

Record StopChildPayload := mkStopChild { stop_TimeoutMs : Z }.
Record SignalChildPayload := mkSignalChild { sig_Signal : Z }.
Record WriteStdinPayload := mkWriteStdin { ws_Data : bytes }.
Record SetLogLevelPayload := mkSetLogLevel { sll_Level : Z }.

(** ** Payloads, agent to host *)

Record HelloAckPayload := mkHelloAck { ha_ProtocolVersion : Z; ha_Capabilities : list string }.
Record ChildStartedPayload := mkChildStarted { cs_PID : Z; cs_StartedAt : Z }.
Record ChildExitedPayload := mkChildExited {
  ce_PID : Z; ce_ExitCode : Z; ce_Signal : Z; ce_ExitedAt : Z; ce_Reason : string }.
Record LogChunkPayload := mkLogChunk { lc_Stream : Z; lc_SeqNo : Z; lc_Data : bytes }.
Record LogFileRefPayload := mkLogFileRef {
  lf_Stream : Z; lf_Path : string; lf_Size : Z; lf_Checksum : string }.
Record ChildErrorPayload := mkChildError {
  cerr_Phase : string; cerr_Message : string; cerr_Transient : bool }.
Record ResourceSamplePayload := mkResourceSample {
  rs_PID : Z; rs_RSS : Z; rs_CPUPercent : spec_float; rs_Threads : Z; rs_FDs : Z }.
Record AgentFatalPayload := mkAgentFatal { af_Reason : string; af_Stack : string }.

(** ** Shared payloads *)

Record AckPayload := mkAck { ack_AckedSeq : Z }.
Record ResumePayload := mkResume { res_LastAckedSeq : Z }.
Record PTYRingDumpPayload := mkPTYRingDump { rd_Bytes : bytes }.

(** ** PTY payloads *)

Record PTYData := mkPTYData { pd_Seq : Z; pd_Bytes : bytes }.
Record PTYWrite := mkPTYWrite { pw_Seq : Z; pw_Bytes : bytes }.
Record PTYResize := mkPTYResize { pr_Cols : Z; pr_Rows : Z }.
Record PTYSignal := mkPTYSignal { ps_Signum : Z }.
Record CapabilityReply := mkCapabilityReply { cr_Features : list string }.

(** ** The codec interface *)

(** The zero value [var p T] declares. *)
Class Zero (A : Type) := zero : A.
#[global] Instance zero_Hello : Zero HelloPayload := mkHello 0 "" 0.
#[global] Instance zero_StartChild : Zero StartChildPayload := mkStartChild "" [] ∅ "" 0 0 None.
#[global] Instance zero_StopChild : Zero StopChildPayload := mkStopChild 0.
#[global] Instance zero_SignalChild : Zero SignalChildPayload := mkSignalChild 0.
#[global] Instance zero_WriteStdin : Zero WriteStdinPayload := mkWriteStdin [].
#[global] Instance zero_ChildStarted : Zero ChildStartedPayload := mkChildStarted 0 0.
#[global] Instance zero_ChildExited : Zero ChildExitedPayload := mkChildExited 0 0 0 0 "".
#[global] Instance zero_LogChunk : Zero LogChunkPayload := mkLogChunk 0 0 [].
#[global] Instance zero_ChildError : Zero ChildErrorPayload := mkChildError "" "" false.
#[global] Instance zero_Ack : Zero AckPayload := mkAck 0.
#[global] Instance zero_PTYRingDump : Zero PTYRingDumpPayload := mkPTYRingDump [].
#[global] Instance zero_PTYData : Zero PTYData := mkPTYData 0 [].
#[global] Instance zero_PTYWrite : Zero PTYWrite := mkPTYWrite 0 [].
#[global] Instance zero_PTYResize : Zero PTYResize := mkPTYResize 0 0.
#[global] Instance zero_PTYSignal : Zero PTYSignal := mkPTYSignal 0.
#[global] Instance zero_CapabilityReply : Zero CapabilityReply := mkCapabilityReply [].

Inductive codec_err := ErrNilDecodeTarget | ErrMsgpack (code : Z).

(** [msgpack.Marshal] and [msgpack.Unmarshal] at one type.  [Unmarshal]
    stores into its target as it goes, so it also returns what it left there
    when it fails. *)
Class Codec (A : Type) := {
  Marshal : A → result codec_err bytes;
  Unmarshal : bytes → A → A * option codec_err
}.

(** The documented round trip, on the values the wire types can hold. *)
Class CodecLaws (A : Type) `{!Codec A, !Zero A} (ok : A → Prop) := {
  marshal_total : ∀ v, ok v → ∃ bs, Marshal v = Ok bs;
  unmarshal_marshal : ∀ v bs, ok v → Marshal v = Ok bs → Unmarshal bs zero = (v, None)
}.

Section Codec.
Context {A : Type} `{!Codec A}.

Definition EncodePayload (v : A) : result codec_err bytes := Marshal v.

(** [DecodePayload(data, v)]; [None] is a nil interface. *)
Definition DecodePayload (data : bytes) (v : option A) : option A * option codec_err :=
  match v with
  | None => (None, Some ErrNilDecodeTarget)
  | Some t => let '(t', e) := Unmarshal data t in (Some t', e)
  end.

(** The [DecodePTYxxx] and [DecodeCapabilityReply] helpers. *)
Definition decode_new `{!Zero A} (b : bytes) : A * option codec_err := Unmarshal b zero.

(** [var p T; if err := DecodePayload(b, &p); err == nil], the shape of every
    caller that ignores what a failed decode left. *)
Definition decode_ok `{!Zero A} (b : bytes) : option A :=
  match DecodePayload b (Some zero) with
  | (Some p, None) => Some p
  | _ => None
  end.

Lemma decode_ok_marshal `{!Zero A} ok `{!CodecLaws A ok} v bs :
  ok v → Marshal v = Ok bs → decode_ok bs = Some v.
Proof.
  intros Hv Hm. unfold decode_ok, DecodePayload. by rewrite (unmarshal_marshal v bs Hv Hm).
Qed.
End Codec.

(** A codec for acknowledgements, used to instantiate the class. *)
Module AckCodec.
#[export] Instance ack_codec : Codec AckPayload := {|
  Marshal p := Ok (be_put 8 (ack_AckedSeq p));
  Unmarshal bs t := if (length bs =? 8)%nat then (mkAck (be_get bs), None)
                    else (t, Some (ErrMsgpack 0))
|}.
#[export] Instance ack_codec_laws : CodecLaws AckPayload (λ p, in_u 64 (ack_AckedSeq p)).
Proof.
  split; [by eauto|]. intros [n] bs Hn E. assert (bs = be_put 8 n) as -> by (symmetry; by injection E).
  cbn [Unmarshal ack_codec]. rewrite length_be_put. change (8 =? 8)%nat with true.
  by rewrite be_roundtrip.
Qed.
End AckCodec.

(** The sentinels of errors.go. *)
Inductive disconnect_cause :=
| ErrAgentDisconnectedEOF
| ErrAgentDisconnectedUnexpected (e : frame_err).
