(* ===== verification/Conn.v ===== *)
(** * The framed, ACK-aware peer: internal/ipc/conn.go

    A [Conn] is modelled with the program counters of its two goroutines, so a
    run is a sequence of steps: one per locked section of the API, one per
    stage of [writeLoop], one per stage of [readLoop] (a frame read, the return
    of the handler, and the stages of the disconnect callback: the error, the
    closed check, the callback, its return).  The inbound stream is given as
    what will be read from it; bytes written to the transport are [w_out] of
    the writer. *)

From S2P Require Import Prelude Frame Seq Outbox Wal Spiller Message.

(** [writeLoop]: before its first [select], inside [Dequeue], returned. *)
Inductive writer_pc := WIdle | WTop | WDeq | WExit.
(** [readLoop]: not started, at its [ReadFrame], inside the message handler,
    and the stages of its deferred [fireDisconnect]: before [closed.Load()],
    past it, inside [fireOnce.Do] with the callback called; returned. *)
Inductive reader_pc :=
| RIdle
| RRun
| RHandler
| RErr (cause : disconnect_cause)
| RFire (cause : disconnect_cause)
| RCallback
| RExit.

#[global] Instance writer_pc_eq_dec : EqDecision writer_pc.
Proof. solve_decision. Defined.

(** [c_chans]: the channels [SendAndAwaitAck] made, in order; [true] is a
    closed one.  [c_panic]: a channel was closed twice. *)
Record Conn := mkConn {
  c_sp : Spiller;
  c_fw : Writer;
  c_fr : FrameReader;
  c_handler : bool;
  c_seqs : SeqGenerator;
  c_dedup : DedupTracker;
  c_closed : bool;
  c_cancelled : bool;
  c_reader : reader_pc;
  c_writer : writer_pc;
  c_onDisconnect : bool;
  c_fired : bool;
  c_closing : bool;
  c_pending : gmap Z nat;
  c_chans : list bool;
  c_panic : bool
}.

Record ConnConfig := mkConnConfig {
  cfg_RWC : option (Reader * Writer);
  cfg_WAL : option bytes;          (** content of the log file under SpillerDir *)
  cfg_WALFails : bool;             (** opening it fails *)
  cfg_Capacity : Z;
  cfg_WALBytes : Z;
  cfg_DisableWAL : bool;
  cfg_MaxRecvPayload : Z
}.

Inductive conn_err :=
| ErrRWCRequired
| ErrSpiller (e : wal_err)
| ErrConnClosed
| ErrEnqueueFailed
| ErrCtx.

Definition NewConn (cfg : ConnConfig) : result conn_err Conn :=
  match cfg_RWC cfg with
  | None => Err ErrRWCRequired
  | Some (r, w) =>
      let capacity := if cfg_Capacity cfg <=? 0 then 1024 else cfg_Capacity cfg in
      let walBytes := if cfg_WALBytes cfg <=? 0 then 256 * 1024 * 1024 else cfg_WALBytes cfg in
      let maxRecv := if cfg_MaxRecvPayload cfg =? 0 then MaxPayloadSize else cfg_MaxRecvPayload cfg in
      let mk sp := mkConn sp w (NewFrameReader r maxRecv) false (NewSeqGenerator 1) NewDedupTracker
                     false false RIdle WIdle false false false ∅ [] false in
      if cfg_DisableWAL cfg then Ok (mk (NewInMemorySpiller capacity))
      else match NewSpiller (cfg_WAL cfg) (cfg_WALFails cfg) [] capacity walBytes with
           | Err e => Err (ErrSpiller e)
           | Ok sp => Ok (mk sp)
           end
  end.

(** What a step shows to the outside. *)
Inductive conn_event :=
| EvQueue (msg : OutboxMessage)            (** entered the outbox channel *)
| EvWritten (msg : OutboxMessage)          (** written to the transport, whole *)
| EvHandled (msg : OutboxMessage)          (** passed to the message handler *)
| EvAckFrame (seq : Z)                     (** an acknowledgement frame was decoded *)
| EvDisconnect (cause : disconnect_cause)  (** the disconnect callback ran *)
| EvRegister (seq : Z) (ch : nat)          (** [SendAndAwaitAck] registered a waiter *)
| EvAwaitOk (seq : Z) (ch : nat)           (** [SendAndAwaitAck] returned nil *)
| EvLocalClose.                            (** [Close] marked the conn closed *)

(** Record updates of the fields the operations assign. *)
Definition set_sp (c : Conn) (sp : Spiller) : Conn :=
  mkConn sp (c_fw c) (c_fr c) (c_handler c) (c_seqs c) (c_dedup c) (c_closed c) (c_cancelled c)
    (c_reader c) (c_writer c) (c_onDisconnect c) (c_fired c) (c_closing c) (c_pending c)
    (c_chans c) (c_panic c).
Definition set_io (c : Conn) (fw : Writer) (fr : FrameReader) : Conn :=
  mkConn (c_sp c) fw fr (c_handler c) (c_seqs c) (c_dedup c) (c_closed c) (c_cancelled c)
    (c_reader c) (c_writer c) (c_onDisconnect c) (c_fired c) (c_closing c) (c_pending c)
    (c_chans c) (c_panic c).
Definition set_seqs (c : Conn) (g : SeqGenerator) (d : DedupTracker) : Conn :=
  mkConn (c_sp c) (c_fw c) (c_fr c) (c_handler c) g d (c_closed c) (c_cancelled c)
    (c_reader c) (c_writer c) (c_onDisconnect c) (c_fired c) (c_closing c) (c_pending c)
    (c_chans c) (c_panic c).
Definition set_pcs (c : Conn) (r : reader_pc) (w : writer_pc) : Conn :=
  mkConn (c_sp c) (c_fw c) (c_fr c) (c_handler c) (c_seqs c) (c_dedup c) (c_closed c)
    (c_cancelled c) r w (c_onDisconnect c) (c_fired c) (c_closing c) (c_pending c)
    (c_chans c) (c_panic c).
Definition set_acks (c : Conn) (p : gmap Z nat) (chs : list bool) (panic : bool) : Conn :=
  mkConn (c_sp c) (c_fw c) (c_fr c) (c_handler c) (c_seqs c) (c_dedup c) (c_closed c)
    (c_cancelled c) (c_reader c) (c_writer c) (c_onDisconnect c) (c_fired c) (c_closing c)
    p chs panic.
Definition set_callbacks (c : Conn) (h od fired : bool) : Conn :=
  mkConn (c_sp c) (c_fw c) (c_fr c) h (c_seqs c) (c_dedup c) (c_closed c)
    (c_cancelled c) (c_reader c) (c_writer c) od fired (c_closing c) (c_pending c)
    (c_chans c) (c_panic c).
Definition set_shutdown (c : Conn) (closed cancelled closing : bool) : Conn :=
  mkConn (c_sp c) (c_fw c) (c_fr c) (c_handler c) (c_seqs c) (c_dedup c) closed cancelled
    (c_reader c) (c_writer c) (c_onDisconnect c) (c_fired c) closing (c_pending c)
    (c_chans c) (c_panic c).

(** [OnMessage] and [SetOnDisconnect]; [false] registers nil. *)
Definition OnMessage (c : Conn) (h : bool) : Conn :=
  set_callbacks c h (c_onDisconnect c) (c_fired c).
Definition SetOnDisconnect (c : Conn) (cb : bool) : Conn :=
  set_callbacks c (c_handler c) cb (c_fired c).

(** [fireDisconnect], one stage at a time: [closed.Load()]; [fireOnce.Do] up to
    the callback, which is called with what is registered then; [cancelFunc]
    once the callback returned. *)
Definition fireDisconnect (c : Conn) : Conn * list conn_event :=
  match c_reader c with
  | RErr cause => (set_pcs c (if c_closed c then RExit else RFire cause) (c_writer c), [])
  | RFire cause =>
      if c_fired c then (set_pcs c RExit (c_writer c), [])
      else (set_pcs (set_callbacks c (c_handler c) (c_onDisconnect c) true) RCallback (c_writer c),
            if c_onDisconnect c then [EvDisconnect cause] else [])
  | RCallback => (set_shutdown (set_pcs c RExit (c_writer c)) (c_closed c) true (c_closing c), [])
  | _ => (c, [])
  end.

(** [Start]: [startOnce] makes later calls no-ops. *)
Definition Start (c : Conn) : Conn :=
  match c_reader c, c_writer c with
  | RIdle, WIdle => set_pcs c RRun WTop
  | _, _ => c
  end.

(** [c.sp.Outbox().Enqueue(msg)]; the event tells a queued message from one
    that was spilled or refused. *)
Definition enqueue (s : enq_sched) (c : Conn) (msg : OutboxMessage) : Conn * bool * list conn_event :=
  let '(ob, d, ok) := Enqueue s (sp_ob (c_sp c)) (sp_disk (c_sp c)) msg in
  (set_sp c (mkSpiller ob d), ok,
   if (length (ob_ch (sp_ob (c_sp c))) <? length (ob_ch ob))%nat then [EvQueue msg] else []).

Definition SendWithNewSeq (s : enq_sched) (c : Conn) (msgType flags : Z) (payload : bytes)
    : Conn * bool * list conn_event :=
  if c_closed c then (c, false, [])
  else
    let '(g, seq) := Next (c_seqs c) in
    let h := mkHeader msgType flags seq (u32 (Z.of_nat (length payload))) in
    enqueue s (set_seqs c g (c_dedup c)) (mkMsg h payload).

(** [SendAndAwaitAck] up to its [select]: the error it returned, or the
    sequence number and channel it now waits on. *)
Definition SendAndAwaitAck_begin (s : enq_sched) (c : Conn) (msgType flags : Z) (payload : bytes)
    : Conn * result conn_err (Z * nat) * list conn_event :=
  if c_closed c then (c, Err ErrConnClosed, [])
  else
    let '(g, seq) := Next (c_seqs c) in
    let ch := length (c_chans c) in
    let c1 := set_acks (set_seqs c g (c_dedup c))
                (<[seq := ch]> (c_pending c)) (c_chans c ++ [false]) (c_panic c) in
    let h := mkHeader msgType (Z.lor flags FlagAckRequired) seq (u32 (Z.of_nat (length payload))) in
    let '(c2, enqueued, evs) := enqueue s c1 (mkMsg h payload) in
    if enqueued then (c2, Ok (seq, ch), EvRegister seq ch :: evs)
    else (set_acks c2 (delete seq (c_pending c2)) (c_chans c2) (c_panic c2),
          Err ErrEnqueueFailed, EvRegister seq ch :: evs).

(** The [select] of [SendAndAwaitAck]: the case that was taken, [None] when
    that case is not ready. *)
Inductive await_case := CaseAck | CaseCtx | CaseCancel.

Definition SendAndAwaitAck_end (c : Conn) (seq : Z) (ch : nat) (ctx_done : bool) (k : await_case)
    : option (Conn * option conn_err) :=
  let cleanup := set_acks c (delete seq (c_pending c)) (c_chans c) (c_panic c) in
  match k with
  | CaseAck => match c_chans c !! ch with Some true => Some (c, None) | _ => None end
  | CaseCtx => if ctx_done then Some (cleanup, Some ErrCtx) else None
  | CaseCancel => if c_cancelled c then Some (cleanup, Some ErrConnClosed) else None
  end.

Definition deliverAck (c : Conn) (seq : Z) : Conn :=
  match c_pending c !! seq with
  | None => c
  | Some ch =>
      set_acks c (delete seq (c_pending c)) (<[ch := true]> (c_chans c))
        (match c_chans c !! ch with Some false => c_panic c | _ => true end)
  end.

Definition Send (s : enq_sched) (c : Conn) (msg : OutboxMessage) : Conn * bool * list conn_event :=
  if c_closed c then (c, false, []) else enqueue s c msg.

(** The error reads return once the local side closed the transport. *)
Definition ErrClosedPipe : io_err := ErrIO 1.

(** [Close] up to [wg.Wait]; [closeOnce] makes later calls no-ops. *)
Definition Close_begin (c : Conn) : Conn * list conn_event :=
  if c_closing c then (c, [])
  else
    let c1 := set_shutdown c true true true in
    let c2 := set_io c1 (mkWriter (w_out (c_fw c)) (Some 0%nat))
                (mkFrameReader (mkReader [] ErrClosedPipe) (fr_cap (c_fr c))) in
    (set_sp c2 (mkSpiller (Outbox.Close (sp_ob (c_sp c2))) (sp_disk (c_sp c2))), [EvLocalClose]).

(** [Close] after [wg.Wait], which returns when both goroutines have;
    [ctx_first]: the context ended before the spiller was closed. *)
Definition wg_done (c : Conn) : bool :=
  match c_reader c, c_writer c with
  | RExit, WExit | RIdle, WIdle => true
  | _, _ => false
  end.
Inductive close_result := CloseOk | CloseWalErr (e : wal_err) | CloseCtx.
Definition Close_end (c : Conn) (ctx_first : bool) : option (Conn * close_result) :=
  if c_closing c && wg_done c then
    let '(sp, e) := Spiller.Close (c_sp c) in
    Some (set_sp c sp,
          if ctx_first then CloseCtx else match e with None => CloseOk | Some e => CloseWalErr e end)
  else None.

(** [readLoop] leaves its loop: the deferred function picks the cause. *)
Definition readLoop_exit (c : Conn) (exitErr : frame_err) : Conn :=
  match exitErr with
  | ErrStream EOF => set_pcs c (RErr ErrAgentDisconnectedEOF) (c_writer c)
  | e => set_pcs c (RErr (ErrAgentDisconnectedUnexpected e)) (c_writer c)
  end.

Section ReadLoop.
Context `{!Codec AckPayload}.

(** One turn of [readLoop]: a frame, up to the call of the handler; the
    handler returns; a stage of the deferred [fireDisconnect]. *)
Definition readLoop_step (c : Conn) : Conn * list conn_event :=
  match c_reader c with
  | RRun =>
      let '(fr, h, body, err) := ReadFrame (c_fr c) in
      let c1 := set_io c (c_fw c) fr in
      match err with
      | Some e => (readLoop_exit c1 e, [])
      | None =>
          let '(d, dup) := Seen (c_dedup c1) (h_SeqNo h) in
          let c2 := set_seqs c1 (c_seqs c1) d in
          if dup then (c2, [])
          else if (h_MsgType h =? MsgAckData) || (h_MsgType h =? MsgAckControl) then
            match decode_ok (A := AckPayload) body with
            | Some p => (deliverAck c2 (ack_AckedSeq p), [EvAckFrame (ack_AckedSeq p)])
            | None => (c2, [])
            end
          else if c_handler c2 then (set_pcs c2 RHandler (c_writer c2), [EvHandled (mkMsg h body)])
          else (c2, [])
      end
  | RHandler => (set_pcs c RRun (c_writer c), [])
  | _ => fireDisconnect c
  end.
End ReadLoop.

(** One stage of [writeLoop]: its first [select], or the dequeue and what
    follows.  [fired] and [pick] are the 100 ms timer and the choice of the
    dequeue's [select]. *)
Definition writeLoop_step (fired pick : bool) (c : Conn) : Conn * list conn_event :=
  match c_writer c with
  | WTop => (set_pcs c (c_reader c) (if c_cancelled c then WExit else WDeq), [])
  | WDeq =>
      let '(ob, r) := Dequeue true fired pick (sp_ob (c_sp c)) in
      let c1 := set_sp c (mkSpiller ob (sp_disk (c_sp c))) in
      match r with
      | DeqBlocked => (c, [])
      | DeqFalse =>
          (set_pcs c1 (c_reader c) (if c_cancelled c || c_closed c then WExit else WTop), [])
      | DeqMsg msg =>
          let '(fw, _, err) := WriteFrame (c_fw c1) (m_Header msg) (m_Payload msg) in
          let c2 := set_io c1 fw (c_fr c1) in
          match err with
          | None => (set_pcs c2 (c_reader c) WTop, [EvWritten msg])
          | Some _ =>
              let d := fst (spill (sp_disk (c_sp c2)) msg) in
              (set_pcs (set_sp c2 (mkSpiller (sp_ob (c_sp c2)) d)) (c_reader c) WExit, [])
          end
      end
  | _ => (c, [])
  end.

(** ** Runs *)

Inductive conn_op :=
| OpOnMessage (h : bool)
| OpSetOnDisconnect (cb : bool)
| OpStart
| OpSendNew (s : enq_sched) (msgType flags : Z) (payload : bytes)
| OpAwaitBegin (s : enq_sched) (msgType flags : Z) (payload : bytes)
| OpAwaitEnd (seq : Z) (ch : nat) (ctx_done : bool) (k : await_case)
| OpSend (s : enq_sched) (msg : OutboxMessage)
| OpCloseBegin
| OpCloseEnd (ctx_first : bool)
| OpRead
| OpWrite (fired pick : bool).

Section Run.
Context `{!Codec AckPayload}.

Definition conn_step (c : Conn) (op : conn_op) : Conn * list conn_event :=
  match op with
  | OpOnMessage h => (OnMessage c h, [])
  | OpSetOnDisconnect cb => (SetOnDisconnect c cb, [])
  | OpStart => (Start c, [])
  | OpSendNew s ty fl p => let '(c', _, evs) := SendWithNewSeq s c ty fl p in (c', evs)
  | OpAwaitBegin s ty fl p => let '(c', _, evs) := SendAndAwaitAck_begin s c ty fl p in (c', evs)
  | OpAwaitEnd seq ch ctx k =>
      match SendAndAwaitAck_end c seq ch ctx k with
      | Some (c', None) => (c', [EvAwaitOk seq ch])
      | Some (c', Some _) => (c', [])
      | None => (c, [])
      end
  | OpSend s m => let '(c', _, evs) := Send s c m in (c', evs)
  | OpCloseBegin => Close_begin c
  | OpCloseEnd b => match Close_end c b with Some (c', _) => (c', []) | None => (c, []) end
  | OpRead => readLoop_step c
  | OpWrite f p => writeLoop_step f p c
  end.

(** [n] turns of [readLoop]. *)
Definition read_n (n : nat) (c : Conn) : Conn * list conn_event :=
  run_trace conn_step c (replicate n OpRead).
End Run.

Definition ev_queued (e : conn_event) : option OutboxMessage :=
  match e with EvQueue m => Some m | _ => None end.
Definition ev_written (e : conn_event) : option OutboxMessage :=
  match e with EvWritten m => Some m | _ => None end.
Definition ev_handled (e : conn_event) : option OutboxMessage :=
  match e with EvHandled m => Some m | _ => None end.
Definition is_disconnect (e : conn_event) : Prop :=
  match e with EvDisconnect _ => True | _ => False end.
#[global] Instance is_disconnect_dec e : Decision (is_disconnect e).
Proof. destruct e; apply _. Defined.

Definition seq_of (m : OutboxMessage) : Z := h_SeqNo (m_Header m).

(** ** The sending side *)

(** A header as the sending methods build it, over a payload of any size. *)
Definition msg_hdr_ok (m : OutboxMessage) : Prop :=
  header_wf (m_Header m) ∧ h_Length (m_Header m) = u32 (Z.of_nat (length (m_Payload m))).

(** Either [WriteFrame] takes the message or it refuses it without a byte
    reaching the transport. *)
Lemma msg_hdr_cases m :
  msg_hdr_ok m → msg_ok m ∨ ∀ w, ∃ e, WriteFrame w (m_Header m) (m_Payload m) = (w, 0%nat, Some e).
Proof.
  intros [Hwf Hlen]. destruct (decide (h_Length (m_Header m) ≤ MaxPayloadSize)) as [Hcap|Hcap];
    [destruct (decide (h_Length (m_Header m) = Z.of_nat (length (m_Payload m)))) as [Heq|Hne]|].
  - by left.
  - right. intros w. unfold WriteFrame. rewrite (proj2 (Z.ltb_ge _ _)) by lia.
    rewrite (proj2 (Z.eqb_neq _ _)) by done. by eexists.
  - right. intros w. unfold WriteFrame. rewrite (proj2 (Z.ltb_lt _ _)) by lia. by eexists.
Qed.

(** What a run of senders and writer keeps: the messages that entered the
    queue are those written, then at most one cut by a failing write, then
    those still queued; their sequence numbers increase and are at most [n];
    the transport holds the written frames and at most a piece of one more. *)
Record send_inv (c : Conn) (evs : list conn_event) : Prop := mkSendInv {
  si_split : ∃ lost, omap ev_queued evs = omap ev_written evs ++ lost ++ ob_ch (sp_ob (c_sp c)) ∧
                     (lost = [] ∨ c_writer c = WExit);
  si_sorted : StronglySorted Z.lt (seq_of <$> omap ev_queued evs);
  si_range : Forall (λ m, 0 < seq_of m ≤ g_n (c_seqs c)) (omap ev_queued evs);
  si_gen : 0 ≤ g_n (c_seqs c);
  si_hdr : Forall msg_hdr_ok (omap ev_queued evs);
  si_ok : Forall msg_ok (omap ev_written evs);
  si_out : ∃ m part, msg_ok m ∧ part `prefix_of` frame_bytes m ∧ part ≠ frame_bytes m ∧
             w_out (c_fw c) = stream_bytes (omap ev_written evs) ++ part ∧
             (part = [] ∨ c_writer c = WExit)
}.

(** An operation of a well-behaved sender: it sends through the two methods
    that draw the sequence number under the send lock. *)
Definition conn_op_ok (op : conn_op) : Prop :=
  match op with
  | OpSendNew _ ty fl p | OpAwaitBegin _ ty fl p =>
      in_u 8 ty ∧ in_u 8 fl
  | OpSend _ _ => False
  | _ => True
  end.

(** A step that does not touch what the invariant talks about. *)
Lemma send_inv_frame c c' evs es :
  send_inv c evs → omap ev_queued es = [] → omap ev_written es = [] →
  ob_ch (sp_ob (c_sp c')) = ob_ch (sp_ob (c_sp c)) → c_seqs c' = c_seqs c →
  w_out (c_fw c') = w_out (c_fw c) → (c_writer c = WExit → c_writer c' = WExit) →
  send_inv c' (evs ++ es).
Proof.
  intros [(lost & H1 & H1') H2 H3 H4 H5 H6 (m & part & Hm & Hp & Hp' & Ho & Hw)] Hq Hwr Hch Hg Hout Hx.
  split; rewrite ?omap_app, ?Hq, ?Hwr, ?app_nil_r, ?Hch, ?Hg, ?Hout; try done.
  - exists lost. split; [done|]. destruct H1'; auto.
  - exists m, part. split_and!; try done. destruct Hw; auto.
Qed.

(** Queueing a message with a fresh sequence number, once the generator (and
    whatever else the invariant ignores) was updated from [c0] to [c]. *)
Lemma enqueue_inv s c0 c msg evs :
  send_inv c0 evs → msg_hdr_ok msg → g_n (c_seqs c0) < seq_of msg →
  c_sp c = c_sp c0 → c_fw c = c_fw c0 → c_writer c = c_writer c0 →
  g_n (c_seqs c) = seq_of msg →
  let '(c', _, es) := enqueue s c msg in send_inv c' (evs ++ es) ∧ c_seqs c' = c_seqs c.
Proof.
  intros H Hm Hlt Esp Efw Ewr Egen. unfold enqueue. rewrite Esp.
  pose proof (Enqueue_ch s (sp_ob (c_sp c0)) (sp_disk (c_sp c0)) msg) as Hch.
  destruct (Enqueue _ _ _ _) as [[ob d] ok]. simpl in Hch.
  destruct H as [(lost & H1 & H1') H2 H3 H4 H5 H6 (m & part & Hp)].
  assert (Forall (λ m, 0 < seq_of m ≤ seq_of msg) (omap ev_queued evs)) as H3'.
  { eapply Forall_impl; [exact H3|]. simpl. lia. }
  split; [|done]. destruct Hch as [Hch|Hch]; rewrite Hch.
  - rewrite Nat.ltb_irrefl, app_nil_r. split; simpl; rewrite ?Egen, ?Efw, ?Ewr; try done;
      [|lia|by exists m, part].
    exists lost. by rewrite Hch.
  - rewrite length_app, (proj2 (Nat.ltb_lt _ _)) by (simpl; lia).
    split; simpl; rewrite ?omap_app, ?Egen, ?Efw, ?Ewr; simpl; rewrite ?fmap_app, ?app_nil_r; simpl.
    + exists lost. rewrite Hch, H1. split; [by rewrite <- !(assoc_L (++))|done].
    + apply StronglySorted_app. split_and!; [|done|by repeat constructor].
      intros x y (m' & -> & Hm')%list_elem_of_fmap ->%list_elem_of_singleton.
      rewrite Forall_forall in H3. specialize (H3 _ Hm'). simpl in H3. lia.
    + apply Forall_app_2; [done|]. repeat constructor; lia.
    + lia.
    + apply Forall_app_2; [done|]. by rewrite Forall_singleton.
    + done.
    + by exists m, part.
Qed.

(** One stage of the writer. *)
Lemma write_inv fired pick c evs :
  send_inv c evs →
  let '(c', es) := writeLoop_step fired pick c in
  send_inv c' (evs ++ es) ∧ c_seqs c' = c_seqs c.
Proof.
  intros H. unfold writeLoop_step. destruct (c_writer c) eqn:Ew.
  - by rewrite app_nil_r.
  - split; [|done]. eapply send_inv_frame; simpl; try done. by rewrite Ew.
  - destruct (Dequeue true fired pick (sp_ob (c_sp c))) as [ob r] eqn:Ed.
    unfold Dequeue in Ed. destruct r as [msg| |].
    + destruct (_ && _); [done|]. destruct (ob_ch (sp_ob (c_sp c))) as [|m q] eqn:Eq.
      { repeat case_match; done. }
      simplify_eq/=. destruct H as [(lost & H1 & H1') H2 H3 H4 H5 H6 (m0 & part & Hm & Hp & Hp' & Ho & Hw)].
      destruct H1' as [->|?]; [|congruence]. destruct Hw as [->|?]; [|congruence].
      rewrite Eq in H1. assert (msg_hdr_ok msg) as Hhdr.
      { rewrite H1 in H5. apply Forall_app in H5 as [_ H5]. by inversion H5. }
      destruct (msg_hdr_cases msg Hhdr) as [Hmsg|Hrej].
      2:{ destruct (Hrej (c_fw c)) as [e ->]. simpl. split; [|done].
          split; simpl; rewrite ?omap_app; simpl; rewrite ?app_nil_r; try done.
          - exists [msg]. auto.
          - exists m0, []. rewrite Ho, app_nil_r. split_and!; try done. by left. }
      destruct (WriteFrame_prefix (c_fw c) msg Hmsg) as (w' & n & e & part & -> & Hout & Hpre & He).
      destruct e as [e|]; simpl; (split; [|done]); split; simpl; rewrite ?omap_app; simpl;
        rewrite ?app_nil_r; try done.
      * exists [msg]. auto.
      * exists msg, part. rewrite Hout, Ho, app_nil_r. split_and!; try done; [|by right].
        intros Heq. by apply He in Heq.
      * exists []. rewrite <- (assoc_L (++)). auto.
      * apply Forall_app_2; [done|]. by rewrite Forall_singleton.
      * exists m0, []. rewrite Hout, Ho, (proj1 He) by done. split_and!; try done; [|by left].
        rewrite stream_bytes_app, !app_nil_r. unfold stream_bytes. simpl. by rewrite app_nil_r.
    + assert (ob_ch ob = ob_ch (sp_ob (c_sp c))) as Hch by (repeat case_match; by simplify_eq/=).
      split; [|done]. eapply send_inv_frame; simpl; try done. by rewrite Ew.
    + by rewrite app_nil_r.
  - by rewrite app_nil_r.
Qed.

(** What the stages of the disconnect callback leave alone. *)
Lemma fireDisconnect_frame c :
  let '(c', es) := fireDisconnect c in
  c_sp c' = c_sp c ∧ c_seqs c' = c_seqs c ∧ c_fw c' = c_fw c ∧ c_writer c' = c_writer c ∧
  omap ev_queued es = [] ∧ omap ev_written es = [].
Proof.
  unfold fireDisconnect. destruct (c_reader c); try done. destruct (c_fired c); [done|].
  by destruct (c_onDisconnect c).
Qed.

Lemma readLoop_exit_reader c e : ∃ cause, readLoop_exit c e = set_pcs c (RErr cause) (c_writer c).
Proof. destruct e as [| | | | |[]]; by eexists. Qed.

Section RunLemmas.
Context `{!Codec AckPayload}.

Lemma read_frame_inv c :
  let '(c', es) := readLoop_step c in
  c_sp c' = c_sp c ∧ c_seqs c' = c_seqs c ∧ c_fw c' = c_fw c ∧ c_writer c' = c_writer c ∧
  omap ev_queued es = [] ∧ omap ev_written es = [].
Proof.
  unfold readLoop_step. destruct (c_reader c); try done; try apply fireDisconnect_frame.
  destruct (ReadFrame (c_fr c)) as [[[fr h] body] [e|]].
  - by destruct (readLoop_exit_reader (set_io c (c_fw c) fr) e) as [cause ->].
  - destruct (Seen _ _) as [d dup]. destruct dup; [done|].
    destruct (_ || _); [|by destruct (c_handler _)].
    destruct (decode_ok body) as [p|]; [|done]. unfold deliverAck. by case_match.
Qed.

Lemma msg_hdr_new ty fl seq (p : bytes) :
  in_u 8 ty → in_u 8 fl → in_u 64 seq →
  msg_hdr_ok (mkMsg (mkHeader ty fl seq (u32 (Z.of_nat (length p)))) p).
Proof. intros. split; [|done]. split_and!; try done. simpl. by apply wrap_u_range. Qed.

Lemma lor_ack_u8 fl : in_u 8 fl → in_u 8 (Z.lor fl FlagAckRequired).
Proof.
  unfold in_u, FlagAckRequired. intros [H1 H2]. split; [by apply Z.lor_nonneg|].
  destruct (decide (fl = 0)) as [->|]; [done|].
  apply Z.log2_lt_pow2; [pose proof (Z.lor_nonneg fl 1); destruct (decide (Z.lor fl 1 = 0)) as [E|]|].
  - apply Z.lor_eq_0_iff in E. lia.
  - lia.
  - rewrite Z.log2_lor by lia. apply Z.max_lub_lt; [apply Z.log2_lt_pow2; lia|done].
Qed.

Lemma conn_step_inv c evs op :
  send_inv c evs → conn_op_ok op → g_n (c_seqs c) + 1 < 2 ^ 64 →
  send_inv (conn_step c op).1 (evs ++ (conn_step c op).2) ∧
  g_n (c_seqs (conn_step c op).1) ≤ g_n (c_seqs c) + 1.
Proof.
  intros H Hop Hg. pose proof (si_gen _ _ H) as Hg0.
  destruct op as [h|cb| |s ty fl p|s ty fl p|seq ch ctx k|s m| |b| |f pk]; simpl in *; try done.
  - split; [|simpl; lia]. by eapply send_inv_frame.
  - split; [|simpl; lia]. by eapply send_inv_frame.
  - unfold Start. split; [|repeat case_match; simpl; lia].
    eapply send_inv_frame; try done; repeat case_match; simpl; congruence.
  - destruct Hop as (Hty & Hfl). unfold SendWithNewSeq.
    destruct (c_closed c); [rewrite app_nil_r; simpl; split; [done|lia]|].
    rewrite Next_small by done. set (m := mkMsg _ _).
    pose proof (enqueue_inv s c (set_seqs c (mkSeqGen (seq_of m)) (c_dedup c)) m evs H) as He.
    change (mkSeqGen (g_n (c_seqs c) + 1)) with (mkSeqGen (seq_of m)).
    destruct (enqueue _ _ _) as [[c' ok] es]. simpl.
    destruct He as [He1 He2]; try done; [apply msg_hdr_new; unfold in_u; lia || done|unfold seq_of; simpl; lia|].
    rewrite He2. split; [done|]. unfold seq_of. simpl. lia.
  - destruct Hop as (Hty & Hfl). unfold SendAndAwaitAck_begin.
    destruct (c_closed c); [rewrite app_nil_r; simpl; split; [done|lia]|].
    rewrite Next_small by done. set (m := mkMsg _ _). set (c1 := set_acks _ _ _ _).
    pose proof (enqueue_inv s c c1 m evs H) as He.
    destruct (enqueue _ _ _) as [[c' ok] es].
    destruct He as [He1 He2]; try done;
      [apply msg_hdr_new; [done|by apply lor_ack_u8|unfold in_u; lia]|unfold seq_of; simpl; lia|].
    assert (g_n (c_seqs c') ≤ g_n (c_seqs c) + 1) by (rewrite He2; simpl; lia).
    assert (send_inv c' (evs ++ EvRegister (g_n (c_seqs c) + 1) (length (c_chans c)) :: es)) as He'.
    { destruct He1. rewrite !omap_app in *. split; rewrite ?omap_app; done. }
    destruct ok; simpl; (split; [|done]); [done|]. destruct He'. split; done.
  - unfold SendAndAwaitAck_end. destruct k; repeat case_match; simplify_eq/=;
      (split; [by eapply send_inv_frame|lia]).
  - unfold Close_begin. destruct (c_closing c); simpl.
    + rewrite app_nil_r. split; [done|lia].
    + split; [|lia]. by eapply send_inv_frame.
  - unfold Close_end. destruct (c_closing c && wg_done c); [|simpl; rewrite app_nil_r; split; [done|lia]].
    assert (ob_ch (sp_ob (Spiller.Close (c_sp c)).1) = ob_ch (sp_ob (c_sp c))) as Hch.
    { unfold Spiller.Close. repeat case_match; by simplify_eq/=. }
    destruct (Spiller.Close (c_sp c)) as [sp e]. simpl in *. split; [|lia].
    by eapply send_inv_frame.
  - pose proof (read_frame_inv c) as Hr. destruct (readLoop_step c) as [c' es]. simpl in *.
    destruct Hr as (E1 & E2 & E3 & E4 & E5 & E6). rewrite E2. split; [|lia].
    eapply send_inv_frame; try done; congruence.
  - pose proof (write_inv f pk c evs H) as Hw. destruct (writeLoop_step f pk c) as [c' es]. simpl in *.
    destruct Hw as [Hw ->]. split; [done|lia].
Qed.

Lemma conn_trace_inv c evs ops :
  send_inv c evs → Forall conn_op_ok ops → g_n (c_seqs c) + Z.of_nat (length ops) < 2 ^ 64 →
  let '(c', es) := run_trace conn_step c ops in send_inv c' (evs ++ es).
Proof.
  intros H Hops. revert c evs H. induction Hops as [|op ops Hop Hops IH]; intros c evs H Hn.
  - simpl. by rewrite app_nil_r.
  - cbn [run_trace length] in *. destruct (conn_step_inv c evs op H Hop) as [H1 H2]; [lia|].
    destruct (conn_step c op) as [c1 e1]. simpl in *. specialize (IH c1 _ H1 ltac:(lia)).
    destruct (run_trace conn_step c1 ops). by rewrite <- (assoc_L (++)) in IH.
Qed.
End RunLemmas.

(** ** The receiving side *)

Definition is_ack_msg (m : OutboxMessage) : bool :=
  (h_MsgType (m_Header m) =? MsgAckData) || (h_MsgType (m_Header m) =? MsgAckControl).

(** The messages a handler is given, out of those on the wire. *)
Definition app_messages (ms : list OutboxMessage) : list OutboxMessage :=
  filter (λ m, is_ack_msg m = false) ms.

(** A running reader with a handler, the stream [bs] ahead of it, and every
    sequence number up to [n] seen. *)
Definition reading (c : Conn) (bs : bytes) (n : Z) : Prop :=
  c_reader c = RRun ∧ c_handler c = true ∧ r_bytes (fr_r (c_fr c)) = bs ∧
  r_end (fr_r (c_fr c)) = EOF ∧ fr_cap (c_fr c) = MaxPayloadSize ∧ d_lastSeen (c_dedup c) = n.

Section Receive.
Context `{!Codec AckPayload}.

Lemma deliverAck_frame c q :
  c_reader (deliverAck c q) = c_reader c ∧ c_handler (deliverAck c q) = c_handler c ∧
  c_fr (deliverAck c q) = c_fr c ∧ c_dedup (deliverAck c q) = c_dedup c ∧
  c_closed (deliverAck c q) = c_closed c ∧ c_fired (deliverAck c q) = c_fired c ∧
  c_onDisconnect (deliverAck c q) = c_onDisconnect c.
Proof. unfold deliverAck. by case_match. Qed.

Lemma reading_deliverAck c q bs n : reading c bs n → reading (deliverAck c q) bs n.
Proof.
  unfold reading. by destruct (deliverAck_frame c q) as (-> & -> & -> & -> & _).
Qed.

(** The handler has the last frame read and returns at the next turn. *)
Definition handling (c : Conn) (bs : bytes) (n : Z) : Prop :=
  c_reader c = RHandler ∧ reading (set_pcs c RRun (c_writer c)) bs n.

Lemma readLoop_step_frame c m rest n :
  reading c (frame_bytes m ++ rest) n → msg_ok m → n < seq_of m →
  let '(c', es) := readLoop_step c in
  (if is_ack_msg m then reading c' rest (seq_of m) else handling c' rest (seq_of m)) ∧
  omap ev_handled es = app_messages [m].
Proof.
  intros (Hr & Hh & Hb & He & Hc & Hd) Hm Hn. unfold readLoop_step. rewrite Hr.
  destruct (ReadFrame_frame (c_fr c) m rest) as (fr' & -> & Hb' & He' & Hc'); [done| |done|].
  { rewrite Hc. apply Hm. }
  unfold Seen. simpl. rewrite Hd, (proj2 (Z.leb_gt _ _)) by done.
  unfold app_messages. rewrite filter_cons, filter_nil. fold (is_ack_msg m).
  assert (reading (set_seqs (set_io c (c_fw c) fr') (c_seqs c) (mkDedup (seq_of m))) rest (seq_of m))
    as Hgood by (unfold reading; simpl; split_and!; congruence).
  destruct (is_ack_msg m).
  - destruct (decode_ok (m_Payload m)) as [p|]; [|done]. split; [|done].
    by apply reading_deliverAck.
  - rewrite Hh. split; [|by destruct m]. split; [done|].
    destruct Hgood as (_ & ? & ? & ? & ? & ?). by split_and!.
Qed.

Lemma readLoop_step_return c rest n :
  handling c rest n → let '(c', es) := readLoop_step c in reading c' rest n ∧ es = [].
Proof. intros [Hr H]. unfold readLoop_step. by rewrite Hr. Qed.

Lemma readLoop_step_end c m part n :
  reading c part n → msg_ok m → part `prefix_of` frame_bytes m → part ≠ frame_bytes m →
  let '(c', es) := readLoop_step c in
  (∃ cause, c_reader c' = RErr cause) ∧ es = [].
Proof.
  intros (Hr & Hh & Hb & He & Hc & Hd) Hm Hp Hp'. unfold readLoop_step. rewrite Hr.
  destruct (ReadFrame_partial (c_fr c) m part) as (fr' & h & ->); try done.
  { rewrite Hc. apply Hm. }
  match goal with |- context [readLoop_exit ?x ?y] => destruct (readLoop_exit_reader x y) as [cause ->] end.
  split; [by exists cause|done].
Qed.

Lemma read_n_S n c :
  read_n (S n) c = ((read_n n (readLoop_step c).1).1, (readLoop_step c).2 ++ (read_n n (readLoop_step c).1).2).
Proof.
  unfold read_n. cbn [replicate run_trace conn_step]. destruct (readLoop_step c) as [c' es].
  simpl. by destruct (run_trace conn_step c' _).
Qed.

Lemma read_n_exited n c : c_reader c = RExit → read_n n c = (c, []).
Proof.
  intros Hr. induction n as [|n IH]; [done|].
  assert (readLoop_step c = (c, [])) as E by (unfold readLoop_step, fireDisconnect; by rewrite Hr).
  rewrite read_n_S, E. simpl. by rewrite IH.
Qed.

(** The stages after a read error: at most three turns, and the callback once
    unless none is set, the conn was closed locally, or it already ran. *)
Lemma read_n_fire n c cause :
  c_reader c = RErr cause → (3 ≤ n)%nat →
  c_reader (read_n n c).1 = RExit ∧
  (read_n n c).2 = if c_onDisconnect c && negb (c_closed c) && negb (c_fired c)
                   then [EvDisconnect cause] else [].
Proof.
  intros Hr Hn. destruct n as [|[|[|n]]]; try lia. rewrite read_n_S.
  assert (readLoop_step c = (set_pcs c (if c_closed c then RExit else RFire cause) (c_writer c), [])) as ->
    by (unfold readLoop_step, fireDisconnect; by rewrite Hr).
  cbn [fst snd app]. destruct (c_closed c) eqn:Ec.
  { rewrite read_n_exited by done. simpl. by rewrite andb_false_r. }
  rewrite read_n_S. set (c1 := set_pcs c (RFire cause) (c_writer c)).
  assert (readLoop_step c1 = fireDisconnect c1) as -> by done. unfold fireDisconnect. simpl.
  destruct (c_fired c) eqn:Ef; simpl.
  { rewrite read_n_exited by done. simpl. by rewrite andb_false_r. }
  rewrite read_n_S. match goal with |- context [readLoop_step ?x] => set (c2 := x) end.
  assert (readLoop_step c2 = fireDisconnect c2) as -> by done. unfold fireDisconnect. simpl.
  rewrite read_n_exited by done. simpl. by destruct (c_onDisconnect c).
Qed.

Lemma read_n_stream ms : ∀ c m part n k,
  reading c (stream_bytes ms ++ part) n → msg_ok m → part `prefix_of` frame_bytes m →
  part ≠ frame_bytes m → Forall msg_ok ms → StronglySorted Z.lt (seq_of <$> ms) →
  Forall (λ x, n < seq_of x) ms → (2 * length ms + 4 ≤ k)%nat →
  c_reader (read_n k c).1 = RExit ∧ omap ev_handled (read_n k c).2 = app_messages ms.
Proof.
  induction ms as [|x ms IH]; intros c m part n k Hc Hm Hp Hp' Hok Hs Hn Hk;
    destruct k as [|k]; simpl in Hk; try lia; rewrite read_n_S.
  - pose proof (readLoop_step_end c m part n Hc Hm Hp Hp') as H.
    destruct (readLoop_step c) as [c' es]. destruct H as [[cause Hr] ->].
    destruct (read_n_fire k c' cause Hr) as [R1 R2]; [lia|]. simpl. split; [done|].
    rewrite R2. by case_match.
  - inversion Hok; inversion Hn; subst. simpl in Hs. inversion Hs as [|?? Hs' Hx]; subst.
    rewrite Forall_fmap in Hx.
    rewrite stream_bytes_cons, <- (assoc_L (++)) in Hc.
    pose proof (readLoop_step_frame c x (stream_bytes ms ++ part) n Hc ltac:(done) ltac:(done)) as H.
    destruct (readLoop_step c) as [c1 es1]. destruct H as [Hc1 Hes1].
    assert (app_messages (x :: ms) = app_messages [x] ++ app_messages ms) as ->
      by (unfold app_messages; by rewrite <- filter_app).
    simpl. rewrite omap_app, Hes1. destruct (is_ack_msg x).
    + destruct (IH c1 m part (seq_of x) k Hc1) as [IH1 IH2]; try done; [lia|]. by rewrite IH2.
    + destruct k as [|k]; [lia|]. rewrite read_n_S.
      pose proof (readLoop_step_return c1 _ _ Hc1) as Hret.
      destruct (readLoop_step c1) as [c2 es2]. destruct Hret as [Hc2 ->]. simpl.
      destruct (IH c2 m part (seq_of x) k Hc2) as [IH1 IH2]; try done; [lia|]. by rewrite IH2.
Qed.
End Receive.

Lemma NewConn_fields cfg r w c :
  cfg_RWC cfg = Some (r, w) → NewConn cfg = Ok c →
  c_fw c = w ∧ fr_r (c_fr c) = r ∧ (cfg_MaxRecvPayload cfg = 0 → fr_cap (c_fr c) = MaxPayloadSize) ∧
  ob_ch (sp_ob (c_sp c)) = [] ∧ c_seqs c = mkSeqGen 0 ∧ c_dedup c = mkDedup 0 ∧
  c_reader c = RIdle ∧ c_writer c = WIdle ∧ c_closed c = false ∧ c_closing c = false ∧
  c_fired c = false ∧ c_pending c = ∅ ∧ c_chans c = [] ∧ c_panic c = false.
Proof.
  unfold NewConn. intros -> H.
  assert (∀ m, m = 0 → fr_cap (NewFrameReader r (if m =? 0 then MaxPayloadSize else m)) = MaxPayloadSize)
    as Hcap by (intros m ->; done).
  destruct (cfg_DisableWAL cfg); [by simplify_eq/=; split_and!; auto|].
  unfold NewSpiller in H. destruct (OpenWAL _ _ _); simplify_eq/=. by split_and!; auto.
Qed.

Lemma send_inv_init cfg r room c :
  cfg_RWC cfg = Some (r, mkWriter [] room) → NewConn cfg = Ok c → send_inv c [].
Proof.
  intros Hcfg Hc. destruct (NewConn_fields _ _ _ _ Hcfg Hc) as (Hw & _ & _ & Hch & Hg & _).
  split; simpl; rewrite ?Hg, ?Hch, ?Hw; simpl; try by (constructor || lia).
  - exists []. auto.
  - exists ex_msg1, []. split_and!; [repeat split; vm_compute; congruence|apply prefix_nil|done|done|by left].
Qed.

(** ** Acknowledgements *)

(** Registered waiters and what the channels they wait on say. *)
Definition acked_after (evs : list conn_event) (seq : Z) (ch : nat) : Prop :=
  ∃ e1 e2, evs = e1 ++ EvRegister seq ch :: e2 ∧ EvAckFrame seq ∈ e2.

Record ack_inv (c : Conn) (evs : list conn_event) : Prop := mkAckInv {
  ai_pending : ∀ seq ch, c_pending c !! seq = Some ch →
                 c_chans c !! ch = Some false ∧ EvRegister seq ch ∈ evs;
  ai_reg : ∀ seq ch, EvRegister seq ch ∈ evs → (ch < length (c_chans c))%nat;
  ai_fun : ∀ s1 s2 ch, EvRegister s1 ch ∈ evs → EvRegister s2 ch ∈ evs → s1 = s2;
  ai_closed : ∀ seq ch, EvRegister seq ch ∈ evs → c_chans c !! ch = Some true →
                acked_after evs seq ch;
  ai_panic : c_panic c = false
}.

Definition no_register (es : list conn_event) : Prop := ∀ seq ch, EvRegister seq ch ∉ es.

Lemma acked_after_mono evs es seq ch : acked_after evs seq ch → acked_after (evs ++ es) seq ch.
Proof.
  intros (e1 & e2 & -> & ?). exists e1, (e2 ++ es). rewrite <- (assoc_L (++)). split; [done|set_solver].
Qed.

(** A step that registers nothing, closes nothing and may forget waiters. *)
Lemma ack_inv_frame c c' evs es :
  ack_inv c evs → no_register es → c_pending c' ⊆ c_pending c → c_chans c' = c_chans c →
  c_panic c' = c_panic c → ack_inv c' (evs ++ es).
Proof.
  intros [H1 H2 H3 H4 H5] Hno Hsub Hch Hpan.
  assert (∀ s ch, EvRegister s ch ∈ evs ++ es ↔ EvRegister s ch ∈ evs) as Hreg.
  { intros s ch. rewrite elem_of_app. specialize (Hno s ch). tauto. }
  split; try setoid_rewrite Hreg; rewrite ?Hch, ?Hpan; auto.
  - intros s ch Hs. apply H1. by eapply lookup_weaken.
  - intros s ch ? ?. apply acked_after_mono. auto.
Qed.

Lemma ack_inv_deliver c evs seq :
  ack_inv c evs → ack_inv (deliverAck c seq) (evs ++ [EvAckFrame seq]).
Proof.
  intros H. destruct (c_pending c !! seq) as [ch|] eqn:Ep.
  2:{ unfold deliverAck. rewrite Ep. eapply ack_inv_frame; try done.
      by intros s ch ?%list_elem_of_singleton. }
  destruct H as [H1 H2 H3 H4 H5]. destruct (H1 _ _ Ep) as [Hch Hin].
  assert (∀ s k, EvRegister s k ∈ evs ++ [EvAckFrame seq] ↔ EvRegister s k ∈ evs) as Hreg.
  { intros s k. rewrite elem_of_app, list_elem_of_singleton. split; [|auto]. by intros [?|?]. }
  unfold deliverAck. rewrite Ep, Hch. split; try setoid_rewrite Hreg; simpl; auto.
  - intros s k [Hne Hs]%lookup_delete_Some. destruct (H1 _ _ Hs) as [Hk Hr].
    split; [|done]. rewrite list_lookup_insert_ne; [done|]. intros ->. by apply Hne, (H3 _ _ k).
  - intros s k Hk. rewrite length_insert. eauto.
  - intros s k Hr. destruct (decide (k = ch)) as [->|Hne].
    + intros _. assert (s = seq) as -> by by apply (H3 _ _ ch).
      apply list_elem_of_split in Hr as (e1 & e2 & ->). exists e1, (e2 ++ [EvAckFrame seq]).
      rewrite <- (assoc_L (++)). split; [done|set_solver].
    + rewrite list_lookup_insert_ne by done. intros. apply acked_after_mono. auto.
Qed.

Lemma ack_inv_register c c' evs es seq :
  ack_inv c evs → no_register es →
  c_pending c' ⊆ <[seq := length (c_chans c)]> (c_pending c) →
  c_chans c' = c_chans c ++ [false] → c_panic c' = c_panic c →
  ack_inv c' (evs ++ EvRegister seq (length (c_chans c)) :: es).
Proof.
  intros [H1 H2 H3 H4 H5] Hno Hsub Hch Hpan.
  assert (∀ s k, EvRegister s k ∈ evs ++ EvRegister seq (length (c_chans c)) :: es ↔
                 EvRegister s k ∈ evs ∨ (s = seq ∧ k = length (c_chans c))) as Hreg.
  { intros s k. rewrite elem_of_app, elem_of_cons. specialize (Hno s k).
    split; [intros [?|[[=]|?]]|intros [?|[-> ->]]]; auto; done. }
  split; try setoid_rewrite Hreg; rewrite ?Hch, ?Hpan; auto.
  - intros s k Hs. eapply lookup_weaken in Hs; [|exact Hsub].
    apply lookup_insert_Some in Hs as [[<- <-]|[Hne Hs]].
    + split; [|auto]. by rewrite list_lookup_middle.
    + destruct (H1 _ _ Hs). split; [by apply lookup_app_l_Some|auto].
  - intros s k. rewrite length_app. simpl. intros [?%H2|[-> ->]]; lia.
  - intros s1 s2 k [Ha|[-> ->]] [Hb|[-> ?]]; [eauto| | |done].
    + subst. apply H2 in Ha. lia.
    + apply H2 in Hb. lia.
  - intros s k [Ha|[-> ->]] Hk.
    + apply acked_after_mono. apply H4; [done|]. rewrite lookup_app_l in Hk; [done|]. by eapply H2.
    + by rewrite list_lookup_middle in Hk.
Qed.

Lemma no_register_nil : no_register [].
Proof. intros s ch H. by apply elem_of_nil in H. Qed.
Lemma no_register_one e : (∀ s ch, e ≠ EvRegister s ch) → no_register [e].
Proof. intros He s ch H. apply list_elem_of_singleton in H. by apply (He s ch). Qed.
#[export] Hint Resolve no_register_nil no_register_one : cliwrap.
#[export] Hint Extern 4 (_ ≠ EvRegister _ _) => discriminate : cliwrap.

Lemma enqueue_acks s c m :
  let '(c', _, es) := enqueue s c m in
  c_pending c' = c_pending c ∧ c_chans c' = c_chans c ∧ c_panic c' = c_panic c ∧ no_register es.
Proof.
  unfold enqueue. destruct (Enqueue _ _ _ _) as [[ob d] ok].
  split_and!; try done. case_match; eauto with cliwrap.
Qed.

Lemma fireDisconnect_acks c :
  let '(c', es) := fireDisconnect c in
  c_pending c' = c_pending c ∧ c_chans c' = c_chans c ∧ c_panic c' = c_panic c ∧ no_register es.
Proof.
  unfold fireDisconnect. destruct (c_reader c); auto with cliwrap.
  destruct (c_fired c); [auto with cliwrap|]. split_and!; try done.
  destruct (c_onDisconnect c); eauto with cliwrap.
Qed.

Lemma writeLoop_acks f p c :
  let '(c', es) := writeLoop_step f p c in
  c_pending c' = c_pending c ∧ c_chans c' = c_chans c ∧ c_panic c' = c_panic c ∧ no_register es.
Proof.
  unfold writeLoop_step. destruct (c_writer c); [auto with cliwrap..| |auto with cliwrap].
  destruct (Dequeue _ _ _ _) as [ob [m| |]]; [|auto with cliwrap..].
  destruct (WriteFrame _ _ _) as [[fw n] [e|]]; split_and!; try done; eauto with cliwrap.
Qed.

Section AckRun.
Context `{!Codec AckPayload}.

Lemma ack_inv_read c evs :
  ack_inv c evs → ack_inv (readLoop_step c).1 (evs ++ (readLoop_step c).2).
Proof.
  intros H. unfold readLoop_step.
  assert (∀ c' es, c_pending c' = c_pending c → c_chans c' = c_chans c → c_panic c' = c_panic c →
    no_register es → ack_inv c' (evs ++ es)) as Hfr.
  { intros c' es E1 E2 E3 ?. eapply ack_inv_frame; try done. by rewrite E1. }
  pose proof (fireDisconnect_acks c) as Hfire.
  assert (ack_inv (fireDisconnect c).1 (evs ++ (fireDisconnect c).2)) as Hf.
  { destruct (fireDisconnect c) as [c' es]. destruct Hfire as (? & ? & ? & ?). by apply Hfr. }
  destruct (c_reader c); try exact Hf; [|by apply Hfr; eauto with cliwrap].
  destruct (ReadFrame (c_fr c)) as [[[fr h] body] [e|]].
  - destruct (readLoop_exit_reader (set_io c (c_fw c) fr) e) as [cause ->].
    apply Hfr; eauto with cliwrap.
  - destruct (Seen _ _) as [d dup]. destruct dup; [by apply Hfr; eauto with cliwrap|].
    destruct (_ || _).
    + destruct (decode_ok body) as [p|]; [|by apply Hfr; eauto with cliwrap].
      apply ack_inv_deliver. rewrite <- (app_nil_r evs). apply Hfr; eauto with cliwrap.
    + destruct (c_handler _); apply Hfr; eauto with cliwrap.
Qed.

Lemma ack_inv_step c evs op :
  ack_inv c evs → ack_inv (conn_step c op).1 (evs ++ (conn_step c op).2).
Proof.
  intros H. 
  assert (∀ c' es, c_pending c' = c_pending c → c_chans c' = c_chans c → c_panic c' = c_panic c →
    no_register es → ack_inv c' (evs ++ es)) as Hfr.
  { intros c' es E1 E2 E3 ?. eapply ack_inv_frame; try done. by rewrite E1. }
  destruct op as [h|cb| |s ty fl p|s ty fl p|seq ch ctx k|s m| |b| |f pk]; simpl.
  - apply Hfr; eauto with cliwrap.
  - apply Hfr; eauto with cliwrap.
  - apply Hfr; unfold Start; repeat case_match; eauto with cliwrap.
  - unfold SendWithNewSeq. destruct (c_closed c); [apply Hfr; eauto with cliwrap|].
    destruct (Next (c_seqs c)) as [g q].
    pose proof (enqueue_acks s (set_seqs c g (c_dedup c)) (mkMsg (mkHeader ty fl q (u32 (Z.of_nat (length p)))) p)) as He.
    destruct (enqueue _ _ _) as [[c' ok] es]. destruct He as (? & ? & ? & ?). by apply Hfr.
  - unfold SendAndAwaitAck_begin. destruct (c_closed c); [apply Hfr; eauto with cliwrap|].
    destruct (Next (c_seqs c)) as [g q]. set (c1 := set_acks _ _ _ _). set (m := mkMsg _ _).
    pose proof (enqueue_acks s c1 m) as He.
    destruct (enqueue s c1 m) as [[c' ok] es]. destruct He as (E1 & E2 & E3 & ?).
    destruct ok; simpl; (apply ack_inv_register; [done|done| |by rewrite ?E2|done]); rewrite ?E1; simpl;
      [done|apply delete_subseteq].
  - unfold SendAndAwaitAck_end. destruct k; repeat case_match; simplify_eq/=;
      (eapply ack_inv_frame; eauto with cliwrap; simpl; (done || apply delete_subseteq)).
  - unfold Send. destruct (c_closed c); [apply Hfr; eauto with cliwrap|].
    pose proof (enqueue_acks s c m) as He.
    destruct (enqueue s c m) as [[c' ok] es]. destruct He as (? & ? & ? & ?). by apply Hfr.
  - unfold Close_begin. destruct (c_closing c); apply Hfr; eauto with cliwrap.
  - unfold Close_end. destruct (c_closing c && wg_done c); [|apply Hfr; eauto with cliwrap].
    destruct (Spiller.Close (c_sp c)). apply Hfr; eauto with cliwrap.
  - by apply ack_inv_read.
  - pose proof (writeLoop_acks f pk c) as He. destruct (writeLoop_step f pk c) as [c' es].
    destruct He as (? & ? & ? & ?). by apply Hfr.
Qed.

End AckRun.

(** ** Disconnection *)

(** A callback is called inside [fireOnce.Do], so at most once. *)
Definition disc_inv (c : Conn) (evs : list conn_event) : Prop :=
  (length (filter is_disconnect evs) ≤ if c_fired c then 1 else 0)%nat.

Definition quiet (es : list conn_event) : Prop := Forall (λ e, ¬ is_disconnect e) es.

Lemma quiet_filter es : quiet es → filter is_disconnect es = [].
Proof. induction 1 as [|e es He _ IH]; [done|]. rewrite filter_cons, IH. by case_decide. Qed.

Lemma quiet_nil : quiet [].
Proof. constructor. Qed.
Lemma quiet_one e : ¬ is_disconnect e → quiet [e].
Proof. intros. by repeat constructor. Qed.
#[export] Hint Resolve quiet_nil quiet_one : cliwrap.
#[export] Hint Extern 4 (¬ is_disconnect _) => (intros []) : cliwrap.

(** The fields that only [Close] and the callback change. *)
Definition same_life (c c' : Conn) : Prop :=
  c_closed c' = c_closed c ∧ c_closing c' = c_closing c ∧ c_fired c' = c_fired c.
#[export] Hint Extern 1 (same_life _ _) => (repeat split) : cliwrap.

Lemma enqueue_quiet s c m :
  let '(c', _, es) := enqueue s c m in same_life c c' ∧ quiet es.
Proof.
  unfold enqueue. destruct (Enqueue _ _ _ _) as [[ob d] ok]. split; [done|].
  case_match; eauto with cliwrap.
Qed.

Lemma writeLoop_quiet f p c :
  let '(c', es) := writeLoop_step f p c in same_life c c' ∧ quiet es.
Proof.
  unfold writeLoop_step. destruct (c_writer c); [by eauto with cliwrap..| |by eauto with cliwrap].
  destruct (Dequeue _ _ _ _) as [ob [m| |]]; [|by eauto with cliwrap..].
  destruct (WriteFrame _ _ _) as [[fw n] [e|]]; split; try done; eauto with cliwrap.
Qed.

Section DiscRun.
Context `{!Codec AckPayload}.

(** Only the stage past the closed check calls the callback. *)
Lemma read_quiet c :
  (∀ cause, c_reader c ≠ RFire cause) → c_fired (readLoop_step c).1 = c_fired c ∧ quiet (readLoop_step c).2.
Proof.
  intros Hr. unfold readLoop_step, fireDisconnect. destruct (c_reader c) eqn:E; eauto with cliwrap;
    [|by destruct (Hr cause)].
  destruct (ReadFrame (c_fr c)) as [[[fr h] body] [e|]].
  - destruct (readLoop_exit_reader (set_io c (c_fw c) fr) e) as [cause ->]. eauto with cliwrap.
  - destruct (Seen _ _) as [d dup]. destruct dup; [eauto with cliwrap|].
    destruct (_ || _); [|destruct (c_handler _); eauto with cliwrap].
    destruct (decode_ok body) as [p|]; [|eauto with cliwrap]. unfold deliverAck.
    destruct (_ !! _); eauto with cliwrap.
Qed.

Lemma step_quiet c op :
  op ≠ OpRead → c_fired (conn_step c op).1 = c_fired c ∧ quiet (conn_step c op).2.
Proof.
  intros Hop. destruct op as [h|cb| |s ty fl p|s ty fl p|seq ch ctx k|s m| |b| |f pk]; simpl; try done;
    eauto with cliwrap.
  - unfold Start. repeat case_match; eauto with cliwrap.
  - unfold SendWithNewSeq. destruct (c_closed c); [eauto with cliwrap|].
    destruct (Next (c_seqs c)) as [g q]. set (c1 := set_seqs _ _ _). set (m := mkMsg _ _).
    pose proof (enqueue_quiet s c1 m) as He. by destruct (enqueue _ _ _) as [[c' ok] es], He as [(_ & _ & ?) ?].
  - unfold SendAndAwaitAck_begin. destruct (c_closed c); [eauto with cliwrap|].
    destruct (Next (c_seqs c)) as [g q]. set (c1 := set_acks _ _ _ _). set (m := mkMsg _ _).
    pose proof (enqueue_quiet s c1 m) as He.
    destruct (enqueue s c1 m) as [[c' ok] es]. destruct He as [(_ & _ & He1) He2].
    destruct ok; simpl; (split; [done|]); (constructor; [by intros []|done]).
  - unfold SendAndAwaitAck_end. destruct k; repeat case_match; simplify_eq/=; eauto with cliwrap.
  - unfold Send. destruct (c_closed c); [eauto with cliwrap|].
    pose proof (enqueue_quiet s c m) as He. by destruct (enqueue _ _ _) as [[c' ok] es], He as [(_ & _ & ?) ?].
  - unfold Close_begin. destruct (c_closing c); eauto with cliwrap.
  - unfold Close_end. destruct (c_closing c && wg_done c); [|eauto with cliwrap].
    destruct (Spiller.Close (c_sp c)). eauto with cliwrap.
  - pose proof (writeLoop_quiet f pk c) as He. by destruct (writeLoop_step f pk c) as [c' es], He as [(_ & _ & ?) ?].
Qed.

Lemma disc_inv_step c evs op :
  disc_inv c evs → disc_inv (conn_step c op).1 (evs ++ (conn_step c op).2).
Proof.
  unfold disc_inv. intros H. rewrite filter_app, length_app.
  assert ((∃ cause, c_reader c = RFire cause ∧ op = OpRead) ∨
          c_fired (conn_step c op).1 = c_fired c ∧ quiet (conn_step c op).2) as [(cause & Hr & ->)|[Hf Hq]].
  { assert (op = OpRead ∨ op ≠ OpRead) as [->|Hop] by (destruct op; auto); [|right; by apply step_quiet].
    destruct (c_reader c) eqn:Er; try (right; simpl; apply read_quiet; congruence). left. by eexists. }
  - simpl. unfold readLoop_step, fireDisconnect. rewrite Hr. destruct (c_fired c) eqn:Ef; simpl.
    + rewrite Ef. lia.
    + destruct (c_onDisconnect c); [|simpl; lia].
      change (filter is_disconnect [EvDisconnect cause]) with [EvDisconnect cause]. simpl. lia.
  - rewrite (quiet_filter _ Hq), Hf. simpl. lia.
Qed.
End DiscRun.

(** ** The reader always ends *)

Section ReadEnd.
Context `{!Codec AckPayload}.

(** A turn at [ReadFrame]: a header's worth of bytes is gone and the reader is
    back there or in the handler, or an error ended the loop. *)
Lemma readLoop_step_progress c :
  c_reader c = RRun →
  let '(c', es) := readLoop_step c in
  quiet es ∧ same_life c c' ∧ c_onDisconnect c' = c_onDisconnect c ∧
  (((c_reader c' = RRun ∨ c_reader c' = RHandler) ∧
    (length (r_bytes (fr_r (c_fr c'))) + 2 ≤ length (r_bytes (fr_r (c_fr c))))%nat) ∨
   ∃ cause, c_reader c' = RErr cause).
Proof.
  intros Hr. unfold readLoop_step. rewrite Hr.
  destruct (ReadFrame (c_fr c)) as [[[fr h] body] [e|]] eqn:Ef.
  - destruct (readLoop_exit_reader (set_io c (c_fw c) fr) e) as [cause ->].
    split_and!; eauto with cliwrap.
  - apply ReadFrame_inv in Ef as (_ & _ & Hb).
    assert (length (r_bytes (fr_r fr)) + 2 ≤ length (r_bytes (fr_r (c_fr c))))%nat as Hlt.
    { rewrite Hb, length_app. unfold frame_bytes. rewrite length_app, length_Encode.
      unfold HeaderSize. lia. }
    destruct (Seen _ _) as [d dup]. destruct dup; [split_and!; eauto with cliwrap|].
    destruct (_ || _); [|destruct (c_handler _); split_and!; eauto with cliwrap].
    destruct (decode_ok body) as [p|]; [|split_and!; eauto with cliwrap].
    set (c2 := set_seqs _ _ _). unfold deliverAck.
    destruct (c_pending c2 !! _); split_and!; eauto with cliwrap.
Qed.

Lemma read_n_ends n : ∀ c,
  c_reader c = RRun ∨ c_reader c = RHandler →
  (length (r_bytes (fr_r (c_fr c))) + (if c_reader c is RHandler then 4 else 3) < n)%nat →
  c_reader (read_n n c).1 = RExit ∧
  length (filter is_disconnect (read_n n c).2) =
    (if c_onDisconnect c && negb (c_closed c) && negb (c_fired c) then 1%nat else 0%nat).
Proof.
  induction n as [|n IH]; intros c Hr Hn; [lia|]. rewrite read_n_S. destruct Hr as [Hr|Hr]; rewrite Hr in Hn.
  - pose proof (readLoop_step_progress c Hr) as Hp.
    destruct (readLoop_step c) as [c1 e1]. destruct Hp as (Hq & (H1 & H2 & H3) & H4 & Hc). simpl.
    rewrite filter_app, (quiet_filter e1) by done. rewrite <- H1, <- H3, <- H4. simpl.
    destruct Hc as [[Hr1 Hlen]|[cause Hr1]].
    + apply IH; [done|]. destruct (c_reader c1); lia.
    + destruct (read_n_fire n c1 cause Hr1) as [R1 ->]; [lia|]. split; [done|]. by case_match.
  - assert (readLoop_step c = (set_pcs c RRun (c_writer c), [])) as -> by (unfold readLoop_step; by rewrite Hr).
    simpl. apply (IH (set_pcs c RRun (c_writer c))); [by left|]. simpl. lia.
Qed.
End ReadEnd.

(** ** Close always completes *)

Section CloseEnds.
Context `{!Codec AckPayload}.

(** [Close] as one call, its goroutines' remaining turns taken in this order;
    [Close_any_order] below: any other order leaves the same connection. *)
Definition Close (ctx_first fired pick : bool) (c : Conn) : option (Conn * close_result * list conn_event) :=
  let '(c1, e1) := Close_begin c in
  let '(c2, e2) := read_n 3 c1 in
  let '(c3, e3) := writeLoop_step fired pick c2 in
  match Close_end c3 ctx_first with
  | Some (c4, r) => Some (c4, r, e1 ++ e2 ++ e3)
  | None => None
  end.

(** A transport that takes no more bytes fails every frame. *)
Lemma WriteFrame_no_room out h p :
  ∃ w n e, WriteFrame (mkWriter out (Some 0%nat)) h p = (w, n, Some e) ∧ w_room w = Some 0%nat.
Proof.
  unfold WriteFrame. destruct (_ <? _); [by do 3 eexists|]. destruct (negb _); [by do 3 eexists|].
  unfold Write. cbn [w_room w_out]. destruct (length (Encode h) <=? 0)%nat eqn:E; [|by do 3 eexists].
  apply Nat.leb_le in E. rewrite length_Encode in E. unfold HeaderSize in E. lia.
Qed.

(** What [Close_begin] leaves and every later step keeps. *)
Record closing_conn (c : Conn) : Prop := mkClosing {
  cc_closed : c_closed c = true;
  cc_cancelled : c_cancelled c = true;
  cc_closing : c_closing c = true;
  cc_room : w_room (c_fw c) = Some 0%nat;
  cc_done : ob_done (sp_ob (c_sp c)) = true;
  cc_chunks : r_chunks (fr_r (c_fr c)) = [];
  cc_end : r_end (fr_r (c_fr c)) = ErrClosedPipe;
  cc_reader : c_reader c ≠ RIdle;
  cc_writer : c_writer c ≠ WIdle }.

(** The turns the reader still needs, its handler and callback returning. *)
Definition reader_left (r : reader_pc) : nat :=
  match r with
  | RHandler => 3 | RRun => 2 | RFire _ => 2 | RErr _ => 1 | RCallback => 1 | RIdle => 0 | RExit => 0
  end.
Definition writer_left (w : writer_pc) : nat := match w with WExit => 0 | _ => 1 end.

(** The callback the reader is past the closed check for. *)
Definition callback_owed (r : reader_pc) : nat := match r with RFire _ => 1 | _ => 0 end.

Lemma Close_begin_closing c :
  c_closing c = false → c_reader c ≠ RIdle → c_writer c ≠ WIdle →
  closing_conn (Close_begin c).1 ∧ (Close_begin c).2 = [EvLocalClose] ∧
  c_reader (Close_begin c).1 = c_reader c ∧ c_writer (Close_begin c).1 = c_writer c.
Proof. intros Hc Hr Hw. unfold Close_begin. rewrite Hc. by split. Qed.

(** A closed transport fails the next read. *)
Lemma ReadFrame_closed c :
  r_chunks (fr_r (c_fr c)) = [] → r_end (fr_r (c_fr c)) = ErrClosedPipe →
  (ReadFrame (c_fr c)).2 = Some (ErrStream ErrClosedPipe) ∧
  r_chunks (fr_r (ReadFrame (c_fr c)).1.1.1) = [] ∧ r_end (fr_r (ReadFrame (c_fr c)).1.1.1) = ErrClosedPipe.
Proof.
  intros Hc He. unfold ReadFrame, ReadFull. rewrite Hc. simpl. rewrite He. by simpl.
Qed.

(** A turn of the reader of a closing connection. *)
Definition reader_next (c : Conn) : reader_pc :=
  match c_reader c with
  | RRun => RErr (ErrAgentDisconnectedUnexpected (ErrStream ErrClosedPipe))
  | RHandler => RRun
  | RFire _ => if c_fired c then RExit else RCallback
  | _ => RExit
  end.

Lemma closing_read_step c :
  closing_conn c → ∃ fr,
  r_chunks (fr_r fr) = [] ∧ r_end (fr_r fr) = ErrClosedPipe ∧
  (c_reader c ≠ RRun → fr = c_fr c) ∧ (c_reader c = RRun → fr = (ReadFrame (c_fr c)).1.1.1) ∧
  readLoop_step c =
    (set_pcs (set_io (set_callbacks c (c_handler c) (c_onDisconnect c) (c_fired c || bool_decide (callback_owed (c_reader c) = 1%nat)))
                (c_fw c) fr) (reader_next c) (c_writer c),
     match c_reader c with
     | RFire cause => if c_onDisconnect c && negb (c_fired c) then [EvDisconnect cause] else []
     | _ => []
     end).
Proof.
  intros [C1 C2 C3 C4 C5 C6 C7 C8 C9]. destruct (ReadFrame_closed c C6 C7) as (R1 & R2 & R3).
  unfold readLoop_step, fireDisconnect, reader_next. destruct (c_reader c) eqn:Er; try done.
  - exists (ReadFrame (c_fr c)).1.1.1. split_and!; try done.
    destruct (ReadFrame (c_fr c)) as [[[fr h] b] e]. simpl in *. subst e. simpl.
    unfold set_pcs, set_io, set_callbacks. simpl. by rewrite orb_false_r.
  - exists (c_fr c). split_and!; try done. destruct c; simpl in *. by rewrite orb_false_r.
  - exists (c_fr c). split_and!; try done. rewrite C1. destruct c; simpl in *. by rewrite orb_false_r.
  - exists (c_fr c). split_and!; try done. destruct c as [???????????[]????]; simpl in *; subst;
      [by rewrite andb_false_r|]. by destruct c_onDisconnect0.
  - exists (c_fr c). split_and!; try done. destruct c; simpl in *. rewrite orb_false_r. by subst.
  - exists (c_fr c). split_and!; try done. destruct c; simpl in *. rewrite orb_false_r. by subst.
Qed.

Lemma closing_read c :
  closing_conn c →
  let '(c', es) := readLoop_step c in
  closing_conn c' ∧ (reader_left (c_reader c') ≤ pred (reader_left (c_reader c)))%nat ∧ c_writer c' = c_writer c ∧
  (length (filter is_disconnect es) + callback_owed (c_reader c') ≤ callback_owed (c_reader c))%nat.
Proof.
  intros H. destruct (closing_read_step c H) as (fr & R1 & R2 & _ & _ & ->).
  destruct H as [C1 C2 C3 C4 C5 C6 C7 C8 C9]. unfold reader_next. simpl.
  split; [split; simpl; try done; destruct (c_reader c); try done; by case_match|].
  destruct (c_reader c) eqn:Er; simpl; split_and!; try done; try lia; destruct (c_fired c); simpl; try lia;
    rewrite ?andb_false_r; simpl; try lia; destruct (c_onDisconnect c); simpl; try lia.
Qed.

(** A turn of its writer ends it, without a word on the wire. *)
Lemma closing_write fired pick c :
  closing_conn c → ∃ sp fw,
  ob_done (sp_ob sp) = true ∧ w_room fw = Some 0%nat ∧
  writeLoop_step fired pick c = (set_pcs (set_io (set_sp c sp) fw (c_fr c)) (c_reader c) WExit, []) ∧
  (∀ c', c_sp c' = c_sp c → c_fw c' = c_fw c → c_writer c' = c_writer c → c_cancelled c' = c_cancelled c →
     c_closed c' = c_closed c →
     writeLoop_step fired pick c' = (set_pcs (set_io (set_sp c' sp) fw (c_fr c')) (c_reader c') WExit, [])).
Proof.
  intros [C1 C2 C3 C4 C5 C6 C7 C8 C9].
  assert (∃ sp fw, ob_done (sp_ob sp) = true ∧ w_room fw = Some 0%nat ∧
    ∀ c', c_sp c' = c_sp c → c_fw c' = c_fw c → c_writer c' = c_writer c → c_cancelled c' = c_cancelled c →
     c_closed c' = c_closed c →
     writeLoop_step fired pick c' = (set_pcs (set_io (set_sp c' sp) fw (c_fr c')) (c_reader c') WExit, []))
    as (sp & fw & H1 & H2 & H3); [|exists sp, fw; split_and!; auto].
  assert (c_fw c = mkWriter (w_out (c_fw c)) (Some 0%nat)) as Hfw
    by (destruct (c_fw c); simpl in *; congruence).
  destruct (c_writer c) eqn:Ew; [done| | |].
  - exists (c_sp c), (c_fw c). split_and!; try done. intros c' E1 E2 E3 E4 E5.
    unfold writeLoop_step. rewrite E3, E4, C2. destruct c'; simpl in *. by subst.
  - destruct (Dequeue true fired pick (sp_ob (c_sp c))) as [ob r] eqn:Ed.
    assert (ob_done ob = true ∧ r ≠ DeqBlocked) as [Hob Hr].
    { unfold Dequeue in Ed. rewrite C5 in Ed. repeat case_match; by simplify_eq/=. }
    destruct r as [msg| |]; [| |done].
    + destruct (WriteFrame_no_room (w_out (c_fw c)) (m_Header msg) (m_Payload msg)) as (w & n & e & Hwf & Hroom).
      rewrite <- Hfw in Hwf.
      exists (mkSpiller ob (fst (spill (sp_disk (c_sp c)) msg))), w. split_and!; try done.
      intros c' E1 E2 E3 E4 E5. unfold writeLoop_step. rewrite E3, E1, Ed. cbn [set_sp c_fw]. rewrite E2, Hwf.
      destruct c'; simpl in *. by subst.
    + exists (mkSpiller ob (sp_disk (c_sp c))), (c_fw c). split_and!; try done.
      intros c' E1 E2 E3 E4 E5. unfold writeLoop_step. rewrite E3, E1, Ed, E4, E5, C1, orb_true_r.
      destruct c'; simpl in *. by subst.
  - exists (c_sp c), (c_fw c). split_and!; try done. intros c' E1 E2 E3 E4 E5.
    unfold writeLoop_step. rewrite E3. destruct c'; simpl in *. by subst.
Qed.

(** Calls on a closing connection leave its goroutines alone. *)
Lemma closing_call c op :
  closing_conn c → op ≠ OpRead → (∀ f p, op ≠ OpWrite f p) →
  let '(c', es) := conn_step c op in
  closing_conn c' ∧ c_reader c' = c_reader c ∧ c_writer c' = c_writer c ∧ quiet es.
Proof.
  intros H Hr Hw. pose proof (step_quiet c op Hr) as [_ Hq].
  assert (closing_conn (conn_step c op).1 ∧ c_reader (conn_step c op).1 = c_reader c ∧
          c_writer (conn_step c op).1 = c_writer c) as (H1 & H2 & H3);
    [clear Hq|by destruct (conn_step c op); split_and!].
  pose proof H as [C1 C2 C3 C4 C5 C6 C7 C8 C9].
  destruct op as [h|cb| |s ty fl p|s ty fl p|seq ch ctx k|s m| |b| |f pk]; simpl; try done.
  - assert (Start c = c) as -> by (unfold Start; by destruct (c_reader c)). done.
  - unfold SendWithNewSeq. by rewrite C1.
  - unfold SendAndAwaitAck_begin. by rewrite C1.
  - unfold SendAndAwaitAck_end. destruct k; repeat case_match; simplify_eq/=; by split_and!.
  - unfold Send. by rewrite C1.
  - unfold Close_begin. by rewrite C3.
  - unfold Close_end. destruct (c_closing c && wg_done c); [|done]. unfold Spiller.Close.
    destruct (dk_wal _); [destruct (Wal.Close _)|]; by split_and!.
  - by destruct (Hw f pk).
Qed.

(** Turns of the reader and of the writer among the steps. *)
Definition is_read (op : conn_op) : bool := match op with OpRead => true | _ => false end.
Definition is_write (op : conn_op) : bool := match op with OpWrite _ _ => true | _ => false end.
Definition turns (p : conn_op → bool) (ops : list conn_op) : nat := length (filter (λ op, p op = true) ops).

Lemma closing_run ops : ∀ c,
  closing_conn c →
  let '(c', es) := run_trace conn_step c ops in
  closing_conn c' ∧ (reader_left (c_reader c') ≤ reader_left (c_reader c) - turns is_read ops)%nat ∧
  writer_left (c_writer c') = (writer_left (c_writer c) - turns is_write ops)%nat ∧
  (length (filter is_disconnect es) ≤ callback_owed (c_reader c))%nat.
Proof.
  induction ops as [|op ops IH]; intros c H; cbn [run_trace].
  { unfold turns. rewrite !filter_nil. simpl. rewrite !Nat.sub_0_r. split_and!; try done. lia. }
  assert (let '(c', es) := conn_step c op in
    closing_conn c' ∧ (reader_left (c_reader c') ≤ reader_left (c_reader c) - turns is_read [op])%nat ∧
    writer_left (c_writer c') = (writer_left (c_writer c) - turns is_write [op])%nat ∧
    (length (filter is_disconnect es) + callback_owed (c_reader c') ≤ callback_owed (c_reader c))%nat) as Hstep.
  { assert (op = OpRead ∨ (∃ f p, op = OpWrite f p) ∨ op ≠ OpRead ∧ ∀ f p, op ≠ OpWrite f p)
      as [->|[(f & p & ->)|[Hr Hw]]] by (destruct op; eauto; right; right; by split).
    - pose proof (closing_read c H) as Hc. simpl. destruct (readLoop_step c) as [c' es].
      destruct Hc as (H1 & H2 & H3 & H4). unfold turns. simpl. rewrite H3. split_and!; try done; lia.
    - destruct (closing_write f p c H) as (sp & fw & W1 & W2 & W3 & _). simpl. rewrite W3.
      destruct H as [C1 C2 C3 C4 C5 C6 C7 C8 C9]. unfold turns. simpl. rewrite Nat.sub_0_r.
      split_and!; try done. by destruct (c_writer c).
    - pose proof (closing_call c op H Hr Hw) as Hc. destruct (conn_step c op) as [c' es].
      destruct Hc as (H1 & -> & -> & Hq). rewrite (quiet_filter es Hq). unfold turns.
      destruct op; simpl; rewrite ?Nat.sub_0_r; try done; by destruct (Hw fired pick). }
  destruct (conn_step c op) as [c1 e1]. destruct Hstep as (H1 & H2 & H3 & H4).
  specialize (IH c1 H1). destruct (run_trace conn_step c1 ops) as [c2 e2].
  destruct IH as (I1 & I2 & I3 & I4). unfold turns in *.
  rewrite !(filter_cons _ op ops). rewrite !filter_cons, !filter_nil in H2, H3.
  split_and!; [done|..].
  - destruct (decide (is_read op = true)); simpl in *; lia.
  - rewrite I3, H3. destruct (decide (is_write op = true)); simpl; lia.
  - rewrite filter_app, length_app. lia.
Qed.

Lemma closing_done c :
  closing_conn c → reader_left (c_reader c) = 0%nat → writer_left (c_writer c) = 0%nat →
  wg_done c = true ∧ c_reader c = RExit ∧ c_writer c = WExit.
Proof.
  intros [C1 C2 C3 C4 C5 C6 C7 C8 C9] Hr Hw. unfold wg_done. destruct (c_reader c), (c_writer c); done.
Qed.

(** The turns of [Close]'s goroutines in the order the composite takes them. *)
Definition finish_turns (fired pick : bool) (c : Conn) : Conn * list conn_event :=
  let '(c2, e2) := read_n 3 c in
  let '(c3, e3) := writeLoop_step fired pick c2 in (c3, e2 ++ e3).

(** A turn of the reader and one of the writer commute. *)
Lemma turns_commute fired pick c :
  closing_conn c →
  readLoop_step (writeLoop_step fired pick c).1 =
    ((writeLoop_step fired pick (readLoop_step c).1).1, (readLoop_step c).2) ∧
  (writeLoop_step fired pick c).2 = [] ∧ closing_conn (writeLoop_step fired pick c).1.
Proof.
  intros H. destruct (closing_write fired pick c H) as (sp & fw & W1 & W2 & W3 & W4).
  assert (closing_conn (writeLoop_step fired pick c).1) as Hw.
  { rewrite W3. destruct H as [C1 C2 C3 C4 C5 C6 C7 C8 C9]. by split. }
  split_and!; [|by rewrite W3|done].
  destruct (closing_read_step _ H) as (fr & _ & _ & R1 & R2 & E1).
  destruct (closing_read_step _ Hw) as (fr' & _ & _ & R1' & R2' & E2).
  rewrite E2. rewrite W3 in R1', R2' |- *. rewrite E1. simpl in R1', R2'.
  assert (fr' = fr) as ->.
  { destruct (c_reader c) eqn:Er; try (rewrite R1, R1' by done; done). by rewrite R2, R2'. }
  rewrite W4 by done. done.
Qed.

Lemma read_n_commute fired pick k : ∀ c, closing_conn c →
  read_n k (writeLoop_step fired pick c).1 =
    ((writeLoop_step fired pick (read_n k c).1).1, (read_n k c).2) ∧ closing_conn (read_n k c).1.
Proof.
  induction k as [|k IH]; intros c H; [by unfold read_n|]. rewrite !read_n_S.
  destruct (turns_commute fired pick c H) as (E & _ & _). rewrite E. simpl.
  pose proof (closing_read c H) as Hr. destruct (readLoop_step c) as [c1 e1]. destruct Hr as (H1 & _).
  simpl. destruct (IH c1 H1) as [-> H2]. by split.
Qed.

Lemma read_n_closed k c : closing_conn c → (3 ≤ k)%nat → c_reader (read_n k c).1 = RExit.
Proof.
  intros H Hk. pose proof (closing_run (replicate k OpRead) c H) as Hr. fold (read_n k c) in Hr.
  destruct (read_n k c) as [c' es]. destruct Hr as (H1 & H2 & _). simpl.
  assert (turns is_read (replicate k OpRead) = k) as Ht.
  { clear. unfold turns. induction k as [|k IH]; [done|]. cbn [replicate]. rewrite filter_cons. simpl. by rewrite IH. }
  rewrite Ht in H2. assert (reader_left (c_reader c) ≤ 3)%nat by (destruct (c_reader c); simpl; lia).
  pose proof (cc_reader _ H1). destruct (c_reader c'); simpl in *; (done || lia).
Qed.

Lemma finish_read fired pick c :
  closing_conn c →
  finish_turns fired pick c = ((finish_turns fired pick (readLoop_step c).1).1,
                         (readLoop_step c).2 ++ (finish_turns fired pick (readLoop_step c).1).2).
Proof.
  intros H. assert (read_n 3 c = read_n 4 c) as E.
  { unfold read_n. rewrite (replicate_add 3 1 OpRead : replicate 4 OpRead = _). rewrite run_trace_app.
    pose proof (read_n_closed 3 c H ltac:(lia)) as Hr. unfold read_n in Hr.
    destruct (run_trace conn_step c (replicate 3 OpRead)) as [c' es]. simpl in Hr.
    pose proof (read_n_exited 1 c' Hr) as Hx. unfold read_n in Hx. rewrite Hx. by rewrite app_nil_r. }
  unfold finish_turns at 1. rewrite E, read_n_S. unfold finish_turns.
  destruct (read_n 3 (readLoop_step c).1) as [c2 e2]. simpl.
  destruct (writeLoop_step fired pick c2) as [c3 e3]. simpl. by rewrite (assoc_L (++)).
Qed.

Lemma finish_write fired pick f p c :
  closing_conn c → ∃ f0 p0, finish_turns f0 p0 c = finish_turns fired pick (writeLoop_step f p c).1.
Proof.
  intros H. destruct (decide (c_writer c = WExit)) as [Ew|Ew].
  { exists fired, pick. assert (writeLoop_step f p c = (c, [])) as -> by (unfold writeLoop_step; by rewrite Ew). done. }
  exists f, p. unfold finish_turns. destruct (read_n_commute f p 3 c H) as [-> H3].
  destruct (read_n 3 c) as [c2 e2]. simpl in *.
  destruct (closing_write f p c2 H3) as (sp & fw & _ & _ & W & _). by rewrite W.
Qed.

(** Whatever the order of the goroutines' turns, [Close] ends the same way. *)
Lemma Close_any_order fired pick ops : ∀ c,
  closing_conn c → Forall (λ op, is_read op || is_write op = true) ops →
  ∃ f0 p0, finish_turns f0 p0 c = ((finish_turns fired pick (run_trace conn_step c ops).1).1,
    (run_trace conn_step c ops).2 ++ (finish_turns fired pick (run_trace conn_step c ops).1).2).
Proof.
  induction ops as [|op ops IH]; intros c H Hops.
  { exists fired, pick. simpl. by destruct (finish_turns fired pick c). }
  apply Forall_cons in Hops as [Hop Hops]. cbn [run_trace]. destruct op; try done; cbn [conn_step].
  - pose proof (closing_read c H) as Hr. pose proof (λ f p, finish_read f p c H) as Hf.
    destruct (readLoop_step c) as [c1 e1]. destruct Hr as (H1 & _).
    destruct (IH c1 H1 Hops) as (f0 & p0 & E). exists f0, p0. rewrite Hf. simpl. rewrite E.
    destruct (run_trace conn_step c1 ops) as [c2 e2]. simpl. by rewrite (assoc_L (++)).
  - destruct (turns_commute fired0 pick0 c H) as (_ & E2 & H1).
    pose proof (λ f p, finish_write f p fired0 pick0 c H) as Hf.
    destruct (writeLoop_step fired0 pick0 c) as [c1 e1]. simpl in *. subst e1.
    destruct (IH c1 H1 Hops) as (f0 & p0 & E). destruct (Hf f0 p0) as (f1 & p1 & E1).
    exists f1, p1. rewrite E1, E. by destruct (run_trace conn_step c1 ops).
Qed.
End CloseEnds.

(** ** Properties *)

(** C1: the frames written whole reach the handler exactly once, in order.
    Take a connection whose senders use [SendWithNewSeq] and
    [SendAndAwaitAck], with payloads of any size (one above the cap ends the
    writer without a byte of it sent), under any interleaving with the writer,
    the reader, overflow into the log, local close and a transport that may
    fail after any number of bytes.  The frames written whole are a prefix of
    the frames that entered the queue, with strictly increasing sequence
    numbers; as long as the writer has not returned, the rest of that queue is
    exactly what it still holds, so nothing that entered it is lost or
    reordered (a message that overflowed into the log, or that a failing write
    cut, is not among them).  A peer that reads what reached the transport, in
    any chunking, hands its handler exactly the frames written whole (less the
    wire-level acknowledgements), each once and in order, and its reader then
    returns. *)
Theorem conn_exactly_once_in_order `{!Codec AckPayload}
    (cfgA : ConnConfig) (rA : Reader) (room : option nat) (a0 : Conn) (ops : list conn_op)
    (HcfgA : cfg_RWC cfgA = Some (rA, mkWriter [] room)) (HA : NewConn cfgA = Ok a0)
    (Hops : Forall conn_op_ok ops) (Hlen : Z.of_nat (length ops) < 2 ^ 64) :
  let '(a, evs) := run_trace conn_step a0 ops in
  let sent := omap ev_written evs in
  sent `prefix_of` omap ev_queued evs ∧ StronglySorted Z.lt (seq_of <$> sent) ∧
  (c_writer a ≠ WExit → omap ev_queued evs = sent ++ ob_ch (sp_ob (c_sp a))) ∧
  ∀ chunks wB cfgB b0 n,
    concat chunks = w_out (c_fw a) →
    cfg_RWC cfgB = Some (mkReader chunks EOF, wB) → cfg_MaxRecvPayload cfgB = 0 →
    NewConn cfgB = Ok b0 → (2 * length sent + 4 ≤ n)%nat →
    let '(b, evsB) := read_n n (Start (OnMessage b0 true)) in
    c_reader b = RExit ∧ omap ev_handled evsB = app_messages sent.
Proof.
  pose proof (send_inv_init _ _ _ _ HcfgA HA) as H0.
  destruct (NewConn_fields _ _ _ _ HcfgA HA) as (_ & _ & _ & _ & Hg & _).
  pose proof (conn_trace_inv a0 [] ops H0 Hops) as H. rewrite Hg in H. specialize (H Hlen).
  destruct (run_trace conn_step a0 ops) as [a evs]. simpl in *.
  destruct H as [(lost & H1 & Hl) H2 H3 _ _ H5 (m & part & Hm & Hp & Hp' & Ho & _)].
  rewrite H1 in H2, H3. rewrite fmap_app in H2.
  apply StronglySorted_app in H2 as (_ & H2 & _).
  apply Forall_app in H3 as [H3 _].
  split_and!; [rewrite H1; by eexists|done|rewrite H1; by destruct Hl as [->|?]|].
  intros chunks wB cfgB b0 n Hch HcfgB Hmax HB Hlen'.
  destruct (NewConn_fields _ _ _ _ HcfgB HB)
    as (_ & Hr & Hc & _ & _ & Hd & Hrd & Hwr & _). specialize (Hc Hmax).
  assert (∀ x : Conn * list conn_event, c_reader x.1 = RExit ∧ omap ev_handled x.2 = app_messages (omap ev_written evs) →
    let '(b, evsB) := x in c_reader b = RExit ∧ omap ev_handled evsB = app_messages (omap ev_written evs))
    as Hlet by (by intros [? ?]).
  apply Hlet, (read_n_stream _ _ m part 0); try done.
  - unfold reading, Start, OnMessage. simpl. rewrite Hrd, Hwr. simpl. rewrite Hr, Hd, Hc.
    split_and!; try done. unfold r_bytes. simpl. by rewrite Hch, Ho.
  - eapply Forall_impl; [exact H3|]. simpl. lia.
Qed.

Definition ex_cfg (r : Reader) (room : option nat) : ConnConfig :=
  mkConnConfig (Some (r, mkWriter [] room)) None false 1 100 false 0.

(** Two sends with an outbox of one slot: the second is spilled; then a third
    one that the failing transport cuts. *)
Definition ex_ops : list conn_op :=
  [OpStart; OpSendNew alone MsgPing 0 [x61]; OpSendNew alone MsgPing 0 [x62];
   OpWrite false false; OpWrite false false;
   OpAwaitBegin alone MsgStopChild 0 [x63]; OpWrite false false; OpWrite false false].

Lemma conn_exactly_once_in_order_witness :
  ∃ a0, NewConn (ex_cfg (mkReader [] EOF) (Some 20%nat)) = Ok a0 ∧
  let '(a, evs) := run_trace (conn_step (Codec0 := AckCodec.ack_codec)) a0 ex_ops in
  omap ev_written evs = [mkMsg (mkHeader MsgPing 0 1 1) [x61]] ∧
  (omap ev_written evs `prefix_of` omap ev_queued evs ∧
   StronglySorted Z.lt (seq_of <$> omap ev_written evs) ∧
   (c_writer a ≠ WExit → omap ev_queued evs = omap ev_written evs ++ ob_ch (sp_ob (c_sp a))) ∧
   ∀ chunks wB cfgB b0 n,
    concat chunks = w_out (c_fw a) →
    cfg_RWC cfgB = Some (mkReader chunks EOF, wB) → cfg_MaxRecvPayload cfgB = 0 →
    NewConn cfgB = Ok b0 → (2 * length (omap ev_written evs) + 4 ≤ n)%nat →
    let '(b, evsB) := read_n (Codec0 := AckCodec.ack_codec) n (Start (OnMessage b0 true)) in
    c_reader b = RExit ∧ omap ev_handled evsB = app_messages (omap ev_written evs)).
Proof.
  eexists. split; [reflexivity|].
  match goal with |- context [run_trace conn_step ?c _] => set (a0 := c) end.
  pose proof (conn_exactly_once_in_order (Codec0 := AckCodec.ack_codec)
    (ex_cfg (mkReader [] EOF) (Some 20%nat)) (mkReader [] EOF) (Some 20%nat) a0 ex_ops
    eq_refl eq_refl ltac:(repeat constructor; vm_compute; congruence) ltac:(done)) as H.
  assert (omap ev_written (run_trace (conn_step (Codec0 := AckCodec.ack_codec)) a0 ex_ops).2
          = [mkMsg (mkHeader MsgPing 0 1 1) [x61]]) as Hs by (vm_compute; reflexivity).
  destruct (run_trace conn_step a0 ex_ops) as [a evs]. exact (conj Hs H).
Defined.

(** C15: acknowledgement matching.  In every run, no channel is ever closed
    twice, and a [SendAndAwaitAck] that registered sequence number [seq] and
    channel [ch] finds its channel closed only if an acknowledgement frame
    carrying exactly [seq] was decoded after the registration. *)
Theorem await_ack_matches `{!Codec AckPayload} (cfg : ConnConfig) (rw : Reader * Writer)
    (c0 : Conn) (ops : list conn_op)
    (Hcfg : cfg_RWC cfg = Some rw) (Hc0 : NewConn cfg = Ok c0) :
  let '(c, evs) := run_trace conn_step c0 ops in
  c_panic c = false ∧
  ∀ seq ch ctx_done c', EvRegister seq ch ∈ evs →
    SendAndAwaitAck_end c seq ch ctx_done CaseAck = Some (c', None) →
    ∃ e1 e2, evs = e1 ++ EvRegister seq ch :: e2 ∧ EvAckFrame seq ∈ e2.
Proof.
  destruct rw as [r w]. destruct (NewConn_fields _ _ _ _ Hcfg Hc0)
    as (_ & _ & _ & _ & _ & _ & _ & _ & _ & _ & _ & Hp & Hch & Hpan).
  assert (ack_inv c0 []) as H0.
  { split; rewrite ?Hp, ?Hch; try done; by intros * ?%elem_of_nil. }
  pose proof (run_trace_inv conn_step ack_inv (λ _, True) (λ c evs op H _, ack_inv_step c evs op H)
    ops c0 [] H0 ltac:(by apply Forall_true)) as H.
  destruct (run_trace conn_step c0 ops) as [c evs]. destruct H as [_ _ _ H4 H5].
  split; [done|]. intros seq ch ctx c' Hreg Hend. apply H4; [done|].
  unfold SendAndAwaitAck_end in Hend. by repeat case_match.
Qed.

(** An acknowledgement frame for sequence number 1, as the peer sends it. *)
Definition ex_ack_stream : Reader :=
  mkReader [frame_bytes (mkMsg (mkHeader MsgAckData 0 1 8) (be_put 8 1))] EOF.
Definition ex_ack_ops : list conn_op :=
  [OpStart; OpAwaitBegin alone MsgStopChild 0 [x63]; OpWrite false false; OpWrite false false; OpRead].

Lemma await_ack_matches_witness :
  ∃ c0, NewConn (ex_cfg ex_ack_stream None) = Ok c0 ∧
  let '(c, evs) := run_trace (conn_step (Codec0 := AckCodec.ack_codec)) c0 ex_ack_ops in
  SendAndAwaitAck_end c 1 0 false CaseAck = Some (c, None) ∧
  (∃ e1 e2, evs = e1 ++ EvRegister 1 0 :: e2 ∧ EvAckFrame 1 ∈ e2).
Proof.
  eexists. split; [reflexivity|].
  match goal with |- context [run_trace conn_step ?c _] => set (c0 := c) end.
  pose proof (await_ack_matches (Codec0 := AckCodec.ack_codec) (ex_cfg ex_ack_stream None)
    _ c0 ex_ack_ops eq_refl eq_refl) as H.
  assert (SendAndAwaitAck_end (run_trace (conn_step (Codec0 := AckCodec.ack_codec)) c0 ex_ack_ops).1
            1 0 false CaseAck
          = Some ((run_trace (conn_step (Codec0 := AckCodec.ack_codec)) c0 ex_ack_ops).1, None)) as H1
    by (vm_compute; reflexivity).
  assert (EvRegister 1 0 ∈ (run_trace (conn_step (Codec0 := AckCodec.ack_codec)) c0 ex_ack_ops).2) as H2
    by (vm_compute; left).
  destruct (run_trace conn_step c0 ex_ack_ops) as [c evs].
  exact (conj H1 (proj2 H 1 0%nat false c H2 H1)).
Defined.

(** The disconnect callback runs at most once in every run. *)
Theorem disconnect_at_most_once `{!Codec AckPayload} (cfg : ConnConfig) (rw : Reader * Writer)
    (c0 : Conn) (ops : list conn_op)
    (Hcfg : cfg_RWC cfg = Some rw) (Hc0 : NewConn cfg = Ok c0) :
  (length (filter is_disconnect (run_trace conn_step c0 ops).2) ≤ 1)%nat.
Proof.
  destruct rw as [r w]. destruct (NewConn_fields _ _ _ _ Hcfg Hc0)
    as (_ & _ & _ & _ & _ & _ & _ & _ & Hcl & Hcg & Hf & _).
  assert (disc_inv c0 []) as H0 by (unfold disc_inv; simpl; lia).
  pose proof (run_trace_inv conn_step disc_inv (λ _, True) (λ c evs op H _, disc_inv_step c evs op H)
    ops c0 [] H0 ltac:(by apply Forall_true)) as H.
  destruct (run_trace conn_step c0 ops) as [c evs]. unfold disc_inv in H. simpl in *.
  destruct (c_fired c); lia.
Qed.

Lemma disconnect_at_most_once_witness :
  ∃ c0, NewConn (ex_cfg ex_ack_stream None) = Ok c0 ∧
  (length (filter is_disconnect (run_trace (conn_step (Codec0 := AckCodec.ack_codec)) c0
    [OpSetOnDisconnect true; OpStart; OpRead; OpRead; OpCloseBegin; OpRead]).2) ≤ 1)%nat.
Proof.
  eexists. split; [reflexivity|].
  match goal with |- context [run_trace conn_step ?c ?l] => set (c0 := c); set (ops := l) end.
  exact (disconnect_at_most_once (Codec0 := AckCodec.ack_codec) (ex_cfg ex_ack_stream None)
    _ c0 ops eq_refl eq_refl).
Defined.

(** A reader that is past the closed check when [Close] begins still runs the
    callback, for the error it saw before. *)
Example callback_while_closing :
  ∃ c0, NewConn (ex_cfg (mkReader [] EOF) None) = Ok c0 ∧
  (run_trace (conn_step (Codec0 := AckCodec.ack_codec)) c0
    [OpSetOnDisconnect true; OpStart; OpRead; OpRead; OpCloseBegin; OpRead]).2
  = [EvLocalClose; EvDisconnect ErrAgentDisconnectedEOF].
Proof. eexists. split; reflexivity. Qed.

(** C16: the read loop ends and reports it.  On any finite inbound stream,
    well formed or not, a running reader whose handlers and callback return
    is itself done after at most one turn per byte plus four (the read that
    fails and the stages of the callback), and in doing so runs the disconnect
    callback exactly once, unless none is set, the conn was closed locally, or
    it already ran. *)
Theorem read_loop_terminates `{!Codec AckPayload} (c : Conn) (n : nat)
    (Hrun : c_reader c = RRun) (Hn : (length (concat (r_chunks (fr_r (c_fr c)))) + 3 < n)%nat) :
  let '(c', es) := read_n n c in
  c_reader c' = RExit ∧
  length (filter is_disconnect es) =
    (if c_onDisconnect c && negb (c_closed c) && negb (c_fired c) then 1%nat else 0%nat).
Proof.
  pose proof (read_n_ends n c (or_introl Hrun)) as H. rewrite Hrun in H.
  specialize (H Hn). by destruct (read_n n c).
Qed.

Lemma read_loop_terminates_witness :
  ∃ c0, NewConn (ex_cfg ex_ack_stream None) = Ok c0 ∧
  let c := Start (SetOnDisconnect c0 true) in
  let '(c', es) := read_n (Codec0 := AckCodec.ack_codec) 29 c in
  c_reader c' = RExit ∧ length (filter is_disconnect es) = 1%nat.
Proof.
  eexists. split; [reflexivity|].
  match goal with |- context [Start (SetOnDisconnect ?c true)] => set (c0 := c) end.
  exact (read_loop_terminates (Codec0 := AckCodec.ack_codec) (Start (SetOnDisconnect c0 true)) 29
    eq_refl ltac:(vm_compute; lia)).
Defined.

(** C17: closing joins both goroutines.  Take a started connection whose
    reader and writer are anywhere: reading, inside the message handler, at
    any stage of the disconnect callback, waiting for a message, about to
    write one.  Once [Close] has begun, every sequence of further steps,
    whatever calls and goroutine turns it interleaves, in which the reader
    gets at least three turns (its handler and callback return) and the writer
    one, ends with both goroutines returned, so [wg.Wait] is satisfied and
    [Close] returns.  A disconnect callback runs meanwhile only if the reader
    was already past the closed check, and then at most once.  When only the
    goroutines move, their order does not matter: [Close] taken as one call
    ends in the same connection with the same events. *)
Theorem close_joins_goroutines `{!Codec AckPayload} (c : Conn) (ops : list conn_op)
    (Hfirst : c_closing c = false) (Hr : c_reader c ≠ RIdle) (Hw : c_writer c ≠ WIdle)
    (Hreads : (3 ≤ turns is_read ops)%nat) (Hwrites : (1 ≤ turns is_write ops)%nat) :
  let '(c1, e1) := Close_begin c in
  let '(c2, es) := run_trace conn_step c1 ops in
  wg_done c2 = true ∧ c_closed c2 = true ∧
  (∀ ctx_first, is_Some (Close_end c2 ctx_first)) ∧
  (length (filter is_disconnect es) ≤ callback_owed (c_reader c))%nat ∧
  (Forall (λ op, is_read op || is_write op = true) ops → ∃ fired pick, ∀ ctx_first,
     Close ctx_first fired pick c = (λ '(c3, r), (c3, r, e1 ++ es)) <$> Close_end c2 ctx_first).
Proof.
  destruct (Close_begin_closing c Hfirst Hr Hw) as (Hc & He & Er & Ew).
  unfold Close. destruct (Close_begin c) as [c1 e1]. simpl in *.
  pose proof (closing_run ops c1 Hc) as Hrun. pose proof (Close_any_order false false ops c1 Hc) as Hany.
  destruct (run_trace conn_step c1 ops) as [c2 es]. destruct Hrun as (H2 & Hr2 & Hw2 & Hd).
  assert (reader_left (c_reader c1) ≤ 3)%nat by (destruct (c_reader c1); simpl; lia).
  assert (writer_left (c_writer c1) ≤ 1)%nat by (destruct (c_writer c1); simpl; lia).
  destruct (closing_done c2 H2 ltac:(lia) ltac:(lia)) as (Hwg & Er2 & Ew2).
  split_and!; [done|apply H2| |by rewrite Er in Hd|].
  - intros b. unfold Close_end. rewrite (cc_closing _ H2), Hwg. by destruct (Spiller.Close (c_sp c2)).
  - intros Hops. destruct (Hany Hops) as (f & p & E). exists f, p. intros b.
    unfold finish_turns in E. rewrite (read_n_exited 3 c2 Er2) in E.
    assert (writeLoop_step false false c2 = (c2, [])) as Ex by (unfold writeLoop_step; by rewrite Ew2).
    rewrite Ex in E. simpl in E. rewrite app_nil_r in E.
    destruct (read_n 3 c1) as [c3 e3]. destruct (writeLoop_step f p c3) as [c4 e4]. injection E as -> <-.
    by destruct (Close_end c2 b) as [[? ?]|].
Qed.

(** Closed while the handler has a frame, with a send refused in between. *)
Definition ex_close_ops : list conn_op :=
  [OpSendNew alone MsgPing 0 [x61]; OpRead; OpRead; OpWrite false false; OpRead].

Lemma close_joins_goroutines_witness :
  ∃ c0, NewConn (ex_cfg (mkReader [frame_bytes ex_msg1] EOF) None) = Ok c0 ∧
  let c := (read_n (Codec0 := AckCodec.ack_codec) 1 (Start (OnMessage c0 true))).1 in
  c_reader c = RHandler ∧
  let '(c2, es) := run_trace (conn_step (Codec0 := AckCodec.ack_codec)) (Close_begin c).1 ex_close_ops in
  wg_done c2 = true ∧ (length (filter is_disconnect es) ≤ 0)%nat.
Proof.
  eexists. split; [reflexivity|].
  match goal with |- context [Start (OnMessage ?c true)] => set (c0 := c) end. intros c.
  assert (c_reader c = RHandler) as Hr by (vm_compute; reflexivity). split; [exact Hr|].
  pose proof (close_joins_goroutines (Codec0 := AckCodec.ack_codec) c ex_close_ops
    ltac:(vm_compute; reflexivity) ltac:(rewrite Hr; discriminate) ltac:(vm_compute; discriminate)
    ltac:(vm_compute; lia) ltac:(vm_compute; lia)) as H.
  destruct (Close_begin c) as [c1 e1]. cbn [fst].
  destruct (run_trace conn_step c1 ex_close_ops) as [c2 es].
  rewrite Hr in H. exact (conj (proj1 H) (proj1 (proj2 (proj2 (proj2 H))))).
Defined.

(** A connection that was never started closes at once. *)
Example close_unstarted `{!Codec AckPayload} c ctx_first fired pick :
  c_closing c = false → c_reader c = RIdle → c_writer c = WIdle →
  is_Some (Close ctx_first fired pick c).
Proof.
  intros Hc Hr Hw. unfold Close, Close_begin. rewrite Hc. set (c1 := set_sp _ _).
  assert (read_n 3 c1 = (c1, [])) as ->.
  { assert (readLoop_step c1 = (c1, [])) as E by (unfold readLoop_step, fireDisconnect; simpl; by rewrite Hr).
    unfold read_n. cbn [replicate run_trace conn_step]. by rewrite E, E, E. }
  assert (writeLoop_step fired pick c1 = (c1, [])) as -> by (unfold writeLoop_step; simpl; by rewrite Hw).
  unfold Close_end, wg_done. simpl. rewrite Hr, Hw. simpl. destruct (Spiller.Close _). by eexists.
Qed.
