(* ===== verification/Link.v ===== *)
(** * Two connections joined by a socket pair

    What one end of a link knows of the other.  The inbound bytes of a
    connection arrive piece by piece ([arrive]) out of what its peer has
    written so far; [readLoop] waits while no whole frame is there
    ([read_blocks]).  The invariant [end_inv] ties what an end handled to the
    frames the peer wrote, and what it queued to the frames its owner sent. *)

From S2P Require Import Prelude Frame Seq Outbox Wal Spiller Message Conn.

(** [ReadFrame] waits: no whole frame has arrived.  The other turns of
    [readLoop] do not read. *)
Definition read_blocks (c : Conn) : bool :=
  match c_reader c with
  | RRun => match (ReadFrame (c_fr c)).2 with
            | Some (ErrStream EOF) | Some (ErrStream ErrUnexpectedEOF) => true
            | _ => false
            end
  | _ => false
  end.

(** The reader is in its loop: at [ReadFrame] or inside the handler. *)
Definition looping (c : Conn) : bool :=
  match c_reader c with RRun => true | RHandler => true | _ => false end.

(** More bytes reach the socket; [Close] has replaced the reader of a closing
    connection. *)
Definition arrive (b : bytes) (c : Conn) : Conn :=
  if c_closing c then c
  else
    let r := fr_r (c_fr c) in
    set_io c (c_fw c) (mkFrameReader (mkReader (r_chunks r ++ [b]) (r_end r)) (fr_cap (c_fr c))).

(** The type and payload a sending operation was given. *)
Definition op_frame (op : conn_op) : option (Z * bytes) :=
  match op with
  | OpSendNew _ ty _ p | OpAwaitBegin _ ty _ p => Some (ty, p)
  | _ => None
  end.
Definition frame_of_msg (m : OutboxMessage) : Z * bytes := (h_MsgType (m_Header m), m_Payload m).

Definition ev_acked (e : conn_event) : option Z :=
  match e with EvAckFrame q => Some q | _ => None end.

Definition last_seq (ms : list OutboxMessage) : Z := default 0 (seq_of <$> last ms).

(** What the owner of an end does: it sends, awaits, closes and lets the
    goroutines run.  [Q]: the types it awaits acknowledgements for. *)
Definition owner_op (Q : Z → Prop) (op : conn_op) : Prop :=
  match op with
  | OpSendNew _ ty fl _ => in_u 8 ty ∧ in_u 8 fl
  | OpAwaitBegin _ ty fl _ => in_u 8 ty ∧ in_u 8 fl ∧ Q ty
  | OpSend _ _ | OpOnMessage _ | OpSetOnDisconnect _ | OpStart => False
  | _ => True
  end.

Lemma owner_op_ok Q op : owner_op Q op → conn_op_ok op.
Proof. destruct op; simpl; tauto. Qed.

(** The bytes that arrived are the start of a stream of good frames. *)
Record wire_ok (inb : list OutboxMessage) (arr : bytes) : Prop := mkWireOk {
  wo_ok : Forall msg_ok inb;
  wo_sorted : StronglySorted Z.lt (seq_of <$> inb);
  wo_pos : Forall (λ m, 0 < seq_of m) inb;
  wo_arr : ∃ m part, msg_ok m ∧ part `prefix_of` frame_bytes m ∧ part ≠ frame_bytes m ∧
                     arr `prefix_of` stream_bytes inb ++ part }.

Section Link.
Context `{!Codec AckPayload}.

(** The sequence numbers the acknowledgement frames among [ms] carry. *)
Definition wire_acks (ms : list OutboxMessage) : list Z :=
  omap (λ m, if is_ack_msg m then ack_AckedSeq <$> decode_ok (A := AckPayload) (m_Payload m) else None) ms.

(** The first [k] frames of the peer have been handled or decoded as
    acknowledgements; a reader in its loop has the rest of what arrived ahead. *)
Definition received (c : Conn) (handled : list OutboxMessage) (acks : list Z)
    (inb : list OutboxMessage) (arr : bytes) : Prop :=
  ∃ k, (k ≤ length inb)%nat ∧
    handled = app_messages (take k inb) ∧ acks = wire_acks (take k inb) ∧
    (c_closing c = true → r_chunks (fr_r (c_fr c)) = [] ∧ r_end (fr_r (c_fr c)) = ErrClosedPipe) ∧
    (c_closing c = false → looping c = true →
       reading (set_pcs c RRun (c_writer c)) (r_bytes (fr_r (c_fr c))) (last_seq (take k inb)) ∧
       arr = stream_bytes (take k inb) ++ r_bytes (fr_r (c_fr c))).

(** One end: [evs] its history, [fr] what its owner sent, [inb] what the peer
    wrote, [arr] what arrived of it. *)
Record end_inv (Q : Z → Prop) (c : Conn) (evs : list conn_event) (fr : list (Z * bytes))
    (inb : list OutboxMessage) (arr : bytes) : Prop := mkEndInv {
  ei_send : send_inv c evs;
  ei_ack : ack_inv c evs;
  ei_frames : frame_of_msg <$> omap ev_queued evs `sublist_of` fr;
  ei_reg : ∀ seq ch, EvRegister seq ch ∈ evs →
    seq ≤ g_n (c_seqs c) ∧
    ∀ m, m ∈ omap ev_queued evs → seq_of m = seq → Q (h_MsgType (m_Header m));
  ei_handler : c_handler c = true;
  ei_recv : received c (omap ev_handled evs) (omap ev_acked evs) inb arr }.

(** ** Arrival and the peer's progress *)

Lemma arrive_inv Q c evs fr inb arr b :
  end_inv Q c evs fr inb arr → end_inv Q (arrive b c) evs fr inb (arr ++ b).
Proof.
  intros [H1 H2 H3 H4 H5 (k & K1 & K2 & K3 & K4 & K5)]. unfold arrive. destruct (c_closing c) eqn:Ec.
  - split; try done. exists k. split_and!; auto. congruence.
  - split; simpl; try done.
    + rewrite <- (app_nil_r evs). by eapply send_inv_frame.
    + by destruct H2.
    + exists k. split_and!; simpl; try done; [intros; congruence|]. intros _ Hr.
      destruct (K5 eq_refl Hr) as ((R1 & R2 & R3 & R4 & R5 & R6) & ->).
      unfold reading, r_bytes. simpl. rewrite concat_app. simpl. rewrite app_nil_r.
      split_and!; try done. by rewrite (assoc_L (++)).
Qed.

Lemma peer_wrote_inv Q c evs fr inb more arr :
  end_inv Q c evs fr inb arr → end_inv Q c evs fr (inb ++ more) arr.
Proof.
  intros [H1 H2 H3 H4 H5 (k & K1 & K2 & K3 & K4 & K5)]. split; try done.
  exists k. rewrite take_app_le by done. split_and!; try done. rewrite length_app. lia.
Qed.

Lemma owner_sent_inv Q c evs fr more inb arr :
  end_inv Q c evs fr inb arr → end_inv Q c evs (fr ++ more) inb arr.
Proof.
  intros [H1 H2 H3 H4 H5 H6]. split; try done. by apply sublist_inserts_r.
Qed.

(** ** What the owner does *)

Lemma enqueue_frame s c m :
  let '(c', _, es) := enqueue s c m in
  (es = [] ∨ es = [EvQueue m]) ∧ c_fr c' = c_fr c ∧ c_closing c' = c_closing c ∧
  c_reader c' = c_reader c ∧ c_handler c' = c_handler c ∧ c_dedup c' = c_dedup c ∧ c_seqs c' = c_seqs c.
Proof.
  unfold enqueue. destruct (Enqueue _ _ _ _) as [[ob d] ok].
  split_and!; try done. case_match; auto.
Qed.

(** The parts of an end that only the reader moves. *)
Definition same_inbound (c c' : Conn) : Prop :=
  c_handler c' = c_handler c ∧ c_dedup c' = c_dedup c ∧ c_reader c' = c_reader c ∧
  (c_closing c' = c_closing c ∧ c_fr c' = c_fr c ∨
   c_closing c' = true ∧ r_chunks (fr_r (c_fr c')) = [] ∧ r_end (fr_r (c_fr c')) = ErrClosedPipe).

(** What one operation of the owner adds to the history. *)
Record owner_effect (Q : Z → Prop) (c c' : Conn) (es : list conn_event) (f : option (Z * bytes)) : Prop :=
  mkOwnerEffect {
  oe_inbound : same_inbound c c';
  oe_handled : omap ev_handled es = [];
  oe_acked : omap ev_acked es = [];
  oe_mono : g_n (c_seqs c) ≤ g_n (c_seqs c');
  oe_queued : omap ev_queued es = [] ∨
              ∃ m, omap ev_queued es = [m] ∧ f = Some (frame_of_msg m) ∧ seq_of m = g_n (c_seqs c') ∧
                   g_n (c_seqs c) < seq_of m;
  oe_reg : ∀ seq ch, EvRegister seq ch ∈ es →
           seq = g_n (c_seqs c') ∧ g_n (c_seqs c) < seq ∧ ∃ ty p, f = Some (ty, p) ∧ Q ty }.

Lemma owner_effect_quiet Q c c' es f :
  same_inbound c c' → omap ev_handled es = [] → omap ev_acked es = [] → c_seqs c' = c_seqs c →
  omap ev_queued es = [] → no_register es → owner_effect Q c c' es f.
Proof.
  intros H1 H2 H3 H4 H5 H6. split; rewrite ?H4; auto; [lia|]. by intros seq ch ?%H6.
Qed.

(** The inbound part after a record update. *)
Ltac inbound_same := unfold same_inbound; simpl; split_and!; auto.

Lemma owner_effect_ok Q c op :
  owner_op Q op → op ≠ OpRead → 0 ≤ g_n (c_seqs c) → g_n (c_seqs c) + 1 < 2 ^ 64 →
  owner_effect Q c (conn_step c op).1 (conn_step c op).2 (op_frame op).
Proof.
  intros Hop Hr H0 Hg. destruct op as [h|cb| |s ty fl p|s ty fl p|seq ch ctx k|s m| |b| |f pk];
    simpl in Hop; try done.
  - simpl. unfold SendWithNewSeq. destruct (c_closed c).
    { apply owner_effect_quiet; eauto with cliwrap; inbound_same. }
    rewrite Next_small by done. set (m := mkMsg _ _). set (c1 := set_seqs _ _ _).
    pose proof (enqueue_frame s c1 m) as He. destruct (enqueue s c1 m) as [[c' ok] es]. simpl.
    destruct He as (Hes & E1 & E2 & E3 & E4 & E5 & E6).
    split; try (by destruct Hes as [->| ->]).
    + unfold same_inbound. rewrite E1, E2, E3, E4, E5. split_and!; auto.
    + rewrite E6. simpl. lia.
    + destruct Hes as [->| ->]; [by left|right]. exists m. rewrite E6. unfold seq_of. simpl.
      split_and!; try done. lia.
    + intros seq ch Hin. exfalso. destruct Hes as [->| ->]; [by apply elem_of_nil in Hin|].
      by apply list_elem_of_singleton in Hin.
  - simpl. unfold SendAndAwaitAck_begin. destruct (c_closed c).
    { apply owner_effect_quiet; eauto with cliwrap; inbound_same. }
    rewrite Next_small by done. set (m := mkMsg _ _). set (c1 := set_acks _ _ _ _).
    pose proof (enqueue_frame s c1 m) as He. destruct (enqueue s c1 m) as [[c' ok] es].
    destruct He as (Hes & E1 & E2 & E3 & E4 & E5 & E6).
    assert (owner_effect Q c c' (EvRegister (g_n (c_seqs c) + 1) (length (c_chans c)) :: es) (Some (ty, p))) as Heff.
    { split; try (by destruct Hes as [->| ->]).
      + unfold same_inbound. rewrite E1, E2, E3, E4, E5. split_and!; auto.
      + rewrite E6. simpl. lia.
      + destruct Hes as [->| ->]; [by left|right]. exists m. rewrite E6. unfold seq_of. simpl.
        split_and!; try done. lia.
      + intros seq ch [[= -> ->]|Hin]%elem_of_cons.
        * rewrite E6. simpl. split_and!; [done|lia|]. exists ty, p. by destruct Hop as (_ & _ & ?).
        * exfalso. destruct Hes as [->| ->]; [by apply elem_of_nil in Hin|].
          by apply list_elem_of_singleton in Hin. }
    destruct ok; [done|]. destruct Heff. by split.
  - simpl. unfold SendAndAwaitAck_end. destruct k; repeat case_match; simplify_eq/=;
      apply owner_effect_quiet; eauto with cliwrap; inbound_same.
  - simpl. unfold Close_begin. destruct (c_closing c) eqn:Ec; apply owner_effect_quiet; eauto with cliwrap; inbound_same.
  - simpl. unfold Close_end. destruct (c_closing c && wg_done c);
      [destruct (Spiller.Close (c_sp c))|]; apply owner_effect_quiet; eauto with cliwrap; inbound_same.
  - pose proof (writeLoop_acks f pk c) as Ha. simpl.
    assert (let '(c', es) := writeLoop_step f pk c in
      same_inbound c c' ∧ omap ev_handled es = [] ∧ omap ev_acked es = [] ∧ c_seqs c' = c_seqs c ∧
      omap ev_queued es = []) as Hw.
    { unfold writeLoop_step. unfold same_inbound. repeat (case_match; simplify_eq/=); split_and!; auto. }
    destruct (writeLoop_step f pk c) as [c' es]. destruct Ha as (_ & _ & _ & Ha).
    destruct Hw as (W1 & W2 & W3 & W4 & W5). by apply owner_effect_quiet.
Qed.

Lemma reading_same c c' bs n :
  c_handler c' = c_handler c → c_dedup c' = c_dedup c → c_fr c' = c_fr c →
  reading (set_pcs c RRun (c_writer c)) bs n → reading (set_pcs c' RRun (c_writer c')) bs n.
Proof. unfold reading. simpl. by intros -> -> ->. Qed.

(** An operation of the owner keeps the end's invariant. *)
Lemma owner_step_inv Q c evs fr inb arr op :
  end_inv Q c evs fr inb arr → owner_op Q op → op ≠ OpRead → g_n (c_seqs c) + 1 < 2 ^ 64 →
  end_inv Q (conn_step c op).1 (evs ++ (conn_step c op).2) (fr ++ option_list (op_frame op)) inb arr ∧
  g_n (c_seqs (conn_step c op).1) ≤ g_n (c_seqs c) + 1.
Proof.
  intros [H1 H2 H3 H4 H5 (k & K1 & K2 & K3 & K4 & K5)] Hop Hr Hg.
  destruct (conn_step_inv c evs op H1 (owner_op_ok Q op Hop) Hg) as [S1 S2].
  pose proof (owner_effect_ok Q c op Hop Hr (si_gen _ _ H1) Hg) as [(I1 & I2 & I3 & I4) E2 E3 E4 E5 E6].
  split; [|done]. pose proof (ack_inv_step c evs op H2) as A1.
  destruct (conn_step c op) as [c' es]. simpl in *. split; try done.
  - rewrite omap_app, fmap_app. apply sublist_app; [done|].
    destruct E5 as [->|(m & -> & -> & _)]; simpl; [apply sublist_nil_l|done].
  - intros seq ch. rewrite elem_of_app. intros [Hin|Hin].
    + destruct (H4 _ _ Hin) as [L1 L2]. split; [lia|]. intros m. rewrite omap_app, elem_of_app.
      intros [?|Hm] Hs; [by apply L2|]. exfalso.
      destruct E5 as [E5|(m' & E5 & _ & _ & Hlt)]; rewrite E5 in Hm; [by apply elem_of_nil in Hm|].
      apply list_elem_of_singleton in Hm as ->. lia.
    + destruct (E6 _ _ Hin) as (-> & Hlt & ty & p & Hf & HQ). split; [lia|].
      intros m. rewrite omap_app, elem_of_app. intros [Hm|Hm] Hs.
      * exfalso. pose proof (si_range _ _ H1) as Hrg. rewrite Forall_forall in Hrg.
        specialize (Hrg _ Hm). simpl in Hrg. lia.
      * destruct E5 as [E5|(m' & E5 & Hf' & _)]; rewrite E5 in Hm; [by apply elem_of_nil in Hm|].
        apply list_elem_of_singleton in Hm as ->. rewrite Hf in Hf'. by injection Hf' as -> ->.
  - congruence.
  - exists k. rewrite !omap_app, E2, E3, !app_nil_r.
    destruct I4 as [[I4 I5]|(I4 & I5 & I6)]; (split_and!; try done).
    + by rewrite I4, I5.
    + unfold looping. rewrite I4, I5, I3. intros Hc Hrd. destruct (K5 Hc Hrd) as [K6 K7].
      split; [|done]. by eapply reading_same.
    + congruence.
Qed.

(** ** Reading *)

(** The bytes ahead of the reader start with the next frame, whole, or are a
    proper piece of one. *)
Lemma ahead_cases inb arr k bs :
  wire_ok inb arr → (k ≤ length inb)%nat → arr = stream_bytes (take k inb) ++ bs →
  (∃ m bs', inb !! k = Some m ∧ msg_ok m ∧ bs = frame_bytes m ++ bs') ∨
  (∃ m, msg_ok m ∧ bs `prefix_of` frame_bytes m ∧ bs ≠ frame_bytes m).
Proof.
  intros [Wok _ _ (m0 & part & Hm0 & Hp & Hp' & Harr)] Hk ->.
  rewrite <- (take_drop k inb) in Harr at 2. rewrite stream_bytes_app, <- (assoc_L (++)) in Harr.
  apply prefix_app_inv in Harr. destruct (drop k inb) as [|m rest] eqn:Ed.
  - right. exists m0. split; [done|]. simpl in Harr. split; [by etrans|]. intros ->.
    apply Hp'. apply (anti_symm prefix); done.
  - assert (inb !! k = Some m) as Hl by (rewrite <- (Nat.add_0_r k), <- lookup_drop, Ed; done).
    assert (msg_ok m) as Hm by (rewrite Forall_forall in Wok; apply Wok; by eapply list_elem_of_lookup_2).
    rewrite stream_bytes_cons, <- (assoc_L (++)) in Harr.
    destruct (decide (length (frame_bytes m) ≤ length bs)%nat) as [Hlen|Hlen].
    + left. exists m. destruct (prefix_weak_total bs (frame_bytes m) _ Harr ltac:(by eexists)) as [Hpre|[bs' ->]].
      * exists []. split_and!; try done. rewrite app_nil_r. symmetry.
        destruct Hpre as [z Hz]. rewrite Hz in Hlen |- *. rewrite length_app in Hlen.
        destruct z; [by rewrite app_nil_r|simpl in Hlen; lia].
      * by exists bs'.
    + right. exists m. split; [done|].
      destruct (prefix_weak_total bs (frame_bytes m) _ Harr ltac:(by eexists)) as [Hpre|[bs' ->]].
      * split; [done|]. intros ->. lia.
      * rewrite length_app in Hlen. lia.
Qed.

Lemma wire_acks_snoc ms m : wire_acks (ms ++ [m]) = wire_acks ms ++ wire_acks [m].
Proof. unfold wire_acks. apply omap_app. Qed.

Lemma take_S_snoc {A} (l : list A) k x : l !! k = Some x → take (S k) l = take k l ++ [x].
Proof. apply take_S_r. Qed.

(** Sequence numbers above everything read so far. *)
Lemma last_seq_lt inb arr k m : wire_ok inb arr → inb !! k = Some m → last_seq (take k inb) < seq_of m.
Proof.
  intros [_ Ws Wp _] Hk. assert (m ∈ inb) as Hm by (by eapply list_elem_of_lookup_2).
  rewrite Forall_forall in Wp. unfold last_seq. destruct (last (take k inb)) as [x|] eqn:El; [|by apply Wp].
  simpl. rewrite <- (take_drop_middle inb k m Hk), fmap_app in Ws.
  apply StronglySorted_app in Ws as (Ws & _ & _). apply Ws.
  - apply list_elem_of_fmap. exists x. split; [done|]. by apply last_Some_elem_of.
  - simpl. apply list_elem_of_here.
Qed.

(** One frame taken off the wire. *)
Lemma read_frame_step c m bs n :
  reading c (frame_bytes m ++ bs) n → msg_ok m → n < seq_of m →
  let '(c', es) := readLoop_step c in
  reading (set_pcs c' RRun (c_writer c')) bs (seq_of m) ∧ omap ev_handled es = app_messages [m] ∧
  omap ev_acked es = wire_acks [m] ∧ c_closing c' = c_closing c.
Proof.
  intros Hr Hm Hn. pose proof (readLoop_step_frame c m bs n Hr Hm Hn) as H.
  assert (omap ev_acked (readLoop_step c).2 = wire_acks [m] ∧
          c_closing (readLoop_step c).1 = c_closing c) as Hx.
  { destruct Hr as (Hr & Hh & Hb & He & Hc & Hd). unfold readLoop_step. rewrite Hr.
    destruct (ReadFrame_frame (c_fr c) m bs) as (fr' & -> & _); [done|rewrite Hc; apply Hm|done|].
    unfold Seen. simpl. rewrite Hd, (proj2 (Z.leb_gt _ _)) by done.
    unfold wire_acks. csimpl. fold (is_ack_msg m). destruct (is_ack_msg m).
    - destruct (decode_ok (m_Payload m)) as [p|]; [|done]. simpl. split; [done|].
      unfold deliverAck. simpl. by destruct (c_pending c !! _).
    - by destruct (c_handler _). }
  destruct (readLoop_step c) as [c' es]. destruct Hx, H as [H ?]. split_and!; try done.
  destruct (is_ack_msg m); [by destruct H|apply H].
Qed.

(** A turn that reads no frame says nothing to the handler and leaves the
    stream as it is; only the handler's return goes back to the loop. *)
Definition silent_turn (c c' : Conn) (es : list conn_event) : Prop :=
  omap ev_handled es = [] ∧ omap ev_acked es = [] ∧ c_handler c' = c_handler c ∧ c_closing c' = c_closing c.

Lemma read_error_step c e :
  c_reader c = RRun → (ReadFrame (c_fr c)).2 = Some e →
  let '(c', es) := readLoop_step c in
  silent_turn c c' es ∧ looping c' = false ∧ c_fr c' = (ReadFrame (c_fr c)).1.1.1.
Proof.
  intros Hr He. unfold readLoop_step. rewrite Hr. destruct (ReadFrame (c_fr c)) as [[[fr' h] b] e'].
  simpl in He. subst. destruct (readLoop_exit_reader (set_io c (c_fw c) fr') e) as [cause ->]. done.
Qed.

Lemma read_other_step c :
  c_reader c ≠ RRun →
  let '(c', es) := readLoop_step c in
  silent_turn c c' es ∧ c_fr c' = c_fr c ∧ c_dedup c' = c_dedup c ∧ (looping c' = true → looping c = true).
Proof.
  intros Hr. unfold readLoop_step, fireDisconnect, silent_turn, looping.
  destruct (c_reader c) eqn:E; try done; simpl; rewrite ?E; try done.
  - by destruct (c_closed c).
  - destruct (c_fired c); [done|]. by destruct (c_onDisconnect c).
Qed.

(** [readLoop] never breaks the link. *)
Lemma read_step_inv Q c evs fr inb arr :
  end_inv Q c evs fr inb arr → wire_ok inb arr →
  end_inv Q (readLoop_step c).1 (evs ++ (readLoop_step c).2) fr inb arr.
Proof.
  intros [H1 H2 H3 H4 H5 (k & K1 & K2 & K3 & K4 & K5)] Hw.
  pose proof (ack_inv_read c evs H2) as A1. pose proof (read_frame_inv c) as Hf.
  assert (no_register (readLoop_step c).2) as Hno.
  { intros seq ch Hin. unfold readLoop_step, readLoop_exit, fireDisconnect in Hin.
    repeat (case_match; simplify_eq/=); try (by apply elem_of_nil in Hin); by apply list_elem_of_singleton in Hin. }
  assert (received (readLoop_step c).1 (omap ev_handled (evs ++ (readLoop_step c).2))
            (omap ev_acked (evs ++ (readLoop_step c).2)) inb arr ∧
          c_handler (readLoop_step c).1 = c_handler c) as [Hrecv Hh].
  { assert (c_reader c = RRun ∨ c_reader c ≠ RRun) as [Er|Er] by (destruct (c_reader c); auto); cycle 1.
    { pose proof (read_other_step c Er) as Hx. destruct (readLoop_step c) as [c' es].
      destruct Hx as ((X1 & X2 & X3 & X4) & X5 & X6 & X7). simpl. split; [|done]. exists k.
      rewrite !omap_app, X1, X2, !app_nil_r, X4, X5. split_and!; try done. intros Hc Hl.
      destruct (K5 Hc (X7 Hl)). split; [|done]. by eapply reading_same. }
    assert (∀ e, (ReadFrame (c_fr c)).2 = Some e →
      (c_closing c = true → r_chunks (fr_r (ReadFrame (c_fr c)).1.1.1) = [] ∧
                            r_end (fr_r (ReadFrame (c_fr c)).1.1.1) = ErrClosedPipe) →
      received (readLoop_step c).1 (omap ev_handled (evs ++ (readLoop_step c).2))
        (omap ev_acked (evs ++ (readLoop_step c).2)) inb arr ∧
      c_handler (readLoop_step c).1 = c_handler c) as Hexit.
    { intros e He Hcl. pose proof (read_error_step c e Er He) as Hx.
      destruct (readLoop_step c) as [c' es]. destruct Hx as ((X1 & X2 & X3 & X4) & X5 & X6). simpl.
      split; [|done]. rewrite !omap_app, X1, X2, !app_nil_r. exists k. split_and!; try done; rewrite ?X4, ?X6; [done|congruence]. }
    destruct (c_closing c) eqn:Ec.
    { destruct (K4 eq_refl) as [C1 C2]. destruct (ReadFrame_closed c C1 C2) as (C3 & C4 & C5).
      by apply (Hexit _ C3). }
    destruct (K5 eq_refl ltac:(unfold looping; by rewrite Er)) as [K6 K7].
    assert (reading c (r_bytes (fr_r (c_fr c))) (last_seq (take k inb))) as K6'
      by (destruct K6 as (_ & K6); by split).
    clear K6. rename K6' into K6.
    destruct (ahead_cases inb arr k _ Hw K1 K7) as [(m & bs' & Hl & Hm & Hbs)|(m & Hm & Hp & Hp')].
    - rewrite Hbs in K6, K7. pose proof (read_frame_step c m bs' _ K6 Hm (last_seq_lt inb arr k m Hw Hl)) as Hx.
      destruct (readLoop_step c) as [c' es]. destruct Hx as (X1 & X2 & X3 & X4). simpl.
      split; [|destruct X1 as (_ & X1 & _); simpl in X1; congruence]. exists (S k).
      assert (bs' = r_bytes (fr_r (c_fr c'))) as Hbs' by (by destruct X1 as (_ & _ & <- & _)).
      rewrite (take_S_snoc inb k m Hl), !omap_app, K2, K3, X2, X3, wire_acks_snoc.
      unfold app_messages. rewrite filter_app. rewrite X4, Ec.
      apply lookup_lt_Some in Hl. split_and!; try done.
      intros _ _. unfold last_seq. rewrite last_snoc. simpl. rewrite <- Hbs'. split; [done|].
      rewrite stream_bytes_app, K7, <- (assoc_L (++)). f_equal. unfold stream_bytes. simpl. by rewrite app_nil_r.
    - destruct K6 as (_ & _ & _ & R1 & R2 & _).
      destruct (ReadFrame_partial (c_fr c) m (r_bytes (fr_r (c_fr c))) Hm) as (fr' & h & Hrf); try done; [rewrite R2; apply Hm|].
      apply (Hexit _ (f_equal snd Hrf)). congruence. }
  destruct (readLoop_step c) as [c' es]. destruct Hf as (E1 & E2 & E3 & E4 & E5 & E6). simpl in *.
  split; try done.
  - eapply send_inv_frame; try done; congruence.
  - by rewrite omap_app, E5, app_nil_r.
  - intros seq ch. rewrite elem_of_app. intros [Hin|Hin]; [|by apply Hno in Hin].
    rewrite omap_app, E5, app_nil_r, E2. by apply H4 in Hin.
  - congruence.
Qed.

(** ** Runs *)

Lemma read_step_seqs c : c_seqs (readLoop_step c).1 = c_seqs c.
Proof. pose proof (read_frame_inv c) as H. destruct (readLoop_step c). by destruct H as (_ & ? & _). Qed.

Lemma end_step_inv Q c evs fr inb arr op :
  end_inv Q c evs fr inb arr → wire_ok inb arr → owner_op Q op → g_n (c_seqs c) + 1 < 2 ^ 64 →
  end_inv Q (conn_step c op).1 (evs ++ (conn_step c op).2) (fr ++ option_list (op_frame op)) inb arr ∧
  g_n (c_seqs (conn_step c op).1) ≤ g_n (c_seqs c) + 1.
Proof.
  intros H Hw Hop Hg. assert (op = OpRead ∨ op ≠ OpRead) as [->|Hr] by (destruct op; auto).
  - simpl. rewrite app_nil_r. split; [by apply read_step_inv|rewrite read_step_seqs; lia].
  - by apply owner_step_inv.
Qed.

Lemma end_run_inv Q inb arr ops : ∀ c evs fr,
  end_inv Q c evs fr inb arr → wire_ok inb arr → Forall (owner_op Q) ops →
  g_n (c_seqs c) + Z.of_nat (length ops) < 2 ^ 64 →
  end_inv Q (run_trace conn_step c ops).1 (evs ++ (run_trace conn_step c ops).2)
    (fr ++ omap op_frame ops) inb arr ∧
  g_n (c_seqs (run_trace conn_step c ops).1) ≤ g_n (c_seqs c) + Z.of_nat (length ops).
Proof.
  induction ops as [|op ops IH]; intros c evs fr H Hw Hops Hg.
  - simpl. rewrite !app_nil_r. split; [done|lia].
  - inversion Hops; subst. cbn [run_trace length] in *.
    destruct (end_step_inv Q c evs fr inb arr op) as [S1 S2]; [done..|lia|].
    destruct (conn_step c op) as [c1 e1]. simpl in *.
    destruct (IH c1 _ _ S1 Hw ltac:(done) ltac:(lia)) as [S3 S4].
    destruct (run_trace conn_step c1 ops) as [c2 e2]. simpl in *.
    rewrite <- !(assoc_L (++)) in S3. split; [|lia]. csimpl. by destruct (op_frame op).
Qed.

(** Without a read nothing is handled. *)
Definition unheard (es : list conn_event) : Prop := omap ev_handled es = [] ∧ omap ev_acked es = [].

Lemma unheard_step c op : op ≠ OpRead → unheard (conn_step c op).2.
Proof.
  intros Hr. assert (∀ s c m, unheard (enqueue s c m).2) as He.
  { intros s' c' m. pose proof (enqueue_frame s' c' m) as H. destruct (enqueue s' c' m) as [[? ?] ?].
    by destruct H as ([->| ->] & _). }
  destruct op; try done; cbn [conn_step].
  - unfold SendWithNewSeq. destruct (c_closed c); [done|]. destruct (Next (c_seqs c)) as [g q].
    specialize (He s (set_seqs c g (c_dedup c))).
    match goal with |- context [enqueue _ _ ?m] => specialize (He m) end. by destruct (enqueue _ _ _) as [[? ?] ?].
  - unfold SendAndAwaitAck_begin. destruct (c_closed c); [done|]. destruct (Next (c_seqs c)) as [g q]. set (c1 := set_acks _ _ _ _).
    specialize (He s c1). match goal with |- context [enqueue _ _ ?m] => specialize (He m) end.
    by destruct (enqueue _ _ _) as [[? []] ?].
  - unfold SendAndAwaitAck_end. by repeat (case_match; simplify_eq/=).
  - unfold Send. destruct (c_closed c); [done|]. specialize (He s c msg). by destruct (enqueue _ _ _) as [[? ?] ?].
  - unfold Close_begin. by case_match.
  - unfold Close_end. by repeat (case_match; simplify_eq/=).
  - unfold writeLoop_step. by repeat (case_match; simplify_eq/=).
Qed.

Lemma unheard_run ops : ∀ c, OpRead ∉ ops → unheard (run_trace conn_step c ops).2.
Proof.
  induction ops as [|op ops IH]; intros c Hr; [done|]. apply not_elem_of_cons in Hr as [Hr1 Hr2].
  cbn [run_trace]. destruct (unheard_step c op ltac:(congruence)) as [E1 E2].
  destruct (conn_step c op) as [c1 e1]. destruct (IH c1 Hr2) as [I1 I2].
  destruct (run_trace conn_step c1 ops) as [c2 e2]. simpl in *. unfold unheard.
  by rewrite !omap_app, E1, E2, I1, I2.
Qed.

(** [Conn.Close] as a run; its own reads find the transport closed. *)
Definition close_ops (ctx_first fired pick : bool) : list conn_op :=
  OpCloseBegin :: replicate 3 OpRead ++ [OpWrite fired pick; OpCloseEnd ctx_first].

Lemma Close_run ctx_first fired pick c c' r es :
  Close ctx_first fired pick c = Some (c', r, es) →
  run_trace conn_step c (close_ops ctx_first fired pick) = (c', es).
Proof.
  unfold Close, close_ops. cbn [run_trace conn_step].
  destruct (Close_begin c) as [c1 e1]. rewrite run_trace_app. fold (read_n 3 c1).
  destruct (read_n 3 c1) as [c2 e2]. cbn [run_trace conn_step].
  destruct (writeLoop_step fired pick c2) as [c3 e3].
  destruct (Close_end c3 ctx_first) as [[c4 r4]|]; [|done]. intros [= -> -> <-]. by rewrite app_nil_r.
Qed.

(** A reader whose transport is closed is not heard of again. *)
Lemma read_n_unheard n : ∀ c,
  r_chunks (fr_r (c_fr c)) = [] → r_end (fr_r (c_fr c)) = ErrClosedPipe → unheard (read_n n c).2.
Proof.
  induction n as [|n IH]; intros c C1 C2; [done|]. rewrite read_n_S.
  assert (let '(c', es) := readLoop_step c in
    unheard es ∧ r_chunks (fr_r (c_fr c')) = [] ∧ r_end (fr_r (c_fr c')) = ErrClosedPipe) as H.
  { assert (c_reader c = RRun ∨ c_reader c ≠ RRun) as [Er|Er] by (destruct (c_reader c); auto).
    - destruct (ReadFrame_closed c C1 C2) as (C3 & C4 & C5). pose proof (read_error_step c _ Er C3) as Hx.
      destruct (readLoop_step c). destruct Hx as ((X1 & X2 & _) & _ & ->). by split_and!.
    - pose proof (read_other_step c Er) as Hx. destruct (readLoop_step c).
      destruct Hx as ((X1 & X2 & _) & -> & _). by split_and!. }
  destruct (readLoop_step c) as [c1 e1]. destruct H as ([H1 H2] & H3 & H4). simpl.
  destruct (IH c1 H3 H4) as [I1 I2]. unfold unheard. by rewrite !omap_app, H1, H2, I1, I2.
Qed.

Lemma Close_unheard Q c evs fr inb arr a f p c' r es :
  end_inv Q c evs fr inb arr → Close a f p c = Some (c', r, es) → unheard es.
Proof.
  intros H Hc. unfold Close in Hc. pose proof (unheard_step c OpCloseBegin ltac:(done)) as [U1 U2].
  assert (r_chunks (fr_r (c_fr (Close_begin c).1)) = [] ∧
          r_end (fr_r (c_fr (Close_begin c).1)) = ErrClosedPipe) as (C1 & C2).
  { unfold Close_begin. destruct (c_closing c) eqn:Ec; [|done]. simpl.
    destruct (ei_recv _ _ _ _ _ _ H) as (k & _ & _ & _ & K & _). auto. }
  simpl in U1, U2. destruct (Close_begin c) as [c1 e1]. simpl in *.
  destruct (read_n_unheard 3 c1 C1 C2) as [V1 V2].
  destruct (read_n 3 c1) as [c2 e2]. pose proof (unheard_step c2 (OpWrite f p) ltac:(done)) as [W1 W2].
  simpl in W1, W2. destruct (writeLoop_step f p c2) as [c3 e3]. simpl in *.
  destruct (Close_end c3 a) as [[c4 r4]|]; [|done]. injection Hc as <- <- <-.
  unfold unheard. by rewrite !omap_app, U1, U2, V1, V2, W1, W2.
Qed.

(** ** The two ends together *)

(** What an end has written, seen from the other side. *)
Lemma wire_of_peer c evs arr : send_inv c evs → arr `prefix_of` w_out (c_fw c) → wire_ok (omap ev_written evs) arr.
Proof.
  intros [(lost & H1 & _) H2 H3 _ _ H5 (m & part & Hm & Hp & Hp' & Ho & _)] Ha.
  rewrite H1 in H2, H3. rewrite fmap_app in H2. apply StronglySorted_app in H2 as (_ & H2 & _).
  apply Forall_app in H3 as [H3 _]. split; try done.
  - eapply Forall_impl; [exact H3|]. simpl. lia.
  - exists m, part. split_and!; try done. by rewrite <- Ho.
Qed.

(** A fresh connection with its handler, started. *)
Lemma NewConn_cap cfg r w c :
  cfg_RWC cfg = Some (r, w) → cfg_MaxRecvPayload cfg = 0 ∨ cfg_MaxRecvPayload cfg = MaxPayloadSize →
  NewConn cfg = Ok c → fr_cap (c_fr c) = MaxPayloadSize.
Proof.
  unfold NewConn. intros -> Hm H.
  assert (fr_cap (NewFrameReader r (if cfg_MaxRecvPayload cfg =? 0 then MaxPayloadSize else cfg_MaxRecvPayload cfg))
          = MaxPayloadSize) as Hcap by (by destruct Hm as [-> | ->]).
  destruct (cfg_DisableWAL cfg); [by simplify_eq/=|].
  unfold NewSpiller in H. destruct (OpenWAL _ _ _); by simplify_eq/=.
Qed.

Lemma end_inv_init Q cfg room c cb :
  cfg_RWC cfg = Some (mkReader [] EOF, mkWriter [] room) →
  cfg_MaxRecvPayload cfg = 0 ∨ cfg_MaxRecvPayload cfg = MaxPayloadSize →
  NewConn cfg = Ok c →
  let c1 := Start (SetOnDisconnect (OnMessage c true) cb) in
  end_inv Q c1 [] [] [] [] ∧ c_seqs c1 = mkSeqGen 0 ∧ w_out (c_fw c1) = [].
Proof.
  intros Hcfg Hmax Hc. pose proof (send_inv_init _ _ _ _ Hcfg Hc) as Hs.
  destruct (NewConn_fields _ _ _ _ Hcfg Hc)
    as (F1 & F2 & _ & F4 & F5 & F6 & F7 & F8 & F9 & F10 & F11 & F12 & F13 & F14).
  pose proof (NewConn_cap _ _ _ _ Hcfg Hmax Hc) as F3. intros c1.
  assert (c1 = set_pcs (SetOnDisconnect (OnMessage c true) cb) RRun WTop) as ->.
  { unfold c1, Start. simpl. by rewrite F7, F8. }
  split; [|split; [done|by simpl; rewrite F1]]. split; simpl; try done.
  - change (@nil conn_event) with (@nil conn_event ++ []). eapply send_inv_frame; try done. simpl. by rewrite F8.
  - split; simpl; rewrite ?F12, ?F13, ?F14; try done; by intros * ?%elem_of_nil.
  - by intros seq ch ?%elem_of_nil.
  - exists 0%nat. split_and!; simpl; try done; [by rewrite F10|]. intros _ _.
    unfold reading, r_bytes. simpl. rewrite F2, F3, F6. by split_and!.
Qed.

(** Output is only ever appended. *)
Lemma Write_mono w p : w_out w `prefix_of` w_out (Write w p).1.1.
Proof. unfold Write. repeat case_match; simpl; by eexists. Qed.

Lemma WriteFrame_mono w h p : w_out w `prefix_of` w_out (WriteFrame w h p).1.1.
Proof.
  unfold WriteFrame. destruct (_ <? _); [done|]. destruct (negb _); [done|].
  pose proof (Write_mono w (Encode h)) as H1. destruct (Write w (Encode h)) as [[w1 n] [e|]]; [done|].
  destruct (_ =? _)%nat; [done|]. pose proof (Write_mono w1 p) as H2.
  destruct (Write w1 p) as [[w2 m] e]. simpl in *. by etrans.
Qed.

Lemma conn_step_out c op : w_out (c_fw c) `prefix_of` w_out (c_fw (conn_step c op).1).
Proof.
  assert (∀ s c m, c_fw (enqueue s c m).1.1 = c_fw c) as He.
  { intros s' c' m. unfold enqueue. by destruct (Enqueue _ _ _ _) as [[? ?] ?]. }
  destruct op; cbn [conn_step]; try done.
  - unfold Start. by repeat case_match.
  - unfold SendWithNewSeq. destruct (c_closed c); [done|]. destruct (Next (c_seqs c)) as [g q].
    specialize (He s (set_seqs c g (c_dedup c))).
    match goal with |- context [enqueue _ _ ?m] => specialize (He m) end.
    destruct (enqueue _ _ _) as [[? ?] ?]. simpl in *. by rewrite He.
  - unfold SendAndAwaitAck_begin. destruct (c_closed c); [done|]. destruct (Next (c_seqs c)) as [g q].
    set (c1 := set_acks _ _ _ _). specialize (He s c1).
    match goal with |- context [enqueue _ _ ?m] => specialize (He m) end.
    destruct (enqueue _ _ _) as [[? []] ?]; simpl in *; by rewrite He.
  - unfold SendAndAwaitAck_end. by repeat (case_match; simplify_eq/=).
  - unfold Send. destruct (c_closed c); [done|]. specialize (He s c msg).
    destruct (enqueue _ _ _) as [[? ?] ?]. simpl in *. by rewrite He.
  - unfold Close_begin. by case_match.
  - unfold Close_end. by repeat (case_match; simplify_eq/=).
  - pose proof (read_frame_inv c) as H. destruct (readLoop_step c). destruct H as (_ & _ & H & _). simpl. by rewrite H.
  - unfold writeLoop_step. destruct (c_writer c); try done. destruct (Dequeue _ _ _ _) as [ob [m| |]]; try done.
    pose proof (WriteFrame_mono (c_fw c) (m_Header m) (m_Payload m)) as H. cbn [set_sp c_fw].
    by destruct (WriteFrame _ _ _) as [[? ?] []].
Qed.

Lemma run_out ops : ∀ c, w_out (c_fw c) `prefix_of` w_out (c_fw (run_trace conn_step c ops).1).
Proof.
  induction ops as [|op ops IH]; intros c; [done|]. cbn [run_trace].
  pose proof (conn_step_out c op) as H1. destruct (conn_step c op) as [c1 e1]. specialize (IH c1).
  destruct (run_trace conn_step c1 ops). simpl in *. by etrans.
Qed.

(** Two ends and how many of the bytes each wrote have arrived at the other. *)
Record link_inv (Q1 Q2 : Z → Prop) (c1 : Conn) (e1 : list conn_event) (f1 : list (Z * bytes))
    (c2 : Conn) (e2 : list conn_event) (f2 : list (Z * bytes)) (n1 n2 : nat) : Prop := mkLinkInv {
  li_1 : end_inv Q1 c1 e1 f1 (omap ev_written e2) (take n1 (w_out (c_fw c2)));
  li_2 : end_inv Q2 c2 e2 f2 (omap ev_written e1) (take n2 (w_out (c_fw c1)));
  li_n1 : (n1 ≤ length (w_out (c_fw c2)))%nat;
  li_n2 : (n2 ≤ length (w_out (c_fw c1)))%nat }.

Lemma link_sym Q1 Q2 c1 e1 f1 c2 e2 f2 n1 n2 :
  link_inv Q1 Q2 c1 e1 f1 c2 e2 f2 n1 n2 → link_inv Q2 Q1 c2 e2 f2 c1 e1 f1 n2 n1.
Proof. by intros []. Qed.

(** Any operations of one end. *)
Lemma link_run Q1 Q2 c1 e1 f1 c2 e2 f2 n1 n2 ops :
  link_inv Q1 Q2 c1 e1 f1 c2 e2 f2 n1 n2 → Forall (owner_op Q1) ops →
  g_n (c_seqs c1) + Z.of_nat (length ops) < 2 ^ 64 →
  let '(c1', es) := run_trace conn_step c1 ops in
  link_inv Q1 Q2 c1' (e1 ++ es) (f1 ++ omap op_frame ops) c2 e2 f2 n1 n2 ∧
  g_n (c_seqs c1') ≤ g_n (c_seqs c1) + Z.of_nat (length ops).
Proof.
  intros [L1 L2 L3 L4] Hops Hg.
  assert (wire_ok (omap ev_written e2) (take n1 (w_out (c_fw c2)))) as Hw.
  { eapply wire_of_peer; [apply L2|apply prefix_take]. }
  destruct (end_run_inv Q1 _ _ ops c1 e1 f1 L1 Hw Hops Hg) as [H1 H2].
  pose proof (run_out ops c1) as Ho. destruct (run_trace conn_step c1 ops) as [c1' es]. simpl in *.
  split; [|done]. split; try done.
  - rewrite omap_app. apply peer_wrote_inv. destruct Ho as [z ->]. by rewrite take_app_le.
  - destruct Ho as [z ->]. rewrite length_app. lia.
Qed.

(** Bytes arrive. *)
Lemma link_arrive Q1 Q2 c1 e1 f1 c2 e2 f2 n1 n2 n :
  link_inv Q1 Q2 c1 e1 f1 c2 e2 f2 n1 n2 →
  let b := take n (drop n1 (w_out (c_fw c2))) in
  link_inv Q1 Q2 (arrive b c1) e1 f1 c2 e2 f2 (n1 + length b) n2.
Proof.
  intros [L1 L2 L3 L4] b. assert (w_out (c_fw (arrive b c1)) = w_out (c_fw c1)) as Ho
    by (unfold arrive; by destruct (c_closing c1)).
  assert (take (n1 + length b) (w_out (c_fw c2)) = take n1 (w_out (c_fw c2)) ++ b) as Ht.
  { unfold b. rewrite <- take_take_drop. f_equal. rewrite length_take, length_drop.
    destruct (decide (n ≤ length (w_out (c_fw c2)) - n1)%nat); [by rewrite Nat.min_l by lia|].
    rewrite Nat.min_r by lia. rewrite !take_ge by (rewrite ?length_drop; lia). done. }
  split; rewrite ?Ho, ?Ht; try done.
  - by apply arrive_inv.
  - unfold b. rewrite length_take, length_drop. lia.
Qed.
End Link.
