(* ===== verification/RingBuffer.v ===== *)
(** * The two byte rings: internal/agent/ringbuffer.go and
    internal/logcollect/ringbuf.go

    The agent's ring (two [copy]s and a wrap flag) and the log collector's
    ring (byte loop and a size) are different code for one contract: a
    snapshot is the last [capacity] bytes ever written.  The contract is the
    class [ByteRing]; both implementations are instances. *)

From S2P Require Import Prelude.

(** The bytes of a ring from its oldest slot on. *)
Definition ring_view (head : nat) (data : bytes) : bytes := drop head data ++ take head data.

(** ** [agent.ringBuffer] *)

Module AgentRing.

Record ringBuffer := mkRing { data : bytes; head : nat; full : bool }.

(** [None] is the panic on a size that is not positive. *)
Definition newRingBuffer (size : Z) : option ringBuffer :=
  if size <=? 0 then None else Some (mkRing (replicate (Z.to_nat size) x00) 0 false).

Definition Write (rb : ringBuffer) (p : bytes) : ringBuffer :=
  let capacity := length (data rb) in
  if (capacity <=? length p)%nat
  then mkRing (copy_at 0 (drop (length p - capacity) p) (data rb)) 0 true
  else
    let first := copy_count (head rb) p (data rb) in
    let data1 := copy_at (head rb) p (data rb) in
    let wrapped := (first <? length p)%nat in
    let data2 := if wrapped then copy_at 0 (drop first p) data1 else data1 in
    let full1 := if wrapped then true else full rb in
    let head' := ((head rb + length p) mod capacity)%nat in
    mkRing data2 head' (if ((head' =? 0)%nat && (0 <? length p)%nat)%bool then true else full1).

Definition Snapshot (rb : ringBuffer) : bytes :=
  if negb (full rb) then copy_at 0 (take (head rb) (data rb)) (replicate (head rb) x00)
  else
    let out := replicate (length (data rb)) x00 in
    let n := copy_count 0 (drop (head rb) (data rb)) out in
    copy_at n (take (head rb) (data rb)) (copy_at 0 (drop (head rb) (data rb)) out).

End AgentRing.

(** ** [logcollect.RingBuffer] *)

Module LogRing.

Record RingBuffer := mkRing { data : bytes; capacity : nat; head : nat; size : nat }.

Definition NewRingBuffer (cap : Z) : RingBuffer :=
  let c := Z.to_nat (if cap <? 1 then 1 else cap) in mkRing (replicate c x00) c 0 0.

(** The byte loop of [Write]; an index out of range leaves the slice alone
    here, and [ring_ok] below shows the index is always in range. *)
Fixpoint put_bytes (cap : nat) (d : bytes) (h : nat) (p : bytes) : bytes * nat :=
  match p with
  | [] => (d, h)
  | b :: p' => put_bytes cap (<[h := b]> d) ((h + 1) mod cap)%nat p'
  end.

Definition Write (r : RingBuffer) (p : bytes) : RingBuffer * nat :=
  let n := length p in
  if (n =? 0)%nat then (r, 0%nat)
  else if (capacity r <=? n)%nat
  then (mkRing (copy_at 0 (drop (n - capacity r) p) (data r)) (capacity r) 0 (capacity r), n)
  else
    let '(d, h) := put_bytes (capacity r) (data r) (head r) p in
    let s := (size r + n)%nat in
    (mkRing d (capacity r) h (if (capacity r <? s)%nat then capacity r else s), n).

Definition Snapshot (r : RingBuffer) : bytes :=
  let out := replicate (size r) x00 in
  if (size r <? capacity r)%nat then copy_at 0 (take (size r) (data r)) out
  else
    let start := head r in
    copy_at (capacity r - start) (take start (data r)) (copy_at 0 (drop start (data r)) out).

Definition Size (r : RingBuffer) : nat := size r.

End LogRing.

(** ** Writing through the view *)

Lemma copy_at_0 {A} (src dst : list A) :
  copy_at 0 src dst = take (length dst) src ++ drop (length src) dst.
Proof. unfold copy_at. simpl. by rewrite Nat.sub_0_r. Qed.

Lemma copy_at_exact {A} (src dst : list A) : length src = length dst → copy_at 0 src dst = src.
Proof. intros H. rewrite copy_at_0, <- H, take_ge, H, drop_ge by lia. apply app_nil_r. Qed.

Lemma length_ring_view h d : length (ring_view h d) = length d.
Proof. unfold ring_view. rewrite length_app, length_drop, length_take. lia. Qed.

(** A copy into a slice split at the write position. *)
Lemma copy_at_app {A} (a b p : list A) :
  copy_at (length a) p (a ++ b) = a ++ take (length b) p ++ drop (length p) b.
Proof.
  unfold copy_at. rewrite length_app, take_app_length, drop_app_ge by lia.
  do 2 f_equal; f_equal; lia.
Qed.

Lemma view_app (a b : bytes) : ring_view (length a) (a ++ b) = b ++ a.
Proof. unfold ring_view. by rewrite drop_app_length, take_app_length. Qed.

(** The agent's two copies append to the view and drop as much in front:
    without wrapping, and with. *)
Lemma view_copy (a b p : bytes) :
  (0 < length b)%nat → (length p ≤ length b)%nat →
  ring_view ((length a + length p) mod length (a ++ b)) (copy_at (length a) p (a ++ b)) =
  drop (length p) (b ++ a) ++ p.
Proof.
  intros Hb Hp. rewrite copy_at_app, (take_ge p) by lia. rewrite drop_app_le by lia.
  destruct (decide (length p = length b)) as [E|E].
  - rewrite length_app, E, Nat.Div0.mod_same, (drop_ge b) by lia.
    unfold ring_view. rewrite drop_0, take_0. by rewrite !app_nil_r.
  - rewrite Nat.mod_small by (rewrite length_app; lia).
    rewrite <- length_app, (assoc_L (++)), view_app. by rewrite (assoc_L (++)).
Qed.

Lemma view_wrap (a b p : bytes) :
  (0 < length b < length p)%nat → (length p < length (a ++ b))%nat →
  ring_view ((length a + length p) mod length (a ++ b))
    (copy_at 0 (drop (length b) p) (copy_at (length a) p (a ++ b))) =
  drop (length p) (b ++ a) ++ p.
Proof.
  rewrite length_app. intros Hb Hp. rewrite copy_at_app, (drop_ge b), app_nil_r by lia.
  set (k := (length p - length b)%nat).
  assert (length (drop (length b) p) = k) as Hk by (by rewrite length_drop).
  rewrite copy_at_0, Hk, length_app, length_take, take_ge by lia.
  rewrite drop_app_le, drop_app_ge by (unfold k; lia).
  replace ((length a + length p) mod (length a + length b))%nat with k.
  2:{ unfold k. apply (Nat.mod_unique _ _ 1); lia. }
  rewrite <- Hk at 1. rewrite view_app, <- !(assoc_L (++)), take_drop. done.
Qed.

(** Both cases, as [AgentRing.Write] computes them. *)
Lemma view_two_copies h (d p : bytes) :
  (h < length d)%nat → (length p < length d)%nat →
  let first := copy_count h p d in
  let d1 := copy_at h p d in
  let d2 := if (first <? length p)%nat then copy_at 0 (drop first p) d1 else d1 in
  ring_view ((h + length p) mod length d) d2 = drop (length p) (ring_view h d) ++ p ∧
  length d2 = length d.
Proof.
  intros Hh Hp first d1 d2. split.
  2:{ unfold d2, d1. case_match; rewrite ?length_copy_at by lia; rewrite ?length_copy_at by lia; done. }
  unfold d2, d1, first, copy_count, ring_view at 2.
  assert (length (take h d) = h ∧ length (drop h d) = (length d - h)%nat) as [Ha Hb]
    by (rewrite length_take, length_drop; lia).
  assert (d = take h d ++ drop h d) as Ed by (by rewrite take_drop).
  set (a := take h d) in *. set (b := drop h d) in *. clearbody a b.
  rewrite Ed in Hp, Hb, Hh |- *. rewrite <- Ha. rewrite length_app in *.
  replace (length a + length b - length a)%nat with (length b) by lia.
  destruct (Nat.ltb_spec (Nat.min (length b) (length p)) (length p)) as [Hw|Hw].
  - rewrite Nat.min_l by lia. rewrite <- (length_app a b). apply view_wrap; rewrite ?length_app; lia.
  - rewrite <- (length_app a b). apply view_copy; lia.
Qed.

(** One byte of the collector's loop. *)
Lemma view_put (cap h : nat) (d : bytes) (b : byte) :
  length d = cap → (h < cap)%nat →
  ring_view ((h + 1) mod cap) (<[h := b]> d) = drop 1 (ring_view h d) ++ [b].
Proof.
  intros Hd Hh. destruct (drop h d) as [|x rest] eqn:E.
  { apply (f_equal length) in E. rewrite length_drop in E. simpl in E. lia. }
  assert (length (take h d) = h) as Hl by (rewrite length_take; lia).
  assert (d = take h d ++ x :: rest) as Hd' by (by rewrite <- E, take_drop).
  unfold ring_view at 2. rewrite E. set (a := take h d) in *. clearbody a. subst d.
  rewrite <- Hl at 2. rewrite (insert_app_r_alt a) by lia. rewrite Nat.sub_diag. simpl.
  pose proof (view_copy a (x :: rest) [b]) as H. rewrite copy_at_app in H. simpl in H.
  rewrite Hd, Hl, take_nil, drop_0 in H. simpl in H. rewrite H by lia. done.
Qed.

(** ** The contract *)

(** A byte ring of capacity [cap]: an invariant that ties the state to the
    whole history of writes, established by the constructor, preserved by
    writes, and enough to read the last [cap] bytes back. *)
Class ByteRing (R : Type) (write : R → bytes → R) (snapshot : R → bytes) := {
  ring_ok : nat → R → bytes → Prop;
  ring_write : ∀ cap r hist p, ring_ok cap r hist → ring_ok cap (write r p) (hist ++ p);
  ring_snapshot : ∀ cap r hist, ring_ok cap r hist → snapshot r = last_n cap hist
}.

Lemma ring_writes `{ByteRing R write snapshot} cap r hist ps :
  ring_ok cap r hist → ring_ok cap (foldl write r ps) (hist ++ concat ps).
Proof.
  revert r hist. induction ps as [|p ps IH]; intros r hist Hr; simpl.
  - by rewrite app_nil_r.
  - rewrite (assoc_L (++)). by apply IH, ring_write.
Qed.

(** What both rings keep: the view is the tail of zeros followed by the
    history, and until the ring is full the head is the history's length. *)
Definition ring_inv (cap : nat) (d : bytes) (h : nat) (hist : bytes) : Prop :=
  (h < cap)%nat ∧ length d = cap ∧ ((length hist < cap)%nat → h = length hist) ∧
  ring_view h d = last_n cap (replicate cap x00 ++ hist).

Lemma ring_inv_init cap : (0 < cap)%nat → ring_inv cap (replicate cap x00) 0 [].
Proof.
  intros. split_and!; try done.
  - apply length_replicate.
  - rewrite app_nil_r, last_n_all by (by rewrite length_replicate).
    unfold ring_view. by rewrite drop_0, take_0, app_nil_r.
Qed.

(** Appending to the view while dropping as much in front. *)
Lemma ring_inv_append cap d h hist d' p :
  ring_inv cap d h hist → length d' = cap → (length p < cap)%nat →
  ring_view ((h + length p) mod cap) d' = drop (length p) (ring_view h d) ++ p →
  ring_inv cap d' ((h + length p) mod cap) (hist ++ p).
Proof.
  intros (Hc & Hd & Hh & Hv) Hd' Hp Hv'. split_and!; try done.
  - apply Nat.mod_upper_bound. lia.
  - rewrite length_app. intros Hl. rewrite Hh, Nat.mod_small by lia. done.
  - rewrite Hv', Hv, (assoc_L (++)), (last_n_app_l cap (replicate cap x00 ++ hist)) by lia.
    f_equal. unfold last_n. rewrite drop_drop, length_app, length_replicate. f_equal. lia.
Qed.

(** Replacing the whole content. *)
Lemma ring_inv_refill cap d h hist p :
  ring_inv cap d h hist → (cap ≤ length p)%nat →
  ring_inv cap (copy_at 0 (drop (length p - cap) p) d) 0 (hist ++ p).
Proof.
  intros (Hc & Hd & _ & _) Hp. rewrite copy_at_exact by (rewrite length_drop; lia).
  split_and!; [lia|rewrite length_drop; lia|rewrite length_app; lia|].
  rewrite (assoc_L (++)), last_n_app_r by done.
  unfold ring_view. by rewrite drop_0, take_0, app_nil_r.
Qed.

(** Reading a ring that is not yet full, and one that is. *)
Lemma ring_inv_short cap d h hist :
  ring_inv cap d h hist → (length hist < cap)%nat → h = length hist ∧ take h d = hist.
Proof.
  intros (Hc & Hd & Hh & Hv) Hl. specialize (Hh Hl). split; [done|].
  rewrite last_n_app_l in Hv by lia. unfold ring_view in Hv.
  apply app_inj_2 in Hv as [_ Hv]; [done|]. rewrite length_take. lia.
Qed.

Lemma ring_inv_full cap d h hist :
  ring_inv cap d h hist → (cap ≤ length hist)%nat → drop h d ++ take h d = last_n cap hist.
Proof. intros (Hc & Hd & Hh & Hv) Hl. by rewrite last_n_app_r in Hv. Qed.

(** The two copies of a full snapshot. *)
Lemma snapshot_copies h (d : bytes) k :
  (h ≤ length d)%nat → k = (length d - h)%nat →
  copy_at k (take h d) (copy_at 0 (drop h d) (replicate (length d) x00)) = drop h d ++ take h d.
Proof.
  intros Hh ->. rewrite copy_at_0, length_replicate, (take_ge (drop h d)) by (rewrite length_drop; lia).
  rewrite <- (length_drop d h) at 1. rewrite copy_at_app.
  rewrite (take_ge (take h d)), (drop_ge (drop _ (replicate _ _))), app_nil_r; [done|..];
    rewrite !length_drop, length_replicate, length_take; lia.
Qed.

(** The wrap flag of [AgentRing.Write] tells whether the capacity was reached. *)
Lemma wrap_flag (cap h n l : nat) (f : bool) :
  (h < cap)%nat → (n < cap)%nat → ((l < cap)%nat → h = l) → f = bool_decide (cap ≤ l)%nat →
  (if (((h + n) mod cap =? 0)%nat && (0 <? n)%nat)%bool then true
   else if (Nat.min (cap - h) n <? n)%nat then true else f) = bool_decide (cap ≤ l + n)%nat.
Proof.
  intros Hh Hn Hl ->. destruct (decide (cap ≤ l)%nat) as [Hf|Hf].
  { rewrite !bool_decide_true by lia. by repeat case_match. }
  rewrite (bool_decide_false (cap ≤ l)%nat) by done. assert (h = l) as -> by (apply Hl; lia).
  assert (((l + n) mod cap =? 0)%nat && (0 <? n)%nat = bool_decide (l + n = cap)%nat) as ->.
  { case_bool_decide as E.
    - rewrite E, Nat.Div0.mod_same. simpl. apply Nat.ltb_lt. lia.
    - destruct (decide (l + n < cap)%nat).
      + rewrite Nat.mod_small by done. apply andb_false_iff. rewrite Nat.eqb_neq, Nat.ltb_ge. lia.
      + rewrite (proj2 (Nat.eqb_neq _ _)); [done|].
        rewrite <- (Nat.mod_unique (l + n) cap 1 (l + n - cap)) by lia. lia. }
  destruct (Nat.ltb_spec (Nat.min (cap - l) n) n); repeat case_bool_decide; try done; lia.
Qed.

(** The agent's ring: [full] says whether the history reached the capacity. *)
#[export] Program Instance agent_ring :
    ByteRing AgentRing.ringBuffer AgentRing.Write AgentRing.Snapshot := {|
  ring_ok cap r hist :=
    ring_inv cap (AgentRing.data r) (AgentRing.head r) hist ∧
    AgentRing.full r = bool_decide (cap ≤ length hist)%nat
|}.
Next Obligation.
  intros cap [d h f] hist p [Hi Hf]. simpl in *.
  pose proof Hi as (Hh & Hd & Hshort & _). unfold AgentRing.Write. simpl. rewrite Hd.
  destruct (decide (cap ≤ length p)%nat) as [Hp|Hp].
  { rewrite (proj2 (Nat.leb_le _ _)) by done. simpl. split; [by apply (ring_inv_refill _ _ h)|].
    rewrite bool_decide_true; [done|]. rewrite length_app. lia. }
  rewrite (proj2 (Nat.leb_gt _ _)) by lia. simpl.
  destruct (view_two_copies h d p) as [Hv Hl]; [lia..|]. rewrite Hd in Hv, Hl.
  split; [apply (ring_inv_append _ d); [done|done|lia|done]|]. rewrite length_app. unfold copy_count. rewrite Hd.
  apply wrap_flag; auto; lia.
Qed.
Next Obligation.
  intros cap [d h f] hist [Hi Hf]. simpl in *. pose proof Hi as (Hh & Hd & _ & _).
  unfold AgentRing.Snapshot. simpl. rewrite Hf. case_bool_decide as Hl; simpl.
  - unfold copy_count. rewrite length_drop, length_replicate, snapshot_copies by lia.
    by eapply ring_inv_full.
  - destruct (ring_inv_short _ _ _ _ Hi) as [-> Ht]; [lia|].
    rewrite Ht, copy_at_exact, last_n_all; [done|lia|by rewrite length_replicate].
Qed.

(** The collector's ring: [size] is the number of bytes a snapshot has. *)
Lemma put_bytes_inv cap d h hist p :
  ring_inv cap d h hist →
  let '(d', h') := LogRing.put_bytes cap d h p in ring_inv cap d' h' (hist ++ p).
Proof.
  revert d h hist. induction p as [|b p IH]; intros d h hist Hi; simpl.
  - by rewrite app_nil_r.
  - pose proof Hi as (Hh & Hd & _ & _).
    rewrite cons_middle, (assoc_L (++)). apply IH.
    destruct (decide (cap = 1)%nat) as [->|].
    + rewrite Nat.mod_1_r. destruct d as [|x [|]]; simplify_eq/=. destruct h; [|lia].
      split_and!; [done..|rewrite length_app; simpl; lia|].
      rewrite (assoc_L (++)), last_n_app_r by done. done.
    + apply (ring_inv_append _ d h hist (<[h:=b]> d) [b]); [done|by rewrite length_insert|simpl; lia|].
      simpl. by apply view_put.
Qed.

#[export] Program Instance log_ring :
    ByteRing LogRing.RingBuffer (λ r p, (LogRing.Write r p).1) LogRing.Snapshot := {|
  ring_ok cap r hist :=
    ring_inv cap (LogRing.data r) (LogRing.head r) hist ∧
    LogRing.capacity r = cap ∧ LogRing.size r = Nat.min cap (length hist)
|}.
Next Obligation.
  intros cap [d c h s] hist p (Hi & Hc & Hs). simpl in *. subst c. unfold LogRing.Write. simpl.
  destruct (Nat.eqb_spec (length p) 0) as [E|E].
  { apply nil_length_inv in E as ->. by rewrite app_nil_r. }
  destruct (Nat.leb_spec cap (length p)); simpl.
  - split; [by apply (ring_inv_refill _ _ h)|]. rewrite length_app. lia.
  - pose proof (put_bytes_inv cap d h hist p Hi) as Hp.
    destruct (LogRing.put_bytes cap d h p) as [d' h']. simpl. split; [done|]. split; [done|].
    rewrite length_app. destruct (Nat.ltb_spec cap (s + length p)); lia.
Qed.
Next Obligation.
  intros cap [d c h s] hist (Hi & Hc & Hs). simpl in *. subst c. pose proof Hi as (Hh & Hd & _ & _).
  unfold LogRing.Snapshot. simpl. destruct (Nat.ltb_spec s cap).
  - destruct (ring_inv_short _ _ _ _ Hi) as [-> Ht]; [lia|].
    assert (s = length hist) as -> by lia.
    rewrite Ht, copy_at_exact, last_n_all; [done|lia|by rewrite length_replicate].
  - assert (s = length d) as -> by lia. rewrite <- Hd, snapshot_copies by lia.
    rewrite Hd. eapply ring_inv_full; [done|lia].
Qed.

(** ** Properties *)

(** The agent ring from its constructor on. *)
Lemma agent_ring_last size ps a0 :
  AgentRing.newRingBuffer size = Some a0 →
  AgentRing.Snapshot (foldl AgentRing.Write a0 ps) = last_n (Z.to_nat size) (concat ps).
Proof.
  unfold AgentRing.newRingBuffer. destruct (Z.leb_spec size 0); [done|]. intros [= <-].
  apply (ring_snapshot (ByteRing := agent_ring)).
  apply (ring_writes (H := agent_ring) (Z.to_nat size) _ []). split; [apply ring_inv_init; lia|].
  rewrite bool_decide_false; [done|]. simpl. lia.
Qed.

(** C6: both rings keep exactly the last [capacity] bytes.  For every
    positive size and every sequence of writes, whatever their lengths, the
    agent's ring and the collector's ring return the same snapshot: the last
    [capacity] bytes of everything written, in order; and the collector's
    [Size] is its length. *)
Theorem rings_keep_last_bytes (size : Z) (ps : list bytes) (Hsize : 0 < size) :
  ∃ a0, AgentRing.newRingBuffer size = Some a0 ∧
  let a := foldl AgentRing.Write a0 ps in
  let r := foldl (λ r p, (LogRing.Write r p).1) (LogRing.NewRingBuffer size) ps in
  AgentRing.Snapshot a = last_n (Z.to_nat size) (concat ps) ∧
  LogRing.Snapshot r = last_n (Z.to_nat size) (concat ps) ∧
  LogRing.Size r = length (LogRing.Snapshot r).
Proof.
  unfold AgentRing.newRingBuffer, LogRing.NewRingBuffer.
  rewrite (proj2 (Z.leb_gt _ _)), (proj2 (Z.ltb_ge _ _)) by lia. eexists. split; [done|]. simpl.
  assert (0 < Z.to_nat size)%nat as Hc by lia. set (cap := Z.to_nat size) in *.
  pose proof (ring_writes (H := agent_ring) cap
    (AgentRing.mkRing (replicate cap x00) 0 false) [] ps) as Ha.
  pose proof (ring_writes (H := log_ring) cap
    (LogRing.mkRing (replicate cap x00) cap 0 0) [] ps) as Hl.
  simpl in Ha, Hl. pose proof (ring_inv_init cap Hc) as H0.
  rewrite (ring_snapshot (ByteRing := agent_ring) cap _ (concat ps)),
    (ring_snapshot (ByteRing := log_ring) cap _ (concat ps)).
  - split_and!; [done..|]. rewrite length_last_n. apply Hl. split_and!; try done. simpl. lia.
  - apply Hl. split_and!; try done. simpl. lia.
  - apply Ha. split; [done|]. rewrite bool_decide_false; [done|]. simpl. lia.
Qed.

Lemma rings_keep_last_bytes_witness :
  ∃ a0, AgentRing.newRingBuffer 3 = Some a0 ∧
  let ps := [[x61; x62]; [x63; x64]] in
  let a := foldl AgentRing.Write a0 ps in
  let r := foldl (λ r p, (LogRing.Write r p).1) (LogRing.NewRingBuffer 3) ps in
  AgentRing.Snapshot a = [x62; x63; x64] ∧ LogRing.Snapshot r = [x62; x63; x64] ∧
  LogRing.Size r = length (LogRing.Snapshot r).
Proof. exact (rings_keep_last_bytes 3 [[x61; x62]; [x63; x64]] ltac:(lia)). Defined.
