(* ===== verification/CwTypes.v ===== *)
(** * Shared types: internal/cwtypes/types.go and pkg/cliwrap/spec_builder.go

    The specification of a managed process, its validation, the runtime
    states, and the fluent builder of specifications. *)

From Stdlib Require Import Floats.SpecFloat Strings.Ascii.
From stdpp Require Import pretty.
From S2P Require Import Prelude.

(** ** Enumerations *)

(** Each is an [int]; the last constructor is any value the constants do not
    name. *)
Inductive RestartPolicy := RestartNever | RestartOnFailure | RestartAlways | RestartOther (n : Z).
Inductive ExceedAction := ExceedWarn | ExceedThrottle | ExceedKill | ExceedOther (n : Z).
Inductive StdinMode := StdinNone | StdinPipe | StdinInherit | StdinOther (n : Z).

(** [State] is an [int]; [StateOther] is any value the constants do not name. *)
Inductive State :=
| StatePending | StateStarting | StateRunning | StateStopping
| StateStopped | StateCrashed | StateRestarting | StateFailed
| StateOther (n : Z).

#[global] Instance RestartPolicy_eq_dec : EqDecision RestartPolicy.
Proof. solve_decision. Defined.
#[global] Instance ExceedAction_eq_dec : EqDecision ExceedAction.
Proof. solve_decision. Defined.
#[global] Instance State_eq_dec : EqDecision State.
Proof. solve_decision. Defined.

(** [State.String]. *)
Definition State_String (s : State) : string :=
  match s with
  | StatePending => "pending"
  | StateStarting => "starting"
  | StateRunning => "running"
  | StateStopping => "stopping"
  | StateStopped => "stopped"
  | StateCrashed => "crashed"
  | StateRestarting => "restarting"
  | StateFailed => "failed"
  | StateOther n => ("state(" ++ pretty n ++ ")")%string
  end.

(** ** Specifications *)

Record ResourceLimits := mkLimits {
  rl_MaxRSS : Z; rl_MaxCPUPercent : spec_float; rl_OnExceed : ExceedAction }.

Record LogOptions := mkLogOptions {
  lo_RingBufferBytes : Z; lo_RotationDir : string; lo_RotationMaxSize : Z;
  lo_RotationMaxFiles : Z; lo_PreserveWALOnShutdown : bool }.

(** A value of Go's [any] as configuration files produce it. *)
Inductive any_val :=
| VNil | VBool (b : bool) | VInt (n : Z) | VFloat (f : spec_float) | VStr (s : string)
| VStrs (l : list string) | VList (l : list any_val) | VMap (m : list (string * any_val)).

Record SandboxSpec := mkSandboxSpec { sb_Provider : string; sb_Config : list (string * any_val) }.

Record PTYConfig := mkPTYConfig { pty_InitialCols : Z; pty_InitialRows : Z; pty_Echo : bool }.

Record Spec := mkSpec {
  spec_ID : string;
  spec_Name : string;
  spec_Command : string;
  spec_Args : list string;
  spec_Env : gmap string string;
  spec_WorkDir : string;
  spec_Restart : RestartPolicy;
  spec_MaxRestarts : Z;
  spec_RestartBackoff : Z;   (** nanoseconds *)
  spec_StopTimeout : Z;      (** nanoseconds *)
  spec_Stdin : StdinMode;
  spec_Sandbox : option SandboxSpec;
  spec_Resources : ResourceLimits;
  spec_LogOptions : LogOptions;
  spec_PTY : option PTYConfig;
  spec_Persistent : bool;
  spec_RingBufferSize : Z
}.

Definition zero_limits : ResourceLimits := mkLimits 0 (S754_zero false) ExceedWarn.
Definition zero_log_options : LogOptions := mkLogOptions 0 "" 0 0 false.
Definition zero_spec : Spec :=
  mkSpec "" "" "" [] ∅ "" RestartNever 0 0 0 StdinNone None zero_limits zero_log_options None false 0.

(** [ApplyPTYDefaults]; [None] is the nil pointer. *)
Definition ApplyPTYDefaults (c : option PTYConfig) : option PTYConfig :=
  match c with
  | None => None
  | Some c =>
      Some (mkPTYConfig (if pty_InitialCols c =? 0 then 80 else pty_InitialCols c)
                        (if pty_InitialRows c =? 0 then 24 else pty_InitialRows c) (pty_Echo c))
  end.

(** The regular expression [^[A-Za-z0-9_\-]+$]. *)
Definition id_char (c : ascii) : bool :=
  let n := Z.of_N (N_of_ascii c) in
  ((65 <=? n) && (n <=? 90)) || ((97 <=? n) && (n <=? 122)) ||
  ((48 <=? n) && (n <=? 57)) || (n =? 95) || (n =? 45).

Definition validID (s : string) : bool :=
  match String.list_ascii_of_string s with
  | [] => false
  | cs => forallb id_char cs
  end.

(** The field a [SpecValidationError] names. *)
Inductive spec_field := FieldID | FieldCommand | FieldStopTimeout | FieldMaxRestarts | FieldRingBufferSize.

Inductive validation_reason := Required | BadID | MustBeNonNeg | TooLarge.

Record SpecValidationError := mkSpecError { sve_Field : spec_field; sve_Reason : validation_reason }.

Definition maxRingBuffer : Z := 64 * 1024 * 1024.

(** [Spec.Validate]: the first failing check, or nil. *)
Definition Validate (s : Spec) : option SpecValidationError :=
  if String.eqb (spec_ID s) "" then Some (mkSpecError FieldID Required)
  else if negb (validID (spec_ID s)) then Some (mkSpecError FieldID BadID)
  else if String.eqb (spec_Command s) "" then Some (mkSpecError FieldCommand Required)
  else if spec_StopTimeout s <? 0 then Some (mkSpecError FieldStopTimeout MustBeNonNeg)
  else if spec_MaxRestarts s <? 0 then Some (mkSpecError FieldMaxRestarts MustBeNonNeg)
  else if spec_Persistent s then
    if spec_RingBufferSize s <? 0 then Some (mkSpecError FieldRingBufferSize MustBeNonNeg)
    else if maxRingBuffer <? spec_RingBufferSize s then Some (mkSpecError FieldRingBufferSize TooLarge)
    else None
  else None.

(** A snapshot of the runtime state; times are nanoseconds since the zero
    time, so 0 is [time.Time{}]. *)
Record Status := mkStatus {
  st_State : State; st_AgentPID : Z; st_ChildPID : Z; st_StartedAt : Z; st_LastExitAt : Z;
  st_LastExitCode : Z; st_RestartCount : Z; st_LastError : string; st_PendingReason : string;
  st_RSS : Z; st_CPUPercent : spec_float }.

Definition zero_status : Status :=
  mkStatus StatePending 0 0 0 0 0 0 "" "" 0 (S754_zero false).

Record LogChunk := mkChunk { chunk_ProcessID : string; chunk_Stream : Z; chunk_Data : bytes }.

(** ** The builder *)

Module SpecBuilder.

Definition second : Z := 1000000000.

Definition NewSpec (id cmd : string) (args : list string) : Spec :=
  mkSpec id "" cmd args ∅ "" RestartNever 0 second (10 * second) StdinNone None
    zero_limits zero_log_options None false 0.

(** One builder call. *)
Inductive call :=
| WithEnv (k v : string)
| WithWorkDir (path : string)
| WithRestart (p : RestartPolicy)
| WithMaxRestarts (n : Z)
| WithRestartBackoff (d : Z)
| WithStopTimeout (d : Z)
| WithStdin (m : StdinMode)
| WithResourceLimits (l : ResourceLimits)
| WithLogOptions (o : LogOptions)
| WithSandbox (s : option SandboxSpec)
| WithPTY (c : option PTYConfig)
| Persistent
| WithRingBufferSize (n : Z).

Definition apply (s : Spec) (c : call) : Spec :=
  let '(mkSpec id nm cmd args env wd rs mr rb st si sb rl lo pty per ring) := s in
  match c with
  | WithEnv k v => mkSpec id nm cmd args (<[k := v]> env) wd rs mr rb st si sb rl lo pty per ring
  | WithWorkDir p => mkSpec id nm cmd args env p rs mr rb st si sb rl lo pty per ring
  | WithRestart p => mkSpec id nm cmd args env wd p mr rb st si sb rl lo pty per ring
  | WithMaxRestarts n => mkSpec id nm cmd args env wd rs n rb st si sb rl lo pty per ring
  | WithRestartBackoff d => mkSpec id nm cmd args env wd rs mr d st si sb rl lo pty per ring
  | WithStopTimeout d => mkSpec id nm cmd args env wd rs mr rb d si sb rl lo pty per ring
  | WithStdin m => mkSpec id nm cmd args env wd rs mr rb st m sb rl lo pty per ring
  | WithResourceLimits l => mkSpec id nm cmd args env wd rs mr rb st si sb l lo pty per ring
  | WithLogOptions o => mkSpec id nm cmd args env wd rs mr rb st si sb rl o pty per ring
  | WithSandbox sb' => mkSpec id nm cmd args env wd rs mr rb st si sb' rl lo pty per ring
  | WithPTY p => mkSpec id nm cmd args env wd rs mr rb st si sb rl lo p per ring
  | Persistent => mkSpec id nm cmd args env wd rs mr rb st si sb rl lo pty true ring
  | WithRingBufferSize n => mkSpec id nm cmd args env wd rs mr rb st si sb rl lo pty per n
  end.

Definition Build (s : Spec) : result SpecValidationError Spec :=
  match Validate s with Some e => Err e | None => Ok s end.

Definition build_all (id cmd : string) (args : list string) (cs : list call)
    : result SpecValidationError Spec :=
  Build (foldl apply (NewSpec id cmd args) cs).

End SpecBuilder.

(** ** Lemmas *)

(** What a valid identifier can contain. *)
Lemma validID_spec s :
  validID s = true ↔
  s ≠ ""%string ∧ ∀ c, c ∈ String.list_ascii_of_string s → id_char c = true.
Proof.
  unfold validID. destruct s as [|c s]; [by split; [|intros []]|].
  cbn [String.list_ascii_of_string]. rewrite forallb_forall.
  setoid_rewrite list_elem_of_In. split; [by intros H|by intros [_ H]].
Qed.
