(* ===== verification/LogCollect.v ===== *)
(** * In-memory log collection: internal/logcollect/sink.go, collector.go

    Per-(process, stream) buffers of timestamped chunks with byte-budget
    eviction, the [--since] and [--lines] filters, the sink that routes
    entries to buffers, and the collector that fans entries out to sinks.
    Times are nanoseconds; 0 is the zero time. *)

From S2P Require Import Prelude Text.

Record LogEntry := mkEntry {
  le_ProcessID : string; le_Stream : Z; le_SeqNo : Z; le_Timestamp : Z; le_Data : bytes }.

(** ** Chunk buffers *)

Record chunkRecord := mkRec { cr_Bytes : bytes; cr_TS : Z }.

Record chunkBuffer := mkCB { cb_capacity : Z; cb_chunks : list chunkRecord; cb_totalBytes : Z }.

Definition newChunkBuffer (capacity : Z) : chunkBuffer :=
  mkCB (if capacity <? 1 then 1 else capacity) [] 0.

Definition chunk_len (c : chunkRecord) : Z := Z.of_nat (length (cr_Bytes c)).
Definition chunks_len (cs : list chunkRecord) : Z := foldr (λ c t, chunk_len c + t) 0 cs.

(** The eviction loop: drops the oldest chunk while over budget and more than
    one is left. *)
Fixpoint evict (capacity total : Z) (chunks : list chunkRecord) : Z * list chunkRecord :=
  match chunks with
  | c :: ((_ :: _) as rest) =>
      if capacity <? total then evict capacity (total - chunk_len c) rest else (total, chunks)
  | _ => (total, chunks)
  end.

Definition append (b : chunkBuffer) (data : bytes) (ts : Z) : chunkBuffer :=
  let chunks := cb_chunks b ++ [mkRec data ts] in
  let '(total, kept) := evict (cb_capacity b) (cb_totalBytes b + Z.of_nat (length data)) chunks in
  mkCB (cb_capacity b) kept total.

(** [nil] and an empty slice are both the empty list. *)
Definition snapshot (b : chunkBuffer) : bytes := concat (cr_Bytes <$> cb_chunks b).

Definition NL : byte := x0a.

(** The indices of the newlines, counting from [i]. *)
Fixpoint nl_positions (i : nat) (buf : bytes) : list nat :=
  match buf with
  | [] => []
  | b :: buf' => if decide (b = NL) then i :: nl_positions (S i) buf' else nl_positions (S i) buf'
  end.

(** [lastNLines]; [None] would be an index panic. *)
Definition lastNLines (buf : bytes) (n : Z) : option bytes :=
  if (n <=? 0) || (length buf =? 0)%nat then Some buf
  else
    let nlPositions := nl_positions 0 buf in
    let endsWithNL := bool_decide (last buf = Some NL) in
    let lineCount := Z.of_nat (length nlPositions) + (if endsWithNL then 0 else 1) in
    if lineCount <=? n then Some buf
    else
      let skip := lineCount - n in
      match nlPositions !! Z.to_nat (skip - 1) with
      | Some p => Some (drop (p + 1) buf)
      | None => None
      end.

(** The scan of [snapshotFiltered] for the first chunk not before [since]. *)
Fixpoint skip_before (since : Z) (cs : list chunkRecord) : list chunkRecord :=
  match cs with
  | c :: cs' => if cr_TS c <? since then skip_before since cs' else cs
  | [] => []
  end.

Definition snapshotFiltered (b : chunkBuffer) (since lines : Z) : option bytes :=
  let chunks := if since =? 0 then cb_chunks b else skip_before since (cb_chunks b) in
  match chunks with
  | [] => Some []
  | _ =>
      let out := concat (cr_Bytes <$> chunks) in
      if 0 <? lines then lastNLines out lines else Some out
  end.

(** ** The ring buffer sink *)

(** [string(rune(n))] for a code point below 256. *)
Definition utf8 (n : Z) : list ascii :=
  if n <? 128 then [ascii_of_N (Z.to_N n)]
  else [ascii_of_N (Z.to_N (Z.lor 192 (Z.shiftr n 6)));
        ascii_of_N (Z.to_N (Z.lor 128 (Z.land n 63)))].

(** [processID + "/" + string(rune('0'+stream))]; the sum is a [uint8]. *)
Definition bufferKey (processID : string) (stream : Z) : string :=
  (processID ++ "/" ++ of_chars (utf8 (u8 (48 + stream))))%string.

Record RingBufferSink := mkSink { sk_capacity : Z; sk_buffers : gmap string chunkBuffer }.

Definition NewRingBufferSink (capacity : Z) : RingBufferSink := mkSink capacity ∅.

(** [Write]; [now] is what [time.Now] returns. *)
Definition Write (now : Z) (s : RingBufferSink) (e : LogEntry) : RingBufferSink :=
  let key := bufferKey (le_ProcessID e) (le_Stream e) in
  let buf := default (newChunkBuffer (sk_capacity s)) (sk_buffers s !! key) in
  let ts := if le_Timestamp e =? 0 then now else le_Timestamp e in
  mkSink (sk_capacity s) (<[key := append buf (le_Data e) ts]> (sk_buffers s)).

Definition Snapshot (s : RingBufferSink) (processID : string) (stream : Z) : bytes :=
  match sk_buffers s !! bufferKey processID stream with
  | None => []
  | Some buf => snapshot buf
  end.

Definition SnapshotFiltered (s : RingBufferSink) (processID : string) (stream since lines : Z)
    : option bytes :=
  match sk_buffers s !! bufferKey processID stream with
  | None => Some []
  | Some buf => snapshotFiltered buf since lines
  end.

(** ** The collector *)

(** The [Sink] interface: what [Write] does to the sink, and its error. *)
Class Sink (K : Type) := { sink_write : K → LogEntry → K * bool; sink_close : K → K * bool }.

Section Collector.
Context {K : Type} `{!Sink K}.

Record Collector := mkCollector { col_ring : RingBufferSink; col_extra : list K }.

Definition NewCollector (ringBufferBytes : Z) (extra : list K) : Collector :=
  mkCollector (NewRingBufferSink (if ringBufferBytes <=? 0 then 4 * 1024 * 1024 else ringBufferBytes))
    extra.

(** Errors of the sinks are dropped. *)
Definition Collector_Write (now : Z) (c : Collector) (e : LogEntry) : Collector :=
  mkCollector (Write now (col_ring c) e) ((λ s, (sink_write s e).1) <$> col_extra c).

Definition Collector_Snapshot (c : Collector) (processID : string) (stream : Z) : bytes :=
  Snapshot (col_ring c) processID stream.

Definition Collector_SnapshotFiltered (c : Collector) (processID : string) (stream since lines : Z)
    : option bytes := SnapshotFiltered (col_ring c) processID stream since lines.

Definition Collector_Close (c : Collector) : Collector :=
  mkCollector (col_ring c) ((λ s, (sink_close s).1) <$> col_extra c).
End Collector.
Arguments Collector : clear implicits.

(** ** Eviction *)

Lemma chunks_len_app cs cs' : chunks_len (cs ++ cs') = chunks_len cs + chunks_len cs'.
Proof. induction cs as [|c cs IH]; simpl; lia. Qed.

Lemma chunks_len_nonneg cs : 0 ≤ chunks_len cs.
Proof. induction cs as [|c cs IH]; simpl; unfold chunk_len; lia. Qed.

(** What a buffer that took [hist] still holds: the longest suffix of whole
    chunks within the budget, and at least the newest chunk. *)
Definition retained (capacity : Z) (hist kept : list chunkRecord) : Prop :=
  ∃ old, hist = old ++ kept ∧ (hist ≠ [] → kept ≠ []) ∧
  (chunks_len kept ≤ capacity ∨ length kept = 1%nat) ∧
  ∀ old' c, old = old' ++ [c] → capacity < chunks_len (c :: kept).

Lemma evict_retained capacity chunks : ∀ old,
  chunks ≠ [] → (∀ old' c, old = old' ++ [c] → capacity < chunks_len (c :: chunks)) →
  let '(total, kept) := evict capacity (chunks_len chunks) chunks in
  total = chunks_len kept ∧ retained capacity (old ++ chunks) kept.
Proof.
  induction chunks as [|c chunks IH]; intros old Hne Hold; [done|].
  destruct chunks as [|d chunks]; [split; [done|]; exists old; auto|].
  cbn [evict]. destruct (Z.ltb_spec capacity (chunks_len (c :: d :: chunks))) as [Hlt|Hge].
  - replace (chunks_len (c :: d :: chunks) - chunk_len c) with (chunks_len (d :: chunks))
      by (simpl; lia).
    specialize (IH (old ++ [c]) ltac:(done)). rewrite <- (assoc_L (++)) in IH. apply IH.
    intros old' x [_ [= ->]]%app_inj_tail. done.
  - split; [done|]. exists old. auto.
Qed.

Lemma append_retained b hist data ts :
  retained (cb_capacity b) hist (cb_chunks b) → cb_totalBytes b = chunks_len (cb_chunks b) →
  let b' := append b data ts in
  retained (cb_capacity b) (hist ++ [mkRec data ts]) (cb_chunks b') ∧
  cb_totalBytes b' = chunks_len (cb_chunks b') ∧ cb_capacity b' = cb_capacity b.
Proof.
  intros (old & -> & _ & _ & Hold) Ht. unfold append.
  set (c := mkRec data ts). set (chunks := cb_chunks b ++ [c]).
  assert (cb_totalBytes b + Z.of_nat (length data) = chunks_len chunks) as ->.
  { unfold chunks. rewrite chunks_len_app, Ht. simpl. unfold chunk_len. simpl. lia. }
  pose proof (evict_retained (cb_capacity b) chunks old) as He.
  destruct (evict _ _ _) as [total kept]. simpl. rewrite <- (assoc_L (++)). fold chunks.
  destruct He as [-> He]; [by unfold chunks; destruct (cb_chunks b)| |done].
  intros old' x ->. specialize (Hold old' x eq_refl). unfold chunks. simpl in *.
  rewrite chunks_len_app. pose proof (chunks_len_nonneg [c]). lia.
Qed.

(** A buffer that took every chunk of a history. *)
Definition append_all (b : chunkBuffer) (hist : list chunkRecord) : chunkBuffer :=
  foldl (λ b c, append b (cr_Bytes c) (cr_TS c)) b hist.

Lemma append_all_retained capacity hist :
  let b := append_all (newChunkBuffer capacity) hist in
  retained (Z.max 1 capacity) hist (cb_chunks b) ∧ cb_totalBytes b = chunks_len (cb_chunks b).
Proof.
  simpl. assert (cb_capacity (newChunkBuffer capacity) = Z.max 1 capacity) as Hc
    by (simpl; case_match; bool_lia).
  assert (let b := append_all (newChunkBuffer capacity) hist in
    retained (Z.max 1 capacity) hist (cb_chunks b) ∧ cb_totalBytes b = chunks_len (cb_chunks b) ∧
    cb_capacity b = Z.max 1 capacity) as (? & ? & ?); [|done].
  induction hist as [|c hist IH] using rev_ind; simpl.
  - split_and!; [|done..]. exists []. split_and!; try done; [left; simpl; lia|]. by intros [|] ? ?.
  - unfold append_all in *. rewrite foldl_app. simpl. destruct IH as (H1 & H2 & H3).
    destruct (append_retained (foldl (λ b c, append b (cr_Bytes c) (cr_TS c)) (newChunkBuffer capacity) hist)
      hist (cr_Bytes c) (cr_TS c)) as (H4 & H5 & H6); [by rewrite H3|done|].
    rewrite H3 in *. by destruct c.
Qed.

(** ** Lines *)

(** The lines of a buffer, each with its newline; the last may lack it. *)
Fixpoint lines_of (buf : bytes) : list bytes :=
  match buf with
  | [] => []
  | b :: buf' =>
      if decide (b = NL) then [b] :: lines_of buf'
      else match lines_of buf' with
           | [] => [[b]]
           | l :: ls => (b :: l) :: ls
           end
  end.

Lemma concat_lines buf : concat (lines_of buf) = buf.
Proof.
  induction buf as [|b buf IH]; [done|]. cbn [lines_of]. case_decide; simpl; [by rewrite IH|].
  destruct (lines_of buf); simpl in *; by rewrite <- IH.
Qed.

Lemma lines_nil buf : lines_of buf = [] → buf = [].
Proof. intros H. by rewrite <- (concat_lines buf), H. Qed.

(** The [k]-th newline ends the [k]-th line. *)
Lemma nl_positions_lines buf : ∀ i k p,
  nl_positions i buf !! k = Some p →
  (p + 1 = i + length (concat (take (S k) (lines_of buf))))%nat.
Proof.
  induction buf as [|b buf IH]; intros i k p H; [done|]. cbn [nl_positions lines_of] in *.
  case_decide.
  - destruct k as [|k]; simpl in H; [injection H as <-; simpl; lia|].
    apply IH in H. cbn [take concat]. rewrite length_app. simpl in *. lia.
  - apply IH in H. destruct (lines_of buf) as [|l ls]; simpl in *; [|lia].
    rewrite take_nil. simpl in *. lia.
Qed.

Lemma count_lines i buf : buf ≠ [] →
  Z.of_nat (length (nl_positions i buf)) + (if bool_decide (last buf = Some NL) then 0 else 1)
  = Z.of_nat (length (lines_of buf)).
Proof.
  revert i. induction buf as [|b buf IH]; intros i Hne; [done|]. destruct buf as [|b' buf].
  { simpl. repeat (case_decide || case_bool_decide); simplify_eq/=; lia. }
  specialize (IH (S i) ltac:(done)).
  change (last (b :: b' :: buf)) with (last (b' :: buf)).
  assert (b' :: buf ≠ []) as Hne' by done. set (buf' := b' :: buf) in *. clearbody buf'.
  cbn [nl_positions lines_of]. destruct (decide (b = NL)).
  - cbn [length]. lia.
  - rewrite IH. destruct (lines_of buf') eqn:E; [|done]. by apply lines_nil in E.
Qed.

Lemma lastNLines_spec buf n :
  0 < n → lastNLines buf n = Some (concat (last_n (Z.to_nat n) (lines_of buf))).
Proof.
  intros Hn. unfold lastNLines. rewrite (proj2 (Z.leb_gt _ _)) by done. simpl.
  destruct (decide (buf = [])) as [->|Hne]; [done|].
  rewrite (proj2 (Nat.eqb_neq _ _)) by (by destruct buf).
  rewrite (count_lines 0 buf Hne). set (L := length (lines_of buf)).
  destruct (Z.leb_spec (Z.of_nat L) n) as [Hle|Hgt].
  { rewrite last_n_all by (fold L; lia). by rewrite concat_lines. }
  assert (Z.to_nat (Z.of_nat L - n - 1) < length (nl_positions 0 buf))%nat as Hk.
  { pose proof (count_lines 0 buf Hne) as Hc. fold L in Hc. case_match; lia. }
  apply lookup_lt_is_Some in Hk as [p Hp]. rewrite Hp.
  apply nl_positions_lines in Hp. simpl in Hp. rewrite Hp. f_equal.
  unfold last_n. fold L. replace (S (Z.to_nat (Z.of_nat L - n - 1))) with (L - Z.to_nat n)%nat by lia.
  rewrite <- (concat_lines buf) at 2. rewrite <- (take_drop (L - Z.to_nat n) (lines_of buf)) at 2.
  by rewrite concat_app, drop_app_length.
Qed.

(** ** Keys *)

(** Reading an encoded code point back. *)
Definition utf8_decode (u : list ascii) : Z :=
  match u with
  | [a] => Z.of_N (N_of_ascii a)
  | [a; b] => Z.lor (Z.shiftl (Z.land (Z.of_N (N_of_ascii a)) 3) 6)
                    (Z.land (Z.of_N (N_of_ascii b)) 63)
  | _ => 0
  end.

Definition utf8_check (n : Z) : bool :=
  (utf8_decode (utf8 n) =? n) &&
  match last (utf8 n) with
  | Some a => Nat.eqb (length (utf8 n)) (if (N_of_ascii a <? 128)%N then 1 else 2)
  | None => false
  end.

Lemma utf8_checked n : in_u 8 n → utf8_check n = true.
Proof.
  intros Hn. assert (forallb utf8_check (seqZ 0 256) = true) as H by (vm_compute; reflexivity).
  rewrite forallb_forall in H. apply H, list_elem_of_In, elem_of_seqZ. unfold in_u in Hn. lia.
Qed.

Lemma utf8_inj n m : in_u 8 n → in_u 8 m → utf8 n = utf8 m → n = m.
Proof.
  intros Hn Hm E. pose proof (utf8_checked n Hn) as H1. pose proof (utf8_checked m Hm) as H2.
  apply andb_true_iff in H1 as [H1%Z.eqb_eq _]. apply andb_true_iff in H2 as [H2%Z.eqb_eq _].
  congruence.
Qed.

(** The last byte of a key tells how long the encoded stream is. *)
Lemma utf8_length n m l k :
  in_u 8 n → in_u 8 m → last (l ++ utf8 n) = last (k ++ utf8 m) →
  length (utf8 n) = length (utf8 m).
Proof.
  intros Hn Hm. pose proof (utf8_checked n Hn) as H1. pose proof (utf8_checked m Hm) as H2.
  apply andb_true_iff in H1 as [_ H1]. apply andb_true_iff in H2 as [_ H2].
  rewrite !last_app. destruct (last (utf8 n)) as [a|]; [|done].
  destruct (last (utf8 m)) as [b|]; [|done]. intros [= ->].
  apply Nat.eqb_eq in H1, H2. congruence.
Qed.

Lemma bufferKey_inj p s p' s' :
  in_u 8 s → in_u 8 s' → bufferKey p s = bufferKey p' s' → p = p' ∧ s = s'.
Proof.
  intros Hs Hs' E. apply (f_equal chars) in E.
  unfold bufferKey in E. rewrite !chars_app, !chars_of in E.
  change (chars "/") with ["/"%char] in E.
  assert (in_u 8 (u8 (48 + s)) ∧ in_u 8 (u8 (48 + s'))) as [H1 H2] by (split; by apply wrap_u_range).
  rewrite !(assoc_L (++)) in E.
  assert (length (utf8 (u8 (48 + s))) = length (utf8 (u8 (48 + s')))) as Hl.
  { eapply utf8_length; [done..|]. by rewrite E. }
  apply app_inj_2 in E as [Ep Es]; [|done]. apply app_inj_2 in Ep as [Ep _]; [|done].
  split.
  - by apply (inj chars).
  - apply utf8_inj in Es; [|done..]. unfold u8, wrap_u, in_u in *.
    pose proof (Z.div_mod (48 + s) (2 ^ 8)). pose proof (Z.div_mod (48 + s') (2 ^ 8)). lia.
Qed.

(** ** Routing *)

(** The chunks that belong to one process and stream. *)
Definition own_chunks (processID : string) (stream now : Z) (es : list LogEntry)
    : list chunkRecord :=
  (λ e, mkRec (le_Data e) (if le_Timestamp e =? 0 then now else le_Timestamp e)) <$>
  filter (λ e, le_ProcessID e = processID ∧ le_Stream e = stream) es.

Lemma sink_routes cap now es p s :
  in_u 8 s → Forall (λ e, in_u 8 (le_Stream e)) es →
  let sk := foldl (Write now) (NewRingBufferSink cap) es in
  sk_capacity sk = cap ∧
  default (newChunkBuffer cap) (sk_buffers sk !! bufferKey p s) =
    append_all (newChunkBuffer cap) (own_chunks p s now es) ∧
  (sk_buffers sk !! bufferKey p s = None → own_chunks p s now es = []).
Proof.
  intros Hs. induction es as [|e es IH] using rev_ind; intros Hes; [done|].
  apply Forall_app in Hes as [Hes [He _]%Forall_cons]. specialize (IH Hes).
  simpl in *. rewrite foldl_app. simpl. set (sk := foldl _ _ es) in *.
  destruct IH as (Hc & Hd & Hn). split; [done|].
  unfold own_chunks in *. rewrite filter_app, filter_cons, filter_nil, fmap_app.
  destruct (decide (le_ProcessID e = p ∧ le_Stream e = s)) as [[<- <-]|Hne].
  - rewrite lookup_insert_eq. simpl. split; [|done].
    unfold append_all. rewrite foldl_app. simpl. unfold append_all in Hd. rewrite <- Hd. by rewrite Hc.
  - simpl. rewrite app_nil_r, lookup_insert_ne; [done|].
    intros E. apply bufferKey_inj in E; tauto.
Qed.

(** The [--since] scan keeps a suffix; on chunks in time order it is exactly
    the chunks not before [since]. *)
Lemma skip_before_filter since cs :
  StronglySorted (λ c d, cr_TS c ≤ cr_TS d) cs →
  skip_before since cs = filter (λ c, since ≤ cr_TS c) cs.
Proof.
  induction 1 as [|c cs Hs IH Hall]; [done|]. cbn [skip_before]. rewrite filter_cons.
  destruct (Z.ltb_spec (cr_TS c) since).
  - rewrite decide_False by lia. done.
  - rewrite decide_True by lia. f_equal. clear IH Hs. symmetry.
    induction Hall as [|d cs Hd Hall IHc]; [done|]. rewrite filter_cons, decide_True by lia.
    by f_equal.
Qed.

(** ** Properties *)

(** C33: the log of one (process, stream) pair.  After any sequence of writes
    for any processes and streams, a snapshot of one pair is the
    concatenation of a suffix of exactly that pair's chunks (no byte of another
    process or stream, nothing reordered), the newest chunk is always in it,
    the suffix fits the byte budget unless it is that single chunk, and it is
    maximal: one chunk more would exceed the budget. *)
Theorem sink_keeps_newest_chunks (cap now : Z) (es : list LogEntry) (p : string) (s : Z)
    (Hs : in_u 8 s) (Hes : Forall (λ e, in_u 8 (le_Stream e)) es) :
  let sk := foldl (Write now) (NewRingBufferSink cap) es in
  ∃ kept, Snapshot sk p s = concat (cr_Bytes <$> kept) ∧
    retained (Z.max 1 cap) (own_chunks p s now es) kept.
Proof.
  destruct (sink_routes cap now es p s Hs Hes) as (_ & Hd & Hn). simpl.
  destruct (append_all_retained cap (own_chunks p s now es)) as [Hr _].
  unfold Snapshot. destruct (sk_buffers _ !! _) as [b|].
  - simpl in Hd. subst b. by eexists.
  - exists []. split; [done|]. rewrite (Hn eq_refl) in *. exists []. split_and!; try done.
    + left. simpl. lia.
    + by intros [|] ? ?.
Qed.

Definition ex_entries : list LogEntry :=
  [mkEntry "p" 0 1 10 [x61; x62]; mkEntry "q" 0 2 11 [x63]; mkEntry "p" 1 3 12 [x64];
   mkEntry "p" 0 4 13 [x65; x66]].

Lemma sink_keeps_newest_chunks_witness :
  ∃ kept, Snapshot (foldl (Write 99) (NewRingBufferSink 3) ex_entries) "p" 0
            = concat (cr_Bytes <$> kept) ∧
    retained (Z.max 1 3) (own_chunks "p" 0 99 ex_entries) kept.
Proof.
  apply (sink_keeps_newest_chunks 3 99 ex_entries "p" 0);
    [split; lia | repeat constructor; simpl; lia].
Defined.

(** [lastNLines] never indexes out of range and returns exactly the last
    [n] lines of the buffer, counting a final line without a newline. *)
Theorem last_n_lines_correct (buf : bytes) (n : Z) (Hn : 0 < n) :
  lastNLines buf n = Some (concat (last_n (Z.to_nat n) (lines_of buf))) ∧
  concat (lines_of buf) = buf ∧
  Forall (λ l, ∃ body, NL ∉ body ∧ (l = body ++ [NL] ∨ (l = body ∧ body ≠ []))) (lines_of buf).
Proof.
  split_and!; [by apply lastNLines_spec|apply concat_lines|]. clear.
  induction buf as [|b buf IH]; [constructor|]. cbn [lines_of]. case_decide as Hb.
  - subst b. constructor; [|done]. exists []. split; [set_solver|by left].
  - destruct (lines_of buf) as [|l ls].
    + constructor; [|done]. exists [b]. split; [set_solver|by right].
    + inversion IH as [|? ? (body & Hnl & Hl) Hls]; subst. constructor; [|done].
      exists (b :: body). split; [set_solver|]. destruct Hl as [->|[-> _]]; [by left|by right].
Qed.

Lemma last_n_lines_correct_witness :
  lastNLines [x61; NL; x62; NL; x63] 2 = Some [x62; NL; x63].
Proof. exact (proj1 (last_n_lines_correct [x61; NL; x62; NL; x63] 2 ltac:(lia))). Defined.

(** On chunks that arrived in time order, the [--since]/[--lines]
    snapshot is total and returns the last [lines] lines (all, if not
    positive) of exactly the chunks not before [since]. *)
Theorem snapshot_filtered_correct (b : chunkBuffer) (since lines : Z)
    (Hsorted : StronglySorted (λ c d, cr_TS c ≤ cr_TS d) (cb_chunks b)) (Hsince : since ≠ 0) :
  snapshotFiltered b since lines =
  Some (let out := concat (cr_Bytes <$> filter (λ c, since ≤ cr_TS c) (cb_chunks b)) in
        if 0 <? lines then concat (last_n (Z.to_nat lines) (lines_of out)) else out).
Proof.
  unfold snapshotFiltered. rewrite (proj2 (Z.eqb_neq _ _)) by done.
  rewrite skip_before_filter by done.
  destruct (filter _ (cb_chunks b)) as [|c cs]; [by destruct (0 <? lines)|].
  destruct (Z.ltb_spec 0 lines); [by apply lastNLines_spec|done].
Qed.

Lemma snapshot_filtered_correct_witness :
  snapshotFiltered (mkCB 9 [mkRec [x61] 1; mkRec [x62; NL] 5; mkRec [x63; NL] 7] 5) 5 1 = Some [x63; NL].
Proof.
  refine (snapshot_filtered_correct (mkCB 9 [mkRec [x61] 1; mkRec [x62; NL] 5; mkRec [x63; NL] 7] 5)
    5 1 _ ltac:(lia)).
  repeat constructor; simpl; lia.
Defined.
