(* ===== verification/Rotator.v ===== *)
(** * Log files on disk: internal/logcollect/rotator.go, file_sink.go

    One size-capped log file per (process, stream) with numbered older files.
    The directory is a map from file names to contents; the outcomes of the
    system calls of one operation are its [fault] argument. *)

From S2P Require Import Prelude Text LogCollect CwTypes.

Abbreviation dir := (gmap string bytes).

Record RotatorOptions := mkRotOpts { ro_BaseName : string; ro_MaxSize : Z; ro_MaxFiles : Z }.

(** Names under [opts.Dir]. *)
Definition activeName (base : string) : string := (base ++ ".log")%string.
Definition rotatedName (base : string) (n : N) : string :=
  (base ++ "." ++ pretty n ++ ".log")%string.

(** [r.f]: open on the active file, closed but not replaced, or nil. *)
Inductive rot_fd := RFOpen | RFClosed | RFNil.

Record FileRotator := mkRotator { rt_opts : RotatorOptions; rt_f : rot_fd; rt_size : Z }.

Inductive rot_err := ErrMkdir | ErrOpenActive | ErrStat | ErrCloseActive | ErrRename | ErrRenameActive
                   | ErrWriteFile.

(** The system call of a rotation that fails, if any: the [i] of a rename. *)
Inductive rot_fault := NoFault | FailClose | FailRename (i : N) | FailRenameActive | FailOpen.

(** [openActive] with [O_CREATE|O_APPEND]. *)
Definition openActive (base : string) (d : dir) : dir :=
  match d !! activeName base with Some _ => d | None => <[activeName base := []]> d end.

Definition NewFileRotator (mkdir_ok open_ok : bool) (opts : RotatorOptions) (d : dir)
    : dir * result rot_err FileRotator :=
  let maxSize := if ro_MaxSize opts <=? 0 then 64 * 1024 * 1024 else ro_MaxSize opts in
  let maxFiles := if ro_MaxFiles opts <=? 0 then 7 else ro_MaxFiles opts in
  let opts' := mkRotOpts (ro_BaseName opts) maxSize maxFiles in
  if negb mkdir_ok then (d, Err ErrMkdir)
  else if negb open_ok then (d, Err ErrOpenActive)
  else
    let d' := openActive (ro_BaseName opts) d in
    (d', Ok (mkRotator opts' RFOpen
               (Z.of_nat (length (default [] (d' !! activeName (ro_BaseName opts))))))).

Definition rename (from to : string) (d : dir) : option dir :=
  match d !! from with
  | None => None
  | Some c => Some (<[to := c]> (delete from d))
  end.

(** The loop [for i := MaxFiles-1; i >= 1; i--] of [rotateLocked]. *)
Fixpoint shift_files (fault : rot_fault) (opts : RotatorOptions) (i : nat) (d : dir)
    : dir * option rot_err :=
  match i with
  | O => (d, None)
  | S i' =>
      let n := N.of_nat i in
      let from := rotatedName (ro_BaseName opts) n in
      match d !! from with
      | None => shift_files fault opts i' d
      | Some _ =>
          if ro_MaxFiles opts <=? Z.of_nat i + 1
          then shift_files fault opts i' (delete from d)
          else match fault with
               | FailRename j =>
                   if (j =? n)%N then (d, Some ErrRename)
                   else match rename from (rotatedName (ro_BaseName opts) (n + 1)) d with
                        | Some d' => shift_files fault opts i' d'
                        | None => (d, Some ErrRename)
                        end
               | _ => match rename from (rotatedName (ro_BaseName opts) (n + 1)) d with
                      | Some d' => shift_files fault opts i' d'
                      | None => (d, Some ErrRename)
                      end
               end
      end
  end.

Definition rotateLocked (fault : rot_fault) (r : FileRotator) (d : dir)
    : dir * FileRotator * option rot_err :=
  let opts := rt_opts r in
  let base := ro_BaseName opts in
  match rt_f r, fault with
  | RFOpen, FailClose | RFClosed, _ | RFNil, _ => (d, r, Some ErrCloseActive)
  | RFOpen, _ =>
      let closed := mkRotator opts RFClosed (rt_size r) in
      let '(d1, e) := shift_files fault opts (Z.to_nat (ro_MaxFiles opts - 1)) d in
      match e with
      | Some e => (d1, closed, Some e)
      | None =>
          match fault, rename (activeName base) (rotatedName base 1) d1 with
          | FailRenameActive, _ | _, None => (d1, closed, Some ErrRenameActive)
          | FailOpen, Some d2 => (d2, closed, Some ErrOpenActive)
          | _, Some d2 => (openActive base d2, mkRotator opts RFOpen 0, None)
          end
      end
  end.

(** [Write]: [room] bytes fit on the disk ([None]: all). *)
Definition Write (fault : rot_fault) (room : option nat) (r : FileRotator) (d : dir) (p : bytes)
    : dir * FileRotator * nat * option rot_err :=
  let '(d1, r1, e) :=
    if ro_MaxSize (rt_opts r) <? rt_size r + Z.of_nat (length p)
    then rotateLocked fault r d else (d, r, None) in
  match e with
  | Some e => (d1, r1, 0%nat, Some e)
  | None =>
      match rt_f r1 with
      | RFOpen =>
          let name := activeName (ro_BaseName (rt_opts r1)) in
          let n := Nat.min (default (length p) room) (length p) in
          let d2 := <[name := default [] (d1 !! name) ++ take n p]> d1 in
          if (n <? length p)%nat then (d2, r1, n, Some ErrWriteFile)
          else (d2, mkRotator (rt_opts r1) RFOpen (rt_size r1 + Z.of_nat n), n, None)
      | _ => (d1, r1, 0%nat, Some ErrWriteFile)
      end
  end.

Definition Close (r : FileRotator) : FileRotator * bool :=
  match rt_f r with
  | RFNil => (r, true)
  | RFOpen => (mkRotator (rt_opts r) RFNil (rt_size r), true)
  | RFClosed => (mkRotator (rt_opts r) RFNil (rt_size r), false)
  end.

(** ** The file sink *)

(** [fs_rotators = None] after [Close], which sets the map to nil. *)
Record FileSink := mkFileSink {
  fs_MaxSize : Z; fs_MaxFiles : Z; fs_rotators : option (gmap string FileRotator) }.

Definition NewFileSink (maxSize maxFiles : Z) : FileSink := mkFileSink maxSize maxFiles (Some ∅).

Definition base_of (processID : string) (stream : Z) : string :=
  (processID ++ "." ++ pretty (Z.to_N stream))%string.

Inductive fsink_err := ErrRotator (e : rot_err) | ErrNilMap.

(** [FileSink.Write]; [ErrNilMap] is the panic of assigning to the nil map a
    closed sink holds. *)
Definition FileSink_Write (fault : rot_fault) (room : option nat) (s : FileSink) (d : dir) (e : LogEntry)
    : dir * FileSink * option fsink_err :=
  if (length (le_Data e) =? 0)%nat then (d, s, None)
  else
    let key := bufferKey (le_ProcessID e) (le_Stream e) in
    let rs := default ∅ (fs_rotators s) in
    let '(d1, r) :=
      match rs !! key with
      | Some r => (d, Ok r)
      | None => NewFileRotator true true
                  (mkRotOpts (base_of (le_ProcessID e) (le_Stream e)) (fs_MaxSize s) (fs_MaxFiles s)) d
      end in
    match r, fs_rotators s with
    | Err err, _ => (d1, s, Some (ErrRotator err))
    | Ok _, None => (d1, s, Some ErrNilMap)
    | Ok r, Some _ =>
        let '(d2, r', _, err) := Write fault room r d1 (le_Data e) in
        (d2, mkFileSink (fs_MaxSize s) (fs_MaxFiles s) (Some (<[key := r']> rs)), ErrRotator <$> err)
    end.

(** [FileSink.Close]: closes every rotator and forgets them; the flag is
    whether it returned nil. *)
Definition FileSink_Close (s : FileSink) : FileSink * bool :=
  (mkFileSink (fs_MaxSize s) (fs_MaxFiles s) None,
   bool_decide (map_Forall (λ _ r, (Close r).2 = true) (default ∅ (fs_rotators s)))).

(** ** Names *)

Lemma rotatedName_inj base n m : rotatedName base n = rotatedName base m → n = m.
Proof.
  unfold rotatedName. intros H. do 2 apply (inj (String.append _)) in H.
  apply string_app_inj_r in H. by apply (inj pretty) in H.
Qed.

Lemma active_ne_rotated base n : activeName base ≠ rotatedName base n.
Proof.
  unfold activeName, rotatedName. intros H. apply (inj (String.append base)) in H.
  apply (f_equal chars), (f_equal length) in H. rewrite !chars_app, !length_app in H. simpl in H. lia.
Qed.

(** ** What the directory holds for one base name *)

(** The active file is [a]; the rotated files are [l], newest first. *)
Definition holds (base : string) (d : dir) (a : bytes) (l : list bytes) : Prop :=
  d !! activeName base = Some a ∧
  ∀ n, d !! rotatedName base (N.of_nat (S n)) = l !! n.

(** A name that belongs to [base]. *)
Definition owned (base name : string) : Prop :=
  name = activeName base ∨ ∃ n, name = rotatedName base n.

(** The rotated files while the loop is at [i]: above [i+1] they are shifted,
    [i+1] is free, up to [i] they are as before. *)
Definition shifted (K i : nat) (l : list bytes) (n : nat) : option bytes :=
  if decide (n < i)%nat then l !! n
  else if decide (n = i) then None
  else if decide (n < K)%nat then l !! (n - 1)%nat else None.

Lemma shifted_gap K i l n : l !! i = None → shifted K (S i) l n = shifted K i l n.
Proof.
  intros E. unfold shifted. destruct (decide (n = i)) as [->|]; [|destruct (decide (n = S i)) as [->|]].
  - rewrite decide_True by lia. by rewrite decide_False by lia.
  - rewrite !decide_False by lia. rewrite Nat.sub_succ, Nat.sub_0_r, E. by case_decide.
  - repeat case_decide; done || lia.
Qed.

Lemma shift_files_spec opts K i l : ∀ d,
  ro_MaxFiles opts = Z.of_nat K + 1 → (i ≤ K)%nat →
  (∀ n, d !! rotatedName (ro_BaseName opts) (N.of_nat (S n)) = shifted K i l n) →
  ∃ d', shift_files NoFault opts i d = (d', None) ∧
  (∀ n, d' !! rotatedName (ro_BaseName opts) (N.of_nat (S n)) = shifted K 0 l n) ∧
  (∀ name, (∀ n, name ≠ rotatedName (ro_BaseName opts) n) → d' !! name = d !! name).
Proof.
  set (rot n := rotatedName (ro_BaseName opts) (N.of_nat (S n))).
  induction i as [|i IH]; intros d HM Hi Hd; [by exists d|]. cbn [shift_files].
  change (rotatedName (ro_BaseName opts) (N.of_nat (S i))) with (rot i).
  assert (∀ n m, rot n = rot m → n = m) as Hinj.
  { intros n m E%rotatedName_inj. lia. }
  pose proof (Hd i) as Hfi. unfold shifted in Hfi. rewrite decide_True in Hfi by lia.
  change (d !! rot i = l !! i) in Hfi. rewrite Hfi. destruct (l !! i) as [c|] eqn:Eli.
  2:{ apply IH; [done|lia|]. intros n. rewrite Hd. by apply shifted_gap. }
  destruct (Z.leb_spec (ro_MaxFiles opts) (Z.of_nat (S i) + 1)) as [Hlast|Hlast].
  - destruct (IH (delete (rot i) d)) as (d' & H1 & H2 & H3); [done|lia| |].
    { intros n. fold (rot n). destruct (decide (n = i)) as [->|Hne].
      - rewrite lookup_delete_eq. unfold shifted. repeat case_decide; try lia; done.
      - rewrite lookup_delete_ne by (intros E%Hinj; congruence). unfold rot. rewrite Hd.
        unfold shifted. repeat case_decide; try lia; done. }
    exists d'. split_and!; [done..|]. intros name Hname. rewrite H3 by done.
    rewrite lookup_delete_ne; [done|]. intros E. by apply (Hname (N.of_nat (S i))).
  - replace (N.of_nat (S i) + 1)%N with (N.of_nat (S (S i))) by lia. fold (rot (S i)).
    unfold rename. rewrite Hfi. destruct (IH (<[rot (S i) := c]> (delete (rot i) d)))
      as (d' & H1 & H2 & H3); [done|lia| |].
    { intros n. fold (rot n). destruct (decide (n = S i)) as [->|Hn1].
      { rewrite lookup_insert_eq. unfold shifted. repeat case_decide; try lia.
        by replace (S i - 1)%nat with i by lia. }
      rewrite lookup_insert_ne by (intros E%Hinj; congruence).
      destruct (decide (n = i)) as [->|Hne].
      { rewrite lookup_delete_eq. unfold shifted. repeat case_decide; try lia; done. }
      rewrite lookup_delete_ne by (intros E%Hinj; congruence). unfold rot. rewrite Hd.
      unfold shifted. repeat case_decide; try lia; done. }
    exists d'. split_and!; [done..|]. intros name Hname. rewrite H3 by done.
    rewrite lookup_insert_ne, lookup_delete_ne; [done|..].
    + intros E. by apply (Hname (N.of_nat (S i))).
    + intros E. by apply (Hname (N.of_nat (S (S i)))).
Qed.

(** How many rotated files a rotation keeps. *)
Definition keep (opts : RotatorOptions) : nat := Nat.max 1 (Z.to_nat (ro_MaxFiles opts - 1)).

Lemma shifted_all K l n : (length l ≤ K)%nat → shifted K K l n = l !! n.
Proof.
  intros Hl. unfold shifted. repeat case_decide; try done; symmetry; apply lookup_ge_None; lia.
Qed.

(** A rotation pushes the active file in front of the rotated ones. *)
Lemma rotateLocked_spec r d a l :
  rt_f r = RFOpen → 1 ≤ ro_MaxFiles (rt_opts r) → (length l ≤ keep (rt_opts r))%nat →
  holds (ro_BaseName (rt_opts r)) d a l →
  ∃ d', rotateLocked NoFault r d = (d', mkRotator (rt_opts r) RFOpen 0, None) ∧
  holds (ro_BaseName (rt_opts r)) d' [] (take (keep (rt_opts r)) (a :: l)).
Proof.
  intros Hf HM Hl [Ha Hrot]. unfold rotateLocked. rewrite Hf. set (opts := rt_opts r) in *.
  set (base := ro_BaseName opts) in *. set (K := Z.to_nat (ro_MaxFiles opts - 1)) in *.
  assert (∃ d1, shift_files NoFault opts K d = (d1, None) ∧ d1 !! activeName base = Some a ∧
    ∀ n, d1 !! rotatedName base (N.of_nat (S (S n))) = take (keep opts - 1) l !! n)
    as (d1 & -> & Ha1 & Hd1).
  { unfold keep in Hl |- *. fold K in Hl |- *. destruct (decide (K = 0)%nat) as [E|E].
    - rewrite E in *. exists d. split_and!; [done..|]. intros n. rewrite Hrot. simpl.
      apply lookup_ge_None. simpl in Hl. lia.
    - destruct (shift_files_spec opts K K l d) as (d1 & H1 & H2 & H3); [unfold K; lia|done| |].
      { intros n. rewrite shifted_all by lia. apply Hrot. }
      exists d1. split_and!; [done|by rewrite H3 by (intros; apply active_ne_rotated)|].
      intros n. unfold base. rewrite H2. unfold shifted. repeat case_decide; try lia.
      + rewrite lookup_take_lt by lia. f_equal. lia.
      + symmetry. apply lookup_ge_None. rewrite length_take. lia. }
  unfold rename. rewrite Ha1. unfold openActive.
  rewrite lookup_insert_ne, lookup_delete_eq by (intros E; by apply (active_ne_rotated base 1)).
  eexists. split; [done|]. split; [by rewrite lookup_insert_eq|].
  intros n. rewrite lookup_insert_ne by apply active_ne_rotated.
  destruct n as [|n].
  - rewrite lookup_insert_eq. unfold keep. destruct (Nat.max 1 _) eqn:E; [lia|]. done.
  - rewrite lookup_insert_ne by (intros E%rotatedName_inj; lia).
    rewrite lookup_delete_ne by apply active_ne_rotated.
    rewrite Hd1. destruct (keep opts) eqn:E; [unfold keep in E; lia|]. simpl. by rewrite Nat.sub_0_r.
Qed.

(** The log as an abstract value: the active file and the older ones. *)
Definition abs_write (opts : RotatorOptions) (st : bytes * list bytes) (p : bytes)
    : bytes * list bytes :=
  let '(a, l) := st in
  if ro_MaxSize opts <? Z.of_nat (length a) + Z.of_nat (length p)
  then (p, take (keep opts) (a :: l)) else (a ++ p, l).

(** The rotator and the directory represent the abstract log. *)
Definition represents (opts : RotatorOptions) (r : FileRotator) (d : dir) (st : bytes * list bytes) : Prop :=
  rt_opts r = opts ∧ rt_f r = RFOpen ∧ rt_size r = Z.of_nat (length st.1) ∧
  1 ≤ ro_MaxFiles opts ∧ (length st.2 ≤ keep opts)%nat ∧ holds (ro_BaseName opts) d st.1 st.2.

Lemma holds_append base d a l p :
  holds base d a l → holds base (<[activeName base := a ++ p]> d) (a ++ p) l.
Proof.
  intros [Ha Hl]. split; [apply lookup_insert_eq|].
  intros n. by rewrite lookup_insert_ne by apply active_ne_rotated.
Qed.

Lemma Write_spec opts r d st p :
  represents opts r d st →
  ∃ d' r', Write NoFault None r d p = (d', r', length p, None) ∧
           represents opts r' d' (abs_write opts st p).
Proof.
  destruct st as [a l]. intros (<- & Hf & Hs & HM & Hl & Hh). simpl in *. unfold Write.
  rewrite Hs. set (opts := rt_opts r) in *.
  destruct (ro_MaxSize opts <? Z.of_nat (length a) + Z.of_nat (length p)) eqn:E.
  - destruct (rotateLocked_spec r d a l Hf HM Hl Hh) as (d1 & -> & Hh1).
    cbn [rt_f rt_opts default]. rewrite (proj1 Hh1), Nat.min_id, Nat.ltb_irrefl, firstn_all.
    simpl. do 2 eexists. split; [done|]. unfold represents. simpl. split_and!; try done.
    + fold opts. rewrite length_take. simpl. lia.
    + by apply (holds_append _ _ []).
  - rewrite Hf. cbn [default]. fold opts. rewrite (proj1 Hh), Nat.min_id, Nat.ltb_irrefl, firstn_all.
    simpl. do 2 eexists. split; [done|]. unfold represents. simpl. rewrite length_app. split_and!; try done.
    + lia.
    + by apply holds_append.
Qed.

(** [Write] on each of a list of chunks; [None] if one of them fails. *)
Fixpoint write_all (r : FileRotator) (d : dir) (ps : list bytes) : option (dir * FileRotator) :=
  match ps with
  | [] => Some (d, r)
  | p :: ps' => match Write NoFault None r d p with
                | (d', r', _, None) => write_all r' d' ps'
                | _ => None
                end
  end.

Lemma write_all_spec opts ps : ∀ r d st,
  represents opts r d st →
  ∃ d' r', write_all r d ps = Some (d', r') ∧ represents opts r' d' (foldl (abs_write opts) st ps).
Proof.
  induction ps as [|p ps IH]; intros r d st H; [by eauto|]. cbn [write_all foldl].
  destruct (Write_spec opts r d st p H) as (d' & r' & -> & H'). by apply IH.
Qed.

(** Abstract runs: the files hold a suffix of what was written, all of it
    until the numbered files are full and the last write always, and no file is
    larger than the cap unless it is one single chunk. *)
Definition abs_ok (opts : RotatorOptions) (hist : list bytes) (st : bytes * list bytes) : Prop :=
  concat (reverse st.2) ++ st.1 `suffix_of` concat hist ∧
  ((length st.2 < keep opts)%nat → concat (reverse st.2) ++ st.1 = concat hist) ∧
  (∀ p, last hist = Some p → p `suffix_of` st.1) ∧
  Forall (λ f, Z.of_nat (length f) ≤ Z.max 0 (ro_MaxSize opts) ∨ f ∈ hist) (st.1 :: st.2).

Lemma abs_write_ok opts hist st p :
  abs_ok opts hist st → abs_ok opts (hist ++ [p]) (abs_write opts st p).
Proof.
  destruct st as [a l]. intros ([k Hk] & Hfull & _ & Hf). simpl in *.
  assert (concat (hist ++ [p]) = concat hist ++ p) as Hc by (rewrite concat_app; simpl; by rewrite app_nil_r).
  assert (Forall (λ f, Z.of_nat (length f) ≤ Z.max 0 (ro_MaxSize opts) ∨ f ∈ hist ++ [p]) (a :: l)) as Hf'.
  { eapply Forall_impl; [exact Hf|]. simpl. set_solver. }
  unfold abs_write. destruct (Z.ltb_spec (ro_MaxSize opts) (Z.of_nat (length a) + Z.of_nat (length p))).
  - split; [|split; [|split]]; cbn [fst snd].
    + rewrite Hc. apply suffix_app. exists (k ++ concat (reverse (drop (keep opts) (a :: l)))).
      rewrite <- (assoc_L (++)), <- concat_app, <- reverse_app, take_drop, Hk, reverse_cons, concat_app.
      simpl. by rewrite app_nil_r.
    + intros Hl. rewrite length_take in Hl. simpl length in Hl.
      rewrite take_ge by (simpl; lia). rewrite reverse_cons, concat_app, Hc. simpl. rewrite app_nil_r.
      by rewrite Hfull by lia.
    + intros q. rewrite last_snoc. by intros [= <-].
    + constructor; [right; set_solver|]. by apply Forall_take.
  - split; [|split; [|split]]; simpl.
    + rewrite Hc, (assoc_L (++)). apply suffix_app. by exists k.
    + intros Hl. by rewrite Hc, (assoc_L (++)), Hfull.
    + intros q. rewrite last_snoc. intros [= <-]. by exists a.
    + inversion Hf'; subst. constructor; [|done]. left. rewrite length_app. lia.
Qed.

Lemma abs_writes_ok opts ps : ∀ hist st,
  abs_ok opts hist st → abs_ok opts (hist ++ ps) (foldl (abs_write opts) st ps).
Proof.
  induction ps as [|p ps IH]; intros hist st H; [by rewrite app_nil_r|].
  rewrite cons_middle, (assoc_L (++)). by apply IH, abs_write_ok.
Qed.

(** ** Names of different streams *)

Lemma validID_no_dot p : validID p = true → "."%char ∉ chars p.
Proof. rewrite validID_spec. intros [_ H] Hin. by apply H in Hin. Qed.

(** The bytes of an owned name: identifier, dot, stream number, dot, rest;
    the rest has a dot exactly when the name is a rotated one. *)
Lemma owned_chars p s name :
  owned (base_of p s) name →
  ∃ rest, chars name = chars p ++ "."%char :: chars (pretty (Z.to_N s)) ++ "."%char :: rest.
Proof.
  unfold owned, base_of, activeName, rotatedName. intros [->|[n ->]]; rewrite !chars_app;
    rewrite <- !(assoc_L (++)); eauto.
Qed.

Lemma owned_unique p s p' s' name :
  validID p = true → validID p' = true → in_u 8 s → in_u 8 s' →
  owned (base_of p s) name → owned (base_of p' s') name → p = p' ∧ s = s'.
Proof.
  intros Hp Hp' Hs Hs' [r H]%owned_chars [r' H']%owned_chars. rewrite H in H'.
  apply split_first in H' as [Ep E]; [|by apply validID_no_dot..].
  apply split_first in E as [Es _]; [|by apply pretty_N_no_char..].
  split; [by apply (inj chars)|]. apply (inj chars), (inj pretty) in Es. unfold in_u in *. lia.
Qed.

(** Writing to a closed sink assigns to its nil map. *)
Lemma file_sink_write_after_close fault room s d e :
  le_Data e ≠ [] →
  (FileSink_Write fault room (FileSink_Close s).1 d e).2 = Some ErrNilMap.
Proof.
  intros Hd. unfold FileSink_Write. rewrite (proj2 (Nat.eqb_neq _ _)) by (by destruct (le_Data e)).
  cbn [FileSink_Close fst fs_rotators default]. unfold NewFileRotator. simpl. done.
Qed.

(** ** Properties *)

(** C32: rotation keeps the newest bytes.  From a directory without files of
    the base name, every write succeeds when no system call fails, and after
    any writes the directory holds an active file and numbered files which, from
    the oldest to the active one, are a suffix of all bytes written: everything
    until the numbered files are full, and always the last write.  There are at
    most [MaxFiles] files in all when [MaxFiles] is at least two; when it is one
    there can be two, an active and a numbered one.  A file is larger than
    [MaxSize] only if it is exactly one write that is itself larger. *)
Theorem rotator_keeps_suffix (opts : RotatorOptions) (d0 : dir) (ps : list bytes)
    (Hfresh : ∀ name, owned (ro_BaseName opts) name → d0 !! name = None)
    (Hsize : 0 < ro_MaxSize opts) (Hfiles : 0 < ro_MaxFiles opts) :
  ∃ d1 r1 d r a l,
    NewFileRotator true true opts d0 = (d1, Ok r1) ∧
    write_all r1 d1 ps = Some (d, r) ∧
    holds (ro_BaseName opts) d a l ∧
    (let numbered := Nat.max 1 (Z.to_nat (ro_MaxFiles opts - 1)) in
     (length l ≤ numbered)%nat ∧
     (2 ≤ ro_MaxFiles opts → Z.of_nat (S (length l)) ≤ ro_MaxFiles opts) ∧
     ((length l < numbered)%nat → concat (reverse l) ++ a = concat ps)) ∧
    concat (reverse l) ++ a `suffix_of` concat ps ∧
    (∀ p, last ps = Some p → p `suffix_of` a) ∧
    Forall (λ f, Z.of_nat (length f) ≤ ro_MaxSize opts ∨ f ∈ ps) (a :: l).
Proof.
  unfold NewFileRotator. rewrite !(proj2 (Z.leb_gt _ _)) by lia. cbn [negb].
  assert (mkRotOpts (ro_BaseName opts) (ro_MaxSize opts) (ro_MaxFiles opts) = opts) as -> by by destruct opts.
  unfold openActive. rewrite Hfresh by by left. rewrite lookup_insert_eq. simpl.
  set (d1 := <[activeName (ro_BaseName opts) := []]> d0).
  destruct (write_all_spec opts ps (mkRotator opts RFOpen 0) d1 ([], [])) as (d & r & Hw & Hr).
  { unfold represents. simpl. split_and!; try done; [lia|lia|]. split; [apply lookup_insert_eq|].
    intros n. unfold d1. rewrite lookup_insert_ne by apply active_ne_rotated. apply Hfresh. right. eauto. }
  destruct (abs_writes_ok opts ps [] ([], [])) as (H1 & H3 & H4 & H2).
  { split; [by exists []|]. split; [done|]. split; [done|]. repeat constructor. simpl. lia. }
  destruct (foldl (abs_write opts) ([], []) ps) as [a l]. simpl in *.
  destruct Hr as (_ & _ & _ & _ & Hl & Hh). exists d1, (mkRotator opts RFOpen 0), d, r, a, l.
  unfold keep in *. simpl in Hl. split_and!; try done; [lia|]. rewrite Z.max_r in H2 by lia. done.
Qed.

(** With [MaxFiles] = 1 the rotator keeps a second file. *)
Example one_file_is_two :
  (λ x, (x.1 !! activeName "p.0", x.1 !! rotatedName "p.0" 1)) <$>
    write_all (mkRotator (mkRotOpts "p.0" 1 1) RFOpen 0) {[ activeName "p.0" := [] ]} [[x61]; [x62]; [x63]] =
  Some (Some [x63], Some [x62]).
Proof. vm_compute. reflexivity. Qed.

Lemma rotator_keeps_suffix_witness :
  ∃ d1 r1 d r a l,
    NewFileRotator true true (mkRotOpts "p.0" 3 2) ∅ = (d1, Ok r1) ∧
    write_all r1 d1 [[x61; x62]; [x63; x64]; [x65; x66]] = Some (d, r) ∧
    holds "p.0" d a l ∧
    ((length l ≤ 1)%nat ∧ (2 ≤ 2 → Z.of_nat (S (length l)) ≤ 2) ∧
     ((length l < 1)%nat → concat (reverse l) ++ a = [x61; x62; x63; x64; x65; x66])) ∧
    concat (reverse l) ++ a `suffix_of` [x61; x62; x63; x64; x65; x66] ∧
    (∀ p, last [[x61; x62]; [x63; x64]; [x65; x66]] = Some p → p `suffix_of` a) ∧
    Forall (λ f, Z.of_nat (length f) ≤ 3 ∨ f ∈ [[x61; x62]; [x63; x64]; [x65; x66]]) (a :: l).
Proof.
  refine (rotator_keeps_suffix (mkRotOpts "p.0" 3 2) ∅ [[x61; x62]; [x63; x64]; [x65; x66]] _ _ _);
    [intros; apply lookup_empty|simpl; lia..].
Defined.

(** Log files of different streams never collide.  For identifiers that
    pass validation, no file name, active or rotated, belongs to two
    different (process, stream) pairs. *)
Theorem log_file_names_disjoint (p p' : string) (s s' : Z) (name : string)
    (Hp : validID p = true) (Hp' : validID p' = true) (Hs : in_u 8 s) (Hs' : in_u 8 s')
    (Hown : owned (base_of p s) name) (Hown' : owned (base_of p' s') name) :
  p = p' ∧ s = s'.
Proof. by eapply owned_unique. Qed.

Lemma log_file_names_disjoint_witness :
  owned (base_of "a-1" 0) "a-1.0.12.log" ∧ ("a-1" = "a-1" ∧ 0 = 0)%string.
Proof.
  assert (owned (base_of "a-1" 0) "a-1.0.12.log") as H by (right; exists 12%N; reflexivity).
  split; [exact H|].
  exact (log_file_names_disjoint "a-1" "a-1" 0 0 "a-1.0.12.log" eq_refl eq_refl
    ltac:(split; lia) ltac:(split; lia) H H).
Defined.
