(* ===== verification/ManagerLogs.v ===== *)
(** * The manager's log pipeline: pkg/cliwrap/manager_logs.go

    Every chunk of output goes into the collector and then to the channels of
    the registered watchers.  [emitLogChunk] takes its list of watchers under
    the lock and sends after releasing it, so it is three kinds of steps: the
    write, the snapshot, and one non-blocking send per watcher.  A process's
    chunks come from the read loop of its connection, one after the other;
    those of different processes, registrations and receivers interleave
    freely.  Watchers are addresses in a store, since the registry and running
    emissions share them. *)

From S2P Require Import Prelude Text CwTypes LogCollect Rotator.

(** ** The file sink behind the interface [Sink] *)

(** The sink with its directory; [fk_answers]: what the system answers to its
    next writes (no fault once the list is used up). *)
Record file_sink := mkFS {
  fk_sink : FileSink; fk_dir : dir; fk_answers : list (rot_fault * option nat) }.

#[export] Instance file_sink_Sink : Sink file_sink := {|
  sink_write s e :=
    let '(fault, room) := default (NoFault, None) (head (fk_answers s)) in
    let '(d, k, err) := FileSink_Write fault room (fk_sink s) (fk_dir s) e in
    (mkFS k d (tail (fk_answers s)), match err with None => true | Some _ => false end);
  sink_close s :=
    let '(k, ok) := FileSink_Close (fk_sink s) in (mkFS k (fk_dir s) (fk_answers s), ok)
|}.

(** ** State *)

Definition DefaultLogRingBufferBytes : Z := Z.shiftl 1 20.
Definition watchBuffer : nat := 256.

(** What the options of [NewManager] set for the pipeline. *)
Record logSettings := mkLogSettings {
  lo_ringBufferBytes : Z; lo_fileDir : string; lo_maxSize : Z; lo_maxFiles : Z }.

Definition WithLogRingBufferBytes (n : Z) (o : logSettings) : logSettings :=
  mkLogSettings n (lo_fileDir o) (lo_maxSize o) (lo_maxFiles o).
Definition WithLogFileDir (d : string) (o : logSettings) : logSettings :=
  mkLogSettings (lo_ringBufferBytes o) d (lo_maxSize o) (lo_maxFiles o).
Definition WithLogFileRotation (maxSize maxFiles : Z) (o : logSettings) : logSettings :=
  mkLogSettings (lo_ringBufferBytes o) (lo_fileDir o) maxSize maxFiles.

Record logWatcher := mkWatcher { lw_processID : string; lw_ch : list LogChunk; lw_closed : bool }.

(** A running [emitLogChunk]: its chunk and the watchers it still has to send
    to, [None] before it has taken the list. *)
Record emission := mkEmission { em_chunk : LogChunk; em_active : option (list nat) }.

(** [ml_emits]: by process.  After a panic nothing runs. *)
Record managerLogs := mkLogs {
  ml_collector : option (Collector file_sink);
  ml_store : list logWatcher;
  ml_watchers : list nat;
  ml_emits : gmap string emission;
  ml_panic : bool }.

Definition zero_logs : managerLogs := mkLogs None [] [] ∅ false.

Definition set_emits (s : managerLogs) (es : gmap string emission) : managerLogs :=
  mkLogs (ml_collector s) (ml_store s) (ml_watchers s) es (ml_panic s).
Definition set_watcher (s : managerLogs) (a : nat) (w : logWatcher) : managerLogs :=
  mkLogs (ml_collector s) (<[a := w]> (ml_store s)) (ml_watchers s) (ml_emits s) (ml_panic s).

(** ** Operations *)

(** [ensureCollector]: what the [sync.Once] builds the first time. *)
Definition new_collector (o : logSettings) (d : dir) : Collector file_sink :=
  let capacity := if lo_ringBufferBytes o <=? 0 then DefaultLogRingBufferBytes else lo_ringBufferBytes o in
  NewCollector capacity
    (if String.eqb (lo_fileDir o) "" then []
     else [mkFS (NewFileSink (lo_maxSize o) (lo_maxFiles o)) d []]).

Definition ensureCollector (o : logSettings) (d : dir) (s : managerLogs) : managerLogs * Collector file_sink :=
  match ml_collector s with
  | Some c => (s, c)
  | None =>
      let c := new_collector o d in
      (mkLogs (Some c) (ml_store s) (ml_watchers s) (ml_emits s) (ml_panic s), c)
  end.

Definition watches (f processID : string) : bool := String.eqb f "" || String.eqb f processID.

(** The watchers an emission for [processID] takes. *)
Definition is_active (s : managerLogs) (processID : string) (a : nat) : bool :=
  match ml_store s !! a with Some w => watches (lw_processID w) processID | None => false end.
Definition active_watchers (s : managerLogs) (processID : string) : list nat :=
  filter (λ a, is_active s processID a = true) (ml_watchers s).

(** [emitLogChunk] up to the read lock. *)
Definition emit_write (o : logSettings) (d : dir) (now : Z) (processID : string) (stream : Z) (data : bytes)
    (s : managerLogs) : managerLogs :=
  if (length data =? 0)%nat then s
  else match ml_emits s !! processID with
  | Some _ => s
  | None =>
      let '(s1, c) := ensureCollector o d s in
      mkLogs (Some (Collector_Write now c (mkEntry processID stream 0 now data)))
        (ml_store s1) (ml_watchers s1)
        (<[processID := mkEmission (mkChunk processID stream data) None]> (ml_emits s1)) (ml_panic s1)
  end.

Inductive log_event :=
| LWatched (a : nat) (processID : string)
| LSnap (c : LogChunk) (active : list nat)
| LSent (a : nat) (c : LogChunk)
| LDropped (a : nat) (c : LogChunk)
| LReceived (a : nat) (c : LogChunk).

(** The section under the read lock. *)
Definition emit_snapshot (processID : string) (s : managerLogs) : managerLogs * list log_event :=
  match ml_emits s !! processID with
  | Some (mkEmission c None) =>
      let active := active_watchers s processID in
      (set_emits s (if (length active =? 0)%nat then delete processID (ml_emits s)
                    else <[processID := mkEmission c (Some active)]> (ml_emits s)),
       [LSnap c active])
  | _ => (s, [])
  end.

(** One turn of the send loop. *)
Definition emit_send (processID : string) (s : managerLogs) : managerLogs * list log_event :=
  match ml_emits s !! processID with
  | Some (mkEmission c (Some (a :: rest))) =>
      match ml_store s !! a with
      | None => (s, [])
      | Some w =>
          let es := match rest with
                    | [] => delete processID (ml_emits s)
                    | _ => <[processID := mkEmission c (Some rest)]> (ml_emits s)
                    end in
          if lw_closed w
          then (mkLogs (ml_collector s) (ml_store s) (ml_watchers s) (ml_emits s) true, [])
          else if (length (lw_ch w) <? watchBuffer)%nat
          then (set_emits (set_watcher s a (mkWatcher (lw_processID w) (lw_ch w ++ [c]) false)) es, [LSent a c])
          else (set_emits s es, [LDropped a c])
      end
  | _ => (s, [])
  end.

Definition WatchLogs (processID : string) (s : managerLogs) : managerLogs * nat :=
  let a := length (ml_store s) in
  (mkLogs (ml_collector s) (ml_store s ++ [mkWatcher processID [] false]) (ml_watchers s ++ [a])
     (ml_emits s) (ml_panic s), a).

Definition close_watcher (w : logWatcher) : logWatcher := mkWatcher (lw_processID w) (lw_ch w) true.

(** The function [WatchLogs] returns: removes and closes the watcher if it is
    still registered. *)
Definition unregister (a : nat) (s : managerLogs) : managerLogs :=
  match list_find (λ x, x = a) (ml_watchers s) with
  | Some (i, _) =>
      mkLogs (ml_collector s) (alter close_watcher a (ml_store s)) (delete i (ml_watchers s)) (ml_emits s) (ml_panic s)
  | None => s
  end.

Definition closeLogWatchers (s : managerLogs) : managerLogs :=
  mkLogs (ml_collector s) (foldr (λ a st, alter close_watcher a st) (ml_store s) (ml_watchers s)) []
    (ml_emits s) (ml_panic s).

(** The consumer of channel [a] receives. *)
Definition watch_recv (a : nat) (s : managerLogs) : managerLogs * list log_event :=
  match ml_store s !! a with
  | Some (mkWatcher f (c :: q) cl) => (set_watcher s a (mkWatcher f q cl), [LReceived a c])
  | _ => (s, [])
  end.

Definition logsSnapshotImpl (o : logSettings) (d : dir) (processID : string) (stream : Z) (s : managerLogs)
    : managerLogs * bytes :=
  let '(s1, c) := ensureCollector o d s in (s1, Collector_Snapshot c processID stream).

Definition logsSnapshotFilteredImpl (o : logSettings) (d : dir) (processID : string) (stream since lines : Z)
    (s : managerLogs) : managerLogs * option bytes :=
  let '(s1, c) := ensureCollector o d s in (s1, Collector_SnapshotFiltered c processID stream since lines).

(** [emitLogChunk] with nothing in between. *)
Definition emitLogChunk (o : logSettings) (d : dir) (now : Z) (processID : string) (stream : Z) (data : bytes)
    (s : managerLogs) : managerLogs * list log_event :=
  let s1 := emit_write o d now processID stream data s in
  let '(s2, e2) := emit_snapshot processID s1 in
  let '(s3, e3) := run_trace (λ s (_ : nat), emit_send processID s) s2 (active_watchers s1 processID) in
  (s3, e2 ++ e3).

(** ** Steps *)

Section Steps.
Context (o : logSettings) (d : dir).

Inductive log_op :=
| OpWrite (now : Z) (processID : string) (stream : Z) (data : bytes)
| OpSnapshot (processID : string)
| OpSend (processID : string)
| OpWatch (processID : string)
| OpUnregister (a : nat)
| OpCloseWatchers
| OpRecv (a : nat).

Definition log_step (s : managerLogs) (op : log_op) : managerLogs * list log_event :=
  if ml_panic s then (s, []) else
  match op with
  | OpWrite now p st data => (emit_write o d now p st data s, [])
  | OpSnapshot p => emit_snapshot p s
  | OpSend p => emit_send p s
  | OpWatch p => let '(s', a) := WatchLogs p s in (s', [LWatched a p])
  | OpUnregister a => (unregister a s, [])
  | OpCloseWatchers => (closeLogWatchers s, [])
  | OpRecv a => watch_recv a s
  end.
End Steps.

(** ** What the events say *)

#[global] Instance LogChunk_eq_dec : EqDecision LogChunk.
Proof. solve_decision. Defined.

Definition sent_to (a : nat) (e : log_event) : option LogChunk :=
  match e with LSent b c => if decide (a = b) then Some c else None | _ => None end.
Definition received_by (a : nat) (e : log_event) : option LogChunk :=
  match e with LReceived b c => if decide (a = b) then Some c else None | _ => None end.
(** Chunks of process [p] taken for watcher [a], with what became of them. *)
Definition outcome_at (a : nat) (p : string) (e : log_event) : option (LogChunk * bool) :=
  match e with
  | LSent b c => if decide (a = b ∧ chunk_ProcessID c = p) then Some (c, true) else None
  | LDropped b c => if decide (a = b ∧ chunk_ProcessID c = p) then Some (c, false) else None
  | _ => None
  end.
Definition emitted_by (p : string) (e : log_event) : option LogChunk :=
  match e with LSnap c _ => if decide (chunk_ProcessID c = p) then Some c else None | _ => None end.
Definition taken_for (a : nat) (p : string) (e : log_event) : option LogChunk :=
  match e with LSnap c act => if decide (a ∈ act ∧ chunk_ProcessID c = p) then Some c else None | _ => None end.

(** The events after the registration of watcher [a]. *)
Fixpoint since_watch (a : nat) (evs : list log_event) : option (list log_event) :=
  match evs with
  | [] => None
  | LWatched b f :: evs' => if decide (a = b) then Some evs' else since_watch a evs'
  | _ :: evs' => since_watch a evs'
  end.

(** The chunk an emission of [p] still has to send to [a]. *)
Definition in_flight (s : managerLogs) (a : nat) (p : string) : list LogChunk :=
  match ml_emits s !! p with
  | Some (mkEmission c (Some act)) => if decide (a ∈ act) then [c] else []
  | _ => []
  end.

(** ** Invariant *)

Record logs_inv (s : managerLogs) (evs : list log_event) : Prop := mkLogsInv {
  li_nodup : NoDup (ml_watchers s);
  li_open : ∀ a w, ml_store s !! a = Some w → lw_closed w = false ↔ a ∈ ml_watchers s;
  li_range : ∀ a, a ∈ ml_watchers s → (a < length (ml_store s))%nat;
  li_cap : ∀ a w, ml_store s !! a = Some w → (length (lw_ch w) ≤ watchBuffer)%nat;
  li_queue : ∀ a w, ml_store s !! a = Some w →
    omap (received_by a) evs ++ lw_ch w = omap (sent_to a) evs;
  li_emit : ∀ p c act, ml_emits s !! p = Some (mkEmission c act) →
    chunk_ProcessID c = p ∧
    ∀ l, act = Some l → l ≠ [] ∧ NoDup l ∧ Forall (λ a, (a < length (ml_store s))%nat) l;
  li_taken : ∀ a p, omap (taken_for a p) evs = (omap (outcome_at a p) evs).*1 ++ in_flight s a p;
  li_fresh : ∀ a p, (length (ml_store s) ≤ a)%nat → omap (taken_for a p) evs = [] ∧ since_watch a evs = None;
  li_new : ∀ a, (length (ml_store s) ≤ a)%nat → omap (sent_to a) evs = [] ∧ omap (received_by a) evs = [];
  li_since : ∀ a w, a ∈ ml_watchers s → ml_store s !! a = Some w →
    ∃ l, since_watch a evs = Some l ∧
    ∀ p, omap (taken_for a p) evs = if watches (lw_processID w) p then omap (emitted_by p) l else [];
  li_drop : ∀ a c, LDropped a c ∈ evs → (watchBuffer ≤ length (omap (sent_to a) evs))%nat
}.

Lemma since_watch_app a evs k :
  since_watch a (evs ++ k) =
  match since_watch a evs with Some l => Some (l ++ k) | None => since_watch a k end.
Proof. induction evs as [|[] evs IH]; simpl; repeat case_decide; auto. Qed.

Lemma zero_logs_inv : logs_inv zero_logs [].
Proof. split; try done; try (intros; set_solver). constructor. Qed.

Lemma in_flight_eq s s' a p : ml_emits s' !! p = ml_emits s !! p → in_flight s' a p = in_flight s a p.
Proof. unfold in_flight. by intros ->. Qed.

Ltac omap_nil :=
  rewrite ?omap_app; cbn [omap list_omap taken_for outcome_at emitted_by sent_to received_by]; rewrite ?app_nil_r.

(** A step that emits nothing and touches neither channels nor watchers. *)
Lemma logs_write_inv o d now p st data s evs :
  logs_inv s evs → logs_inv (emit_write o d now p st data s) evs.
Proof.
  intros [Hnd Ho Hr Hc Hq He Ht Hf Hn Hs Hd]. unfold emit_write.
  case_match; [by split|]. destruct (ml_emits s !! p) eqn:Ep; [by split|].
  unfold ensureCollector. destruct (ml_collector s) as [col|]; simpl; split; try done; simpl.
  all: try (intros q c act; destruct (decide (p = q)) as [<-|];
    [rewrite lookup_insert_eq; intros [= <- <-]; done | rewrite lookup_insert_ne by done; apply He]).
  all: intros a q; rewrite Ht; f_equal; unfold in_flight; simpl;
    destruct (decide (p = q)) as [<-|];
    [by rewrite lookup_insert_eq, Ep | by rewrite lookup_insert_ne].
Qed.

Lemma elem_of_active s p a :
  a ∈ active_watchers s p ↔ is_active s p a = true ∧ a ∈ ml_watchers s.
Proof. unfold active_watchers. by rewrite list_elem_of_filter. Qed.

Lemma snapshot_inv p s evs :
  logs_inv s evs → logs_inv (emit_snapshot p s).1 (evs ++ (emit_snapshot p s).2).
Proof.
  intros [Hnd Ho Hr Hc Hq He Ht Hf Hn Hs Hd]. unfold emit_snapshot.
  destruct (ml_emits s !! p) as [[c [act|]]|] eqn:Ep; simpl; try (rewrite app_nil_r; by split).
  destruct (He p c None Ep) as [Hp _]. set (act := active_watchers s p).
  assert (Forall (λ a, (a < length (ml_store s))%nat) act) as Hact.
  { apply Forall_forall. intros a Ha%elem_of_active. apply Hr. tauto. }
  split; simpl; try done.
  - intros a w Hw. omap_nil. auto.
  - intros q c' act'. destruct (length act =? 0)%nat eqn:El.
    + destruct (decide (p = q)) as [<-|]; [by rewrite lookup_delete_eq|rewrite lookup_delete_ne by done; apply He].
    + destruct (decide (p = q)) as [<-|]; [|rewrite lookup_insert_ne by done; apply He].
      rewrite lookup_insert_eq. intros [= <- <-]. split; [done|]. intros l [= <-]. split_and!; [|by apply NoDup_filter|done].
      apply Nat.eqb_neq in El. by destruct act.
  - intros a q. omap_nil.
    rewrite Ht, Hp. rewrite <- app_assoc. f_equal.
    unfold in_flight; simpl. destruct (decide (p = q)) as [<-|Hne].
    + rewrite Ep. simpl. destruct (length act =? 0)%nat eqn:El.
      *
       rewrite lookup_delete_eq. apply Nat.eqb_eq, nil_length_inv in El. rewrite decide_False; [done|].
        rewrite El. set_solver.
      * rewrite lookup_insert_eq. unfold act. repeat case_decide; try done; tauto.
    + rewrite (decide_False (P := a ∈ _ ∧ p = q)) by tauto. rewrite app_nil_r.
      destruct (length act =? 0)%nat; [by rewrite lookup_delete_ne|by rewrite lookup_insert_ne].
  - intros a q Ha. omap_nil. destruct (Hf a q Ha) as [-> Hsw]. rewrite since_watch_app, Hsw. simpl. split; [|done].
    rewrite decide_False; [done|]. intros [Hin _]. rewrite Forall_forall in Hact.
    apply Hact in Hin. lia.
  - intros a Ha. omap_nil. auto.
  - intros a w Ha Hw. destruct (Hs a w Ha Hw) as (l & Hl & Hq'). exists (l ++ [LSnap c act]).
    rewrite since_watch_app, Hl. split; [done|]. intros q. omap_nil. rewrite Hq'.
    unfold act. rewrite Hp. destruct (watches (lw_processID w) q) eqn:Ew.
    + f_equal. destruct (decide (p = q)) as [->|].
      * rewrite decide_True; [done|]. rewrite elem_of_active. unfold is_active. rewrite Hw. done.
      * by rewrite decide_False by tauto.
    + simpl. rewrite decide_False; [done|]. rewrite elem_of_active. unfold is_active. rewrite Hw.
      intros [[? _] ->]. congruence.
  - intros a c' [Hin|Hin]%elem_of_app; [|set_solver]. omap_nil. eauto.
Qed.

(** One send of an emission of [p]: the chunk [c] goes to watcher [a], [rest]
    is still to do; [ev] says whether it was taken or dropped. *)
Section Send.
Context (p : string) (s : managerLogs) (evs : list log_event) (c : LogChunk) (a : nat) (rest : list nat).
Context (Hinv : logs_inv s evs) (Ep : ml_emits s !! p = Some (mkEmission c (Some (a :: rest)))).
Definition emits_left : gmap string emission :=
  match rest with [] => delete p (ml_emits s) | _ => <[p := mkEmission c (Some rest)]> (ml_emits s) end.
Context (ev : log_event) (Hev : ev = LSent a c ∨ ev = LDropped a c).

Lemma emits_left_other q : q ≠ p → emits_left !! q = ml_emits s !! q.
Proof. intros Hq. unfold emits_left. destruct rest; [by rewrite lookup_delete_ne|by rewrite lookup_insert_ne]. Qed.

Lemma send_head : chunk_ProcessID c = p ∧ a ∉ rest ∧ NoDup rest ∧ Forall (λ a, (a < length (ml_store s))%nat) (a :: rest).
Proof.
  destruct (li_emit _ _ Hinv p c _ Ep) as [Hp Hl].
  destruct (Hl _ eq_refl) as (_ & [Hni Hnd]%NoDup_cons & Hr). done.
Qed.

Lemma send_emit q c' act : emits_left !! q = Some (mkEmission c' act) → chunk_ProcessID c' = q ∧
  ∀ l, act = Some l → l ≠ [] ∧ NoDup l ∧ Forall (λ a, (a < length (ml_store s))%nat) l.
Proof.
  destruct send_head as (Hp & _ & Hndr & [_ Hrest]%Forall_cons).
  destruct (decide (q = p)) as [->|Hne]; [|rewrite emits_left_other by done; apply (li_emit _ _ Hinv)].
  unfold emits_left. destruct rest as [|x r]; [by rewrite lookup_delete_eq|].
  rewrite lookup_insert_eq. intros [= <- <-]. split; [done|]. intros l [= <-]. done.
Qed.

Lemma send_in_flight b st :
  in_flight s b p = (if decide (a = b) then [c] else []) ++
    in_flight (mkLogs (ml_collector s) st (ml_watchers s) emits_left (ml_panic s)) b p.
Proof.
  destruct send_head as (_ & Hni & _). unfold in_flight; simpl. rewrite Ep. unfold emits_left.
  destruct rest as [|x r]; [rewrite lookup_delete_eq | rewrite lookup_insert_eq]; repeat case_decide; try done; set_solver.
Qed.

Lemma send_taken st b q : omap (taken_for b q) (evs ++ [ev]) = (omap (outcome_at b q) (evs ++ [ev])).*1 ++
  in_flight (mkLogs (ml_collector s) st (ml_watchers s) emits_left (ml_panic s)) b q.
Proof.
  destruct send_head as (Hp & _). rewrite !omap_app, fmap_app, (li_taken _ _ Hinv).
  assert (omap (taken_for b q) [ev] = []) as -> by (by destruct Hev as [-> | ->]). rewrite app_nil_r, <- app_assoc. f_equal.
  assert ((omap (outcome_at b q) [ev]).*1 = if decide (b = a ∧ p = q) then [c] else []) as ->.
  { destruct Hev as [-> | ->]; simpl; rewrite Hp; by case_decide. }
  destruct (decide (p = q)) as [<-|].
  - rewrite (send_in_flight b st). repeat case_decide; try done; naive_solver.
  - rewrite decide_False by tauto. unfold in_flight; simpl. by rewrite emits_left_other.
Qed.

Lemma send_fresh b q : (length (ml_store s) ≤ b)%nat →
  omap (taken_for b q) (evs ++ [ev]) = [] ∧ since_watch b (evs ++ [ev]) = None.
Proof.
  intros Hb. destruct (li_fresh _ _ Hinv b q Hb) as [H1 H2]. rewrite omap_app, since_watch_app, H1, H2.
  by destruct Hev as [-> | ->].
Qed.

Lemma send_since b w' : b ∈ ml_watchers s → ml_store s !! b = Some w' →
  ∃ l, since_watch b (evs ++ [ev]) = Some l ∧
    ∀ q, omap (taken_for b q) (evs ++ [ev]) = if watches (lw_processID w') q then omap (emitted_by q) l else [].
Proof.
  intros Hb Hw'. destruct (li_since _ _ Hinv b w' Hb Hw') as (l & Hl' & Hq'). exists (l ++ [ev]).
  rewrite since_watch_app, Hl'. split; [done|]. intros q. rewrite !omap_app, Hq'.
  destruct Hev as [-> | ->]; simpl; rewrite ?app_nil_r; by destruct (watches _ _).
Qed.

Lemma send_new b : (length (ml_store s) ≤ b)%nat →
  omap (sent_to b) (evs ++ [ev]) = [] ∧ omap (received_by b) (evs ++ [ev]) = [].
Proof.
  destruct send_head as (_ & _ & _ & [Ha _]%Forall_cons).
  intros Hb. destruct (li_new _ _ Hinv b Hb) as [H1 H2]. rewrite !omap_app, H1, H2.
  destruct Hev as [-> | ->]; simpl; rewrite ?decide_False by lia; done.
Qed.
End Send.

(** The chunk enters the channel of the watcher. *)
Lemma send_fits_inv p s evs c a rest w :
  logs_inv s evs → ml_emits s !! p = Some (mkEmission c (Some (a :: rest))) → ml_store s !! a = Some w →
  lw_closed w = false → (length (lw_ch w) < watchBuffer)%nat →
  logs_inv (mkLogs (ml_collector s) (<[a := mkWatcher (lw_processID w) (lw_ch w ++ [c]) false]> (ml_store s))
    (ml_watchers s) (emits_left p s c rest) (ml_panic s)) (evs ++ [LSent a c]).
Proof.
  intros Hinv Ep Hw Ecl El. pose proof Hinv as [Hnd Ho Hr Hc Hq He Ht Hf Hn Hs Hd].
  pose proof (or_introl eq_refl : LSent a c = LSent a c ∨ LSent a c = LDropped a c) as Hev.
  assert (∀ b w', <[a:=mkWatcher (lw_processID w) (lw_ch w ++ [c]) false]> (ml_store s) !! b = Some w' →
    ∃ w0, ml_store s !! b = Some w0 ∧ lw_processID w' = lw_processID w0 ∧ lw_closed w' = lw_closed w0 ∧
      lw_ch w' = lw_ch w0 ++ (if decide (b = a) then [c] else [])) as Hst.
  { intros b w' Hb. destruct (decide (b = a)) as [->|].
    - rewrite list_lookup_insert_eq in Hb by (by eapply lookup_lt_Some). injection Hb as <-. eauto.
    - rewrite list_lookup_insert_ne in Hb by done. exists w'. by rewrite app_nil_r. }
  split; simpl; try done.
  - intros b w' (w0 & H0 & _ & -> & _)%Hst. auto.
  - intros b Hb. rewrite length_insert. auto.
  - intros b w' Hb. destruct (Hst _ _ Hb) as (w0 & H0 & _ & _ & ->). case_decide; [|rewrite app_nil_r; eauto].
    subst b. simplify_eq. rewrite length_app. simpl. lia.
  - intros b w' (w0 & H0 & _ & _ & ->)%Hst. omap_nil. rewrite app_assoc, (Hq b w0 H0). f_equal. by case_decide.
  - intros q c' act Hq'. rewrite length_insert. by eapply send_emit.
  - intros b q. by eapply send_taken.
  - intros b q. rewrite length_insert. by eapply send_fresh.
  - intros b. rewrite length_insert. by eapply send_new.
  - intros b w' Hb (w0 & H0 & -> & _)%Hst. by eapply send_since.
  - intros b c' [Hin|Hin]%elem_of_app; [|set_solver]. rewrite omap_app, length_app. specialize (Hd _ _ Hin). lia.
Qed.

(** The channel is full: the chunk is dropped. *)
Lemma send_full_inv p s evs c a rest w :
  logs_inv s evs → ml_emits s !! p = Some (mkEmission c (Some (a :: rest))) → ml_store s !! a = Some w →
  (watchBuffer ≤ length (lw_ch w))%nat →
  logs_inv (mkLogs (ml_collector s) (ml_store s) (ml_watchers s) (emits_left p s c rest) (ml_panic s))
    (evs ++ [LDropped a c]).
Proof.
  intros Hinv Ep Hw El. pose proof Hinv as [Hnd Ho Hr Hc Hq He Ht Hf Hn Hs Hd].
  pose proof (or_intror eq_refl : LDropped a c = LSent a c ∨ LDropped a c = LDropped a c) as Hev.
  split; simpl; try done.
  - intros b w' Hw'. omap_nil. auto.
  - intros q c' act. by eapply send_emit.
  - intros b q. by eapply send_taken.
  - intros b q. by eapply send_fresh.
  - intros b. by eapply send_new.
  - intros b w'. by eapply send_since.
  - intros b c' [Hin|Hin]%elem_of_app; omap_nil; [eauto|].
    apply list_elem_of_singleton in Hin as [= -> ->]. rewrite <- (Hq a w Hw), length_app. lia.
Qed.

Lemma logs_send_inv p s evs :
  logs_inv s evs → logs_inv (emit_send p s).1 (evs ++ (emit_send p s).2).
Proof.
  intros Hinv. unfold emit_send.
  destruct (ml_emits s !! p) as [[c [[|a rest]|]]|] eqn:Ep; simpl; try (by rewrite app_nil_r).
  destruct (ml_store s !! a) as [w|] eqn:Hw; simpl; [|by rewrite app_nil_r].
  destruct (lw_closed w) eqn:Ecl; simpl; [rewrite app_nil_r; by destruct Hinv; split|].
  destruct (Nat.ltb_spec (length (lw_ch w)) watchBuffer); simpl.
  - by apply (send_fits_inv p s evs c a rest w).
  - by apply (send_full_inv p s evs c a rest w).
Qed.

(** Steps that only close watchers. *)
Lemma logs_close_inv s s' evs :
  logs_inv s evs → ml_emits s' = ml_emits s → length (ml_store s') = length (ml_store s) →
  NoDup (ml_watchers s') → ml_watchers s' ⊆ ml_watchers s →
  (∀ a w', ml_store s' !! a = Some w' → ∃ w, ml_store s !! a = Some w ∧ lw_processID w' = lw_processID w ∧
     lw_ch w' = lw_ch w ∧ (lw_closed w' = false ↔ a ∈ ml_watchers s')) →
  logs_inv s' evs.
Proof.
  intros [Hnd Ho Hr Hc Hq He Ht Hf Hn Hs Hd] Hem Hlen Hnd' Hsub Hst. split; try done.
  - intros a w' (w & _ & _ & _ & H)%Hst. done.
  - intros a Ha. rewrite Hlen. auto.
  - intros a w' (w & Hw & _ & -> & _)%Hst. eauto.
  - intros a w' (w & Hw & _ & -> & _)%Hst. auto.
  - rewrite Hem, Hlen. done.
  - intros a p. rewrite Ht. f_equal. apply in_flight_eq. by rewrite Hem.
  - rewrite Hlen. done.
  - rewrite Hlen. done.
  - intros a w' Ha (w & Hw & -> & _)%Hst. auto.
Qed.

Lemma unregister_inv a s evs : logs_inv s evs → logs_inv (unregister a s) evs.
Proof.
  intros Hinv. pose proof Hinv as [Hnd Ho Hr Hc Hq He Ht Hf Hn Hs Hd]. unfold unregister.
  destruct (list_find _ _) as [[i x]|] eqn:E; [|done].
  apply list_find_Some in E as (Hi & -> & _).
  assert (∀ b, b ∈ delete i (ml_watchers s) ↔ b ∈ ml_watchers s ∧ b ≠ a) as Hdel.
  { intros b. pose proof (delete_Permutation _ i a Hi) as Hp. rewrite Hp in Hnd.
    apply NoDup_cons in Hnd as [Hni _]. assert (b ∈ ml_watchers s ↔ b ∈ a :: delete i (ml_watchers s)) as ->
      by (by rewrite <- Hp). rewrite elem_of_cons. naive_solver. }
  eapply logs_close_inv; simpl; try done.
  - by rewrite length_alter.
  - rewrite (delete_Permutation _ i a Hi) in Hnd by done. by apply NoDup_cons in Hnd as [_ ?].
  - intros b Hb. by apply Hdel in Hb as [? _].
  - intros b w'. destruct (decide (a = b)) as [<-|Hne].
    + rewrite list_lookup_alter_eq. intros (w & -> & ->)%fmap_Some_1. exists w. split_and!; try done.
      simpl. rewrite Hdel. naive_solver.
    + rewrite list_lookup_alter_ne by done. intros Hw. exists w'. split_and!; try done.
      rewrite Hdel, (Ho b w' Hw). naive_solver.
Qed.

Lemma close_all_lookup (as_ : list nat) (st : list logWatcher) (a : nat) :
  foldr (λ a st, alter close_watcher a st) st as_ !! a =
  (if decide (a ∈ as_) then close_watcher <$> st !! a else st !! a).
Proof.
  induction as_ as [|b as_ IH]; simpl; [done|].
  destruct (decide (b = a)) as [->|Hne].
  - rewrite list_lookup_alter_eq, IH, (decide_True (P := a ∈ a :: as_)) by set_solver.
    case_decide; [|done]. by destruct (st !! a).
  - rewrite list_lookup_alter_ne, IH by done. repeat case_decide; set_solver.
Qed.

Lemma close_all_length as_ (st : list logWatcher) :
  length (foldr (λ a st, alter close_watcher a st) st as_) = length st.
Proof. induction as_; simpl; [done|]. by rewrite length_alter. Qed.

Lemma closeLogWatchers_inv s evs : logs_inv s evs → logs_inv (closeLogWatchers s) evs.
Proof.
  intros Hinv. eapply logs_close_inv; simpl; try done; [apply close_all_length|constructor|set_solver|].
  intros a w'. rewrite close_all_lookup. case_decide as Ha.
  - intros (w & -> & ->)%fmap_Some_1. exists w. split_and!; try done. simpl. split; [done|set_solver].
  - intros Hw. exists w'. split_and!; try done. rewrite (li_open _ _ Hinv _ _ Hw). set_solver.
Qed.

Lemma watch_inv p s evs :
  logs_inv s evs → logs_inv (WatchLogs p s).1 (evs ++ [LWatched (WatchLogs p s).2 p]).
Proof.
  intros [Hnd Ho Hr Hc Hq He Ht Hf Hn Hs Hd]. unfold WatchLogs; simpl. set (n := length (ml_store s)).
  assert (n ∉ ml_watchers s) as Hnw by (intros ?%Hr; lia).
  assert (∀ a w, (ml_store s ++ [mkWatcher p [] false]) !! a = Some w →
    (a ≠ n ∧ ml_store s !! a = Some w) ∨ (a = n ∧ w = mkWatcher p [] false)) as Hst.
  { intros a w Hw. destruct (decide (a < n)%nat) as [Hlt|].
    - left. rewrite lookup_app_l in Hw by done. split; [lia|done].
    - rewrite lookup_app_r in Hw by (unfold n in *; lia). fold n in Hw.
      destruct (decide (a = n)) as [->|]; [|by destruct (a - n)%nat eqn:E; [lia|]].
      rewrite Nat.sub_diag in Hw. injection Hw as <-. by right. }
  split; simpl.
  - apply NoDup_app. split_and!; [done|set_solver|apply NoDup_singleton].
  - intros a w [[Hne Hw]|[-> ->]]%Hst; [|set_solver]. rewrite (Ho a w Hw). set_solver.
  - intros a. rewrite length_app. simpl. intros [?%Hr| ->%list_elem_of_singleton]%elem_of_app; unfold n; lia.
  - intros a w [[Hne Hw]|[-> ->]]%Hst; [eauto|simpl; unfold watchBuffer; lia].
  - intros a w [[Hne Hw]|[-> ->]]%Hst; omap_nil; [auto|].
    destruct (Hn n) as [-> ->]; [unfold n; lia|done].
  - intros q c act Hq'. rewrite length_app. destruct (He q c act Hq') as [? Hl]. split; [done|]. intros l ->.
    destruct (Hl l eq_refl) as (? & ? & Hall). split_and!; try done. eapply Forall_impl; [done|]. simpl. lia.
  - intros a q. omap_nil. apply Ht.
  - intros a q. rewrite length_app. simpl. intros Ha. omap_nil. destruct (Hf a q) as [-> Hsw]; [unfold n in *; lia|].
    rewrite since_watch_app, Hsw. simpl. rewrite decide_False; [done|unfold n; lia].
  - intros a. rewrite length_app. simpl. intros Ha. omap_nil. apply Hn. unfold n in *. lia.
  - intros a w Ha [[Hne Hw]|[-> ->]]%Hst.
    + apply elem_of_app in Ha as [Ha|?%list_elem_of_singleton]; [|done].
      destruct (Hs a w Ha Hw) as (l & Hl & Hq'). eexists. rewrite since_watch_app, Hl. split; [done|].
      intros q. omap_nil. rewrite Hq'. done.
    + exists []. rewrite since_watch_app, (proj2 (Hf n p ltac:(lia))). simpl. rewrite decide_True by done.
      split; [done|]. intros q. omap_nil. rewrite (proj1 (Hf n q ltac:(lia))). by destruct (watches p q).
  - intros a c [Hin|Hin]%elem_of_app; [|set_solver]. omap_nil. eauto.
Qed.

Lemma logs_recv_inv a s evs :
  logs_inv s evs → logs_inv (watch_recv a s).1 (evs ++ (watch_recv a s).2).
Proof.
  intros Hinv. pose proof Hinv as [Hnd Ho Hr Hc Hq He Ht Hf Hn Hs Hd]. unfold watch_recv.
  destruct (ml_store s !! a) as [[f [|c q] cl]|] eqn:Hw; simpl; try (by rewrite app_nil_r).
  assert (∀ b w', <[a:=mkWatcher f q cl]> (ml_store s) !! b = Some w' →
    ∃ w0, ml_store s !! b = Some w0 ∧ lw_processID w' = lw_processID w0 ∧ lw_closed w' = lw_closed w0 ∧
      (if decide (b = a) then [c] else []) ++ lw_ch w' = lw_ch w0) as Hst.
  { intros b w' Hb. destruct (decide (b = a)) as [->|].
    - rewrite list_lookup_insert_eq in Hb by (by eapply lookup_lt_Some). injection Hb as <-. eauto.
    - rewrite list_lookup_insert_ne in Hb by done. by exists w'. }
  split; simpl; rewrite ?length_insert; try done.
  - intros b w' (w0 & H0 & _ & -> & _)%Hst. auto.
  - intros b w' (w0 & H0 & _ & _ & Hch)%Hst. specialize (Hc b w0 H0). rewrite <- Hch, length_app in Hc. lia.
  - intros b w' (w0 & H0 & _ & _ & Hch)%Hst. omap_nil. rewrite <- (Hq b w0 H0), <- Hch, <- app_assoc.
    f_equal. f_equal. by case_decide.
  - intros b p. omap_nil. apply Ht.
  - intros b p Hb. omap_nil. destruct (Hf b p Hb) as [-> Hsw]. by rewrite since_watch_app, Hsw.
  - intros b Hb. omap_nil. destruct (Hn b Hb) as [-> ->]. apply lookup_lt_Some in Hw.
    by rewrite decide_False by lia.
  - intros b w' Hb (w0 & H0 & -> & _)%Hst. destruct (Hs b w0 Hb H0) as (l & Hl & Hq'). eexists.
    rewrite since_watch_app, Hl. split; [done|]. intros p. omap_nil. rewrite Hq'. done.
  - intros b c' [Hin|Hin]%elem_of_app; [|set_solver]. omap_nil. eauto.
Qed.

Lemma panic_inv s evs cause :
  logs_inv s evs → logs_inv (mkLogs (ml_collector s) (ml_store s) (ml_watchers s) (ml_emits s) cause) evs.
Proof. by intros []; split. Qed.

Lemma log_step_inv o d s evs op :
  logs_inv s evs → logs_inv (log_step o d s op).1 (evs ++ (log_step o d s op).2).
Proof.
  intros Hinv. unfold log_step. destruct (ml_panic s); [by rewrite app_nil_r|].
  destruct op; cbn [fst snd]; rewrite ?app_nil_r.
  - by apply logs_write_inv.
  - by apply snapshot_inv.
  - by apply logs_send_inv.
  - by apply watch_inv.
  - by apply unregister_inv.
  - by apply closeLogWatchers_inv.
  - by apply logs_recv_inv.
Qed.

Lemma log_run_inv o d ops :
  let '(s, evs) := run_trace (log_step o d) zero_logs ops in logs_inv s evs.
Proof.
  apply (run_trace_inv (log_step o d) logs_inv (λ _, True)) with (os := []);
    [|apply zero_logs_inv|by apply Forall_true].
  intros s evs op Hinv _. by apply log_step_inv.
Qed.

(** ** Chunks stay what they were written as *)

Section ChunkPredicate.
Context (o : logSettings) (d : dir) (Q : LogChunk → Prop).

Definition op_chunk (op : log_op) : Prop :=
  match op with OpWrite _ p st data => Q (mkChunk p st data) | _ => True end.
Definition chunks_ok (s : managerLogs) : Prop :=
  map_Forall (λ _ e, Q (em_chunk e)) (ml_emits s) ∧ Forall (λ w, Forall Q (lw_ch w)) (ml_store s).

Lemma chunks_ok_closed st l :
  Forall (λ w, Forall Q (lw_ch w)) st →
  Forall (λ w, Forall Q (lw_ch w)) (foldr (λ a st, alter close_watcher a st) st l).
Proof.
  intros H. rewrite !Forall_lookup in *. intros a w. rewrite close_all_lookup. case_decide; [|apply H].
  intros (w0 & Hw0 & ->)%fmap_Some_1. simpl. by eapply (H a).
Qed.

Lemma log_step_chunks s op : chunks_ok s → op_chunk op → chunks_ok (log_step o d s op).1.
Proof.
  intros [He Hs] Hop. pose proof Hs as Hs'. rewrite Forall_lookup in Hs'. unfold log_step. destruct (ml_panic s); [done|].
  destruct op as [now p st data|p|p|p|b| |b]; simpl.
  - unfold emit_write, ensureCollector. repeat case_match; simplify_eq/=; split; simpl; try done;
      by apply map_Forall_insert_2.
  - unfold emit_snapshot. destruct (ml_emits s !! p) as [[c [|]]|] eqn:Ep; simpl; try done.
    split; simpl; [|done]. case_match; [by apply map_Forall_delete|].
    apply map_Forall_insert_2; [|done]. by specialize (He _ _ Ep).
  - unfold emit_send. destruct (ml_emits s !! p) as [[c [[|a rest]|]]|] eqn:Ep; simpl; try done.
    pose proof (He _ _ Ep) as Hc. simpl in Hc.
    destruct (ml_store s !! a) as [w|] eqn:Hw; simpl; [|done]. destruct (lw_closed w); simpl; [done|].
    assert (map_Forall (λ _ e, Q (em_chunk e)) match rest with
      | [] => delete p (ml_emits s) | _ => <[p := mkEmission c (Some rest)]> (ml_emits s) end) as He'.
    { destruct rest; [by apply map_Forall_delete|by apply map_Forall_insert_2]. }
    destruct (length (lw_ch w) <? watchBuffer)%nat; split; simpl; try done.
    apply Forall_insert; [done|]. simpl. apply Forall_app. split; [by apply (Hs' a)|by constructor].
  - split; simpl; [done|]. apply Forall_app. split; [done|]. repeat constructor.
  - unfold unregister. destruct (list_find _ _) as [[]|]; [|done]. split; simpl; [done|].
    by apply (chunks_ok_closed _ [b]).
  - split; simpl; [done|]. by apply chunks_ok_closed.
  - unfold watch_recv. destruct (ml_store s !! b) as [[f [|c q] cl]|] eqn:Hw; simpl; try done.
    split; simpl; [done|]. apply Forall_insert; [done|]. simpl. specialize (Hs' _ _ Hw). by inversion Hs'.
Qed.
End ChunkPredicate.

(** ** Properties *)

Lemma sent_outcomes a p (evs : list log_event) :
  filter (λ c, chunk_ProcessID c = p) (omap (sent_to a) evs) =
  (filter (λ x, x.2 = true) (omap (outcome_at a p) evs)).*1.
Proof.
  induction evs as [|e evs IH]; [done|]. destruct e as [| |b c|b c|]; simpl; try done.
  - repeat case_decide; simplify_eq/=; try naive_solver.
    + rewrite !filter_cons, !decide_True by (done || tauto). simpl. by f_equal.
    + rewrite filter_cons, decide_False by naive_solver. done.
  - case_decide; simpl; [|done]. rewrite (filter_cons_False _ (c, false)); done.
Qed.

Lemma no_drop_outcomes a p (evs : list log_event) :
  (∀ c, LDropped a c ∉ evs) → filter (λ x, x.2 = true) (omap (outcome_at a p) evs) = omap (outcome_at a p) evs.
Proof.
  induction evs as [|e evs IH]; intros Hd; [done|].
  specialize (IH (λ c Hc, Hd c (list_elem_of_further _ _ _ Hc))).
  destruct e as [| |b c|b c|]; simpl; try done.
  - case_decide; [|done]. rewrite filter_cons, decide_True by done. by f_equal.
  - rewrite decide_False; [done|]. intros [-> _]. apply (Hd c). left.
Qed.

(** A registered watcher has only been sent chunks its filter matches. *)
Lemma sent_watched s evs a w c :
  logs_inv s evs → a ∈ ml_watchers s → ml_store s !! a = Some w → c ∈ omap (sent_to a) evs →
  watches (lw_processID w) (chunk_ProcessID c) = true.
Proof.
  intros Hinv Ha Hw Hc. destruct (li_since _ _ Hinv a w Ha Hw) as (l & _ & Hs).
  specialize (Hs (chunk_ProcessID c)). rewrite (li_taken _ _ Hinv) in Hs.
  destruct (watches _ _); [done|]. apply app_eq_nil in Hs as [Hs _].
  assert (c ∈ filter (λ x, chunk_ProcessID x = chunk_ProcessID c) (omap (sent_to a) evs)) as Hf
    by (by apply list_elem_of_filter).
  rewrite sent_outcomes in Hf. apply fmap_nil_inv in Hs. rewrite Hs in Hf. simpl in Hf. set_solver.
Qed.

Definition follow_complete (s : managerLogs) (evs : list log_event) (a : nat) (w : logWatcher) : Prop :=
  let got := omap (received_by a) evs ++ lw_ch w in
  ∃ since, since_watch a evs = Some since ∧
    Forall (λ c, watches (lw_processID w) (chunk_ProcessID c) = true) got ∧
    ∀ p, watches (lw_processID w) p = true →
    omap (emitted_by p) since = (omap (outcome_at a p) evs).*1 ++ in_flight s a p ∧
    filter (λ c, chunk_ProcessID c = p) got = (filter (λ x, x.2 = true) (omap (outcome_at a p) evs)).*1 ∧
    (length (in_flight s a p) ≤ 1)%nat ∧
    ((length got < watchBuffer)%nat →
     omap (emitted_by p) since = filter (λ c, chunk_ProcessID c = p) got ++ in_flight s a p).

Lemma follow_spec s evs a w :
  logs_inv s evs → a ∈ ml_watchers s → ml_store s !! a = Some w → follow_complete s evs a w.
Proof.
  intros Hinv Ha Hw. destruct (li_since _ _ Hinv a w Ha Hw) as (since & Hl & Hs). exists since.
  split; [done|]. rewrite (li_queue _ _ Hinv a w Hw). split.
  { apply Forall_forall. intros c. by apply (sent_watched s evs). }
  intros p Hp. rewrite sent_outcomes.
  specialize (Hs p). rewrite Hp, (li_taken _ _ Hinv) in Hs. split_and!; [done..| |].
  - unfold in_flight. repeat case_match; simpl; lia.
  - intros Hlt. rewrite <- Hs. f_equal. rewrite no_drop_outcomes; [done|].
    intros c Hc%(li_drop _ _ Hinv). lia.
Qed.

(** C34: follow mode.  In every interleaving of emissions, registrations,
    receivers and shutdown, a watcher that is still registered has, of every
    process its filter matches, received or queued exactly the chunks taken
    since its registration, in the order they were emitted and each once, but
    for at most one a running emission still holds and for those dropped, and
    nothing else; chunks are dropped only after 256 have been sent to it, so a
    watcher that got fewer has missed nothing. *)
Theorem follow_delivers_in_order (o : logSettings) (d : dir) (ops : list log_op) :
  let '(s, evs) := run_trace (log_step o d) zero_logs ops in
  ∀ a w, a ∈ ml_watchers s → ml_store s !! a = Some w →
  follow_complete s evs a w.
Proof.
  pose proof (log_run_inv o d ops) as Hinv. destruct (run_trace _ _ _) as [s evs].
  intros a w. by apply follow_spec.
Qed.

(** The one way a log emission can crash the manager.  In every
    reachable state a send of a running emission panics exactly when the
    watcher it is about to send to has been unregistered since the emission
    took its list. *)
Theorem emit_panics_iff_unregistered (o : logSettings) (d : dir) (ops : list log_op) (p : string)
    (c : LogChunk) (a : nat) (rest : list nat)
    (Hrun : ml_panic (run_trace (log_step o d) zero_logs ops).1 = false)
    (Hem : ml_emits (run_trace (log_step o d) zero_logs ops).1 !! p = Some (mkEmission c (Some (a :: rest)))) :
  let s := (run_trace (log_step o d) zero_logs ops).1 in
  ml_panic (log_step o d s (OpSend p)).1 = true ↔ a ∉ ml_watchers s.
Proof.
  pose proof (log_run_inv o d ops) as Hinv. destruct (run_trace _ _ _) as [s evs]. simpl in *.
  destruct (li_emit _ _ Hinv _ _ _ Hem) as [_ Hl]. destruct (Hl _ eq_refl) as (_ & _ & [Hlt _]%Forall_cons).
  apply lookup_lt_is_Some in Hlt as [w Hw]. pose proof (li_open _ _ Hinv a w Hw) as Ho.
  unfold log_step, emit_send. rewrite Hrun, Hem, Hw.
  destruct (lw_closed w); simpl; [naive_solver|].
  case_match; simpl; rewrite Hrun; naive_solver.
Qed.

(** A client that leaves between the snapshot and the send. *)
Definition ex_race : list log_op :=
  [OpWatch "p"; OpWrite 1 "p" 0 [x61]; OpSnapshot "p"; OpUnregister 0].

Lemma emit_panics_iff_unregistered_witness :
  ml_panic (run_trace (log_step (mkLogSettings 0 "" 0 0) ∅) zero_logs (ex_race ++ [OpSend "p"])).1 = true.
Proof.
  refine (proj2 (emit_panics_iff_unregistered (mkLogSettings 0 "" 0 0) ∅ ex_race "p" (mkChunk "p" 0 [x61]) 0 []
            eq_refl _) _); [reflexivity|].
  apply not_elem_of_nil.
Defined.
