(* ===== verification/PtySubs.v ===== *)
(** * PTY fan-out: internal/controller/pty.go

    Subscribers are channels in a shared store: the registration list and the
    consumer hold the same channel, which stays readable after it was closed.
    The goroutine that delivers the initial ring dump is a pending send, so
    its races with live frames and with unsubscription are runs of the model. *)

From S2P Require Import Prelude.

Record PTYData := mkPTYData { pty_Seq : Z; pty_Bytes : bytes }.

#[global] Instance PTYData_eq_dec : EqDecision PTYData.
Proof. solve_decision. Defined.

Definition sub_capacity : nat := 256.

Record chan := mkChan { ch_buf : list PTYData; ch_closed : bool }.

(** [ps_list]: registered subscribers (addresses in the store); [ps_dumps]:
    the goroutines that still have a ring dump to send; [ps_buffer] and
    [ps_drained]: [initialPTYBuffer] and [initialBufferDrained]. *)
Record pty_state := mkPty {
  ps_store : list chan;
  ps_list : list nat;
  ps_dumps : list (nat * bytes);
  ps_buffer : bytes;
  ps_drained : bool;
  ps_panic : bool
}.

Definition pty_init : pty_state := mkPty [] [] [] [] false false.

(** A non-blocking send on a channel known to be open. *)
Definition try_send (c : chan) (d : PTYData) : chan :=
  if (length (ch_buf c) <? sub_capacity)%nat then mkChan (ch_buf c ++ [d]) (ch_closed c) else c.

(** [ptySubscribers.add]. *)
Definition add (s : pty_state) : pty_state * nat :=
  let a := length (ps_store s) in
  (mkPty (ps_store s ++ [mkChan [] false]) (ps_list s ++ [a]) (ps_dumps s) (ps_buffer s)
     (ps_drained s) (ps_panic s), a).

(** [ptySubscribers.remove]: a no-op for an address that is not registered. *)
Definition remove (s : pty_state) (a : nat) : pty_state :=
  match list_find (λ x, x = a) (ps_list s) with
  | None => s
  | Some (i, _) =>
      mkPty (alter (λ c, mkChan (ch_buf c) true) a (ps_store s)) (delete i (ps_list s))
        (ps_dumps s) (ps_buffer s) (ps_drained s) (ps_panic s)
  end.

(** [ptySubscribers.fanOut]: one pass over the list under the lock.  Sending
    on a closed channel panics. *)
Fixpoint fan_out_list (store : list chan) (l : list nat) (d : PTYData) : list chan * bool :=
  match l with
  | [] => (store, false)
  | a :: l' =>
      match store !! a with
      | Some c => if ch_closed c then (store, true)
                  else fan_out_list (<[a := try_send c d]> store) l' d
      | None => (store, true)
      end
  end.

Definition fanOut (s : pty_state) (d : PTYData) : pty_state :=
  let '(store, panic) := fan_out_list (ps_store s) (ps_list s) d in
  mkPty store (ps_list s) (ps_dumps s) (ps_buffer s) (ps_drained s) (ps_panic s || panic).

(** [Controller.SetInitialPTYBuffer]. *)
Definition SetInitialPTYBuffer (s : pty_state) (b : bytes) : pty_state :=
  mkPty (ps_store s) (ps_list s) (ps_dumps s) b false (ps_panic s).

(** [Controller.SubscribePTYData]: registers, then takes the initial buffer if
    it is the first to do so and starts the goroutine that sends it. *)
Definition SubscribePTYData (s : pty_state) : pty_state * nat :=
  let '(s1, a) := add s in
  if ps_drained s1 then (s1, a)
  else
    let buf := ps_buffer s1 in
    (mkPty (ps_store s1) (ps_list s1)
       (if (0 <? length buf)%nat then ps_dumps s1 ++ [(a, buf)] else ps_dumps s1) [] true (ps_panic s1), a).

(** The dump goroutine number [i] at the send of its [select]; the flag tells
    whether the send happened.  Sending on a closed channel panics. *)
Definition dump_send (s : pty_state) (i : nat) : pty_state * bool :=
  match ps_dumps s !! i with
  | None => (s, false)
  | Some (a, buf) =>
      match ps_store s !! a with
      | None => (s, false)
      | Some c =>
          if ch_closed c
          then (mkPty (ps_store s) (ps_list s) (delete i (ps_dumps s)) (ps_buffer s)
                  (ps_drained s) true, false)
          else if (length (ch_buf c) <? sub_capacity)%nat
          then (mkPty (<[a := try_send c (mkPTYData 0 buf)]> (ps_store s)) (ps_list s)
                  (delete i (ps_dumps s)) (ps_buffer s) (ps_drained s) (ps_panic s), true)
          else (s, false)
      end
  end.

(** Its timeout of five seconds. *)
Definition dump_timeout (s : pty_state) (i : nat) : pty_state :=
  mkPty (ps_store s) (ps_list s) (delete i (ps_dumps s)) (ps_buffer s) (ps_drained s) (ps_panic s).

(** The consumer of channel [a] receives. *)
Definition recv (s : pty_state) (a : nat) : pty_state * option PTYData :=
  match ps_store s !! a with
  | Some (mkChan (d :: q) cl) =>
      (mkPty (<[a := mkChan q cl]> (ps_store s)) (ps_list s) (ps_dumps s) (ps_buffer s)
         (ps_drained s) (ps_panic s), Some d)
  | _ => (s, None)
  end.

(** ** Runs *)

Inductive pty_op :=
| PSubscribe
| PUnsubscribe (a : nat)
| PFrame (d : PTYData)
| PDump (b : bytes)
| PDumpSend (i : nat)
| PDumpTimeout (i : nat)
| PRecv (a : nat).

Inductive pty_event :=
| PLive (d : PTYData)                (** a live frame was fanned out *)
| PStored (b : bytes)                (** a ring dump was stored *)
| PDumped (a : nat) (b : bytes)      (** a ring dump was sent to [a] *)
| PRecvd (a : nat) (d : PTYData).    (** the consumer of [a] received *)

Definition pty_step (s : pty_state) (op : pty_op) : pty_state * list pty_event :=
  match op with
  | PSubscribe => (fst (SubscribePTYData s), [])
  | PUnsubscribe a => (remove s a, [])
  | PFrame d => (fanOut s d, [PLive d])
  | PDump b => (SetInitialPTYBuffer s b, [PStored b])
  | PDumpSend i =>
      let '(s', sent) := dump_send s i in
      (s', match ps_dumps s !! i with
           | Some (a, b) => if sent then [PDumped a b] else []
           | None => []
           end)
  | PDumpTimeout i => (dump_timeout s i, [])
  | PRecv a => let '(s', r) := recv s a in
               (s', match r with Some d => [PRecvd a d] | None => [] end)
  end.

(** What channel [a] was offered, and what its consumer got. *)
Definition offered (a : nat) (e : pty_event) : option PTYData :=
  match e with
  | PLive d => Some d
  | PDumped a' b => if decide (a' = a) then Some (mkPTYData 0 b) else None
  | _ => None
  end.
Definition received (a : nat) (e : pty_event) : option PTYData :=
  match e with PRecvd a' d => if decide (a' = a) then Some d else None | _ => None end.
Definition is_dumped (e : pty_event) : Prop := match e with PDumped _ _ => True | _ => False end.
Definition is_stored (e : pty_event) : Prop := match e with PStored _ => True | _ => False end.
#[global] Instance is_dumped_dec e : Decision (is_dumped e).
Proof. destruct e; apply _. Defined.
#[global] Instance is_stored_dec e : Decision (is_stored e).
Proof. destruct e; apply _. Defined.

(** ** Invariant: registered channels are open, and listed once *)

Definition pty_wf (s : pty_state) : Prop :=
  NoDup (ps_list s) ∧
  ∀ a, a ∈ ps_list s ↔ ∃ c, ps_store s !! a = Some c ∧ ch_closed c = false.

Lemma fan_out_list_spec store l d :
  NoDup l → (∀ a, a ∈ l → ∃ c, store !! a = Some c ∧ ch_closed c = false) →
  (fan_out_list store l d).2 = false ∧
  ∀ a, (fan_out_list store l d).1 !! a =
       (if decide (a ∈ l) then (λ c, try_send c d) else id) <$> store !! a.
Proof.
  revert store. induction l as [|b l IH]; intros store Hnd Hop; cbn [fan_out_list].
  { split; [done|]. intros a. rewrite decide_False by apply not_elem_of_nil. simpl. by destruct (store !! a). }
  apply NoDup_cons in Hnd as [Hb Hnd]. destruct (Hop b) as (c & Hc & Hcl); [left|].
  rewrite Hc, Hcl. destruct (IH (<[b := try_send c d]> store)) as [H1 H2]; [done| |].
  { intros a Ha. destruct (Hop a) as (c' & Hc' & Hcl'); [by right|]. exists c'.
    rewrite list_lookup_insert_ne; [done|]. by intros ->. }
  split; [done|]. intros a. rewrite H2. destruct (decide (a = b)) as [->|Hne].
  - rewrite (decide_False (P := b ∈ l)) by done. rewrite (decide_True (P := b ∈ b :: l)) by left.
    rewrite list_lookup_insert_eq by by eapply lookup_lt_Some. by rewrite Hc.
  - rewrite list_lookup_insert_ne by done. destruct (decide (a ∈ l)).
    + by rewrite decide_True by by right.
    + by rewrite decide_False by set_solver.
Qed.

Lemma try_send_closed c d : ch_closed (try_send c d) = ch_closed c.
Proof. unfold try_send. by case_match. Qed.

Lemma fanOut_spec s d :
  pty_wf s →
  ps_list (fanOut s d) = ps_list s ∧ ps_dumps (fanOut s d) = ps_dumps s ∧
  ps_panic (fanOut s d) = ps_panic s ∧ ps_buffer (fanOut s d) = ps_buffer s ∧
  ps_drained (fanOut s d) = ps_drained s ∧
  ∀ a, ps_store (fanOut s d) !! a =
       (if decide (a ∈ ps_list s) then (λ c, try_send c d) else id) <$> ps_store s !! a.
Proof.
  intros [Hnd Hop]. destruct (fan_out_list_spec (ps_store s) (ps_list s) d Hnd) as [H1 H2].
  { intros a Ha. by apply Hop. }
  unfold fanOut. destruct (fan_out_list _ _ _) as [st p]. simpl in *. subst p.
  by rewrite orb_false_r.
Qed.

Lemma NoDup_snoc_new (l : list nat) n : NoDup l → n ∉ l → NoDup (l ++ [n]).
Proof.
  intros. apply NoDup_app. split_and!; [done| |apply NoDup_singleton].
  intros x Hx ->%list_elem_of_singleton. done.
Qed.

Lemma add_wf s : pty_wf s → pty_wf (add s).1.
Proof.
  intros [Hnd Hop].
  assert (length (ps_store s) ∉ ps_list s) as Hn.
  { intros (c & Hc & _)%Hop. apply lookup_lt_Some in Hc. lia. }
  split; simpl; [by apply NoDup_snoc_new|].
  intros a. rewrite elem_of_app, list_elem_of_singleton, Hop.
  destruct (decide (a < length (ps_store s))%nat) as [Hlt|Hge].
  - rewrite lookup_app_l by done. split; [intros [?| ->]; [done|lia]|by left].
  - rewrite lookup_app_r by lia. split.
    + intros [(c & Hc & _)| ->]; [apply lookup_lt_Some in Hc; lia|].
      rewrite Nat.sub_diag. by eexists.
    + intros (c & Hc & _). apply lookup_lt_Some in Hc. simpl in Hc. right. lia.
Qed.

Lemma remove_wf s a : pty_wf s → pty_wf (remove s a).
Proof.
  intros [Hnd Hop]. unfold remove. destruct (list_find _ _) as [[i x]|] eqn:Ef; [|done].
  apply list_find_Some in Ef as (Hi & -> & _).
  assert (ps_list s ≡ₚ a :: delete i (ps_list s)) as Hp by by apply delete_Permutation.
  rewrite Hp in Hnd. apply NoDup_cons in Hnd as [Ha Hnd].
  split; simpl; [done|]. intros b.
  assert (b ∈ ps_list s ↔ b = a ∨ b ∈ delete i (ps_list s)) as Hb.
  { rewrite <- elem_of_cons. set (k := delete i (ps_list s)) in *. by rewrite Hp. }
  specialize (Hop b). destruct (decide (b = a)) as [->|Hne].
  - split; [done|]. intros (c & Hc & Hcl). rewrite list_lookup_alter_eq in Hc.
    destruct (ps_store s !! a); simplify_eq/=.
  - rewrite list_lookup_alter_ne by done. rewrite <- Hop, Hb. tauto.
Qed.

(** Changing only buffers keeps the invariant. *)
Lemma pty_wf_store s s' :
  pty_wf s → ps_list s' = ps_list s →
  (∀ a, ch_closed <$> ps_store s' !! a = ch_closed <$> ps_store s !! a) → pty_wf s'.
Proof.
  intros [Hnd Hop] Hl Hst. split; [by rewrite Hl|]. intros a. rewrite Hl, Hop. specialize (Hst a).
  destruct (ps_store s !! a) as [c|], (ps_store s' !! a) as [c'|]; simplify_eq/=; [|done].
  split; intros (x & [= ->] & ?); eexists; split; try done; congruence.
Qed.

Lemma insert_closed store a c c' :
  store !! a = Some c → ch_closed c' = ch_closed c →
  ∀ b, ch_closed <$> <[a := c']> store !! b = ch_closed <$> (store : list chan) !! b.
Proof.
  intros Hc Hcl b. destruct (decide (a = b)) as [->|].
  - rewrite list_lookup_insert_eq by by eapply lookup_lt_Some. rewrite Hc. simpl. by rewrite Hcl.
  - by rewrite list_lookup_insert_ne.
Qed.

Lemma pty_step_wf s op : pty_wf s → pty_wf (pty_step s op).1.
Proof.
  intros H. destruct op as [|a|d|b|i|i|a]; simpl.
  - unfold SubscribePTYData. pose proof (add_wf s H) as Ha.
    destruct (add s) as [s1 a]. destruct (ps_drained s1); [done|]. by eapply pty_wf_store.
  - by apply remove_wf.
  - destruct (fanOut_spec s d H) as (Hl & _ & _ & _ & _ & Hst). eapply pty_wf_store; [done|done|].
    intros a. rewrite Hst. destruct (ps_store s !! a); simpl; [|done].
    case_decide; [by rewrite try_send_closed|done].
  - by eapply pty_wf_store.
  - unfold dump_send. destruct (ps_dumps s !! i) as [[a b]|]; [|done].
    destruct (ps_store s !! a) as [c|] eqn:Ec; [|done].
    destruct (ch_closed c) eqn:Ecl; simpl; [by eapply pty_wf_store|].
    destruct (length (ch_buf c) <? sub_capacity)%nat; [|done]. eapply pty_wf_store; [done|done|]. simpl. eapply insert_closed; [done|].
    apply try_send_closed.
  - by eapply pty_wf_store.
  - unfold recv. destruct (ps_store s !! a) as [[[|d q] cl]|] eqn:Ec; try done. simpl.
    eapply pty_wf_store; [done|done|]. simpl. by eapply insert_closed.
Qed.

(** ** What the runs keep *)

Definition buffered (s : pty_state) (a : nat) : list PTYData :=
  from_option ch_buf [] (ps_store s !! a).

(** Ring dumps that were stored and not yet handed to a send. *)
Definition dumps_left (s : pty_state) : nat :=
  (length (ps_dumps s) + if ps_drained s then 0 else if (0 <? length (ps_buffer s))%nat then 1 else 0)%nat.

Record pty_inv (s : pty_state) (evs : list pty_event) : Prop := mkPtyInv {
  pi_wf : pty_wf s;
  pi_order : ∀ a, omap (received a) evs ++ buffered s a `sublist_of` omap (offered a) evs;
  pi_dumps : (length (filter is_dumped evs) + dumps_left s ≤ length (filter is_stored evs))%nat
}.

(** A step without events that keeps the buffers. *)
Lemma pty_inv_quiet s s' evs :
  pty_inv s evs → pty_wf s' → (∀ a, buffered s' a = buffered s a) →
  (dumps_left s' ≤ dumps_left s)%nat → pty_inv s' (evs ++ []).
Proof.
  intros [H1 H2 H3] Hwf Hb Hd. rewrite app_nil_r. split; [done| |lia].
  intros a. by rewrite Hb.
Qed.

Lemma buffered_alter_closed s a b :
  from_option ch_buf [] (alter (λ c, mkChan (ch_buf c) true) a (ps_store s) !! b) = buffered s b.
Proof.
  unfold buffered. destruct (decide (a = b)) as [->|].
  - rewrite list_lookup_alter_eq. by destruct (ps_store s !! b).
  - by rewrite list_lookup_alter_ne.
Qed.

Lemma subscribe_inv s evs : pty_inv s evs → pty_inv (SubscribePTYData s).1 (evs ++ []).
Proof.
  intros H. pose proof (pty_step_wf s PSubscribe (pi_wf _ _ H)) as Hwf. simpl in Hwf.
  apply (pty_inv_quiet s); [done..| |].
  - intros a. unfold SubscribePTYData. simpl. 
    assert (from_option ch_buf [] ((ps_store s ++ [mkChan [] false]) !! a) = buffered s a) as Hb.
    { unfold buffered. destruct (decide (a < length (ps_store s))%nat).
      - by rewrite lookup_app_l.
      - rewrite lookup_app_r, (lookup_ge_None_2 (ps_store s)) by lia.
        by destruct (a - length (ps_store s))%nat as [|[]]. }
    destruct (ps_drained s); exact Hb.
  - unfold SubscribePTYData, dumps_left. simpl. destruct (ps_drained s) eqn:E; simpl; rewrite ?E.
    + lia.
    + destruct (0 <? length (ps_buffer s))%nat; rewrite ?length_app; simpl; lia.
Qed.

(** The channel [a] took [d]; every other buffer is as before. *)
Lemma order_push evs e s s' :
  (∀ a, omap (received a) evs ++ buffered s a `sublist_of` omap (offered a) evs) →
  (∀ a, received a e = None) →
  (∀ a, buffered s' a = buffered s a ∨ ∃ d, offered a e = Some d ∧ buffered s' a = buffered s a ++ [d]) →
  ∀ a, omap (received a) (evs ++ [e]) ++ buffered s' a `sublist_of` omap (offered a) (evs ++ [e]).
Proof.
  intros H Hr Hb a. rewrite !omap_app. simpl. rewrite Hr, app_nil_r.
  destruct (Hb a) as [->|(d & -> & ->)].
  - by apply sublist_inserts_r.
  - rewrite (assoc_L (++)). by apply sublist_app.
Qed.

Lemma fan_inv s d evs : pty_inv s evs → pty_inv (fanOut s d) (evs ++ [PLive d]).
Proof.
  intros [H1 H2 H3]. pose proof (fanOut_spec s d H1) as (_ & Hd & _ & Hbf & Hdr & Hst).
  split; [apply (pty_step_wf s (PFrame d) H1)| |].
  - apply (order_push _ _ s); [done|done|]. intros a. unfold buffered. rewrite Hst.
    destruct (ps_store s !! a) as [c|]; simpl; [|by left].
    case_decide; [|by left]. unfold try_send. case_match; [right; by exists d|by left].
  - rewrite !filter_app. unfold dumps_left in *. rewrite Hd, Hbf, Hdr.
    rewrite !length_app. simpl. lia.
Qed.

Lemma dump_send_inv s i evs :
  pty_inv s evs → pty_inv (pty_step s (PDumpSend i)).1 (evs ++ (pty_step s (PDumpSend i)).2).
Proof.
  intros H. pose proof (pty_step_wf s (PDumpSend i) (pi_wf _ _ H)) as Hwf. simpl in *.
  unfold dump_send in *. destruct (ps_dumps s !! i) as [[a b]|] eqn:Ei; [|by apply (pty_inv_quiet s)].
  assert (length (delete i (ps_dumps s)) = pred (length (ps_dumps s)) ∧ (0 < length (ps_dumps s))%nat)
    as [Hdel Hpos].
  { apply lookup_lt_Some in Ei as Hi. rewrite length_delete by done. lia. }
  destruct (ps_store s !! a) as [c|] eqn:Ec; [|by apply (pty_inv_quiet s)].
  destruct (ch_closed c); [apply (pty_inv_quiet s); try done; unfold dumps_left; simpl; lia|].
  destruct (length (ch_buf c) <? sub_capacity)%nat eqn:El; [|by apply (pty_inv_quiet s)].
  destruct H as [H1 H2 H3]. simpl in *. split; [done| |].
  - apply (order_push _ _ s); [done|done|]. intros x. unfold buffered. simpl.
    destruct (decide (a = x)) as [->|Hne].
    + right. exists (mkPTYData 0 b). split; [unfold offered; by destruct (decide (x = x))|].
      rewrite list_lookup_insert_eq by by eapply lookup_lt_Some.
      rewrite Ec. cbn [from_option]. unfold try_send. by rewrite El.
    + left. by rewrite list_lookup_insert_ne.
  - rewrite !filter_app. unfold dumps_left in *. simpl.
    rewrite !length_app. simpl. lia.
Qed.

Lemma recv_inv s a evs :
  pty_inv s evs → pty_inv (pty_step s (PRecv a)).1 (evs ++ (pty_step s (PRecv a)).2).
Proof.
  intros H. pose proof (pty_step_wf s (PRecv a) (pi_wf _ _ H)) as Hwf. simpl in *.
  unfold recv in *. destruct (ps_store s !! a) as [[[|d q] cl]|] eqn:Ec; [by apply (pty_inv_quiet s)| |by apply (pty_inv_quiet s)].
  destruct H as [H1 H2 H3]. simpl in *. split; [done| |].
  - intros x. rewrite !omap_app. specialize (H2 x). unfold buffered in *. simpl.
    rewrite (app_nil_r (omap (offered x) evs)). destruct (decide (a = x)) as [->|Hne].
    + rewrite list_lookup_insert_eq by by eapply lookup_lt_Some. rewrite Ec in H2. simpl in *.
      by rewrite <- (assoc_L (++)).
    + rewrite list_lookup_insert_ne by done. by rewrite app_nil_r.
  - rewrite !filter_app. unfold dumps_left in *. simpl. rewrite !length_app. simpl. lia.
Qed.

Lemma pty_inv_step s evs op :
  pty_inv s evs → pty_inv (pty_step s op).1 (evs ++ (pty_step s op).2).
Proof.
  intros H. destruct op as [|a|d|b|i|i|a]; [by apply subscribe_inv| |by apply fan_inv| |by apply dump_send_inv| |by apply recv_inv]; simpl.
  - apply (pty_inv_quiet s); [done|apply remove_wf, H|..]; unfold remove;
      destruct (list_find _ _) as [[j x]|]; try done. intros c. apply buffered_alter_closed.
  - destruct H as [H1 H2 H3]. split; [by apply (pty_step_wf s (PDump b))| |].
    + intros x. rewrite !omap_app. simpl. by rewrite !app_nil_r.
    + rewrite !filter_app, !length_app. unfold dumps_left in *. simpl. 
      destruct (0 <? length b)%nat, (ps_drained s); simpl in *; lia.
  - apply (pty_inv_quiet s); [done|apply (pty_step_wf s (PDumpTimeout i)), H|done|].
    unfold dumps_left. simpl. 
    pose proof (sublist_length _ _ (sublist_delete (ps_dumps s) i)). lia.
Qed.

Lemma pty_inv_init : pty_inv pty_init [].
Proof.
  split; [split; [constructor|]| |done].
  - intros a. split; [by intros ?%elem_of_nil|]. by intros (c & ? & _).
  - intros a. done.
Qed.

(** Without pending dumps no step panics. *)
Lemma pty_no_panic ops : ∀ s,
  pty_wf s → ps_panic s = false → Forall (λ op, ∀ i, op ≠ PDumpSend i) ops →
  ps_panic (run_trace pty_step s ops).1 = false.
Proof.
  induction ops as [|op ops IH]; intros s Hwf Hp Hops; [done|]. cbn [run_trace].
  inversion Hops as [|? ? Hop Hops']; subst. pose proof (pty_step_wf s op Hwf) as Hwf'.
  assert (ps_panic (pty_step s op).1 = false) as Hp'.
  { destruct op as [|a|d|b|i|i|a]; simpl; try done.
    - unfold SubscribePTYData. simpl. by destruct (ps_drained s).
    - unfold remove. by repeat case_match.
    - by destruct (fanOut_spec s d Hwf) as (_ & _ & -> & _).
    - by destruct (Hop i).
    - unfold recv. by repeat case_match; simplify_eq/=. }
  destruct (pty_step s op) as [s1 e1]. specialize (IH s1 Hwf' Hp' Hops').
  by destruct (run_trace pty_step s1 ops).
Qed.

(** ** Properties *)

(** C31: fan-out order.  In every run of subscribers, unsubscriptions, frames,
    ring dumps and consumers, what one subscriber received followed by what
    its channel still buffers is, in order, a subsequence of the frames fanned
    out and the dumps sent to it: nothing is duplicated, reordered or taken
    from another subscriber. *)
Theorem pty_fan_out_in_order (ops : list pty_op) (a : nat) :
  let '(s, evs) := run_trace pty_step pty_init ops in
  omap (received a) evs ++ buffered s a `sublist_of` omap (offered a) evs.
Proof.
  pose proof (run_trace_inv pty_step pty_inv (λ _, True) (λ s evs op H _, pty_inv_step s evs op H)
    ops pty_init [] pty_inv_init ltac:(by apply Forall_true)) as H.
  destruct (run_trace pty_step pty_init ops) as [s evs]. apply H.
Qed.

(** Each stored ring dump is sent at most once, to at most one subscriber,
    whatever the interleaving of concurrent subscribers; and a fan-out never
    sends on a closed channel. *)
Theorem ring_dump_sent_at_most_once (ops : list pty_op) :
  let '(s, evs) := run_trace pty_step pty_init ops in
  (length (filter is_dumped evs) + dumps_left s ≤ length (filter is_stored evs))%nat ∧
  (Forall (λ op, ∀ i, op ≠ PDumpSend i) ops → ps_panic s = false).
Proof.
  pose proof (run_trace_inv pty_step pty_inv (λ _, True) (λ s evs op H _, pty_inv_step s evs op H)
    ops pty_init [] pty_inv_init ltac:(by apply Forall_true)) as H.
  pose proof (pty_no_panic ops pty_init (pi_wf _ _ pty_inv_init) eq_refl) as Hp.
  destruct (run_trace pty_step pty_init ops) as [s evs]. split; [apply H|done].
Qed.

(** The dump goroutine races with the rest.  There is a run in which the
    subscriber that owns the ring dump receives a live frame before it, and a
    run in which unsubscribing before the goroutine ran makes it send on a
    closed channel and panic. *)
Theorem ring_dump_races :
  let live := mkPTYData 7 [x6c] in
  let dump := mkPTYData 0 [x64] in
  omap (received 0) (run_trace pty_step pty_init
    [PDump [x64]; PSubscribe; PFrame live; PDumpSend 0; PRecv 0; PRecv 0]).2 = [live; dump] ∧
  ps_panic (run_trace pty_step pty_init
    [PDump [x64]; PSubscribe; PUnsubscribe 0; PDumpSend 0]).1 = true.
Proof. split; reflexivity. Qed.
