(* ===== verification/Heartbeat.v ===== *)
(** * The heartbeat of a controller: internal/controller/heartbeat.go

    The goroutine of [loop] against a clock.  The Go runtime fires the ticker
    and the deadline timer, the scheduler runs the goroutine, and time passes:
    each is an operation of its own, so a run is any interleaving of them with
    [RecordPong], [Start], [Wait] and the end of the context.  How late the
    runtime may be is a bound [δ] on runs, not part of the model. *)

From S2P Require Import Prelude.

(** [OnMiss] is set or nil; the sender is the environment. *)
Record HeartbeatOptions := mkHB { hb_Interval : Z; hb_Timeout : Z; hb_MissThreshold : Z; hb_OnMiss : bool }.

Definition hb_defaults (o : HeartbeatOptions) : HeartbeatOptions :=
  mkHB (if hb_Interval o <=? 0 then 5000000000 else hb_Interval o)
       (if hb_Timeout o <=? 0 then 2000000000 else hb_Timeout o)
       (if hb_MissThreshold o <=? 0 then 3 else hb_MissThreshold o) (hb_OnMiss o).

(** ** One check *)

(** [opts.Interval + opts.Timeout]. *)
Definition stale_after (o : HeartbeatOptions) : Z := i64 (hb_Interval o + hb_Timeout o).

(** [Time.Sub] saturates. *)
Definition time_sub (t u : Z) : Z := Z.max (- 2 ^ 63) (Z.min (2 ^ 63 - 1) (t - u)).

(** The end of one turn of the loop: [age] is the time since the last pong.
    Returns the new miss counter and the argument of [OnMiss] if it ran. *)
Definition hb_tick (o : HeartbeatOptions) (misses : Z) (age : Z) : Z * list Z :=
  if stale_after o <? age then
    let misses' := i64 (misses + 1) in
    if (hb_MissThreshold o <=? misses') && hb_OnMiss o then (0, [misses']) else (misses', [])
  else (0, []).

(** ** The goroutine *)

(** Where [loop] stands: launched; waiting in the outer select; between the
    tick and the deadline timer, in [SendPing]; in the inner select, with the
    time its timer is due and whether it fired; returned. *)
Inductive hb_pc := HIdle | HEnter | HSelect | HPinging | HDeadline (due : Z) (fired : bool) | HExit.

(** [hb_ticker]: when the ticker is due next; [hb_tickC]: a tick is in its
    channel; [hb_since]: since when the goroutine can run. *)
Record Heartbeat := mkHeartbeat {
  hb_opts : HeartbeatOptions; hb_lastPong : Z; hb_wg : Z; hb_running : bool;
  hb_loop : hb_pc; hb_misses : Z; hb_ticker : option Z; hb_tickC : bool;
  hb_ctx : bool; hb_since : Z; hb_now : Z }.

Definition NewHeartbeat (now : Z) (o : HeartbeatOptions) : Heartbeat :=
  mkHeartbeat (hb_defaults o) (i64 now) 0 false HIdle 0 None false false now now.

Definition hb_goto (h : Heartbeat) (pc : hb_pc) (misses : Z) (ticker : option Z) (tickC : bool) : Heartbeat :=
  mkHeartbeat (hb_opts h) (hb_lastPong h) (hb_wg h) (hb_running h) pc misses ticker tickC (hb_ctx h) (hb_now h) (hb_now h).
Definition hb_set_clock (h : Heartbeat) (now : Z) : Heartbeat :=
  mkHeartbeat (hb_opts h) (hb_lastPong h) (hb_wg h) (hb_running h) (hb_loop h) (hb_misses h)
    (hb_ticker h) (hb_tickC h) (hb_ctx h) (hb_since h) now.

Definition hb_Start (h : Heartbeat) : Heartbeat :=
  if hb_running h then h
  else mkHeartbeat (hb_opts h) (hb_lastPong h) (hb_wg h + 1) true HEnter (hb_misses h) (hb_ticker h) (hb_tickC h)
         (hb_ctx h) (hb_now h) (hb_now h).

Definition RecordPong (h : Heartbeat) : Heartbeat :=
  mkHeartbeat (hb_opts h) (i64 (hb_now h)) (hb_wg h) (hb_running h) (hb_loop h) (hb_misses h) (hb_ticker h) (hb_tickC h)
    (hb_ctx h) (hb_since h) (hb_now h).

(** [Wait] returns when this holds. *)
Definition hb_Wait (h : Heartbeat) : bool := hb_wg h =? 0.

Definition hb_cancel (h : Heartbeat) : Heartbeat :=
  mkHeartbeat (hb_opts h) (hb_lastPong h) (hb_wg h) (hb_running h) (hb_loop h) (hb_misses h) (hb_ticker h) (hb_tickC h)
    true (hb_since h) (hb_now h).

(** [return]: the ticker is stopped, the wait group released. *)
Definition hb_exit (h : Heartbeat) : Heartbeat :=
  mkHeartbeat (hb_opts h) (hb_lastPong h) (hb_wg h - 1) (hb_running h) HExit (hb_misses h) None (hb_tickC h)
    (hb_ctx h) (hb_now h) (hb_now h).

(** The ticker is due: its channel holds one tick, a second one is dropped,
    and the next is due at the first multiple of the interval after now. *)
Definition ticker_fire (h : Heartbeat) : Heartbeat :=
  match hb_ticker h with
  | Some w =>
      if w <=? hb_now h then
        let I := hb_Interval (hb_opts h) in
        let wake := match hb_loop h with HSelect => negb (hb_tickC h) | _ => false end in
        mkHeartbeat (hb_opts h) (hb_lastPong h) (hb_wg h) (hb_running h) (hb_loop h) (hb_misses h)
          (Some (w + I * (1 + (hb_now h - w) / I))) true (hb_ctx h)
          (if wake then hb_now h else hb_since h) (hb_now h)
      else h
  | None => h
  end.

Definition deadline_fire (h : Heartbeat) : Heartbeat :=
  match hb_loop h with
  | HDeadline due false =>
      if due <=? hb_now h then hb_goto h (HDeadline due true) (hb_misses h) (hb_ticker h) (hb_tickC h) else h
  | _ => h
  end.

Inductive hb_event := HbPing | HbPonged | HbCheck | HbMiss (misses : Z).

(** The goroutine runs up to its next wait; [pick_done]: what a select takes
    when both cases are ready. *)
Definition hb_run (pick_done : bool) (h : Heartbeat) : Heartbeat * list hb_event :=
  match hb_loop h with
  | HEnter => (hb_goto h HSelect 0 (Some (hb_now h + hb_Interval (hb_opts h))) false, [])
  | HSelect =>
      if hb_ctx h && (pick_done || negb (hb_tickC h)) then (hb_exit h, [])
      else if hb_tickC h then (hb_goto h HPinging (hb_misses h) (hb_ticker h) false, [HbPing])
      else (h, [])
  | HPinging => (hb_goto h (HDeadline (hb_now h + hb_Timeout (hb_opts h)) false) (hb_misses h) (hb_ticker h) (hb_tickC h), [])
  | HDeadline due fired =>
      if hb_ctx h && (pick_done || negb fired) then (hb_exit h, [])
      else if fired then
        let '(m, alarm) := hb_tick (hb_opts h) (hb_misses h) (time_sub (hb_now h) (hb_lastPong h)) in
        (hb_goto h HSelect m (hb_ticker h) (hb_tickC h), HbCheck :: (HbMiss <$> alarm))
      else (h, [])
  | HIdle | HExit => (h, [])
  end.

Inductive hb_op := HOStart | HOPong | HOCancel | HOAdvance (dt : Z) | HOTicker | HODeadline | HORun (pick_done : bool).

Definition hb_step (h : Heartbeat) (op : hb_op) : Heartbeat * list hb_event :=
  match op with
  | HOStart => (hb_Start h, [])
  | HOPong => (RecordPong h, [HbPonged])
  | HOCancel => (hb_cancel h, [])
  | HOAdvance dt => (hb_set_clock h (hb_now h + Z.max 0 dt), [])
  | HOTicker => (ticker_fire h, [])
  | HODeadline => (deadline_fire h, [])
  | HORun pick_done => hb_run pick_done h
  end.

(** ** Timely runs

    [δ] bounds how late the runtime fires a timer and how long a goroutine
    that can run waits for the processor. *)

Definition hb_limit (δ : Z) (h : Heartbeat) : option Z :=
  match hb_loop h with
  | HIdle | HExit => None
  | HEnter | HPinging | HDeadline _ true => Some (hb_since h + δ)
  | HSelect => if hb_tickC h then Some (hb_since h + δ) else (λ w, Z.max w (hb_since h) + δ) <$> hb_ticker h
  | HDeadline due false => Some (due + δ)
  end.

(** The clock stands at or before everything that is due. *)
Definition on_time (δ : Z) (h : Heartbeat) : Prop := ∀ l, hb_limit δ h = Some l → hb_now h ≤ l.

(** Time never passes beyond what is due, and the clock stays in the range of
    [UnixNano]. *)
Fixpoint timely (δ : Z) (h : Heartbeat) (ops : list hb_op) : Prop :=
  on_time δ h ∧ in_i 64 (hb_now h) ∧
  match ops with [] => True | op :: ops' => timely δ (hb_step h op).1 ops' end.

(** ** What every run keeps *)

(** The goroutine is alive. *)
Definition hb_active (h : Heartbeat) : Prop := hb_loop h ≠ HIdle ∧ hb_loop h ≠ HExit.

Record hb_wf (o : HeartbeatOptions) (h : Heartbeat) : Prop := mkHbWf {
  hw_opts : hb_opts h = o;
  hw_running : hb_running h = false ↔ hb_loop h = HIdle;
  hw_wg : hb_wg h = match hb_loop h with HIdle | HExit => 0 | _ => 1 end;
  hw_exit : hb_loop h = HExit → hb_ctx h = true;
  hw_ticker : ∀ w, hb_ticker h = Some w → w ≤ hb_now h + hb_Interval o;
  hw_ticks : match hb_loop h with HSelect | HPinging | HDeadline _ _ => is_Some (hb_ticker h) | _ => True end;
  hw_due : ∀ due f, hb_loop h = HDeadline due f → due ≤ hb_now h + hb_Timeout o;
  hw_since : hb_since h ≤ hb_now h;
  hw_fresh : match hb_loop h with HIdle | HEnter => hb_misses h = 0 | _ => True end;
  hw_misses : hb_OnMiss o = true → 0 ≤ hb_misses h < hb_MissThreshold o }.

(** What [NewHeartbeat] ensures of its options. *)
Definition opts_pos (o : HeartbeatOptions) : Prop :=
  0 < hb_Interval o ∧ 0 < hb_Timeout o ∧ 0 < hb_MissThreshold o.

Lemma hb_defaults_pos o : opts_pos (hb_defaults o).
Proof. unfold opts_pos. simpl. split_and!; case_match; bool_lia. Qed.

Lemma NewHeartbeat_wf now o : hb_wf (hb_defaults o) (NewHeartbeat now o).
Proof. destruct (hb_defaults_pos o) as (? & ? & ?). split; try done; simpl in *; lia. Qed.

Lemma hb_tick_misses o m age :
  0 < hb_MissThreshold o → in_i 64 (hb_MissThreshold o) → hb_OnMiss o = true → 0 ≤ m < hb_MissThreshold o →
  let '(m', alarm) := hb_tick o m age in
  0 ≤ m' < hb_MissThreshold o ∧
  (alarm = [] ∧ (age ≤ stale_after o ∧ m' = 0 ∨ stale_after o < age ∧ m' = m + 1) ∨
   alarm = [hb_MissThreshold o] ∧ stale_after o < age).
Proof.
  intros HT Hin Hon Hm. unfold hb_tick. rewrite Hon.
  assert (i64 (m + 1) = m + 1) as -> by (apply wrap_i_small; [lia|]; unfold in_i in *; lia).
  destruct (Z.ltb_spec (stale_after o) age); [|split; [lia|left; split; [done|left; lia]]].
  destruct (Z.leb_spec (hb_MissThreshold o) (m + 1)); simpl.
  - split; [lia|]. right. split; [|done]. f_equal. lia.
  - split; [lia|]. left. split; [done|]. right. lia.
Qed.

Lemma next_tick w I now : 0 < I → w ≤ now → now < w + I * (1 + (now - w) / I) ≤ now + I.
Proof.
  intros HI Hw. pose proof (Z.div_mod (now - w) I ltac:(lia)). pose proof (Z.mod_pos_bound (now - w) I HI). nia.
Qed.

Ltac fields H := split; simpl; try done; try lia; try (rewrite H; by split).

Lemma hb_step_wf o h op :
  opts_pos o → in_i 64 (hb_MissThreshold o) → hb_wf o h → hb_wf o (hb_step h op).1.
Proof.
  intros (P1 & P2 & P3) Hin Hw. pose proof Hw as [H1 H2 H3 H4 H5 H6 H7 H8 H0 H9].
  destruct op as [| | |dt| | |pick]; simpl.
  - unfold hb_Start. destruct (hb_running h) eqn:Er; [done|].
    destruct H2 as [H2 _]. rewrite (H2 eq_refl) in H3, H6, H0. split; simpl; try done; lia.
  - split; simpl; try done; lia.
  - split; simpl; try done; lia.
  - split; simpl; try done; [intros w E; specialize (H5 w E)|intros d f E; specialize (H7 d f E)|]; lia.
  - unfold ticker_fire. destruct (hb_ticker h) as [w|] eqn:Ew; [|done].
    destruct (Z.leb_spec w (hb_now h)); [|done].
    split; simpl; try done; rewrite ?H1.
    + intros w' [= <-]. apply next_tick; [exact P1|lia].
    + by destruct (hb_loop h).
    + repeat case_match; lia.
  - unfold deadline_fire. destruct (hb_loop h) as [| | | |due []|] eqn:El; try done.
    destruct (Z.leb_spec due (hb_now h)); [|done].
    fields H2. intros d f [= <- <-]. by apply (H7 _ false).
  - unfold hb_run. destruct (hb_loop h) as [| | | |due f|] eqn:El; try done.
    + fields H2. rewrite H1. intros w [= <-]. lia.
    + destruct (hb_ctx h && _) eqn:Ec.
      { apply andb_true_iff in Ec as [Ec _]. fields H2. }
      destruct (hb_tickC h); [|done]. fields H2.
    + fields H2. intros d f [= <- <-]. rewrite H1. lia.
    + destruct (hb_ctx h && _) eqn:Ec.
      { apply andb_true_iff in Ec as [Ec _]. fields H2. }
      destruct f; [|done].
      destruct (hb_tick _ _ _) as [m alarm] eqn:Et. simpl. fields H2.
      intros Hon. pose proof (hb_tick_misses o (hb_misses h) (time_sub (hb_now h) (hb_lastPong h)) P3 Hin
        Hon (H9 Hon)) as Ht.
      rewrite H1 in Et. rewrite Et in Ht. by destruct Ht.
Qed.

Lemma hb_run_wf o now ops :
  in_i 64 (hb_MissThreshold (hb_defaults o)) → hb_wf (hb_defaults o) (run_trace hb_step (NewHeartbeat now o) ops).1.
Proof.
  intros Hin. apply (run_trace_state_inv _ (hb_wf (hb_defaults o)) (λ _, True)).
  - intros h op ? _. apply hb_step_wf; auto using hb_defaults_pos.
  - apply NewHeartbeat_wf.
  - by apply Forall_true.
Qed.

(** ** A silent agent is reported *)

Section Detection.
Variables (o : HeartbeatOptions) (δ : Z).
Hypotheses (Hpos : opts_pos o) (Hδ : 0 ≤ δ) (Hthr : in_i 64 (hb_MissThreshold o)) (Hon : hb_OnMiss o = true)
           (Hrange : hb_Interval o + hb_Timeout o < 2 ^ 63 - 1).

(** One turn of the loop takes no longer. *)
Definition hb_period : Z := hb_Interval o + hb_Timeout o + 6 * δ.

(** When the next check happens at the latest. *)
Definition check_by (h : Heartbeat) : Z :=
  match hb_loop h with
  | HEnter => hb_since h + hb_period
  | HSelect =>
      if hb_tickC h then hb_since h + hb_Timeout o + 4 * δ
      else Z.max (default 0 (hb_ticker h)) (hb_since h) + hb_Timeout o + 5 * δ
  | HPinging => hb_since h + hb_Timeout o + 3 * δ
  | HDeadline due false => due + 2 * δ
  | HDeadline _ true => hb_since h + δ
  | HIdle | HExit => hb_now h
  end.

Definition silent_op (op : hb_op) : Prop := match op with HOPong | HOCancel => False | _ => True end.

Lemma stale_sum : stale_after o = hb_Interval o + hb_Timeout o.
Proof. destruct Hpos as (? & ? & ?). apply wrap_i_small; [lia|]. unfold in_i. lia. Qed.

Lemma time_sub_le now p : time_sub now p ≤ stale_after o → now ≤ p + (hb_Interval o + hb_Timeout o).
Proof. rewrite stale_sum. destruct Hpos as (? & ? & ?). unfold time_sub. lia. Qed.

Lemma check_by_soon h : hb_wf o h → check_by h ≤ hb_now h + hb_period.
Proof.
  intros [H1 H2 H3 H4 H5 H6 H7 H8 H0 H9]. destruct Hpos as (? & ? & ?).
  unfold check_by, hb_period. destruct (hb_loop h) as [| | | |due []|] eqn:El; try lia.
  - destruct (hb_tickC h); [lia|]. destruct H6 as [w Hw]. rewrite Hw. simpl. specialize (H5 w Hw). lia.
  - specialize (H7 due false eq_refl). lia.
Qed.

Lemma check_by_late h : hb_wf o h → on_time δ h → hb_now h ≤ check_by h.
Proof.
  intros Hw Ht. destruct Hpos as (? & ? & ?). pose proof (hw_ticks _ _ Hw) as H6.
  unfold on_time, hb_limit, check_by, hb_period in *. destruct (hb_loop h) as [| | | |due []|]; try lia.
  - specialize (Ht _ eq_refl). lia.
  - destruct (hb_tickC h); [specialize (Ht _ eq_refl); lia|]. destruct H6 as [w Hw']. rewrite Hw' in Ht |- *.
    simpl. specialize (Ht _ eq_refl). lia.
  - specialize (Ht _ eq_refl). lia.
  - specialize (Ht _ eq_refl). lia.
  - specialize (Ht _ eq_refl). lia.
Qed.

(** The state between two checks of a run without a pong. *)
Record silence (t p : Z) (h : Heartbeat) : Prop := mkSilence {
  sl_wf : hb_wf o h;
  sl_active : hb_active h;
  sl_ctx : hb_ctx h = false;
  sl_pong : hb_lastPong h = p;
  sl_by : check_by h ≤ t + (hb_misses h + 1) * hb_period }.

(** A step without a check does not move the next one back. *)
Definition waits (h h' : Heartbeat) : Prop :=
  hb_active h' ∧ hb_ctx h' = hb_ctx h ∧ hb_lastPong h' = hb_lastPong h ∧ hb_misses h' = hb_misses h ∧
  check_by h' ≤ check_by h.

Lemma waits_refl h : hb_active h → waits h h.
Proof. intros H. split; [done|]. by split_and!. Qed.

Lemma waits_env h op :
  hb_wf o h → hb_active h → on_time δ h → silent_op op → (∀ pick, op ≠ HORun pick) → waits h (hb_step h op).1.
Proof.
  intros Hw Ha Ht Hop Hr. pose proof (waits_refl h Ha) as Hrefl. destruct op as [| | |dt| | |pick]; simpl; try done.
  - unfold hb_Start. destruct (hb_running h) eqn:Er; [done|]. apply (hw_running _ _ Hw) in Er. by destruct Ha.
  - split; [done|]. split_and!; try done. unfold check_by, hb_active in *. simpl. destruct (hb_loop h); tauto || lia.
  - unfold ticker_fire. destruct (hb_ticker h) as [w|] eqn:Ew; [|done].
    destruct (Z.leb_spec w (hb_now h)); [|done]. split; [done|]. split_and!; try done.
    unfold check_by, on_time, hb_limit in *. simpl. rewrite Ew in *. destruct (hb_loop h) as [| | | |due []|]; try lia.
    destruct (hb_tickC h); simpl; [lia|]. specialize (Ht _ eq_refl). lia.
  - unfold deadline_fire. unfold on_time, hb_limit in Ht. destruct (hb_loop h) as [| | | |due []|] eqn:El; try done.
    destruct (Z.leb_spec due (hb_now h)); [|done]. split; [done|]. split_and!; try done.
    unfold check_by. rewrite El. simpl. specialize (Ht _ eq_refl). lia.
  - by destruct (Hr pick).
Qed.

(** A turn of the goroutine either is a wait or a check. *)
Lemma run_waits_or_checks h pick :
  hb_wf o h → hb_active h → hb_ctx h = false → on_time δ h →
  waits h (hb_run pick h).1 ∨
  (∃ m alarm, hb_tick o (hb_misses h) (time_sub (hb_now h) (hb_lastPong h)) = (m, alarm) ∧
     hb_run pick h = (hb_goto h HSelect m (hb_ticker h) (hb_tickC h), HbCheck :: (HbMiss <$> alarm))).
Proof.
  intros Hw Ha Hc Ht. pose proof (waits_refl h Ha) as Hrefl. pose proof Hw as [H1 H2 H3 H4 H5 H6 H7 H8 H0 H9].
  destruct Hpos as (? & ? & ?). unfold hb_run. unfold on_time, hb_limit in Ht.
  destruct (hb_loop h) as [| | | |due f|] eqn:El; rewrite ?Hc; simpl; try (by left).
  - left. specialize (Ht _ eq_refl). split; [done|]. split_and!; try done.
    unfold check_by, hb_period. rewrite El. simpl. rewrite H1. lia.
  - destruct (hb_tickC h) eqn:Ek; [|by left]. specialize (Ht _ eq_refl).
    left. split; [done|]. split_and!; try done.
    unfold check_by. rewrite El, Ek. simpl. lia.
  - specialize (Ht _ eq_refl). left. split; [done|]. split_and!; try done.
    unfold check_by. rewrite El. simpl. rewrite H1. lia.
  - destruct f; [|by left]. rewrite H1.
    destruct (hb_tick _ _ _) as [m alarm]. right. by exists m, alarm.
Qed.

Lemma silence_step t p h op :
  p + (hb_Interval o + hb_Timeout o) ≤ t → silence t p h → on_time δ h → silent_op op →
  HbMiss (hb_MissThreshold o) ∈ (hb_step h op).2 ∨ silence t p (hb_step h op).1.
Proof.
  intros Hpt [Hw Ha Hc Hp Hby] Ht Hop.
  pose proof (hb_step_wf o h op Hpos Hthr Hw) as Hw'.
  assert (waits h (hb_step h op).1 → silence t p (hb_step h op).1) as Hwait.
  { intros (W1 & W2 & W3 & W4 & W5). split; try congruence. rewrite W4. lia. }
  destruct (match op with HORun pick => inl pick | _ => inr tt end) as [pick|] eqn:Eop.
  2:{ right. apply Hwait, waits_env; try done. by intros pick ->. }
  assert (op = HORun pick) as -> by (by destruct op; simplify_eq).
  destruct (run_waits_or_checks h pick Hw Ha Hc Ht) as [H|(m & alarm & Et & Er)]; [by right; apply Hwait|].
  simpl in *. rewrite Er in *. simpl in *.
  pose proof (hb_tick_misses o (hb_misses h) (time_sub (hb_now h) (hb_lastPong h)) (proj2 (proj2 Hpos)) Hthr Hon
    (hw_misses _ _ Hw Hon)) as Hm.
  rewrite Et in Hm. destruct Hm as (Hm & [[-> Hcase]|[-> _]]); [|left; set_solver].
  right. split; [done|by split|done|done|]. pose proof (check_by_soon _ Hw') as Hs. simpl in Hs |- *.
  pose proof (check_by_late h Hw Ht). rewrite Hp in Hcase. unfold hb_period in *.
  destruct Hcase as [[Hage%time_sub_le ->]|[_ ->]]; lia.
Qed.

Lemma silence_run t p ops h :
  p + (hb_Interval o + hb_Timeout o) ≤ t → silence t p h → timely δ h ops → Forall silent_op ops →
  HbMiss (hb_MissThreshold o) ∈ (run_trace hb_step h ops).2 ∨
  hb_now (run_trace hb_step h ops).1 ≤ t + hb_MissThreshold o * hb_period.
Proof.
  intros Hpt. revert h. induction ops as [|op ops IH]; intros h Hs [Ht Hrest] Hops; simpl.
  - right. pose proof (check_by_late h (sl_wf _ _ _ Hs) Ht). pose proof (sl_by _ _ _ Hs).
    pose proof (hw_misses _ _ (sl_wf _ _ _ Hs) Hon). destruct Hpos as (? & ? & ?). unfold hb_period in *. nia.
  - destruct Hrest as [_ Hrest]. apply Forall_cons in Hops as [Hop Hops].
    pose proof (silence_step t p h op Hpt Hs Ht Hop) as Hstep.
    destruct (hb_step h op) as [h1 es]. specialize (IH h1). destruct (run_trace hb_step h1 ops) as [h2 es2]. simpl in *.
    destruct Hstep as [?|Hs1]; [left; set_solver|]. destruct (IH Hs1 Hrest Hops); [left; set_solver|by right].
Qed.
End Detection.

(** ** An agent that answers is not reported *)

(** A pong was recorded after the last ping. *)
Definition pong_since (evs : list hb_event) : Prop := ∃ a b, evs = a ++ HbPonged :: b ∧ HbPing ∉ b.

(** Every check finds its ping answered. *)
Definition answered (evs : list hb_event) : Prop := ∀ l1 l2, evs = l1 ++ HbCheck :: l2 → pong_since l1.

Lemma pong_since_ping evs : ¬ pong_since (evs ++ [HbPing]).
Proof.
  intros (a & b & E & Hb). destruct b as [|x b _] using rev_ind.
  - by apply app_inj_tail in E as [_ ?].
  - rewrite app_comm_cons, (assoc_L (++)) in E. apply app_inj_tail in E as [_ <-]. set_solver.
Qed.

Section Accuracy.
Variables (o : HeartbeatOptions) (δ : Z).
Hypotheses (Hpos : opts_pos o) (Hδ : 0 ≤ δ) (Hlate : 3 * δ ≤ hb_Interval o) (Hthr : in_i 64 (hb_MissThreshold o))
           (Hrange : hb_Interval o + hb_Timeout o < 2 ^ 63 - 1).

(** How old the last pong can be while a ping is answered. *)
Record prompt (evs : list hb_event) (h : Heartbeat) : Prop := mkPrompt {
  pm_wf : hb_wf o h;
  pm_recent : match hb_loop h with
    | HPinging => pong_since evs → hb_since h ≤ hb_lastPong h
    | HDeadline due f => (pong_since evs → due - hb_Timeout o - δ ≤ hb_lastPong h) ∧ (f = true → hb_since h ≤ due + δ)
    | _ => True
    end }.

Lemma fresh_tick m now p : now ≤ p + (hb_Interval o + hb_Timeout o) → hb_tick o m (time_sub now p) = (0, []).
Proof.
  intros H. unfold hb_tick. rewrite (proj2 (Z.ltb_ge _ _)); [done|].
  rewrite (stale_sum o) by done. destruct Hpos as (? & ? & ?). unfold time_sub. lia.
Qed.

Lemma prompt_step evs h op :
  prompt evs h → on_time δ h → in_i 64 (hb_now h) →
  (∀ l, (hb_step h op).2 = HbCheck :: l → pong_since evs) →
  prompt (evs ++ (hb_step h op).2) (hb_step h op).1 ∧ ∀ n, HbMiss n ∉ (hb_step h op).2.
Proof.
  intros [Hw Hp] Ht Hin Hck. pose proof (hb_step_wf o h op Hpos Hthr Hw) as Hw'. destruct Hpos as (P1 & P2 & P3).
  pose proof Hw as [H1 H2 H3 H4 H5 H6 H7 H8 H0 H9]. unfold on_time, hb_limit in Ht.
  destruct op as [| | |dt| | |pick]; simpl in *; rewrite ?app_nil_r.
  - split; [|set_solver]. split; [done|]. unfold hb_Start. by destruct (hb_running h).
  - split; [|intros n; set_solver]. split; [done|]. simpl.
    assert (i64 (hb_now h) = hb_now h) as -> by (by apply wrap_i_small).
    destruct (hb_loop h) as [| | | |due f|]; try done. specialize (H7 due f eq_refl).
    destruct Hp as [_ Hp]. split; [lia|done].
  - split; [|set_solver]. by split.
  - split; [|set_solver]. split; [done|]. simpl. destruct (hb_loop h) as [| | | |due f|]; done.
  - split; [|set_solver]. split; [done|]. unfold ticker_fire. destruct (hb_ticker h) as [w|]; [|done].
    destruct (w <=? hb_now h); [|done]. simpl. by destruct (hb_loop h) as [| | | |due f|].
  - split; [|set_solver]. split; [done|]. unfold deadline_fire. destruct (hb_loop h) as [| | | |due []|] eqn:El;
      try (by rewrite El). destruct (due <=? hb_now h); [|by rewrite El]. simpl.
    specialize (Ht _ eq_refl). destruct Hp as [Hp _]. split; [done|lia].
  - unfold hb_run in *. destruct (hb_loop h) as [| | | |due f|] eqn:El; simpl in *; rewrite ?app_nil_r in *;
      try (split; [by split; simpl; rewrite ?El|set_solver]).
    + destruct (hb_ctx h && _).
      { split; [|set_solver]. by split. }
      destruct (hb_tickC h); simpl in *; [|rewrite app_nil_r; split; [|set_solver]; by split; rewrite ?El].
      split; [|intros n; set_solver]. split; [done|]. simpl. by intros ?%pong_since_ping.
    + split; [|set_solver]. split; [done|]. simpl. specialize (Ht _ eq_refl). rewrite H1. split; [|done].
      intros Hs%Hp. lia.
    + destruct (hb_ctx h && _).
      { split; [|set_solver]. by split. }
      destruct f; simpl in *; [|rewrite app_nil_r; split; [|set_solver]; by split; rewrite ?El].
      specialize (Ht _ eq_refl). destruct Hp as [Hp Hf]. specialize (Hf eq_refl).
      rewrite H1 in *. destruct (hb_tick o _ _) as [m alarm] eqn:Et. simpl in *.
      specialize (Hp (Hck _ eq_refl)). rewrite fresh_tick in Et by lia. injection Et as <- <-.
      split; [by split|]. intros n. set_solver.
Qed.

Lemma prompt_run ops h evs :
  prompt evs h → timely δ h ops → answered (evs ++ (run_trace hb_step h ops).2) →
  ∀ n, HbMiss n ∉ (run_trace hb_step h ops).2.
Proof.
  revert h evs. induction ops as [|op ops IH]; intros h evs Hp [Ht [Hin Hrest]] Hans n; simpl in *; [set_solver|].
  pose proof (prompt_step evs h op Hp Ht Hin) as Hstep.
  destruct (hb_step h op) as [h1 es]. specialize (IH h1 (evs ++ es)).
  destruct (run_trace hb_step h1 ops) as [h2 es2]. simpl in *. rewrite <- (assoc_L (++)) in IH.
  destruct Hstep as [Hp1 Hno]; [|rewrite elem_of_app; intros [?|?]; [by eapply Hno|by eapply IH]].
  intros l ->. apply (Hans evs (l ++ es2)). done.
Qed.
End Accuracy.

(** ** Properties *)

Lemma hb_stale_run o ages :
  hb_OnMiss o = true → 0 < hb_MissThreshold o → in_i 64 (hb_MissThreshold o) →
  Forall (λ age, stale_after o < age) ages →
  run_trace (hb_tick o) 0 ages =
    (Z.of_nat (length ages) mod hb_MissThreshold o,
     replicate (Z.to_nat (Z.of_nat (length ages) / hb_MissThreshold o)) (hb_MissThreshold o)).
Proof.
  intros Hon HT Hin. set (T := hb_MissThreshold o) in *.
  induction ages as [|age ages IH] using rev_ind; intros Hst.
  { cbn [run_trace length]. change (Z.of_nat 0) with 0. by rewrite Z.mod_0_l, Z.div_0_l by lia. }
  apply Forall_app in Hst as [Hst Hage]. rewrite Forall_singleton in Hage.
  rewrite run_trace_app, (IH Hst), length_app, Nat2Z.inj_add. cbn [run_trace length].
  change (Z.of_nat 1) with 1. set (n := Z.of_nat (length ages)) in *.
  pose proof (Z.mod_pos_bound n T HT). pose proof (Z.div_mod n T ltac:(lia)) as Hdm.
  unfold hb_tick. fold T. rewrite (proj2 (Z.ltb_lt (stale_after o) age) Hage), Hon, andb_true_r.
  assert (i64 (n mod T + 1) = n mod T + 1) as -> by (apply wrap_i_small; [lia|]; unfold in_i in *; lia).
  assert (0 ≤ n / T) by (apply Z.div_pos; lia).
  destruct (Z.leb_spec T (n mod T + 1)) as [Hle|Hgt].
  - assert (n + 1 = T * (n / T + 1) + 0) as E by lia.
    rewrite <- (Z.mod_unique (n + 1) T (n / T + 1) 0), <- (Z.div_unique (n + 1) T (n / T + 1) 0) by lia.
    f_equal. rewrite app_nil_r. replace (n mod T + 1) with T by lia.
    replace (Z.to_nat (n / T + 1)) with (Z.to_nat (n / T) + 1)%nat by lia.
    by rewrite replicate_add.
  - rewrite <- (Z.mod_unique (n + 1) T (n / T) (n mod T + 1)), <- (Z.div_unique (n + 1) T (n / T) (n mod T + 1)) by lia.
    f_equal. by rewrite !app_nil_r.
Qed.

(** The heartbeat alarm.  After [n] consecutive stale checks the miss
    callback ran exactly [n / threshold] times, always with the threshold as
    argument, and one healthy check returns the counter to zero. *)
Theorem heartbeat_fires_every_threshold (o : HeartbeatOptions) (ages : list Z) (healthy misses : Z)
    (Hon : hb_OnMiss o = true) (Hthr : in_i 64 (hb_MissThreshold (hb_defaults o)))
    (Hst : Forall (λ age, stale_after (hb_defaults o) < age) ages)
    (Hok : healthy ≤ stale_after (hb_defaults o)) :
  let T := hb_MissThreshold (hb_defaults o) in
  run_trace (hb_tick (hb_defaults o)) 0 ages =
    (Z.of_nat (length ages) mod T, replicate (Z.to_nat (Z.of_nat (length ages) / T)) T) ∧
  hb_tick (hb_defaults o) misses healthy = (0, []).
Proof.
  split.
  - by apply hb_stale_run; [|apply hb_defaults_pos|..].
  - unfold hb_tick. by rewrite (proj2 (Z.ltb_ge _ _)).
Qed.

Lemma heartbeat_fires_every_threshold_witness :
  run_trace (hb_tick (hb_defaults (mkHB 10 5 2 true))) 0 [16; 20; 30; 99; 17] = (1, [2; 2]).
Proof.
  refine (proj1 (heartbeat_fires_every_threshold (mkHB 10 5 2 true) [16; 20; 30; 99; 17] 15 7 eq_refl _ _ _));
    [by split|repeat constructor|by apply Z.leb_le].
Defined.

Lemma hb_exit_stays h ops :
  hb_running h = true → hb_loop h = HExit →
  hb_loop (run_trace hb_step h ops).1 = HExit ∧ HbPing ∉ (run_trace hb_step h ops).2.
Proof.
  revert h. induction ops as [|op ops IH]; intros h Hr He; [set_solver|]. simpl.
  assert (hb_running (hb_step h op).1 = true ∧ hb_loop (hb_step h op).1 = HExit ∧ HbPing ∉ (hb_step h op).2) as (H1 & H2 & H3).
  { destruct op; simpl; unfold hb_Start, deadline_fire, hb_run, ticker_fire; rewrite ?Hr, ?He; try set_solver.
    repeat case_match; set_solver. }
  destruct (hb_step h op) as [h1 es]. simpl in *. destruct (IH h1 H1 H2). destruct (run_trace hb_step h1 ops). set_solver.
Qed.

(** [Start] launches at most one goroutine, [Wait] returns exactly when none
    is alive, and a heartbeat whose context ended stays ended: starting it
    again sends no ping. *)
Theorem heartbeat_runs_once (o : HeartbeatOptions) (now : Z) (ops more : list hb_op)
    (Hthr : in_i 64 (hb_MissThreshold o)) :
  let h := (run_trace hb_step (NewHeartbeat now o) ops).1 in
  0 ≤ hb_wg h ≤ 1 ∧ (hb_Wait h = false ↔ hb_active h) ∧
  (hb_loop h = HExit → HbPing ∉ (run_trace hb_step h (HOStart :: more)).2).
Proof.
  intros h. assert (in_i 64 (hb_MissThreshold (hb_defaults o))) as Hin by (simpl; by case_match).
  pose proof (hb_run_wf o now ops Hin) as Hw. fold h in Hw. pose proof (hw_wg _ _ Hw) as Hg.
  unfold hb_Wait, hb_active. split; [by rewrite Hg; case_match|]. split.
  - rewrite Hg. destruct (hb_loop h); split; try done; by intros [].
  - intros He. apply hb_exit_stays; [|done]. apply not_false_is_true. intros Hr%(hw_running _ _ Hw). congruence.
Qed.

(** C35: a heartbeat reports silence and only silence.  Let timers and
    scheduling be late by at most [δ], with three times [δ] at most the
    interval.  If every ping is answered before its check, [OnMiss] never
    runs.  If a running heartbeat whose context is not done hears nothing
    more, then once the clock passes the last pong (or the start of the
    silence) by the interval, the timeout and one full turn per missed ping
    of the threshold, [OnMiss] has run, with the threshold as argument. *)
Theorem heartbeat_reports_silence (o : HeartbeatOptions) (now δ : Z) (ops more : list hb_op)
    (Hon : hb_OnMiss o = true) (Hthr : in_i 64 (hb_MissThreshold o))
    (Hrange : hb_Interval (hb_defaults o) + hb_Timeout (hb_defaults o) < 2 ^ 63 - 1)
    (Hδ : 0 ≤ δ) (Hlate : 3 * δ ≤ hb_Interval (hb_defaults o)) :
  let '(h, evs) := run_trace hb_step (NewHeartbeat now o) ops in
  let '(h', evs') := run_trace hb_step h more in
  (timely δ (NewHeartbeat now o) ops → answered evs → ∀ n, HbMiss n ∉ evs) ∧
  (hb_running h = true → hb_ctx h = false → timely δ h more → Forall silent_op more →
   Z.max (hb_now h) (hb_lastPong h + (hb_Interval (hb_defaults o) + hb_Timeout (hb_defaults o))) +
     hb_MissThreshold (hb_defaults o) * hb_period (hb_defaults o) δ < hb_now h' →
   HbMiss (hb_MissThreshold (hb_defaults o)) ∈ evs').
Proof.
  set (O := hb_defaults o) in *. pose proof (hb_defaults_pos o) as Hpos. fold O in Hpos.
  assert (in_i 64 (hb_MissThreshold O)) as Hin by (simpl; by case_match).
  pose proof (hb_run_wf o now ops Hin) as Hw. fold O in Hw.
  pose proof (prompt_run O δ Hpos Hδ Hlate Hin Hrange ops (NewHeartbeat now o) []) as Hquiet.
  destruct (run_trace hb_step (NewHeartbeat now o) ops) as [h evs]. simpl in Hw, Hquiet.
  set (p := hb_lastPong h). set (t := Z.max (hb_now h) (p + (hb_Interval O + hb_Timeout O))).
  pose proof (silence_run O δ Hpos Hδ Hin Hon Hrange t p more h ltac:(lia)) as Hloud.
  destruct (run_trace hb_step h more) as [h' evs']. cbn [fst snd] in Hloud. split.
  - intros Ht Ha n. apply Hquiet; [|done..]. split; [apply NewHeartbeat_wf|done].
  - intros Hr Hc Ht Hs Hlt. destruct Hloud as [?|?]; [|done..|lia].
    pose proof (check_by_soon O δ Hpos Hδ h Hw). pose proof (hw_misses _ _ Hw Hon). destruct Hpos as (? & ? & ?).
    split; [done| |done|done|].
    + split; intros E; [apply (hw_running _ _ Hw) in E|apply (hw_exit _ _ Hw) in E]; congruence.
    + unfold hb_period in *. nia.
Qed.

(** [timely] as a program. *)
Definition on_timeb (δ : Z) (h : Heartbeat) : bool :=
  match hb_limit δ h with Some l => hb_now h <=? l | None => true end.
Fixpoint timelyb (δ : Z) (h : Heartbeat) (ops : list hb_op) : bool :=
  on_timeb δ h && (- 2 ^ 63 <=? hb_now h) && (hb_now h <? 2 ^ 63) &&
  match ops with [] => true | op :: ops' => timelyb δ (hb_step h op).1 ops' end.

Lemma timelyb_ok δ h ops : timelyb δ h ops = true → timely δ h ops.
Proof.
  revert h. induction ops as [|op ops IH]; intros h H; simpl in *;
    apply andb_true_iff in H as [[[Ht Hl]%andb_true_iff Hu]%andb_true_iff Hr];
    (split; [intros l El; unfold on_timeb in Ht; rewrite El in Ht; lia|split; [unfold in_i; lia|auto]]).
Qed.

Definition ex_hb : HeartbeatOptions := mkHB 10 5 2 true.
Definition ex_turn : list hb_op := [HOTicker; HORun false; HORun false; HOAdvance 5; HODeadline; HORun false; HOAdvance 5].
Definition ex_silence : list hb_op := HOAdvance 10 :: mjoin (replicate 6 ex_turn).

Definition ex_started : Heartbeat := Eval vm_compute in (run_trace hb_step (NewHeartbeat 0 ex_hb) [HOStart; HORun false]).1.
Definition ex_end : Heartbeat := Eval vm_compute in (run_trace hb_step ex_started ex_silence).1.
Definition ex_events : list hb_event := Eval vm_compute in (run_trace hb_step ex_started ex_silence).2.

Lemma heartbeat_reports_silence_witness :
  run_trace hb_step (NewHeartbeat 0 ex_hb) [HOStart; HORun false] = (ex_started, []) ∧
  run_trace hb_step ex_started ex_silence = (ex_end, ex_events) ∧ HbMiss 2 ∈ ex_events.
Proof.
  assert (run_trace hb_step (NewHeartbeat 0 ex_hb) [HOStart; HORun false] = (ex_started, [])) as E1 by (vm_compute; reflexivity).
  assert (run_trace hb_step ex_started ex_silence = (ex_end, ex_events)) as E2 by (vm_compute; reflexivity).
  split; [exact E1|]. split; [exact E2|].
  pose proof (heartbeat_reports_silence ex_hb 0 1 [HOStart; HORun false] ex_silence eq_refl
    ltac:(by split) ltac:(by apply Z.ltb_lt) ltac:(by apply Z.leb_le) ltac:(by apply Z.leb_le)) as H.
  rewrite E1 in H. cbv beta iota in H. rewrite E2 in H. destruct H as [_ H].
  refine (H eq_refl eq_refl _ _ _); clear H.
  - apply timelyb_ok. vm_compute. reflexivity.
  - repeat constructor.
  - vm_compute. reflexivity.
Defined.
