(* ===== verification/Controller.v ===== *)
(** * The controller of one agent: internal/controller/controller.go, crash.go,
    reattach.go

    One controller owns one connection and turns inbound messages into state
    changes.  [Start] and [Stop] are split where they wait: [Start] at the
    select of the capability negotiation, [Stop] at the acknowledgement.  The
    handlers here run without interruption up to those waits and say which
    state changes owe a call of the state callback; the file Callbacks takes
    them apart into the steps of their goroutines, callback included. *)

From S2P Require Import Prelude Frame Seq Outbox Wal Spiller Message Conn CwTypes PtySubs.

Inductive CrashSource :=
| CrashSourceNone | CrashSourceExplicit | CrashSourceConnectionLost
| CrashSourceHeartbeat | CrashSourceOSWait.

#[global] Instance CrashSource_eq_dec : EqDecision CrashSource.
Proof. solve_decision. Defined.

(** [CrashSource.String]. *)
Definition CrashSource_String (s : CrashSource) : string :=
  match s with
  | CrashSourceExplicit => "explicit"
  | CrashSourceConnectionLost => "connection_lost"
  | CrashSourceHeartbeat => "heartbeat"
  | CrashSourceOSWait => "os_wait"
  | CrashSourceNone => "none"
  end.

(** [c.capReplyCh], a channel of capacity one. *)
Inductive cap_chan := CapNil | CapOpen (buf : option (list string)) | CapClosed.

(** [ct_handle]: no agent handle, or one and whether it was closed. *)
Record Controller := mkCtl {
  ct_Spec : Spec;
  ct_OutboxCapacity : Z;
  ct_DisableWAL : bool;
  ct_hasLogChunk : bool;
  ct_state : State;
  ct_handle : option bool;
  ct_conn : option Conn;
  ct_childPID : Z;
  ct_features : list string;
  ct_capReplyCh : cap_chan;
  ct_crashSource : CrashSource;
  ct_pty : pty_state;
  ct_onStateChange : bool;
  ct_closed : bool
}.

Inductive ctl_event :=
| CEChange (s : State)                   (** the state changed: its callback is due *)
| CEReport (s : State)                   (** the state callback ran (file Callbacks) *)
| CELog (stream : Z) (data : bytes)      (** the log callback ran *)
| CEStarted (pid : Z)                    (** a decodable CHILD_STARTED arrived *)
| CEExited (code : Z)                    (** a decodable CHILD_EXITED arrived *)
| CEPanic.

Inductive ctl_err :=
| ErrSpawnerRequired | ErrRuntimeDir | ErrSpawn | ErrConn (e : conn_err) | ErrNegotiate
| ErrPTYUnsupportedByAgent | ErrEncode (e : codec_err) | ErrNilConn | ErrAwait (e : conn_err).

(** Record updates. *)
Definition with_state (c : Controller) (s : State) : Controller :=
  mkCtl (ct_Spec c) (ct_OutboxCapacity c) (ct_DisableWAL c) (ct_hasLogChunk c) s (ct_handle c)
    (ct_conn c) (ct_childPID c) (ct_features c) (ct_capReplyCh c) (ct_crashSource c) (ct_pty c)
    (ct_onStateChange c) (ct_closed c).
Definition with_conn (c : Controller) (h : option bool) (cn : option Conn) (ch : cap_chan) : Controller :=
  mkCtl (ct_Spec c) (ct_OutboxCapacity c) (ct_DisableWAL c) (ct_hasLogChunk c) (ct_state c) h
    cn (ct_childPID c) (ct_features c) ch (ct_crashSource c) (ct_pty c)
    (ct_onStateChange c) (ct_closed c).
Definition with_child (c : Controller) (pid : Z) (features : list string) (src : CrashSource)
    (pty : pty_state) : Controller :=
  mkCtl (ct_Spec c) (ct_OutboxCapacity c) (ct_DisableWAL c) (ct_hasLogChunk c) (ct_state c)
    (ct_handle c) (ct_conn c) pid features (ct_capReplyCh c) src pty
    (ct_onStateChange c) (ct_closed c).
Definition with_closed (c : Controller) (cb closed : bool) : Controller :=
  mkCtl (ct_Spec c) (ct_OutboxCapacity c) (ct_DisableWAL c) (ct_hasLogChunk c) (ct_state c)
    (ct_handle c) (ct_conn c) (ct_childPID c) (ct_features c) (ct_capReplyCh c) (ct_crashSource c)
    (ct_pty c) cb closed.

Definition SetOnStateChange (c : Controller) (cb : bool) : Controller := with_closed c cb (ct_closed c).

(** [State], [CrashSource] and [ChildPID]. *)
Definition ctl_State (c : Controller) : State := ct_state c.
Definition ctl_CrashSource (c : Controller) : CrashSource := ct_crashSource c.
Definition ChildPID (c : Controller) : Z := ct_childPID c.

(** [setState] up to its early return: the swap.  On a change the callback is
    due, which [Callbacks.todo_step] reads and calls. *)
Definition setState (c : Controller) (s : State) : Controller * list ctl_event :=
  if decide (ct_state c = s) then (c, []) else (with_state c s, [CEChange s]).

Definition NewController (spec : Spec) (has_spawner : bool) (runtimeDir : string)
    (outcap : Z) (disableWAL hasLog : bool) : result ctl_err Controller :=
  if negb has_spawner then Err ErrSpawnerRequired
  else if String.eqb runtimeDir "" then Err ErrRuntimeDir
  else Ok (mkCtl spec outcap disableWAL hasLog StatePending None None 0 [] CapNil
             CrashSourceNone pty_init false false).

(** [agentHasFeature]. *)
Definition agentHasFeature (c : Controller) (name : string) : bool :=
  existsb (String.eqb name) (ct_features c).

(** [Controller.send]; without a connection the call is a nil dereference. *)
Definition send {A} `{!Codec A} (s : enq_sched) (c : Controller) (t : Z) (payload : option A) (ack : bool)
    : Controller * option ctl_err :=
  let data := match payload with
              | None => Ok []
              | Some p => EncodePayload p
              end in
  match data with
  | Err e => (c, Some (ErrEncode e))
  | Ok data =>
      match ct_conn c with
      | None => (c, Some ErrNilConn)
      | Some cn =>
          let '(cn', _, _) := SendWithNewSeq s cn t (if ack then FlagAckRequired else 0) data in
          (with_conn c (ct_handle c) (Some cn') (ct_capReplyCh c), None)
      end
  end.

(** [SendPTY] (pty.go). *)
Definition SendPTY (s : enq_sched) (c : Controller) (t : Z) (payload : bytes) : Controller * option ctl_err :=
  match ct_conn c with
  | None => (c, Some ErrNilConn)
  | Some cn =>
      let '(cn', _, _) := SendWithNewSeq s cn t 0 payload in
      (with_conn c (ct_handle c) (Some cn') (ct_capReplyCh c), None)
  end.

(** The disconnect callback [Start] and the reattach constructor install. *)
Definition on_disconnect (c : Controller) : Controller * list ctl_event :=
  setState (with_child c (ct_childPID c) (ct_features c) CrashSourceConnectionLost (ct_pty c)) StateCrashed.

(** [time.Duration.Milliseconds]. *)
Definition Milliseconds (d : Z) : Z := Z.quot d 1000000.

Section Messages.
Context `{!Codec HelloPayload, !Codec StartChildPayload, !Codec StopChildPayload,
          !Codec CapabilityReply, !Codec ChildStartedPayload, !Codec ChildExitedPayload,
          !Codec ChildErrorPayload, !Codec LogChunkPayload, !Codec Message.PTYData,
          !Codec PTYRingDumpPayload}.

(** How [Start] ends a section: an error is followed by [setState]. *)
Definition start_result (x : Controller * result ctl_err ()) : Controller * result ctl_err () * list ctl_event :=
  match x with
  | (c, Ok _) => (c, Ok (), [])
  | (c, Err e) => let '(c', evs) := setState c StateCrashed in (c', Err e, evs)
  end.

(** [handle.Close()]. *)
Definition close_agent (c : Controller) : Controller :=
  with_conn c (Some true) (ct_conn c) (ct_capReplyCh c).

(** [Start] between its first [setState] and the select of
    [negotiateCapabilities].  [sock]: what [Spawn] returned (no socket: its
    error). *)
Definition Start_spawn (s : enq_sched) (sock : option (Reader * Writer)) (wal : option bytes)
    (wal_fails : bool) (c : Controller) : Controller * result ctl_err () :=
  match sock with
  | None => (c, Err ErrSpawn)
  | Some rw =>
      let capacity := if ct_OutboxCapacity c <=? 0 then 1024 else ct_OutboxCapacity c in
      match NewConn (mkConnConfig (Some rw) wal wal_fails capacity (256 * 1024 * 1024) (ct_DisableWAL c) 0) with
      | Err e => (close_agent c, Err (ErrConn e))
      | Ok cn =>
          let cn1 := Conn.Start (SetOnDisconnect (OnMessage cn true) true) in
          let c2 := with_conn c (Some false) (Some cn1) (CapOpen None) in
          let '(c3, _) := send s c2 MsgHello (Some (mkHello ProtocolVersion (spec_ID (ct_Spec c)) 0)) false in
          let '(c4, qerr) := send (A := HelloPayload) s c3 MsgTypeCapabilityQuery None false in
          match qerr with
          | Some e => (close_agent c4, Err ErrNegotiate)
          | None => (c4, Ok ())
          end
      end
  end.

(** [Start] up to that select. *)
Definition Start_begin (s : enq_sched) (sock : option (Reader * Writer)) (wal : option bytes)
    (wal_fails : bool) (c : Controller) : Controller * result ctl_err () * list ctl_event :=
  let '(c1, e1) := setState c StateStarting in
  let '(c2, r, e2) := start_result (Start_spawn s sock wal wal_fails c1) in (c2, r, e1 ++ e2).

Inductive cap_case := CaseReply | CaseDeadline | CaseCtxDone.

(** The START_CHILD payload of a spec. *)
Definition start_payload (sp : Spec) : StartChildPayload :=
  mkStartChild (spec_Command sp) (spec_Args sp) (spec_Env sp) (spec_WorkDir sp) 0
    (Milliseconds (spec_StopTimeout sp))
    match spec_PTY sp with
    | Some p => Some (mkStartChildPTY (pty_InitialCols p) (pty_InitialRows p) (pty_Echo p))
    | None => None
    end.

(** The tail of [Start]: the PTY check and START_CHILD. *)
Definition Start_child (s : enq_sched) (c : Controller) : Controller * result ctl_err () :=
  if match spec_PTY (ct_Spec c) with Some _ => negb (agentHasFeature c "pty") | None => false end
  then (close_agent c, Err ErrPTYUnsupportedByAgent)
  else
    let '(c', _) := send s c MsgStartChild (Some (start_payload (ct_Spec c))) true in (c', Ok ()).

(** [Start] from that select, after one of its cases, to its last [setState];
    [None] when the case is not ready. *)
Definition Start_rest (s : enq_sched) (k : cap_case) (c : Controller) : option (Controller * result ctl_err ()) :=
  match k with
  | CaseReply =>
      match ct_capReplyCh c with
      | CapOpen (Some features) =>
          Some (Start_child s (with_child (with_conn c (ct_handle c) (ct_conn c) (CapOpen None))
                                 (ct_childPID c) features (ct_crashSource c) (ct_pty c)))
      | CapClosed => Some (Start_child s c)
      | _ => None
      end
  | CaseDeadline => Some (Start_child s c)
  | CaseCtxDone => Some (close_agent c, Err ErrNegotiate)
  end.

(** The rest of [Start]. *)
Definition Start_finish (s : enq_sched) (k : cap_case) (c : Controller)
    : option (Controller * result ctl_err () * list ctl_event) :=
  start_result <$> Start_rest s k c.

Inductive stop_result := StopDone (e : option ctl_err) | StopWaiting (seq : Z) (ch : nat).

(** The early return of [Stop]. *)
Definition stop_early (c : Controller) : bool :=
  bool_decide (ct_state c = StateStopped ∨ ct_state c = StateFailed).

(** [Stop] from its [setState] up to the wait for the acknowledgement. *)
Definition Stop_send (s : enq_sched) (c : Controller) : Controller * stop_result :=
  let p := mkStopChild (Milliseconds (spec_StopTimeout (ct_Spec c))) in
  match EncodePayload p with
  | Err e => (c, StopDone (Some (ErrEncode e)))
  | Ok data =>
      if agentHasFeature c "frame_ack" then
        match ct_conn c with
        | None => (c, StopDone (Some ErrNilConn))
        | Some cn =>
            let '(cn', r, _) := SendAndAwaitAck_begin s cn MsgStopChild 0 data in
            let c2 := with_conn c (ct_handle c) (Some cn') (ct_capReplyCh c) in
            match r with
            | Ok (seq, ch) => (c2, StopWaiting seq ch)
            | Err e => (c2, StopDone (Some (ErrAwait e)))
            end
        end
      else let '(c2, err) := send s c MsgStopChild (Some p) true in (c2, StopDone err)
  end.

(** [Stop] up to that wait. *)
Definition Stop (s : enq_sched) (c : Controller) : Controller * stop_result * list ctl_event :=
  if stop_early c then (c, StopDone None, [])
  else
    let '(c1, e1) := setState c StateStopping in
    let '(c2, r) := Stop_send s c1 in (c2, r, e1).

(** [handleMessage].  A reply on a closed capability channel panics. *)
Definition handleMessage (c : Controller) (msg : OutboxMessage) : Controller * list ctl_event :=
  let t := h_MsgType (m_Header msg) in
  let body := m_Payload msg in
  if t =? MsgTypeCapabilityReply then
    match decode_new (A := CapabilityReply) body with
    | (_, Some _) => (c, [])
    | (reply, None) =>
        match ct_capReplyCh c with
        | CapOpen None => (with_conn c (ct_handle c) (ct_conn c) (CapOpen (Some (cr_Features reply))), [])
        | CapClosed => (c, [CEPanic])
        | _ => (c, [])
        end
    end
  else if t =? MsgHelloAck then (c, [])
  else if t =? MsgChildStarted then
    match decode_ok (A := ChildStartedPayload) body with
    | Some p =>
        let '(c', evs) := setState (with_child c (cs_PID p) (ct_features c) (ct_crashSource c) (ct_pty c))
                            StateRunning in
        (c', CEStarted (cs_PID p) :: evs)
    | None => (c, [])
    end
  else if t =? MsgChildExited then
    match decode_ok (A := ChildExitedPayload) body with
    | Some p =>
        let '(c', evs) := if decide (ct_state c = StateStopping ∨ ce_ExitCode p = 0)
                          then setState c StateStopped else setState c StateCrashed in
        (c', CEExited (ce_ExitCode p) :: evs)
    | None => (c, [])
    end
  else if t =? MsgChildError then
    let '(p, _) := decode_new (A := ChildErrorPayload) body in
    if negb (cerr_Transient p) then setState c StateCrashed else (c, [])
  else if t =? MsgLogChunk then
    if negb (ct_hasLogChunk c) then (c, [])
    else match decode_ok (A := LogChunkPayload) body with
         | Some p => (c, [CELog (lc_Stream p) (lc_Data p)])
         | None => (c, [])
         end
  else if t =? MsgTypePTYData then
    match decode_new (A := Message.PTYData) body with
    | (d, None) => (with_child c (ct_childPID c) (ct_features c) (ct_crashSource c)
                      (fanOut (ct_pty c) (mkPTYData (pd_Seq d) (pd_Bytes d))), [])
    | (_, Some _) => (c, [])
    end
  else if t =? MsgTypePTYRingDump then
    match decode_ok (A := PTYRingDumpPayload) body with
    | Some p => (with_child c (ct_childPID c) (ct_features c) (ct_crashSource c)
                   (SetInitialPTYBuffer (ct_pty c) (rd_Bytes p)), [])
    | None => (c, [])
    end
  else (c, []).
(** ** Reattaching to a persistent agent: reattach.go *)

Inductive handshake_err := HsRead (e : io_err) | HsHeader (e : frame_err) | HsUnexpectedType (t : Z)
                         | HsDecode (e : codec_err).

(** [readOneFrame]: one header and body, straight off the socket. *)
Definition readOneFrame (r : Reader) : Reader * result handshake_err (Header * bytes) :=
  let '(r1, headerBuf, e1) := ReadFull HeaderSize r in
  match e1 with
  | Some e => (r1, Err (HsRead e))
  | None =>
      let '(hdr, e2) := Decode zero_header headerBuf in
      match e2 with
      | Some e => (r1, Err (HsHeader e))
      | None =>
          let '(r2, body, e3) := ReadFull (Z.to_nat (h_Length hdr)) r1 in
          match e3 with
          | Some e => (r2, Err (HsRead e))
          | None => (r2, Ok (hdr, body))
          end
      end
  end.

(** [ReadHandshakeHello] and [ReadHandshakePTYRingDump]. *)
Definition read_handshake {A} `{!Codec A, !Zero A} (t : Z) (r : Reader)
    : Reader * result handshake_err A :=
  let '(r1, f) := readOneFrame r in
  match f with
  | Err e => (r1, Err e)
  | Ok (hdr, body) =>
      if negb (h_MsgType hdr =? t) then (r1, Err (HsUnexpectedType (h_MsgType hdr)))
      else match Unmarshal body zero with
           | (p, None) => (r1, Ok p)
           | (_, Some e) => (r1, Err (HsDecode e))
           end
  end.
Definition ReadHandshakeHello : Reader → Reader * result handshake_err HelloPayload :=
  read_handshake MsgHello.
Definition ReadHandshakePTYRingDump : Reader → Reader * result handshake_err PTYRingDumpPayload :=
  read_handshake MsgTypePTYRingDump.

Definition NewControllerFromReattach (spec : Spec) (sock : option (Reader * Writer)) (initial : bytes)
    (runtimeDir : string) (wal : option bytes) (wal_fails : bool) (outcap : Z) (disableWAL hasLog : bool)
    : result ctl_err Controller :=
  match sock with
  | None => Err (ErrConn ErrRWCRequired)
  | Some rw =>
      if String.eqb runtimeDir "" then Err ErrRuntimeDir
      else
        let capacity := if outcap <=? 0 then 1024 else outcap in
        match NewConn (mkConnConfig (Some rw) wal wal_fails capacity (256 * 1024 * 1024) disableWAL 0) with
        | Err e => Err (ErrConn e)
        | Ok cn =>
            let pty := if (0 <? length initial)%nat then SetInitialPTYBuffer pty_init initial else pty_init in
            let cn1 := Conn.Start (SetOnDisconnect (OnMessage cn true) true) in
            Ok (fst (setState
                  (mkCtl spec outcap disableWAL hasLog StatePending None (Some cn1) 0
                     ["pty"; "persistence"]%string CapClosed CrashSourceNone pty false false)
                  StateRunning))
        end
  end.
End Messages.

Section Shutdown.
Context `{!Codec AckPayload}.

(** [Close] and, with [kill = false], [CloseConnOnly]. *)
Definition close_conn (kill : bool) (ctx_first fired pick : bool) (c : Controller) : Controller :=
  if ct_closed c then c
  else
    let c1 := with_closed c (ct_onStateChange c) true in
    let c2 := match ct_conn c1 with
              | None => c1
              | Some cn =>
                  match Conn.Close ctx_first fired pick cn with
                  | Some (cn', _, _) => with_conn c1 (ct_handle c1) (Some cn') (ct_capReplyCh c1)
                  | None => c1
                  end
              end in
    match ct_handle c2 with
    | Some _ => if kill then with_conn c2 (Some true) (ct_conn c2) (ct_capReplyCh c2) else c2
    | None => c2
    end.

Definition Close (ctx_first fired pick : bool) (c : Controller) : Controller :=
  close_conn true ctx_first fired pick c.
Definition CloseConnOnly (ctx_first fired pick : bool) (c : Controller) : Controller :=
  close_conn false ctx_first fired pick c.
End Shutdown.

(** ** Crash information: crash.go *)

Record CrashInfo := mkCrash {
  ci_Source : CrashSource; ci_AgentExit : Z; ci_AgentSig : Z; ci_ChildExit : Z; ci_ChildSig : Z;
  ci_Reason : string; ci_DetectedAt : Z }.

Definition no_crash : CrashInfo := mkCrash CrashSourceNone 0 0 0 0 "" 0.

(** [CrashInfo.Record] at time [now]. *)
Definition Record_ (now : Z) (c : CrashInfo) (src : CrashSource) (data : CrashInfo) : CrashInfo :=
  let c1 := if decide (ci_Source c = CrashSourceNone)
            then mkCrash src (ci_AgentExit c) (ci_AgentSig c) (ci_ChildExit data) (ci_ChildSig data)
                   (ci_Reason data) now
            else c in
  if decide (src = CrashSourceOSWait ∨ ci_AgentExit c1 = 0)
  then if decide (ci_AgentExit data ≠ 0 ∨ ci_AgentSig data ≠ 0)
       then mkCrash (ci_Source c1) (ci_AgentExit data) (ci_AgentSig data) (ci_ChildExit c1) (ci_ChildSig c1)
              (ci_Reason c1) (ci_DetectedAt c1)
       else c1
  else c1.

(** ** Runs of a controller *)

Inductive ctl_op :=
| CtlMessage (msg : OutboxMessage)
| CtlDisconnect
| CtlStartBegin (s : enq_sched) (sock : option (Reader * Writer)) (wal : option bytes) (wal_fails : bool)
| CtlStartFinish (s : enq_sched) (k : cap_case)
| CtlStop (s : enq_sched)
| CtlClose (kill ctx_first fired pick : bool).

Section Run.
Context `{!Codec HelloPayload, !Codec StartChildPayload, !Codec StopChildPayload,
          !Codec CapabilityReply, !Codec ChildStartedPayload, !Codec ChildExitedPayload,
          !Codec ChildErrorPayload, !Codec LogChunkPayload, !Codec Message.PTYData,
          !Codec PTYRingDumpPayload, !Codec AckPayload}.

Definition ctl_step (c : Controller) (op : ctl_op) : Controller * list ctl_event :=
  match op with
  | CtlMessage m => handleMessage c m
  | CtlDisconnect => on_disconnect c
  | CtlStartBegin s sock wal wf => let '(c', _, evs) := Start_begin s sock wal wf c in (c', evs)
  | CtlStartFinish s k => match Start_finish s k c with Some (c', _, evs) => (c', evs) | None => (c, []) end
  | CtlStop s => let '(c', _, evs) := Stop s c in (c', evs)
  | CtlClose kill a b d => (close_conn kill a b d c, [])
  end.
End Run.

Definition ev_change (e : ctl_event) : option State :=
  match e with CEChange s => Some s | _ => None end.
Definition ev_started (e : ctl_event) : option Z :=
  match e with CEStarted pid => Some pid | _ => None end.

(** A sequence of states in which no one repeats its predecessor. *)
Fixpoint no_repeat (s : State) (l : list State) : Prop :=
  match l with [] => True | x :: l' => x ≠ s ∧ no_repeat x l' end.

(** What every run from construction keeps. *)
Record ctl_inv (c : Controller) (evs : list ctl_event) : Prop := mkCtlInv {
  cti_state : ct_state c = default StatePending (last (omap ev_change evs));
  cti_norep : no_repeat StatePending (omap ev_change evs);
  cti_known : ct_state c ≠ StateRestarting ∧ ct_state c ≠ StateFailed ∧ ∀ n, ct_state c ≠ StateOther n;
  cti_pid : ct_childPID c = default 0 (last (omap ev_started evs));
  cti_running : ct_state c = StateRunning → omap ev_started evs ≠ [];
  cti_stopped : ct_state c = StateStopped →
    ∃ code, CEExited code ∈ evs ∧ (code = 0 ∨ StateStopping ∈ omap ev_change evs)
}.

Lemma no_repeat_snoc s l x :
  no_repeat s (l ++ [x]) ↔ no_repeat s l ∧ x ≠ default s (last l).
Proof.
  revert s. induction l as [|y l IH]; intros s; [simpl; tauto|]. cbn [app no_repeat].
  rewrite IH, last_cons. destruct (last l); simpl; tauto.
Qed.

(** The part of the controller the invariant reads. *)
Definition same_life (c c' : Controller) : Prop :=
  ct_state c' = ct_state c ∧ ct_childPID c' = ct_childPID c.

Definition silent (evs : list ctl_event) : Prop := omap ev_change evs = [] ∧ omap ev_started evs = [].

Lemma ctl_inv_silent c c' evs es :
  ctl_inv c evs → same_life c c' → silent es → ctl_inv c' (evs ++ es).
Proof.
  intros [H2 H3 H4 H5 H6 H7] (E1 & E2) [S1 S2].
  split; rewrite ?E1, ?E2, ?omap_app, ?S1, ?S2, ?app_nil_r; try done.
  intros Hs. destruct (H7 Hs) as (code & Hin & Hc). exists code. split; [set_solver|done].
Qed.

(** A state the controller may enter, given what was seen. *)
Definition enterable (s : State) (evs : list ctl_event) : Prop :=
  match s with
  | StatePending | StateStarting | StateStopping | StateCrashed => True
  | StateRunning => omap ev_started evs ≠ []
  | StateStopped => ∃ code, CEExited code ∈ evs ∧ (code = 0 ∨ StateStopping ∈ omap ev_change evs)
  | _ => False
  end.

Lemma ctl_inv_setState c evs s :
  ctl_inv c evs → enterable s evs → ctl_inv (setState c s).1 (evs ++ (setState c s).2).
Proof.
  intros H Hs. unfold setState. case_decide as E.
  { eapply ctl_inv_silent; [done|done|done]. }
  destruct H as [H2 H3 H4 H5 H6 H7]. simpl.
  split; simpl; rewrite ?omap_app; simpl; rewrite ?app_nil_r; try done.
  - by rewrite last_snoc.
  - apply no_repeat_snoc. split; [done|]. rewrite <- H2. done.
  - by destruct s.
  - intros ->. done.
  - intros ->. destruct Hs as (code & Hin & Hc). exists code. split; [set_solver|]. set_solver.
Qed.

Section RunInv.
Context `{!Codec HelloPayload, !Codec StartChildPayload, !Codec StopChildPayload,
          !Codec CapabilityReply, !Codec ChildStartedPayload, !Codec ChildExitedPayload,
          !Codec ChildErrorPayload, !Codec LogChunkPayload, !Codec Message.PTYData,
          !Codec PTYRingDumpPayload, !Codec AckPayload}.

Lemma silent_nil : silent [].
Proof. done. Qed.
#[local] Hint Resolve silent_nil : cliwrap.
#[local] Hint Extern 1 (same_life _ _) => (repeat split) : cliwrap.

Lemma ctl_inv_same c c' evs : ctl_inv c evs → same_life c c' → ctl_inv c' evs.
Proof. intros. rewrite <- (app_nil_r evs). by eapply ctl_inv_silent. Qed.

Lemma send_life {A} `{!Codec A} s c t (p : option A) ack : same_life c (send s c t p ack).1.
Proof.
  unfold send. repeat (case_match; simplify_eq/=); by repeat split.
Qed.

Lemma same_life_trans c1 c2 c3 : same_life c1 c2 → same_life c2 c3 → same_life c1 c3.
Proof. unfold same_life. intros (? & ?) (? & ?). split; congruence. Qed.

(** [setState] applied to a controller that differs from [c] only in what the
    invariant ignores. *)
Lemma ctl_inv_setState' c c1 evs s :
  ctl_inv c evs → same_life c c1 → enterable s evs →
  ctl_inv (setState c1 s).1 (evs ++ (setState c1 s).2).
Proof. intros. apply ctl_inv_setState; [by eapply ctl_inv_same|done]. Qed.

Lemma Start_spawn_life s sock wal wf c : same_life c (Start_spawn s sock wal wf c).1.
Proof.
  unfold Start_spawn. destruct sock as [rw|]; [|done]. destruct (NewConn _) as [cn|e]; [|done].
  set (c2 := with_conn _ _ _ _). set (hello := Some _).
  pose proof (send_life s c2 MsgHello hello false) as Hs1.
  destruct (send s c2 MsgHello hello false) as [c3 x]. simpl in Hs1.
  pose proof (send_life (A := HelloPayload) s c3 MsgTypeCapabilityQuery None false) as Hs2.
  assert (same_life c c3) as Hc3 by (eapply same_life_trans; [|done]; done).
  destruct (send s c3 MsgTypeCapabilityQuery None false) as [c4 [q|]]; simpl in *;
    by eapply same_life_trans.
Qed.

Lemma Start_child_life s c : same_life c (Start_child s c).1.
Proof.
  unfold Start_child. destruct (match spec_PTY (ct_Spec c) with Some _ => _ | None => _ end); [done|].
  set (p := Some _). pose proof (send_life s c MsgStartChild p true) as Hs.
  by destruct (send s c MsgStartChild p true) as [c2 x].
Qed.

Lemma Start_rest_life s k c c' r : Start_rest s k c = Some (c', r) → same_life c c'.
Proof.
  intros H. assert (∀ c0, same_life c c0 → Start_child s c0 = (c', r) → same_life c c') as Hc.
  { intros c0 Hl E. eapply same_life_trans; [done|]. pose proof (Start_child_life s c0) as Hs. by rewrite E in Hs. }
  unfold Start_rest in H. destruct k; [destruct (ct_capReplyCh c) as [|[f|]|]| |]; try done; injection H as H;
    try (by eapply Hc; [|done]). by subst c'.
Qed.

Lemma ctl_inv_start_result c x evs :
  ctl_inv c evs → same_life c x.1 → let '(c', _, es) := start_result x in ctl_inv c' (evs ++ es).
Proof.
  intros H Hl. destruct x as [c1 [[]|e]]; simpl in *.
  - rewrite app_nil_r. by eapply ctl_inv_same.
  - pose proof (ctl_inv_setState' c c1 evs StateCrashed H Hl I) as H2. by destruct (setState c1 StateCrashed).
Qed.

Lemma ctl_inv_start_begin c evs s sock wal wf :
  ctl_inv c evs →
  let '(c', _, es) := Start_begin s sock wal wf c in ctl_inv c' (evs ++ es).
Proof.
  intros H. unfold Start_begin. pose proof (ctl_inv_setState c evs StateStarting H I) as H1.
  destruct (setState c StateStarting) as [c1 e1]. simpl in H1.
  pose proof (ctl_inv_start_result c1 (Start_spawn s sock wal wf c1) _ H1 (Start_spawn_life s sock wal wf c1)) as H2.
  destruct (start_result _) as [[c2 r] e2]. by rewrite (assoc_L (++)).
Qed.

Lemma Stop_send_life s c : same_life c (Stop_send s c).1.
Proof.
  unfold Stop_send. destruct (EncodePayload _) as [data|e]; [|done]. destruct (agentHasFeature c "frame_ack").
  - destruct (ct_conn c) as [cn|]; [|done]. by destruct (SendAndAwaitAck_begin _ _ _ _ _) as [[cn' [[q ch]|e]] x].
  - set (p := Some _). pose proof (send_life s c MsgStopChild p true) as Hs.
    by destruct (send s c MsgStopChild p true) as [c2 err].
Qed.

Lemma ctl_inv_stop c evs s :
  ctl_inv c evs → let '(c', _, es) := Stop s c in ctl_inv c' (evs ++ es).
Proof.
  intros H. unfold Stop. destruct (stop_early c); [by rewrite app_nil_r|].
  pose proof (ctl_inv_setState c evs StateStopping H I) as H1.
  destruct (setState c StateStopping) as [c1 e1]. simpl in H1.
  pose proof (Stop_send_life s c1). destruct (Stop_send s c1). by eapply ctl_inv_same.
Qed.

Lemma ctl_inv_close c evs kill a b d : ctl_inv c evs → ctl_inv (close_conn kill a b d c) evs.
Proof.
  intros H. eapply ctl_inv_same; [done|]. unfold close_conn.
  repeat (case_match; simplify_eq/=); by repeat split.
Qed.

(** A message that reports an exit. *)
Lemma ctl_inv_exited c evs code :
  ctl_inv c evs →
  let '(c', es) := if decide (ct_state c = StateStopping ∨ code = 0)
                   then setState c StateStopped else setState c StateCrashed in
  ctl_inv c' (evs ++ CEExited code :: es).
Proof.
  intros H. assert (ctl_inv c (evs ++ [CEExited code])) as H1.
  { eapply ctl_inv_silent; [done|by repeat split|done]. }
  assert (∀ s, enterable s (evs ++ [CEExited code]) →
    let '(c', es) := setState c s in ctl_inv c' (evs ++ CEExited code :: es)) as Hs.
  { intros s He. pose proof (ctl_inv_setState c _ s H1 He) as H2.
    destruct (setState c s) as [c' es]. by rewrite <- (assoc_L (++)) in H2. }
  case_decide as Hc; apply Hs; [|done]. exists code. split; [set_solver|].
  destruct Hc as [Hc|Hc]; [right|by left]. rewrite omap_app. apply elem_of_app. left.
  rewrite (cti_state _ _ H) in Hc. destruct (last (omap ev_change evs)) eqn:E; [|done].
  simpl in Hc. subst. by apply last_Some_elem_of.
Qed.

Lemma ctl_inv_pid c c1 evs pid :
  ctl_inv c evs → ct_state c1 = ct_state c → ct_childPID c1 = pid → ctl_inv c1 (evs ++ [CEStarted pid]).
Proof.
  intros [H2 H3 H4 H5 H6 H7] E2 E3. split; rewrite ?E2, ?E3, ?omap_app; simpl; rewrite ?app_nil_r; try done.
  - by rewrite last_snoc.
  - intros _. by destruct (omap ev_started evs).
  - intros Hs. destruct (H7 Hs) as (code & Hin & Hc). exists code. split; [set_solver|done].
Qed.

Lemma ctl_inv_started c c1 evs pid :
  ctl_inv c evs → ct_state c1 = ct_state c → ct_childPID c1 = pid →
  let '(c', es) := setState c1 StateRunning in ctl_inv c' (evs ++ CEStarted pid :: es).
Proof.
  intros H E2 E3. pose proof (ctl_inv_pid c c1 evs pid H E2 E3) as H1.
  pose proof (ctl_inv_setState c1 _ StateRunning H1) as H2. destruct (setState c1 StateRunning) as [c' es].
  rewrite <- (assoc_L (++)) in H2. apply H2. simpl. rewrite omap_app. simpl. by destruct (omap ev_started evs).
Qed.

Lemma ctl_inv_message c evs msg :
  ctl_inv c evs → ctl_inv (handleMessage c msg).1 (evs ++ (handleMessage c msg).2).
Proof.
  intros H. unfold handleMessage.
  assert (∀ c' es, same_life c c' → silent es → ctl_inv c' (evs ++ es)) as Hq
    by (intros; by eapply ctl_inv_silent).
  destruct (_ =? MsgTypeCapabilityReply).
  { destruct (decode_new (m_Payload msg)) as [p [e|]]; [by apply Hq|].
    destruct (ct_capReplyCh c) as [|[f|]|]; by apply Hq. }
  destruct (_ =? MsgHelloAck); [by apply Hq|]. destruct (_ =? MsgChildStarted).
  { destruct (decode_ok (A := ChildStartedPayload) _) as [p|]; [|by apply Hq].
    set (c1 := with_child _ _ _ _ _). pose proof (ctl_inv_started c c1 evs (cs_PID p) H) as Hs.
    destruct (setState c1 StateRunning). by apply Hs. }
  destruct (_ =? MsgChildExited).
  { destruct (decode_ok (A := ChildExitedPayload) _) as [p|]; [|by apply Hq].
    pose proof (ctl_inv_exited c evs (ce_ExitCode p) H) as Hs.
    by destruct (if decide _ then _ else _) as [c' es]. }
  destruct (_ =? MsgChildError).
  { destruct (decode_new (m_Payload msg)) as [p e]. destruct (negb _); [|by apply Hq].
    by apply ctl_inv_setState. }
  destruct (_ =? MsgLogChunk).
  { destruct (negb _); [by apply Hq|]. destruct (decode_ok (A := LogChunkPayload) _); by apply Hq. }
  destruct (_ =? MsgTypePTYData).
  { destruct (decode_new (m_Payload msg)) as [p [e|]]; by apply Hq. }
  destruct (_ =? MsgTypePTYRingDump); [|by apply Hq].
  destruct (decode_ok (A := PTYRingDumpPayload) _); by apply Hq.
Qed.

Lemma ctl_inv_step c evs op :
  ctl_inv c evs → ctl_inv (ctl_step c op).1 (evs ++ (ctl_step c op).2).
Proof.
  intros H. destruct op as [m| |s sock wal wf|s k|s|kill a b d]; simpl.
  - by apply ctl_inv_message.
  - unfold on_disconnect. by apply (ctl_inv_setState' c).
  - pose proof (ctl_inv_start_begin c evs s sock wal wf H) as Hs. by destruct (Start_begin _ _ _ _ _) as [[]].
  - unfold Start_finish. destruct (Start_rest s k c) as [[c1 r]|] eqn:E; [|by rewrite app_nil_r].
    pose proof (ctl_inv_start_result c (c1, r) evs H (Start_rest_life s k c c1 r E)) as Hs.
    cbn [fmap option_fmap option_map]. by destruct (start_result (c1, r)) as [[]].
  - pose proof (ctl_inv_stop c evs s H) as Hs. by destruct (Stop s c) as [[]].
  - rewrite app_nil_r. by apply ctl_inv_close.
Qed.
End RunInv.

(** ** Crash records *)

(** The records of several detection layers, in arrival order. *)
Definition record_all (c : CrashInfo) (rs : list (Z * CrashSource * CrashInfo)) : CrashInfo :=
  foldl (λ c '(now, src, data), Record_ now c src data) c rs.

Lemma Record_primary now c src data :
  ci_Source c ≠ CrashSourceNone →
  let c' := Record_ now c src data in
  ci_Source c' = ci_Source c ∧ ci_Reason c' = ci_Reason c ∧ ci_ChildExit c' = ci_ChildExit c ∧
  ci_ChildSig c' = ci_ChildSig c ∧ ci_DetectedAt c' = ci_DetectedAt c.
Proof.
  intros H. unfold Record_. rewrite (decide_False (P := ci_Source c = CrashSourceNone)) by done.
  repeat case_decide; done.
Qed.

Lemma record_all_primary rs : ∀ c,
  ci_Source c ≠ CrashSourceNone →
  let c' := record_all c rs in
  ci_Source c' = ci_Source c ∧ ci_Reason c' = ci_Reason c ∧ ci_ChildExit c' = ci_ChildExit c ∧
  ci_ChildSig c' = ci_ChildSig c ∧ ci_DetectedAt c' = ci_DetectedAt c.
Proof.
  induction rs as [|[[now src] data] rs IH]; intros c H; [done|]. simpl.
  destruct (Record_primary now c src data H) as (E1 & E2 & E3 & E4 & E5).
  destruct (IH (Record_ now c src data)) as (F1 & F2 & F3 & F4 & F5); [by rewrite E1|].
  unfold record_all in *. split_and!; congruence.
Qed.

(** ** Properties *)

(** A codec whose decoder always yields [v], to run a controller with. *)
Definition const_codec {A} (v : A) : Codec A :=
  {| Marshal _ := Ok []; Unmarshal _ _ := (v, None) |}.

(** The first detection layer wins.  Whatever layers report a crash, and
    in whatever order, the source, reason, child exit status and time are
    those of the first report; and once an agent exit code is known, only the
    OS-wait layer changes it. *)
Theorem crash_first_report_wins (t : Z) (src : CrashSource) (data : CrashInfo)
    (rs : list (Z * CrashSource * CrashInfo)) (Hsrc : src ≠ CrashSourceNone) :
  let c := record_all no_crash ((t, src, data) :: rs) in
  ci_Source c = src ∧ ci_Reason c = ci_Reason data ∧ ci_ChildExit c = ci_ChildExit data ∧
  ci_ChildSig c = ci_ChildSig data ∧ ci_DetectedAt c = t ∧
  ∀ now src' data', src' ≠ CrashSourceOSWait → ci_AgentExit c ≠ 0 → Record_ now c src' data' = c.
Proof.
  intros c.
  assert (ci_Source (Record_ t no_crash src data) = src ∧ ci_Reason (Record_ t no_crash src data) = ci_Reason data ∧
    ci_ChildExit (Record_ t no_crash src data) = ci_ChildExit data ∧
    ci_ChildSig (Record_ t no_crash src data) = ci_ChildSig data ∧
    ci_DetectedAt (Record_ t no_crash src data) = t) as (E1 & E2 & E3 & E4 & E5)
    by (unfold Record_; simpl; repeat case_decide; done).
  destruct (record_all_primary rs (Record_ t no_crash src data)) as (F1 & F2 & F3 & F4 & F5);
    [by rewrite E1|].
  assert (ci_Source c = src) as Hc by (unfold c; simpl; congruence).
  split_and!; try (unfold c; simpl; congruence).
  intros now src' data' Hs Ha. unfold Record_.
  rewrite (decide_False (P := ci_Source c = CrashSourceNone)) by congruence.
  by rewrite decide_False by tauto.
Qed.

Lemma crash_first_report_wins_witness :
  let c := record_all no_crash [(5, CrashSourceHeartbeat, mkCrash CrashSourceNone 0 0 1 0 "hb" 0);
                                (6, CrashSourceOSWait, mkCrash CrashSourceNone 137 9 2 0 "wait" 0)] in
  ci_Source c = CrashSourceHeartbeat ∧ ci_AgentExit c = 137.
Proof.
  split; [|reflexivity].
  exact (proj1 (crash_first_report_wins 5 CrashSourceHeartbeat (mkCrash CrashSourceNone 0 0 1 0 "hb" 0)
    [(6, CrashSourceOSWait, mkCrash CrashSourceNone 137 9 2 0 "wait" 0)] ltac:(discriminate))).
Defined.

(** A disconnect is reported as a crash from every state, also from
    Stopped: the callback does not look at the current state. *)
Lemma disconnect_always_crashes (c : Controller) :
  ct_state (on_disconnect c).1 = StateCrashed ∧
  ct_crashSource (on_disconnect c).1 = CrashSourceConnectionLost.
Proof. unfold on_disconnect, setState. by case_decide. Qed.
