(* ===== verification/Callbacks.v ===== *)
(** * The state callback, one step of a goroutine at a time:
    internal/controller/controller.go

    [setState] swaps the state, then reads the registered callback under a
    lock it releases, then calls it; the connection's reader and the callers
    of [Start] and [Stop] do so concurrently.  Here each of them is a goroutine
    with the list of the steps it still has to take, and a run interleaves
    single steps.  The handlers of the file Controller are the runs of one
    goroutine that nothing interrupts ([message_uninterrupted] and the like). *)

From S2P Require Import Prelude Frame Seq Outbox Wal Spiller Message Conn CwTypes PtySubs Controller.

(** What a goroutine still has to do. *)
Inductive todo :=
| TSwap (s : State)          (** [setState(s)]: the swap *)
| TGetCallback (s : State)   (** its change of state: read the callback under the lock *)
| TCallback (s : State)      (** call it *)
| TExited (code : Z)         (** CHILD_EXITED: load the state and decide *)
| TSpawn (s : enq_sched) (sock : option (Reader * Writer)) (wal : option bytes) (wal_fails : bool)
    (s2 : enq_sched) (k : cap_case)   (** [Start] after its first [setState] *)
| TNegotiate (s : enq_sched) (k : cap_case)   (** [Start] at the select *)
| TStopSend (s : enq_sched).                  (** [Stop] after its [setState] *)

Record callbacks := mkCbs { cb_ctl : Controller; cb_todo : gmap nat (list todo) }.

Definition todo_of (m : callbacks) (g : nat) : list todo := default [] (cb_todo m !! g).

(** Calls, made by a goroutine that has nothing left to do, and the next step
    of one.  [CbClose]: [Close] or, without [kill], [CloseConnOnly]. *)
Inductive cb_op :=
| CbMessage (g : nat) (msg : OutboxMessage)
| CbDisconnect (g : nat)
| CbStart (g : nat) (s : enq_sched) (sock : option (Reader * Writer)) (wal : option bytes) (wal_fails : bool)
    (s2 : enq_sched) (k : cap_case)
| CbStop (g : nat) (s : enq_sched)
| CbClose (kill ctx_first fired pick : bool)
| CbSetOnStateChange (cb : bool)
| CbStep (g : nat).

Definition ev_report (e : ctl_event) : option State :=
  match e with CEReport s => Some s | _ => None end.

(** The states a goroutine changed to, and those it reported, in order. *)
Definition changes_of (g : nat) (evs : list (nat * ctl_event)) : list State :=
  omap (λ '(g', e), if decide (g' = g) then ev_change e else None) evs.
Definition reports_of (g : nat) (evs : list (nat * ctl_event)) : list State :=
  omap (λ '(g', e), if decide (g' = g) then ev_report e else None) evs.

(** The reports among the steps left. *)
Definition owes (t : todo) : option State :=
  match t with TGetCallback s | TCallback s => Some s | _ => None end.
Definition owed (l : list todo) : list State := omap owes l.

Section Steps.
Context `{!Codec HelloPayload, !Codec StartChildPayload, !Codec StopChildPayload,
          !Codec CapabilityReply, !Codec ChildStartedPayload, !Codec ChildExitedPayload,
          !Codec ChildErrorPayload, !Codec LogChunkPayload, !Codec Message.PTYData,
          !Codec PTYRingDumpPayload, !Codec AckPayload}.

(** [handleMessage] up to its [setState], and what is left of it. *)
Definition message_todo (c : Controller) (msg : OutboxMessage) : Controller * list todo * list ctl_event :=
  let t := h_MsgType (m_Header msg) in
  if t =? MsgChildStarted then
    match decode_ok (A := ChildStartedPayload) (m_Payload msg) with
    | Some p => (with_child c (cs_PID p) (ct_features c) (ct_crashSource c) (ct_pty c), [TSwap StateRunning],
                 [CEStarted (cs_PID p)])
    | None => (c, [], [])
    end
  else if t =? MsgChildExited then
    match decode_ok (A := ChildExitedPayload) (m_Payload msg) with
    | Some p => (c, [TExited (ce_ExitCode p)], [CEExited (ce_ExitCode p)])
    | None => (c, [], [])
    end
  else if t =? MsgChildError then
    let '(p, _) := decode_new (A := ChildErrorPayload) (m_Payload msg) in
    (c, if negb (cerr_Transient p) then [TSwap StateCrashed] else [], [])
  else let '(c', evs) := handleMessage c msg in (c', [], evs).

(** The disconnect callback up to its [setState]. *)
Definition lost (c : Controller) : Controller :=
  with_child c (ct_childPID c) (ct_features c) CrashSourceConnectionLost (ct_pty c).

(** One step: the controller, what the step leaves to do, what it shows;
    [None]: it waits. *)
Definition todo_step (c : Controller) (t : todo) : option (Controller * list todo * list ctl_event) :=
  let after (x : Controller * result ctl_err ()) (l : list todo) :=
    let '(c', r) := x in
    Some (c', match r with Ok _ => l | Err _ => [TSwap StateCrashed] end, []) in
  match t with
  | TSwap s => let '(c', evs) := setState c s in Some (c', TGetCallback <$> omap ev_change evs, evs)
  | TGetCallback s => Some (c, if ct_onStateChange c then [TCallback s] else [], [])
  | TCallback s => Some (c, [], [CEReport s])
  | TExited code =>
      Some (c, [TSwap (if decide (ct_state c = StateStopping ∨ code = 0) then StateStopped else StateCrashed)], [])
  | TSpawn s sock wal wf s2 k => after (Start_spawn s sock wal wf c) [TNegotiate s2 k]
  | TNegotiate s k => match Start_rest s k c with Some x => after x [] | None => None end
  | TStopSend s => Some ((Stop_send s c).1, [], [])
  end.

(** What a goroutine did, and what it has left. *)
Definition act (m : callbacks) (g : nat) (x : Controller * list todo * list ctl_event)
    : callbacks * list (nat * ctl_event) :=
  let '(c, l, es) := x in (mkCbs c (<[g := l]> (cb_todo m)), pair g <$> es).

Definition cb_step (m : callbacks) (op : cb_op) : callbacks * list (nat * ctl_event) :=
  let c := cb_ctl m in
  let call g x := match todo_of m g with [] => act m g x | _ => (m, []) end in
  let inbound g x := match ct_conn c with Some _ => call g x | None => (m, []) end in
  match op with
  | CbMessage g msg => inbound g (message_todo c msg)
  | CbDisconnect g => inbound g (lost c, [TSwap StateCrashed], [])
  | CbStart g s sock wal wf s2 k => call g (c, [TSwap StateStarting; TSpawn s sock wal wf s2 k], [])
  | CbStop g s => call g (c, if stop_early c then [] else [TSwap StateStopping; TStopSend s], [])
  | CbClose kill a b d => (mkCbs (close_conn kill a b d c) (cb_todo m), [])
  | CbSetOnStateChange cb => (mkCbs (SetOnStateChange c cb) (cb_todo m), [])
  | CbStep g =>
      match todo_of m g with
      | [] => (m, [])
      | t :: l =>
          match todo_step c t with
          | Some (c', l', es) => act m g (c', l' ++ l, es)
          | None => (m, [])
          end
      end
  end.
End Steps.

(** ** Every change is owed a report *)

(** What a step left to a goroutine presupposes. *)
Definition todo_ok (evs : list ctl_event) (t : todo) : Prop :=
  match t with
  | TSwap s => enterable s evs
  | TExited code => CEExited code ∈ evs
  | _ => True
  end.

Lemma enterable_mono s evs es : enterable s evs → enterable s (evs ++ es).
Proof.
  destruct s; simpl; try done.
  - rewrite omap_app. by destruct (omap ev_started evs).
  - intros (code & Hin & Hc). exists code. rewrite omap_app. set_solver.
Qed.

Lemma todo_ok_mono evs es t : todo_ok evs t → todo_ok (evs ++ es) t.
Proof. destruct t; simpl; try done; [apply enterable_mono|set_solver]. Qed.

Lemma of_other g g' es : g' ≠ g → changes_of g (pair g' <$> es) = [] ∧ reports_of g (pair g' <$> es) = [].
Proof.
  intros Hne. unfold changes_of, reports_of. induction es as [|e es [IH1 IH2]]; [done|]. csimpl.
  by destruct (decide (g' = g)).
Qed.

Lemma of_same g es : changes_of g (pair g <$> es) = omap ev_change es ∧
                     reports_of g (pair g <$> es) = omap ev_report es.
Proof.
  unfold changes_of, reports_of. induction es as [|e es [IH1 IH2]]; [done|]. csimpl.
  destruct (decide (g = g)); [|done]. by rewrite IH1, IH2.
Qed.

(** The goroutine's own account balances: what it reported and what it still
    owes are its changes; it owes one report at most, at the head. *)
Record balanced (g : nat) (l : list todo) (evs : list (nat * ctl_event)) : Prop := mkBalanced {
  bal_eq : reports_of g evs ++ owed l = changes_of g evs;
  bal_tail : owed (tail l) = [] }.

Record cbs_inv (m : callbacks) (evs : list (nat * ctl_event)) : Prop := mkCbsInv {
  cbi_ctl : ctl_inv (cb_ctl m) evs.*2;
  cbi_registered : ct_onStateChange (cb_ctl m) = true;
  cbi_todo : ∀ g, Forall (todo_ok evs.*2) (todo_of m g);
  cbi_bal : ∀ g, balanced g (todo_of m g) evs }.

(** A goroutine acts: what it shows and leaves to do keeps its account. *)
Lemma act_inv m evs g c l es :
  cbs_inv m evs →
  ctl_inv c (evs.*2 ++ es) → ct_onStateChange c = true → Forall (todo_ok (evs.*2 ++ es)) l →
  omap ev_report es ++ owed l = owed (todo_of m g) ++ omap ev_change es → owed (tail l) = [] →
  cbs_inv (act m g (c, l, es)).1 (evs ++ (act m g (c, l, es)).2).
Proof.
  intros [H1 H2 H3 H4] Hc Hr Hl Heq Ht. simpl.
  assert ((evs ++ (pair g <$> es)).*2 = evs.*2 ++ es) as Esnd.
  { rewrite fmap_app, <- list_fmap_compose. f_equal. apply list_fmap_id. }
  assert (∀ g', todo_of (mkCbs c (<[g:=l]> (cb_todo m))) g' = if decide (g' = g) then l else todo_of m g') as Hto.
  { intros g'. unfold todo_of. simpl. case_decide; [subst; by rewrite lookup_insert_eq|by rewrite lookup_insert_ne]. }
  split; rewrite ?Esnd; try done; intros g'; rewrite Hto; case_decide as Hg; subst; try done.
  - eapply Forall_impl; [apply H3|]. intros t. apply todo_ok_mono.
  - destruct (H4 g) as [E _], (of_same g es) as [S1 S2]. split; [|done].
    unfold reports_of, changes_of in *. rewrite !omap_app, S1, S2, <- E, <- !(assoc_L (++)). by rewrite Heq.
  - destruct (H4 g') as [E T], (of_other g' g es ltac:(done)) as [S1 S2]. split; [|done].
    unfold reports_of, changes_of in *. by rewrite !omap_app, S1, S2, !app_nil_r.
Qed.

Section CbRun.
Context `{!Codec HelloPayload, !Codec StartChildPayload, !Codec StopChildPayload,
          !Codec CapabilityReply, !Codec ChildStartedPayload, !Codec ChildExitedPayload,
          !Codec ChildErrorPayload, !Codec LogChunkPayload, !Codec Message.PTYData,
          !Codec PTYRingDumpPayload, !Codec AckPayload}.

Lemma send_registered {A} `{!Codec A} s c t (p : option A) ack :
  ct_onStateChange (send s c t p ack).1 = ct_onStateChange c.
Proof. unfold send. by repeat (case_match; simplify_eq/=). Qed.

Lemma setState_registered c s : ct_onStateChange (setState c s).1 = ct_onStateChange c.
Proof. unfold setState. by case_decide. Qed.

Lemma Start_spawn_registered s sock wal wf c :
  ct_onStateChange (Start_spawn s sock wal wf c).1 = ct_onStateChange c.
Proof.
  unfold Start_spawn. destruct sock as [rw|]; [|done]. destruct (NewConn _) as [cn|e]; [|done].
  set (c2 := with_conn _ _ _ _). set (hello := Some _).
  pose proof (send_registered s c2 MsgHello hello false) as Hs1.
  destruct (send s c2 MsgHello hello false) as [c3 x].
  pose proof (send_registered (A := HelloPayload) s c3 MsgTypeCapabilityQuery None false) as Hs2.
  destruct (send s c3 MsgTypeCapabilityQuery None false) as [c4 [q|]]; simpl in *; congruence.
Qed.

Lemma Start_rest_registered s k c c' r :
  Start_rest s k c = Some (c', r) → ct_onStateChange c' = ct_onStateChange c.
Proof.
  intros H. assert (∀ c0, ct_onStateChange c0 = ct_onStateChange c → Start_child s c0 = (c', r) →
    ct_onStateChange c' = ct_onStateChange c) as Hc.
  { intros c0 Hl E. unfold Start_child in E.
    destruct (match spec_PTY (ct_Spec c0) with Some _ => _ | None => _ end); [by injection E as <- <-|].
    pose proof (send_registered s c0 MsgStartChild (Some (start_payload (ct_Spec c0))) true) as Hs.
    destruct (send _ _ _ _ _). injection E as <- <-. by rewrite <- Hl. }
  unfold Start_rest in H. destruct k; [destruct (ct_capReplyCh c) as [|[f|]|]| |]; try done; injection H as H;
    try (by eapply Hc; [|done]). by subst c'.
Qed.

Lemma Stop_send_registered s c : ct_onStateChange (Stop_send s c).1 = ct_onStateChange c.
Proof.
  unfold Stop_send. destruct (EncodePayload _) as [data|e]; [|done]. destruct (agentHasFeature c "frame_ack").
  - destruct (ct_conn c) as [cn|]; [|done]. by destruct (SendAndAwaitAck_begin _ _ _ _ _) as [[cn' [[q ch]|e]] x].
  - set (p := Some _). pose proof (send_registered s c MsgStopChild p true) as Hs.
    by destruct (send s c MsgStopChild p true) as [c2 err].
Qed.

(** A message before its [setState]: nothing is reported and nothing changes. *)
Lemma message_todo_inv c evs msg :
  ctl_inv c evs → ct_onStateChange c = true →
  let '(c', l, es) := message_todo c msg in
  ctl_inv c' (evs ++ es) ∧ ct_onStateChange c' = true ∧ Forall (todo_ok (evs ++ es)) l ∧
  omap ev_report es = [] ∧ omap ev_change es = [] ∧ owed l = [].
Proof.
  intros H Hr. unfold message_todo. pose proof (ctl_inv_message c evs msg H) as Hm.
  assert (ctl_inv c (evs ++ [])) as H0 by (by rewrite app_nil_r).
  destruct (_ =? MsgChildStarted) eqn:E1.
  { destruct (decode_ok (A := ChildStartedPayload) _) as [p|]; [|by split_and!].
    set (c1 := with_child _ _ _ _ _).
    assert (omap ev_started (evs ++ [CEStarted (cs_PID p)]) ≠ []) as Hst.
    { rewrite omap_app. simpl. by destruct (omap ev_started evs). }
    split_and!; try done; [|by repeat constructor].
    by apply (ctl_inv_pid c c1 evs (cs_PID p)). }
  destruct (_ =? MsgChildExited) eqn:E2.
  { destruct (decode_ok (A := ChildExitedPayload) _) as [p|]; [|by split_and!].
    split_and!; try done; [by eapply ctl_inv_silent|]. repeat constructor. simpl. set_solver. }
  destruct (_ =? MsgChildError) eqn:E3.
  { destruct (decode_new (m_Payload msg)) as [p e]. split_and!; try done; destruct (negb _); try done.
    by repeat constructor. }
  assert (omap ev_report (handleMessage c msg).2 = [] ∧ omap ev_change (handleMessage c msg).2 = [] ∧
    ct_onStateChange (handleMessage c msg).1 = true) as (F1 & F2 & F3).
  { unfold handleMessage. rewrite E1, E2, E3. repeat (case_match; simplify_eq/=); done. }
  destruct (handleMessage c msg) as [c' es]. by split_and!.
Qed.

(** One step of a goroutine. *)
Lemma todo_step_inv c evs t c' l es :
  ctl_inv c evs → ct_onStateChange c = true → todo_ok evs t → todo_step c t = Some (c', l, es) →
  ctl_inv c' (evs ++ es) ∧ ct_onStateChange c' = true ∧ Forall (todo_ok (evs ++ es)) l ∧
  omap ev_report es ++ owed l = owed [t] ++ omap ev_change es ∧ owed (tail l) = [].
Proof.
  intros H Hr Ht Hs.
  assert (∀ c1 (r : result ctl_err ()) l1, same_life c c1 → ct_onStateChange c1 = true →
    Forall (λ t, owes t = None ∧ todo_ok evs t) l1 →
    c' = c1 → l = match r with Ok _ => l1 | Err _ => [TSwap StateCrashed] end → es = [] → owed [t] = [] →
    ctl_inv c' (evs ++ es) ∧ ct_onStateChange c' = true ∧ Forall (todo_ok (evs ++ es)) l ∧
    omap ev_report es ++ owed l = owed [t] ++ omap ev_change es ∧ owed (tail l) = []) as Hafter.
  { intros c1 r l1 Hl Hr1 Hl1 -> -> -> ->. rewrite app_nil_r.
    assert (∀ l2, Forall (λ t, owes t = None ∧ todo_ok evs t) l2 → Forall (todo_ok evs) l2 ∧ owed l2 = [] ∧ owed (tail l2) = [])
      as Hl2.
    { induction 1 as [|x l2 [Hx1 Hx2] _ (I1 & I2 & I3)]; [done|]. split; [by constructor|]. split; [|done].
      unfold owed in *. simpl. by rewrite Hx1. }
    assert (Forall (λ t, owes t = None ∧ todo_ok evs t) match r with Ok _ => l1 | Err _ => [TSwap StateCrashed] end) as Hl3
      by (destruct r; [done|by repeat constructor]).
    destruct (Hl2 _ Hl3) as (L1 & L2 & L3). rewrite L2. split_and!; try done. by eapply ctl_inv_same. }
  destruct t as [s|s|s|code|s sock wal wf s2 k|s k|s]; simpl in Hs.
  - pose proof (ctl_inv_setState c evs s H Ht) as Hi. pose proof (setState_registered c s) as Hg.
    unfold setState in *. case_decide; simpl in *; simplify_eq/=; split_and!; try done. by repeat constructor.
  - rewrite Hr in Hs. simplify_eq. rewrite app_nil_r. split_and!; try done. by repeat constructor.
  - simplify_eq. split_and!; try done. by eapply ctl_inv_silent.
  - simplify_eq. rewrite app_nil_r. split_and!; try done. repeat constructor. simpl. case_decide as Hc; [|done].
    exists code. split; [done|]. destruct Hc as [Hc|Hc]; [right|by left].
    rewrite (cti_state _ _ H) in Hc. destruct (last (omap ev_change evs)) eqn:E; [|done].
    simpl in Hc. subst. by apply last_Some_elem_of.
  - pose proof (Start_spawn_life s sock wal wf c) as Hl. pose proof (Start_spawn_registered s sock wal wf c) as Hg.
    destruct (Start_spawn s sock wal wf c) as [c1 r]. simplify_eq.
    apply (Hafter c' r [TNegotiate s2 k]); try done; [by rewrite <- Hr|by repeat constructor].
  - destruct (Start_rest s k c) as [[c1 r]|] eqn:E; [|done]. simplify_eq.
    apply (Hafter c' r []); try done; [by eapply Start_rest_life|].
    rewrite <- Hr. by eapply Start_rest_registered.
  - simplify_eq. apply (Hafter (Stop_send s c).1 (Ok ()) []); try done; [apply Stop_send_life|].
    by rewrite Stop_send_registered.
Qed.

Lemma cb_step_inv m evs op :
  cbs_inv m evs → op ≠ CbSetOnStateChange false → cbs_inv (cb_step m op).1 (evs ++ (cb_step m op).2).
Proof.
  intros H Hop. pose proof H as [H1 H2 H3 H4].
  assert (cbs_inv m (evs ++ [])) as Hsame by (by rewrite app_nil_r).
  assert (∀ c', same_life (cb_ctl m) c' → ct_onStateChange c' = true → cbs_inv (mkCbs c' (cb_todo m)) (evs ++ [])) as Hctl.
  { intros c' Hl Hr. rewrite app_nil_r. split; try done. by eapply ctl_inv_same. }
  assert (∀ g c l es, ctl_inv c (evs.*2 ++ es) → ct_onStateChange c = true → Forall (todo_ok (evs.*2 ++ es)) l →
    omap ev_report es = [] → omap ev_change es = [] → owed l = [] →
    let x := match todo_of m g with [] => act m g (c, l, es) | _ => (m, []) end in
    cbs_inv x.1 (evs ++ x.2)) as Hcall.
  { intros g c l es C1 C2 C3 C4 C5 C6. destruct (todo_of m g) as [|t l0] eqn:E; [|done].
    apply act_inv; try done; [by rewrite E, C4, C5, C6|]. destruct l; [done|].
    unfold owed in *. simpl in *. by destruct (owes t). }
  assert (ctl_inv (cb_ctl m) (evs.*2 ++ [])) as H1' by (by rewrite app_nil_r).
  destruct op as [g msg|g|g s sock wal wf s2 k|g s|kill a b d|cb|g]; simpl.
  - destruct (ct_conn (cb_ctl m)); [|done]. pose proof (message_todo_inv (cb_ctl m) evs.*2 msg H1 H2) as Hm.
    destruct (message_todo (cb_ctl m) msg) as [[c' l] es]. destruct Hm as (M1 & M2 & M3 & M4 & M5 & M6).
    by apply (Hcall g c' l es).
  - destruct (ct_conn (cb_ctl m)); [|done]. apply (Hcall g (lost (cb_ctl m)) [TSwap StateCrashed] []); try done.
    + by eapply ctl_inv_same.
    + by repeat constructor.
  - apply (Hcall g (cb_ctl m) [TSwap StateStarting; TSpawn s sock wal wf s2 k] []); try done. by repeat constructor.
  - apply (Hcall g (cb_ctl m) (if stop_early (cb_ctl m) then [] else [TSwap StateStopping; TStopSend s]) []); try done;
      destruct (stop_early _); try done. by repeat constructor.
  - apply Hctl; unfold close_conn; repeat (case_match; simplify_eq/=); done.
  - destruct cb; [|done]. by apply Hctl.
  - destruct (todo_of m g) as [|t l] eqn:El; [done|].
    destruct (todo_step (cb_ctl m) t) as [[[c' l'] es]|] eqn:Et; [|done].
    pose proof (H3 g) as Hok. rewrite El in Hok. apply Forall_cons in Hok as [Ht Hl].
    destruct (H4 g) as [_ Htail]. rewrite El in Htail. simpl in Htail.
    destruct (todo_step_inv _ _ _ _ _ _ H1 H2 Ht Et) as (T1 & T2 & T3 & T4 & T5).
    assert (owed (l' ++ l) = owed l') as Eapp by (unfold owed in *; by rewrite omap_app, Htail, app_nil_r).
    apply act_inv; try done.
    + apply Forall_app_2; [done|]. eapply Forall_impl; [exact Hl|]. intros x. apply todo_ok_mono.
    + rewrite Eapp, T4, El. f_equal. unfold owed in *. csimpl. rewrite Htail. by destruct (owes t).
    + destruct l' as [|t' l']; simpl in *.
      * unfold owed in *. destruct l as [|x l]; [done|]. simpl in *. by destruct (owes x).
      * unfold owed in *. by rewrite omap_app, T5, Htail.
Qed.
End CbRun.

(** ** The handlers of the file Controller, uninterrupted *)

Section Uninterrupted.
Context `{!Codec HelloPayload, !Codec StartChildPayload, !Codec StopChildPayload,
          !Codec CapabilityReply, !Codec ChildStartedPayload, !Codec ChildExitedPayload,
          !Codec ChildErrorPayload, !Codec LogChunkPayload, !Codec Message.PTYData,
          !Codec PTYRingDumpPayload, !Codec AckPayload}.

(** Steps [l] of one goroutine, at most [n] of them, up to where it waits. *)
Fixpoint drain (n : nat) (c : Controller) (l : list todo) : Controller * list ctl_event :=
  match n, l with
  | S n, t :: l =>
      match todo_step c t with
      | Some (c1, l1, e1) => let '(c2, e2) := drain n c1 (l1 ++ l) in (c2, e1 ++ e2)
      | None => (c, [])
      end
  | _, _ => (c, [])
  end.

#[local] Arguments drain : simpl never.

Lemma drain_S n c t l :
  drain (S n) c (t :: l) = match todo_step c t with
                           | Some (c1, l1, e1) => let '(c2, e2) := drain n c1 (l1 ++ l) in (c2, e1 ++ e2)
                           | None => (c, [])
                           end.
Proof. done. Qed.

(** What a handler shows, less the reports of its callback. *)
Definition unreported (x : Controller * list ctl_event) : Controller * list ctl_event :=
  (x.1, filter (λ e, ev_report e = None) x.2).

(** [setState], its callback included. *)
Lemma drain_setState n c s l :
  (3 ≤ n)%nat →
  ∃ k, (n - 3 ≤ k)%nat ∧
  unreported (drain n c (TSwap s :: l)) =
    ((unreported (drain k (setState c s).1 l)).1, (setState c s).2 ++ (unreported (drain k (setState c s).1 l)).2).
Proof.
  intros Hn. destruct n as [|n]; [lia|]. rewrite drain_S. cbn [todo_step]. unfold setState. case_decide.
  - exists n. split; [lia|]. change (TGetCallback <$> omap ev_change []) with (@nil todo). cbn [app fst snd].
    by destruct (drain n c l).
  - change (TGetCallback <$> omap ev_change [CEChange s]) with [TGetCallback s]. cbn [app fst snd].
    destruct n as [|n]; [lia|]. rewrite drain_S. cbn [todo_step]. cbn [ct_onStateChange with_state].
    destruct (ct_onStateChange c); cbn [app].
    + destruct n as [|n]; [lia|]. rewrite drain_S. cbn [todo_step app]. exists n. split; [lia|].
      destruct (drain n (with_state c s) l) as [c2 e2]. unfold unreported. cbn [fst snd app].
      by rewrite filter_cons_True, filter_cons_False by done.
    + exists n. split; [lia|]. destruct (drain n (with_state c s) l) as [c2 e2]. unfold unreported. cbn [fst snd app].
      by rewrite filter_cons_True by done.
Qed.

Lemma drain_nil n c : drain n c [] = (c, []).
Proof. by destruct n. Qed.

Lemma drain_last n c s : (3 ≤ n)%nat → unreported (drain n c [TSwap s]) = setState c s.
Proof.
  intros Hn. destruct (drain_setState n c s [] Hn) as (k & _ & ->). rewrite drain_nil. unfold unreported. simpl.
  rewrite app_nil_r. by destruct (setState c s).
Qed.

Lemma unreported_cons c e es :
  ev_report e = None → unreported (c, e :: es) = (c, e :: (unreported (c, es)).2).
Proof. intros He. unfold unreported. simpl. by rewrite filter_cons_True. Qed.

(** [handleMessage] is the run of its reader alone. *)
Lemma message_uninterrupted c msg :
  let '(c1, l, e1) := message_todo c msg in
  let '(c2, e2) := drain 4 c1 l in
  unreported (c2, e1 ++ e2) = handleMessage c msg.
Proof.
  unfold message_todo.
  assert (∀ c1 s, let '(c2, e2) := drain 4 c1 [TSwap s] in unreported (c2, e2) = setState c1 s) as Hswap.
  { intros c1 s. pose proof (drain_last 4 c1 s ltac:(lia)) as H. by destruct (drain 4 c1 [TSwap s]). }
  destruct (_ =? MsgChildStarted) eqn:E1.
  { unfold handleMessage. apply Z.eqb_eq in E1. rewrite E1. simpl.
    destruct (decode_ok (A := ChildStartedPayload) _) as [p|]; [|done].
    set (c1 := with_child _ _ _ _ _). specialize (Hswap c1 StateRunning).
    destruct (drain 4 c1 _) as [c2 e2]. cbn [app]. rewrite unreported_cons by done. rewrite Hswap.
    unfold unreported in Hswap. rewrite <- Hswap. done. }
  destruct (_ =? MsgChildExited) eqn:E2.
  { unfold handleMessage. apply Z.eqb_eq in E2. rewrite E2. simpl.
    destruct (decode_ok (A := ChildExitedPayload) _) as [p|]; [|done]. simpl.
    pose proof (drain_last 3 c (if decide (ct_state c = StateStopping ∨ ce_ExitCode p = 0) then StateStopped else StateCrashed)
      ltac:(lia)) as H.
    rewrite drain_S. cbn [todo_step app]. match goal with |- context [drain 3 c ?l] => change l with
      [TSwap (if decide (ct_state c = StateStopping ∨ ce_ExitCode p = 0) then StateStopped else StateCrashed)] end.
    destruct (drain 3 c _) as [c2 e2]. cbn [app]. rewrite unreported_cons by done. rewrite H.
    unfold unreported in H. simpl in H. case_decide; rewrite <- H; done. }
  destruct (_ =? MsgChildError) eqn:E3.
  { unfold handleMessage. apply Z.eqb_eq in E3. rewrite E3. simpl.
    destruct (decode_new (m_Payload msg)) as [p e]. destruct (negb _); [|done].
    specialize (Hswap c StateCrashed). by destruct (drain 4 c _). }
  assert (filter (λ e, ev_report e = None) (handleMessage c msg).2 = (handleMessage c msg).2) as F.
  { unfold handleMessage. rewrite E1, E2, E3. repeat (case_match; simplify_eq/=); done. }
  destruct (handleMessage c msg) as [c' es]. rewrite drain_nil, app_nil_r. unfold unreported. simpl in *. by rewrite F.
Qed.

Lemma disconnect_uninterrupted c : unreported (drain 3 (lost c) [TSwap StateCrashed]) = on_disconnect c.
Proof. by rewrite drain_last by lia. Qed.

Lemma stop_uninterrupted c s :
  unreported (drain 4 c (if stop_early c then [] else [TSwap StateStopping; TStopSend s])) =
  ((Stop s c).1.1, (Stop s c).2).
Proof.
  unfold Stop. destruct (stop_early c); [done|].
  destruct (drain_setState 4 c StateStopping [TStopSend s] ltac:(lia)) as (k & Hk & ->).
  destruct k as [|k]; [lia|]. destruct (setState c StateStopping) as [c1 e1]. cbn [fst snd].
  rewrite drain_S. cbn [todo_step app]. rewrite drain_nil. unfold unreported. simpl. rewrite app_nil_r. by destruct (Stop_send s c1).
Qed.

(** [Start], up to the select when it waits there. *)
Lemma start_uninterrupted c s sock wal wf s2 k :
  unreported (drain 10 c [TSwap StateStarting; TSpawn s sock wal wf s2 k]) =
  let '(c1, r, e1) := Start_begin s sock wal wf c in
  match r with
  | Err _ => (c1, e1)
  | Ok _ => match Start_finish s2 k c1 with
            | Some (c2, _, e2) => (c2, e1 ++ e2)
            | None => (c1, e1)
            end
  end.
Proof.
  destruct (drain_setState 10 c StateStarting [TSpawn s sock wal wf s2 k] ltac:(lia)) as (n & Hn & ->).
  unfold Start_begin. destruct (setState c StateStarting) as [c1 e1]. cbn [fst snd].
  destruct n as [|n]; [lia|]. rewrite drain_S. cbn [todo_step].
  destruct (Start_spawn s sock wal wf c1) as [c2 [[]|e]]; cbn [app start_result].
  - destruct n as [|n]; [lia|]. rewrite drain_S. cbn [todo_step]. unfold Start_finish.
    destruct (Start_rest s2 k c2) as [[c3 [[]|e]]|]; cbn [app fmap option_fmap option_map start_result].
    + rewrite drain_nil. unfold unreported. by rewrite !app_nil_r.
    + pose proof (drain_last n c3 StateCrashed ltac:(lia)) as Hd.
      destruct (drain n c3 _) as [c4 e4]. unfold unreported in *. simpl in *. rewrite <- Hd. simpl. by rewrite !app_nil_r.
    + unfold unreported. by rewrite !app_nil_r.
  - pose proof (drain_last n c2 StateCrashed ltac:(lia)) as Hd.
    destruct (drain n c2 _) as [c4 e4]. unfold unreported in *. simpl in *. by rewrite <- Hd.
Qed.
End Uninterrupted.

(** ** Properties *)

Section Owing.
Context `{!Codec HelloPayload, !Codec StartChildPayload, !Codec StopChildPayload,
          !Codec CapabilityReply, !Codec ChildStartedPayload, !Codec ChildExitedPayload,
          !Codec ChildErrorPayload, !Codec LogChunkPayload, !Codec Message.PTYData,
          !Codec PTYRingDumpPayload, !Codec AckPayload}.

Lemma todo_of_act m g g' x : todo_of (act m g x).1 g' = if decide (g' = g) then x.1.2 else todo_of m g'.
Proof.
  destruct x as [[c l] es]. unfold todo_of. simpl.
  case_decide; [subst; by rewrite lookup_insert_eq|by rewrite lookup_insert_ne].
Qed.

Lemma reports_of_app g e1 e2 : reports_of g (e1 ++ e2) = reports_of g e1 ++ reports_of g e2.
Proof. apply omap_app. Qed.

(** Two of its own steps make a goroutine report what it owes. *)
Lemma owed_reported m evs g s :
  cbs_inv m evs → owed (todo_of m g) = [s] →
  reports_of g (run_trace cb_step m [CbStep g; CbStep g]).2 = [s].
Proof.
  intros H Ho. destruct (cbi_bal _ _ H g) as [_ Ht].
  pose proof (cbi_registered _ _ H) as Hr. unfold run_trace. cbn [cb_step].
  destruct (todo_of m g) as [|t l] eqn:El; [done|]. simpl in Ht.
  assert (owes t = Some s) as Hs.
  { change (owed (t :: l)) with (match owes t with Some y => y :: owed l | None => owed l end) in Ho.
    rewrite Ht in Ho. destruct (owes t); congruence. }
  assert (∀ m', todo_of m' g = l → reports_of g (cb_step m' (CbStep g)).2 = []) as Hquiet.
  { intros m' El'. cbn [cb_step]. rewrite El'. destruct l as [|t' l']; [done|].
    assert (owes t' = None) as Ht'.
    { change (owed (t' :: l')) with (match owes t' with Some y => y :: owed l' | None => owed l' end) in Ht.
      by destruct (owes t'). }
    destruct (todo_step (cb_ctl m') t') as [[[c' l2] es2]|] eqn:Et'; [|done].
    unfold act. cbn [snd]. rewrite (proj2 (of_same g es2)).
    destruct t'; simpl in *; try done; unfold setState in *; by repeat (case_match; simplify_eq/=). }
  destruct t as [|s'|s'| | | |]; simpl in Hs; try done; injection Hs as ->; cbn [todo_step].
  - rewrite Hr. cbn [act fst snd app]. set (m1 := mkCbs _ _).
    assert (todo_of m1 g = TCallback s :: l) as E1 by (unfold todo_of, m1; simpl; by rewrite lookup_insert_eq).
    rewrite E1. cbn [todo_step act fst snd app fmap list_fmap].
    unfold reports_of. csimpl. by destruct (decide (g = g)).
  - cbn [act fst snd app]. set (m1 := mkCbs _ _).
    assert (todo_of m1 g = l) as E1 by (unfold todo_of, m1; simpl; by rewrite lookup_insert_eq).
    pose proof (Hquiet m1 E1) as Hq. cbn [cb_step act] in Hq.
    match type of Hq with reports_of _ (snd ?x) = _ => destruct x as [m2 es2] end.
    cbn [fst snd] in Hq |- *. rewrite app_nil_r, reports_of_app, Hq. unfold reports_of. csimpl. by destruct (decide (g = g)).
Qed.
End Owing.

(** C8: every change of state is reported once, and the state means what it
    says.  Take any run from construction with a callback registered, in which
    any number of goroutines (the connection's reader with its messages and
    disconnects, callers of [Start] and [Stop], closes) interleave step by step,
    the swap of [setState], the read of the callback and its call being
    separate steps.  The changes of state never repeat the state before them
    and the last one is the current state.  Each goroutine reports exactly the
    changes it made, each once and in its order, but for at most one it still
    owes, which its next two steps report (reports of two goroutines may
    overtake each other: the last report need not be the current state).  The
    child PID is that of the last CHILD_STARTED; the state is Running only
    after a CHILD_STARTED and Stopped only after a CHILD_EXITED that carried
    code 0 or followed a stop request; Restarting and Failed are never
    entered. *)
Theorem controller_state_sound
    `{!Codec HelloPayload, !Codec StartChildPayload, !Codec StopChildPayload,
      !Codec CapabilityReply, !Codec ChildStartedPayload, !Codec ChildExitedPayload,
      !Codec ChildErrorPayload, !Codec LogChunkPayload, !Codec Message.PTYData,
      !Codec PTYRingDumpPayload, !Codec AckPayload}
    (spec : Spec) (runtimeDir : string) (outcap : Z) (dw hl : bool) (c0 : Controller) (ops : list cb_op)
    (Hnew : NewController spec true runtimeDir outcap dw hl = Ok c0)
    (Hops : CbSetOnStateChange false ∉ ops) :
  let '(m, evs) := run_trace cb_step (mkCbs (SetOnStateChange c0 true) ∅) ops in
  let c := cb_ctl m in
  let seen := evs.*2 in
  ct_state c = default StatePending (last (omap ev_change seen)) ∧
  no_repeat StatePending (omap ev_change seen) ∧
  (∀ g, reports_of g evs ++ owed (todo_of m g) = changes_of g evs ∧ (length (owed (todo_of m g)) ≤ 1)%nat ∧
        ∀ s, owed (todo_of m g) = [s] → reports_of g (run_trace cb_step m [CbStep g; CbStep g]).2 = [s]) ∧
  ct_childPID c = default 0 (last (omap ev_started seen)) ∧
  (ct_state c = StateRunning → omap ev_started seen ≠ []) ∧
  (ct_state c = StateStopped →
     ∃ code, CEExited code ∈ seen ∧ (code = 0 ∨ StateStopping ∈ omap ev_change seen)) ∧
  ct_state c ≠ StateRestarting ∧ ct_state c ≠ StateFailed.
Proof.
  unfold NewController in Hnew. destruct (String.eqb runtimeDir ""); simplify_eq/=.
  match goal with |- context [run_trace cb_step ?x ops] => set (m0 := x) end.
  assert (cbs_inv m0 []) as H0.
  { split; simpl; [split; simpl; done || (split_and!; done)|done|..]; intros g; unfold todo_of; simpl;
      rewrite lookup_empty; [constructor|by split]. }
  pose proof (run_trace_inv cb_step cbs_inv (λ op, op ≠ CbSetOnStateChange false)
    (λ c evs op H Hop, cb_step_inv c evs op H Hop) ops m0 [] H0) as H.
  destruct (run_trace cb_step m0 ops) as [m evs].
  specialize (H ltac:(apply Forall_forall; intros op Hin ->; done)). simpl in H.
  pose proof H as [[H2 H3 (H4 & H5 & _) H6 H7 H8] _ _ Hb].
  split_and!; try done. intros g. destruct (Hb g) as [E T]. split_and!; [done| |].
  - destruct (todo_of m g) as [|t l]; [simpl; lia|]. simpl in T.
    change (owed (t :: l)) with (match owes t with Some y => y :: owed l | None => owed l end). rewrite T.
    destruct (owes t); simpl; lia.
  - intros s. by apply (owed_reported m evs).
Qed.

(** A start, a child that runs, and a stop whose report overtakes that of the
    reader: goroutine 1 is the caller, goroutine 0 the reader. *)
Definition ex_race : list cb_op :=
  CbStart 1 alone (Some (mkReader [] EOF, mkWriter [] None)) None false alone CaseDeadline :: replicate 5 (CbStep 1) ++
  [CbMessage 0 (mkMsg (mkHeader MsgChildStarted 0 1 0) []); CbStep 0;
   CbStop 1 alone; CbStep 1; CbStep 1; CbStep 1; CbStep 0; CbStep 0].

(** The same run, the child then exiting with a failure code. *)
Definition ex_race_exit : list cb_op :=
  ex_race ++ [CbStep 1; CbMessage 0 (mkMsg (mkHeader MsgChildExited 0 2 0) []); CbStep 0; CbStep 0].

Definition ex_step : callbacks → cb_op → callbacks * list (nat * ctl_event) :=
  cb_step (Codec0 := const_codec zero) (Codec1 := const_codec zero)
    (Codec2 := const_codec zero) (Codec3 := const_codec zero)
    (Codec4 := const_codec (mkChildStarted 42 0)) (Codec5 := const_codec (mkChildExited 42 3 0 0 ""))
    (Codec6 := const_codec zero) (Codec7 := const_codec zero) (Codec8 := const_codec zero)
    (Codec9 := const_codec zero) (Codec10 := const_codec zero).

(** The last state reported is Running although the controller is Stopping. *)
Example reports_overtake :
  ∃ c0, NewController (SpecBuilder.NewSpec "p" "cat" []) true "/run" 0 true false = Ok c0 ∧
  let '(m, evs) := run_trace ex_step (mkCbs (SetOnStateChange c0 true) ∅) ex_race in
  ct_state (cb_ctl m) = StateStopping ∧
  omap ev_change evs.*2 = [StateStarting; StateRunning; StateStopping] ∧
  omap ev_report evs.*2 = [StateStarting; StateStopping; StateRunning].
Proof. eexists. split; [reflexivity|]. vm_compute. by split_and!. Qed.

Lemma controller_state_sound_witness :
  ∃ c0, NewController (SpecBuilder.NewSpec "p" "cat" []) true "/run" 0 true false = Ok c0 ∧
  let '(m, evs) := run_trace ex_step (mkCbs (SetOnStateChange c0 true) ∅) ex_race_exit in
  ct_state (cb_ctl m) = StateStopped ∧ owed (todo_of m 0) = [StateStopped] ∧
  reports_of 0 (run_trace ex_step m [CbStep 0; CbStep 0]).2 = [StateStopped] ∧
  ∃ code, CEExited code ∈ evs.*2 ∧ (code = 0 ∨ StateStopping ∈ omap ev_change evs.*2).
Proof.
  eexists. split; [reflexivity|].
  match goal with |- context [SetOnStateChange ?x true] => set (c0 := x) end.
  pose proof (controller_state_sound (Codec0 := const_codec zero) (Codec1 := const_codec zero)
    (Codec2 := const_codec zero) (Codec3 := const_codec zero)
    (Codec4 := const_codec (mkChildStarted 42 0)) (Codec5 := const_codec (mkChildExited 42 3 0 0 ""))
    (Codec6 := const_codec zero) (Codec7 := const_codec zero) (Codec8 := const_codec zero)
    (Codec9 := const_codec zero) (Codec10 := const_codec zero)
    (SpecBuilder.NewSpec "p" "cat" []) "/run" 0 true false c0 ex_race_exit eq_refl
    ltac:(intros Hin%list_elem_of_In; simpl in Hin; repeat destruct Hin as [Hin|Hin]; (discriminate Hin || exact Hin)))
    as H.
  fold ex_step in H.
  assert (ct_state (cb_ctl (run_trace ex_step (mkCbs (SetOnStateChange c0 true) ∅) ex_race_exit).1) = StateStopped ∧
    owed (todo_of (run_trace ex_step (mkCbs (SetOnStateChange c0 true) ∅) ex_race_exit).1 0) = [StateStopped]) as [Hs Ho]
    by (split; vm_compute; reflexivity).
  destruct (run_trace ex_step _ ex_race_exit) as [m evs]. cbn [fst] in Hs, Ho.
  destruct H as (_ & _ & Hg & _ & _ & Hst & _).
  exact (conj Hs (conj Ho (conj (proj2 (proj2 (Hg 0%nat)) _ Ho) (Hst Hs)))).
Defined.
