(* ===== verification/EventBus.v ===== *)
(** * Events and the event bus: pkg/event, internal/eventbus/bus.go

    Subscriptions are channels in a shared store.  [Publish] takes the set of
    subscriptions under the lock and sends after releasing it, so it is given
    both as one uninterrupted call and as a start followed by one step per
    subscription, between which other calls may run. *)

From S2P Require Import Prelude.

(** ** Events: pkg/event/event.go, bus.go *)

Record CrashContext := mkCrashContext {
  cc_Source : string; cc_AgentExit : Z; cc_AgentSig : Z; cc_ChildExit : Z; cc_ChildSig : Z;
  cc_Reason : string }.

(** [baseEvent]: the process and the time of the event. *)
Record baseEvent := mkBase { be_processID : string; be_ts : Z }.

Inductive Event :=
| ProcessStartingEvent (b : baseEvent)
| ProcessStartedEvent (b : baseEvent) (AgentPID ChildPID : Z)
| ProcessStoppedEvent (b : baseEvent) (ExitCode : Z)
| ProcessCrashedEvent (b : baseEvent) (ctx : CrashContext) (WillRestart : bool) (NextAttemptIn : Z)
| AgentFatalEvent (b : baseEvent) (Reason : string)
| LogChunkEvent (b : baseEvent) (Stream Size : Z)
| LogOverflowEvent (b : baseEvent) (Reason : string)
| BackpressureStallEvent (b : baseEvent) (Endpoint : string) (WALSize WALSizeMax DroppedMsgs : Z).

#[global] Instance CrashContext_eq_dec : EqDecision CrashContext.
Proof. solve_decision. Defined.
#[global] Instance baseEvent_eq_dec : EqDecision baseEvent.
Proof. solve_decision. Defined.
#[global] Instance Event_eq_dec : EqDecision Event.
Proof. solve_decision. Defined.

Definition EventType (e : Event) : string :=
  match e with
  | ProcessStartingEvent _ => "process.starting"
  | ProcessStartedEvent _ _ _ => "process.started"
  | ProcessStoppedEvent _ _ => "process.stopped"
  | ProcessCrashedEvent _ _ _ _ => "process.crashed"
  | AgentFatalEvent _ _ => "agent.fatal"
  | LogChunkEvent _ _ _ => "log.chunk"
  | LogOverflowEvent _ _ => "log.overflow"
  | BackpressureStallEvent _ _ _ _ _ => "reliability.backpressure_stall"
  end.

Definition ev_base (e : Event) : baseEvent :=
  match e with
  | ProcessStartingEvent b | ProcessStartedEvent b _ _ | ProcessStoppedEvent b _
  | ProcessCrashedEvent b _ _ _ | AgentFatalEvent b _ | LogChunkEvent b _ _
  | LogOverflowEvent b _ | BackpressureStallEvent b _ _ _ _ => b
  end.
Definition ProcessID (e : Event) : string := be_processID (ev_base e).
Definition Timestamp (e : Event) : Z := be_ts (ev_base e).

Record Filter := mkFilter { f_Types : list string; f_ProcessIDs : list string }.

(** [Filter.Matches]: an empty list matches anything. *)
Definition Matches (f : Filter) (e : Event) : bool :=
  if negb (match f_Types f with [] => true | ts => existsb (String.eqb (EventType e)) ts end) then false
  else if negb (match f_ProcessIDs f with [] => true | ids => existsb (String.eqb (ProcessID e)) ids end)
  then false
  else true.

(** ** The bus *)

Record subscription := mkSub {
  sb_filter : Filter; sb_ch : list Event; sb_dropCnt : Z; sb_chClosed : bool }.

(** [b_subs]: the addresses of the registered subscriptions. *)
Record Bus := mkBus {
  b_store : list subscription;
  b_subs : gset nat;
  b_closed : bool;
  b_DropThreshold : Z;
  b_chCap : nat;
  b_panic : bool
}.

Definition NewWithPolicy (chCap threshold : Z) : Bus :=
  mkBus [] ∅ false threshold (Z.to_nat (if chCap <? 1 then 1 else chCap)) false.
Definition New (chCap : Z) : Bus := NewWithPolicy chCap 10.

Definition set_store (b : Bus) (st : list subscription) : Bus :=
  mkBus st (b_subs b) (b_closed b) (b_DropThreshold b) (b_chCap b) (b_panic b).

(** [subscription.closeChannel]. *)
Definition closeChannel (s : subscription) : subscription :=
  mkSub (sb_filter s) (sb_ch s) (sb_dropCnt s) true.

Definition recordDrop (s : subscription) : subscription :=
  mkSub (sb_filter s) (sb_ch s) (sb_dropCnt s + 1) (sb_chClosed s).
Definition resetDrops (s : subscription) : subscription :=
  mkSub (sb_filter s) (sb_ch s) 0 (sb_chClosed s).
Definition drops (s : subscription) : Z := sb_dropCnt s.

Definition disconnect (b : Bus) (a : nat) : Bus :=
  if decide (a ∈ b_subs b)
  then mkBus (alter closeChannel a (b_store b)) (b_subs b ∖ {[a]}) (b_closed b)
         (b_DropThreshold b) (b_chCap b) (b_panic b)
  else b.

(** [subscription.Close]. *)
Definition Subscription_Close (b : Bus) (a : nat) : Bus := disconnect b a.

Definition Subscribe (b : Bus) (f : Filter) : Bus * nat :=
  let a := length (b_store b) in
  (mkBus (b_store b ++ [mkSub f [] 0 (b_closed b)])
     (if b_closed b then b_subs b else b_subs b ∪ {[a]})
     (b_closed b) (b_DropThreshold b) (b_chCap b) (b_panic b), a).

Definition Close (b : Bus) : Bus :=
  if b_closed b then b
  else mkBus (imap (λ a s, if decide (a ∈ b_subs b) then closeChannel s else s) (b_store b))
         ∅ true (b_DropThreshold b) (b_chCap b) (b_panic b).

(** The body of the loop of [Publish] for one subscription: a non-blocking
    send, which panics on a closed channel. *)
Definition publish_one (e : Event) (b : Bus) (a : nat) : Bus :=
  match b_store b !! a with
  | None => b
  | Some s =>
      if negb (Matches (sb_filter s) e) then b
      else if sb_chClosed s
      then mkBus (b_store b) (b_subs b) (b_closed b) (b_DropThreshold b) (b_chCap b) true
      else if (length (sb_ch s) <? b_chCap b)%nat
      then set_store b (<[a := resetDrops (mkSub (sb_filter s) (sb_ch s ++ [e]) (sb_dropCnt s) (sb_chClosed s))]> (b_store b))
      else
        let s' := recordDrop s in
        let b1 := set_store b (<[a := s']> (b_store b)) in
        if (0 <? b_DropThreshold b) && (b_DropThreshold b <=? drops s') then disconnect b1 a else b1
  end.

(** [Publish] with nothing in between; [order] is the map's iteration order. *)
Definition Publish (order : list nat) (b : Bus) (e : Event) : Bus :=
  if b_closed b then b else foldl (publish_one e) b order.

(** The consumer of subscription [a] receives. *)
Definition recv (b : Bus) (a : nat) : Bus * option Event :=
  match b_store b !! a with
  | Some (mkSub f (e :: q) n cl) => (set_store b (<[a := mkSub f q n cl]> (b_store b)), Some e)
  | _ => (b, None)
  end.

(** ** What one subscription sees of a publication *)

Definition sub_after (cap : nat) (thr : Z) (e : Event) (s : subscription) : subscription :=
  if negb (Matches (sb_filter s) e) then s
  else if (length (sb_ch s) <? cap)%nat then mkSub (sb_filter s) (sb_ch s ++ [e]) 0 false
  else
    let n := sb_dropCnt s + 1 in
    mkSub (sb_filter s) (sb_ch s) n ((0 <? thr) && (thr <=? n)).

(** Registered subscriptions are open; all others are closed. *)
Definition bus_wf (b : Bus) : Prop :=
  ∀ a, a ∈ b_subs b ↔ ∃ s, b_store b !! a = Some s ∧ sb_chClosed s = false.

Lemma publish_one_other e b a a' : a' ≠ a → b_store (publish_one e b a) !! a' = b_store b !! a'.
Proof.
  intros Hne. unfold publish_one, disconnect.
  repeat (case_match; simplify_eq/=); try done; rewrite ?list_lookup_alter_ne by done;
    by rewrite ?list_lookup_insert_ne by done.
Qed.

Lemma publish_one_params e b a :
  b_DropThreshold (publish_one e b a) = b_DropThreshold b ∧ b_chCap (publish_one e b a) = b_chCap b ∧
  b_closed (publish_one e b a) = b_closed b.
Proof. unfold publish_one, disconnect. repeat (case_match; simplify_eq/=); done. Qed.

Lemma publish_one_self e b a s :
  bus_wf b → a ∈ b_subs b → b_store b !! a = Some s →
  b_store (publish_one e b a) !! a = Some (sub_after (b_chCap b) (b_DropThreshold b) e s) ∧
  b_panic (publish_one e b a) = b_panic b ∧ bus_wf (publish_one e b a) ∧
  b_subs b ∖ {[a]} ⊆ b_subs (publish_one e b a).
Proof.
  intros Hwf Ha Hs. assert (sb_chClosed s = false) as Hcl.
  { apply Hwf in Ha as (s' & Hs' & ?). congruence. }
  assert (a < length (b_store b))%nat as Hlt by by eapply lookup_lt_Some.
  assert (∀ s' b', b_store b' = <[a := s']> (b_store b) → b_subs b' = b_subs b →
    sb_chClosed s' = false → bus_wf b') as Hopen.
  { intros s' b' E1 E2 E3 a'. rewrite E1, E2. destruct (decide (a' = a)) as [->|Hne].
    - rewrite list_lookup_insert_eq by done. naive_solver.
    - by rewrite list_lookup_insert_ne by done. }
  unfold publish_one, sub_after, recordDrop, resetDrops, drops. rewrite Hs. destruct (Matches (sb_filter s) e); simpl; [|set_solver].
  rewrite !Hcl. destruct (length (sb_ch s) <? b_chCap b)%nat; simpl.
  { rewrite list_lookup_insert_eq by done. split_and!; [done|done|by eapply Hopen|set_solver]. }
  destruct (_ && _); simpl.
  - unfold disconnect. rewrite decide_True by done. simpl.
    rewrite list_lookup_alter_eq, list_lookup_insert_eq by done. split_and!; [done..| |set_solver].
    intros a'. simpl. rewrite elem_of_difference, elem_of_singleton.
    destruct (decide (a' = a)) as [->|Hne].
    + rewrite list_lookup_alter_eq, list_lookup_insert_eq by done. naive_solver.
    + rewrite list_lookup_alter_ne, list_lookup_insert_ne by done. rewrite (Hwf a'). naive_solver.
  - rewrite list_lookup_insert_eq by done. split_and!; [done|done|by eapply Hopen|set_solver].
Qed.

(** A publication treats every subscription on its own. *)
Lemma publish_fold e order : ∀ b,
  bus_wf b → NoDup order → (∀ a, a ∈ order → a ∈ b_subs b) →
  let b' := foldl (publish_one e) b order in
  b_panic b' = b_panic b ∧ bus_wf b' ∧ b_closed b' = b_closed b ∧
  b_DropThreshold b' = b_DropThreshold b ∧ b_chCap b' = b_chCap b ∧
  ∀ a, b_store b' !! a =
    (if decide (a ∈ order) then sub_after (b_chCap b) (b_DropThreshold b) e else id) <$> b_store b !! a.
Proof.
  induction order as [|a order IH]; intros b Hwf Hnd Hsub.
  { cbn [foldl]. split_and!; try done. intros a.
    destruct (decide (a ∈ [])) as [H|]; [by apply elem_of_nil in H|]. by destruct (b_store b !! a). }
  apply NoDup_cons in Hnd as [Ha Hnd]. cbn [foldl].
  assert (a ∈ b_subs b) as Hin by (apply Hsub; left).
  pose proof Hin as (s & Hs & _)%Hwf.
  destruct (publish_one_self e b a s Hwf Hin Hs) as (E1 & E2 & E3 & E4).
  destruct (publish_one_params e b a) as (P1 & P2 & P3).
  destruct (IH (publish_one e b a) E3 Hnd) as (F1 & F2 & F3 & F4 & F5 & F6).
  { intros a' Ha'. apply E4. apply elem_of_difference. split; [apply Hsub; by right|].
    intros ->%elem_of_singleton. done. }
  split_and!; [congruence|done|congruence..|]. intros a'. rewrite F6, P1, P2.
  destruct (decide (a' = a)) as [->|Hne].
  - rewrite (decide_False (P := a ∈ order)) by done. rewrite (decide_True (P := a ∈ a :: order)) by left.
    by rewrite E1, Hs.
  - rewrite publish_one_other by done. destruct (decide (a' ∈ order)).
    + by rewrite decide_True by by right.
    + by rewrite decide_False by set_solver.
Qed.

(** ** Runs of uninterrupted calls *)

Inductive bus_op :=
| BSubscribe (f : Filter)
| BUnsubscribe (a : nat)
| BPublish (order : list nat) (e : Event)
| BRecv (a : nat)
| BClose.

Inductive bus_event :=
| BPublished (e : Event)
| BReceived (a : nat) (e : Event).

(** [order] is an enumeration of the subscriptions. *)
Definition enumerates (order : list nat) (b : Bus) : Prop :=
  NoDup order ∧ list_to_set order = b_subs b.
#[global] Instance enumerates_dec order b : Decision (enumerates order b).
Proof. apply _. Defined.

Definition bus_step (b : Bus) (op : bus_op) : Bus * list bus_event :=
  match op with
  | BSubscribe f => (fst (Subscribe b f), [])
  | BUnsubscribe a => (disconnect b a, [])
  | BPublish order e =>
      if decide (enumerates order b) then (Publish order b e, [BPublished e]) else (b, [])
  | BRecv a => let '(b', r) := recv b a in (b', match r with Some e => [BReceived a e] | None => [] end)
  | BClose => (Close b, [])
  end.

Definition published (e : bus_event) : option Event :=
  match e with BPublished x => Some x | _ => None end.
Definition bus_received (a : nat) (e : bus_event) : option Event :=
  match e with BReceived a' x => if decide (a' = a) then Some x else None | _ => None end.

(** The events a subscription with filter [f] was entitled to. *)
Definition matching (f : Filter) (evs : list bus_event) : list Event :=
  filter (λ e, Matches f e = true) (omap published evs).

(** The invariant follows the subscriptions [P] selects: all of them, or those
    made after some point of a run, whose events count from there. *)
Section Inv.
Context (P : nat → Prop).

Record bus_inv (b : Bus) (evs : list bus_event) : Prop := mkBusInv {
  bi_wf : bus_wf b;
  bi_panic : b_panic b = false;
  bi_fresh : ∀ a, (length (b_store b) ≤ a)%nat → omap (bus_received a) evs = [];
  bi_order : ∀ a s, P a → b_store b !! a = Some s →
    omap (bus_received a) evs ++ sb_ch s `sublist_of` matching (sb_filter s) evs
}.

(** A step without events that at most closes channels. *)
Lemma bus_inv_quiet b b' evs :
  bus_inv b evs → bus_wf b' → b_panic b' = b_panic b → length (b_store b') = length (b_store b) →
  (∀ a s', b_store b' !! a = Some s' → ∃ s, b_store b !! a = Some s ∧ sb_ch s' = sb_ch s ∧
     sb_filter s' = sb_filter s) →
  bus_inv b' (evs ++ []).
Proof.
  intros [H1 H2 H3 H4] Hwf Hp Hl Hst. rewrite app_nil_r. split; [done|congruence| |].
  - intros a. rewrite Hl. auto.
  - intros a s' Ha Hs'. destruct (Hst a s' Hs') as (s & Hs & -> & ->). auto.
Qed.

Lemma disconnect_inv b evs a : bus_inv b evs → bus_inv (disconnect b a) (evs ++ []).
Proof.
  intros H. unfold disconnect. case_decide as Ha; [|eapply bus_inv_quiet; eauto; apply H].
  eapply bus_inv_quiet; [done| |done|simpl; by rewrite length_alter|].
  - intros a'. simpl. rewrite elem_of_difference, elem_of_singleton, (bi_wf _ _ H a').
    destruct (decide (a' = a)) as [->|Hne].
    + rewrite list_lookup_alter_eq. split; [tauto|]. intros (s & Hs & Hc).
      destruct (b_store b !! a); simplify_eq/=.
    + rewrite list_lookup_alter_ne by done. tauto.
  - intros a' s'. simpl. destruct (decide (a' = a)) as [->|Hne].
    + rewrite list_lookup_alter_eq. destruct (b_store b !! a) as [s|]; intros; simplify_eq/=. by exists s.
    + rewrite list_lookup_alter_ne by done. eauto.
Qed.

Lemma close_inv b evs : bus_inv b evs → bus_inv (Close b) (evs ++ []).
Proof.
  intros H. unfold Close. destruct (b_closed b); [eapply bus_inv_quiet; eauto; apply H|].
  eapply bus_inv_quiet; [done| |done|simpl; by rewrite length_imap|].
  - intros a. simpl. rewrite list_lookup_imap. split; [set_solver|]. intros (s & Hs & Hc).
    destruct (b_store b !! a) as [s0|] eqn:E; simplify_eq/=. case_decide as Ha; simplify_eq/=.
    destruct Ha. apply (bi_wf _ _ H). eauto.
  - intros a s'. simpl. rewrite list_lookup_imap. destruct (b_store b !! a) as [s0|]; [|done].
    simpl. intros [= <-]. exists s0. by case_decide.
Qed.

Lemma subscribe_bus_inv b evs f : bus_inv b evs → bus_inv (Subscribe b f).1 (evs ++ []).
Proof.
  intros [H1 H2 H3 H4]. rewrite app_nil_r. unfold Subscribe. split; simpl; [|done|..].
  - intros a. simpl. specialize (H1 a). destruct (decide (a < length (b_store b))%nat) as [Hlt|Hge].
    + rewrite lookup_app_l by done. rewrite <- H1. case_match; [done|].
      rewrite elem_of_union, elem_of_singleton. split; [intros [?| ->]; [done|lia]|by left].
    + rewrite lookup_app_r by lia.
      assert (a ∉ b_subs b) as Hn. { rewrite H1. intros (s & Hs%lookup_lt_Some & _). lia. }
      destruct (a - length (b_store b))%nat as [|k] eqn:Ek; simpl.
      * assert (a = length (b_store b)) as -> by lia. destruct (b_closed b); [|set_solver].
        split; [done|]. by intros (s & [= <-] & ?).
      * assert (a ≠ length (b_store b)) by lia. split; [case_match; set_solver|]. by intros (s & ? & _).
  - intros a. rewrite length_app. simpl. intros. apply H3. lia.
  - intros a s Ha Hs. apply lookup_app_Some in Hs as [Hs|[Hge Hs]]; [by apply H4|].
    rewrite H3 by done. destruct (a - length (b_store b))%nat; simplify_eq/=. apply sublist_nil_l.
Qed.

Lemma publish_inv b evs order e :
  bus_inv b evs → enumerates order b → bus_inv (Publish order b e) (evs ++ [BPublished e]).
Proof.
  intros [H1 H2 H3 H4] [Hnd Hen]. unfold Publish.
  assert (∀ a, omap (bus_received a) (evs ++ [BPublished e]) = omap (bus_received a) evs) as Hr.
  { intros a. rewrite omap_app. simpl. by rewrite app_nil_r. }
  assert (∀ f, matching f (evs ++ [BPublished e]) =
    matching f evs ++ if Matches f e then [e] else []) as Hm.
  { intros f. unfold matching. rewrite omap_app, filter_app. simpl. f_equal.
    rewrite filter_cons, filter_nil. by destruct (Matches f e). }
  assert (∀ l f, l `sublist_of` matching f evs → l `sublist_of` matching f (evs ++ [BPublished e])) as Hmono.
  { intros l f Hl. rewrite Hm. by apply sublist_inserts_r. }
  destruct (b_closed b).
  { split; try done; intros; rewrite Hr; auto. }
  assert (∀ a, a ∈ order → a ∈ b_subs b) as Hin by (intros a Ha; rewrite <- Hen; by apply elem_of_list_to_set).
  destruct (publish_fold e order b H1 Hnd Hin) as (F1 & F2 & _ & _ & _ & F6).
  split; [done|congruence| |].
  - intros a Hl. rewrite Hr. apply H3. specialize (F6 a). rewrite (lookup_ge_None_2 _ a Hl) in F6.
    destruct (b_store b !! a) eqn:E; [done|]. by apply lookup_ge_None in E.
  - intros a s' Ha. rewrite F6, Hr. destruct (b_store b !! a) as [s|] eqn:Es; [|done].
    simpl. intros [= <-]. specialize (H4 a s Ha Es). case_decide; [|by apply Hmono].
    unfold sub_after. destruct (Matches (sb_filter s) e) eqn:Em; simpl; [|by apply Hmono].
    case_match; simpl; [|by apply Hmono]. rewrite Hm, Em, (assoc_L (++)). by apply sublist_app.
Qed.

Lemma recv_bus_inv b evs a :
  bus_inv b evs → bus_inv (bus_step b (BRecv a)).1 (evs ++ (bus_step b (BRecv a)).2).
Proof.
  intros H. simpl. unfold recv. destruct (b_store b !! a) as [[f [|e q] n cl]|] eqn:Ea;
    [eapply bus_inv_quiet; eauto; apply H| |eapply bus_inv_quiet; eauto; apply H].
  assert (a < length (b_store b))%nat as Hlt by by eapply lookup_lt_Some.
  destruct H as [H1 H2 H3 H4]. simpl. split; simpl; [|done|..].
  - intros a'. rewrite (H1 a'). simpl. destruct (decide (a' = a)) as [->|Hne].
    + rewrite list_lookup_insert_eq, Ea by done. naive_solver.
    + by rewrite list_lookup_insert_ne.
  - intros a'. rewrite length_insert, omap_app. simpl. intros Hge.
    rewrite H3, (decide_False (P := a = a')) by lia. done.
  - intros a' s' Ha' Hs'. unfold matching. rewrite !omap_app. simpl. rewrite app_nil_r.
    fold (matching (sb_filter s') evs). destruct (decide (a = a')) as [->|Hne].
    + rewrite list_lookup_insert_eq in Hs' by done. injection Hs' as <-.
      specialize (H4 a' _ Ha' Ea). simpl in *. by rewrite <- (assoc_L (++)).
    + rewrite list_lookup_insert_ne in Hs' by done. rewrite app_nil_r. auto.
Qed.

Lemma bus_inv_step b evs op :
  bus_inv b evs → bus_inv (bus_step b op).1 (evs ++ (bus_step b op).2).
Proof.
  intros H. destruct op as [f|a|order e|a|].
  - by apply subscribe_bus_inv.
  - by apply disconnect_inv.
  - simpl. case_decide; [by apply publish_inv|]. simpl. by rewrite app_nil_r.
  - by apply recv_bus_inv.
  - by apply close_inv.
Qed.
End Inv.

(** [n] publications of one event with nobody receiving. *)
Fixpoint publish_n (n : nat) (b : Bus) (e : Event) : Bus :=
  match n with
  | O => b
  | S n' => let b1 := publish_n n' b e in Publish (elements (b_subs b1)) b1 e
  end.

Lemma publish_n_full n b e a s :
  bus_wf b → b_closed b = false → b_store b !! a = Some s → sb_chClosed s = false →
  Matches (sb_filter s) e = true → (b_chCap b ≤ length (sb_ch s))%nat →
  sb_dropCnt s = 0 → (b_DropThreshold b ≤ 0 ∨ Z.of_nat n < b_DropThreshold b) →
  let b' := publish_n n b e in
  bus_wf b' ∧ b_closed b' = false ∧ b_chCap b' = b_chCap b ∧ b_DropThreshold b' = b_DropThreshold b ∧
  b_store b' !! a = Some (mkSub (sb_filter s) (sb_ch s) (Z.of_nat n) false).
Proof.
  intros Hwf Hcl Hs Hsc Hm Hfull Hd. induction n as [|n IH]; intros Hn.
  { simpl. split_and!; try done. rewrite Hs. destruct s; simpl in *; by subst. }
  cbn [publish_n]. destruct IH as (I1 & I2 & I3 & I4 & I5); [lia|].
  set (b1 := publish_n n b e) in *. unfold Publish. rewrite I2.
  destruct (publish_fold e (elements (b_subs b1)) b1 I1) as (_ & F2 & F3 & F4 & F5 & F6);
    [apply NoDup_elements|intros x; by rewrite elem_of_elements|].
  split_and!; [done|congruence..|]. rewrite F6, I5. simpl.
  rewrite decide_True by (apply elem_of_elements, I1; eauto). unfold sub_after. simpl. rewrite Hm. simpl.
  rewrite (proj2 (Nat.ltb_ge _ _)) by lia. f_equal. f_equal; [lia|].
  apply andb_false_iff. rewrite Z.ltb_ge, Z.leb_gt. lia.
Qed.

(** ** Properties *)

(** C30: the bus under uninterrupted calls.  In every run of subscriptions,
    unsubscriptions, publications (in any map order), receives and close, no
    call sends on a closed channel, and what a subscriber received followed by
    what it still has buffered is, in order and without duplicates, a
    subsequence of the published events its filter matches. *)
Theorem bus_delivers_matching_in_order (chCap threshold : Z) (ops : list bus_op) :
  let '(b, evs) := run_trace bus_step (NewWithPolicy chCap threshold) ops in
  b_panic b = false ∧
  ∀ a s, b_store b !! a = Some s →
    omap (bus_received a) evs ++ sb_ch s `sublist_of` matching (sb_filter s) evs.
Proof.
  assert (bus_inv (λ _, True) (NewWithPolicy chCap threshold) []) as H0.
  { split; try done. intros a. simpl. split; [set_solver|]. by intros (s & ? & _). }
  pose proof (run_trace_inv bus_step (bus_inv (λ _, True)) (λ _, True) (λ b evs op H _, bus_inv_step _ b evs op H)
    ops _ [] H0 ltac:(by apply Forall_true)) as H.
  destruct (run_trace bus_step _ ops) as [b evs]. split; [apply H|]. intros a s. by apply (bi_order _ _ _ H).
Qed.

(** The slow-subscriber policy.  A subscriber with a full channel and no
    recent drop that does not receive stays subscribed, keeping its buffered
    events, for fewer than [DropThreshold] publications (for ever when the
    threshold is not positive), and is disconnected by the [DropThreshold]-th. *)
Theorem slow_subscriber_policy (b : Bus) (e : Event) (a : nat) (s : subscription) (n : nat)
    (Hwf : bus_wf b) (Hopen : b_closed b = false)
    (Hs : b_store b !! a = Some s) (Hsc : sb_chClosed s = false)
    (Hm : Matches (sb_filter s) e = true) (Hfull : (b_chCap b ≤ length (sb_ch s))%nat)
    (Hd : sb_dropCnt s = 0) :
  (b_DropThreshold b ≤ 0 ∨ Z.of_nat n < b_DropThreshold b →
     a ∈ b_subs (publish_n n b e) ∧ sb_ch <$> b_store (publish_n n b e) !! a = Some (sb_ch s)) ∧
  (0 < b_DropThreshold b → a ∉ b_subs (publish_n (Z.to_nat (b_DropThreshold b)) b e)).
Proof.
  split.
  - intros Hn. destruct (publish_n_full n b e a s) as (I1 & _ & _ & _ & I5); [done..|].
    split; [apply I1; eauto|]. by rewrite I5.
  - intros Hpos. destruct (Z.to_nat (b_DropThreshold b)) as [|k] eqn:Ek; [lia|]. cbn [publish_n].
    destruct (publish_n_full k b e a s) as (I1 & I2 & I3 & I4 & I5); [done..|lia|].
    set (b1 := publish_n k b e) in *. unfold Publish. rewrite I2.
    destruct (publish_fold e (elements (b_subs b1)) b1 I1) as (_ & F2 & _ & _ & _ & F6);
      [apply NoDup_elements|intros x; by rewrite elem_of_elements|].
    rewrite (F2 a), F6, I5. rewrite decide_True by (apply elem_of_elements, I1; eauto).
    simpl. unfold sub_after. simpl. rewrite Hm. simpl. rewrite (proj2 (Nat.ltb_ge _ _)) by lia.
    rewrite I4, (proj2 (Z.ltb_lt _ _)), (proj2 (Z.leb_le _ _)) by lia. by intros (x & [= <-] & ?).
Qed.

Definition ex_event : Event := ProcessStartingEvent (mkBase "p" 1).

Lemma slow_subscriber_policy_witness :
  let b := (Publish [0%nat] (Subscribe (NewWithPolicy 1 2) (mkFilter [] [])).1 ex_event) in
  (b_DropThreshold b ≤ 0 ∨ Z.of_nat 1 < b_DropThreshold b →
     0%nat ∈ b_subs (publish_n 1 b ex_event) ∧
     sb_ch <$> b_store (publish_n 1 b ex_event) !! 0%nat = Some [ex_event]) ∧
  (0 < b_DropThreshold b → 0%nat ∉ b_subs (publish_n (Z.to_nat (b_DropThreshold b)) b ex_event)).
Proof.
  intros b. refine (slow_subscriber_policy b ex_event 0 (mkSub (mkFilter [] []) [ex_event] 0 false) 1
    _ eq_refl eq_refl eq_refl eq_refl _ eq_refl).
  - intros a. change (b_subs b) with (∅ ∪ {[0%nat]} : gset nat).
    change (b_store b) with [mkSub (mkFilter [] []) [ex_event] 0 false]. set_unfold.
    destruct a as [|a]; simpl; [naive_solver|]. split; [lia|]. by intros (x & ? & _).
  - simpl. lia.
Defined.

(** Publication is not atomic.  A subscription closed after [Publish] took
    its list of subscriptions and before it sent makes the send panic. *)
Theorem publish_races_with_close :
  let b := (Subscribe (New 4) (mkFilter [] [])).1 in
  b_panic (foldl (publish_one ex_event) (disconnect b 0) (elements (b_subs b))) = true.
Proof. reflexivity. Qed.
