(* ===== verification/Supervise.v ===== *)
(** * Supervision: internal/supervise

    The restart loop over a backoff strategy, spawning an agent (descriptors,
    environment, arguments) and closing its handle, and the exit watcher.
    What the kernel and the agent decide (whether a system call succeeds, when
    a process exits, which ready case a [select] takes) is an argument. *)

From S2P Require Import Prelude Text.

(** ** The restart loop: restart_loop.go *)

(** The interface [BackoffStrategy]; strategies keep a state (the random
    source of [ExponentialBackoff]). *)
Class BackoffStrategy (B : Type) := Next : B → Z → B * Z.

Inductive RestartLoopPolicy := RestartLoopNever | RestartLoopOnFailure | RestartLoopAlways.

#[global] Instance RestartLoopPolicy_eq_dec : EqDecision RestartLoopPolicy.
Proof. solve_decision. Defined.

Record RestartLoopOptions (B : Type) := mkRLO {
  rlo_Policy : RestartLoopPolicy; rlo_MaxRestarts : Z; rlo_Backoff : B }.
Arguments mkRLO {B}. Arguments rlo_Policy {B}. Arguments rlo_MaxRestarts {B}. Arguments rlo_Backoff {B}.

(** [NewRestartLoop]: a nil strategy is replaced by the default one. *)
Definition NewRestartLoop {B} (dflt : B) (p : RestartLoopPolicy) (max : Z) (b : option B)
    : RestartLoopOptions B := mkRLO p max (default dflt b).

Section RestartLoop.
Context {B E : Type} `{!BackoffStrategy B}.

(** What [Run] returns: nil, an error of the starter, the context's error, or
    the loop's own. *)
Inductive run_result :=
| RunNil | RunStarterErr (e : E) | RunCtxErr (e : E) | RunExhausted.

(** One turn of the loop as the world answers it: [ctx.Err()] at its top, the
    result of [Starter.Start], and the case of the final [select] ([Some e]:
    the context ended with [e] before the timer). *)
Record turn := mkTurn { tn_ctx : option E; tn_start : option E; tn_wait : option E }.

Inductive run_event := EvStart (r : option E) | EvDelay (d : Z).

Record run_state := mkRun { rs_attempts : Z; rs_lastErr : option E; rs_backoff : B }.

(** One iteration of [Run]'s loop: the next state, or the returned value. *)
Definition run_turn (p : RestartLoopPolicy) (max : Z) (s : run_state) (t : turn)
    : (run_state + run_result) * list run_event :=
  match tn_ctx t with
  | Some e =>
      (inr (match rs_lastErr s with Some l => RunStarterErr l | None => RunCtxErr e end), [])
  | None =>
      match tn_start t with
      | None => (inr RunNil, [EvStart None])
      | Some err =>
          if decide (p = RestartLoopNever) then (inr (RunStarterErr err), [EvStart (Some err)])
          else
            let attempts := i64 (rs_attempts s + 1) in
            if (0 <? max) && (max <? attempts) then (inr RunExhausted, [EvStart (Some err)])
            else
              let '(b', delay) := Next (rs_backoff s) (attempts - 1) in
              let evs := [EvStart (Some err); EvDelay delay] in
              match tn_wait t with
              | Some e => (inr (RunCtxErr e), evs)
              | None => (inl (mkRun attempts (Some err) b'), evs)
              end
      end
  end.

(** [Run] against the turns the world answers; [None] when they run out
    before it returned. *)
Fixpoint run_turns (p : RestartLoopPolicy) (max : Z) (s : run_state) (ts : list turn)
    : option run_result * list run_event :=
  match ts with
  | [] => (None, [])
  | t :: ts' =>
      match run_turn p max s t with
      | (inr r, evs) => (Some r, evs)
      | (inl s', evs) => let '(r, evs') := run_turns p max s' ts' in (r, evs ++ evs')
      end
  end.

Definition Run (o : RestartLoopOptions B) (ts : list turn) : option run_result * list run_event :=
  run_turns (rlo_Policy o) (rlo_MaxRestarts o) (mkRun 0 None (rlo_Backoff o)) ts.

(** The starts and the delays of a run. *)
Definition ev_start (e : run_event) : option (option E) :=
  match e with EvStart r => Some r | EvDelay _ => None end.
Definition ev_delay (e : run_event) : option Z :=
  match e with EvDelay d => Some d | EvStart _ => None end.

(** The first [n] delays the strategy computes from attempt [k] on. *)
Fixpoint delays_from (b : B) (k : Z) (n : nat) : list Z :=
  match n with
  | O => []
  | S n' => let '(b', d) := Next b k in d :: delays_from b' (k + 1) n'
  end.

(** How a run that made the starts [ss] ended with [r]; [prev] is the last
    error before them and [k] the restarts already used. *)
Definition run_ended (p : RestartLoopPolicy) (max k : Z) (prev : option E)
    (ss : list (option E)) (r : run_result) : Prop :=
  let failed := λ s : option E, s ≠ None in
  match r with
  | RunNil => ∃ fs, ss = fs ++ [None] ∧ Forall failed fs
  | RunStarterErr e => Forall failed ss ∧ last (prev :: ss) = Some (Some e)
  | RunCtxErr _ => Forall failed ss
  | RunExhausted => Forall failed ss ∧ p ≠ RestartLoopNever ∧ 0 < max ∧ k + Z.of_nat (length ss) = max + 1
  end.

Lemma i64_succ k : 0 ≤ k → k < 2 ^ 63 - 1 → i64 (k + 1) = k + 1.
Proof. intros. apply wrap_i_small; [lia|]. unfold in_i. lia. Qed.

(** What a run does from a state that has used [k] restarts, for both limits:
    its result, its starts and its delays. *)
Lemma run_turns_spec p max ts : ∀ k prev b,
  max < 2 ^ 63 - 1 → 0 ≤ k → k + Z.of_nat (length ts) < 2 ^ 63 - 1 ∨ 0 < max →
  (0 < max → k ≤ max) →
  let '(r, evs) := run_turns p max (mkRun k prev b) ts in
  let ss := omap ev_start evs in
  (0 < max → k + Z.of_nat (length ss) ≤ max + 1) ∧
  (0 < max → max - k < Z.of_nat (length ts) → r ≠ None) ∧
  (length ss ≤ length ts)%nat ∧
  omap ev_delay evs = delays_from b k (length (omap ev_delay evs)) ∧
  match r with
  | Some r => run_ended p max k prev ss r ∧ (length ss ≤ S (length (omap ev_delay evs)))%nat
  | None => Forall (λ s, s ≠ None) ss ∧ length ss = length ts ∧ length ss = length (omap ev_delay evs)
  end.
Proof.
  induction ts as [|t ts IH]; intros k prev b Hmax Hk Hfit Hle; cbn [run_turns].
  { simpl. split_and!; try done; intros; lia. }
  simpl length in *. unfold run_turn. cbn [rs_lastErr rs_attempts rs_backoff].
  destruct (tn_ctx t) as [e|].
  { simpl. split_and!; try done; intros; try lia. destruct prev; by repeat constructor. }
  destruct (tn_start t) as [err|]; simpl;
    [|split_and!; try done; intros; try lia; by exists []].
  destruct (decide (p = RestartLoopNever)); simpl;
    [split_and!; try done; intros; try lia; by repeat constructor|].
  rewrite i64_succ by lia.
  destruct ((0 <? max) && (max <? k + 1)) eqn:Ex; simpl.
  { split_and!; try done; intros; try lia; by repeat constructor || lia. }
  replace (k + 1 - 1) with k by lia. destruct (Next b k) as [b' d] eqn:Eb.
  destruct (tn_wait t) as [e|]; simpl.
  { rewrite Eb. split_and!; try done; intros; try lia; by repeat constructor. }
  specialize (IH (k + 1) (Some err) b' Hmax ltac:(lia) ltac:(lia) ltac:(lia)).
  destruct (run_turns p max _ ts) as [r evs]. csimpl. rewrite Eb.
  destruct IH as (I1 & I2 & I3 & I4 & I5). split; [intros; lia|]. split; [intros; apply I2; lia|].
  split; [lia|]. split; [by f_equal|].
  destruct r as [[]|]; simpl in *.
  - destruct I5 as ((fs & Hss & Hfs) & ?). split; [|lia]. exists (Some err :: fs).
      rewrite Hss. split; [done|]. by constructor.
  - destruct I5 as ([Hfs Hl] & ?). split; [|lia]. split; [by constructor|done].
  - destruct I5. split; [by constructor|lia].
  - destruct I5 as ((Hfs & ? & ? & ?) & ?). split; [|lia]. split_and!; [by constructor|done|lia|lia].
  - destruct I5 as (Hfs & ? & ?). split_and!; [by constructor|lia|lia].
Qed.

End RestartLoop.
Arguments run_result : clear implicits.
Arguments turn : clear implicits.
Arguments run_event : clear implicits.

(** ** Environments

    An environment is a list of [KEY=value] entries; [exec.Cmd] keeps the last
    entry of a key. *)

Fixpoint strip_prefix (p s : string) : option string :=
  match p, s with
  | EmptyString, _ => Some s
  | String a p', String b s' => if Ascii.eqb a b then strip_prefix p' s' else None
  | String _ _, EmptyString => None
  end.

Definition getenv (env : list string) (k : string) : option string :=
  last (omap (strip_prefix (k ++ "=")%string) env).

Lemma strip_prefix_app p s : strip_prefix p (p ++ s)%string = Some s.
Proof. induction p as [|a p IH]; simpl; [done|]. by rewrite Ascii.eqb_refl. Qed.

Lemma getenv_snoc env k v : getenv (env ++ [k ++ "=" ++ v]%string) k = Some v.
Proof.
  unfold getenv. rewrite omap_app. csimpl.
  replace (k ++ "=" ++ v)%string with ((k ++ "=") ++ v)%string
    by (apply (inj chars); by rewrite !chars_app, (assoc_L (++))).
  by rewrite strip_prefix_app, last_snoc.
Qed.

(** An entry that is not for [k] does not change what [k] is. *)
Lemma getenv_skip env k e : strip_prefix (k ++ "=") e = None → getenv (env ++ [e]) k = getenv env k.
Proof. intros H. unfold getenv. rewrite omap_app. csimpl. by rewrite H, app_nil_r. Qed.

(** ** Spawning an agent: spawner.go *)

Record SpawnerOptions := mkSpawnerOptions {
  so_AgentPath : string; so_RuntimeDir : string; so_ExtraEnv : list string }.
Record SpawnOpts := mkSpawnOpts { sp_Persistent : bool; sp_SessionDir : string }.

(** The host's descriptors: the two ends of the socket pair, agent.log, and
    the duplicate [net.FileConn] makes. *)
Inductive fd := HostFD | AgentFD | LogFD | ConnFD.
#[global] Instance fd_eq_dec : EqDecision fd.
Proof. solve_decision. Defined.

(** [syscall.Socketpair] without flags leaves both ends inheritable; what
    [os.OpenFile] and [net.FileConn] return is close-on-exec. *)
Definition inheritable (f : fd) : bool :=
  match f with HostFD | AgentFD => true | LogFD | ConnFD => false end.

(** The [exec.Cmd]: its extra files become descriptors 3, 4, ... of the child,
    [cmd_Output] its descriptors 1 and 2. *)
Record Cmd := mkCmd {
  cmd_Args : list string; cmd_Env : list string; cmd_ExtraFiles : list fd;
  cmd_Output : option fd; cmd_Dir : string; cmd_Setsid : bool }.

(** A started process: its command and the host descriptors it inherited. *)
Record process := mkProcess { pr_cmd : Cmd; pr_fds : list fd; pr_pid : Z; pr_killed : bool }.

Record spawn_world := mkWorld { w_open : list fd; w_child : option process }.

(** What the system answers: the environment, whether each call succeeds, and
    whether the duplicated descriptor is a Unix socket. *)
Record os_answers := mkOS {
  os_Environ : list string; os_socketpair : bool; os_mkdir : bool; os_openlog : bool;
  os_start : option Z; os_fileconn : option bool }.

Inductive spawn_err :=
| ErrAgentPath | ErrSessionDir | ErrSocketpair | ErrMkdir | ErrOpenLog | ErrStart | ErrFileConn | ErrConnType.

Record AgentHandle := mkHandle { h_Socket : bool; h_Process : option Z; h_PID : Z; h_closed : bool }.

Definition close_fd (f : fd) (w : spawn_world) : spawn_world :=
  mkWorld (filter (λ g, g ≠ f) (w_open w)) (w_child w).
Definition open_fds (fs : list fd) (w : spawn_world) : spawn_world :=
  mkWorld (w_open w ++ fs) (w_child w).
(** Fork and exec: the child gets every inheritable open descriptor, and
    copies of the ones the command passes. *)
Definition start_cmd (c : Cmd) (pid : Z) (w : spawn_world) : spawn_world :=
  mkWorld (w_open w)
    (Some (mkProcess c (filter (λ f, inheritable f = true) (w_open w)
             ++ cmd_ExtraFiles c ++ default [] ((λ f, [f]) <$> cmd_Output c)) pid false)).
Definition kill (w : spawn_world) : spawn_world :=
  mkWorld (w_open w) ((λ p, mkProcess (pr_cmd p) (pr_fds p) (pr_pid p) true) <$> w_child w).

(** The command [Spawn] prepares. *)
Definition agent_cmd (o : SpawnerOptions) (agentID : string) (opts : SpawnOpts) (environ : list string) : Cmd :=
  let env := environ ++ ["CLIWRAP_AGENT_ID=" ++ agentID]%string ++ so_ExtraEnv o
    ++ (if String.eqb (so_RuntimeDir o) "" then []
        else ["CLIWRAP_AGENT_RUNTIME=" ++ so_RuntimeDir o]%string) in
  if sp_Persistent opts
  then mkCmd [so_AgentPath o; "--persistent"]%string
         (env ++ ["CLIWRAP_PERSISTENT=1"; "CLIWRAP_SESSION_DIR=" ++ sp_SessionDir opts]%string)
         [AgentFD] (Some LogFD) "/" true
  else mkCmd [so_AgentPath o] env [AgentFD] None "" false.

(** [Spawn]; the final steps, from [cmd.Start] on, are [spawn_start]. *)
Definition spawn_start (c : Cmd) (a : os_answers) (w : spawn_world)
    : spawn_world * result spawn_err AgentHandle :=
  match os_start a with
  | None => (close_fd AgentFD (close_fd HostFD (close_fd LogFD w)), Err ErrStart)
  | Some pid =>
      let w1 := close_fd AgentFD (close_fd LogFD (start_cmd c pid w)) in
      match os_fileconn a with
      | None => (kill (close_fd HostFD w1), Err ErrFileConn)
      | Some unix =>
          let w2 := close_fd HostFD (open_fds [ConnFD] w1) in
          if unix then (w2, Ok (mkHandle true (Some pid) pid false))
          else (kill (close_fd ConnFD w2), Err ErrConnType)
      end
  end.

Definition Spawn (o : SpawnerOptions) (agentID : string) (opts : SpawnOpts) (a : os_answers)
    : spawn_world * result spawn_err AgentHandle :=
  let w0 := mkWorld [] None in
  if String.eqb (so_AgentPath o) "" then (w0, Err ErrAgentPath)
  else if sp_Persistent opts && String.eqb (sp_SessionDir opts) "" then (w0, Err ErrSessionDir)
  else if negb (os_socketpair a) then (w0, Err ErrSocketpair)
  else
    let w1 := open_fds [HostFD; AgentFD] w0 in
    let c := agent_cmd o agentID opts (os_Environ a) in
    if sp_Persistent opts then
      if negb (os_mkdir a) then (close_fd AgentFD (close_fd HostFD w1), Err ErrMkdir)
      else if negb (os_openlog a) then (close_fd AgentFD (close_fd HostFD w1), Err ErrOpenLog)
      else spawn_start c a (open_fds [LogFD] w1)
    else spawn_start c a w1.

(** [AgentHandle.Close]; [exits]: the process ends within three seconds of
    SIGTERM.  The outputs are the calls it makes, in order. *)
Inductive handle_call := SocketClose | SignalTERM | ProcessKill | ProcessReaped.

Definition Handle_Close (exits : bool) (h : AgentHandle) : AgentHandle * list handle_call :=
  if h_closed h then (h, [])
  else (mkHandle (h_Socket h) (h_Process h) (h_PID h) true,
        (if h_Socket h then [SocketClose] else []) ++
        match h_Process h with
        | Some _ => [SignalTERM] ++ (if exits then [] else [ProcessKill]) ++ [ProcessReaped]
        | None => []
        end).

(** ** The exit watcher: watcher.go *)

Record WatchResult := mkWatch { wr_PID : Z; wr_ExitCode : Z; wr_Signal : Z }.
Inductive watch_err := WaitErr | WatchCanceled.

(** How [Process.Wait] ended: an exit code, a signal, or an error. *)
Inductive wait_out := WaitExited (code : Z) | WaitSignaled (sig : Z) | WaitFailed.

(** [Watcher.Wait]; [None]: the context ended first.  [ProcessState.ExitCode]
    is -1 for a signaled process. *)
Definition Watcher_Wait (pid : Z) (out : option wait_out) : WatchResult * option watch_err :=
  match out with
  | None => (mkWatch pid 0 0, Some WatchCanceled)
  | Some WaitFailed => (mkWatch pid 0 0, Some WaitErr)
  | Some (WaitExited code) => (mkWatch pid code 0, None)
  | Some (WaitSignaled sig) => (mkWatch pid (-1) sig, None)
  end.

(** ** Properties *)

(** C24: the restart loop is bounded and reports what happened.  With
    [MaxRestarts] = m > 0, [Run] returns after at most m + 1 starts, however
    often the starter fails; it returns nil exactly when its last start
    succeeded and all earlier ones failed, the exhaustion error exactly after
    m + 1 failed starts, a starter error only if that is the last one
    observed; and it waits the strategy's delays for attempts 0, 1, 2, ... in
    that order. *)
Theorem restart_loop_bounded {B E : Type} `{!BackoffStrategy B}
    (o : RestartLoopOptions B) (ts : list (turn E))
    (Hmax : 0 < rlo_MaxRestarts o < 2 ^ 63 - 1)
    (Hts : rlo_MaxRestarts o < Z.of_nat (length ts)) :
  ∃ r evs, Run o ts = (Some r, evs) ∧
    Z.of_nat (length (omap ev_start evs)) ≤ rlo_MaxRestarts o + 1 ∧
    run_ended (rlo_Policy o) (rlo_MaxRestarts o) 0 None (omap ev_start evs) r ∧
    (length (omap ev_start evs) ≤ S (length (omap ev_delay evs)))%nat ∧
    omap ev_delay evs = delays_from (rlo_Backoff o) 0 (length (omap ev_delay evs)).
Proof.
  pose proof (run_turns_spec (rlo_Policy o) (rlo_MaxRestarts o) ts 0 None (rlo_Backoff o)) as H.
  unfold Run. destruct (run_turns _ _ _ ts) as [r evs].
  destruct H as (H1 & H2 & _ & H4 & H5); [lia..|].
  destruct r as [r|]; [|by destruct H2; [lia|lia|]].
  exists r, evs. destruct H5. split_and!; try done. lia.
Qed.

(** A strategy that doubles a number of nanoseconds. *)
Definition doubling : BackoffStrategy Z := λ b k, (b, b * 2 ^ k).

Lemma restart_loop_bounded_witness :
  let o := mkRLO RestartLoopOnFailure 2 5 in
  let t := mkTurn None (Some "boom"%string) None in
  (∃ r evs, Run (BackoffStrategy0 := doubling) o [t; t; t] = (Some r, evs) ∧
    Z.of_nat (length (omap ev_start evs)) ≤ 3 ∧
    run_ended RestartLoopOnFailure 2 0 None (omap ev_start evs) r ∧
    (length (omap ev_start evs) ≤ S (length (omap ev_delay evs)))%nat ∧
    omap ev_delay evs = delays_from (BackoffStrategy0 := doubling) 5 0 (length (omap ev_delay evs))) ∧
  Run (BackoffStrategy0 := doubling) o [t; t; t] =
    (Some RunExhausted, [EvStart (Some "boom"); EvDelay 5; EvStart (Some "boom"); EvDelay 10;
                         EvStart (Some "boom")]%string).
Proof.
  intros o t. split; [|reflexivity].
  apply (restart_loop_bounded (BackoffStrategy0 := doubling) o [t; t; t]); simpl; lia.
Defined.

(** The value a name has in the agent: the entries of the session, then of
    the runtime directory, then [ExtraEnv], then the agent's id, each before the
    environment of the host. *)
Definition agent_env (o : SpawnerOptions) (agentID : string) (opts : SpawnOpts) (environ : list string)
    (k : string) : option string :=
  if sp_Persistent opts && String.eqb k "CLIWRAP_SESSION_DIR" then Some (sp_SessionDir opts)
  else if sp_Persistent opts && String.eqb k "CLIWRAP_PERSISTENT" then Some "1"%string
  else if negb (String.eqb (so_RuntimeDir o) "") && String.eqb k "CLIWRAP_AGENT_RUNTIME" then Some (so_RuntimeDir o)
  else match getenv (so_ExtraEnv o) k with
  | Some v => Some v
  | None => if String.eqb k "CLIWRAP_AGENT_ID" then Some agentID else getenv environ k
  end.

Lemma getenv_app env env' k :
  getenv (env ++ env') k = match getenv env' k with Some v => Some v | None => getenv env k end.
Proof.
  unfold getenv. rewrite omap_app. destruct (omap (strip_prefix _) env') as [|x l] using rev_ind.
  - by rewrite app_nil_r.
  - by rewrite (assoc_L (++)), !last_snoc.
Qed.

Lemma strip_prefix_Some p s r : strip_prefix p s = Some r → s = (p ++ r)%string.
Proof.
  revert s. induction p as [|a p IH]; intros s; [by intros [= ->]|]. destruct s as [|b s]; [done|]. simpl.
  destruct (Ascii.eqb_spec a b) as [->|]; [|done]. intros ->%IH. done.
Qed.

(** An entry for a name without "=" answers for that name and no other. *)
Lemma getenv_one k k' v :
  "="%char ∉ chars k → "="%char ∉ chars k' →
  getenv [(k' ++ "=" ++ v)%string] k = if String.eqb k k' then Some v else None.
Proof.
  intros Hk Hk'. destruct (String.eqb_spec k k') as [->|Hne]; [apply (getenv_snoc [])|].
  unfold getenv. csimpl. destruct (strip_prefix _ _) as [r|] eqn:E; [|done]. exfalso.
  apply strip_prefix_Some, (f_equal chars) in E. rewrite !chars_app, <- (assoc_L (++)) in E.
  apply split_first in E as [E _]; [|done|done]. by apply (inj chars) in E.
Qed.

Lemma getenv_snoc_one env e k k' v :
  e = (k' ++ "=" ++ v)%string → "="%char ∉ chars k → "="%char ∉ chars k' →
  getenv (env ++ [e]) k = if String.eqb k k' then Some v else getenv env k.
Proof. intros -> Hk Hk'. rewrite getenv_app, getenv_one by done. by destruct (String.eqb k k'). Qed.

Lemma agent_cmd_env o agentID opts environ k :
  "="%char ∉ chars k → getenv (cmd_Env (agent_cmd o agentID opts environ)) k = agent_env o agentID opts environ k.
Proof.
  intros Hk. unfold agent_cmd, agent_env.
  pose proof (λ env e k' v He, getenv_snoc_one env e k k' v He Hk) as H1.
  assert (∀ env, getenv (env ++ (if String.eqb (so_RuntimeDir o) "" then []
             else ["CLIWRAP_AGENT_RUNTIME=" ++ so_RuntimeDir o]%string)) k =
           if negb (String.eqb (so_RuntimeDir o) "") && String.eqb k "CLIWRAP_AGENT_RUNTIME"
           then Some (so_RuntimeDir o) else getenv env k) as Hrt.
  { intros env. destruct (String.eqb (so_RuntimeDir o) ""); [by rewrite app_nil_r|].
    apply (H1 _ _ "CLIWRAP_AGENT_RUNTIME"%string); [done|by apply (bool_decide_unpack _)]. }
  assert (∀ env, getenv (env ++ ["CLIWRAP_AGENT_ID=" ++ agentID]%string) k =
           if String.eqb k "CLIWRAP_AGENT_ID" then Some agentID else getenv env k) as Hid.
  { intros env. apply (H1 _ _ "CLIWRAP_AGENT_ID"%string); [done|by apply (bool_decide_unpack _)]. }
  assert (∀ env r, environ ++ ["CLIWRAP_AGENT_ID=" ++ agentID]%string ++ env ++ r =
           ((environ ++ ["CLIWRAP_AGENT_ID=" ++ agentID]%string) ++ env) ++ r) as Happ
    by (intros; by rewrite !(assoc_L (++))).
  rewrite Happ. clear Happ. set (base := _ ++ so_ExtraEnv o).
  assert (getenv base k = match getenv (so_ExtraEnv o) k with Some v => Some v
    | None => if String.eqb k "CLIWRAP_AGENT_ID" then Some agentID else getenv environ k end) as <-
    by (unfold base; by rewrite getenv_app, Hid).
  destruct (sp_Persistent opts); cbn [cmd_Env andb]; [|by rewrite Hrt].
  rewrite (cons_middle "CLIWRAP_PERSISTENT=1"%string), (assoc_L (++)).
  rewrite (H1 _ _ "CLIWRAP_SESSION_DIR"%string (sp_SessionDir opts)); [|done|by apply (bool_decide_unpack _)].
  destruct (String.eqb k "CLIWRAP_SESSION_DIR"); [done|].
  rewrite (H1 _ _ "CLIWRAP_PERSISTENT"%string "1"%string); [|done|by apply (bool_decide_unpack _)].
  destruct (String.eqb k "CLIWRAP_PERSISTENT"); [done|]. apply Hrt.
Qed.

(** C26: spawning keeps the books.  Whatever the system answers, a failing
    [Spawn] leaves no descriptor open and no agent running unkilled.  A
    successful one leaves exactly the connection open in the host, and the
    agent running: its arguments are the program, with --persistent for a
    persistent agent; every variable has the value [agent_env] says (the
    agent's id, the runtime directory and the session directory among them);
    a persistent agent is in a session of its own with root as its directory
    and its output in agent.log.  Its descriptors are its end of the socket
    pair as file 3, the log, and both ends of the pair as inherited: the host's
    end leaks into the agent, since the pair is made without close-on-exec. *)
Theorem spawn_releases_descriptors (o : SpawnerOptions) (agentID : string) (opts : SpawnOpts)
    (a : os_answers) :
  match Spawn o agentID opts a with
  | (w, Err _) => w_open w = [] ∧ ∀ p, w_child w = Some p → pr_killed p = true
  | (w, Ok h) =>
      let pers := sp_Persistent opts in
      w_open w = [ConnFD] ∧ h_closed h = false ∧ so_AgentPath o ≠ ""%string ∧
      (pers = true → sp_SessionDir opts ≠ ""%string) ∧
      ∃ p, w_child w = Some p ∧ pr_killed p = false ∧ h_Process h = Some (pr_pid p) ∧ h_PID h = pr_pid p ∧
        cmd_ExtraFiles (pr_cmd p) = [AgentFD] ∧
        pr_fds p = [HostFD; AgentFD] ++ [AgentFD] ++ (if pers then [LogFD] else []) ∧
        cmd_Args (pr_cmd p) = so_AgentPath o :: (if pers then ["--persistent"%string] else []) ∧
        cmd_Setsid (pr_cmd p) = pers ∧ cmd_Dir (pr_cmd p) = (if pers then "/"%string else ""%string) ∧
        cmd_Output (pr_cmd p) = (if pers then Some LogFD else None) ∧
        ∀ k, "="%char ∉ chars k → getenv (cmd_Env (pr_cmd p)) k = agent_env o agentID opts (os_Environ a) k
  end.
Proof.
  pose proof (agent_cmd_env o agentID opts (os_Environ a)) as Henv. revert Henv.
  unfold Spawn. destruct (String.eqb_spec (so_AgentPath o) "") as [|Hp]; [done|].
  unfold spawn_start. set (c := agent_cmd o agentID opts (os_Environ a)). intros Henv.
  assert (cmd_ExtraFiles c = [AgentFD] ∧ cmd_Setsid c = sp_Persistent opts ∧
    cmd_Args c = so_AgentPath o :: (if sp_Persistent opts then ["--persistent"%string] else []) ∧
    cmd_Dir c = (if sp_Persistent opts then "/"%string else ""%string) ∧
    cmd_Output c = (if sp_Persistent opts then Some LogFD else None)) as (Hx & Hs & Ha & Hd & Ho).
  { unfold c, agent_cmd. by destruct (sp_Persistent opts). }
  clearbody c. destruct (sp_Persistent opts); simpl.
  - destruct (String.eqb_spec (sp_SessionDir opts) "") as [|Hdir]; [done|]. simpl.
    destruct (os_socketpair a), (os_mkdir a), (os_openlog a); try done; simpl.
    destruct (os_start a) as [pid|]; [|done]. destruct (os_fileconn a) as [[]|]; simpl;
      try (split; [done|]; by intros ? [= <-]).
    split_and!; try done. eexists. split; [done|]. simpl. rewrite Hx, Ho. by split_and!.
  - destruct (os_socketpair a); [|done]. simpl.
    destruct (os_start a) as [pid|]; [|done]. destruct (os_fileconn a) as [[]|]; simpl;
      try (split; [done|]; by intros ? [= <-]).
    split_and!; try done. eexists. split; [done|]. simpl. rewrite Hx, Ho. by split_and!.
Qed.
