(* ===== verification/Agent.v ===== *)
(** * The agent: internal/agent

    The dispatcher that serves the host's messages, the goroutine it starts
    per child, the runner that owns the child (pipes, PTY, exit status), the
    log chunk writer, capability reply, and the reattach handshake of a
    persistent agent.

    A run is a list of steps: a message handled, one step of a child's
    goroutine, a handler that waited for the goroutines returning.  What the
    kernel answers (PIDs, exit statuses, failed writes) and the text of its
    errors are arguments of the steps. *)

From S2P Require Import Prelude Text Frame Seq Outbox Wal Spiller Message Conn RingBuffer CwTypes PtySubs Controller.

(** ** Capabilities: capability.go *)

Definition FeaturePTY : string := "pty".
Definition FeaturePersistence : string := "persistence".
Definition FeatureFrameAck : string := "frame_ack".
Definition BuildCapabilityReply : CapabilityReply :=
  mkCapabilityReply [FeaturePTY; FeaturePersistence; FeatureFrameAck].

(** ** Exit statuses: the tail of [Runner.Run] and [runPTY] *)

(** What [cmd.Wait] returned: nil, an [ExitError] whose wait status says
    exited, signaled or neither, one without a wait status, another error. *)
Inductive wait_err :=
| WaitNil | WaitExit (status : Z) | WaitSignal (sig : Z) | WaitNeither | WaitNoStatus | WaitOther (text : string).

(** The exit code and signal, or the error of a failed wait. *)
Definition exit_status (w : wait_err) : result string (Z * Z) :=
  match w with
  | WaitNil | WaitNeither => Ok (0, 0)
  | WaitExit st => Ok (st, 0)
  | WaitSignal sig => Ok (128 + sig, sig)
  | WaitNoStatus => Ok (-1, 0)
  | WaitOther text => Err text
  end.

(** [flattenEnv]: the entries of the map follow the inherited ones, in the
    order [range] visits them. *)
Definition flattenEnv (environ : list string) (entries : list (string * string)) : list string :=
  environ ++ ((λ '(k, v), (k ++ "=" ++ v)%string) <$> entries).

(** ** State *)

(** The goroutine of a child: before [cmd.Start], with the child running on
    pipes, with the PTY registered ([seq]: its last data frame), after
    [Runner.Run] returned, after it reported, after [clearRunning], after
    [wg.Done], after the release of its drain token. *)
Inductive phase :=
| PhStart | PhRunning (pid : Z) | PhPty (pid seq : Z)
| PhReturned (pid : Z) (r : result string (Z * Z)) (at_ : Z)
| PhReported | PhCleared | PhDone | PhReleased.

Record runner_g := mkG { g_payload : StartChildPayload; g_cancelled : bool; g_phase : phase }.

Record PersistentMeta := mkMeta { pm_ID : string; pm_Spec : Spec; pm_AgentPID : Z; pm_StartedAt : Z }.

(** [d_cancelFn] names the goroutine whose context it cancels; [d_meta] is
    meta.json in the session directory ([None]: missing or unreadable);
    [d_activePTY], [d_sinks] (the sequence numbers of the two chunk writers;
    [None]: [io.Discard]) and [d_ring] are the runner's; [d_waiting] are the
    handlers blocked in [stopChild]. *)
Record Dispatcher := mkDisp {
  d_conn : Conn;
  d_persistent : bool;
  d_shutdownReq : option bool;
  d_sessionDir : string;
  d_meta : option PersistentMeta;
  d_cancelFn : option nat;
  d_runningPID : Z;
  d_wg : nat;
  d_activeRunners : nat;
  d_gs : list runner_g;
  d_activePTY : option nat;
  d_sinks : option (Z * Z);
  d_ring : option AgentRing.ringBuffer;
  d_waiting : list Header }.

Definition upd_conn (d : Dispatcher) (c : Conn) : Dispatcher :=
  mkDisp c (d_persistent d) (d_shutdownReq d) (d_sessionDir d) (d_meta d) (d_cancelFn d) (d_runningPID d)
    (d_wg d) (d_activeRunners d) (d_gs d) (d_activePTY d) (d_sinks d) (d_ring d) (d_waiting d).
Definition upd_persist (d : Dispatcher) (p : bool) (s : option bool) (dir : string) (m : option PersistentMeta)
    : Dispatcher :=
  mkDisp (d_conn d) p s dir m (d_cancelFn d) (d_runningPID d)
    (d_wg d) (d_activeRunners d) (d_gs d) (d_activePTY d) (d_sinks d) (d_ring d) (d_waiting d).
Definition upd_child (d : Dispatcher) (cf : option nat) (pid : Z) (wg act : nat) (gs : list runner_g)
    : Dispatcher :=
  mkDisp (d_conn d) (d_persistent d) (d_shutdownReq d) (d_sessionDir d) (d_meta d) cf pid
    wg act gs (d_activePTY d) (d_sinks d) (d_ring d) (d_waiting d).
Definition upd_runner (d : Dispatcher) (p : option nat) (s : option (Z * Z)) (r : option AgentRing.ringBuffer)
    : Dispatcher :=
  mkDisp (d_conn d) (d_persistent d) (d_shutdownReq d) (d_sessionDir d) (d_meta d) (d_cancelFn d) (d_runningPID d)
    (d_wg d) (d_activeRunners d) (d_gs d) p s r (d_waiting d).
Definition upd_waiting (d : Dispatcher) (w : list Header) : Dispatcher :=
  mkDisp (d_conn d) (d_persistent d) (d_shutdownReq d) (d_sessionDir d) (d_meta d) (d_cancelFn d) (d_runningPID d)
    (d_wg d) (d_activeRunners d) (d_gs d) (d_activePTY d) (d_sinks d) (d_ring d) w.

Definition set_phase (d : Dispatcher) (i : nat) (ph : phase) : Dispatcher :=
  upd_child d (d_cancelFn d) (d_runningPID d) (d_wg d) (d_activeRunners d)
    (alter (λ g, mkG (g_payload g) (g_cancelled g) ph) i (d_gs d)).

Definition NewDispatcher (c : Conn) : Dispatcher :=
  mkDisp c false None "" None None 0 0 0 [] None None None [].

Definition SetPersistentShutdown (d : Dispatcher) : Dispatcher :=
  upd_persist d true (Some false) (d_sessionDir d) (d_meta d).
(** [meta]: what meta.json under [dir] holds. *)
Definition SetPersistentSessionDir (d : Dispatcher) (dir : string) (meta : option PersistentMeta) : Dispatcher :=
  upd_persist d (d_persistent d) (d_shutdownReq d) dir meta.
Definition SetPersistentRingBuffer (d : Dispatcher) (rb : option AgentRing.ringBuffer) : Dispatcher :=
  upd_runner d (d_activePTY d) (d_sinks d) rb.

(** ** Outbound messages *)

Inductive agent_msg :=
| AHelloAck (p : HelloAckPayload) | AAck (p : AckPayload) | APong | AError (p : ChildErrorPayload)
| ACapReply (p : CapabilityReply) | AStarted (p : ChildStartedPayload) | AExited (p : ChildExitedPayload)
| ALog (p : LogChunkPayload) | APtyData (p : Message.PTYData).

(** What a run shows: a frame handed to the connection, input, size and
    signal given to the PTY, a child started, [cmd.Wait] returned for it, the
    shutdown channel closed, a handler returned. *)
Inductive agent_event :=
| DSent (m : agent_msg) | DPtyInput (b : bytes) | DPtySize (cols rows : Z) | DPtySignal (n : Z)
| DSpawned (pid : Z) | DWaited (pid : Z) | DShutdown | DHandled (h : Header).

Section Agent.
Context `{!Codec HelloAckPayload, !Codec AckPayload, !Codec ChildErrorPayload, !Codec CapabilityReply,
          !Codec ChildStartedPayload, !Codec ChildExitedPayload, !Codec LogChunkPayload,
          !Codec Message.PTYData, !Codec StartChildPayload, !Codec StopChildPayload, !Codec PTYWrite,
          !Codec PTYResize, !Codec PTYSignal} (err_text : codec_err → string).

(** The type and the encoded payload of a message. *)
Definition msg_frame (m : agent_msg) : Z * result codec_err bytes :=
  match m with
  | AHelloAck p => (MsgHelloAck, EncodePayload p)
  | AAck p => (MsgAckData, EncodePayload p)
  | APong => (MsgPong, Ok [])
  | AError p => (MsgChildError, EncodePayload p)
  | ACapReply p => (MsgTypeCapabilityReply, EncodePayload p)
  | AStarted p => (MsgChildStarted, EncodePayload p)
  | AExited p => (MsgChildExited, EncodePayload p)
  | ALog p => (MsgLogChunk, EncodePayload p)
  | APtyData p => (MsgTypePTYData, EncodePayload p)
  end.

(** [SendControl]; every caller leaves the result of the send unused. *)
Definition SendControl (s : enq_sched) (d : Dispatcher) (m : agent_msg) (ackRequired : bool)
    : Dispatcher * list agent_event :=
  match msg_frame m with
  | (_, Err _) => (d, [])
  | (t, Ok data) =>
      let '(c, _, _) := SendWithNewSeq s (d_conn d) t (if ackRequired then FlagAckRequired else 0) data in
      (upd_conn d c, [DSent m])
  end.

Definition child_error (phase text : string) : agent_msg := AError (mkChildError phase text true).

(** [AdoptConn] closes the connection it replaces. *)
Definition AdoptConn (d : Dispatcher) (newConn : Conn) (ctx_first fired pick : bool)
    : Dispatcher * option Conn :=
  (upd_conn d newConn, (λ '(c, _, _), c) <$> Conn.Close ctx_first fired pick (d_conn d)).

Definition requestPersistentShutdown (d : Dispatcher) : Dispatcher * list agent_event :=
  if negb (d_persistent d) then (d, [])
  else match d_shutdownReq d with
       | Some false => (upd_persist d (d_persistent d) (Some true) (d_sessionDir d) (d_meta d), [DShutdown])
       | _ => (d, [])
       end.

(** ** Log chunks: logchunk_writer.go *)

(** [chunkWriter.Write] on the writer of one stream (0 or 1). *)
Definition chunk_write (s : enq_sched) (d : Dispatcher) (stream : Z) (p : bytes)
    : Dispatcher * list agent_event :=
  match d_sinks d with
  | None => (d, [])
  | Some (o, e) =>
      if (length p =? 0)%nat then (d, [])
      else
        let next := u64 ((if stream =? 0 then o else e) + 1) in
        let d1 := upd_runner d (d_activePTY d) (Some (if stream =? 0 then (next, e) else (o, next))) (d_ring d) in
        SendControl s d1 (ALog (mkLogChunk stream next p)) false
  end.

Definition installLogSinks (d : Dispatcher) : Dispatcher :=
  upd_runner d (d_activePTY d) (Some (0, 0)) (d_ring d).

(** ** Starting and stopping the child *)

(** The spec [startChild] records in meta.json. *)
Definition meta_spec (sp : Spec) (p : StartChildPayload) : Spec :=
  mkSpec (spec_ID sp) (spec_Name sp) (sc_Command p) (sc_Args p) (sc_Env p) (sc_WorkDir p)
    (spec_Restart sp) (spec_MaxRestarts sp) (spec_RestartBackoff sp) (i64 (sc_StopTimeout p * 1000000))
    (spec_Stdin sp) (spec_Sandbox sp) (spec_Resources sp) (spec_LogOptions sp)
    match sc_PTY p with
    | Some c => Some (mkPTYConfig (scp_InitialCols c) (scp_InitialRows c) (scp_Echo c))
    | None => spec_PTY sp
    end (spec_Persistent sp) (spec_RingBufferSize sp).

(** The metadata update; [fail]: the write failed and left this. *)
Definition update_meta (fail : option (option PersistentMeta)) (d : Dispatcher) (p : StartChildPayload)
    : Dispatcher :=
  if d_persistent d && negb (String.eqb (d_sessionDir d) "") then
    match d_meta d with
    | Some m =>
        let m' := mkMeta (pm_ID m) (meta_spec (pm_Spec m) p) (pm_AgentPID m) (pm_StartedAt m) in
        upd_persist d (d_persistent d) (d_shutdownReq d) (d_sessionDir d) (default (Some m') fail)
    | None => d
    end
  else d.

Definition startChild (s : enq_sched) (fail : option (option PersistentMeta)) (d : Dispatcher)
    (p : StartChildPayload) : Dispatcher * list agent_event :=
  match d_cancelFn d with
  | Some _ => SendControl s d (child_error "start" "child already running") false
  | None =>
      let d1 := update_meta fail (installLogSinks d) p in
      (upd_child d1 (Some (length (d_gs d1))) (d_runningPID d1) (S (d_wg d1)) (S (d_activeRunners d1))
         (d_gs d1 ++ [mkG p false PhStart]), [])
  end.

(** [stopChild] up to [wg.Wait]: whether the handler has to wait. *)
Definition stopChild (d : Dispatcher) : Dispatcher * bool :=
  match d_cancelFn d with
  | None => (d, false)
  | Some i =>
      (upd_child d (d_cancelFn d) (d_runningPID d) (d_wg d) (d_activeRunners d)
         (alter (λ g, mkG (g_payload g) true (g_phase g)) i (d_gs d)), (0 <? d_wg d)%nat)
  end.

Definition clearRunning (d : Dispatcher) : Dispatcher :=
  upd_child d None 0 (d_wg d) (d_activeRunners d) (d_gs d).

(** ** Handling a message *)

Definition ack_required (h : Header) : bool := negb (Z.land (h_Flags h) FlagAckRequired =? 0).

(** The deferred acknowledgement, when the handler returns. *)
Definition finish (s : enq_sched) (d : Dispatcher) (h : Header) : Dispatcher * list agent_event :=
  if ack_required h
  then let '(d', evs) := SendControl s d (AAck (mkAck (h_SeqNo h))) false in (d', DHandled h :: evs)
  else (d, [DHandled h]).

(** A PTY operation on the active child: [ErrNoActivePTY], or the operation
    and the error it returned ([io]). *)
Definition active_pty_op (s : enq_sched) (d : Dispatcher) (phase : string) (io : option string) (ev : agent_event)
    : Dispatcher * list agent_event :=
  match d_activePTY d with
  | None => SendControl s d (child_error phase "agent: no active PTY child") false
  | Some _ =>
      match io with
      | Some text => SendControl s d (child_error phase text) false
      | None => (d, [ev])
      end
  end.

(** The switch of [Handle] for the messages whose handler never waits. *)
Definition handle_body (s : enq_sched) (nocap : bool) (fail : option (option PersistentMeta))
    (io : option string) (d : Dispatcher) (msg : OutboxMessage) : Dispatcher * list agent_event :=
  let t := h_MsgType (m_Header msg) in
  let body := m_Payload msg in
  if t =? MsgHello then SendControl s d (AHelloAck (mkHelloAck ProtocolVersion [])) false
  else if t =? MsgStartChild then
    match Unmarshal body (zero (A := StartChildPayload)) with
    | (_, Some e) => SendControl s d (child_error "decode" (err_text e)) false
    | (p, None) => startChild s fail d p
    end
  else if t =? MsgPing then SendControl s d APong false
  else if t =? MsgTypePTYWrite then
    match decode_new (A := PTYWrite) body with
    | (_, Some e) => SendControl s d (child_error "pty_write" (err_text e)) false
    | (w, None) => active_pty_op s d "pty_write" io (DPtyInput (pw_Bytes w))
    end
  else if t =? MsgTypePTYResize then
    match decode_new (A := PTYResize) body with
    | (_, Some e) => SendControl s d (child_error "pty_resize" (err_text e)) false
    | (rz, None) => active_pty_op s d "pty_resize" io (DPtySize (pr_Cols rz) (pr_Rows rz))
    end
  else if t =? MsgTypePTYSignal then
    match decode_new (A := PTYSignal) body with
    | (_, Some e) => SendControl s d (child_error "pty_signal" (err_text e)) false
    | (sg, None) => active_pty_op s d "pty_signal" io (DPtySignal (ps_Signum sg))
    end
  else if t =? MsgTypeCapabilityQuery then
    if nocap then (d, []) else SendControl s d (ACapReply BuildCapabilityReply) false
  else (d, []).

Definition is_stop (h : Header) : bool := (h_MsgType h =? MsgStopChild) || (h_MsgType h =? MsgShutdown).

(** [Handle]; a stop with a child running leaves the handler waiting. *)
Definition Handle (s : enq_sched) (nocap : bool) (fail : option (option PersistentMeta))
    (io : option string) (d : Dispatcher) (msg : OutboxMessage) : Dispatcher * list agent_event :=
  if is_stop (m_Header msg) then
    let '(d1, waits) := stopChild d in
    if waits then (upd_waiting d1 (d_waiting d1 ++ [m_Header msg]), [])
    else finish s d1 (m_Header msg)
  else
    let '(d1, e1) := handle_body s nocap fail io d msg in
    let '(d2, e2) := finish s d1 (m_Header msg) in (d2, e1 ++ e2).

(** A waiting handler returns once the goroutines are done. *)
Definition Handle_resume (s : enq_sched) (k : nat) (d : Dispatcher) : Dispatcher * list agent_event :=
  match d_wg d, d_waiting d !! k with
  | O, Some h => finish s (upd_waiting d (delete k (d_waiting d))) h
  | _, _ => (d, [])
  end.

(** [Drain]; [None] while neither case is ready. *)
Definition Drain (d : Dispatcher) (ctx_done pick_done : bool) : option bool :=
  match (d_activeRunners d =? 0)%nat, ctx_done with
  | true, true => Some pick_done
  | true, false => Some true
  | false, true => Some false
  | false, false => None
  end.

(** ** The goroutine of a child *)

(** [Runner.Run] failed before the child existed. *)
Definition run_fail (i : nat) (text : string) (now : Z) (d : Dispatcher) : Dispatcher * list agent_event :=
  match g_phase <$> d_gs d !! i with
  | Some PhStart => (set_phase d i (PhReturned 0 (Err text) now), [])
  | _ => (d, [])
  end.

(** [cmd.Start] succeeded: [OnStarted]. *)
Definition run_started (s : enq_sched) (i : nat) (pid now : Z) (d : Dispatcher)
    : Dispatcher * list agent_event :=
  match g_phase <$> d_gs d !! i with
  | Some PhStart =>
      let d1 := set_phase d i (PhRunning pid) in
      let d2 := upd_child d1 (d_cancelFn d1) pid (d_wg d1) (d_activeRunners d1) (d_gs d1) in
      let '(d3, evs) := SendControl s d2 (AStarted (mkChildStarted (i32 pid) now)) false in
      (d3, DSpawned pid :: evs)
  | _ => (d, [])
  end.

(** [runPTY] registers the PTY child. *)
Definition run_pty_register (i : nat) (d : Dispatcher) : Dispatcher * list agent_event :=
  match d_gs d !! i with
  | Some (mkG p _ (PhRunning pid)) =>
      match sc_PTY p with
      | Some _ => (upd_runner (set_phase d i (PhPty pid 0)) (Some i) (d_sinks d) (d_ring d), [])
      | None => (d, [])
      end
  | _ => (d, [])
  end.

(** The [OnData] callback of [runPTY]. *)
Definition on_data (s : enq_sched) (i : nat) (b : bytes) (d : Dispatcher) : Dispatcher * list agent_event :=
  match g_phase <$> d_gs d !! i with
  | Some (PhPty pid seq) =>
      let n := u64 (seq + 1) in
      let '(d1, e1) := SendControl s (set_phase d i (PhPty pid n)) (APtyData (Message.mkPTYData n b)) false in
      let '(d2, e2) := chunk_write s d1 0 b in
      (upd_runner d2 (d_activePTY d2) (d_sinks d2) ((λ r, AgentRing.Write r b) <$> d_ring d2), e1 ++ e2)
  | _ => (d, [])
  end.

(** One write of the two [io.Copy] goroutines of [Run]. *)
Definition pipe_data (s : enq_sched) (i : nat) (stderr : bool) (b : bytes) (d : Dispatcher)
    : Dispatcher * list agent_event :=
  match g_phase <$> d_gs d !! i with
  | Some (PhRunning _) => chunk_write s d (if stderr then 1 else 0) b
  | _ => (d, [])
  end.

(** [cmd.Wait] returned and the output pumps ended; [runPTY] then forgets the
    PTY child. *)
Definition run_wait (i : nat) (w : wait_err) (now : Z) (d : Dispatcher) : Dispatcher * list agent_event :=
  match d_gs d !! i with
  | Some (mkG p _ (PhRunning pid)) =>
      match sc_PTY p with
      | None => (set_phase d i (PhReturned pid (exit_status w) now), [DWaited pid])
      | Some _ => (d, [])
      end
  | Some (mkG p _ (PhPty pid _)) =>
      (upd_runner (set_phase d i (PhReturned pid (exit_status w) now)) None (d_sinks d) (d_ring d), [DWaited pid])
  | _ => (d, [])
  end.

(** The report to the host. *)
Definition run_report (s : enq_sched) (i : nat) (d : Dispatcher) : Dispatcher * list agent_event :=
  match g_phase <$> d_gs d !! i with
  | Some (PhReturned pid r at_) =>
      SendControl s (set_phase d i PhReported)
        match r with
        | Err text => AError (mkChildError "exec" text false)
        | Ok (code, sig) => AExited (mkChildExited (i32 pid) (i32 code) (i32 sig) at_ "exited")
        end false
  | _ => (d, [])
  end.

Definition run_clear (i : nat) (d : Dispatcher) : Dispatcher * list agent_event :=
  match g_phase <$> d_gs d !! i with
  | Some PhReported => requestPersistentShutdown (clearRunning (set_phase d i PhCleared))
  | _ => (d, [])
  end.

(** The deferred [wg.Done] and [release]. *)
Definition run_done (i : nat) (d : Dispatcher) : Dispatcher * list agent_event :=
  match g_phase <$> d_gs d !! i with
  | Some PhCleared =>
      let d1 := set_phase d i PhDone in
      (upd_child d1 (d_cancelFn d1) (d_runningPID d1) (pred (d_wg d1)) (d_activeRunners d1) (d_gs d1), [])
  | _ => (d, [])
  end.
Definition run_release (i : nat) (d : Dispatcher) : Dispatcher * list agent_event :=
  match g_phase <$> d_gs d !! i with
  | Some PhDone =>
      let d1 := set_phase d i PhReleased in
      (upd_child d1 (d_cancelFn d1) (d_runningPID d1) (d_wg d1) (pred (d_activeRunners d1)) (d_gs d1), [])
  | _ => (d, [])
  end.

(** ** Runs *)

Inductive agent_op :=
| AMsg (s : enq_sched) (nocap : bool) (fail : option (option PersistentMeta)) (io : option string)
    (msg : OutboxMessage)
| AResume (s : enq_sched) (k : nat)
| AAdopt (c : Conn)
| GFail (i : nat) (text : string) (now : Z)
| GStarted (s : enq_sched) (i : nat) (pid now : Z)
| GRegister (i : nat)
| GData (s : enq_sched) (i : nat) (b : bytes)
| GPipe (s : enq_sched) (i : nat) (stderr : bool) (b : bytes)
| GWait (i : nat) (w : wait_err) (now : Z)
| GReport (s : enq_sched) (i : nat)
| GClear (i : nat) | GDone (i : nat) | GRelease (i : nat).

Definition agent_step (d : Dispatcher) (op : agent_op) : Dispatcher * list agent_event :=
  match op with
  | AMsg s nocap fail io msg => Handle s nocap fail io d msg
  | AResume s k => Handle_resume s k d
  | AAdopt c => ((AdoptConn d c false false false).1, [])
  | GFail i text now => run_fail i text now d
  | GStarted s i pid now => run_started s i pid now d
  | GRegister i => run_pty_register i d
  | GData s i b => on_data s i b d
  | GPipe s i stderr b => pipe_data s i stderr b d
  | GWait i w now => run_wait i w now d
  | GReport s i => run_report s i d
  | GClear i => run_clear i d
  | GDone i => run_done i d
  | GRelease i => run_release i d
  end.

Definition spawned (e : agent_event) : option Z := match e with DSpawned pid => Some pid | _ => None end.
Definition waited (e : agent_event) : option Z := match e with DWaited pid => Some pid | _ => None end.
Definition handled (e : agent_event) : option Header := match e with DHandled h => Some h | _ => None end.
Definition acked (e : agent_event) : option Z :=
  match e with DSent (AAck p) => Some (ack_AckedSeq p) | _ => None end.
Definition shut (e : agent_event) : option () := match e with DShutdown => Some () | _ => None end.

(** The goroutines that own [cancelFn], whose [wg.Done] is pending, whose
    release is pending, and the children that run. *)
Definition owns (g : runner_g) : bool :=
  match g_phase g with PhCleared | PhDone | PhReleased => false | _ => true end.
Definition undone (g : runner_g) : bool :=
  match g_phase g with PhDone | PhReleased => false | _ => true end.
Definition unreleased (g : runner_g) : bool :=
  match g_phase g with PhReleased => false | _ => true end.
Definition child_of (g : runner_g) : option Z :=
  match g_phase g with PhRunning pid | PhPty pid _ => Some pid | _ => None end.

(** Every handled stop found all children waited for. *)
Definition stops_ok (evs : list agent_event) : Prop :=
  ∀ evs1 h evs2, evs = evs1 ++ DHandled h :: evs2 → is_stop h = true →
    omap spawned evs1 = omap waited evs1.

Definition count (P : runner_g → bool) (gs : list runner_g) : nat := length (filter (λ g, P g = true) gs).

(** At most one goroutine owns [cancelFn], and it is the one named. *)
Definition owner_ok (cf : option nat) (gs : list runner_g) : Prop :=
  ∀ i, cf = Some i ↔ ∃ g, gs !! i = Some g ∧ owns g = true.

Record agent_inv (d : Dispatcher) (evs : list agent_event) : Prop := mkAgentInv {
  ai_owner : owner_ok (d_cancelFn d) (d_gs d);
  ai_wg : d_wg d = count undone (d_gs d);
  ai_active : d_activeRunners d = count unreleased (d_gs d);
  ai_children : omap spawned evs = omap waited evs ++ omap child_of (d_gs d);
  ai_shut : omap shut evs = if decide (d_shutdownReq d = Some true) then [()] else [];
  ai_stops : stops_ok evs;
  ai_acks : omap acked evs = h_SeqNo <$> filter (λ h, ack_required h = true) (omap handled evs) }.

(** ** Lemmas *)

(** The invariant reads this much of the state, and these events. *)
Definition core (d : Dispatcher) :=
  (d_cancelFn d, d_wg d, d_activeRunners d, d_gs d, d_shutdownReq d).
Definition quiet (es : list agent_event) : Prop :=
  omap spawned es = [] ∧ omap waited es = [] ∧ omap handled es = [] ∧ omap acked es = [] ∧ omap shut es = [].

Lemma quiet_none : quiet [].
Proof. by split_and!. Qed.
Lemma quiet_app es es' : quiet es → quiet es' → quiet (es ++ es').
Proof. intros (A1 & A2 & A3 & A4 & A5) (B1 & B2 & B3 & B4 & B5).
  unfold quiet. rewrite !omap_app. rewrite A1, A2, A3, A4, A5, B1, B2, B3, B4, B5. by split_and!. Qed.

Lemma SendControl_core s d m a : core (SendControl s d m a).1 = core d.
Proof. unfold SendControl. destruct (msg_frame m) as [t []]; [|done]. by destruct (SendWithNewSeq _ _ _ _ _) as [[]]. Qed.

Lemma SendControl_quiet s d m a : (∀ p, m ≠ AAck p) → quiet (SendControl s d m a).2.
Proof.
  intros Hm. unfold SendControl. destruct (msg_frame m) as [t []]; [|apply quiet_none].
  destruct (SendWithNewSeq _ _ _ _ _) as [[]]. destruct m; try by split_and!. by destruct (Hm p).
Qed.

Lemma chunk_write_ok s d st p : core (chunk_write s d st p).1 = core d ∧ quiet (chunk_write s d st p).2.
Proof.
  unfold chunk_write. destruct (d_sinks d) as [[o e]|]; [|split; [done|apply quiet_none]].
  destruct (_ =? _)%nat; [split; [done|apply quiet_none]|].
  split; [by rewrite SendControl_core|by apply SendControl_quiet].
Qed.

Lemma stops_ok_snoc evs e :
  stops_ok evs → (∀ h, e = DHandled h → is_stop h = true → omap spawned evs = omap waited evs) →
  stops_ok (evs ++ [e]).
Proof.
  intros Hs He evs1 h evs2 Heq Hh. destruct evs2 as [|e2 evs2 _] using rev_ind.
  - apply app_inj_tail in Heq as [-> ->]. by apply (He h).
  - rewrite app_comm_cons, (assoc_L (++)) in Heq. apply app_inj_tail in Heq as [-> _]. by eapply Hs.
Qed.

Lemma stops_ok_quiet evs es : stops_ok evs → omap handled es = [] → stops_ok (evs ++ es).
Proof.
  intros Hs. induction es as [|e es IH] using rev_ind; [by rewrite app_nil_r|].
  rewrite omap_app. intros [H1 H2]%app_eq_nil. rewrite (assoc_L (++)).
  apply stops_ok_snoc; [by apply IH|]. by intros h ->.
Qed.

Lemma inv_core d d' evs es :
  agent_inv d evs → core d' = core d → quiet es → agent_inv d' (evs ++ es).
Proof.
  intros [H1 H2 H3 H4 H5 H6 H7] Hc (Q1 & Q2 & Q3 & Q4 & Q5). injection Hc as C1 C2 C3 C4 C5.
  split; rewrite ?omap_app, ?Q1, ?Q2, ?Q3, ?Q4, ?Q5, ?app_nil_r, ?C1, ?C2, ?C3, ?C4, ?C5; try done.
  by apply stops_ok_quiet.
Qed.

Lemma count_alter P f gs i g :
  gs !! i = Some g →
  (count P (alter f i gs) + (if P g then 1 else 0) = count P gs + (if P (f g) then 1 else 0))%nat.
Proof.
  revert i. induction gs as [|x gs IH]; intros [|i] Hi; simplify_eq/=.
  - unfold count. rewrite !filter_cons. destruct (P g), (P (f g)); simpl; lia.
  - specialize (IH i Hi). unfold count in *. rewrite !filter_cons.
    destruct (P x); simpl; lia.
Qed.

Lemma count_keep P f gs i g : gs !! i = Some g → P (f g) = P g → count P (alter f i gs) = count P gs.
Proof. intros Hi Hp. pose proof (count_alter P f gs i g Hi) as E. rewrite Hp in E. lia. Qed.

Lemma count_drop P f gs i g :
  gs !! i = Some g → P g = true → P (f g) = false → count P (alter f i gs) = pred (count P gs).
Proof. intros Hi Hp Hq. pose proof (count_alter P f gs i g Hi) as E. rewrite Hp, Hq in E. lia. Qed.

Lemma owner_alter cf f gs i g :
  owner_ok cf gs → gs !! i = Some g → owns (f g) = owns g → owner_ok cf (alter f i gs).
Proof.
  intros H Hi Ho j. rewrite (H j). destruct (decide (i = j)) as [->|Hne].
  - rewrite list_lookup_alter_eq, Hi. simpl. split; intros (x & [= <-] & Hx); eexists; (split; [done|congruence]).
  - by rewrite list_lookup_alter_ne.
Qed.

Lemma list_omap_none {A B} (f : A → option B) l : (∀ y, y ∈ l → f y = None) → omap f l = [].
Proof.
  induction l as [|x l IH]; intros H; [done|]. csimpl. rewrite (H x) by set_solver. apply IH. set_solver.
Qed.

Lemma omap_unique {A B} (f : A → option B) l i x :
  l !! i = Some x → (∀ j y, l !! j = Some y → j ≠ i → f y = None) → omap f l = option_list (f x).
Proof.
  intros Hi Hu. rewrite <- (take_drop_middle l i x Hi), omap_app. csimpl.
  assert (omap f (take i l) = [] ∧ omap f (drop (S i) l) = []) as [-> ->].
  { split; apply list_omap_none.
    - intros y [j Hj]%list_elem_of_lookup. pose proof (lookup_lt_Some _ _ _ Hj).
      rewrite length_take in *. rewrite lookup_take_lt in Hj by lia. apply (Hu j y Hj). lia.
    - intros y [j Hj]%list_elem_of_lookup. rewrite lookup_drop in Hj. apply (Hu _ y Hj). lia. }
  simpl. by destruct (f x).
Qed.

(** The children are the owner's. *)
Lemma children_owner cf gs :
  owner_ok cf gs → omap child_of gs = option_list (cf ≫= λ i, gs !! i ≫= child_of).
Proof.
  intros H. assert (∀ g, owns g = false → child_of g = None) as Hn.
  { intros [p c []]; done. }
  destruct cf as [i|]; simpl.
  - destruct (proj1 (H i) eq_refl) as (g & Hi & Hg). rewrite Hi. simpl.
    apply (omap_unique _ _ _ _ Hi). intros j y Hj Hne. apply Hn. destruct (owns y) eqn:E; [|done].
    assert (Some i = Some j) as [= ->] by (apply H; eauto). done.
  - apply list_omap_none. intros y [j Hj]%list_elem_of_lookup. apply Hn.
    destruct (owns y) eqn:E; [|done]. assert (None = Some j) by (apply H; eauto). done.
Qed.

Lemma children_keep cf f gs i g :
  owner_ok cf gs → gs !! i = Some g → owns (f g) = owns g → child_of (f g) = child_of g →
  omap child_of (alter f i gs) = omap child_of gs.
Proof.
  intros H Hi Ho Hc. rewrite (children_owner _ _ H), (children_owner cf) by (by eapply owner_alter).
  destruct cf as [j|]; [|done]. simpl. f_equal. destruct (decide (i = j)) as [->|Hne].
  - by rewrite list_lookup_alter_eq, Hi.
  - by rewrite list_lookup_alter_ne.
Qed.

Lemma no_children cf gs : owner_ok cf gs → cf = None ∨ count undone gs = O → omap child_of gs = [].
Proof.
  intros H [->|Hc]; [by rewrite (children_owner None)|].
  apply list_omap_none. intros g Hg. destruct (undone g) eqn:E.
  - assert (g ∈ filter (λ g, undone g = true) gs) as Hin by (by apply list_elem_of_filter).
    unfold count in Hc. destruct (filter _ gs); simplify_eq/=. by apply elem_of_nil in Hin.
  - by destruct g as [p c []].
Qed.

(** A goroutine moves to a phase that keeps its part of the books. *)
Lemma inv_phase d evs i g ph :
  agent_inv d evs → d_gs d !! i = Some g →
  let g' := mkG (g_payload g) (g_cancelled g) ph in
  owns g' = owns g → undone g' = undone g → unreleased g' = unreleased g → child_of g' = child_of g →
  agent_inv (set_phase d i ph) evs.
Proof.
  intros [H1 H2 H3 H4 H5 H6 H7] Hi g' Ho Hu Hr Hc.
  split; simpl; try done.
  - by eapply owner_alter.
  - by erewrite count_keep.
  - by erewrite count_keep.
  - by erewrite children_keep.
Qed.

Lemma finish_inv s d evs h :
  (∀ p : AckPayload, is_ok (EncodePayload p) = true) → agent_inv d evs →
  (is_stop h = true → omap spawned evs = omap waited evs) →
  agent_inv (finish s d h).1 (evs ++ (finish s d h).2).
Proof.
  intros Hok [H1 H2 H3 H4 H5 H6 H7] Hstop.
  assert (∃ d' es, finish s d h = (d', DHandled h :: es) ∧ core d' = core d ∧
    es = if ack_required h then [DSent (AAck (mkAck (h_SeqNo h)))] else []) as (d' & es & -> & Hc & ->).
  { unfold finish, SendControl, msg_frame. destruct (ack_required h); [|by eauto].
    specialize (Hok (mkAck (h_SeqNo h))). destruct (EncodePayload _); [|done].
    destruct (SendWithNewSeq _ _ _ _ _) as [[c b] e]. by eexists _, _. }
  injection Hc as C1 C2 C3 C4 C5. simpl.
  split; rewrite ?C1, ?C2, ?C3, ?C4, ?C5; try done.
  - rewrite !omap_app, H4. destruct (ack_required h); csimpl; by rewrite !app_nil_r.
  - rewrite omap_app, H5. destruct (ack_required h); csimpl; by rewrite app_nil_r.
  - rewrite cons_middle, (assoc_L (++)). apply stops_ok_quiet; [|by destruct (ack_required h)].
    apply stops_ok_snoc; [done|]. by intros h' [= <-].
  - rewrite !omap_app, H7. csimpl. destruct (ack_required h) eqn:E; csimpl;
      rewrite filter_app, fmap_app, filter_cons, E, filter_nil; by rewrite ?app_nil_r.
Qed.

Lemma requestPersistentShutdown_inv d evs :
  agent_inv d evs →
  agent_inv (requestPersistentShutdown d).1 (evs ++ (requestPersistentShutdown d).2).
Proof.
  intros H. unfold requestPersistentShutdown.
  destruct (d_persistent d); [|by apply (inv_core d); [|done|apply quiet_none]]. simpl.
  destruct (d_shutdownReq d) as [[]|] eqn:E; try by apply (inv_core d); [|done|apply quiet_none].
  destruct H as [H1 H2 H3 H4 H5 H6 H7]. simpl.
  split; rewrite ?omap_app; csimpl; rewrite ?app_nil_r; try done.
  - by rewrite H5, E.
  - by apply stops_ok_quiet.
Qed.

(** [stopChild] only cancels a context; when it need not wait, no child runs. *)
Lemma stopChild_inv d evs :
  agent_inv d evs →
  agent_inv (stopChild d).1 evs ∧ ((stopChild d).2 = false → omap spawned evs = omap waited evs).
Proof.
  intros H. unfold stopChild. destruct (d_cancelFn d) as [i|] eqn:Ei.
  - destruct H as [H1 H2 H3 H4 H5 H6 H7]. rewrite Ei in H1.
    destruct (proj1 (H1 i) eq_refl) as (g & Hi & Hg). simpl.
    split.
    + split; simpl; try done.
      * by eapply owner_alter.
      * by erewrite count_keep.
      * by erewrite count_keep.
      * by erewrite children_keep.
    + intros Hw%Nat.ltb_ge. rewrite H4, (no_children _ _ H1), app_nil_r; [done|right; lia].
  - split; [done|]. intros _. rewrite (ai_children _ _ H), (no_children _ _ (ai_owner _ _ H)), app_nil_r by auto.
    done.
Qed.

Lemma update_meta_core fail d p : core (update_meta fail d p) = core d.
Proof. unfold update_meta. destruct (_ && _); [|done]. by destruct (d_meta d). Qed.

Lemma startChild_inv s fail d evs p :
  agent_inv d evs →
  agent_inv (startChild s fail d p).1 (evs ++ (startChild s fail d p).2) ∧
  quiet (startChild s fail d p).2.
Proof.
  intros H. unfold startChild. destruct (d_cancelFn d) as [i|] eqn:Ei.
  { assert (quiet (SendControl s d (child_error "start" "child already running") false).2) as Hq
      by (by apply SendControl_quiet).
    split; [|done]. apply (inv_core d); [done|apply SendControl_core|done]. }
  split; [|apply quiet_none]. simpl. rewrite app_nil_r.
  pose proof (update_meta_core fail (installLogSinks d) p) as Hc.
  set (d1 := update_meta fail (installLogSinks d) p) in *. injection Hc as C1 C2 C3 C4 C5.
  destruct H as [H1 H2 H3 H4 H5 H6 H7]. rewrite Ei in H1.
  split; simpl; rewrite ?C2, ?C3, ?C4, ?C5; try done.
  - intros j. destruct (decide (j < length (d_gs d))%nat) as [Hlt|Hge].
    + rewrite lookup_app_l by done. rewrite <- (H1 j). split; [intros [= <-]; lia|done].
    + rewrite lookup_app_r by lia. split.
      * intros [= <-]. rewrite Nat.sub_diag. by eexists.
      * intros (g & Hg & _). apply lookup_lt_Some in Hg as Hl. simpl in Hl. f_equal. lia.
  - unfold count in *. rewrite filter_app, length_app, H2. simpl. lia.
  - unfold count in *. rewrite filter_app, length_app, H3. simpl. lia.
  - rewrite omap_app. csimpl. by rewrite app_nil_r.
Qed.

Lemma send_inv s d d0 evs m :
  agent_inv d evs → core d0 = core d → (∀ p, m ≠ AAck p) →
  agent_inv (SendControl s d0 m false).1 (evs ++ (SendControl s d0 m false).2) ∧
  quiet (SendControl s d0 m false).2.
Proof.
  intros H Hc Hm. split; [|by apply SendControl_quiet].
  apply (inv_core d); [done|by rewrite SendControl_core|by apply SendControl_quiet].
Qed.

Lemma active_pty_op_inv s d evs ph io ev :
  agent_inv d evs → quiet [ev] →
  agent_inv (active_pty_op s d ph io ev).1 (evs ++ (active_pty_op s d ph io ev).2) ∧ quiet (active_pty_op s d ph io ev).2.
Proof.
  intros H Hq. unfold active_pty_op. destruct (d_activePTY d); [|by apply (send_inv s d)].
  destruct io; [by apply (send_inv s d)|]. split; [by apply (inv_core d)|done].
Qed.

Lemma idle_inv d evs : agent_inv d evs → agent_inv d (evs ++ []) ∧ quiet [].
Proof. intros H. split; [by apply (inv_core d); [|done|apply quiet_none]|apply quiet_none]. Qed.

Lemma handle_body_inv s nocap fail io d evs msg :
  agent_inv d evs →
  agent_inv (handle_body s nocap fail io d msg).1 (evs ++ (handle_body s nocap fail io d msg).2) ∧
  quiet (handle_body s nocap fail io d msg).2.
Proof.
  intros H. unfold handle_body.
  repeat match goal with
  | |- context [if ?b then _ else _] => destruct b
  | |- context [Unmarshal ?x ?y] => destruct (Unmarshal x y) as [? []]
  | |- context [decode_new ?x] => destruct (decode_new x) as [? []]
  end; first [by apply (send_inv s d) | by apply startChild_inv | by apply active_pty_op_inv; [|split_and!]
             | by apply idle_inv].
Qed.

Lemma Handle_inv s nocap fail io d evs msg :
  (∀ p : AckPayload, is_ok (EncodePayload p) = true) → agent_inv d evs →
  agent_inv (Handle s nocap fail io d msg).1 (evs ++ (Handle s nocap fail io d msg).2).
Proof.
  intros Hok H. unfold Handle. destruct (is_stop (m_Header msg)) eqn:Es.
  - destruct (stopChild_inv d evs H) as [I1 I2]. destruct (stopChild d) as [d1 []].
    + by apply (inv_core d1); [| |apply quiet_none].
    + apply finish_inv; auto.
  - destruct (handle_body_inv s nocap fail io d evs msg H) as [I1 _].
    destruct (handle_body s nocap fail io d msg) as [d1 e1]. simpl in *.
    pose proof (finish_inv s d1 (evs ++ e1) (m_Header msg) Hok I1) as I.
    destruct (finish s d1 (m_Header msg)) as [d2 e2]. simpl in *. rewrite (assoc_L (++)). apply I. congruence.
Qed.

Lemma Handle_resume_inv s k d evs :
  (∀ p : AckPayload, is_ok (EncodePayload p) = true) → agent_inv d evs →
  agent_inv (Handle_resume s k d).1 (evs ++ (Handle_resume s k d).2).
Proof.
  intros Hok H. unfold Handle_resume. destruct (d_wg d) eqn:Ew; [|by apply idle_inv].
  destruct (d_waiting d !! k) as [h|]; [|by apply idle_inv].
  apply finish_inv; [done| |].
  - rewrite <- (app_nil_r evs). by apply (inv_core d); [| |apply quiet_none].
  - intros _. rewrite (ai_children _ _ H), (no_children _ _ (ai_owner _ _ H)), app_nil_r; [done|].
    right. rewrite <- (ai_wg _ _ H). done.
Qed.

(** The owner starts or loses its child. *)
Lemma inv_owner_move d evs es i g ph :
  agent_inv d evs → d_gs d !! i = Some g → owns g = true →
  let g' := mkG (g_payload g) (g_cancelled g) ph in
  owns g' = true → undone g' = undone g → unreleased g' = unreleased g →
  (∀ wt, (wt ++ option_list (child_of g)) ++ omap spawned es =
         (wt ++ omap waited es) ++ option_list (child_of g')) →
  omap handled es = [] → omap acked es = [] → omap shut es = [] →
  agent_inv (set_phase d i ph) (evs ++ es).
Proof.
  intros [H1 H2 H3 H4 H5 H6 H7] Hi Hown g' Ho Hu Hr Hc E1 E2 E3.
  set (f := λ g, mkG (g_payload g) (g_cancelled g) ph).
  assert (d_cancelFn d = Some i) as Hcf by (apply H1; eauto).
  assert (owner_ok (d_cancelFn d) (alter f i (d_gs d))) as HO.
  { eapply owner_alter; [done..|]. change (f g) with g'. congruence. }
  split; simpl; fold f; rewrite ?omap_app, ?E1, ?E2, ?E3, ?app_nil_r; try done.
  - by erewrite count_keep.
  - by erewrite count_keep.
  - rewrite H4, (children_owner _ _ H1), (children_owner _ _ HO), Hcf. simpl.
    rewrite list_lookup_alter_eq, Hi. simpl. change (f g) with g'. apply Hc.
  - by apply stops_ok_quiet.
Qed.

Lemma run_started_inv s i pid now d evs :
  agent_inv d evs → agent_inv (run_started s i pid now d).1 (evs ++ (run_started s i pid now d).2).
Proof.
  intros H. unfold run_started. destruct (d_gs d !! i) as [[p c []]|] eqn:Hi; simpl; try by apply idle_inv.
  pose proof (inv_owner_move d evs [DSpawned pid] i _ (PhRunning pid) H Hi) as I. simpl in I.
  assert (agent_inv (set_phase d i (PhRunning pid)) (evs ++ [DSpawned pid])) as I1.
  { apply I; try done; intros; by rewrite !app_nil_r. }
  destruct (send_inv s (set_phase d i (PhRunning pid))
    (upd_child (set_phase d i (PhRunning pid)) (d_cancelFn d) pid (d_wg d) (d_activeRunners d)
       (d_gs (set_phase d i (PhRunning pid)))) _ (AStarted (mkChildStarted (i32 pid) now)) I1) as [I2 _]; [done..|].
  rewrite <- (assoc_L (++)) in I2. revert I2. unfold set_phase. simpl.
  by destruct (SendControl _ _ _ _).
Qed.

Lemma run_wait_inv i w now d evs :
  agent_inv d evs → agent_inv (run_wait i w now d).1 (evs ++ (run_wait i w now d).2).
Proof.
  intros H. unfold run_wait.
  destruct (d_gs d !! i) as [[p c ph]|] eqn:Hi; simpl; [|by apply idle_inv].
  assert (∀ pid, child_of (mkG p c ph) = Some pid →
    agent_inv (set_phase d i (PhReturned pid (exit_status w) now)) (evs ++ [DWaited pid])) as I.
  { intros pid Hpid. destruct ph; try discriminate Hpid; injection Hpid as <-;
      (eapply (inv_owner_move d evs [DWaited _] i _ _ H Hi); try done; intros wt; simpl; by rewrite !app_nil_r). }
  destruct ph; try by apply idle_inv.
  - destruct (sc_PTY p); [by apply idle_inv|]. by apply I.
  - rewrite <- (app_nil_r (evs ++ _)). eapply inv_core; [by apply I|done|apply quiet_none].
Qed.

Lemma on_data_inv s i b d evs :
  agent_inv d evs → agent_inv (on_data s i b d).1 (evs ++ (on_data s i b d).2).
Proof.
  intros H. unfold on_data. destruct (d_gs d !! i) as [[p c []]|] eqn:Hi; simpl; try by apply idle_inv.
  set (n := u64 (seq + 1)). set (d0 := set_phase d i (PhPty pid n)).
  assert (agent_inv d0 evs) as I0 by (eapply inv_phase; try done; rewrite Hi; done).
  set (m := APtyData (Message.mkPTYData n b)).
  pose proof (SendControl_core s d0 m false) as C1.
  assert (quiet (SendControl s d0 m false).2) as Q1 by (by apply SendControl_quiet).
  destruct (SendControl s d0 m false) as [d1 e1]. simpl in *.
  destruct (chunk_write_ok s d1 0 b) as [C2 Q2]. destruct (chunk_write s d1 0 b) as [d2 e2]. simpl in *.
  apply (inv_core d0); [done| |by apply quiet_app]. rewrite <- C1, <- C2. done.
Qed.

Lemma run_report_inv s i d evs :
  agent_inv d evs → agent_inv (run_report s i d).1 (evs ++ (run_report s i d).2).
Proof.
  intros H. unfold run_report. destruct (d_gs d !! i) as [[p c []]|] eqn:Hi; simpl; try by apply idle_inv.
  assert (agent_inv (set_phase d i PhReported) evs) as I0 by (eapply inv_phase; done).
  apply (send_inv s (set_phase d i PhReported)); [done..|]. by destruct r as [[]|].
Qed.

Lemma run_clear_inv i d evs :
  agent_inv d evs → agent_inv (run_clear i d).1 (evs ++ (run_clear i d).2).
Proof.
  intros H. unfold run_clear. destruct (d_gs d !! i) as [[p c []]|] eqn:Hi; simpl; try by apply idle_inv.
  apply requestPersistentShutdown_inv. destruct H as [H1 H2 H3 H4 H5 H6 H7].
  set (f := λ g, mkG (g_payload g) (g_cancelled g) PhCleared).
  assert (d_cancelFn d = Some i) as Hcf by (apply H1; eauto).
  assert (owner_ok None (alter f i (d_gs d))) as HO.
  { intros j. split; [done|]. intros (g & Hg & Ho). destruct (decide (i = j)) as [->|Hne].
    - rewrite list_lookup_alter_eq, Hi in Hg. by simplify_eq/=.
    - rewrite list_lookup_alter_ne in Hg by done.
      assert (d_cancelFn d = Some j) by (apply H1; eauto). congruence. }
  split; simpl; fold f; try done.
  - by erewrite count_keep.
  - by erewrite count_keep.
  - rewrite H4, (children_owner _ _ H1), (children_owner _ _ HO), Hcf. simpl. by rewrite Hi.
Qed.

Lemma run_done_inv i d evs :
  agent_inv d evs → agent_inv (run_done i d).1 (evs ++ (run_done i d).2).
Proof.
  intros H. unfold run_done. destruct (d_gs d !! i) as [[p c []]|] eqn:Hi; simpl; try by apply idle_inv.
  rewrite app_nil_r. destruct H as [H1 H2 H3 H4 H5 H6 H7].
  split; simpl; try done.
  - by eapply owner_alter.
  - rewrite H2. by erewrite count_drop.
  - by erewrite count_keep.
  - by erewrite children_keep.
Qed.

Lemma run_release_inv i d evs :
  agent_inv d evs → agent_inv (run_release i d).1 (evs ++ (run_release i d).2).
Proof.
  intros H. unfold run_release. destruct (d_gs d !! i) as [[p c []]|] eqn:Hi; simpl; try by apply idle_inv.
  rewrite app_nil_r. destruct H as [H1 H2 H3 H4 H5 H6 H7].
  split; simpl; try done.
  - by eapply owner_alter.
  - by erewrite count_keep.
  - rewrite H3. by erewrite count_drop.
  - by erewrite children_keep.
Qed.

Lemma agent_step_inv d evs op :
  (∀ p : AckPayload, is_ok (EncodePayload p) = true) → agent_inv d evs →
  agent_inv (agent_step d op).1 (evs ++ (agent_step d op).2).
Proof.
  intros Hok H. destruct op; cbn [agent_step].
  - by apply Handle_inv.
  - by apply Handle_resume_inv.
  - by apply (inv_core d); [| |apply quiet_none].
  - unfold run_fail. destruct (d_gs d !! i) as [[p c []]|] eqn:Hi; simpl; try by apply idle_inv.
    rewrite app_nil_r. by eapply inv_phase.
  - by apply run_started_inv.
  - unfold run_pty_register. destruct (d_gs d !! i) as [[p c []]|] eqn:Hi; try by apply idle_inv.
    destruct (sc_PTY p); [|by apply idle_inv].
    eapply inv_core; [by eapply (inv_phase d evs i _ (PhPty pid 0) H Hi)|done|apply quiet_none].
  - by apply on_data_inv.
  - unfold pipe_data. destruct (d_gs d !! i) as [[p c []]|]; simpl; try by apply idle_inv.
    destruct (chunk_write_ok s d (if stderr then 1 else 0) b). by apply (inv_core d).
  - by apply run_wait_inv.
  - by apply run_report_inv.
  - by apply run_clear_inv.
  - by apply run_done_inv.
  - by apply run_release_inv.
Qed.

(** A fresh dispatcher, wired for persistence or not. *)
Lemma agent_inv_new d : core d = core (NewDispatcher (d_conn d)) ∨
                        core d = core (SetPersistentShutdown (NewDispatcher (d_conn d))) → agent_inv d [].
Proof.
  intros [Hc|Hc]; injection Hc as C1 C2 C3 C4 C5; split; rewrite ?C1, ?C2, ?C3, ?C4, ?C5; try done;
    try (intros i; split; [done|by intros (g & ? & _)]); intros [|? ?] ? ? ?; simplify_eq.
Qed.

(** A clean [Drain] finds every child waited for. *)
Lemma drained_children d evs : agent_inv d evs → ∀ timeout pick,
  Drain d timeout pick = Some true → omap spawned evs = omap waited evs.
Proof.
  intros [H1 _ H3 H4 _ _ _] timeout pick Hd. unfold Drain in Hd.
  destruct (Nat.eqb_spec (d_activeRunners d) 0) as [E|]; [|by destruct timeout].
  rewrite H4, (no_children _ _ H1), app_nil_r; [done|right].
  rewrite H3 in E. unfold count in *. clear -E. induction (d_gs d) as [|g gs IH]; [done|].
  rewrite filter_cons in E |- *. destruct g as [p c' []]; simpl in *; auto; lia.
Qed.

(** ** Properties of the dispatcher *)

(** C5: one child at a time, and a stop that returned means it is dead.  In
    every run of the agent (any messages, several connections, any
    interleaving of the children's goroutines): at most one goroutine owns a
    child that runs or is not yet reported; when the handler of a STOP_CHILD or
    SHUTDOWN returns, [cmd.Wait] has returned for every child ever started;
    every handled frame that asks for it is acknowledged exactly once, in
    handling order; a clean [Drain] finds every child waited for; and the
    shutdown channel is closed at most once. *)
Theorem stop_acked_after_child_waited (Hack : ∀ p : AckPayload, is_ok (EncodePayload p) = true)
    (c : Conn) (persistent : bool) (ops : list agent_op) :
  let d0 := if persistent then SetPersistentShutdown (NewDispatcher c) else NewDispatcher c in
  let '(d, evs) := run_trace agent_step d0 ops in
  (∀ i j g g', d_gs d !! i = Some g → d_gs d !! j = Some g' → owns g = true → owns g' = true → i = j) ∧
  stops_ok evs ∧
  omap acked evs = h_SeqNo <$> filter (λ h, ack_required h = true) (omap handled evs) ∧
  (Drain d false false = Some true → omap spawned evs = omap waited evs) ∧
  (length (omap shut evs) ≤ 1)%nat.
Proof.
  intros d0. assert (agent_inv d0 []) as H0 by (apply agent_inv_new; destruct persistent; auto).
  pose proof (run_trace_inv agent_step agent_inv (λ _, True)
    (λ d evs op H _, agent_step_inv d evs op Hack H) ops d0 [] H0 ltac:(by apply Forall_true)) as H.
  destruct (run_trace agent_step d0 ops) as [d evs]. destruct H as [H1 H2 H3 H4 H5 H6 H7].
  split_and!; try done.
  - intros i j g g' Hi Hj Ho Ho'.
    assert (d_cancelFn d = Some i) by (apply H1; eauto). assert (d_cancelFn d = Some j) by (apply H1; eauto).
    congruence.
  - intros Hd. simpl in H4. by apply (drained_children d evs (mkAgentInv d evs H1 H2 H3 H4 H5 H6 H7) false false).
  - simpl in H5. rewrite H5. destruct (decide _); simpl; lia.
Qed.
End Agent.

(** A codec that decodes to its target and encodes to nothing, for examples. *)
Definition echo_codec {A} : Codec A := {| Marshal _ := Ok []; Unmarshal _ t := (t, None) |}.

Module AgentExample.
#[local] Instance ex_codec {A} : Codec A := echo_codec.

(** Start a child, stop it with an acknowledgement request, let it exit. *)
Definition ex_ops : list agent_op :=
  [AMsg alone false None None (mkMsg (mkHeader MsgStartChild 0 1 0) []);
   GStarted alone 0 42 1000;
   AMsg alone false None None (mkMsg (mkHeader MsgStopChild FlagAckRequired 2 0) []);
   GWait 0 (WaitSignal 15) 2000; GReport alone 0; GClear 0; GDone 0; AResume alone 0; GRelease 0].

Definition ex_conn : result conn_err Conn :=
  NewConn (mkConnConfig (Some (mkReader [] EOF, mkWriter [] None)) None false 8 1024 true 0).

Lemma stop_acked_after_child_waited_witness :
  ∃ c, ex_conn = Ok c ∧
  (let '(d, evs) := run_trace (agent_step (λ _, ""%string)) (NewDispatcher c) ex_ops in
   (∀ i j g g', d_gs d !! i = Some g → d_gs d !! j = Some g' → owns g = true → owns g' = true → i = j) ∧
   stops_ok evs ∧
   omap acked evs = h_SeqNo <$> filter (λ h, ack_required h = true) (omap handled evs) ∧
   (Drain d false false = Some true → omap spawned evs = omap waited evs) ∧
   (length (omap shut evs) ≤ 1)%nat) ∧
  omap acked (run_trace (agent_step (λ _, ""%string)) (NewDispatcher c) ex_ops).2 = [2].
Proof.
  destruct ex_conn as [c|] eqn:E; [|vm_compute in E; discriminate E].
  exists c. split; [reflexivity|]. split; [|vm_compute in E; injection E as <-; vm_compute; reflexivity].
  exact (stop_acked_after_child_waited (λ _, ""%string) (λ p : AckPayload, @eq_refl bool true) c false ex_ops).
Defined.
End AgentExample.

(** ** Persistent sessions: persistent.go *)

Definition defaultRingBufferSize : Z := 256 * 1024.

(** The files of a session directory: meta.json, pid, sock and .attached. *)
Record session_files := mkFiles {
  sf_meta : option PersistentMeta; sf_pid : option Z; sf_sock : bool; sf_attached : bool }.

(** The session's files, whether the listener is open, the attach lock, and
    the scrollback. *)
Record persistentState := mkPersistent {
  pst_files : session_files; pst_listening : bool; pst_attached : bool; pst_ring : AgentRing.ringBuffer }.

Inductive init_err :=
| ErrSessionDirRequired | ErrMkdirSession | ErrRingSize | ErrWriteMeta | ErrWritePid | ErrListen | ErrChmod.

(** Whether each system call succeeds; a failed write of meta.json leaves
    [ia_meta]'s content. *)
Record init_answers := mkInit {
  ia_mkdir : bool; ia_meta : option (option PersistentMeta); ia_pid : bool; ia_listen : bool; ia_chmod : bool }.

Definition ring_size (ringBufferSize : Z) : Z :=
  if ringBufferSize =? 0 then defaultRingBufferSize else ringBufferSize.

(** The zero [time.Time], in nanoseconds since the epoch. *)
Definition zero_time : Z := - 62135596800 * 1000000000.

Definition initPersistent (dir agentID : string) (spec : Spec) (startedAt now pid : Z) (a : init_answers)
    (fs : session_files) : session_files * result init_err persistentState :=
  if String.eqb dir "" then (fs, Err ErrSessionDirRequired)
  else if negb (ia_mkdir a) then (fs, Err ErrMkdirSession)
  else match (if ring_size (spec_RingBufferSize spec) <=? 0 then None
              else AgentRing.newRingBuffer (ring_size (spec_RingBufferSize spec))) with
  | None => (fs, Err ErrRingSize)
  | Some ring =>
      let meta := mkMeta agentID spec pid (if startedAt =? zero_time then now else startedAt) in
      match ia_meta a with
      | Some content => (mkFiles content (sf_pid fs) (sf_sock fs) (sf_attached fs), Err ErrWriteMeta)
      | None =>
          if negb (ia_pid a) then (mkFiles (Some meta) None (sf_sock fs) (sf_attached fs), Err ErrWritePid)
          else if negb (ia_listen a) then (mkFiles (Some meta) (Some pid) false (sf_attached fs), Err ErrListen)
          else if negb (ia_chmod a) then (mkFiles (Some meta) (Some pid) false (sf_attached fs), Err ErrChmod)
          else let fs' := mkFiles (Some meta) (Some pid) true (sf_attached fs) in
               (fs', Ok (mkPersistent fs' true false ring))
      end
  end.

(** [persistentState.Close] keeps meta.json. *)
Definition Persistent_Close (p : persistentState) : persistentState :=
  mkPersistent (mkFiles (sf_meta (pst_files p)) None false false) false (pst_attached p) (pst_ring p).

(** One turn of [runAcceptLoop]: the new connection is attached, or told so
    and closed. *)
Definition rejection : bytes := (λ c, byte_of_Z (Z.of_N (N_of_ascii c))) <$>
  String.list_ascii_of_string ("ALREADY_ATTACHED" ++ String (ascii_of_N 10) "").

Definition accept_conn (p : persistentState) (w : Writer) : persistentState * Writer * bool :=
  if pst_attached p then (p, (Write w rejection).1.1, false)
  else let fs := pst_files p in
       (mkPersistent (mkFiles (sf_meta fs) (sf_pid fs) (sf_sock fs) true) (pst_listening p) true (pst_ring p), w, true).

Definition markDetached (p : persistentState) : persistentState :=
  let fs := pst_files p in
  mkPersistent (mkFiles (sf_meta fs) (sf_pid fs) (sf_sock fs) false) (pst_listening p) false (pst_ring p).

(** PTY output reaches the ring the state holds. *)
Definition ring_output (p : persistentState) (ps : list bytes) : persistentState :=
  mkPersistent (pst_files p) (pst_listening p) (pst_attached p) (foldl AgentRing.Write (pst_ring p) ps).

Inductive frame_send_err := SendEncode (e : codec_err) | SendIO (e : io_err).

Definition writeOneFrame {A} `{!Codec A} (w : Writer) (msgType : Z) (payload : A)
    : Writer * option frame_send_err :=
  match EncodePayload payload with
  | Err e => (w, Some (SendEncode e))
  | Ok body =>
      let hdr := mkHeader msgType 0 0 (u32 (Z.of_nat (length body))) in
      let buf := copy_at HeaderSize body (copy_at 0 (Encode hdr) (replicate (HeaderSize + length body) x00)) in
      let '(w', _, e) := Write w buf in (w', SendIO <$> e)
  end.

Definition writeReattachHandshake `{!Codec HelloPayload, !Codec PTYRingDumpPayload}
    (p : persistentState) (w : Writer) (agentID : string) (startedAt : Z) : Writer * option frame_send_err :=
  match writeOneFrame w MsgHello (mkHello ProtocolVersion agentID startedAt) with
  | (w1, Some e) => (w1, Some e)
  | (w1, None) => writeOneFrame w1 MsgTypePTYRingDump (mkPTYRingDump (AgentRing.Snapshot (pst_ring p)))
  end.

(** The buffer [writeOneFrame] fills is the frame. *)
Lemma copy_at_start {A} (src : list A) n x :
  copy_at 0 src (replicate (length src + n) x) = src ++ replicate n x.
Proof.
  unfold copy_at. rewrite length_replicate, take_0, (take_ge src), drop_replicate by lia. simpl.
  do 2 f_equal. lia.
Qed.
Lemma copy_at_end {A} (l src : list A) x :
  copy_at (length l) src (l ++ replicate (length src) x) = l ++ src.
Proof.
  unfold copy_at. rewrite length_app, length_replicate, take_app_length, (take_ge src) by lia.
  rewrite drop_ge by (rewrite length_app, length_replicate; lia). by rewrite app_nil_r.
Qed.
Lemma frame_buf hdr body :
  copy_at HeaderSize body (copy_at 0 (Encode hdr) (replicate (HeaderSize + length body) x00)) =
  Encode hdr ++ body.
Proof. rewrite <- (length_Encode hdr). by rewrite copy_at_start, copy_at_end. Qed.

Lemma writeOneFrame_ok {A} `{!Codec A} w t (p : A) body :
  w_room w = None → EncodePayload p = Ok body →
  writeOneFrame w t p =
    (mkWriter (w_out w ++ Encode (mkHeader t 0 0 (u32 (Z.of_nat (length body)))) ++ body) None, None).
Proof.
  intros Hr He. unfold writeOneFrame, Write. rewrite He, frame_buf, Hr. done.
Qed.

(** The host reads one such frame off the socket. *)
Lemma readOneFrame_frame r h body rest :
  header_wf h → h_Length h = Z.of_nat (length body) → r_bytes r = Encode h ++ body ++ rest →
  ∃ r', readOneFrame r =
    (r', if MaxPayloadSize <? h_Length h then Err (HsHeader ErrFrameTooLarge) else Ok (h, body)) ∧
    (h_Length h ≤ MaxPayloadSize → r_bytes r' = rest).
Proof.
  intros Hwf Hlen Hb. unfold readOneFrame.
  destruct (ReadFull_ok HeaderSize r) as (r1 & -> & Hr1 & _).
  { rewrite Hb, length_app, length_Encode. lia. }
  assert (take HeaderSize (r_bytes r) = Encode h) as ->.
  { rewrite Hb. apply take_app_length'. by rewrite length_Encode. }
  rewrite Decode_Encode_exact by done.
  destruct (Z.ltb_spec MaxPayloadSize (h_Length h)) as [Hgt|Hle].
  { exists r1. split; [done|lia]. }
  assert (r_bytes r1 = body ++ rest) as Hb1.
  { rewrite Hr1, Hb. apply drop_app_length'. by rewrite length_Encode. }
  rewrite Hlen, Nat2Z.id. destruct (ReadFull_ok (length body) r1) as (r2 & -> & Hr2 & _).
  { rewrite Hb1, length_app. lia. }
  exists r2. rewrite Hb1 in *. split; [by rewrite take_app_length|].
  intros _. by rewrite Hr2, drop_app_length.
Qed.

Section Handshake.
Context `{!Codec HelloPayload, !Codec PTYRingDumpPayload}
  (okH : HelloPayload → Prop) (okD : PTYRingDumpPayload → Prop)
  `{!CodecLaws HelloPayload okH, !CodecLaws PTYRingDumpPayload okD}.

Lemma read_handshake_frame {A} `{!Codec A, !Zero A} ok `{!CodecLaws A ok} t v body r rest :
  ok v → EncodePayload v = Ok body → in_u 8 t → Z.of_nat (length body) < 2 ^ 32 →
  r_bytes r = Encode (mkHeader t 0 0 (u32 (Z.of_nat (length body)))) ++ body ++ rest →
  ∃ r', read_handshake t r =
    (r', if MaxPayloadSize <? Z.of_nat (length body) then Err (HsHeader ErrFrameTooLarge) else Ok v) ∧
    (Z.of_nat (length body) ≤ MaxPayloadSize → r_bytes r' = rest).
Proof.
  intros Hv He Ht Hl Hb. set (h := mkHeader t 0 0 (u32 (Z.of_nat (length body)))) in *.
  assert (u32 (Z.of_nat (length body)) = Z.of_nat (length body)) as Hu by (apply wrap_u_small; split; lia).
  assert (header_wf h) as Hwf.
  { split_and!; cbn; [apply Ht|done|done|rewrite Hu; split; lia]. }
  destruct (readOneFrame_frame r h body rest Hwf Hu Hb) as (r' & Hr & Hrest).
  unfold read_handshake. rewrite Hr. exists r'. change (h_Length h) with (u32 (Z.of_nat (length body))) in *.
  rewrite Hu in *. split; [|done]. destruct (MaxPayloadSize <? _); [done|].
  change (h_MsgType h) with t. rewrite Z.eqb_refl. simpl. by rewrite (unmarshal_marshal v body Hv He).
Qed.

Lemma initPersistent_ring dir agentID spec startedAt now pid a fs fs' p :
  initPersistent dir agentID spec startedAt now pid a fs = (fs', Ok p) →
  AgentRing.newRingBuffer (ring_size (spec_RingBufferSize spec)) = Some (pst_ring p).
Proof.
  unfold initPersistent. intros H. repeat case_match; simplify_eq/=; done.
Qed.

(** What the host reads of a handshake on the wire. *)
Lemma handshake_read (p : persistentState) (agentID : string) (startedAt : Z) (r : Reader) (rest hb db : bytes) :
  let hello := mkHello ProtocolVersion agentID startedAt in
  let dump := mkPTYRingDump (AgentRing.Snapshot (pst_ring p)) in
  okH hello → okD dump → EncodePayload hello = Ok hb → EncodePayload dump = Ok db →
  Z.of_nat (length hb) ≤ MaxPayloadSize → Z.of_nat (length db) < 2 ^ 32 →
  r_bytes r = w_out (writeReattachHandshake p (mkWriter [] None) agentID startedAt).1 ++ rest →
  ∃ r1 r2, ReadHandshakeHello r = (r1, Ok hello) ∧
    ReadHandshakePTYRingDump r1 =
      (r2, if MaxPayloadSize <? Z.of_nat (length db) then Err (HsHeader ErrFrameTooLarge) else Ok dump) ∧
    (Z.of_nat (length db) ≤ MaxPayloadSize → r_bytes r2 = rest).
Proof.
  intros hello dump HokH HokD Hhb Hdb Hhl Hdl Hr.
  unfold writeReattachHandshake in Hr. fold hello in Hr. fold dump in Hr.
  rewrite (writeOneFrame_ok _ MsgHello hello hb) in Hr by done. cbn [w_out app] in Hr.
  rewrite (writeOneFrame_ok _ MsgTypePTYRingDump dump db) in Hr by done. cbn [w_out fst] in Hr.
  rewrite <- !(assoc_L (++)) in Hr.
  destruct (read_handshake_frame okH MsgHello hello hb r _ HokH Hhb ltac:(done)
    ltac:(unfold MaxPayloadSize in *; lia) Hr) as (r1 & H1 & Hb1).
  rewrite (proj2 (Z.ltb_ge _ _)) in H1 by done.
  destruct (read_handshake_frame okD MsgTypePTYRingDump dump db r1 rest HokD Hdb ltac:(done) Hdl (Hb1 Hhl))
    as (r2 & H2 & Hb2).
  by exists r1, r2.
Qed.

(** C10: reattaching shows the new host the session's recent output.  However
    the socket cuts the bytes, the host reads the agent's identity and start
    time and then exactly the last [RingBufferSize] bytes (256 KiB when unset)
    of all PTY output, and the stream is left at the first frame after the
    handshake.  A dump whose encoding exceeds the frame cap is refused by the
    host. *)
Theorem reattach_handshake_roundtrip (dir agentID : string) (spec : Spec) (startedAt now pid : Z)
    (a : init_answers) (fs fs' : session_files) (p : persistentState) (ps : list bytes)
    (r : Reader) (rest hb db : bytes) :
  let size := if spec_RingBufferSize spec =? 0 then 256 * 1024 else spec_RingBufferSize spec in
  let dump := mkPTYRingDump (last_n (Z.to_nat size) (concat ps)) in
  let hello := mkHello ProtocolVersion agentID startedAt in
  initPersistent dir agentID spec startedAt now pid a fs = (fs', Ok p) →
  okH hello → okD dump → EncodePayload hello = Ok hb → EncodePayload dump = Ok db →
  Z.of_nat (length hb) ≤ MaxPayloadSize → Z.of_nat (length db) < 2 ^ 32 →
  r_bytes r = w_out (writeReattachHandshake (ring_output p ps) (mkWriter [] None) agentID startedAt).1 ++ rest →
  ∃ r1 r2, ReadHandshakeHello r = (r1, Ok hello) ∧
    ReadHandshakePTYRingDump r1 =
      (r2, if MaxPayloadSize <? Z.of_nat (length db) then Err (HsHeader ErrFrameTooLarge) else Ok dump) ∧
    (Z.of_nat (length db) ≤ MaxPayloadSize → r_bytes r2 = rest).
Proof.
  intros size dump hello Hp HokH HokD Hhb Hdb Hhl Hdl Hr.
  assert (mkPTYRingDump (AgentRing.Snapshot (pst_ring (ring_output p ps))) = dump) as Hsnap.
  { unfold dump. f_equal. apply agent_ring_last. by apply initPersistent_ring in Hp. }
  rewrite <- Hsnap in *. by apply (handshake_read (ring_output p ps) agentID startedAt r rest hb db).
Qed.
End Handshake.

Module HandshakeExample.
Definition ex_hello : HelloPayload := mkHello ProtocolVersion "a" 7.
#[local] Instance hello_codec : Codec HelloPayload :=
  {| Marshal _ := Ok [x01]; Unmarshal _ _ := (ex_hello, None) |}.
#[local] Instance dump_codec : Codec PTYRingDumpPayload :=
  {| Marshal p := Ok (rd_Bytes p); Unmarshal bs _ := (mkPTYRingDump bs, None) |}.
#[local] Instance hello_laws : CodecLaws HelloPayload (λ h, h = ex_hello).
Proof. split; [by eauto|]. by intros ? ? ->. Defined.
#[local] Instance dump_laws : CodecLaws PTYRingDumpPayload (λ _, True).
Proof. split; [by eauto|]. intros [b] bs _. simpl. by intros [= <-]. Defined.

Definition ex_spec : Spec :=
  SpecBuilder.apply (SpecBuilder.apply (SpecBuilder.NewSpec "a" "sh" []) SpecBuilder.Persistent)
    (SpecBuilder.WithRingBufferSize 3).
Definition ex_output : list bytes := [[x61; x62]; [x63; x64]].

(** The handshake arrives in two pieces, followed by one more byte. *)
Lemma reattach_handshake_roundtrip_witness :
  ∃ fs p, initPersistent "/s" "a" ex_spec 7 9 42 (mkInit true None true true true) (mkFiles None None false false) =
    (fs, Ok p) ∧
  let wire := w_out (writeReattachHandshake (ring_output p ex_output) (mkWriter [] None) "a" 7).1 ++ [x7a] in
  let r := mkReader [take 20 wire; drop 20 wire] EOF in
  (∃ r1 r2, ReadHandshakeHello r = (r1, Ok ex_hello) ∧
    ReadHandshakePTYRingDump r1 =
      (r2, if MaxPayloadSize <? 3 then Err (HsHeader ErrFrameTooLarge)
           else Ok (mkPTYRingDump [x62; x63; x64])) ∧
    (3 ≤ MaxPayloadSize → r_bytes r2 = [x7a])).
Proof.
  eexists _, _. split; [reflexivity|]. intros wire r.
  eapply (reattach_handshake_roundtrip (λ h, h = ex_hello) (λ _, True) "/s" "a" ex_spec 7 9 42
    (mkInit true None true true true) (mkFiles None None false false) _ _ ex_output r [x7a] [x01] [x62; x63; x64]);
    first [reflexivity | exact I | vm_compute; discriminate].
Defined.
End HandshakeExample.
