(* ===== verification/Runner.v ===== *)
(** * The child of an agent: internal/agent/runner.go and runner_pty.go

    How a child on pipes is stopped (SIGTERM, a timeout, SIGKILL) while
    [cmd.Wait] runs, and the handle of a child on a pseudo-terminal: its
    descriptors, its read pump, signals to its process group.  The message
    handlers around them are in Agent. *)

From S2P Require Import Prelude Message CwTypes Agent.

(** ** What is run *)

Record RunSpec := mkRunSpec {
  rs_Command : string; rs_Args : list string; rs_Env : gmap string string; rs_WorkDir : string;
  rs_StopTimeout : Z; rs_PTY : option PTYConfig }.

Definition pty_config (p : StartChildPayload) : option PTYConfig :=
  match sc_PTY p with
  | Some c => Some (mkPTYConfig (scp_InitialCols c) (scp_InitialRows c) (scp_Echo c))
  | None => None
  end.

(** The spec [startChild] hands to the runner. *)
Definition run_spec (p : StartChildPayload) : RunSpec :=
  mkRunSpec (sc_Command p) (sc_Args p) (sc_Env p) (sc_WorkDir p) (i64 (sc_StopTimeout p * 1000000)) (pty_config p).

(** ** A child on pipes *)

(** In nanoseconds. *)
Definition defaultStopTimeout : Z := 2 * 1000000000.
Definition stop_timeout (t : Z) : Z := if t <=? 0 then defaultStopTimeout else t.

Inductive child_state := ChAlive | ChExited (w : wait_err) | ChReaped (w : wait_err).
(** The goroutine that escalates: in its first select, in its second one with
    the time the timer fires, or gone. *)
Inductive escalation := EscIdle | EscTermed (deadline : Z) | EscGone.
(** [Run] itself: in [cmd.Wait], receiving from [copyDone], returned. *)
Inductive run_phase := RunWaiting | RunCopying | RunReturned (r : result string (Z * Z)).

Record run_state := mkRun {
  rs_clock : Z; rs_ctx : bool; rs_child : child_state; rs_esc : escalation; rs_copies : nat; rs_phase : run_phase }.

(** A signal that reaches the process; [os.Process] refuses one for a process
    that has been waited for. *)
Inductive run_signal := SentTERM (at_ : Z) | SentKILL (at_ : Z).

(** After [cmd.Start], with the two copying goroutines. *)
Definition run_start (now : Z) (ctx : bool) : run_state := mkRun now ctx ChAlive EscIdle 2 RunWaiting.

Inductive run_op :=
| OpTick (dt : Z)          (** time passes *)
| OpCancel                 (** the context is cancelled *)
| OpChildExit (w : wait_err)
| OpEscCtx | OpEscTimer | OpEscStop
| OpWait | OpCopyDone | OpReturn.

Section Run.
(** [RunSpec.StopTimeout]. *)
Context (StopTimeout : Z).

(** [stopSignal] is closed when [cmd.Wait] has returned. *)
Definition stop_closed (s : run_state) : bool := match rs_phase s with RunWaiting => false | _ => true end.
Definition reachable_process (s : run_state) : bool := match rs_child s with ChReaped _ => false | _ => true end.

Definition run_step (s : run_state) (op : run_op) : run_state * list run_signal :=
  let '(mkRun clock ctx child esc copies phase) := s in
  match op with
  | OpTick dt => (mkRun (clock + Z.max 0 dt) ctx child esc copies phase, [])
  | OpCancel => (mkRun clock true child esc copies phase, [])
  | OpChildExit w =>
      match child with ChAlive => (mkRun clock ctx (ChExited w) esc copies phase, []) | _ => (s, []) end
  | OpEscCtx =>
      match esc with
      | EscIdle => if ctx then (mkRun clock ctx child (EscTermed (clock + stop_timeout StopTimeout)) copies phase,
                                if reachable_process s then [SentTERM clock] else [])
                   else (s, [])
      | _ => (s, [])
      end
  | OpEscTimer =>
      match esc with
      | EscTermed d =>
          if d <=? clock then
            (mkRun clock ctx (match child with ChAlive => ChExited (WaitSignal 9) | _ => child end) EscGone copies phase,
             if reachable_process s then [SentKILL clock] else [])
          else (s, [])
      | _ => (s, [])
      end
  | OpEscStop =>
      match esc with
      | EscGone => (s, [])
      | _ => if stop_closed s then (mkRun clock ctx child EscGone copies phase, []) else (s, [])
      end
  | OpWait =>
      match phase, child with
      | RunWaiting, ChExited w => (mkRun clock ctx (ChReaped w) esc copies RunCopying, [])
      | _, _ => (s, [])
      end
  | OpCopyDone => (mkRun clock ctx child esc (pred copies) phase, [])
  | OpReturn =>
      match phase, copies, child with
      | RunCopying, O, ChReaped w => (mkRun clock ctx child esc O (RunReturned (exit_status w)), [])
      | _, _, _ => (s, [])
      end
  end.

(** What the signals so far say about the escalating goroutine, and the child
    about [Run]. *)
Definition esc_inv (s : run_state) (sigs : list run_signal) : Prop :=
  match rs_esc s with
  | EscIdle => sigs = []
  | EscTermed d => rs_ctx s = true ∧ (sigs = [] ∨ ∃ t, sigs = [SentTERM t] ∧ d = t + stop_timeout StopTimeout ∧ t ≤ rs_clock s)
  | EscGone => rs_child s ≠ ChAlive ∧
      (sigs = [] ∨ rs_ctx s = true ∧ ∃ t, sigs = [SentTERM t] ∨
        ∃ t', sigs = [SentTERM t; SentKILL t'] ∧ t + stop_timeout StopTimeout ≤ t')
  end.
Definition phase_inv (s : run_state) : Prop :=
  match rs_phase s with
  | RunWaiting => ∀ w, rs_child s ≠ ChReaped w
  | RunCopying => ∃ w, rs_child s = ChReaped w
  | RunReturned r => rs_copies s = O ∧ ∃ w, rs_child s = ChReaped w ∧ r = exit_status w
  end.
(** Without a signal before the deadline the process was gone already. *)
Definition silent_inv (s : run_state) (sigs : list run_signal) : Prop :=
  ∀ d, rs_esc s = EscTermed d → sigs = [] → reachable_process s = false.
Definition run_inv (s : run_state) (sigs : list run_signal) : Prop :=
  esc_inv s sigs ∧ phase_inv s ∧ silent_inv s sigs.

Lemma run_step_inv s sigs op : run_inv s sigs → run_inv (run_step s op).1 (sigs ++ (run_step s op).2).
Proof.
  intros (He & Hp & Hs). destruct s as [clock ctx child esc copies phase].
  unfold run_inv, esc_inv, phase_inv, silent_inv, reachable_process, stop_closed in *.
  destruct op; simpl in *.
  - rewrite app_nil_r. destruct esc; split_and!; try done; naive_solver lia.
  - rewrite app_nil_r. destruct esc; split_and!; try done; naive_solver.
  - destruct child; rewrite app_nil_r; simpl; try done. destruct esc, phase; naive_solver.
  - destruct esc; rewrite ?app_nil_r; simpl; try done. destruct ctx; rewrite ?app_nil_r; simpl; try done. subst sigs.
    destruct child; simpl; split_and!; try done; naive_solver lia.
  - destruct esc as [|d|]; rewrite ?app_nil_r; simpl; try done.
    destruct (Z.leb_spec d clock); rewrite ?app_nil_r; simpl; try done.
    destruct He as [-> He]. assert (reachable_process (mkRun clock true child (EscTermed d) copies phase) = true → sigs ≠ []) as Hr.
    { intros Hr ->. specialize (Hs d eq_refl eq_refl). unfold reachable_process in Hr. simpl in Hr. congruence. }
    unfold reachable_process in Hr. simpl in Hr.
    split; [|split; [|intros ? [=]]].
    + destruct child; simpl; [| |rewrite app_nil_r]; split; try done; destruct He as [->|(t & -> & -> & ?)]; naive_solver lia.
    + destruct child, phase; naive_solver.
  - destruct esc; rewrite ?app_nil_r; simpl; try done; destruct phase; simpl; try done; destruct child; naive_solver.
  - destruct phase; rewrite ?app_nil_r; simpl; try done. destruct child; rewrite ?app_nil_r; simpl; try done.
    destruct esc; naive_solver.
  - rewrite app_nil_r. destruct esc, phase; naive_solver lia.
  - destruct phase, copies; rewrite ?app_nil_r; simpl; try done; destruct child; rewrite ?app_nil_r; simpl; try done;
      destruct esc; naive_solver.
Qed.

Lemma run_trace_run_inv now ctx ops :
  let '(s, sigs) := run_trace run_step (run_start now ctx) ops in run_inv s sigs.
Proof.
  pose proof (run_trace_inv run_step run_inv (λ _, True) (λ s sigs op H _, run_step_inv s sigs op H) ops
    (run_start now ctx) []) as H.
  destruct (run_trace run_step (run_start now ctx) ops) as [s sigs].
  apply H; [|by apply Forall_true]. by split_and!.
Qed.

(** What the scheduler alone can do to end a run: no help from the child. *)
Definition finish_ops : list run_op :=
  [OpEscCtx; OpTick (stop_timeout StopTimeout); OpEscTimer; OpWait; OpCopyDone; OpCopyDone; OpReturn].

Lemma stop_timeout_pos : 0 < stop_timeout StopTimeout.
Proof. unfold stop_timeout, defaultStopTimeout. destruct (Z.leb_spec StopTimeout 0); lia. Qed.

Lemma end_returns s :
  phase_inv s → rs_child s ≠ ChAlive → (rs_copies s ≤ 2)%nat →
  ∃ r, rs_phase (run_trace run_step s [OpWait; OpCopyDone; OpCopyDone; OpReturn]).1 = RunReturned r.
Proof.
  destruct s as [clock ctx child esc copies phase]. unfold phase_inv. intros Hp Hc Hcop. cbn [rs_phase rs_child rs_copies] in *.
  assert (copies = 0%nat ∨ copies = 1%nat ∨ copies = 2%nat) as Hcases by lia.
  destruct phase, child; simpl in *; try done; try naive_solver;
    destruct Hcases as [->|[->| ->]]; simpl; try (by eexists); naive_solver.
Qed.

Lemma escalate_ends s sigs :
  run_inv s sigs → rs_ctx s = true → (∀ d, rs_esc s = EscTermed d → d ≤ rs_clock s + stop_timeout StopTimeout) →
  let s' := (run_trace run_step s [OpEscCtx; OpTick (stop_timeout StopTimeout); OpEscTimer]).1 in
  phase_inv s' ∧ rs_child s' ≠ ChAlive ∧ rs_copies s' = rs_copies s.
Proof.
  pose proof stop_timeout_pos as Ht. destruct s as [clock ctx child esc copies phase].
  unfold run_inv, esc_inv, phase_inv. cbn [rs_ctx rs_esc rs_clock rs_child rs_phase rs_copies]. intros (He & Hp & _) -> Hd.
  destruct esc as [|d|]; cbn -[Z.add Z.leb Z.max].
  - assert (clock + stop_timeout StopTimeout <=? clock + Z.max 0 (stop_timeout StopTimeout) = true) as -> by lia.
    simpl. destruct child, phase; naive_solver.
  - specialize (Hd d eq_refl). assert (d <=? clock + Z.max 0 (stop_timeout StopTimeout) = true) as -> by lia.
    simpl. destruct child, phase; naive_solver.
  - destruct He as [He _]. destruct child, phase; naive_solver.
Qed.

(** The deadline is never further away than the timeout, and the copiers are two. *)
Definition bound_inv (s : run_state) : Prop :=
  (rs_copies s ≤ 2)%nat ∧ ∀ d, rs_esc s = EscTermed d → d ≤ rs_clock s + stop_timeout StopTimeout.
Lemma run_step_bound s op : bound_inv s → bound_inv (run_step s op).1.
Proof.
  pose proof stop_timeout_pos as Ht. destruct s as [clock ctx child esc copies phase]. unfold bound_inv. simpl.
  intros [Hc Hd]. destruct op; simpl; repeat case_match; simpl; split; try done; try lia;
    intros d' Hd'; simplify_eq; try specialize (Hd _ eq_refl); lia.
Qed.

(** C22: How [Run] ends a child on pipes.  In every interleaving of the
    context, the timer, the escalating goroutine, the child and the waiting
    goroutine: no signal is sent unless the context was cancelled; SIGTERM is
    sent at most once, and SIGKILL at most once, only after SIGTERM and not
    before the stop timeout has passed since; the returned status is that of
    the reaped child; and once the context is cancelled, seven steps of the
    scheduler end the run even if the child ignores SIGTERM. *)
Theorem stop_escalates_and_returns now ctx ops :
  let '(s, sigs) := run_trace run_step (run_start now ctx) ops in
  (sigs = [] ∨ rs_ctx s = true ∧ ∃ t, sigs = [SentTERM t] ∨
     ∃ t', sigs = [SentTERM t; SentKILL t'] ∧ t + stop_timeout StopTimeout ≤ t') ∧
  (∀ r, rs_phase s = RunReturned r → ∃ w, rs_child s = ChReaped w ∧ r = exit_status w) ∧
  (rs_ctx s = true → ∃ r, rs_phase (run_trace run_step s finish_ops).1 = RunReturned r).
Proof.
  pose proof (run_trace_run_inv now ctx ops) as Hi.
  pose proof (run_trace_state_inv run_step bound_inv (λ _, True) (λ s op H _, run_step_bound s op H) ops
    (run_start now ctx) ltac:(by split) ltac:(by apply Forall_true)) as Hb.
  destruct (run_trace run_step (run_start now ctx) ops) as [s sigs]. simpl in Hb. split_and!.
  - destruct Hi as [He _]. unfold esc_inv in He. destruct (rs_esc s); naive_solver.
  - intros r Hr. destruct Hi as (_ & Hp & _). unfold phase_inv in Hp. rewrite Hr in Hp. naive_solver.
  - intros Hctx. destruct (escalate_ends s sigs Hi Hctx (proj2 Hb)) as (H1 & H2 & H3).
    destruct (end_returns _ H1 H2) as [r Hr]; [rewrite H3; apply Hb|]. exists r. rewrite <- Hr.
    change finish_ops with ([OpEscCtx; OpTick (stop_timeout StopTimeout); OpEscTimer] ++
      [OpWait; OpCopyDone; OpCopyDone; OpReturn]). rewrite run_trace_app.
    destruct (run_trace run_step s [OpEscCtx; _; _]) as [s1 o1]. cbn [fst]. by destruct (run_trace run_step s1 [OpWait; OpCopyDone; OpCopyDone; OpReturn]).
Qed.
End Run.

(** A child that ignores SIGTERM is killed when the timeout has passed. *)
Example ignoring_child_killed :
  run_trace (run_step 0) (run_start 0 true) [OpEscCtx; OpTick 2000000000; OpEscTimer; OpWait; OpEscStop; OpCopyDone; OpCopyDone; OpReturn] =
  (mkRun 2000000000 true (ChReaped (WaitSignal 9)) EscGone 0 (RunReturned (Ok (137, 9))), [SentTERM 0; SentKILL 2000000000]).
Proof. reflexivity. Qed.

(** ** A child on a pseudo-terminal *)

Inductive pty_fd := FdPtmx | FdTty.
#[global] Instance pty_fd_dec : EqDecision pty_fd.
Proof. solve_decision. Defined.
Inductive pty_err := ErrOpenPTY | ErrWinsize | ErrStartPTY.

(** The open descriptors of the pair, the window size, the process group,
    [closeCh] and its [once], what the callback got, the pump. *)
Record ptyProc := mkPty {
  pp_fds : list pty_fd; pp_size : Z * Z; pp_pid : Z; pp_pgid : Z;
  pp_once : bool; pp_closes : nat; pp_onData : bool; pp_delivered : list bytes; pp_pump : bool }.

(** The answers of pty.Open, the size ioctl, [cmd.Start] and getpgid. *)
Record pty_answers := mkPtyAnswers { pa_open : bool; pa_size : bool; pa_start : option Z; pa_pgid : Z }.

Definition close_pty_fd (f : pty_fd) (l : list pty_fd) : list pty_fd := filter (λ g, g ≠ f) l.

(** The descriptors left open with the outcome.  [ApplyPTYDefaults] accepts a
    nil configuration, and only the window size reads it, after [pty.Open]:
    [None] is the panic of that nil dereference. *)
Definition spawnPTY (cfg : option PTYConfig) (a : pty_answers) : list pty_fd * option (result pty_err ptyProc) :=
  let cfg' := ApplyPTYDefaults cfg in
  if negb (pa_open a) then ([], Some (Err ErrOpenPTY))
  else
    let fds := [FdPtmx; FdTty] in
    match cfg' with
    | None => (fds, None)
    | Some c =>
        if negb (pa_size a) then (close_pty_fd FdTty (close_pty_fd FdPtmx fds), Some (Err ErrWinsize))
        else match pa_start a with
        | None => (close_pty_fd FdTty (close_pty_fd FdPtmx fds), Some (Err ErrStartPTY))
        | Some pid =>
            let fds' := close_pty_fd FdTty fds in
            (fds', Some (Ok (mkPty fds' (pty_InitialCols c, pty_InitialRows c) pid (pa_pgid a) false 0 false [] false)))
        end
    end.

(** [setWinsize], and [Winsize], which reads what it set. *)
Definition setWinsize (p : ptyProc) (cols rows : Z) (ok : bool) : ptyProc * bool :=
  if ok && bool_decide (FdPtmx ∈ pp_fds p)
  then (mkPty (pp_fds p) (cols, rows) (pp_pid p) (pp_pgid p) (pp_once p) (pp_closes p) (pp_onData p) (pp_delivered p) (pp_pump p), true)
  else (p, false).
Definition Pty_Resize := setWinsize.
Definition Winsize (p : ptyProc) : option (Z * Z) := if decide (FdPtmx ∈ pp_fds p) then Some (pp_size p) else None.

Definition OnData (p : ptyProc) : ptyProc :=
  mkPty (pp_fds p) (pp_size p) (pp_pid p) (pp_pgid p) (pp_once p) (pp_closes p) true (pp_delivered p) (pp_pump p).

(** [once.Do(close(closeCh))]. *)
Definition close_done (p : ptyProc) : ptyProc :=
  if pp_once p then p
  else mkPty (pp_fds p) (pp_size p) (pp_pid p) (pp_pgid p) true (S (pp_closes p)) (pp_onData p) (pp_delivered p) (pp_pump p).
Definition Done (p : ptyProc) : bool := (0 <? pp_closes p)%nat.

(** [Close]; false: the descriptor was closed already. *)
Definition Pty_Close (p : ptyProc) : ptyProc * bool :=
  let p1 := close_done p in
  (mkPty (close_pty_fd FdPtmx (pp_fds p1)) (pp_size p1) (pp_pid p1) (pp_pgid p1) (pp_once p1) (pp_closes p1)
     (pp_onData p1) (pp_delivered p1) (pp_pump p1), bool_decide (FdPtmx ∈ pp_fds p)).

(** Which process or group a signal goes to; [group_ok]: the group exists. *)
Inductive kill_target := ToGroup (pgid : Z) | ToProcess (pid : Z).
Definition Pty_Signal (p : ptyProc) (group_ok : bool) : list kill_target :=
  if 0 <? pp_pgid p then if group_ok then [ToGroup (pp_pgid p)] else [ToGroup (pp_pgid p); ToProcess (pp_pid p)]
  else [ToProcess (pp_pid p)].

Definition startReadPump (p : ptyProc) : ptyProc :=
  mkPty (pp_fds p) (pp_size p) (pp_pid p) (pp_pgid p) (pp_once p) (pp_closes p) (pp_onData p) (pp_delivered p) true.

Definition pump_buffer : nat := 32 * 1024.

(** One turn of the pump: a read of [b] with or without an error.  A read of a
    closed descriptor fails. *)
Definition pump_turn (p : ptyProc) (b : bytes) (err : bool) : ptyProc :=
  if negb (pp_pump p) then p
  else
    let b := if decide (FdPtmx ∈ pp_fds p) then take pump_buffer b else [] in
    let err := err || negb (bool_decide (FdPtmx ∈ pp_fds p)) in
    let p1 := match b with
              | [] => p
              | _ => if pp_onData p then
                       mkPty (pp_fds p) (pp_size p) (pp_pid p) (pp_pgid p) (pp_once p) (pp_closes p) true (pp_delivered p ++ [b]) true
                     else p
              end in
    if err then
      let p2 := close_done p1 in
      mkPty (pp_fds p2) (pp_size p2) (pp_pid p2) (pp_pgid p2) (pp_once p2) (pp_closes p2) (pp_onData p2) (pp_delivered p2) false
    else p1.

Inductive pty_op := PtyPump (b : bytes) (err : bool) | PtyClose | PtyResize (cols rows : Z) (ok : bool).
Definition pty_step (p : ptyProc) (op : pty_op) : ptyProc * list unit :=
  match op with
  | PtyPump b err => (pump_turn p b err, [])
  | PtyClose => ((Pty_Close p).1, [])
  | PtyResize cols rows ok => ((setWinsize p cols rows ok).1, [])
  end.

(** The output that arrives before the pump or the descriptor ends. *)
Fixpoint pumped (ops : list pty_op) : bytes :=
  match ops with
  | [] => []
  | PtyPump b true :: _ => take pump_buffer b
  | PtyPump b false :: ops' => take pump_buffer b ++ pumped ops'
  | PtyClose :: _ => []
  | PtyResize _ _ _ :: ops' => pumped ops'
  end.

Definition pump_live (p : ptyProc) : Prop := pp_pump p = true ∧ FdPtmx ∈ pp_fds p.

Lemma pump_dead p ops :
  (pp_pump p = false ∨ FdPtmx ∉ pp_fds p) → pp_delivered (run_trace pty_step p ops).1 = pp_delivered p.
Proof.
  revert p. induction ops as [|op ops IH]; intros p Hd; [done|]. cbn [run_trace].
  assert (pp_delivered (pty_step p op).1 = pp_delivered p ∧
    (pp_pump (pty_step p op).1 = false ∨ FdPtmx ∉ pp_fds (pty_step p op).1)) as [H1 H2].
  { destruct op; simpl.
    - unfold pump_turn. destruct (pp_pump p) eqn:Ep; simpl; [|naive_solver].
      destruct Hd as [|Hd]; [done|]. rewrite decide_False by done. rewrite bool_decide_false by done. rewrite orb_true_r. simpl.
      unfold close_done. by destruct (pp_once p); auto.
    - unfold close_done, close_pty_fd. destruct (pp_once p); simpl; (split; [done|right; rewrite list_elem_of_filter; naive_solver]).
    - unfold setWinsize. by destruct (ok && _). }
  destruct (pty_step p op) as [p1 o1]. simpl in *. specialize (IH p1 H2). destruct (run_trace pty_step p1 ops). simpl in *. congruence.
Qed.

Lemma pump_delivers p ops :
  pump_live p → pp_onData p = true →
  concat (pp_delivered (run_trace pty_step p ops).1) = concat (pp_delivered p) ++ pumped ops.
Proof.
  revert p. induction ops as [|op ops IH]; intros p [Hp Hf] Hon; [by rewrite app_nil_r|]. cbn [run_trace].
  destruct op as [b err| |c r ok].
  - cbn [pty_step]. unfold pump_turn. rewrite Hp. cbn [negb]. rewrite decide_True, bool_decide_true, orb_false_r, Hon by done.
    set (b' := take pump_buffer b). cbn [pumped]. fold b'.
    set (p1 := match b' with [] => p | _ => _ end).
    assert (concat (pp_delivered p1) = concat (pp_delivered p) ++ b' ∧ pp_pump p1 = true ∧ pp_fds p1 = pp_fds p ∧ pp_onData p1 = true)
      as (H1 & H2 & H3 & H4).
    { unfold p1. destruct b'; simpl; [by rewrite app_nil_r|]. split_and!; try done. by rewrite concat_app; simpl; rewrite app_nil_r. }
    destruct err.
    + match goal with |- context [run_trace pty_step ?q ops] => set (q' := q) end.
      assert (pp_delivered (run_trace pty_step q' ops).1 = pp_delivered p1) as Hq.
      { rewrite pump_dead; [|by left]. unfold q', close_done. by destruct (pp_once p1). }
      destruct (run_trace pty_step q' ops). simpl in *. by rewrite Hq.
    + specialize (IH p1). rewrite H1, <- app_assoc in IH. rewrite <- IH; [by destruct (run_trace pty_step p1 ops)| |done].
      split; [done|by rewrite H3].
  - cbn [pty_step pumped]. rewrite app_nil_r.
    assert (pp_delivered (run_trace pty_step (Pty_Close p).1 ops).1 = pp_delivered (Pty_Close p).1) as Hq.
    { apply pump_dead. right. unfold Pty_Close, close_pty_fd. simpl. rewrite list_elem_of_filter. naive_solver. }
    destruct (run_trace pty_step (Pty_Close p).1 ops). simpl in *. rewrite Hq. unfold close_done. by destruct (pp_once p).
  - cbn [pty_step pumped]. set (q := (setWinsize p c r ok).1).
    assert (pp_delivered q = pp_delivered p ∧ pp_pump q = true ∧ pp_fds q = pp_fds p ∧ pp_onData q = true) as (H1 & H2 & H3 & H4).
    { unfold q, setWinsize. by destruct (ok && _). }
    specialize (IH q). rewrite H1 in IH. rewrite <- IH; [by destruct (run_trace pty_step q ops)| |done].
    split; [done|by rewrite H3].
Qed.

Definition pty_inv (p : ptyProc) : Prop :=
  pp_closes p = (if pp_once p then 1 else 0)%nat ∧ (pp_pump p = false → pp_once p = true) ∧
  (FdPtmx ∉ pp_fds p → pp_once p = true) ∧ FdTty ∉ pp_fds p ∧
  Forall (λ b, (0 < length b ≤ pump_buffer)%nat) (pp_delivered p).

Lemma close_done_inv p : pty_inv p → pty_inv (close_done p) ∧ pp_once (close_done p) = true.
Proof. unfold pty_inv, close_done. intros (H1 & H2 & H3 & H4 & H5). destruct (pp_once p) eqn:E; simpl; rewrite ?E, ?H1; split_and!; auto. Qed.

Lemma pty_step_inv p op : pty_inv p → pty_inv (pty_step p op).1.
Proof.
  intros Hi. destruct op as [b err| |c r ok]; simpl.
  - unfold pump_turn. destruct (pp_pump p) eqn:Ep; simpl; [|done].
    set (b' := if decide _ then _ else _). set (p1 := match b' with [] => p | _ => _ end).
    assert (pty_inv p1) as H1.
    { unfold p1. destruct b' as [|x l] eqn:Eb; [done|]. destruct (pp_onData p); [|done].
      destruct Hi as (I1 & I2 & I3 & I4 & I5). split_and!; simpl; try done.
      apply Forall_app. split; [done|]. constructor; [|done]. rewrite <- Eb. split; [rewrite Eb; simpl; lia|].
      unfold b'. case_decide; [rewrite length_take; lia|simpl; lia]. }
    destruct (err || _); [|done]. destruct (close_done_inv p1 H1) as ((I1 & I2 & I3 & I4 & I5) & I6).
    split_and!; simpl; auto.
  - destruct (close_done_inv p Hi) as ((I1 & I2 & I3 & I4 & I5) & I6). unfold close_pty_fd. split_and!; simpl; auto.
    rewrite list_elem_of_filter. naive_solver.
  - unfold setWinsize. destruct (ok && _); [|done]. exact Hi.
Qed.

(** C39: A child on a pseudo-terminal.  A failed spawn leaves no descriptor
    open and a successful one only the master, with the defaults applied to the
    window size.  Then, whatever pump reads, resizes and calls of [Close]
    follow: everything read before the end arrives at the callback in order, in
    pieces that fit the buffer; the channel of [Done] is closed at most once,
    and it is closed when the pump has ended or [Close] was called.  Only a nil
    configuration panics, with the pair open; [Run] takes this path with a
    configuration. *)
Theorem pty_child_delivers_and_closes_once cfg a ops :
  match spawnPTY cfg a with
  | (fds, None) => cfg = None ∧ fds = [FdPtmx; FdTty]
  | (fds, Some (Err _)) => fds = []
  | (fds, Some (Ok p)) =>
      fds = [FdPtmx] ∧ Winsize p = (λ c, (pty_InitialCols c, pty_InitialRows c)) <$> ApplyPTYDefaults cfg ∧
      let p' := (run_trace pty_step (startReadPump (OnData p)) ops).1 in
      concat (pp_delivered p') = pumped ops ∧
      Forall (λ b, (0 < length b ≤ pump_buffer)%nat) (pp_delivered p') ∧
      (pp_closes p' ≤ 1)%nat ∧ (pp_pump p' = false ∨ FdPtmx ∉ pp_fds p' → Done p' = true)
  end.
Proof.
  unfold spawnPTY. destruct (pa_open a); simpl; [|done].
  destruct cfg as [c0|]; [|done]. cbn [ApplyPTYDefaults]. set (c := mkPTYConfig _ _ _). destruct (pa_size a); simpl; [|done]. destruct (pa_start a) as [pid|]; simpl; [|done].
  split; [done|]. split; [done|].
  match goal with |- context [run_trace pty_step ?q ops] => set (p := q) end.
  assert (pty_inv p) as H0 by (split_and!; simpl; try done; set_solver).
  pose proof (run_trace_state_inv pty_step pty_inv (λ _, True) (λ s op H _, pty_step_inv s op H) ops p H0
    ltac:(by apply Forall_true)) as (I1 & I2 & I3 & _ & I5).
  pose proof (pump_delivers p ops) as Hd. set (p' := (run_trace pty_step p ops).1) in *. split_and!.
  - apply Hd; [split; [done|set_solver]|done].
  - done.
  - rewrite I1. destruct (pp_once p'); lia.
  - intros Hend. unfold Done. rewrite I1. assert (pp_once p' = true) as -> by (destruct Hend; auto). done.
Qed.
