(* ===== verification/Config.v ===== *)
(** * Configuration files: pkg/config

    Byte sizes, environment expansion, durations, and the conversion of a
    parsed file into process specifications with its validation.  The YAML
    parser is third-party code and an argument of [Load]. *)

From Stdlib Require Import Floats.SpecFloat.
From S2P Require Import Prelude Text CwTypes.

(** ** Trimming: [strings.TrimSpace]

    The UTF-8 encodings of the runes [unicode.IsSpace] accepts. *)

Definition ch (n : N) : ascii := ascii_of_N n.
Definition space_tokens : list (list ascii) :=
  [[ch 9]; [ch 10]; [ch 11]; [ch 12]; [ch 13]; [ch 32]; [ch 194; ch 133]; [ch 194; ch 160];
   [ch 225; ch 154; ch 128]]
  ++ ((λ n, [ch 226; ch 128; ch n]) <$> [128; 129; 130; 131; 132; 133; 134; 135; 136; 137; 138; 168; 169; 175]%N)
  ++ [[ch 226; ch 129; ch 159]; [ch 227; ch 128; ch 128]].

(** Removes a prefix. *)
Fixpoint strip (p l : list ascii) : option (list ascii) :=
  match p, l with
  | [], _ => Some l
  | a :: p', b :: l' => if Ascii.eqb a b then strip p' l' else None
  | _ :: _, [] => None
  end.

Fixpoint strip_any (toks : list (list ascii)) (l : list ascii) : option (list ascii) :=
  match toks with
  | [] => None
  | t :: toks' => match strip t l with Some r => Some r | None => strip_any toks' l end
  end.

Fixpoint trim_left (toks : list (list ascii)) (fuel : nat) (l : list ascii) : list ascii :=
  match fuel with
  | O => l
  | S fuel' => match strip_any toks l with Some r => trim_left toks fuel' r | None => l end
  end.

Definition TrimLeft (l : list ascii) : list ascii := trim_left space_tokens (length l) l.
Definition TrimRight (l : list ascii) : list ascii :=
  reverse (trim_left (reverse <$> space_tokens) (length l) (reverse l)).
Definition TrimSpace (l : list ascii) : list ascii := TrimRight (TrimLeft l).

(** ** Byte sizes: size.go *)

Definition digit_val (c : ascii) : Z := Z.of_N (N_of_ascii c) - 48.

Fixpoint span_digits (l : list ascii) : list ascii * list ascii :=
  match l with
  | c :: l' => if is_digit c then let '(d, r) := span_digits l' in (c :: d, r) else ([], l)
  | [] => ([], [])
  end.

Definition dec_val (ds : list ascii) : Z := foldl (λ n c, n * 10 + digit_val c) 0 ds.

(** [strconv.ParseUint(s, 10, 64)] on digits. *)
Definition ParseUint (ds : list ascii) : option Z :=
  if dec_val ds <? 2 ^ 64 then Some (dec_val ds) else None.

Inductive config_err :=
| ErrEmptyByteSize | ErrInvalidByteSize | ErrNumber | ErrUnknownSuffix
| ErrUnterminated (at_ : nat) | ErrEnvNotSet (name : string)
| ErrYaml | ErrRestartPolicy | ErrRestartBackoff | ErrStopTimeout | ErrStdinMode | ErrOnExceed
| ErrProcess (group process : nat) (e : SpecValidationError) | ErrDuplicateID (id : string).

Definition byteMultiplier (suffix : string) : option Z :=
  let case := String.eqb suffix in
  if case "" || case "B" then Some 1
  else if case "KB" then Some 1000
  else if case "MB" then Some 1000000
  else if case "GB" then Some 1000000000
  else if case "TB" then Some 1000000000000
  else if case "KiB" then Some 1024
  else if case "MiB" then Some (1024 * 1024)
  else if case "GiB" then Some (1024 * 1024 * 1024)
  else if case "TiB" then Some (1024 * 1024 * 1024 * 1024)
  else None.

Definition ParseByteSize (s : string) : result config_err Z :=
  match TrimSpace (chars s) with
  | [] => Err ErrEmptyByteSize
  | trimmed =>
      let '(numPart, rest) := span_digits trimmed in
      match numPart with
      | [] => Err ErrInvalidByteSize
      | _ =>
          match ParseUint numPart with
          | None => Err ErrNumber
          | Some n =>
              match byteMultiplier (of_chars (TrimSpace rest)) with
              | None => Err ErrUnknownSuffix
              | Some mult => Ok (u64 (n * mult))
              end
          end
      end
  end.

(** ** Environment references: env.go *)

Definition dollar : ascii := "$"%char.

(** The text before and after the first occurrence of a byte. *)
Fixpoint cut_at (c : ascii) (l : list ascii) : option (list ascii * list ascii) :=
  match l with
  | [] => None
  | x :: l' => if Ascii.eqb x c then Some ([], l')
               else match cut_at c l' with Some (a, b) => Some (x :: a, b) | None => None end
  end.

(** The text before and after the first [:-]. *)
Fixpoint cut_default (l : list ascii) : option (list ascii * list ascii) :=
  match l with
  | [] => None
  | x :: l' =>
      match strip [":"; "-"]%char l with
      | Some r => Some ([], r)
      | None => match cut_default l' with Some (a, b) => Some (x :: a, b) | None => None end
      end
  end.

Section Env.
Context (lookup_env : string → option string).

Definition resolveEnv (expr : list ascii) : result config_err (list ascii) :=
  match cut_default expr with
  | Some (name, def) =>
      match lookup_env (of_chars name) with Some v => Ok (chars v) | None => Ok def end
  | None =>
      match lookup_env (of_chars expr) with Some v => Ok (chars v) | None => Err (ErrEnvNotSet (of_chars expr)) end
  end.

(** The loop of [ExpandEnv] at index [i]; one step per byte suffices. *)
Fixpoint expand (fuel i : nat) (l : list ascii) : result config_err (list ascii) :=
  match fuel, l with
  | O, _ | _, [] => Ok []
  | S fuel', c :: l1 =>
      match (if Ascii.eqb c dollar then l1 else []) with
      | "$"%char :: l2 => let! out := expand fuel' (i + 2) l2 in Ok (dollar :: out)
      | "{"%char :: l2 =>
          match cut_at "}"%char l2 with
          | None => Err (ErrUnterminated i)
          | Some (expr, l3) =>
              let! val := resolveEnv expr in
              let! out := expand fuel' (i + 2 + length expr + 1) l3 in Ok (val ++ out)
          end
      | _ => let! out := expand fuel' (i + 1) l1 in Ok (c :: out)
      end
  end.

Definition ExpandEnv (s : string) : result config_err string :=
  let! out := expand (length (chars s)) 0 (chars s) in Ok (of_chars out).
End Env.

(** ** Durations: [time.ParseDuration]

    Go's integers are kept at 64 bits; the fraction is scaled in binary64. *)

Definition f64_of_Z (n : Z) : spec_float := binary_normalize 53 1024 n 0 false.
Definition f64_mul : spec_float → spec_float → spec_float := SFmul 53 1024.
Definition f64_div : spec_float → spec_float → spec_float := SFdiv 53 1024.
(** Truncation of a finite value. *)
Definition f64_to_Z (f : spec_float) : Z :=
  match f with
  | S754_finite s m e =>
      let v := if 0 <=? e then Z.pos m * 2 ^ e else Z.quot (Z.pos m) (2 ^ (- e)) in if s then - v else v
  | _ => 0
  end.

(** [leadingInt] after the digits were split off. *)
Fixpoint leading_int (x : Z) (ds : list ascii) : option Z :=
  match ds with
  | [] => Some x
  | c :: ds' =>
      if (2 ^ 63) / 10 <? x then None
      else let x' := x * 10 + digit_val c in if 2 ^ 63 <? x' then None else leading_int x' ds'
  end.

(** [leadingFraction]: the digits that fit, and their scale. *)
Fixpoint leading_fraction (x : Z) (scale : spec_float) (ds : list ascii) : Z * spec_float :=
  match ds with
  | [] => (x, scale)
  | c :: ds' =>
      if (2 ^ 63 - 1) / 10 <? x then (x, scale)
      else let y := x * 10 + digit_val c in
           if 2 ^ 63 <? y then (x, scale) else leading_fraction y (f64_mul scale (f64_of_Z 10)) ds'
  end.

Fixpoint span_unit (l : list ascii) : list ascii * list ascii :=
  match l with
  | c :: l' => if is_digit c || Ascii.eqb c "." then ([], l) else let '(u, r) := span_unit l' in (c :: u, r)
  | [] => ([], [])
  end.

Definition unit_ns (u : list ascii) : option Z :=
  if decide (u = chars "ns") then Some 1
  else if decide (u = chars "us" ∨ u = [ch 194; ch 181; "s"%char] ∨ u = [ch 206; ch 188; "s"%char]) then Some 1000
  else if decide (u = chars "ms") then Some 1000000
  else if decide (u = chars "s") then Some 1000000000
  else if decide (u = chars "m") then Some (60 * 1000000000)
  else if decide (u = chars "h") then Some (3600 * 1000000000)
  else None.

(** One number with its unit: its nanoseconds and the rest of the text. *)
Definition duration_term (l : list ascii) : option (Z * list ascii) :=
  let '(ds, r1) := span_digits l in
  match leading_int 0 ds with
  | None => None
  | Some v =>
      let '(fs, r2) := match r1 with "."%char :: r => span_digits r | _ => ([], r1) end in
      let '(f, scale) := leading_fraction 0 (f64_of_Z 1) fs in
      if (length ds =? 0)%nat && (length fs =? 0)%nat then None
      else
        let '(u, r3) := span_unit r2 in
        match unit_ns u with
        | None => None
        | Some unit =>
            if 2 ^ 63 / unit <? v then None
            else
              let v1 := v * unit in
              if 0 <? f then
                let v2 := u64 (v1 + f64_to_Z (f64_mul (f64_of_Z f) (f64_div (f64_of_Z unit) scale))) in
                if 2 ^ 63 <? v2 then None else Some (v2, r3)
              else Some (v1, r3)
        end
  end.

Fixpoint duration_sum (fuel : nat) (d : Z) (l : list ascii) : option Z :=
  match fuel, l with
  | _, [] => Some d
  | O, _ => None
  | S fuel', _ =>
      match duration_term l with
      | Some (v, l') => let d' := u64 (d + v) in if 2 ^ 63 <? d' then None else duration_sum fuel' d' l'
      | None => None
      end
  end.

Definition ParseDuration (s : string) : option Z :=
  let '(neg, l) := match chars s with
                   | "-"%char :: l => (true, l)
                   | "+"%char :: l => (false, l)
                   | l => (false, l)
                   end in
  if decide (l = ["0"%char]) then Some 0
  else if decide (l = []) then None
  else match duration_sum (length l) 0 l with
       | None => None
       | Some d => if neg then Some (i64 (- i64 d)) else if 2 ^ 63 - 1 <? d then None else Some d
       end.

(** ** Files: config.go and loader.go *)

Record RuntimeConfig := mkRuntime {
  rt_Dir : string; rt_Debug : string; rt_AgentPath : string; rt_LogRingBufferBytes : Z;
  rt_LogFileDir : string; rt_LogFileMaxSize : Z; rt_LogFileMaxFiles : Z }.
Record SystemBudgetConfig := mkBudget {
  bud_MaxMemoryPercent : spec_float; bud_MinFreeMemory : Z; bud_MaxLoadAvg : spec_float }.
Record ProcessGroup := mkGroup { grp_Name : string; grp_Processes : list Spec }.
Record Config := mkConfig {
  cfg_Version : string; cfg_Runtime : RuntimeConfig; cfg_SystemBudget : SystemBudgetConfig;
  cfg_SandboxProviders : list string; cfg_Groups : list ProcessGroup }.

Record rawSystemBudget := mkRawBudget {
  rb_MaxMemoryPercent : spec_float; rb_MinFreeMemory : string; rb_MaxLoadAvg : spec_float }.
Record rawResources := mkRawResources {
  rr_MaxRSS : string; rr_MaxCPUPercent : spec_float; rr_OnExceed : string }.
Record rawProcess := mkRawProcess {
  rp_ID : string; rp_Name : string; rp_Command : string; rp_Args : list string;
  rp_Env : gmap string string; rp_WorkDir : string; rp_Restart : string; rp_MaxRestarts : Z;
  rp_RestartBackoff : string; rp_StopTimeout : string; rp_Stdin : string; rp_Resources : rawResources }.
Record rawProcessGroup := mkRawGroup { rg_Name : string; rg_Processes : list rawProcess }.
(** The runtime block has the same fields raw and canonical. *)
Record rawConfig := mkRawConfig {
  rc_Version : string; rc_Runtime : RuntimeConfig; rc_SystemBudget : rawSystemBudget;
  rc_SandboxProviders : list string; rc_Groups : list rawProcessGroup }.

Definition parseRestart (s : string) : option RestartPolicy :=
  match s with
  | "never" => Some RestartNever
  | "on_failure" => Some RestartOnFailure
  | "always" => Some RestartAlways
  | _ => None
  end%string.
Definition parseStdin (s : string) : option StdinMode :=
  match s with
  | "none" => Some StdinNone
  | "pipe" => Some StdinPipe
  | "inherit" => Some StdinInherit
  | _ => None
  end%string.
Definition parseExceed (s : string) : option ExceedAction :=
  match s with
  | "warn" => Some ExceedWarn
  | "throttle" => Some ExceedThrottle
  | "kill" => Some ExceedKill
  | _ => None
  end%string.

(** [if r.F != "" { v, err := parse(r.F); ... }]: an absent field keeps the
    zero value. *)
Definition field {A} (s : string) (zero : A) (e : config_err) (parse : string → option A) : result config_err A :=
  if String.eqb s "" then Ok zero else match parse s with Some v => Ok v | None => Err e end.

Definition rawProcessToSpec (r : rawProcess) : result config_err Spec :=
  let res := rp_Resources r in
  let! restart := field (rp_Restart r) RestartNever ErrRestartPolicy parseRestart in
  let! backoff := field (rp_RestartBackoff r) 0 ErrRestartBackoff ParseDuration in
  let! stop := field (rp_StopTimeout r) 0 ErrStopTimeout ParseDuration in
  let! stdin := field (rp_Stdin r) StdinNone ErrStdinMode parseStdin in
  let! rss := (if String.eqb (rr_MaxRSS res) "" then Ok 0 else ParseByteSize (rr_MaxRSS res)) in
  let! exceed := field (rr_OnExceed res) ExceedWarn ErrOnExceed parseExceed in
  Ok (mkSpec (rp_ID r) (rp_Name r) (rp_Command r) (rp_Args r) (rp_Env r) (rp_WorkDir r) restart
        (rp_MaxRestarts r) backoff stop stdin None (mkLimits rss (rr_MaxCPUPercent res) exceed)
        zero_log_options None false 0).

(** The loops of [toCanonical]: the first error ends them. *)
Fixpoint map_ok {A B} (f : A → result config_err B) (l : list A) : result config_err (list B) :=
  match l with
  | [] => Ok []
  | x :: l' => let! y := f x in let! ys := map_ok f l' in Ok (y :: ys)
  end.

Definition toCanonical (r : rawConfig) : result config_err Config :=
  let b := rc_SystemBudget r in
  let! min_free := (if String.eqb (rb_MinFreeMemory b) "" then Ok 0 else ParseByteSize (rb_MinFreeMemory b)) in
  let! groups := map_ok (λ g, let! ps := map_ok rawProcessToSpec (rg_Processes g) in
                              Ok (mkGroup (rg_Name g) ps)) (rc_Groups r) in
  Ok (mkConfig (rc_Version r) (rc_Runtime r)
        (mkBudget (rb_MaxMemoryPercent b) min_free (rb_MaxLoadAvg b)) (rc_SandboxProviders r) groups).

(** The loops of [Config.Validate]: the identifiers seen so far, or the error. *)
Fixpoint validate_processes (gi pi : nat) (seen : gset string) (ps : list Spec) : result config_err (gset string) :=
  match ps with
  | [] => Ok seen
  | p :: ps' =>
      match CwTypes.Validate p with
      | Some e => Err (ErrProcess gi pi e)
      | None =>
          if decide (spec_ID p ∈ seen) then Err (ErrDuplicateID (spec_ID p))
          else validate_processes gi (S pi) ({[spec_ID p]} ∪ seen) ps'
      end
  end.
Fixpoint validate_groups (gi : nat) (seen : gset string) (gs : list ProcessGroup) : result config_err (gset string) :=
  match gs with
  | [] => Ok seen
  | g :: gs' =>
      let! seen' := validate_processes gi 0 seen (grp_Processes g) in validate_groups (S gi) seen' gs'
  end.

Definition Config_Validate (c : Config) : option config_err :=
  match validate_groups 0 ∅ (cfg_Groups c) with Ok _ => None | Err e => Some e end.

(** [Load]; [yaml] is the third-party parser. *)
Definition Load (lookup_env : string → option string) (yaml : string → option rawConfig) (data : string)
    : result config_err Config :=
  let! expanded := ExpandEnv lookup_env data in
  match yaml expanded with
  | None => Err ErrYaml
  | Some raw =>
      let! cfg := toCanonical raw in
      match Config_Validate cfg with Some e => Err e | None => Ok cfg end
  end.

(** Every process of a configuration, in file order. *)
Definition all_processes (c : Config) : list Spec := concat (grp_Processes <$> cfg_Groups c).

(** ** Lemmas on trimming *)

Lemma strip_spec p l r : strip p l = Some r ↔ l = p ++ r.
Proof.
  revert l. induction p as [|a p IH]; intros l; simpl; [split; congruence|].
  destruct l as [|b l]; [done|]. destruct (Ascii.eqb_spec a b) as [->|Hne].
  - rewrite IH. split; [by intros ->|congruence].
  - split; [done|congruence].
Qed.

Lemma strip_any_Some toks l r : strip_any toks l = Some r → ∃ t, t ∈ toks ∧ l = t ++ r.
Proof.
  induction toks as [|t toks IH]; simpl; [done|]. destruct (strip t l) as [r'|] eqn:E.
  - intros [= <-]. exists t. apply strip_spec in E. set_solver.
  - intros H. destruct (IH H) as (t' & ? & ?). exists t'. set_solver.
Qed.

Lemma strip_any_None toks l : strip_any toks l = None ↔ ∀ t r, t ∈ toks → l ≠ t ++ r.
Proof.
  split.
  - induction toks as [|t toks IH]; simpl; [set_solver|]. destruct (strip t l) as [r'|] eqn:E; [done|].
    intros H t' r [->|Ht']%elem_of_cons Hl; [|by eapply IH]. apply strip_spec in Hl. congruence.
  - intros H. destruct (strip_any toks l) as [r|] eqn:E; [|done].
    apply strip_any_Some in E as (t & Ht & Hl). by destruct (H t r Ht).
Qed.

(** Tokens that can be stripped unambiguously: none is empty or a proper
    prefix of another. *)
Definition tokens_ok (toks : list (list ascii)) : bool :=
  forallb (λ t, negb (bool_decide (t = []))
             && forallb (λ t', bool_decide (t = t') || bool_decide (strip t t' = None)) toks) toks.

Lemma tokens_ok_spec toks t t' r : tokens_ok toks = true → t ∈ toks → t' ∈ toks → t' = t ++ r → r = [].
Proof.
  unfold tokens_ok. rewrite forallb_forall. intros H Ht Ht' E.
  apply list_elem_of_In, H, andb_true_iff in Ht as [_ Hp]. rewrite forallb_forall in Hp.
  apply list_elem_of_In, Hp, orb_true_iff in Ht' as [Heq|Hno]; apply bool_decide_eq_true in Heq || apply bool_decide_eq_true in Hno.
  - rewrite <- Heq in E. by apply (app_inv_head t); rewrite app_nil_r.
  - by rewrite (proj2 (strip_spec t t' r)) in Hno.
Qed.

Lemma tokens_ok_nonempty toks t : tokens_ok toks = true → t ∈ toks → t ≠ [].
Proof.
  unfold tokens_ok. rewrite forallb_forall. intros H Ht.
  apply list_elem_of_In, H, andb_true_iff in Ht as [Hn _]. by apply negb_true_iff, bool_decide_eq_false in Hn.
Qed.

Lemma strip_any_app toks t x : tokens_ok toks = true → t ∈ toks → strip_any toks (t ++ x) = Some x.
Proof.
  intros Hok Ht. destruct (strip_any toks (t ++ x)) as [r|] eqn:E.
  - apply strip_any_Some in E as (t' & Ht' & E). f_equal.
    apply app_eq_inv in E as [(k & E1 & E2)|(k & E1 & E2)].
    + rewrite (tokens_ok_spec toks t' t k Hok Ht' Ht E1) in *. by simplify_eq/=.
    + rewrite (tokens_ok_spec toks t t' k Hok Ht Ht' E1) in *. by simplify_eq/=.
  - by destruct (proj1 (strip_any_None _ _) E t x Ht).
Qed.

Lemma trim_left_app toks fuel ws x :
  tokens_ok toks = true → Forall (λ t, t ∈ toks) ws → strip_any toks x = None →
  (length (concat ws) ≤ fuel)%nat → trim_left toks fuel (concat ws ++ x) = x.
Proof.
  intros Hok Hws Hx. revert fuel. induction Hws as [|t ws Ht Hws IH]; intros fuel Hf; simpl.
  - destruct fuel; simpl; [done|]. by rewrite Hx.
  - simpl in Hf. rewrite length_app in Hf. pose proof (tokens_ok_nonempty toks t Hok Ht).
    destruct t as [|c t]; [done|]. destruct fuel as [|fuel]; [simpl in Hf; lia|]. cbn [trim_left].
    rewrite <- (assoc_L (++)), strip_any_app by done. apply IH. simpl in Hf. lia.
Qed.

Lemma trim_left_inv toks fuel l :
  tokens_ok toks = true → ∃ ws, Forall (λ t, t ∈ toks) ws ∧ l = concat ws ++ trim_left toks fuel l.
Proof.
  intros Hok. revert l. induction fuel as [|fuel IH]; intros l; simpl.
  - by exists [].
  - destruct (strip_any toks l) as [r|] eqn:E; [|by exists []].
    apply strip_any_Some in E as (t & Ht & ->). destruct (IH r) as (ws & Hws & Hr).
    exists (t :: ws). split; [by constructor|]. simpl. rewrite <- (assoc_L (++)). by f_equal.
Qed.

(** White space, and the bytes that are neither first nor last of any space. *)
Definition spaces (l : list ascii) : Prop :=
  ∃ ws, Forall (λ t, t ∈ space_tokens) ws ∧ l = concat ws.
Definition solid (c : ascii) : bool :=
  forallb (λ t, bool_decide (head t ≠ Some c) && bool_decide (last t ≠ Some c)) space_tokens.

Lemma solid_spec c t : solid c = true → t ∈ space_tokens → head t ≠ Some c ∧ last t ≠ Some c.
Proof.
  unfold solid. rewrite forallb_forall. intros H Ht%list_elem_of_In%H. apply andb_true_iff in Ht as [H1 H2].
  by rewrite bool_decide_eq_true in H1, H2.
Qed.

Lemma space_tokens_ok : tokens_ok space_tokens = true.
Proof. vm_compute. reflexivity. Qed.
Lemma rev_tokens_ok : tokens_ok (reverse <$> space_tokens) = true.
Proof. vm_compute. reflexivity. Qed.

Lemma solid_head c l : solid c = true → strip_any space_tokens (c :: l) = None.
Proof.
  intros Hc. apply strip_any_None. intros t r Ht E.
  pose proof (tokens_ok_nonempty _ _ space_tokens_ok Ht). destruct t as [|x t]; [done|].
  injection E as <- _. by destruct (solid_spec c (c :: t) Hc Ht).
Qed.

Lemma solid_last c l : solid c = true → strip_any (reverse <$> space_tokens) (reverse (l ++ [c])) = None.
Proof.
  intros Hc. apply strip_any_None. intros t r (t0 & -> & Ht)%list_elem_of_fmap E.
  destruct t0 as [|x t0 _] using rev_ind; [by apply (tokens_ok_nonempty _ _ space_tokens_ok) in Ht|].
  rewrite !reverse_app in E. simpl in E. injection E as <- _.
  destruct (solid_spec c _ Hc Ht) as [_ H]. by rewrite last_snoc in H.
Qed.

Lemma concat_reverse {A} (ws : list (list A)) : reverse (concat ws) = concat (reverse (reverse <$> ws)).
Proof.
  induction ws as [|w ws IH]; [done|]. csimpl. rewrite reverse_app, IH, reverse_cons, concat_app. simpl.
  by rewrite app_nil_r.
Qed.

Lemma spaces_reverse ws :
  Forall (λ t, t ∈ space_tokens) ws → Forall (λ t, t ∈ reverse <$> space_tokens) (reverse (reverse <$> ws)).
Proof.
  intros H. apply Forall_reverse, Forall_fmap. eapply Forall_impl; [exact H|]. intros t Ht. by apply list_elem_of_fmap_2.
Qed.

Lemma TrimLeft_spaces w x : spaces w → strip_any space_tokens x = None → TrimLeft (w ++ x) = x.
Proof.
  intros (ws & Hws & ->) Hx. apply trim_left_app; auto using space_tokens_ok. rewrite length_app. lia.
Qed.

Lemma TrimRight_spaces w x :
  spaces w → strip_any (reverse <$> space_tokens) (reverse x) = None → TrimRight (x ++ w) = x.
Proof.
  intros (ws & Hws & ->) Hx. unfold TrimRight. rewrite reverse_app, concat_reverse.
  rewrite trim_left_app; auto using rev_tokens_ok, spaces_reverse; [apply reverse_involutive|].
  rewrite <- concat_reverse, length_reverse, length_app. lia.
Qed.

Lemma TrimSpace_inv l : ∃ w1 w2, spaces w1 ∧ spaces w2 ∧ l = w1 ++ TrimSpace l ++ w2.
Proof.
  unfold TrimSpace. destruct (trim_left_inv space_tokens (length l) l space_tokens_ok) as (ws & Hws & Hl).
  fold (TrimLeft l) in Hl. set (m := TrimLeft l) in *.
  destruct (trim_left_inv _ (length m) (reverse m) rev_tokens_ok) as (vs & Hvs & Hm).
  exists (concat ws), (reverse (concat vs)). split; [by exists ws|]. split.
  - rewrite concat_reverse. eexists. split; [|done]. apply Forall_reverse, Forall_fmap.
    eapply Forall_impl; [exact Hvs|]. intros t (t0 & -> & Ht)%list_elem_of_fmap.
    unfold compose. by rewrite reverse_involutive.
  - rewrite Hl at 1. f_equal. unfold TrimRight. rewrite <- reverse_app, <- Hm. by rewrite reverse_involutive.
Qed.

(** Text between solid ends is what trimming keeps. *)
Lemma TrimSpace_core w1 w2 c x d :
  spaces w1 → spaces w2 → solid c = true → solid d = true →
  (∃ y, c :: x = y ++ [d]) → TrimSpace (w1 ++ (c :: x) ++ w2) = c :: x.
Proof.
  intros H1 H2 Hc Hd [y Hy]. unfold TrimSpace. simpl.
  rewrite TrimLeft_spaces by (done || by apply solid_head).
  change (c :: x ++ w2) with ((c :: x) ++ w2). apply TrimRight_spaces; [done|]. rewrite Hy. by apply solid_last.
Qed.

Lemma spaces_app w1 w2 : spaces w1 → spaces w2 → spaces (w1 ++ w2).
Proof.
  intros (a & Ha & ->) (b & Hb & ->). exists (a ++ b). split; [by apply Forall_app|by rewrite concat_app].
Qed.

Lemma span_digits_spec l : let '(d, r) := span_digits l in l = d ++ r ∧ forallb is_digit d = true.
Proof.
  induction l as [|c l IH]; simpl; [done|]. destruct (is_digit c) eqn:E; [|done].
  destruct (span_digits l) as [d r]. destruct IH as [-> Hd]. simpl. by rewrite E.
Qed.

Lemma span_digits_app ds r :
  forallb is_digit ds = true → (∀ c r', r = c :: r' → is_digit c = false) → span_digits (ds ++ r) = (ds, r).
Proof.
  intros Hd Hr. induction ds as [|c ds IH]; simpl in *.
  - destruct r as [|c r]; [done|]. simpl. by rewrite (Hr c r eq_refl).
  - apply andb_true_iff in Hd as [-> Hd]. by rewrite IH.
Qed.

Lemma digit_solid c : is_digit c = true → solid c = true.
Proof. destruct c as [[] [] [] [] [] [] [] []]; by vm_compute. Qed.

Lemma space_no_digit w c r : spaces w → w = c :: r → is_digit c = false.
Proof.
  intros (ws & Hws & ->) E. destruct ws as [|t ws]; [done|]. inversion Hws as [|?? Ht _]; subst.
  pose proof (tokens_ok_nonempty _ _ space_tokens_ok Ht). destruct t as [|x t]; [done|]. simplify_eq/=.
  destruct (is_digit c) eqn:Ec; [|done]. apply digit_solid in Ec. by destruct (solid_spec c _ Ec Ht).
Qed.

(** The suffixes: empty, or from a solid non-digit to the final [B]. *)
Lemma suffix_shape sf m :
  byteMultiplier (of_chars sf) = Some m →
  sf = [] ∨ ∃ c x y, sf = c :: x ∧ sf = y ++ ["B"%char] ∧ solid c = true ∧ is_digit c = false.
Proof.
  intros H. remember (of_chars sf) as s eqn:E. assert (sf = chars s) as -> by (subst; by rewrite chars_of).
  clear E. revert H. unfold byteMultiplier.
  repeat match goal with |- context [String.eqb s ?t] => destruct (String.eqb_spec s t) as [->|] end;
    cbn [orb]; intros; simplify_eq; try (by left); right;
    match goal with |- context [chars ?t] => eexists _, _, (removelast (chars t)) end;
    (split; [reflexivity|]); split_and!; vm_compute; reflexivity.
Qed.

(** ** Templates

    What a text with references means: plain bytes, [$$], [${NAME}] and
    [${NAME:-default}]. *)

Inductive seg := SLit (c : ascii) | SDollar | SVar (name : list ascii) | SDef (name def : list ascii).

Definition seg_ok (g : seg) : Prop :=
  match g with
  | SLit c => c ≠ dollar
  | SDollar => True
  | SVar name => "}"%char ∉ name ∧ cut_default name = None
  | SDef name def => "}"%char ∉ name ∧ "}"%char ∉ def ∧ cut_default name = None
  end.

Definition seg_text (g : seg) : list ascii :=
  match g with
  | SLit c => [c]
  | SDollar => [dollar; dollar]
  | SVar name => dollar :: "{"%char :: name ++ ["}"%char]
  | SDef name def => dollar :: "{"%char :: (name ++ ":"%char :: "-"%char :: def) ++ ["}"%char]
  end.

Section Templates.
Context (lookup_env : string → option string).

Definition seg_val (g : seg) : result config_err (list ascii) :=
  match g with
  | SLit c => Ok [c]
  | SDollar => Ok [dollar]
  | SVar name => match lookup_env (of_chars name) with
                 | Some v => Ok (chars v)
                 | None => Err (ErrEnvNotSet (of_chars name))
                 end
  | SDef name def => Ok (default def (chars <$> lookup_env (of_chars name)))
  end.

Fixpoint template_val (gs : list seg) : result config_err (list ascii) :=
  match gs with
  | [] => Ok []
  | g :: gs' => let! v := seg_val g in let! out := template_val gs' in Ok (v ++ out)
  end.

Definition template_text (gs : list seg) : list ascii := concat (seg_text <$> gs).

Lemma cut_at_app c a b : c ∉ a → cut_at c (a ++ c :: b) = Some (a, b).
Proof.
  induction a as [|x a IH]; intros Hc; simpl; [by rewrite Ascii.eqb_refl|].
  rewrite not_elem_of_cons in Hc. destruct Hc as [Hx Hc].
  rewrite (proj2 (Ascii.eqb_neq x c)) by congruence. by rewrite IH.
Qed.

Lemma cut_at_none c l : c ∉ l → cut_at c l = None.
Proof.
  induction l as [|x l IH]; intros Hc; simpl; [done|]. rewrite not_elem_of_cons in Hc. destruct Hc as [Hx Hc].
  rewrite (proj2 (Ascii.eqb_neq x c)) by congruence. by rewrite IH.
Qed.

Lemma cut_default_app name def :
  cut_default name = None → cut_default (name ++ ":"%char :: "-"%char :: def) = Some (name, def).
Proof.
  induction name as [|x name IH]; [done|]. cbn [cut_default app].
  destruct (strip [":"; "-"]%char (x :: name)) as [r|] eqn:E; [done|].
  destruct (cut_default name) as [[a b]|] eqn:En; [done|]. intros _. rewrite IH by done.
  assert (strip [":"; "-"]%char (x :: name ++ ":"%char :: "-"%char :: def) = None) as ->; [|done].
  destruct name as [|y name]; cbn [strip app] in *; destruct (Ascii.eqb ":" x); try done.
  by destruct (Ascii.eqb "-" y).
Qed.

(** One reference or byte at the head of the text. *)
Lemma expand_seg fuel i g l :
  seg_ok g →
  expand lookup_env (S fuel) i (seg_text g ++ l) =
  let! v := seg_val g in let! out := expand lookup_env fuel (i + length (seg_text g)) l in Ok (v ++ out).
Proof.
  destruct g as [c| |name|name def]; cbn [seg_ok seg_text seg_val app expand result_bind length].
  - intros Hc. by rewrite (proj2 (Ascii.eqb_neq c dollar)).
  - done.
  - intros [Hn Hd]. cbn. rewrite <- (assoc_L (++)). simpl. rewrite (cut_at_app _ _ _ Hn). unfold resolveEnv.
    rewrite Hd. destruct (lookup_env _); [|done]. cbn [result_bind].
    do 2 f_equal. rewrite length_app. simpl. lia.
  - intros (Hn & Hd & Hcut). cbn. rewrite <- (assoc_L (++)). simpl.
    rewrite (cut_at_app "}"%char (name ++ ":"%char :: "-"%char :: def) l) by set_solver.
    unfold resolveEnv. rewrite (cut_default_app _ _ Hcut).
    destruct (lookup_env (of_chars name)); cbn [result_bind default fmap option_fmap option_map];
      do 2 f_equal; rewrite !length_app; simpl; lia.
Qed.

Lemma seg_text_pos g : (0 < length (seg_text g))%nat.
Proof. destruct g; simpl; lia. Qed.

Lemma expand_template gs : ∀ fuel i l,
  Forall seg_ok gs → (length (template_text gs) ≤ fuel)%nat →
  expand lookup_env fuel i (template_text gs ++ l) =
  let! v := template_val gs in
  let! out := expand lookup_env (fuel - length gs) (i + length (template_text gs)) l in Ok (v ++ out).
Proof.
  induction gs as [|g gs IH]; intros fuel i l Hok Hf.
  { cbn. rewrite Nat.sub_0_r, Nat.add_0_r. by destruct (expand _ _ _ _). }
  inversion Hok as [|? ? Hg Hgs]; subst. unfold template_text in *. csimpl in *.
  rewrite length_app in Hf. pose proof (seg_text_pos g). destruct fuel as [|fuel]; [lia|].
  rewrite <- (assoc_L (++)), expand_seg by done. cbn [template_val].
  destruct (seg_val g) as [v|e]; [|done]. cbn [result_bind]. rewrite IH by (done || lia).
  destruct (template_val gs) as [vs|e]; [|done]. cbn [result_bind].
  rewrite length_app, Nat.add_assoc. change (S fuel - S (length gs))%nat with (fuel - length gs)%nat.
  destruct (expand _ _ _ l); [|done]. cbn [result_bind]. by rewrite <- (assoc_L (++)).
Qed.

Lemma length_template gs : (length gs ≤ length (template_text gs))%nat.
Proof.
  induction gs as [|g gs IH]; [done|]. unfold template_text in *. csimpl. rewrite length_app.
  pose proof (seg_text_pos g). lia.
Qed.
End Templates.

(** ** Lemmas on validation *)

Definition ids (ps : list Spec) : list string := spec_ID <$> ps.

(** The processes can follow those already seen. *)
Definition fresh_valid (seen : gset string) (ps : list Spec) : Prop :=
  Forall (λ p, CwTypes.Validate p = None) ps ∧ NoDup (ids ps) ∧ (∀ id, id ∈ ids ps → id ∉ seen).

Lemma fresh_valid_nil seen : fresh_valid seen [].
Proof. split_and!; [by constructor|by constructor|set_solver]. Qed.

Lemma fresh_valid_cons seen p ps :
  fresh_valid seen (p :: ps) ↔
  CwTypes.Validate p = None ∧ spec_ID p ∉ seen ∧ fresh_valid ({[spec_ID p]} ∪ seen) ps.
Proof.
  unfold fresh_valid. csimpl. rewrite Forall_cons, NoDup_cons. unfold ids. set_solver.
Qed.

Lemma fresh_valid_app seen ps qs :
  fresh_valid seen (ps ++ qs) ↔ fresh_valid seen ps ∧ fresh_valid (list_to_set (ids ps) ∪ seen) qs.
Proof.
  unfold fresh_valid, ids. rewrite Forall_app, fmap_app, NoDup_app. set_solver.
Qed.

Lemma validate_processes_spec gi pi seen ps seen' :
  validate_processes gi pi seen ps = Ok seen' ↔ fresh_valid seen ps ∧ seen' = list_to_set (ids ps) ∪ seen.
Proof.
  revert pi seen. induction ps as [|p ps IH]; intros pi seen; simpl.
  - rewrite (left_id_L ∅ (∪)). split; [intros [= ->]; split; [apply fresh_valid_nil|done]|by intros [_ ->]].
  - rewrite fresh_valid_cons. destruct (CwTypes.Validate p) as [e|]; [naive_solver|].
    case_decide as Hin; [naive_solver|]. rewrite IH.
    replace (list_to_set (ids ps) ∪ ({[spec_ID p]} ∪ seen)) with ({[spec_ID p]} ∪ list_to_set (ids ps) ∪ seen)
      by set_solver. naive_solver.
Qed.

Lemma validate_groups_spec gi seen gs seen' :
  validate_groups gi seen gs = Ok seen' ↔
  fresh_valid seen (concat (grp_Processes <$> gs)) ∧
  seen' = list_to_set (ids (concat (grp_Processes <$> gs))) ∪ seen.
Proof.
  revert gi seen. induction gs as [|g gs IH]; intros gi seen; csimpl.
  - rewrite (left_id_L ∅ (∪)). split; [intros [= ->]; split; [apply fresh_valid_nil|done]|by intros [_ ->]].
  - rewrite fresh_valid_app. unfold ids in *. rewrite fmap_app, list_to_set_app_L.
    destruct (validate_processes gi 0 seen (grp_Processes g)) as [seen1|e] eqn:E; cbn [result_bind].
    + apply validate_processes_spec in E as [Hf ->]. rewrite IH. unfold ids. split.
      * intros [? ->]. split; [done|]. set_solver.
      * intros [[_ ?] ->]. split; [done|]. set_solver.
    + split; [done|]. intros [[Hf _] _].
      pose proof (proj2 (validate_processes_spec gi 0 seen (grp_Processes g) _) (conj Hf eq_refl)). congruence.
Qed.

(** ** Properties *)

(** C27: which texts are byte sizes, and which number they denote.  A text is
    accepted exactly when it is, up to white space around and between, a
    decimal number below 2^64 followed by a known suffix (or none); its value
    is the number times the multiplier, wrapped to 64 bits, so the mathematical
    value exactly when that is below 2^64. *)
Theorem parse_byte_size_spec (s : string) (v : Z) :
  ParseByteSize s = Ok v ↔
  ∃ w1 ds w2 sf w3 m, chars s = w1 ++ ds ++ w2 ++ sf ++ w3 ∧ spaces w1 ∧ spaces w2 ∧ spaces w3 ∧
    ds ≠ [] ∧ forallb is_digit ds = true ∧ dec_val ds < 2 ^ 64 ∧
    byteMultiplier (of_chars sf) = Some m ∧ v = u64 (dec_val ds * m).
Proof.
  split.
  - unfold ParseByteSize. destruct (TrimSpace_inv (chars s)) as (w1 & w4 & Hw1 & Hw4 & Hs).
    set (trimmed := TrimSpace (chars s)) in *. pose proof (span_digits_spec trimmed) as Hd.
    destruct trimmed as [|c l]; [done|]. destruct (span_digits (c :: l)) as [ds rest].
    destruct Hd as [Hl Hds]. destruct ds as [|d ds]; [done|].
    unfold ParseUint. destruct (Z.ltb_spec (dec_val (d :: ds)) (2 ^ 64)) as [Hlt|]; [|done].
    destruct (byteMultiplier _) as [m|] eqn:Em; [|done]. intros [= <-].
    destruct (TrimSpace_inv rest) as (w2 & w3 & Hw2 & Hw3 & Hr).
    exists w1, (d :: ds), w2, (TrimSpace rest), (w3 ++ w4), m. split_and!; auto using spaces_app.
    rewrite Hs, Hl. rewrite Hr at 1. by rewrite <- !(assoc_L (++)).
  - intros (w1 & ds & w2 & sf & w3 & m & Hs & Hw1 & Hw2 & Hw3 & Hne & Hds & Hlt & Hm & ->).
    destruct ds as [|c ds]; [done|]. unfold ParseByteSize. rewrite Hs.
    assert (solid c = true) as Hc by (apply digit_solid; by apply andb_true_iff in Hds as [? _]).
    destruct (suffix_shape sf m Hm) as [->|(b & x & y & Hsf & Hy & Hb & Hnd)].
    + rewrite app_nil_l. destruct (exists_last (l := c :: ds)) as (y & d & Hy); [done|].
      assert (solid d = true) as Hd.
      { apply digit_solid. rewrite Hy, forallb_app in Hds. apply andb_true_iff in Hds as [_ Hds].
        by apply andb_true_iff in Hds as [? _]. }
      rewrite (TrimSpace_core w1 (w2 ++ w3) c ds d) by (eauto using spaces_app).
      pose proof (span_digits_app (c :: ds) [] Hds ltac:(done)) as Hsp. rewrite app_nil_r in Hsp.
      cbv beta iota. rewrite Hsp. unfold ParseUint.
      rewrite (proj2 (Z.ltb_lt _ _) Hlt). change (TrimSpace []) with (@nil ascii). by rewrite Hm.
    + replace (w1 ++ (c :: ds) ++ w2 ++ sf ++ w3) with (w1 ++ (c :: ds ++ w2 ++ sf) ++ w3)
        by (simpl; by rewrite <- !(assoc_L (++))).
      rewrite (TrimSpace_core w1 w3 c _ "B"%char); try done; [|exists (c :: ds ++ w2 ++ y); rewrite Hy; simpl;
        by rewrite !(assoc_L (++))].
      cbv beta iota. change (c :: ds ++ w2 ++ sf) with ((c :: ds) ++ w2 ++ sf). rewrite span_digits_app; [|done|].
      * unfold ParseUint. rewrite (proj2 (Z.ltb_lt _ _) Hlt).
        pose proof (TrimSpace_core w2 [] b x "B"%char Hw2) as Ht. rewrite app_nil_r, <- Hsf in Ht.
        rewrite Ht; try done; [by rewrite Hm|by exists []|by exists y].
      * intros c' r' E. destruct w2 as [|e w2]; [simpl in E; by simplify_eq|].
        simplify_eq/=. exact (space_no_digit _ _ _ Hw2 eq_refl).
Qed.

(** C28: environment expansion.  The text of any template expands to the
    template's value in one pass (values are not expanded again): references
    are looked up, a default is used exactly when the variable is unset, [$$]
    is a dollar sign, and the first unset variable without a default is the
    error.  A [${] without a closing brace is the error at its own index,
    provided everything before it resolves. *)
Theorem expand_env_template (lookup_env : string → option string) (gs : list seg) (tail : list ascii)
    (Hgs : Forall seg_ok gs) (Htail : "}"%char ∉ tail) :
  ExpandEnv lookup_env (of_chars (template_text gs)) =
    (let! out := template_val lookup_env gs in Ok (of_chars out)) ∧
  ExpandEnv lookup_env (of_chars (template_text gs ++ dollar :: "{"%char :: tail)) =
    (let! out := template_val lookup_env gs in Err (ErrUnterminated (length (template_text gs)))).
Proof.
  unfold ExpandEnv. rewrite !chars_of. split.
  - rewrite <- (app_nil_r (template_text gs)) at 2. rewrite expand_template by done.
    destruct (template_val lookup_env gs) as [v|]; [|done]. cbn [result_bind].
    destruct (length (template_text gs) - length gs)%nat; cbn [expand result_bind]; by rewrite app_nil_r.
  - rewrite expand_template by (done || rewrite length_app; lia).
    destruct (template_val lookup_env gs) as [v|]; [|done]. cbn [result_bind].
    pose proof (length_template gs). rewrite length_app.
    destruct (length (template_text gs) + length (dollar :: "{"%char :: tail) - length gs)%nat as [|k] eqn:Ek;
      [simpl in Ek; lia|].
    cbn. by rewrite (cut_at_none _ _ Htail).
Qed.

Lemma expand_env_template_witness :
  let env := λ n, if String.eqb n "HOME" then Some "/h"%string else None in
  let gs := [SLit "a"; SDollar; SVar (chars "HOME"); SDef (chars "X") (chars "d")]%char in
  (ExpandEnv env (of_chars (template_text gs)) = (let! out := template_val env gs in Ok (of_chars out)) ∧
   ExpandEnv env (of_chars (template_text gs ++ dollar :: "{"%char :: chars "Y")) =
     (let! out := template_val env gs in Err (ErrUnterminated (length (template_text gs))))) ∧
  ExpandEnv env "a$$${HOME}${X:-d}" = Ok "a$/hd"%string.
Proof.
  intros env gs. split; [|reflexivity].
  apply (expand_env_template env gs (chars "Y")).
  - repeat constructor; simpl; try done; by apply (bool_decide_unpack _).
  - by apply (bool_decide_unpack _).
Defined.

(** What validation accepts. *)
Lemma validate_config_spec c :
  (∃ s, validate_groups 0 ∅ (cfg_Groups c) = Ok s) ↔
  Forall (λ p, CwTypes.Validate p = None) (all_processes c) ∧ NoDup (spec_ID <$> all_processes c).
Proof.
  unfold all_processes. setoid_rewrite validate_groups_spec. unfold fresh_valid, ids. split.
  - intros (s & (H1 & H2 & _) & _). done.
  - intros [H1 H2]. eexists. split; [|done]. split_and!; [done|done|intros ? _; apply not_elem_of_empty].
Qed.

Lemma Load_valid lookup_env yaml data cfg :
  Load lookup_env yaml data = Ok cfg →
  Forall (λ p, CwTypes.Validate p = None) (all_processes cfg) ∧ NoDup (spec_ID <$> all_processes cfg).
Proof.
  unfold Load, Config_Validate. intros H. apply validate_config_spec.
  destruct (ExpandEnv lookup_env data); [|done]. cbn [result_bind] in H. case_match; [|done].
  destruct (toCanonical _); [|done]. cbn [result_bind] in H. destruct (validate_groups _ _ _) eqn:E; simplify_eq. eauto.
Qed.

(** C29: what loading guarantees.  A file is accepted exactly when its text
    expands, parses, converts field by field and every process of every group
    passes [Spec.Validate] with identifiers unique across all groups; the
    result is then the converted configuration unchanged. *)
Theorem load_accepts_exactly_valid (lookup_env : string → option string)
    (yaml : string → option rawConfig) (data : string) (cfg : Config) :
  Load lookup_env yaml data = Ok cfg ↔
  ∃ text raw, ExpandEnv lookup_env data = Ok text ∧ yaml text = Some raw ∧ toCanonical raw = Ok cfg ∧
    Forall (λ p, CwTypes.Validate p = None) (all_processes cfg) ∧ NoDup (spec_ID <$> all_processes cfg).
Proof.
  unfold Load, Config_Validate, all_processes.
  pose proof validate_config_spec as Hv. unfold all_processes in Hv.
  destruct (ExpandEnv lookup_env data) as [text|]; cbn [result_bind];
    [|by split; [|intros (t & r & ? & _)]].
  destruct (yaml text) as [raw|] eqn:Ey; [|split; [done|]; intros (t & r & [= <-] & Er & _); congruence].
  destruct (toCanonical raw) as [c|] eqn:Ec; cbn [result_bind];
    [|split; [done|]; intros (t & r & [= <-] & Er & Hc & _); congruence].
  destruct (validate_groups 0 ∅ (cfg_Groups c)) as [s|] eqn:Eg.
  - split; [intros [= <-]; exists text, raw; split_and!; try done; apply Hv; eauto|].
    intros (t & r & [= <-] & Er & Hc & _). congruence.
  - split; [done|]. intros (t & r & [= <-] & Er & Hc & H1 & H2). rewrite Ey in Er. injection Er as <-.
    rewrite Ec in Hc. injection Hc as <-. destruct (proj2 (Hv c) (conj H1 H2)) as [s Hs]. congruence.
Qed.

(** The product is not checked: 2^24 TiB is zero bytes. *)
Example byte_size_overflow : ParseByteSize "16777216TiB" = Ok 0.
Proof. reflexivity. Qed.
