(* ===== verification/Flags.v ===== *)
(** * Command line flags: what cmd/cliwrap uses of Go's flag package

    A set of flags, each a name for a variable and the kind of its values, and
    the parsing of an argument list: flags end at the first argument that is
    not one, or after [--]. *)

From S2P Require Import Prelude Text Config.

Inductive flag_kind := KString | KBool | KInt | KDuration.
Inductive flag_val := FvString (s : string) | FvBool (b : bool) | FvInt (n : Z) | FvDuration (d : Z).

(** A flag's name, the variable it sets and the kind. *)
Record flag := mkFlag { fl_name : string; fl_var : string; fl_kind : flag_kind }.

(** ** Values *)

(** [strconv.ParseBool]. *)
Definition parse_bool (s : string) : option bool :=
  if bool_decide (s ∈ ["1"; "t"; "T"; "TRUE"; "true"; "True"]) then Some true
  else if bool_decide (s ∈ ["0"; "f"; "F"; "FALSE"; "false"; "False"]) then Some false
  else None.

(** The value of a digit or letter, as [strconv.ParseUint] reads it. *)
Definition lower (c : ascii) : Z := let n := Z.of_N (N_of_ascii c) in if (65 <=? n) && (n <=? 90) then n + 32 else n.
Definition digit_of (c : ascii) : option Z :=
  let n := lower c in
  if (48 <=? n) && (n <=? 57) then Some (n - 48)
  else if (97 <=? n) && (n <=? 122) then Some (n - 97 + 10)
  else None.

(** The base a literal announces, and the rest of it. *)
Definition literal_base (l : list ascii) : Z * list ascii :=
  match l with
  | "0"%char :: x :: y :: r =>
      if lower x =? 98 then (2, y :: r) else if lower x =? 111 then (8, y :: r) else if lower x =? 120 then (16, y :: r)
      else (8, x :: y :: r)
  | "0"%char :: r => (8, r)
  | _ => (10, l)
  end.

(** The digits with underscores skipped; [None] for a syntax error. *)
Fixpoint parse_digits (base acc : Z) (l : list ascii) : option Z :=
  match l with
  | [] => Some acc
  | c :: l' =>
      if Ascii.eqb c "_" then parse_digits base acc l'
      else match digit_of c with
           | Some d => if d <? base then parse_digits base (acc * base + d) l' else None
           | None => None
           end
  end.

(** [underscoreOK]: underscores stand between digits or after the base prefix. *)
Inductive us_state := UsStart | UsDigit | UsUnder | UsOther.
Fixpoint underscore_run (hex : bool) (st : us_state) (l : list ascii) : bool :=
  match l with
  | [] => match st with UsUnder => false | _ => true end
  | c :: l' =>
      let n := lower c in
      if ((48 <=? n) && (n <=? 57)) || (hex && (97 <=? n) && (n <=? 102)) then underscore_run hex UsDigit l'
      else if Ascii.eqb c "_" then match st with UsDigit => underscore_run hex UsUnder l' | _ => false end
      else match st with UsUnder => false | _ => underscore_run hex UsOther l' end
  end.
Definition underscore_ok (l : list ascii) : bool :=
  match l with
  | "0"%char :: x :: r =>
      if bool_decide (lower x ∈ [98; 111; 120]) then underscore_run (lower x =? 120) UsDigit r
      else underscore_run false UsStart l
  | _ => underscore_run false UsStart l
  end.

(** [strconv.ParseInt(s, 0, 64)]; the flag refuses every error. *)
Definition parse_int (s : string) : option Z :=
  let '(neg, l) := match chars s with
                   | "-"%char :: l => (true, l)
                   | "+"%char :: l => (false, l)
                   | l => (false, l)
                   end in
  match l with
  | [] => None
  | _ =>
      let '(base, ds) := literal_base l in
      match parse_digits base 0 ds with
      | None => None
      | Some v =>
          if existsb (Ascii.eqb "_") ds && negb (underscore_ok l) then None
          else if neg then if v <=? 2 ^ 63 then Some (- v) else None
          else if v <? 2 ^ 63 then Some v else None
      end
  end.

Definition parse_value (k : flag_kind) (s : string) : option flag_val :=
  match k with
  | KString => Some (FvString s)
  | KBool => FvBool <$> parse_bool s
  | KInt => FvInt <$> parse_int s
  | KDuration => FvDuration <$> ParseDuration s
  end.

(** ** Parsing *)

Inductive flag_err := BadSyntax | Undefined | HelpAsked | NeedsArgument | BadValue.

Definition minus : ascii := "-"%char.
Definition equals : ascii := "="%char.

(** The name of a flag argument; [None]: not a flag; the end marker is [Some []]. *)
Definition flag_name (s : string) : option (list ascii) :=
  match chars s with
  | c :: d :: r => if Ascii.eqb c minus then if Ascii.eqb d minus then Some r else Some (d :: r) else None
  | _ => None
  end.
(** [name=value], the equals sign not in front. *)
Fixpoint cut_equals (l : list ascii) : list ascii * option (list ascii) :=
  match l with
  | [] => ([], None)
  | c :: l' => if Ascii.eqb c equals then ([], Some l') else let '(n, v) := cut_equals l' in (c :: n, v)
  end.

Fixpoint find_flag (defs : list flag) (name : string) : option flag :=
  match defs with
  | [] => None
  | f :: defs' => if String.eqb (fl_name f) name then Some f else find_flag defs' name
  end.

Definition set_flag (f : flag) (v : string) : result flag_err (string * flag_val) :=
  match parse_value (fl_kind f) v with Some x => Ok (fl_var f, x) | None => Err BadValue end.

Definition cons_set (a : result flag_err (string * flag_val)) (r : result flag_err (list (string * flag_val) * list string))
    : result flag_err (list (string * flag_val) * list string) :=
  let! x := a in let! p := r in Ok (x :: p.1, p.2).

(** [FlagSet.Parse]: the settings in order, and the arguments left. *)
Fixpoint parse_flags (defs : list flag) (args : list string) : result flag_err (list (string * flag_val) * list string) :=
  match args with
  | [] => Ok ([], [])
  | a :: rest =>
      match flag_name a with
      | None => Ok ([], args)
      | Some [] => Ok ([], rest)
      | Some (c :: r) =>
          if Ascii.eqb c minus || Ascii.eqb c equals then Err BadSyntax
          else
            let '(n, value) := cut_equals r in
            let name := of_chars (c :: n) in
            match find_flag defs name with
            | None => if String.eqb name "help" || String.eqb name "h" then Err HelpAsked else Err Undefined
            | Some f =>
                match fl_kind f, value with
                | _, Some v => cons_set (set_flag f (of_chars v)) (parse_flags defs rest)
                | KBool, None => cons_set (set_flag f "true") (parse_flags defs rest)
                | _, None =>
                    match rest with
                    | [] => Err NeedsArgument
                    | v :: rest' => cons_set (set_flag f v) (parse_flags defs rest')
                    end
                end
            end
      end
  end.

(** The value of a variable: the last setting, or its default. *)
Fixpoint flag_get (set : list (string * flag_val)) (var : string) (d : flag_val) : flag_val :=
  match set with
  | [] => d
  | (x, v) :: set' => if String.eqb x var then flag_get set' var v else flag_get set' var d
  end.
Definition get_string (set : list (string * flag_val)) (var d : string) : string :=
  match flag_get set var (FvString d) with FvString s => s | _ => d end.
Definition get_bool (set : list (string * flag_val)) (var : string) : bool :=
  match flag_get set var (FvBool false) with FvBool b => b | _ => false end.
Definition get_int (set : list (string * flag_val)) (var : string) (d : Z) : Z :=
  match flag_get set var (FvInt d) with FvInt n => n | _ => d end.
Definition get_duration (set : list (string * flag_val)) (var : string) (d : Z) : Z :=
  match flag_get set var (FvDuration d) with FvDuration n => n | _ => d end.

(** ** What is parsed *)

(** A flag written out with its value. *)
Definition render (name v : string) : string := "--" +:+ name +:+ "=" +:+ v.
Definition good_name (name : string) : Prop :=
  name ≠ ""%string ∧ equals ∉ chars name ∧ ∀ c l, chars name = c :: l → c ≠ minus.

Lemma cut_equals_app n v : equals ∉ n → cut_equals (n ++ equals :: v) = (n, Some v).
Proof.
  induction n as [|c n IH]; simpl; [done|]. intros [Hc Hn]%not_elem_of_cons. rewrite IH by done.
  by apply not_eq_sym, Ascii.eqb_neq in Hc as ->.
Qed.

Lemma parse_rendered defs f v rest :
  good_name (fl_name f) → find_flag defs (fl_name f) = Some f →
  parse_flags defs (render (fl_name f) v :: rest) = cons_set (set_flag f v) (parse_flags defs rest).
Proof.
  intros (Hne & Heq & Hmin) Hf. cbn [parse_flags]. unfold render, flag_name.
  rewrite !chars_app. cbn [chars String.list_ascii_of_string app].
  change (Ascii.eqb "-" minus) with true. cbn match. change (Ascii.eqb "-" minus) with true. cbn match.
  destruct (chars (fl_name f)) as [|c l] eqn:E.
  { exfalso. apply Hne. by rewrite <- (of_chars_of (fl_name f)), E. }
  cbn [app]. apply not_elem_of_cons in Heq as [Hc Hl]. specialize (Hmin c l eq_refl).
  apply Ascii.eqb_neq in Hmin as ->. apply not_eq_sym, Ascii.eqb_neq in Hc as ->. cbn [orb].
  change (String.list_ascii_of_string v) with (chars v). change "="%char with equals.
  rewrite (cut_equals_app l (chars v) Hl). cbn iota beta zeta. rewrite <- E, of_chars_of, Hf, of_chars_of.
  by destruct (fl_kind f).
Qed.

(** Settings that parse: known flags with the text of their value. *)
Definition settable (defs : list flag) (x : flag * string * flag_val) : Prop :=
  let '(f, s, v) := x in
  good_name (fl_name f) ∧ find_flag defs (fl_name f) = Some f ∧ parse_value (fl_kind f) s = Some v.

(** The settings written out, the end marker and any arguments are read back,
    in order. *)
Lemma parse_flags_roundtrip defs xs args :
  Forall (settable defs) xs →
  parse_flags defs (((λ x, render (fl_name x.1.1) x.1.2) <$> xs) ++ "--" :: args) =
  Ok ((λ x, (fl_var x.1.1, x.2)) <$> xs, args).
Proof.
  induction 1 as [|[[f s] v] xs (Hn & Hf & Hv) _ IH]; [done|]. rewrite fmap_cons, <- app_comm_cons. cbn [fst snd].
  rewrite parse_rendered by done. rewrite IH. unfold set_flag. by rewrite Hv.
Qed.

(** Flags end at the first argument that is not one. *)
Lemma parse_flags_stop defs a rest : flag_name a = None → parse_flags defs (a :: rest) = Ok ([], a :: rest).
Proof. intros H. cbn [parse_flags]. by rewrite H. Qed.
