(* ===== verification/Resource.v ===== *)
(** * Resource limits: internal/resource

    The evaluator that turns samples into enforcement actions, the monitor
    that takes the samples, and what the collectors of Linux, macOS and Windows
    read out of the texts the system gives them.  A [float64] is a
    [spec_float]; NaN fails every comparison, as in Go. *)

From Stdlib Require Import Floats.SpecFloat.
From S2P Require Import Prelude Text CwTypes Config.

Definition f64_zero : spec_float := S754_zero false.
(** [x > y]. *)
Definition f64_gtb (x y : spec_float) : bool := SFltb y x.

(** ** Samples: sample.go *)

Record Sample := mkSample {
  sm_PID : Z; sm_RSS : Z; sm_VMS : Z; sm_CPUPercent : spec_float; sm_NumThreads : Z; sm_NumFDs : Z; sm_SampledAt : Z }.

Record SystemSample := mkSystemSample {
  ss_TotalMemory : Z; ss_AvailableMemory : Z; ss_LoadAvg1 : spec_float; ss_LoadAvg5 : spec_float;
  ss_NumCPU : Z; ss_SampledAt : Z }.

Definition AvailableRatio (s : SystemSample) : spec_float :=
  if ss_TotalMemory s =? 0 then f64_zero
  else f64_div (f64_of_Z (ss_AvailableMemory s)) (f64_of_Z (ss_TotalMemory s)).

(** ** The evaluator: evaluator.go *)

Record Action := mkAction {
  ac_ProcessID : string; ac_Kind : string; ac_Current : spec_float; ac_Limit : spec_float; ac_ExceedAction : ExceedAction }.

Record EvaluatorOptions := mkEvalOpts { eo_OnAction : bool; eo_RSSBreachThreshold : Z; eo_CPUBreachThreshold : Z }.

Record Evaluator := mkEval {
  ev_opts : EvaluatorOptions;
  ev_limits : gmap string ResourceLimits;
  ev_rssCount : gmap string Z;
  ev_cpuCount : gmap string Z }.

Definition NewEvaluator (o : EvaluatorOptions) : Evaluator :=
  mkEval (mkEvalOpts (eo_OnAction o)
            (if eo_RSSBreachThreshold o <=? 0 then 3 else eo_RSSBreachThreshold o)
            (if eo_CPUBreachThreshold o <=? 0 then 10 else eo_CPUBreachThreshold o)) ∅ ∅ ∅.

Definition RegisterLimits (id : string) (l : ResourceLimits) (e : Evaluator) : Evaluator :=
  mkEval (ev_opts e) (<[id := l]> (ev_limits e)) (ev_rssCount e) (ev_cpuCount e).
Definition Unregister (id : string) (e : Evaluator) : Evaluator :=
  mkEval (ev_opts e) (delete id (ev_limits e)) (delete id (ev_rssCount e)) (delete id (ev_cpuCount e)).

(** One of the two checks of [Evaluate]: the new count and whether it fires;
    [count] is what the map holds, 0 if nothing. *)
Definition check_breach (enabled breach : bool) (threshold : Z) (count : option Z) : option Z * bool :=
  if negb enabled then (count, false)
  else if breach then
    let n := default 0 count + 1 in
    if threshold <=? n then (Some 0, true) else (Some n, false)
  else (Some 0, false).

Definition rss_enabled (l : ResourceLimits) : bool := 0 <? rl_MaxRSS l.
Definition rss_breach (l : ResourceLimits) (s : Sample) : bool := rl_MaxRSS l <? sm_RSS s.
Definition cpu_enabled (l : ResourceLimits) : bool := f64_gtb (rl_MaxCPUPercent l) f64_zero.
Definition cpu_breach (l : ResourceLimits) (s : Sample) : bool := f64_gtb (sm_CPUPercent s) (rl_MaxCPUPercent l).

Definition rss_action (id : string) (l : ResourceLimits) (s : Sample) : Action :=
  mkAction id "rss" (f64_of_Z (sm_RSS s)) (f64_of_Z (rl_MaxRSS l)) (rl_OnExceed l).
Definition cpu_action (id : string) (l : ResourceLimits) (s : Sample) : Action :=
  mkAction id "cpu" (sm_CPUPercent s) (rl_MaxCPUPercent l) (rl_OnExceed l).

(** Stores a count, [None] if there is none. *)
Definition put_count (id : string) (c : option Z) (m : gmap string Z) : gmap string Z :=
  match c with Some n => <[id := n]> m | None => m end.

(** [Evaluate]: the actions the callback is called with, in order. *)
Definition Evaluate (id : string) (s : Sample) (e : Evaluator) : Evaluator * list Action :=
  match ev_limits e !! id with
  | None => (e, [])
  | Some l =>
      let '(rc, rf) := check_breach (rss_enabled l) (rss_breach l s) (eo_RSSBreachThreshold (ev_opts e)) (ev_rssCount e !! id) in
      let '(cc, cf) := check_breach (cpu_enabled l) (cpu_breach l s) (eo_CPUBreachThreshold (ev_opts e)) (ev_cpuCount e !! id) in
      (mkEval (ev_opts e) (ev_limits e) (put_count id rc (ev_rssCount e)) (put_count id cc (ev_cpuCount e)),
       if eo_OnAction (ev_opts e)
       then (if rf then [rss_action id l s] else []) ++ (if cf then [cpu_action id l s] else []) else [])
  end.

(** ** The monitor: monitor.go *)

(** [mop_Source] and the collectors may be nil. *)
Record MonitorOptions := mkMonOpts {
  mop_Interval : Z; mop_Source : bool; mop_ProcessCollector : bool; mop_SystemCollector : bool;
  mop_OnSample : bool; mop_OnSystem : bool }.

Inductive mon_event := OnSample (id : string) (s : Sample) | OnSystem (s : SystemSample).

(** [tick]: [pids] is what the source's map gives, in its iteration order;
    [collect] and [system]: what the collectors answer. *)
Definition tick (o : MonitorOptions) (pids : list (string * Z)) (collect : Z → option Sample)
    (system : option SystemSample) : list mon_event :=
  if negb (mop_Source o) then []
  else
    omap (λ x, if (x.2 <=? 0) || negb (mop_ProcessCollector o) then None
               else match collect x.2 with
                    | None => None
                    | Some s => if mop_OnSample o then Some (OnSample x.1 s) else None
                    end) pids ++
    (if mop_SystemCollector o then
       match system with Some s => if mop_OnSystem o then [OnSystem s] else [] | None => [] end
     else []).

(** [mn_once]: [Start] ran; [mn_loop]: the goroutine runs; [mn_stopped]: the
    channel is closed; closing it again panics. *)
Record Monitor := mkMonitor { mn_opts : MonitorOptions; mn_once : bool; mn_loop : bool; mn_stopped : bool; mn_panic : bool }.

Definition NewMonitor (o : MonitorOptions) : Monitor :=
  mkMonitor (mkMonOpts (if mop_Interval o <=? 0 then 5 * 1000000000 else mop_Interval o) (mop_Source o)
    (mop_ProcessCollector o) (mop_SystemCollector o) (mop_OnSample o) (mop_OnSystem o)) false false false false.

Definition Monitor_Start (m : Monitor) : Monitor :=
  if mn_once m then m else mkMonitor (mn_opts m) true true (mn_stopped m) (mn_panic m).

(** [Stop] up to its wait, and whether the wait is over. *)
Definition Monitor_Stop_begin (m : Monitor) : Monitor :=
  if mn_stopped m then mkMonitor (mn_opts m) (mn_once m) (mn_loop m) true true
  else mkMonitor (mn_opts m) (mn_once m) (mn_loop m) true (mn_panic m).
Definition Monitor_Stop_done (m : Monitor) : bool := negb (mn_loop m).

(** One turn of [loop]: the select takes the stop case ([stop = true], only
    when the channel is closed) or a tick. *)
Definition loop_step (stop : bool) (pids : list (string * Z)) (collect : Z → option Sample)
    (system : option SystemSample) (m : Monitor) : Monitor * list mon_event :=
  if negb (mn_loop m) then (m, [])
  else if stop then
    if mn_stopped m then (mkMonitor (mn_opts m) (mn_once m) false true (mn_panic m), []) else (m, [])
  else (m, tick (mn_opts m) pids collect system).

(** ** Runs of the evaluator *)

Inductive eval_op := EvRegister (id : string) (l : ResourceLimits) | EvUnregister (id : string) | EvSample (id : string) (s : Sample).

Definition eval_step (e : Evaluator) (op : eval_op) : Evaluator * list Action :=
  match op with
  | EvRegister id l => (RegisterLimits id l e, [])
  | EvUnregister id => (Unregister id e, [])
  | EvSample id s => Evaluate id s e
  end.

(** The samples of one process. *)
Definition sample_of (id : string) (op : eval_op) : option Sample :=
  match op with EvSample i s => if decide (i = id) then Some s else None | _ => None end.
(** The limits of [id] stay as they are. *)
Definition keeps_limits (id : string) (op : eval_op) : Prop :=
  match op with EvRegister i _ | EvUnregister i => i ≠ id | EvSample _ _ => True end.

(** The reference: the number of breaches at the end of a list, and whether it
    is a positive multiple of the threshold. *)
Definition breach_run (bs : list bool) : Z := foldl (λ n b, if (b : bool) then n + 1 else 0) 0 bs.
Definition fires (threshold : Z) (bs : list bool) : bool :=
  (0 <? breach_run bs) && (breach_run bs mod threshold =? 0).

(** The actions due at a sample, given the samples before it. *)
Definition actions_at (id : string) (l : ResourceLimits) (tr tc : Z) (before : list Sample) (s : Sample) : list Action :=
  (if rss_enabled l && fires tr (rss_breach l <$> before ++ [s]) then [rss_action id l s] else []) ++
  (if cpu_enabled l && fires tc (cpu_breach l <$> before ++ [s]) then [cpu_action id l s] else []).
Definition expected_actions (id : string) (l : ResourceLimits) (tr tc : Z) (ss : list Sample) : list Action :=
  concat (imap (λ i s, actions_at id l tr tc (take i ss) s) ss).

Lemma breach_run_snoc bs b : breach_run (bs ++ [b]) = if b then breach_run bs + 1 else 0.
Proof. unfold breach_run. by rewrite foldl_app. Qed.
Lemma breach_run_nonneg bs : 0 ≤ breach_run bs.
Proof. induction bs as [|b bs IH] using rev_ind; [done|]. rewrite breach_run_snoc. destruct b; lia. Qed.

Lemma expected_snoc id l tr tc ss s :
  expected_actions id l tr tc (ss ++ [s]) = expected_actions id l tr tc ss ++ actions_at id l tr tc ss s.
Proof.
  unfold expected_actions. rewrite imap_app, concat_app. f_equal.
  - f_equal. apply imap_ext. intros i x Hx%lookup_lt_Some. by rewrite take_app_le by lia.
  - simpl. rewrite app_nil_r, Nat.add_0_r, take_app_le, take_ge by lia. done.
Qed.

(** One check follows the reference. *)
Lemma check_breach_run enabled (bs : list bool) (b : bool) (t : Z) (c : option Z) :
  0 < t → (if (enabled : bool) then default 0 c = breach_run bs mod t else c = None) →
  let '(c', f) := check_breach enabled b t c in
  f = enabled && fires t (bs ++ [b]) ∧
  (if enabled then default 0 c' = breach_run (bs ++ [b]) mod t else c' = None) ∧ (c' = None → c = None).
Proof.
  intros Ht Hc. unfold check_breach, fires. destruct enabled; simpl; [|done]. rewrite breach_run_snoc.
  pose proof (breach_run_nonneg bs). destruct b; simpl; [|by rewrite Zmod_0_l].
  rewrite Hc. pose proof (Z.mod_pos_bound (breach_run bs) t Ht).
  assert ((breach_run bs + 1) mod t = if t <=? breach_run bs mod t + 1 then 0 else breach_run bs mod t + 1) as ->.
  { rewrite <- Zplus_mod_idemp_l. destruct (Z.leb_spec t (breach_run bs mod t + 1)).
    - replace (breach_run bs mod t + 1) with t by lia. apply Z_mod_same_full.
    - apply Z.mod_small. lia. }
  rewrite (proj2 (Z.ltb_lt 0 _)) by lia. simpl.
  destruct (t <=? breach_run bs mod t + 1) eqn:E; simpl; [done|].
  split; [|done]. symmetry. apply Z.eqb_neq. lia.
Qed.

Lemma put_count_default id c (m : gmap string Z) :
  (c = None → m !! id = None) → put_count id c m !! id = c.
Proof. intros H. destruct c; simpl; [by rewrite lookup_insert_eq|auto]. Qed.
Lemma put_count_ne id i c (m : gmap string Z) : i ≠ id → put_count id c m !! i = m !! i.
Proof. intros. destruct c; simpl; [by rewrite lookup_insert_ne|done]. Qed.

Definition count_ok (enabled : bool) (t : Z) (bs : list bool) (c : option Z) : Prop :=
  if enabled then default 0 c = breach_run bs mod t else c = None.

Record eval_inv (id : string) (l : ResourceLimits) (o : EvaluatorOptions) (e : Evaluator) (ss : list Sample) : Prop := mkEvalInv {
  ei_opts : ev_opts e = o;
  ei_limits : ev_limits e !! id = Some l;
  ei_rss : count_ok (rss_enabled l) (eo_RSSBreachThreshold o) (rss_breach l <$> ss) (ev_rssCount e !! id);
  ei_cpu : count_ok (cpu_enabled l) (eo_CPUBreachThreshold o) (cpu_breach l <$> ss) (ev_cpuCount e !! id) }.

Definition about (id : string) (acts : list Action) : list Action := filter (λ a, ac_ProcessID a = id) acts.

Lemma about_own id l s (rf cf : bool) :
  about id ((if rf then [rss_action id l s] else []) ++ (if cf then [cpu_action id l s] else [])) =
  (if rf then [rss_action id l s] else []) ++ (if cf then [cpu_action id l s] else []).
Proof. apply filter_all. apply Forall_app. destruct rf, cf; repeat constructor. Qed.

Lemma about_other id i l s (rf cf : bool) : i ≠ id →
  about id ((if rf then [rss_action i l s] else []) ++ (if cf then [cpu_action i l s] else [])) = [].
Proof.
  intros. unfold about. rewrite filter_app.
  destruct rf, cf; rewrite ?filter_cons, ?decide_False, ?filter_nil by done; done.
Qed.

Lemma eval_step_inv id l o e ss op :
  0 < eo_RSSBreachThreshold o → 0 < eo_CPUBreachThreshold o → eo_OnAction o = true →
  eval_inv id l o e ss → keeps_limits id op →
  eval_inv id l o (eval_step e op).1 (ss ++ omap (sample_of id) [op]) ∧
  about id (eval_step e op).2 =
    concat ((λ s, actions_at id l (eo_RSSBreachThreshold o) (eo_CPUBreachThreshold o) ss s) <$> omap (sample_of id) [op]).
Proof.
  intros Ht1 Ht2 Hon [Ho Hl Hr Hc] Hk. destruct op as [i l'|i|i s]; simpl in *.
  - rewrite app_nil_r. split; [|done]. split; simpl; try done. by rewrite lookup_insert_ne.
  - rewrite app_nil_r. split; [|done]. split; simpl; rewrite ?lookup_delete_ne by done; done.
  - unfold Evaluate. destruct (decide (i = id)) as [->|Hne]; simpl.
    + rewrite Hl, Ho. pose proof (check_breach_run (rss_enabled l) _ (rss_breach l s) _ _ Ht1 Hr) as H1.
      pose proof (check_breach_run (cpu_enabled l) _ (cpu_breach l s) _ _ Ht2 Hc) as H2.
      destruct (check_breach (rss_enabled l) _ _ _) as [rc rf], (check_breach (cpu_enabled l) _ _ _) as [cc cf].
      destruct H1 as (-> & H1 & H1'), H2 as (-> & H2 & H2'). simpl. rewrite Hon, app_nil_r. split.
      * split; simpl; try done; rewrite fmap_app; simpl.
        -- by rewrite put_count_default.
        -- by rewrite put_count_default.
      * unfold actions_at. rewrite !fmap_app. by rewrite about_own.
    + rewrite app_nil_r. destruct (ev_limits e !! i) as [l'|]; [|done].
      destruct (check_breach _ _ _ _) as [rc rf], (check_breach _ _ _ _) as [cc cf]. simpl. rewrite Ho, Hon, about_other by done.
      split; [|done]. split; simpl; rewrite ?put_count_ne by done; done.
Qed.

(** C37: the evaluator.  Register limits for a process the evaluator has no
    counts for.  Whatever samples of this and other processes follow, and
    whatever limits of other processes are registered and removed, the actions
    reported for the process are exactly those of the reference: an action for
    a resource with each sample that completes a run of consecutive breaches
    whose length is a multiple of the threshold, memory before CPU, and nothing
    for a resource without a limit. *)
Theorem evaluator_fires_on_sustained_breach (id : string) (l : ResourceLimits) (e0 : Evaluator) (ops : list eval_op)
    (Hth : 0 < eo_RSSBreachThreshold (ev_opts e0) ∧ 0 < eo_CPUBreachThreshold (ev_opts e0))
    (Hon : eo_OnAction (ev_opts e0) = true)
    (Hnew : ev_rssCount e0 !! id = None ∧ ev_cpuCount e0 !! id = None)
    (Hops : Forall (keeps_limits id) ops) :
  about id (run_trace eval_step (RegisterLimits id l e0) ops).2 =
  expected_actions id l (eo_RSSBreachThreshold (ev_opts e0)) (eo_CPUBreachThreshold (ev_opts e0)) (omap (sample_of id) ops).
Proof.
  set (o := ev_opts e0) in *. destruct Hth as [Ht1 Ht2], Hnew as [Hn1 Hn2].
  assert (eval_inv id l o (run_trace eval_step (RegisterLimits id l e0) ops).1 (omap (sample_of id) ops) ∧
    about id (run_trace eval_step (RegisterLimits id l e0) ops).2 =
    expected_actions id l (eo_RSSBreachThreshold o) (eo_CPUBreachThreshold o) (omap (sample_of id) ops)) as [_ H]; [|done].
  induction ops as [|op ops IH] using rev_ind; simpl.
  - split; [|done]. split; simpl; [done|by rewrite lookup_insert_eq|..]; unfold count_ok;
      [destruct (rss_enabled l)|destruct (cpu_enabled l)]; rewrite ?Hn1, ?Hn2; done.
  - apply Forall_app in Hops as [Hops [Hop _]%Forall_cons]. specialize (IH Hops). rewrite run_trace_app.
    destruct (run_trace eval_step _ ops) as [e1 a1]. destruct IH as [Hinv Ha]. simpl in Hinv, Ha.
    destruct (eval_step_inv id l o e1 _ op Ht1 Ht2 Hon Hinv Hop) as [H1 H2]. cbn [run_trace].
    destruct (eval_step e1 op) as [e2 a2]. simpl in *. rewrite omap_app. split; [done|].
    unfold about in *. rewrite app_nil_r, filter_app, Ha, H2. simpl.
    destruct (sample_of id op) as [s|]; simpl; [by rewrite expected_snoc, app_nil_r|by rewrite !app_nil_r].
Qed.

Definition ex_limits : ResourceLimits := mkLimits 100 (S754_zero false) ExceedKill.
Definition ex_sample (rss : Z) : Sample := mkSample 7 rss 0 f64_zero 1 3 0.

Lemma evaluator_fires_on_sustained_breach_witness :
  length (run_trace eval_step (RegisterLimits "p" ex_limits (NewEvaluator (mkEvalOpts true 0 0)))
    [EvSample "p" (ex_sample 101); EvSample "p" (ex_sample 102); EvSample "q" (ex_sample 1); EvSample "p" (ex_sample 103)]).2 = 1%nat ∧
  about "p" (run_trace eval_step (RegisterLimits "p" ex_limits (NewEvaluator (mkEvalOpts true 0 0)))
    [EvSample "p" (ex_sample 101); EvSample "p" (ex_sample 102); EvSample "q" (ex_sample 1); EvSample "p" (ex_sample 103)]).2 =
  expected_actions "p" ex_limits 3 10 [ex_sample 101; ex_sample 102; ex_sample 103].
Proof.
  split; [reflexivity|].
  apply (evaluator_fires_on_sustained_breach "p" ex_limits (NewEvaluator (mkEvalOpts true 0 0))
    [EvSample "p" (ex_sample 101); EvSample "p" (ex_sample 102); EvSample "q" (ex_sample 1); EvSample "p" (ex_sample 103)]);
    [split; reflexivity|reflexivity|split; reflexivity|repeat constructor].
Defined.
