(* ===== verification/Collectors.v ===== *)
(** * What the collectors read: internal/resource/collector_linux.go,
    collector_darwin.go, collector_windows.go

    The texts of /proc and of vm_stat are arguments; the functions of
    [strings], [bufio] and [strconv] that take them apart are modelled on the
    bytes. *)

From Stdlib Require Import Floats.SpecFloat.
From S2P Require Import Prelude Text CwTypes Config Resource.

(** ** [strings.Fields], [strings.LastIndex], [bufio.Scanner], [strconv] *)

Definition flush (cur : list ascii) : list (list ascii) := match cur with [] => [] | _ => [cur] end.

Fixpoint fields (fuel : nat) (cur l : list ascii) : list (list ascii) :=
  match fuel, l with
  | O, _ | _, [] => flush cur
  | S fuel', c :: l' =>
      match strip_any space_tokens l with
      | Some r => flush cur ++ fields fuel' [] r
      | None => fields fuel' (cur ++ [c]) l'
      end
  end.
Definition Fields (l : list ascii) : list (list ascii) := fields (length l) [] l.

(** What follows the last [c]. *)
Fixpoint after_last (c : ascii) (l : list ascii) : option (list ascii) :=
  match l with
  | [] => None
  | x :: l' => match after_last c l' with
               | Some r => Some r
               | None => if Ascii.eqb x c then Some l' else None
               end
  end.

Definition newline : ascii := ch 10.
Definition cr : ascii := ch 13.

(** [strings.Split(s, "\n")]. *)
Fixpoint split_on (c : ascii) (l : list ascii) : list (list ascii) :=
  match l with
  | [] => [[]]
  | x :: l' =>
      if Ascii.eqb x c then [] :: split_on c l'
      else match split_on c l' with y :: ys => (x :: y) :: ys | [] => [[x]] end
  end.

(** A line of [bufio.ScanLines] loses one carriage return at its end. *)
Definition drop_cr (l : list ascii) : list ascii :=
  match reverse l with x :: r => if Ascii.eqb x cr then reverse r else l | [] => [] end.

(** The tokens a [bufio.Scanner] delivers before it meets the end, or a line
    longer than its buffer. *)
Definition max_token : nat := Z.to_nat (64 * 1024).
Fixpoint scan (pieces : list (list ascii)) : list (list ascii) :=
  match pieces with
  | [] => []
  | [last] => if (length last =? 0)%nat || (max_token <=? length last)%nat then [] else [drop_cr last]
  | p :: ps => if (max_token <=? length p)%nat then [] else drop_cr p :: scan ps
  end.
Definition ScanLines (l : list ascii) : list (list ascii) := scan (split_on newline l).

(** [strconv.ParseUint(s, 10, 64)]: the value and whether the error is nil; a
    value out of range gives the maximum. *)
Definition parse_uint (s : list ascii) : Z * bool :=
  match s with
  | [] => (0, false)
  | _ => if forallb is_digit s then
           if dec_val s <? 2 ^ 64 then (dec_val s, true) else (2 ^ 64 - 1, false)
         else (0, false)
  end.

(** [strconv.Atoi]. *)
Definition atoi (s : list ascii) : Z * bool :=
  let '(neg, ds) := match s with
                    | c :: r => if Ascii.eqb c "-" then (true, r) else if Ascii.eqb c "+" then (false, r) else (false, s)
                    | [] => (false, [])
                    end in
  match ds with
  | [] => (0, false)
  | _ => if forallb is_digit ds then
           let v := dec_val ds in
           if neg then if v <=? 2 ^ 63 then (- v, true) else (- 2 ^ 63, false)
           else if v <? 2 ^ 63 then (v, true) else (2 ^ 63 - 1, false)
         else (0, false)
  end.

Fixpoint contains (sub l : list ascii) : bool :=
  match strip sub l with
  | Some _ => true
  | None => match l with [] => false | _ :: l' => contains sub l' end
  end.
Definition has_prefix (p l : list ascii) : bool := match strip p l with Some _ => true | None => false end.

(** ** Linux *)

Inductive collect_err := ErrReadStat | ErrMalformedStat | ErrShortStat | ErrNotImplemented | ErrOpenMeminfo | ErrPs | ErrPsShort.

(** What /proc holds of a process: stat, status, and the entries of fd. *)
Record proc_files := mkProc { pf_stat : option string; pf_status : option string; pf_fds : option nat }.

(** The loop over the lines of status: the first [VmSize:] line decides. *)
Fixpoint vm_size (lines : list (list ascii)) : Z :=
  match lines with
  | [] => 0
  | line :: lines' =>
      if has_prefix (chars "VmSize:") line then
        match Fields line with
        | _ :: kb :: _ => let '(v, ok) := parse_uint kb in if ok then u64 (v * 1024) else 0
        | _ => 0
        end
      else vm_size lines'
  end.

Definition linux_Collect (pagesize now pid : Z) (f : proc_files) : result collect_err Sample :=
  match pf_stat f with
  | None => Err ErrReadStat
  | Some raw =>
      match after_last ")" (chars raw) with
      | None => Err ErrMalformedStat
      | Some rest =>
          let fs := Fields rest in
          match fs !! 21%nat, fs !! 17%nat with
          | Some rss, Some threads =>
              Ok (mkSample pid (u64 ((parse_uint rss).1 * pagesize))
                    (match pf_status f with Some s => vm_size (ScanLines (chars s)) | None => 0 end)
                    f64_zero (atoi threads).1 (match pf_fds f with Some n => Z.of_nat n | None => 0 end) now)
          | _, _ => Err ErrShortStat
          end
      end
  end.

(** The loop over the lines of /proc/meminfo: the totals so far. *)
Fixpoint meminfo (total available : Z) (lines : list (list ascii)) : Z * Z :=
  match lines with
  | [] => (total, available)
  | line :: lines' =>
      match Fields line with
      | key :: v :: _ =>
          let '(val, ok) := parse_uint v in
          if negb ok then meminfo total available lines'
          else if decide (key = chars "MemTotal:") then meminfo (u64 (val * 1024)) available lines'
          else if decide (key = chars "MemAvailable:") then meminfo total (u64 (val * 1024)) lines'
          else meminfo total available lines'
      | _ => meminfo total available lines'
      end
  end.

(** The two load averages; [parse_float] is [strconv.ParseFloat] and whether it
    gave no error.  An average that does not parse stays zero. *)
Definition load_average (parse_float : list ascii → spec_float * bool) (parts : list (list ascii)) : spec_float * spec_float :=
  match parts with
  | a :: b :: _ => (if (parse_float a).2 then (parse_float a).1 else f64_zero,
                    if (parse_float b).2 then (parse_float b).1 else f64_zero)
  | _ => (f64_zero, f64_zero)
  end.

(** The memory part of the system sample. *)
Definition linux_memory (file : option string) : result collect_err (Z * Z) :=
  match file with
  | None => Err ErrOpenMeminfo
  | Some s => Ok (meminfo 0 0 (ScanLines (chars s)))
  end.

(** A sample comes with the error even if meminfo cannot be opened. *)
Definition linux_system_Collect (parse_float : list ascii → spec_float * bool) (ncpu now : Z) (mem loadavg : option string)
    : SystemSample * option collect_err :=
  match linux_memory mem with
  | Err e => (mkSystemSample 0 0 f64_zero f64_zero ncpu now, Some e)
  | Ok (total, available) =>
      let '(l1, l5) := match loadavg with
                       | Some b => load_average parse_float (Fields (chars b))
                       | None => (f64_zero, f64_zero)
                       end in
      (mkSystemSample total available l1 l5 ncpu now, None)
  end.

(** ** macOS *)

(** The fields of ps: resident and virtual kilobytes and the percentage; [ps]:
    its output, if it succeeded.  A number that does not parse counts as what
    the parser returns with its error. *)
Definition darwin_Collect (parse_float : list ascii → spec_float * bool) (now pid : Z) (ps : option string)
    : result collect_err Sample :=
  match ps with
  | None => Err ErrPs
  | Some out =>
      match Fields (TrimSpace (chars out)) with
      | rss :: vsz :: cpu :: _ =>
          Ok (mkSample pid (u64 ((parse_uint rss).1 * 1024)) (u64 ((parse_uint vsz).1 * 1024)) (parse_float cpu).1 0 0 now)
      | _ => Err ErrPsShort
      end
  end.

(** [strings.TrimRight(s, ".")]. *)
Fixpoint trim_dots (l : list ascii) : list ascii :=
  match l with [] => [] | c :: l' => if Ascii.eqb c "." then trim_dots l' else l end.

Definition extractVMStatValue (line : list ascii) : Z :=
  match reverse (Fields line) with
  | lst :: _ :: _ => (parse_uint (reverse (trim_dots (reverse lst)))).1
  | _ => 0
  end.

Fixpoint vm_stat_pages (free inactive speculative : Z) (lines : list (list ascii)) : Z :=
  match lines with
  | [] => u64 (free + inactive + speculative)
  | line :: lines' =>
      if contains (chars "Pages free:") line then vm_stat_pages (extractVMStatValue line) inactive speculative lines'
      else if contains (chars "Pages inactive:") line then vm_stat_pages free (extractVMStatValue line) speculative lines'
      else if contains (chars "Pages speculative:") line then vm_stat_pages free inactive (extractVMStatValue line) lines'
      else vm_stat_pages free inactive speculative lines'
  end.

Definition parseVMStat (output : string) : Z :=
  u64 (vm_stat_pages 0 0 0 (split_on newline (chars output)) * 4096).

(** [strings.Trim(s, "{}")]. *)
Fixpoint trim_braces (l : list ascii) : list ascii :=
  match l with [] => [] | c :: l' => if Ascii.eqb c "{" || Ascii.eqb c "}" then trim_braces l' else l end.

(** The outputs of the three commands, of those that succeeded. *)
Definition darwin_system_Collect (parse_float : list ascii → spec_float * bool) (ncpu now : Z)
    (memsize vmstat loadavg : option string) : SystemSample :=
  let total := match memsize with
               | Some out => let '(v, ok) := parse_uint (TrimSpace (chars out)) in if ok then v else 0
               | None => 0
               end in
  let available := match vmstat with Some out => parseVMStat out | None => 0 end in
  let '(l1, l5) := match loadavg with
                   | Some out => load_average parse_float
                       (Fields (reverse (trim_braces (reverse (trim_braces (TrimSpace (chars out)))))))
                   | None => (f64_zero, f64_zero)
                   end in
  mkSystemSample total available l1 l5 ncpu now.

(** ** Windows *)

Definition windows_Collect (now pid : Z) : Sample * option collect_err :=
  (mkSample pid 0 0 f64_zero 0 0 now, Some ErrNotImplemented).
Definition windows_system_Collect (now ncpu : Z) : SystemSample * option collect_err :=
  (mkSystemSample 0 0 f64_zero f64_zero ncpu now, Some ErrNotImplemented).

Example darwin_ps_text :
  darwin_Collect (λ l, (f64_of_Z (dec_val l), true)) 5 42 (Some (of_chars (chars "  2048 4096   7" ++ [newline]))) =
  Ok (mkSample 42 2097152 4194304 (f64_of_Z 7) 0 0 5).
Proof. vm_compute. reflexivity. Qed.
Example darwin_loadavg_text :
  let s := darwin_system_Collect (λ l, (f64_of_Z (dec_val l), true)) 8 5 (Some (of_chars (chars "1024" ++ [newline]))) None (Some "{ 3 2 1 }"%string) in
  (ss_TotalMemory s, ss_LoadAvg1 s, ss_LoadAvg5 s) = (1024, f64_of_Z 3, f64_of_Z 2).
Proof. vm_compute. reflexivity. Qed.

Example vm_stat_text : parseVMStat (of_chars (
  chars "Mach Virtual Memory Statistics: (page size of 16384 bytes)" ++ [newline] ++
  chars "Pages free:                  100." ++ [newline] ++ chars "Pages inactive:   20." ++ [newline] ++
  chars "Pages speculative:  3." ++ [newline])) = 123 * 4096.
Proof. vm_compute. reflexivity. Qed.

(** ** Taking lines apart *)

Definition word (w : list ascii) : Prop := w ≠ [] ∧ forallb solid w = true.

Lemma fields_word w fuel cur x :
  forallb solid w = true → (length w ≤ fuel)%nat → fields fuel cur (w ++ x) = fields (fuel - length w) (cur ++ w) x.
Proof.
  revert fuel cur. induction w as [|c w IH]; intros fuel cur Hw Hf; simpl.
  - by rewrite Nat.sub_0_r, app_nil_r.
  - simpl in Hw, Hf. apply andb_true_iff in Hw as [Hc Hw]. destruct fuel as [|fuel]; [lia|].
    cbn [fields]. rewrite solid_head by done. rewrite IH by (done || lia). simpl. by rewrite <- app_assoc.
Qed.

Lemma fields_space t fuel cur x :
  t ∈ space_tokens → (length t ≤ fuel)%nat →
  ∃ fuel', (fuel - length t ≤ fuel')%nat ∧ fields fuel cur (t ++ x) = flush cur ++ fields fuel' [] x.
Proof.
  intros Ht Hf. pose proof (tokens_ok_nonempty _ _ space_tokens_ok Ht). destruct t as [|c t]; [done|].
  destruct fuel as [|fuel]; [simpl in Hf; lia|]. exists fuel. split; [simpl; lia|].
  simpl app. cbn [fields]. change (c :: t ++ x) with ((c :: t) ++ x). by rewrite (strip_any_app _ _ _ space_tokens_ok Ht).
Qed.

(** Words, each followed by one space character. *)
Lemma fields_words (segs : list (list ascii * list ascii)) fuel :
  Forall (λ s, word s.1 ∧ s.2 ∈ space_tokens) segs →
  (length (concat ((λ s, s.1 ++ s.2) <$> segs)) ≤ fuel)%nat →
  fields fuel [] (concat ((λ s, s.1 ++ s.2) <$> segs)) = segs.*1.
Proof.
  intros H. revert fuel. induction H as [|[w t] segs [[Hw Hs] Ht] _ IH]; intros fuel Hf.
  - by destruct fuel.
  - rewrite fmap_cons in *. cbn [concat fst snd] in *. rewrite !length_app in Hf.
    rewrite <- !app_assoc, fields_word by (done || lia). cbn [app].
    destruct (fields_space t (fuel - length w) w (concat ((λ s, s.1 ++ s.2) <$> segs)) Ht) as (fuel' & Hf' & ->); [lia|].
    rewrite IH by lia. by destruct w.
Qed.

Lemma Fields_words (segs : list (list ascii * list ascii)) (sp : list ascii) :
  sp ∈ space_tokens → Forall (λ s, word s.1 ∧ s.2 ∈ space_tokens) segs →
  Fields (sp ++ concat ((λ s, s.1 ++ s.2) <$> segs)) = segs.*1.
Proof.
  intros Hsp H. unfold Fields. destruct (fields_space sp (length (sp ++ concat ((λ s, s.1 ++ s.2) <$> segs))) []
    (concat ((λ s, s.1 ++ s.2) <$> segs)) Hsp) as (fuel' & Hf & ->); rewrite length_app in *; [lia|].
  simpl. apply fields_words; [done|lia].
Qed.

Lemma after_last_app c l r : c ∉ r → after_last c (l ++ c :: r) = Some r.
Proof.
  intros Hr. assert (after_last c r = None) as Hn.
  { induction r as [|x r IH]; [done|]. simpl. rewrite IH by set_solver.
    destruct (Ascii.eqb_spec x c) as [->|]; [set_solver|done]. }
  induction l as [|x l IH]; simpl; [by rewrite Hn, Ascii.eqb_refl|by rewrite IH].
Qed.

(** ** Decimal numerals *)

Lemma dec_val_snoc a c : dec_val (a ++ [c]) = dec_val a * 10 + digit_val c.
Proof. unfold dec_val. by rewrite foldl_app. Qed.

Lemma dec_val_app a b : dec_val (a ++ b) = dec_val a * 10 ^ Z.of_nat (length b) + dec_val b.
Proof.
  induction b as [|c b IH] using rev_ind; [rewrite app_nil_r; unfold dec_val; simpl; lia|].
  rewrite app_assoc, !dec_val_snoc, IH, length_app. simpl.
  replace (Z.of_nat (length b + 1)) with (Z.of_nat (length b) + 1) by lia. rewrite Z.pow_add_r by lia. lia.
Qed.

Lemma digit_val_pretty (x : N) : (x < 10)%N → digit_val (pretty_N_char x) = Z.of_N x.
Proof.
  intros H. assert (x = 0 ∨ x = 1 ∨ x = 2 ∨ x = 3 ∨ x = 4 ∨ x = 5 ∨ x = 6 ∨ x = 7 ∨ x = 8 ∨ x = 9)%N as Hx by lia.
  by destruct Hx as [->|[->|[->|[->|[->|[->|[->|[->|[->| ->]]]]]]]]].
Qed.

Lemma dec_val_pretty_go (x : N) s :
  dec_val (chars (pretty_N_go x s)) = Z.of_N x * 10 ^ Z.of_nat (length (chars s)) + dec_val (chars s).
Proof.
  revert s. induction (N.lt_wf_0 x) as [x _ IH]; intros s.
  destruct (decide (x = 0)%N) as [->|]; [rewrite pretty_N_go_0; simpl; lia|].
  rewrite pretty_N_go_step by lia. rewrite IH by (apply N.div_lt; lia).
  change (chars (String (pretty_N_char (x `mod` 10)) s)) with ([pretty_N_char (x `mod` 10)] ++ chars s).
  rewrite length_app, dec_val_app. simpl length. unfold dec_val at 1. simpl foldl.
  rewrite digit_val_pretty by (apply N.mod_lt; lia).
  pose proof (N.div_mod x 10 ltac:(lia)) as Hx. replace (Z.of_nat (1 + length (chars s))) with (1 + Z.of_nat (length (chars s))) by lia.
  rewrite Z.pow_add_r by lia. nia.
Qed.

Lemma dec_val_pretty (n : N) : dec_val (chars (pretty n)) = Z.of_N n.
Proof.
  unfold pretty, pretty_N. case_decide as H; [by subst|]. rewrite dec_val_pretty_go. unfold dec_val. simpl. lia.
Qed.

Lemma pretty_Z_pos (n : Z) : 0 < n → pretty n = pretty (Z.to_N n).
Proof. intros H. unfold pretty, pretty_Z. destruct n; [lia|done|lia]. Qed.

Lemma parse_uint_pretty (n : N) : Z.of_N n < 2 ^ 64 → parse_uint (chars (pretty n)) = (Z.of_N n, true).
Proof.
  intros H. unfold parse_uint. pose proof (pretty_N_digits n) as Hd. pose proof (dec_val_pretty n) as Hv.
  destruct (chars (pretty n)) as [|c l] eqn:E.
  - exfalso. apply (f_equal of_chars) in E. rewrite of_chars_of in E. revert E. unfold pretty, pretty_N.
    case_decide as Hz; [done|]. intros E. assert (dec_val (chars (pretty_N_go n "")) = 0) as H0 by (by rewrite E).
    rewrite dec_val_pretty_go in H0. unfold dec_val in H0. simpl in H0. lia.
  - rewrite Hd, Hv. by rewrite (proj2 (Z.ltb_lt _ _)).
Qed.

Lemma atoi_pretty (n : N) : Z.of_N n < 2 ^ 63 → atoi (chars (pretty n)) = (Z.of_N n, true).
Proof.
  intros H. pose proof (parse_uint_pretty n ltac:(lia)) as Hp. pose proof (pretty_N_digits n) as Hd.
  pose proof (dec_val_pretty n) as Hv. unfold atoi. destruct (chars (pretty n)) as [|c l]; [done|].
  assert (is_digit c = true) as Hc by (simpl in Hd; by apply andb_true_iff in Hd as [? _]).
  destruct (Ascii.eqb_spec c "-") as [->|]; [done|]. destruct (Ascii.eqb_spec c "+") as [->|]; [done|].
  rewrite Hd, Hv. by rewrite (proj2 (Z.ltb_lt _ _)).
Qed.

(** ** Properties *)

(** Reading /proc/<pid>/stat.  Whatever the command name in the line
    contains (spaces, parentheses, anything), as long as the fields after it
    are words without a closing parenthesis, separated by white space, the
    sample's memory is the 24th field of the line times the page size modulo
    2^64 and its thread count the 20th; a line with fewer fields or without a
    closing parenthesis is an error. *)
Theorem linux_stat_parsed (pagesize now pid : Z) (f : proc_files) (name : list ascii)
    (segs : list (list ascii * list ascii)) (rss threads : N)
    (Hstat : pf_stat f = Some (of_chars (name ++ ")"%char :: " "%char :: concat ((λ s, s.1 ++ s.2) <$> segs))))
    (Hsegs : Forall (λ s, word s.1 ∧ s.2 ∈ space_tokens) segs)
    (Hparen : ")"%char ∉ concat ((λ s, s.1 ++ s.2) <$> segs))
    (Hrss : segs.*1 !! 21%nat = Some (chars (pretty rss))) (Hthreads : segs.*1 !! 17%nat = Some (chars (pretty threads)))
    (Hrange : Z.of_N rss < 2 ^ 64 ∧ Z.of_N threads < 2 ^ 63) :
  ∃ s, linux_Collect pagesize now pid f = Ok s ∧ sm_PID s = pid ∧
    sm_RSS s = u64 (Z.of_N rss * pagesize) ∧ sm_NumThreads s = Z.of_N threads ∧
    (∀ f', pf_stat f' = Some (of_chars (name ++ ")"%char :: " "%char :: concat ((λ s, s.1 ++ s.2) <$> take 21 segs))) →
       linux_Collect pagesize now pid f' = Err ErrShortStat) ∧
    (∀ f' raw, pf_stat f' = Some raw → ")"%char ∉ chars raw → linux_Collect pagesize now pid f' = Err ErrMalformedStat).
Proof.
  assert ([" "%char] ∈ space_tokens) as Hsp by (apply (bool_decide_unpack _); vm_compute; exact I).
  assert (∀ segs', Forall (λ s, word s.1 ∧ s.2 ∈ space_tokens) segs' → ")"%char ∉ concat ((λ s, s.1 ++ s.2) <$> segs') →
    ∃ rest, after_last ")" (chars (of_chars (name ++ ")"%char :: " "%char :: concat ((λ s, s.1 ++ s.2) <$> segs')))) = Some rest ∧
      Fields rest = segs'.*1) as Hline.
  { intros segs' Hs' Hp'. eexists. split; [|by apply (Fields_words _ _ Hsp Hs')].
    rewrite chars_of. apply after_last_app. apply not_elem_of_cons. done. }
  destruct Hrange as [Hr1 Hr2]. destruct (Hline segs Hsegs Hparen) as (rest & Hal & Hfi).
  unfold linux_Collect. rewrite Hstat, Hal, Hfi, Hrss, Hthreads, (parse_uint_pretty rss Hr1), (atoi_pretty threads Hr2).
  eexists. split; [done|]. split_and!; try done.
  - intros f' Hf'. rewrite Hf'. destruct (Hline (take 21 segs)) as (rest' & Hal' & Hfi').
    + by apply Forall_take.
    + intros Hin. apply Hparen. rewrite <- (take_drop 21 segs), fmap_app, concat_app. apply elem_of_app. by left.
    + rewrite Hal', Hfi'. rewrite (lookup_ge_None_2 _ 21); [done|]. rewrite length_fmap, length_take. lia.
  - intros f' raw Hf' Hno. rewrite Hf'. assert (after_last ")" (chars raw) = None) as ->; [|done].
    clear Hf'. induction (chars raw) as [|x l IH]; [done|]. apply not_elem_of_cons in Hno as [Hx Hl]. simpl.
    rewrite IH by done. destruct (Ascii.eqb_spec x ")"); [by subst|done].
Qed.

(** A process whose name is a stat line of its own. *)
Definition ex_segs : list (list ascii * list ascii) :=
  (λ n : N, (chars (pretty n), [" "%char])) <$> [0;1;2;3;4;5;6;7;8;9;10;11;12;13;14;15;16;5;18;19;20;300]%N.

Lemma linux_stat_parsed_witness :
  ∃ s, linux_Collect 4096 9 42
         (mkProc (Some (of_chars (chars "42 (a) S 1 2" ++ ")"%char :: " "%char :: concat ((λ s, s.1 ++ s.2) <$> ex_segs)))) None None)
       = Ok s ∧ sm_RSS s = 300 * 4096 ∧ sm_NumThreads s = 5.
Proof.
  destruct (linux_stat_parsed 4096 9 42
    (mkProc (Some (of_chars (chars "42 (a) S 1 2" ++ ")"%char :: " "%char :: concat ((λ s, s.1 ++ s.2) <$> ex_segs)))) None None)
    (chars "42 (a) S 1 2") ex_segs 300 5 eq_refl) as (s & H1 & _ & H2 & H3 & _).
  - repeat (constructor; [split; [split; [discriminate|vm_compute; reflexivity]|apply (bool_decide_unpack _); vm_compute; exact I]|]).
    constructor.
  - apply (bool_decide_unpack _). vm_compute. exact I.
  - reflexivity.
  - reflexivity.
  - split; lia.
  - exists s. split; [exact H1|]. split; [exact H2|exact H3].
Defined.

(** On Linux no CPU limit is ever enforced: the collector leaves the CPU share
    at zero, so no sample of it makes the evaluator report a CPU breach. *)
Theorem linux_cpu_limit_never_fires (pagesize now pid : Z) (f : proc_files) (s : Sample) (id : string) (e : Evaluator) :
  linux_Collect pagesize now pid f = Ok s → Forall (λ a, ac_Kind a = "rss"%string) (Evaluate id s e).2.
Proof.
  intros H. assert (sm_CPUPercent s = f64_zero) as Hc.
  { unfold linux_Collect in H. repeat case_match; simplify_eq/=; done. }
  unfold Evaluate. destruct (ev_limits e !! id) as [l|]; [|constructor].
  assert (cpu_enabled l = true → cpu_breach l s = false) as Hb.
  { unfold cpu_enabled, cpu_breach, f64_gtb. rewrite Hc.
    destruct (rl_MaxCPUPercent l) as [[]|[]| |[] m x]; done. }
  destruct (check_breach (rss_enabled l) _ _ _) as [rc rf].
  assert ((check_breach (cpu_enabled l) (cpu_breach l s) (eo_CPUBreachThreshold (ev_opts e)) (ev_cpuCount e !! id)).2 = false) as Hf.
  { unfold check_breach. destruct (cpu_enabled l); [|done]. by rewrite Hb. }
  destruct (check_breach (cpu_enabled l) _ _ _) as [cc cf]. simpl in Hf. subst cf. simpl.
  destruct (eo_OnAction _), rf; repeat constructor.
Qed.
