(* ===== verification/Backoff.v ===== *)
(** * The default restart delays: internal/supervise/restart.go

    [ExponentialBackoff] computes in binary64, as [spec_float] (rounding to
    nearest, no fused operations).  [math.Pow] is the class [MathPow]; what is
    used of its documentation is the class [MathPowLaws].  The random source is
    the list of numbers it is going to give. *)

From Stdlib Require Import Floats.SpecFloat.
From S2P Require Import Prelude Text Config Resource Supervise.

(** ** Facts on binary64 *)

(** The number of binary digits. *)
Lemma digits2_bounds p : 2 ^ (Z.pos (digits2_pos p) - 1) ≤ Z.pos p < 2 ^ Z.pos (digits2_pos p).
Proof.
  induction p as [p IH|p IH|]; cbn [digits2_pos]; [..|done];
    rewrite Pos2Z.inj_succ; replace (Z.succ _ - 1) with (Z.succ (Z.pos (digits2_pos p) - 1)) by lia;
    rewrite !Z.pow_succ_r by lia; lia.
Qed.
Lemma digits2_unique p n : 2 ^ (n - 1) ≤ Z.pos p < 2 ^ n → Z.pos (digits2_pos p) = n.
Proof.
  intros [H1 H2]. pose proof (digits2_bounds p) as [H3 H4].
  assert (n - 1 < Z.pos (digits2_pos p)) by (apply (Z.pow_lt_mono_r_iff 2); [lia..|]; eapply Z.le_lt_trans; eauto).
  assert (0 ≤ n) by (destruct (decide (n < 0)); [rewrite (Z.pow_neg_r 2 n) in H2 by lia; lia|lia]).
  assert (Z.pos (digits2_pos p) - 1 < n) by (apply (Z.pow_lt_mono_r_iff 2); [lia..|]; eapply Z.le_lt_trans; eauto).
  lia.
Qed.

Lemma iter_pos_iter {A} (f : A → A) p x : SpecFloat.iter_pos f p x = Pos.iter f x p.
Proof.
  revert x. induction p as [p IH|p IH|]; intros x; cbn [SpecFloat.iter_pos Pos.iter]; [| |done].
  - rewrite !IH. rewrite <- Pos.iter_swap. f_equal. by rewrite <- Pos.iter_swap.
  - by rewrite !IH.
Qed.

Lemma shr_1_m r : 0 ≤ shr_m r → shr_m (shr_1 r) = shr_m r / 2.
Proof.
  destruct r as [[|[p|p|]|p] rr s]; simpl; intros; try done; try lia.
  - change (Z.pos p~1) with (2 * Z.pos p + 1). symmetry. rewrite Z.add_comm, Z.mul_comm, Z.div_add by lia. done.
  - change (Z.pos p~0) with (2 * Z.pos p). symmetry. rewrite Z.mul_comm, Z.div_mul by lia. done.
Qed.

(** Shifting right divides. *)
Lemma shr_div r p : 0 ≤ shr_m r → shr_m (SpecFloat.iter_pos shr_1 p r) = shr_m r / 2 ^ Z.pos p.
Proof.
  rewrite iter_pos_iter. intros H.
  assert (0 ≤ shr_m (Pos.iter shr_1 r p) ∧ shr_m (Pos.iter shr_1 r p) = shr_m r / 2 ^ Z.pos p) as [_ ?]; [|done].
  induction p as [|p IH] using Pos.peano_ind.
  - simpl. rewrite shr_1_m by done. split; [by apply Z.div_pos|done].
  - rewrite Pos.iter_succ. destruct IH as [H1 H2]. rewrite shr_1_m, H2 by done. rewrite Pos2Z.inj_succ, Z.pow_succ_r by lia.
    rewrite Z.div_div by lia. rewrite (Z.mul_comm (2 ^ _)). split; [|done]. apply Z.div_pos; lia.
Qed.

(** A number with enough trailing zeros is shifted without loss. *)
Lemma shr_exact m p : SpecFloat.iter_pos shr_1 p (Build_shr_record (Z.pos m * 2 ^ Z.pos p) false false) = Build_shr_record (Z.pos m) false false.
Proof.
  rewrite iter_pos_iter. revert m. induction p as [|p IH] using Pos.peano_ind; intros m.
  { change (2 ^ 1) with 2. by replace (Z.pos m * 2) with (Z.pos m~0) by lia. }
  rewrite Pos.iter_succ_r, Pos2Z.inj_succ, Z.pow_succ_r by lia.
  replace (Z.pos m * (2 * 2 ^ Z.pos p)) with (2 * (Z.pos m * 2 ^ Z.pos p)) by lia.
  assert (∃ q, Z.pos m * 2 ^ Z.pos p = Z.pos q) as [q Hq].
  { destruct (Z.pos m * 2 ^ Z.pos p) as [|q|q] eqn:E; [|by exists q|]; pose proof (Z.pow_pos_nonneg 2 (Z.pos p)); lia. }
  rewrite Hq. change (shr_1 (Build_shr_record (2 * Z.pos q) false false)) with (Build_shr_record (Z.pos q) false false).
  rewrite <- Hq. apply IH.
Qed.

(** Rounding a positive number: the mantissa has at most 53 digits. *)
Definition f64_small (f : spec_float) : Prop :=
  match f with
  | S754_zero s => s = false
  | S754_infinity s => s = false
  | S754_nan => False
  | S754_finite s m e => s = false ∧ Z.pos m < 2 ^ 53
  end.

Lemma shr_fexp_bound m e l : 0 ≤ m → 0 ≤ shr_m (shr_fexp 53 1024 m e l).1 < 2 ^ 53.
Proof.
  intros Hm. unfold shr_fexp.
  assert (shr_m (shr_record_of_loc m l) = m) as Hr by (by destruct l as [|[]]).
  assert (m < 2 ^ Z.max 0 (Zdigits2 m)) as Hd.
  { destruct m as [|p|]; [done| |lia]. simpl Zdigits2. rewrite Z.max_r by lia. apply digits2_bounds. }
  set (n := fexp 53 1024 (Zdigits2 m + e) - e). assert (Zdigits2 m - 53 ≤ n) as Hn by (unfold n, fexp; lia).
  assert (0 ≤ Zdigits2 m) by (by destruct m).
  destruct n as [|p|p] eqn:En; simpl shr; cbn [fst].
  - rewrite Hr. split; [done|]. eapply Z.lt_le_trans; [exact Hd|]. apply Z.pow_le_mono_r; lia.
  - rewrite shr_div, Hr by (by rewrite Hr). split; [apply Z.div_pos; lia|].
    apply Z.div_lt_upper_bound; [lia|]. rewrite <- Z.pow_add_r by lia.
    eapply Z.lt_le_trans; [exact Hd|]. apply Z.pow_le_mono_r; lia.
  - rewrite Hr. split; [done|]. eapply Z.lt_le_trans; [exact Hd|]. apply Z.pow_le_mono_r; lia.
Qed.

Lemma round_aux_small m e : 0 ≤ m → f64_small (binary_round_aux 53 1024 false m e loc_Exact).
Proof.
  intros Hm. unfold binary_round_aux. pose proof (shr_fexp_bound m e loc_Exact Hm) as H1.
  destruct (shr_fexp 53 1024 m e loc_Exact) as [r1 e1]. simpl in H1.
  set (m1 := round_nearest_even _ _). assert (0 ≤ m1) as Hm1 by (unfold m1, round_nearest_even; repeat case_match; lia).
  pose proof (shr_fexp_bound m1 e1 loc_Exact Hm1) as H2. destruct (shr_fexp 53 1024 m1 e1 loc_Exact) as [r2 e2]. simpl in H2.
  destruct (shr_m r2) as [|p|p]; [done| |lia].
  case_match; simpl; [split; [done|lia]|done].
Qed.

(** Rounding a number that needs no rounding. *)
Lemma round_aux_exact m k e :
  2 ^ 52 ≤ Z.pos m < 2 ^ 53 → 0 ≤ k → -1074 ≤ e ≤ 971 →
  binary_round_aux 53 1024 false (Z.pos m * 2 ^ k) (e - k) loc_Exact = S754_finite false m e.
Proof.
  intros Hm Hk He.
  assert (∀ k, 0 ≤ k → shr_fexp 53 1024 (Z.pos m * 2 ^ k) (e - k) loc_Exact = (Build_shr_record (Z.pos m) false false, e)) as Hs.
  { clear k Hk. intros k Hk. unfold shr_fexp. cbn [shr_record_of_loc].
    assert (Zdigits2 (Z.pos m * 2 ^ k) = 53 + k) as ->.
    { destruct (Z.pos m * 2 ^ k) as [|q|q] eqn:E; [lia| |lia]. simpl. apply digits2_unique. rewrite <- E.
      replace (53 + k - 1) with (52 + k) by lia. rewrite !Z.pow_add_r by lia. nia. }
    assert (fexp 53 1024 (53 + k + (e - k)) - (e - k) = k) as -> by (unfold fexp, emin; lia).
    destruct k as [|p|p]; [|unfold shr; rewrite shr_exact; f_equal; lia|lia]. simpl. rewrite Z.mul_1_r. f_equal. lia. }
  unfold binary_round_aux. rewrite Hs by done. cbn [loc_of_shr_record shr_m round_nearest_even].
  pose proof (Hs 0 ltac:(lia)) as H0. rewrite Z.mul_1_r, Z.sub_0_r in H0. rewrite H0. cbn [shr_m].
  rewrite (proj2 (Z.leb_le _ _)) by lia. done.
Qed.

(** An integer below 2^53 is represented exactly, with 53 digits. *)
Lemma f64_of_Z_exact z : 0 < z < 2 ^ 53 →
  ∃ m e, f64_of_Z z = S754_finite false m e ∧ 2 ^ 52 ≤ Z.pos m < 2 ^ 53 ∧ -52 ≤ e ≤ 0 ∧ Z.pos m = z * 2 ^ (- e).
Proof.
  intros Hz. destruct z as [|p|p]; [lia| |lia]. unfold f64_of_Z, binary_normalize, binary_round.
  pose proof (digits2_bounds p) as [H1 H2]. set (d := Z.pos (digits2_pos p)) in *.
  assert (1 ≤ d) as Hd1 by (unfold d; lia).
  assert (d ≤ 53) as Hd by (apply Z.lt_succ_r; assert (d - 1 < 53) by (apply (Z.pow_lt_mono_r_iff 2); lia); lia).
  assert (fexp 53 1024 (d + 0) = d - 53) as -> by (unfold fexp, emin; lia).
  assert (∃ m, (let '(mz, ez) := shl_align p 0 (d - 53) in (mz, ez)) = (m, d - 53) ∧ Z.pos m = Z.pos p * 2 ^ (53 - d)) as (m & Hsh & Hm).
  { unfold shl_align. rewrite Z.sub_0_r. destruct (d - 53) as [|q|q] eqn:E; [|lia|].
    - exists p. split; [done|]. replace (53 - d) with 0 by lia. lia.
    - eexists. split; [done|]. replace (53 - d) with (Z.pos q) by lia. clear.
      induction q as [|q IH] using Pos.peano_ind; [simpl; lia|]. rewrite Pos.iter_succ, Pos2Z.inj_succ, Z.pow_succ_r by lia. lia. }
  destruct (shl_align p 0 (d - 53)) as [mz ez]. simplify_eq.
  assert (2 ^ 52 ≤ Z.pos m < 2 ^ 53) as Hb.
  { assert (2 ^ 52 = 2 ^ (d - 1) * 2 ^ (53 - d)) as -> by (rewrite <- Z.pow_add_r by lia; f_equal; lia).
    assert (2 ^ 53 = 2 ^ d * 2 ^ (53 - d)) as -> by (rewrite <- Z.pow_add_r by lia; f_equal; lia).
    rewrite Hm. pose proof (Z.pow_pos_nonneg 2 (53 - d)). nia. }
  exists m, (d - 53). pose proof (round_aux_exact m 0 (d - 53) Hb ltac:(lia) ltac:(lia)) as Hr.
  rewrite Z.mul_1_r, Z.sub_0_r in Hr. split; [exact Hr|]. split; [done|]. split; [lia|].
  replace (- (d - 53)) with (53 - d) by lia. done.
Qed.

Lemma f64_one : f64_of_Z 1 = S754_finite false 4503599627370496 (-52).
Proof. reflexivity. Qed.

(** Converting an exact integer back. *)
Lemma f64_to_Z_exact z : 0 < z < 2 ^ 53 → f64_to_Z (f64_of_Z z) = z.
Proof.
  intros Hz. destruct (f64_of_Z_exact z Hz) as (m & e & -> & _ & He & Hm). unfold f64_to_Z.
  destruct (0 <=? e) eqn:E.
  - assert (e = 0) as -> by lia. simpl in Hm. rewrite Z.pow_0_r. lia.
  - rewrite Hm. rewrite Z.quot_div_nonneg by (try apply Z.pow_pos_nonneg; try apply Z.mul_nonneg_nonneg; try apply Z.pow_nonneg; lia).
    apply Z.div_mul. apply Z.pow_nonzero; lia.
Qed.

(** Multiplying such a number with one. *)
Lemma f64_mul_one z : 0 < z < 2 ^ 53 → f64_mul (f64_of_Z z) (f64_of_Z 1) = f64_of_Z z.
Proof.
  intros Hz. destruct (f64_of_Z_exact z Hz) as (m & e & -> & Hm & He & _). rewrite f64_one. unfold f64_mul, SFmul. cbn [xorb].
  rewrite Pos2Z.inj_mul. change (Z.pos 4503599627370496) with (2 ^ 52). replace (e + -52) with (e - 52) by lia.
  apply round_aux_exact; lia.
Qed.

(** The value of a small number that is not above an exact integer is not
    above it either. *)
Lemma f64_to_Z_le z f : 0 < z < 2 ^ 53 → f64_small f → f64_gtb f (f64_of_Z z) = false →
  0 ≤ f64_to_Z f ≤ z.
Proof.
  intros Hz Hf Hle. destruct (f64_of_Z_exact z Hz) as (mz & ez & Ez & Hmz & Hez & Hzz). rewrite Ez in Hle.
  destruct f as [s|s| |s m e]; simpl in Hf; try (subst s); try done.
  - simpl. lia.
  - destruct Hf as [-> Hm]. unfold f64_gtb, SFltb, SFcompare in Hle.
    assert (e < ez ∨ e = ez ∧ Z.pos m ≤ Z.pos mz) as Hcmp.
    { destruct (ez ?= e) eqn:Ec; [apply Z.compare_eq in Ec; subst; right; split; [done|]|done|apply Z.compare_gt_iff in Ec; lia].
      change (Pos.compare_cont Eq mz m) with (mz ?= m)%positive in Hle. destruct (mz ?= m)%positive eqn:Em; [|done|].
      - apply Pos.compare_eq in Em. by subst.
      - apply Pos.compare_gt_iff in Em. lia. }
    unfold f64_to_Z. destruct (0 <=? e) eqn:E0.
    + assert (e = ez ∧ e = 0) as [-> He0] by lia. rewrite He0 in *. simpl in Hzz. rewrite Z.pow_0_r. lia.
    + rewrite Z.quot_div_nonneg by (try apply Z.pow_pos_nonneg; lia).
      pose proof (Z.pow_pos_nonneg 2 (- e) ltac:(lia) ltac:(lia)) as Hp. split; [apply Z.div_pos; lia|].
      apply Z.lt_succ_r, Z.div_lt_upper_bound; [done|].
      destruct Hcmp as [Hlt|[-> Hm']]; [|rewrite Hzz in Hm'; nia].
      assert (Z.pos m < z * 2 ^ (- e)); [|nia]. replace (- e) with (- ez + (ez - e)) by lia.
      rewrite Z.pow_add_r, Z.mul_assoc, <- Hzz by lia.
      assert (2 ≤ 2 ^ (ez - e)) by (change 2 with (2 ^ 1) at 1; apply Z.pow_le_mono_r; lia). nia.
Qed.

Lemma SFcompare_pos_antisym m1 e1 m2 e2 :
  SFcompare (S754_finite false m2 e2) (S754_finite false m1 e1) =
  CompOpp <$> SFcompare (S754_finite false m1 e1) (S754_finite false m2 e2).
Proof.
  unfold SFcompare. cbn [fmap option_fmap option_map]. f_equal. rewrite (Z.compare_antisym e1 e2).
  pose proof (Pos.compare_antisym m1 m2) as H. unfold Pos.compare in H. rewrite H.
  generalize (Pos.compare_cont Eq m1 m2). intros c. by destruct (e1 ?= e2), c.
Qed.

(** Numbers are above one or not. *)
Lemma f64_gtb_one x : x ≠ S754_nan → f64_gtb x (f64_of_Z 1) = negb (SFleb x (f64_of_Z 1)).
Proof.
  intros Hx. rewrite f64_one. destruct x as [s|s| |s m e]; [by destruct s|by destruct s|done|]. destruct s; [done|].
  unfold f64_gtb, SFltb, SFleb. rewrite (SFcompare_pos_antisym m).
  assert (∃ c, SFcompare (S754_finite false m e) (S754_finite false 4503599627370496 (-52)) = Some c) as [c ->] by (by eexists).
  by destruct c.
Qed.
Lemma f64_gtb_asym m1 e1 m2 e2 :
  f64_gtb (S754_finite false m1 e1) (S754_finite false m2 e2) = true → f64_gtb (S754_finite false m2 e2) (S754_finite false m1 e1) = false.
Proof.
  unfold f64_gtb, SFltb. rewrite (SFcompare_pos_antisym m1). by destruct (SFcompare (S754_finite false m1 e1) _) as [[]|].
Qed.

(** ** ExponentialBackoff *)

(** [math.Pow]. *)
Class MathPow := Pow : spec_float → spec_float → spec_float.
(** Of its documentation: x**0 is 1, and a power of a number above 1 with an
    exponent that is not negative is at least 1. *)
Class MathPowLaws `{!MathPow} := {
  pow_zero x : Pow x (f64_of_Z 0) = f64_of_Z 1;
  pow_ge_one x y : f64_gtb x (f64_of_Z 1) = true → SFleb (f64_of_Z 0) y = true → SFleb (f64_of_Z 1) (Pow x y) = true }.

(** [eb_rng]: the numbers in [0,1) the random source is going to give. *)
Record ExponentialBackoff := mkBackoff {
  eb_Initial : Z; eb_Max : Z; eb_Multiplier : spec_float; eb_Jitter : spec_float; eb_rng : list spec_float }.

(** The fields after [Next] has replaced what is not set. *)
Definition with_defaults (b : ExponentialBackoff) : ExponentialBackoff :=
  mkBackoff (if eb_Initial b <=? 0 then 1000000000 else eb_Initial b)
    (if eb_Max b <=? 0 then 60 * 1000000000 else eb_Max b)
    (if SFleb (eb_Multiplier b) (f64_of_Z 1) then f64_of_Z 2 else eb_Multiplier b) (eb_Jitter b) (eb_rng b).

Section Backoff.
(** [overflow]: what the machine makes of a value no [int64] holds. *)
Context `{!MathPow} (overflow : spec_float → Z).

(** [time.Duration(d)]. *)
Definition to_duration (d : spec_float) : Z :=
  match d with
  | S754_zero _ | S754_finite _ _ _ =>
      let v := f64_to_Z d in if (- 2 ^ 63 <=? v) && (v <? 2 ^ 63) then v else overflow d
  | _ => overflow d
  end.

(** The delay before jitter. *)
Definition capped (b : ExponentialBackoff) (attempt : Z) : spec_float :=
  let d := f64_mul (f64_of_Z (eb_Initial b)) (Pow (eb_Multiplier b) (f64_of_Z attempt)) in
  if f64_gtb d (f64_of_Z (eb_Max b)) then f64_of_Z (eb_Max b) else d.

Definition ExponentialBackoff_Next (b0 : ExponentialBackoff) (attempt : Z) : ExponentialBackoff * Z :=
  let b := with_defaults b0 in
  let d := capped b attempt in
  if f64_gtb (eb_Jitter b) f64_zero then
    let r := default f64_zero (head (eb_rng b)) in
    let delta := f64_mul d (eb_Jitter b) in
    let d1 := SFadd 53 1024 d (f64_mul (SFsub 53 1024 (f64_mul r (f64_of_Z 2)) (f64_of_Z 1)) delta) in
    let d2 := if f64_gtb f64_zero d1 then f64_zero else d1 in
    (mkBackoff (eb_Initial b) (eb_Max b) (eb_Multiplier b) (eb_Jitter b) (tail (eb_rng b)), to_duration d2)
  else (b, to_duration d).

#[global] Instance exponential_backoff : BackoffStrategy ExponentialBackoff := ExponentialBackoff_Next.

Context `{!MathPowLaws}.

(** A strategy within its documented range: no jitter, a multiplier that is a
    number, times below 2^53 ns (about 104 days). *)
Record plain (b : ExponentialBackoff) : Prop := mkPlain {
  pl_jitter : f64_gtb (eb_Jitter b) f64_zero = false;
  pl_mult : eb_Multiplier b ≠ S754_nan;
  pl_initial : eb_Initial b < 2 ^ 53;
  pl_max : eb_Max b < 2 ^ 53 }.

Definition initial_of (b : ExponentialBackoff) : Z := eb_Initial (with_defaults b).
Definition max_of (b : ExponentialBackoff) : Z := eb_Max (with_defaults b).

Lemma plain_defaults b : plain b →
  0 < initial_of b < 2 ^ 53 ∧ 0 < max_of b < 2 ^ 53 ∧ f64_gtb (eb_Multiplier (with_defaults b)) (f64_of_Z 1) = true ∧
  plain (with_defaults b) ∧ with_defaults (with_defaults b) = with_defaults b.
Proof.
  intros [H1 H2 H3 H4]. unfold initial_of, max_of.
  assert (eb_Multiplier (with_defaults b) ≠ S754_nan ∧ SFleb (eb_Multiplier (with_defaults b)) (f64_of_Z 1) = false) as [Hn Hle].
  { cbn [with_defaults eb_Multiplier]. by destruct (SFleb (eb_Multiplier b) (f64_of_Z 1)) eqn:E. }
  assert (f64_gtb (eb_Multiplier (with_defaults b)) (f64_of_Z 1) = true) as Hm by (by rewrite f64_gtb_one, Hle).
  assert (0 < initial_of b < 2 ^ 53) as Hi by (unfold initial_of; simpl; case_match; lia).
  assert (0 < max_of b < 2 ^ 53) as Hx by (unfold max_of; simpl; case_match; lia).
  unfold initial_of, max_of in *. split_and!; try lia; try done.
  - by split; [done| |lia..].
  - unfold with_defaults at 1. rewrite Hle. set (b' := with_defaults b) in *.
    rewrite (proj2 (Z.leb_gt _ _)) by lia. rewrite (proj2 (Z.leb_gt (eb_Max b') _)) by lia. by destruct b'.
Qed.

(** The delay before jitter is a number between zero and the maximum. *)
Lemma capped_bounds b attempt : plain b → 0 ≤ attempt →
  f64_small (capped (with_defaults b) attempt) ∧ f64_gtb (capped (with_defaults b) attempt) (f64_of_Z (max_of b)) = false ∧
  (∀ s, capped (with_defaults b) attempt ≠ S754_infinity s).
Proof.
  intros Hb Ha. destruct (plain_defaults b Hb) as (Hi & Hx & Hm & _). unfold capped. fold (initial_of b) (max_of b).
  destruct (f64_of_Z_exact _ Hi) as (mi & ei & Ei & _). destruct (f64_of_Z_exact _ Hx) as (mx & ex & Ex & Hmx & _).
  assert (SFleb (f64_of_Z 0) (f64_of_Z attempt) = true) as Hat.
  { destruct attempt as [|p|p]; [done| |lia]. change (f64_of_Z 0) with f64_zero. unfold f64_of_Z, binary_normalize, binary_round.
    destruct (shl_align _ _ _) as [mz ez]. pose proof (round_aux_small (Z.pos mz) ez ltac:(lia)) as Hs.
    destruct (binary_round_aux _ _ _ _ _ _) as [s|s| |s m e]; simpl in Hs; [..|destruct Hs]; by subst. }
  pose proof (pow_ge_one _ _ Hm Hat) as Hp. set (pw := Pow _ _) in *. clearbody pw.
  assert (f64_small (f64_mul (f64_of_Z (initial_of b)) pw)) as Hs.
  { rewrite Ei. rewrite f64_one in Hp. unfold SFleb, SFcompare in Hp. destruct pw as [[]|[]| |[] m e]; try done.
    unfold f64_mul, SFmul. cbn [xorb]. rewrite Pos2Z.inj_mul. apply round_aux_small. lia. }
  destruct (f64_gtb (f64_mul _ pw) (f64_of_Z (max_of b))) eqn:E.
  - rewrite Ex. split_and!; [split; [done|lia]| |done]. unfold f64_gtb, SFltb, SFcompare. rewrite Z.compare_refl.
    change (Pos.compare_cont Eq mx mx) with (mx ?= mx)%positive. by rewrite Pos.compare_refl.
  - split_and!; [done..|]. intros s Heq. rewrite Heq in E, Hs. simpl in Hs. subst s. by rewrite Ex in E.
Qed.

Lemma to_duration_small f z : 0 < z < 2 ^ 53 → f64_small f → f64_gtb f (f64_of_Z z) = false → (∀ s, f ≠ S754_infinity s) →
  to_duration f = f64_to_Z f ∧ 0 ≤ to_duration f ≤ z.
Proof.
  intros Hz Hf Hle Hi. pose proof (f64_to_Z_le z f Hz Hf Hle) as Hb.
  assert (to_duration f = f64_to_Z f) as E; [|by rewrite E].
  destruct f as [s|s| |s m e]; [| by destruct (Hi s)|done|]; unfold to_duration;
    rewrite (proj2 (Z.leb_le _ _)), (proj2 (Z.ltb_lt _ _)) by lia; done.
Qed.

(** One delay of a plain strategy. *)
Lemma next_bounds b attempt : plain b → 0 ≤ attempt →
  Next b attempt = (with_defaults b, to_duration (capped (with_defaults b) attempt)) ∧
  0 ≤ (Next b attempt).2 ≤ max_of b ∧ (Next b 0).2 = Z.min (initial_of b) (max_of b).
Proof.
  intros Hb Ha. pose proof (plain_defaults b Hb) as (Hi & Hx & Hm & [Hj _ _ _] & _).
  assert (∀ k, Next b k = (with_defaults b, to_duration (capped (with_defaults b) k))) as Hn.
  { intros k. unfold Next, exponential_backoff, ExponentialBackoff_Next. by rewrite Hj. }
  rewrite !Hn. split; [done|]. cbn [snd]. destruct (capped_bounds b attempt Hb Ha) as (H1 & H2 & H3).
  split; [by apply to_duration_small|].
  destruct (capped_bounds b 0 Hb ltac:(lia)) as (H4 & H5 & H6).
  rewrite (proj1 (to_duration_small _ _ Hx H4 H5 H6)). unfold capped in *. fold (initial_of b) (max_of b) in *.
  rewrite pow_zero, f64_mul_one in * by done. destruct (f64_gtb (f64_of_Z (initial_of b)) (f64_of_Z (max_of b))) eqn:E.
  - rewrite f64_to_Z_exact by done. destruct (decide (initial_of b < max_of b)); [|lia]. exfalso.
    destruct (f64_of_Z_exact _ Hi) as (mi & ei & Ei & Hmi & _). destruct (f64_of_Z_exact _ Hx) as (mx & ex & Ex & Hmx & _).
    rewrite Ei, Ex in E. apply f64_gtb_asym in E. rewrite <- Ei, <- Ex in E.
    pose proof (f64_to_Z_le (initial_of b) (f64_of_Z (max_of b)) Hi) as Hle. rewrite f64_to_Z_exact in Hle by done.
    destruct Hle; [rewrite Ex; split; [done|lia]|done|lia].
  - rewrite f64_to_Z_exact by done. pose proof (f64_to_Z_le (max_of b) _ Hx H4 E) as Hle. rewrite f64_to_Z_exact in Hle by done. lia.
Qed.

Lemma delays_bounds b k n : plain b → 0 ≤ k → Forall (λ d, 0 ≤ d ≤ max_of b) (delays_from b k n).
Proof.
  revert b k. induction n as [|n IH]; intros b k Hb Hk; [constructor|]. cbn [delays_from].
  destruct (next_bounds b k Hb Hk) as (Hn & Hd & _). rewrite Hn in Hd |- *. cbn [snd] in Hd. constructor; [exact Hd|].
  destruct (plain_defaults b Hb) as (_ & _ & _ & Hp & Hi).
  replace (max_of b) with (max_of (with_defaults b)) by (unfold max_of; by rewrite Hi). apply IH; [done|lia].
Qed.

(** C25: The delays of the restart loop.  With an exponential backoff without
    jitter, in its documented range, every delay a run of the loop waits is
    between zero and the maximum, the first one is the initial delay (capped),
    and fields that are not set count as one second, one minute and a factor of
    two; whatever the floating-point rounding of the powers is. *)
Theorem restart_delays_bounded {E : Type} (o : RestartLoopOptions ExponentialBackoff) (ts : list (@turn E))
    (Hplain : plain (rlo_Backoff o)) (Hmax : rlo_MaxRestarts o < 2 ^ 63 - 1)
    (Hlen : Z.of_nat (length ts) < 2 ^ 63 - 1) :
  let delays := omap ev_delay (Run o ts).2 in
  Forall (λ d, 0 ≤ d ≤ max_of (rlo_Backoff o)) delays ∧
  (∀ d, head delays = Some d → d = Z.min (initial_of (rlo_Backoff o)) (max_of (rlo_Backoff o))).
Proof.
  unfold Run. pose proof (run_turns_spec (rlo_Policy o) (rlo_MaxRestarts o) ts 0 None (rlo_Backoff o) Hmax ltac:(lia) ltac:(lia) ltac:(lia)) as Hs.
  destruct (run_turns _ _ _ ts) as [r evs]. destruct Hs as (_ & _ & _ & Hd & _). cbn [snd]. cbv zeta.
  generalize dependent (length (omap ev_delay evs)). intros n ->. split; [by apply delays_bounds|].
  intros d. destruct n as [|n]; [done|]. cbn [delays_from].
  destruct (next_bounds (rlo_Backoff o) 0 Hplain ltac:(lia)) as (Hn & _ & Hd). rewrite Hn in Hd |- *. cbn [snd] in Hd. simpl.
  by intros [= <-].
Qed.
End Backoff.

(** ** Runs *)

Module BackoffExample.
(** Powers with a natural exponent, by repeated multiplication. *)
#[local] Instance ex_pow : MathPow := λ x y,
  let p := Nat.iter (Z.to_nat (f64_to_Z y)) (f64_mul x) (f64_of_Z 1) in
  if f64_gtb x (f64_of_Z 1) then if SFleb (f64_of_Z 1) p then p else f64_of_Z 1 else p.
#[local] Instance ex_pow_laws : MathPowLaws.
Proof.
  split.
  - intros x. unfold Pow, ex_pow. change (f64_of_Z 0) with f64_zero. simpl Nat.iter. by destruct (f64_gtb x _).
  - intros x y Hx _. unfold Pow, ex_pow. rewrite Hx.
    match goal with |- context [if SFleb ?a ?p then _ else _] => by destruct (SFleb a p) eqn:E end.
Qed.
#[local] Instance ex_backoff : BackoffStrategy ExponentialBackoff := exponential_backoff (λ _, - 2 ^ 63).

(** The strategy of [NewRestartLoop] when none is given. *)
Definition default_backoff : ExponentialBackoff := mkBackoff 0 0 f64_zero f64_zero [].
Lemma default_plain : plain default_backoff.
Proof. by split. Qed.

Example default_delays :
  delays_from default_backoff 0 8 =
  (λ s, s * 1000000000) <$> [1; 2; 4; 8; 16; 32; 60; 60].
Proof. vm_compute. reflexivity. Qed.

(** Jitter is applied after the cap, so a delay can exceed the maximum. *)
Example jitter_exceeds_max :
  (Next (mkBackoff 60000000000 60000000000 (f64_of_Z 2) (f64_of_Z 1) [f64_div (f64_of_Z 3) (f64_of_Z 4)]) 0).2 = 90000000000.
Proof. vm_compute. reflexivity. Qed.

Lemma restart_delays_bounded_witness :
  omap ev_delay (Run (E := unit) (mkRLO RestartLoopOnFailure 3 default_backoff)
    (replicate 5 (mkTurn None (Some ()) None))).2 = [1000000000; 2000000000; 4000000000] ∧
  Forall (λ d, 0 ≤ d ≤ 60000000000) [1000000000; 2000000000; 4000000000].
Proof.
  assert (omap ev_delay (Run (E := unit) (mkRLO RestartLoopOnFailure 3 default_backoff)
    (replicate 5 (mkTurn None (Some ()) None))).2 = [1000000000; 2000000000; 4000000000]) as Hd by (vm_compute; reflexivity).
  split; [exact Hd|]. rewrite <- Hd.
  exact (proj1 (restart_delays_bounded (λ _, - 2 ^ 63) (mkRLO RestartLoopOnFailure 3 default_backoff)
    (replicate 5 (mkTurn None (Some ()) None)) default_plain ltac:(simpl; lia) ltac:(simpl; lia))).
Defined.
End BackoffExample.
