(* ===== verification/SessionFiles.v ===== *)
(** * The pid file of a session: internal/agent/persistent_meta.go

    [pid] holds a decimal line that the host reads back; whether the process
    lives is asked with signal 0. *)

From S2P Require Import Prelude Text Config Collectors.

(** [WritePidFile]: what the file holds afterwards; [None]: it was not written. *)
Definition WritePidFile (fails : bool) (pid : Z) : option string :=
  if fails then None else Some (pretty pid +:+ of_chars [newline]).

Inductive pid_err := ErrReadPid | ErrParsePid.
Definition ReadPidFile (file : option string) : result pid_err Z :=
  match file with
  | None => Err ErrReadPid
  | Some b => let '(pid, ok) := atoi (TrimSpace (chars b)) in if ok then Ok pid else Err ErrParsePid
  end.

(** [IsPidAlive]; [probe]: whether signal 0 can be sent to the process. *)
Definition IsPidAlive (probe : Z → bool) (pid : Z) : bool := if pid <=? 0 then false else probe pid.

Lemma TrimSpace_word l w : l ≠ [] → forallb solid l = true → spaces w → TrimSpace (l ++ w) = l.
Proof.
  intros Hl Hs Hw. destruct l as [|c l]; [done|].
  destruct (exists_last (l := c :: l)) as (y & d & E); [done|].
  assert (solid d = true ∧ solid c = true) as [Hd Hc].
  { rewrite forallb_forall in Hs. split; apply Hs; [rewrite E; apply in_or_app; right; by left|by left]. }
  apply (TrimSpace_core [] w c l d); [by exists []|done..|by exists y].
Qed.

(** The host reads back the pid the agent wrote. *)
Theorem pid_file_roundtrip (pid : Z) (Hpid : 0 < pid < 2 ^ 63) : ReadPidFile (WritePidFile false pid) = Ok pid.
Proof.
  unfold WritePidFile, ReadPidFile. rewrite pretty_Z_pos by lia. rewrite chars_app, chars_of.
  rewrite TrimSpace_word.
  - rewrite atoi_pretty by lia. do 2 f_equal. lia.
  - intros E. pose proof (dec_val_pretty (Z.to_N pid)) as H. rewrite E in H. change (dec_val []) with 0 in H. lia.
  - apply forallb_forall. intros c Hc. apply digit_solid. pose proof (pretty_N_digits (Z.to_N pid)) as H.
    rewrite forallb_forall in H. by apply H.
  - exists [[newline]]. split; [|done]. apply Forall_singleton. apply (bool_decide_unpack _). vm_compute. exact I.
Qed.

Lemma pid_file_roundtrip_witness : ReadPidFile (WritePidFile false 4711) = Ok 4711.
Proof. apply pid_file_roundtrip. lia. Defined.

