(* ===== verification/GoTime.v ===== *)
(** * Times as text: the calendar and RFC 3339 of Go's package time

    A time is a number of nanoseconds since the Unix epoch.  [time.Time] is
    written to JSON by [appendStrictRFC3339] in the zone of the process and
    read by [parseRFC3339]. *)

From S2P Require Import Prelude Text Config Collectors.

(** ** The calendar *)

Definition isLeap (year : Z) : bool := (year mod 4 =? 0) && (negb (year mod 100 =? 0) || (year mod 400 =? 0)).

(** [daysBefore], and the days of a month. *)
Definition daysBefore : list Z := [0; 31; 59; 90; 120; 151; 181; 212; 243; 273; 304; 334; 365].
Definition days_before (month : Z) : Z := nth (Z.to_nat month) daysBefore 0.
Definition daysIn (month year : Z) : Z :=
  if (month =? 2) && isLeap year then 29 else days_before month - days_before (month - 1).

(** The days before a year that begins a count of 400-year cycles, as [Date]
    sums them: [y] is the number of years since. *)
Definition days_to_year (y : Z) : Z :=
  146097 * (y / 400) + 36524 * (y mod 400 / 100) + 1461 * (y mod 400 mod 100 / 4) + 365 * (y mod 400 mod 100 mod 4).

(** The days of the year before a date. *)
Definition yearday (leap : bool) (month day : Z) : Z :=
  days_before (month - 1) + (if leap && (3 <=? month) then 1 else 0) + (day - 1).

(** [Date] in whole days since 1 January of the year 1. *)
Definition date_days (year month day : Z) : Z := days_to_year (year - 1) + yearday (isLeap year) month day.

(** Month and day of a day of the year, as [absDate] finds them. *)
Definition month_day (leap : bool) (yday : Z) : Z * Z :=
  if leap && (yday =? 59) then (2, 29)
  else
    let day := if leap && (59 <? yday) then yday - 1 else yday in
    let month := day / 31 in
    let fin := days_before (month + 1) in
    if fin <=? day then (month + 2, day - fin + 1) else (month + 1, day - days_before month + 1).

(** The year and the day of the year of a day, as [absDate] finds them. *)
Definition year_yday (days : Z) : Z * Z :=
  let a := days / 146097 in
  let d1 := days mod 146097 in
  let n1 := d1 / 36524 in
  let c := n1 - n1 / 4 in
  let d2 := d1 - 36524 * c in
  let q := d2 / 1461 in
  let d3 := d2 - 1461 * q in
  let n3 := d3 / 365 in
  let k := n3 - n3 / 4 in
  (400 * a + 100 * c + 4 * q + k + 1, d3 - 365 * k).

Definition absDate (days : Z) : Z * Z * Z :=
  let '(year, yday) := year_yday days in
  let '(month, day) := month_day (isLeap year) yday in (year, month, day).

Lemma month_day_ok (leap : bool) (yday : Z) :
  0 ≤ yday < (if leap then 366 else 365 : Z) →
  let '(month, day) := month_day leap yday in
  1 ≤ month ≤ 12 ∧ 1 ≤ day ∧ yearday leap month day = yday ∧
  day ≤ (if (month =? 2) && leap then 29 else days_before month - days_before (month - 1)).
Proof.
  intros H.
  assert (forallb (λ l : bool, forallb (λ y, let '(m, d) := month_day l y in
    (1 <=? m) && (m <=? 12) && (1 <=? d) && (yearday l m d =? y) &&
    (d <=? if (m =? 2) && l then 29 else days_before m - days_before (m - 1)))
    (seqZ 0 (if l then 366 else 365))) [true; false] = true) as Hall by (vm_compute; reflexivity).
  rewrite forallb_forall in Hall. specialize (Hall leap ltac:(destruct leap; simpl; auto)).
  rewrite forallb_forall in Hall. specialize (Hall yday ltac:(apply list_elem_of_In, elem_of_seqZ; destruct leap; lia)).
  destruct (month_day leap yday) as [m d]. rewrite !andb_true_iff in Hall.
  destruct Hall as ((((H1 & H2) & H3) & H4) & H5). destruct ((m =? 2) && leap); lia.
Qed.

(** A division of days in a range by the days of a period, at most four of
    which fit. *)
Lemma period_split d p : 0 < p → 0 ≤ d ≤ 4 * p →
  let n := d / p - d / p / 4 in
  0 ≤ n ≤ 3 ∧ 0 ≤ d - p * n ∧ (d - p * n < p ∨ n = 3 ∧ d = 4 * p).
Proof.
  intros Hp Hd. pose proof (Z.div_mod d p ltac:(lia)). pose proof (Z.mod_pos_bound d p Hp).
  assert (0 ≤ d / p) by (apply Z.div_pos; lia).
  assert (d / p < 4 ∨ d / p = 4 ∧ d mod p = 0) as [Hn|[Hn Hm]] by nia.
  - assert (d / p / 4 = 0) as -> by (apply Z.div_small; lia). cbv zeta. rewrite Z.sub_0_r. split; [lia|]. nia.
  - rewrite Hn in *. change (4 / 4) with 1. cbv zeta. lia.
Qed.

Section Year.
Variables (a c q k : Z).
Hypotheses (Hc : 0 ≤ c ≤ 3) (Hq : 0 ≤ q ≤ 24) (Hk : 0 ≤ k ≤ 3).
Let y := 400 * a + 100 * c + 4 * q + k.

Lemma year_parts : y / 400 = a ∧ y mod 400 / 100 = c ∧ y mod 400 mod 100 / 4 = q ∧ y mod 400 mod 100 mod 4 = k.
Proof.
  assert (y mod 400 = 100 * c + 4 * q + k) as -> by (symmetry; apply (Z.mod_unique _ _ a); unfold y; lia).
  assert ((100 * c + 4 * q + k) mod 100 = 4 * q + k) as -> by (symmetry; apply (Z.mod_unique _ _ c); lia).
  split_and!; symmetry.
  - apply (Z.div_unique _ _ _ (100 * c + 4 * q + k)); unfold y; lia.
  - apply (Z.div_unique _ _ _ (4 * q + k)); lia.
  - apply (Z.div_unique _ _ _ k); lia.
  - apply (Z.mod_unique _ _ q); lia.
Qed.

Lemma days_to_year_parts : days_to_year y = 146097 * a + 36524 * c + 1461 * q + 365 * k.
Proof. unfold days_to_year. destruct year_parts as (-> & -> & -> & ->). lia. Qed.

Lemma leap_parts : isLeap (y + 1) = (k =? 3) && (negb (q =? 24) || (c =? 3)).
Proof.
  unfold isLeap.
  assert ((y + 1) mod 4 = (k + 1) mod 4) as ->.
  { unfold y. replace (400 * a + 100 * c + 4 * q + k + 1) with (k + 1 + (100 * a + 25 * c + q) * 4) by lia. apply Z_mod_plus_full. }
  assert ((y + 1) mod 100 = (4 * q + k + 1) mod 100) as ->.
  { unfold y. replace (400 * a + 100 * c + 4 * q + k + 1) with (4 * q + k + 1 + (4 * a + c) * 100) by lia. apply Z_mod_plus_full. }
  assert ((y + 1) mod 400 = (100 * c + 4 * q + k + 1) mod 400) as ->.
  { unfold y. replace (400 * a + 100 * c + 4 * q + k + 1) with (100 * c + 4 * q + k + 1 + a * 400) by lia. apply Z_mod_plus_full. }
  assert (((k + 1) mod 4 =? 0) = (k =? 3)) as ->.
  { apply eq_true_iff_eq. rewrite !Z.eqb_eq. split; intros H; [|by subst].
    destruct (decide (k = 3)); [done|]. rewrite Z.mod_small in H; lia. }
  destruct (Z.eqb_spec k 3) as [->|]; [|done]. cbn [andb].
  assert (((4 * q + 3 + 1) mod 100 =? 0) = (q =? 24)) as ->.
  { apply eq_true_iff_eq. rewrite !Z.eqb_eq. split; intros H; [|by subst].
    destruct (decide (q = 24)); [done|]. rewrite Z.mod_small in H; lia. }
  destruct (Z.eqb_spec q 24) as [->|]; [|done]. cbn [negb orb].
  apply eq_true_iff_eq. rewrite !Z.eqb_eq. split; intros H; [|by subst].
  destruct (decide (c = 3)); [done|]. rewrite Z.mod_small in H; lia.
Qed.
End Year.

Lemma year_yday_ok days :
  let '(year, yday) := year_yday days in
  days_to_year (year - 1) + yday = days ∧ 0 ≤ yday < (if isLeap year then 366 else 365 : Z).
Proof.
  unfold year_yday. set (a := days / 146097). set (d1 := days mod 146097).
  assert (0 ≤ d1 < 146097) as H1 by (apply Z.mod_pos_bound; lia).
  assert (days = 146097 * a + d1) as Hd by (apply Z.div_mod; lia).
  destruct (period_split d1 36524) as (Hc & H2 & H2'); [lia..|].
  set (c := d1 / 36524 - d1 / 36524 / 4) in *. set (d2 := d1 - 36524 * c) in *.
  pose proof (Z.div_mod d2 1461 ltac:(lia)) as Hd2. pose proof (Z.mod_pos_bound d2 1461 ltac:(lia)) as H3.
  set (q := d2 / 1461) in *.
  assert (0 ≤ q ≤ 24) as Hq by (unfold q; split; [apply Z.div_pos; lia|]; fold q; nia).
  assert (d2 - 1461 * q = d2 mod 1461) as -> by lia. set (d3 := d2 mod 1461) in *.
  destruct (period_split d3 365) as (Hk & H4 & H4'); [lia..|].
  set (k := d3 / 365 - d3 / 365 / 4) in *.
  replace (400 * a + 100 * c + 4 * q + k + 1 - 1) with (400 * a + 100 * c + 4 * q + k) by lia.
  rewrite (days_to_year_parts a c q k) by lia. rewrite (leap_parts a c q k) by lia.
  split; [lia|]. split; [lia|]. destruct H4' as [|[Hk3 Hd3]].
  - case_match; lia.
  - rewrite Hk3. cbn [Z.eqb Pos.eqb andb]. destruct (Z.eqb_spec q 24); [|cbn [negb orb]; lia].
    destruct (Z.eqb_spec c 3); [cbn [negb orb]; lia|]. exfalso. lia.
Qed.

(** The date of a day is a date of the calendar, and it is that day. *)
Lemma absDate_ok days :
  let '(year, month, day) := absDate days in
  1 ≤ month ≤ 12 ∧ 1 ≤ day ≤ daysIn month year ∧ date_days year month day = days.
Proof.
  unfold absDate, date_days, daysIn. pose proof (year_yday_ok days) as Hy. destruct (year_yday days) as [year yday].
  destruct Hy as [Hy Hr]. pose proof (month_day_ok (isLeap year) yday Hr) as Hm.
  destruct (month_day (isLeap year) yday) as [month day]. destruct Hm as (H1 & H2 & H3 & H4).
  split_and!; [lia..|lia].
Qed.

(** ** Writing a time *)

Definition digit (n : Z) : ascii := ascii_of_N (48 + Z.to_N (n mod 10)).
(** The last [w] decimal digits of a number. *)
Fixpoint pad (w : nat) (n : Z) : list ascii :=
  match w with O => [] | S w' => pad w' (n / 10) ++ [digit n] end.

Fixpoint trim_zeros (l : list ascii) : list ascii :=
  match l with
  | [] => []
  | c :: l' => match trim_zeros l' with
               | [] => if Ascii.eqb c "0" then [] else [c]
               | l'' => c :: l''
               end
  end.

(** Fractional seconds without trailing zeros. *)
Definition fraction (ns : Z) : list ascii := if ns =? 0 then [] else "."%char :: trim_zeros (pad 9 ns).

(** The offset east of UTC, in seconds, to the minute. *)
Definition zone_text (off : Z) : list ascii :=
  if off =? 0 then ["Z"%char]
  else let zone := Z.quot off 60 in
       (if zone <? 0 then "-"%char else "+"%char) :: pad 2 (Z.abs zone / 60) ++ ":"%char :: pad 2 (Z.abs zone mod 60).

(** The days from 1 January of the year 1 to the Unix epoch. *)
Definition epoch_days : Z := 719162.
Definition second : Z := 1000000000.

(** [appendStrictRFC3339]; [None]: the year or the offset is out of range. *)
Definition time_text (off t : Z) : option (list ascii) :=
  let sec := t / second + off in
  let '(year, month, day) := absDate (sec / 86400 + epoch_days) in
  let s := sec mod 86400 in
  if (year <? 0) || (9999 <? year) || (24 * 60 <=? Z.abs (Z.quot off 60)) then None
  else Some (pad 4 year ++ "-"%char :: pad 2 month ++ "-"%char :: pad 2 day ++ "T"%char ::
             pad 2 (s / 3600) ++ ":"%char :: pad 2 (s mod 3600 / 60) ++ ":"%char :: pad 2 (s mod 60) ++
             fraction (t mod second) ++ zone_text off).

(** ** Reading a time *)

(** [n] digits with a value in a range, and what follows. *)
Definition digits (n : nat) (lo hi : Z) (s : list ascii) : option (Z * list ascii) :=
  let d := take n s in
  if Nat.eqb (length d) n && forallb is_digit d && (lo <=? dec_val d) && (dec_val d <=? hi)
  then Some (dec_val d, drop n s) else None.
Definition expect (c : ascii) (s : list ascii) : option (list ascii) :=
  match s with x :: s' => if Ascii.eqb x c then Some s' else None | [] => None end.

(** [parseNanoseconds] of at most nine digits. *)
Definition nanoseconds (ds : list ascii) : Z :=
  let ds := take 9 ds in dec_val ds * 10 ^ (9 - Z.of_nat (length ds)).

Definition parse_fraction (s : list ascii) : Z * list ascii :=
  match s with
  | dot :: c :: _ =>
      if Ascii.eqb dot "." && is_digit c
      then let '(ds, rest) := span_digits (tail s) in (nanoseconds ds, rest) else (0, s)
  | _ => (0, s)
  end.

Definition parse_zone (s : list ascii) : option Z :=
  match s with
  | [z] => if Ascii.eqb z "Z" then Some 0 else None
  | sign :: s' =>
      '(hr, s1) ← digits 2 0 23 s'; s2 ← expect ":" s1; '(mm, s3) ← digits 2 0 59 s2;
      match s3 with
      | [] => if Ascii.eqb sign "-" then Some (- ((hr * 60 + mm) * 60))
              else if Ascii.eqb sign "+" then Some ((hr * 60 + mm) * 60) else None
      | _ => None
      end
  | [] => None
  end.

(** [parseRFC3339]; [None]: the text is not of that shape. *)
Definition parseRFC3339 (s : list ascii) : option Z :=
  '(year, s) ← digits 4 0 9999 s; s ← expect "-" s;
  '(month, s) ← digits 2 1 12 s; s ← expect "-" s;
  '(day, s) ← digits 2 1 (daysIn month year) s; s ← expect "T" s;
  '(hour, s) ← digits 2 0 23 s; s ← expect ":" s;
  '(min, s) ← digits 2 0 59 s; s ← expect ":" s;
  '(sec, s) ← digits 2 0 59 s;
  let '(nsec, s) := parse_fraction s in
  off ← parse_zone s;
  Some (((date_days year month day - epoch_days) * 86400 + hour * 3600 + min * 60 + sec - off) * second + nsec).

Example epoch_text : of_chars <$> time_text 0 0 = Some "1970-01-01T00:00:00Z"%string.
Proof. reflexivity. Qed.
Example leap_text : of_chars <$> time_text (-9000) 1709210096789000000 = Some "2024-02-29T10:04:56.789-02:30"%string.
Proof. reflexivity. Qed.

(** ** What is written is read back *)

Lemma digit_is_digit n : is_digit (digit n) = true ∧ digit_val (digit n) = n mod 10.
Proof.
  unfold digit. pose proof (Z.mod_pos_bound n 10 ltac:(lia)) as H.
  assert (forallb (λ k, is_digit (ascii_of_N (48 + Z.to_N k)) && (digit_val (ascii_of_N (48 + Z.to_N k)) =? k))
    (seqZ 0 10) = true) as Hall by reflexivity.
  rewrite forallb_forall in Hall. specialize (Hall (n mod 10) ltac:(apply list_elem_of_In, elem_of_seqZ; lia)).
  apply andb_true_iff in Hall as [H1 H2%Z.eqb_eq]. done.
Qed.

Lemma length_pad w n : length (pad w n) = w.
Proof. revert n. induction w as [|w IH]; intros n; [done|]. simpl. rewrite length_app, IH. simpl. lia. Qed.

Lemma pad_digits w n : forallb is_digit (pad w n) = true.
Proof.
  revert n. induction w as [|w IH]; intros n; [done|]. simpl. rewrite forallb_app, IH. simpl.
  by rewrite (proj1 (digit_is_digit n)).
Qed.

Lemma dec_val_pad w n : 0 ≤ n < 10 ^ Z.of_nat w → dec_val (pad w n) = n.
Proof.
  revert n. induction w as [|w IH]; intros n Hn; [change (10 ^ Z.of_nat 0) with 1 in Hn; unfold dec_val; simpl; lia|].
  cbn [pad]. rewrite dec_val_snoc, (proj2 (digit_is_digit n)).
  rewrite Nat2Z.inj_succ, Z.pow_succ_r in Hn by lia.
  rewrite IH by (split; [apply Z.div_pos; lia|apply Z.div_lt_upper_bound; lia]).
  pose proof (Z.div_mod n 10 ltac:(lia)). lia.
Qed.

Lemma digits_pad n lo hi v r :
  lo ≤ v ≤ hi → 0 ≤ v < 10 ^ Z.of_nat n → digits n lo hi (pad n v ++ r) = Some (v, r).
Proof.
  intros Hv Hn. unfold digits. rewrite take_app_length', drop_app_length' by (by rewrite length_pad).
  rewrite length_pad, Nat.eqb_refl, pad_digits, dec_val_pad by done. cbn [andb].
  by rewrite (proj2 (Z.leb_le lo v)), (proj2 (Z.leb_le v hi)) by lia.
Qed.

Lemma span_digits_all ds r :
  forallb is_digit ds = true → match r with [] => True | c :: _ => is_digit c = false end →
  span_digits (ds ++ r) = (ds, r).
Proof.
  intros Hd Hr. induction ds as [|c ds IH]; simpl.
  - destruct r as [|c r]; [done|]. simpl. by rewrite Hr.
  - simpl in Hd. apply andb_true_iff in Hd as [-> Hd]. by rewrite (IH Hd).
Qed.

Lemma trim_zeros_spec l :
  ∃ k, l = trim_zeros l ++ replicate k "0"%char.
Proof.
  induction l as [|c l [k IH]]; [by exists 0%nat|]. simpl. destruct (trim_zeros l) as [|x l'] eqn:E.
  - simpl in IH. destruct (Ascii.eqb_spec c "0") as [->|].
    + exists (S k). simpl. by rewrite IH.
    + exists k. simpl. by rewrite IH.
  - exists k. simpl. by rewrite IH.
Qed.

Lemma dec_val_zeros k : dec_val (replicate k "0"%char) = 0.
Proof. induction k as [|k IH]; [done|]. by rewrite replicate_S_end, dec_val_snoc, IH. Qed.

Lemma fraction_read ns r :
  0 ≤ ns < second → match r with [] => True | c :: _ => is_digit c = false ∧ c ≠ "."%char end →
  parse_fraction (fraction ns ++ r) = (ns, r).
Proof.
  intros Hns Hr. unfold fraction. destruct (Z.eqb_spec ns 0) as [->|Hne].
  { simpl. destruct r as [|c [|c' r]]; [done..|]. destruct Hr as [_ Hr]. simpl.
    destruct (Ascii.eqb_spec c "."); [done|]. done. }
  destruct (trim_zeros_spec (pad 9 ns)) as [k Hk]. set (ds := trim_zeros (pad 9 ns)) in *.
  assert (forallb is_digit ds = true) as Hd.
  { pose proof (pad_digits 9 ns) as H. rewrite Hk, forallb_app in H. by apply andb_true_iff in H as [? _]. }
  assert (length ds + k = 9)%nat as Hl by (rewrite <- (length_pad 9 ns), Hk, length_app, length_replicate; lia).
  assert (dec_val ds * 10 ^ Z.of_nat k = ns) as Hv.
  { rewrite <- (dec_val_pad 9 ns) by done. rewrite Hk, dec_val_app, length_replicate, dec_val_zeros. lia. }
  destruct ds as [|d ds']; [unfold dec_val in Hv; simpl in Hv; lia|].
  cbn [app parse_fraction tail]. assert (is_digit d = true) as Hd1 by (simpl in Hd; by apply andb_true_iff in Hd as [? _]).
  rewrite Ascii.eqb_refl, Hd1. cbn [andb].
  change (d :: ds' ++ r) with ((d :: ds') ++ r). rewrite span_digits_all by (done || (destruct r; [done|by destruct Hr])).
  f_equal. unfold nanoseconds. rewrite take_ge by lia. rewrite <- Hv. f_equal. f_equal. lia.
Qed.

Lemma zone_read off :
  off mod 60 = 0 → Z.abs (Z.quot off 60) < 24 * 60 → parse_zone (zone_text off) = Some off.
Proof.
  intros Hm Hr. unfold zone_text. destruct (Z.eqb_spec off 0) as [->|Hne]; [done|].
  assert (off = 60 * (off / 60)) as Ho by (pose proof (Z.div_mod off 60 ltac:(lia)); lia).
  assert (Z.quot off 60 = off / 60) as Hq.
  { rewrite Ho at 1. rewrite Z.mul_comm. by rewrite Z.quot_mul by lia. }
  rewrite Hq in *. set (z := off / 60) in *. clearbody z. cbv zeta.
  pose proof (Z.div_mod (Z.abs z) 60 ltac:(lia)). pose proof (Z.mod_pos_bound (Z.abs z) 60 ltac:(lia)).
  assert (0 ≤ Z.abs z / 60 < 24) by (split; [apply Z.div_pos; lia|apply Z.div_lt_upper_bound; lia]).
  assert (∀ c s, c ≠ "Z"%char ∨ s ≠ [] → s ≠ [] → parse_zone (c :: s) =
    ('(hr, s1) ← digits 2 0 23 s; s2 ← expect ":" s1; '(mm, s3) ← digits 2 0 59 s2;
      match s3 with
      | [] => if Ascii.eqb c "-" then Some (- ((hr * 60 + mm) * 60))
              else if Ascii.eqb c "+" then Some ((hr * 60 + mm) * 60) else None
      | _ => None
      end)) as Hcons by (by intros c [|] _).
  assert (pad 2 (Z.abs z / 60) ++ ":"%char :: pad 2 (Z.abs z mod 60) ≠ []) as Hnil.
  { intros E%(f_equal length). rewrite length_app, length_pad in E. simpl in E. lia. }
  rewrite Hcons by auto. rewrite digits_pad by (simpl; lia). cbn [mbind option_bind expect].
  rewrite Ascii.eqb_refl. cbn [mbind option_bind]. rewrite <- (app_nil_r (pad 2 (Z.abs z mod 60))).
  rewrite digits_pad by (simpl; lia). cbn [mbind option_bind].
  destruct (Z.ltb_spec z 0); cbn [Ascii.eqb Bool.eqb]; f_equal; lia.
Qed.

Lemma zone_text_start off : match zone_text off with [] => True | c :: _ => is_digit c = false ∧ c ≠ "."%char end.
Proof. unfold zone_text. destruct (off =? 0); [done|]. by destruct (_ <? 0). Qed.

(** A time written in a zone of whole minutes is read back to the nanosecond. *)
Lemma time_text_read off t s :
  off mod 60 = 0 → time_text off t = Some s → parseRFC3339 s = Some t.
Proof.
  intros Hoff. unfold time_text. set (sec := t / second + off).
  pose proof (absDate_ok (sec / 86400 + epoch_days)) as Hd.
  destruct (absDate (sec / 86400 + epoch_days)) as [[year month] day]. destruct Hd as (Hm & Hday & Hdays).
  destruct (_ || _) eqn:Er; [done|]. intros E. apply (inj Some) in E as <-.
  rewrite !orb_false_iff, !Z.ltb_ge, Z.leb_gt in Er. destruct Er as [[Hy1 Hy2] Hz].
  assert (daysIn month year ≤ 31) as Hdi.
  { assert (forallb (λ m, days_before m - days_before (m - 1) <=? 31) (seqZ 1 12) = true) as Hall by reflexivity.
    rewrite forallb_forall in Hall. specialize (Hall month ltac:(apply list_elem_of_In, elem_of_seqZ; lia)).
    unfold daysIn. case_match; lia. }
  pose proof (Z.div_mod sec 86400 ltac:(lia)) as Hs. pose proof (Z.mod_pos_bound sec 86400 ltac:(lia)) as Hsr.
  set (s := sec mod 86400) in *.
  pose proof (Z.div_mod s 3600 ltac:(lia)) as Hh. pose proof (Z.mod_pos_bound s 3600 ltac:(lia)) as Hhr.
  assert (0 ≤ s / 3600 < 24) by (split; [apply Z.div_pos; lia|apply Z.div_lt_upper_bound; lia]).
  pose proof (Z.div_mod (s mod 3600) 60 ltac:(lia)) as Hmi. pose proof (Z.mod_pos_bound (s mod 3600) 60 ltac:(lia)) as Hmir.
  assert (0 ≤ s mod 3600 / 60 < 60) by (split; [apply Z.div_pos; lia|apply Z.div_lt_upper_bound; lia]).
  assert (s mod 60 = s mod 3600 mod 60) as Hsec.
  { rewrite Hh at 1. replace (3600 * (s / 3600) + s mod 3600) with (s mod 3600 + 60 * (s / 3600) * 60) by lia.
    by rewrite Z_mod_plus_full. }
  rewrite Hsec. unfold parseRFC3339.
  repeat first [rewrite digits_pad by (simpl; lia) | progress cbn [mbind option_bind expect] | rewrite Ascii.eqb_refl].
  pose proof (Z.mod_pos_bound t second ltac:(done)) as Hns.
  rewrite fraction_read by (done || apply zone_text_start). rewrite zone_read by done. cbn [mbind option_bind].
  f_equal. rewrite Hdays. pose proof (Z.div_mod t second ltac:(done)). unfold sec, epoch_days in *. lia.
Qed.

(** A time of the machine's clock, in UTC, has a text. *)
Lemma clock_has_text t : 0 ≤ t < 2 ^ 63 → is_Some (time_text 0 t).
Proof.
  intros Ht. unfold time_text. set (sec := t / second + 0).
  assert (0 ≤ sec < 9223372037) as Hsec by (unfold sec, second; split; [apply Z.add_nonneg_nonneg; [apply Z.div_pos; lia|lia]
    |rewrite Z.add_0_r; apply Z.div_lt_upper_bound; lia]).
  assert (0 ≤ sec / 86400 < 106752) as Hdays by (split; [apply Z.div_pos; lia|apply Z.div_lt_upper_bound; lia]).
  pose proof (year_yday_ok (sec / 86400 + epoch_days)) as Hy. unfold absDate.
  destruct (year_yday (sec / 86400 + epoch_days)) as [year yday]. destruct Hy as [Hy Hr].
  destruct (month_day (isLeap year) yday) as [month day].
  assert (0 ≤ year ≤ 9999) as Hyear.
  { assert (0 ≤ yday < 366) as Hr' by (destruct (isLeap year); lia).
    unfold days_to_year, epoch_days in Hy. set (y := year - 1) in *.
    pose proof (Z.div_mod y 400 ltac:(lia)). pose proof (Z.mod_pos_bound y 400 ltac:(lia)).
    set (y4 := y mod 400) in *. pose proof (Z.div_mod y4 100 ltac:(lia)). pose proof (Z.mod_pos_bound y4 100 ltac:(lia)).
    set (y1 := y4 mod 100) in *. pose proof (Z.div_mod y1 4 ltac:(lia)). pose proof (Z.mod_pos_bound y1 4 ltac:(lia)). lia. }
  rewrite (proj2 (Z.ltb_ge _ _)), (proj2 (Z.ltb_ge _ _)) by lia. cbn [orb]. by eexists.
Qed.
