(* ===== verification/Json.v ===== *)
(** * JSON text: what the source uses of Go's encoding/json

    A value is kept as the decoder sees it: numbers and strings as they stand
    in the text.  [print] is the text [MarshalIndent] writes with two spaces,
    [parse_json] the grammar [Unmarshal] accepts; [quote] and [unquote] are
    the string literal of a Go string and back. *)

From Stdlib Require Import Floats.SpecFloat.
From S2P Require Import Prelude Text Config Collectors.

(** ** Bytes and runes *)

Definition code (c : ascii) : Z := Z.of_N (N_of_ascii c).
Definition chr (n : Z) : ascii := ascii_of_N (Z.to_N n).
Definition between (lo hi : Z) (c : ascii) : bool := (lo <=? code c) && (code c <=? hi).

(** The bytes of well-formed UTF-8 sequences beyond ASCII. *)
Definition wide2 (a b : ascii) : bool := between 194 223 a && between 128 191 b.
Definition wide3 (a b c : ascii) : bool :=
  (((code a =? 224) && between 160 191 b) || ((between 225 236 a || between 238 239 a) && between 128 191 b) ||
   ((code a =? 237) && between 128 159 b)) && between 128 191 c.
Definition wide4 (a b c d : ascii) : bool :=
  (((code a =? 240) && between 144 191 b) || (between 241 243 a && between 128 191 b) ||
   ((code a =? 244) && between 128 143 b)) && between 128 191 c && between 128 191 d.

(** A byte string cut as [utf8.DecodeRune] does: ASCII, longer sequences, and
    bytes that begin none. *)
Inductive rune := RAscii (c : ascii) | RWide (l : list ascii) | RBad (c : ascii).

Fixpoint runes (s : list ascii) : list rune :=
  match s with
  | [] => []
  | a :: s1 =>
      if code a <? 128 then RAscii a :: runes s1
      else match s1 with
      | b :: s2 =>
          if wide2 a b then RWide [a; b] :: runes s2
          else match s2 with
          | c :: s3 =>
              if wide3 a b c then RWide [a; b; c] :: runes s3
              else match s3 with
              | d :: s4 => if wide4 a b c d then RWide [a; b; c; d] :: runes s4 else RBad a :: runes s1
              | [] => RBad a :: runes s1
              end
          | [] => RBad a :: runes s1
          end
      | [] => RBad a :: runes s1
      end
  end.

Definition rune_bytes (r : rune) : list ascii := match r with RAscii c | RBad c => [c] | RWide l => l end.
Definition runes_bytes (l : list rune) : list ascii := concat (rune_bytes <$> l).

(** [utf8.ValidString]. *)
Definition valid_utf8 (s : list ascii) : bool :=
  forallb (λ r, match r with RBad _ => false | _ => true end) (runes s).

(** [utf8.EncodeRune] of a code point that is not a surrogate. *)
Definition encode_rune (n : Z) : list ascii :=
  if n <? 128 then [chr n]
  else if n <? 2048 then [chr (192 + n / 64); chr (128 + n mod 64)]
  else if n <? 65536 then [chr (224 + n / 4096); chr (128 + n / 64 mod 64); chr (128 + n mod 64)]
  else [chr (240 + n / 262144); chr (128 + n / 4096 mod 64); chr (128 + n / 64 mod 64); chr (128 + n mod 64)].

(** U+FFFD. *)
Definition replacement : list ascii := chr <$> [239; 191; 189].

(** ** String literals *)

Definition quote_char : ascii := chr 34.
Definition backslash : ascii := chr 92.
Definition hex_digit (n : Z) : ascii := chr (if n <? 10 then 48 + n else 87 + n).
Definition hex_val (c : ascii) : option Z :=
  if between 48 57 c then Some (code c - 48)
  else if between 97 102 c then Some (code c - 87)
  else if between 65 70 c then Some (code c - 55) else None.

Definition esc (c : ascii) : list rune := [RAscii backslash; RAscii c].
Definition esc_u (n : Z) : list rune :=
  RAscii <$> [backslash; "u"%char; hex_digit (n / 4096); hex_digit (n / 256 mod 16); hex_digit (n / 16 mod 16); hex_digit (n mod 16)].

(** [appendString] on one rune, with HTML escapes. *)
Definition quote_rune (r : rune) : list rune :=
  match r with
  | RAscii c =>
      let n := code c in
      if (n =? 34) || (n =? 92) then esc c
      else if n =? 8 then esc "b" else if n =? 12 then esc "f" else if n =? 10 then esc "n"
      else if n =? 13 then esc "r" else if n =? 9 then esc "t"
      else if (n <? 32) || (n =? 60) || (n =? 62) || (n =? 38) then esc_u n
      else [r]
  | RBad _ => esc_u 65533
  | RWide l => if decide (l = encode_rune 8232) then esc_u 8232
               else if decide (l = encode_rune 8233) then esc_u 8233 else [r]
  end.
(** The text between the quotes. *)
Definition quote (s : list ascii) : list ascii := runes_bytes (mjoin (quote_rune <$> runes s)).

Definition surrogate (n : Z) : bool := (55296 <=? n) && (n <=? 57343).
(** [getu4] on the four digits. *)
Definition hex4 (a b c d : ascii) : option Z :=
  a ← hex_val a; b ← hex_val b; c ← hex_val c; d ← hex_val d; Some (a * 4096 + b * 256 + c * 16 + d).
Definition escape_char (e : ascii) : ascii :=
  if Ascii.eqb e "b" then chr 8 else if Ascii.eqb e "f" then chr 12 else if Ascii.eqb e "n" then chr 10
  else if Ascii.eqb e "r" then chr 13 else if Ascii.eqb e "t" then chr 9 else e.

(** [unquoteBytes] of a literal the grammar accepted. *)
Fixpoint unquote_runes (l : list rune) : list ascii :=
  match l with
  | [] => []
  | RWide w :: l' => w ++ unquote_runes l'
  | RBad _ :: l' => replacement ++ unquote_runes l'
  | RAscii c :: l' =>
      if Ascii.eqb c backslash then
        match l' with
        | RAscii e :: l2 =>
            if Ascii.eqb e "u" then
              match l2 with
              | RAscii h1 :: RAscii h2 :: RAscii h3 :: RAscii h4 :: l3 =>
                  match hex4 h1 h2 h3 h4 with
                  | Some n =>
                      if surrogate n then
                        match l3 with
                        | RAscii b :: RAscii u :: RAscii g1 :: RAscii g2 :: RAscii g3 :: RAscii g4 :: l4 =>
                            match hex4 g1 g2 g3 g4 with
                            | Some m =>
                                if Ascii.eqb b backslash && Ascii.eqb u "u" && (n <? 56320) && (56320 <=? m) && surrogate m
                                then encode_rune (65536 + (n - 55296) * 1024 + (m - 56320)) ++ unquote_runes l4
                                else replacement ++ unquote_runes l3
                            | None => replacement ++ unquote_runes l3
                            end
                        | _ => replacement ++ unquote_runes l3
                        end
                      else encode_rune n ++ unquote_runes l3
                  | None => []
                  end
              | _ => []
              end
            else escape_char e :: unquote_runes l2
        | _ => []
        end
      else c :: unquote_runes l'
  end.
Definition unquote (raw : list ascii) : list ascii := unquote_runes (runes raw).

(** ** Values and their text *)

Inductive json :=
| JNull | JBool (b : bool) | JNum (lit : list ascii) | JStr (raw : list ascii)
| JArr (l : list json) | JObj (fs : list (list ascii * json)).

Definition txt (s : string) : list ascii := chars s.
(** A line break and the indentation of a depth. *)
Definition line (d : nat) : list ascii := chr 10 :: replicate (2 * d) " "%char.
Definition literal (raw : list ascii) : list ascii := quote_char :: raw ++ [quote_char].

(** Pieces with commas and line breaks between them. *)
Fixpoint separated (d : nat) (l : list (list ascii)) : list ascii :=
  match l with
  | [] => []
  | [x] => x
  | x :: l' => x ++ ","%char :: line d ++ separated d l'
  end.

Fixpoint print (d : nat) (v : json) : list ascii :=
  match v with
  | JNull => txt "null"
  | JBool b => txt (if b then "true" else "false")
  | JNum lit => lit
  | JStr raw => literal raw
  | JArr [] => txt "[]"
  | JArr l => "["%char :: line (S d) ++ separated (S d) (map (print (S d)) l) ++ line d ++ ["]"%char]
  | JObj [] => txt "{}"
  | JObj fs =>
      "{"%char :: line (S d) ++
      separated (S d) (map (λ f, literal f.1 ++ txt ": " ++ print (S d) f.2) fs) ++ line d ++ ["}"%char]
  end.

(** ** The grammar *)

Definition is_ws (c : ascii) : bool := (code c =? 32) || (code c =? 9) || (code c =? 10) || (code c =? 13).
Fixpoint skip_ws (s : list ascii) : list ascii :=
  match s with c :: s' => if is_ws c then skip_ws s' else s | [] => [] end.

Definition prepend (p : list ascii) (r : option (list ascii * list ascii)) : option (list ascii * list ascii) :=
  '(raw, s) ← r; Some (p ++ raw, s).
Definition is_hex (c : ascii) : bool := match hex_val c with Some _ => true | None => false end.
Definition simple_escape (c : ascii) : bool :=
  existsb (Ascii.eqb c) ["b"; "f"; "n"; "r"; "t"; backslash; "/"; quote_char]%char.

(** A string literal after its first quote: its text and what follows. *)
Fixpoint scan_str (s : list ascii) : option (list ascii * list ascii) :=
  match s with
  | [] => None
  | c :: s1 =>
      if Ascii.eqb c quote_char then Some ([], s1)
      else if Ascii.eqb c backslash then
        match s1 with
        | e :: s2 =>
            if simple_escape e then prepend [c; e] (scan_str s2)
            else if Ascii.eqb e "u" then
              match s2 with
              | h1 :: h2 :: h3 :: h4 :: s3 =>
                  if is_hex h1 && is_hex h2 && is_hex h3 && is_hex h4
                  then prepend [c; e; h1; h2; h3; h4] (scan_str s3) else None
              | _ => None
              end
            else None
        | [] => None
        end
      else if code c <? 32 then None
      else prepend [c] (scan_str s1)
  end.

(** One digit at least. *)
Definition digits1 (s : list ascii) : option (list ascii * list ascii) :=
  match span_digits s with ([], _) => None | r => Some r end.
Definition scan_int (s : list ascii) : option (list ascii * list ascii) :=
  match s with
  | c :: s' => if Ascii.eqb c "0" then Some ([c], s') else digits1 s
  | [] => None
  end.
Definition scan_frac (s : list ascii) : option (list ascii * list ascii) :=
  match s with
  | c :: s' => if Ascii.eqb c "." then prepend [c] (digits1 s') else Some ([], s)
  | [] => Some ([], [])
  end.
Definition scan_exp (s : list ascii) : option (list ascii * list ascii) :=
  match s with
  | c :: s' =>
      if Ascii.eqb c "e" || Ascii.eqb c "E" then
        match s' with
        | g :: s'' => if Ascii.eqb g "+" || Ascii.eqb g "-" then prepend [c; g] (digits1 s'') else prepend [c] (digits1 s')
        | [] => None
        end
      else Some ([], s)
  | [] => Some ([], [])
  end.
Definition scan_num (s : list ascii) : option (list ascii * list ascii) :=
  let '(sign, s0) := match s with c :: s' => if Ascii.eqb c "-" then ([c], s') else ([], s) | [] => ([], []) end in
  '(i, s1) ← scan_int s0; '(f, s2) ← scan_frac s1; '(e, s3) ← scan_exp s2; Some (sign ++ i ++ f ++ e, s3).

Definition maxNestingDepth : Z := 10000.

(** A value, the rest of an array or object after its first brace or comma,
    each with what follows.  [d]: the arrays and objects that are open. *)
Fixpoint pval (n : nat) (d : Z) (s : list ascii) : option (json * list ascii) :=
  match n with
  | O => None
  | S n =>
      match skip_ws s with
      | [] => None
      | c :: s1 =>
          if Ascii.eqb c quote_char then '(raw, r) ← scan_str s1; Some (JStr raw, r)
          else if Ascii.eqb c "[" then
            if maxNestingDepth <=? d then None
            else match skip_ws s1 with
                 | x :: s2 => if Ascii.eqb x "]" then Some (JArr [], s2) else '(l, r) ← pitems n (d + 1) s1; Some (JArr l, r)
                 | [] => None
                 end
          else if Ascii.eqb c "{" then
            if maxNestingDepth <=? d then None
            else match skip_ws s1 with
                 | x :: s2 => if Ascii.eqb x "}" then Some (JObj [], s2) else '(l, r) ← pmembers n (d + 1) s1; Some (JObj l, r)
                 | [] => None
                 end
          else if Ascii.eqb c "n" then r ← strip (txt "ull") s1; Some (JNull, r)
          else if Ascii.eqb c "t" then r ← strip (txt "rue") s1; Some (JBool true, r)
          else if Ascii.eqb c "f" then r ← strip (txt "alse") s1; Some (JBool false, r)
          else '(lit, r) ← scan_num (c :: s1); Some (JNum lit, r)
      end
  end
with pitems (n : nat) (d : Z) (s : list ascii) : option (list json * list ascii) :=
  match n with
  | O => None
  | S n =>
      '(v, s1) ← pval n d s;
      match skip_ws s1 with
      | x :: s2 =>
          if Ascii.eqb x "," then '(l, r) ← pitems n d s2; Some (v :: l, r)
          else if Ascii.eqb x "]" then Some ([v], s2) else None
      | [] => None
      end
  end
with pmembers (n : nat) (d : Z) (s : list ascii) : option (list (list ascii * json) * list ascii) :=
  match n with
  | O => None
  | S n =>
      match skip_ws s with
      | c :: s1 =>
          if Ascii.eqb c quote_char then
            '(k, s2) ← scan_str s1;
            match skip_ws s2 with
            | x :: s3 =>
                if Ascii.eqb x ":" then
                  '(v, s4) ← pval n d s3;
                  match skip_ws s4 with
                  | y :: s5 =>
                      if Ascii.eqb y "," then '(l, r) ← pmembers n d s5; Some ((k, v) :: l, r)
                      else if Ascii.eqb y "}" then Some ([(k, v)], s5) else None
                  | [] => None
                  end
                else None
            | [] => None
            end
          else None
      | [] => None
      end
  end.

(** Enough for any text (see [pval_fuel]). *)
Definition parse_fuel (s : list ascii) : nat := S (2 * length s).

(** [Unmarshal] up to the decoding: one value and nothing after it. *)
Definition parse_json (s : list ascii) : option json :=
  '(v, r) ← pval (parse_fuel s) 0 s;
  match skip_ws r with [] => Some v | _ => None end.

(** ** Fuel *)

Lemma skip_ws_length s : (length (skip_ws s) ≤ length s)%nat.
Proof. induction s as [|c s IH]; simpl; [done|]. destruct (is_ws c); simpl; lia. Qed.

Lemma strip_length p s r : strip p s = Some r → (length r ≤ length s)%nat.
Proof.
  revert s. induction p as [|a p IH]; intros s H; simpl in H; [by simplify_eq|].
  destruct s as [|b s]; [done|]. destruct (Ascii.eqb a b); [|done]. apply IH in H. simpl. lia.
Qed.

Lemma prepend_inv p q raw r : prepend p q = Some (raw, r) → ∃ raw', q = Some (raw', r) ∧ raw = p ++ raw'.
Proof. unfold prepend. destruct q as [[a b]|]; simpl; [|done]. intros [= <- <-]. by exists a. Qed.

Lemma scan_str_length s raw r : scan_str s = Some (raw, r) → (length r < length s)%nat.
Proof.
  revert raw. induction s as [s IH] using (induction_ltof1 _ (@length ascii)). unfold ltof in IH. intros raw H.
  destruct s as [|c s1]; [done|]. simpl in H. simpl.
  destruct (Ascii.eqb c quote_char); [simplify_eq; lia|].
  destruct (Ascii.eqb c backslash).
  - destruct s1 as [|e s2]; [done|]. destruct (simple_escape e).
    { apply prepend_inv in H as (raw' & H & _). apply IH in H; simpl; lia. }
    destruct (Ascii.eqb e "u"); [|done]. destruct s2 as [|h1 [|h2 [|h3 [|h4 s3]]]]; try done.
    destruct (_ && _); [|done]. apply prepend_inv in H as (raw' & H & _). apply IH in H; simpl in *; lia.
  - destruct (code c <? 32); [done|]. apply prepend_inv in H as (raw' & H & _). apply IH in H; simpl; lia.
Qed.

Lemma span_digits_length s d r : span_digits s = (d, r) → (length d + length r = length s)%nat.
Proof.
  revert d. induction s as [|c s IH]; intros d H; simpl in H; [by simplify_eq|].
  destruct (is_digit c); [|by simplify_eq]. destruct (span_digits s) as [d' r'] eqn:E. simplify_eq/=.
  specialize (IH _ eq_refl). lia.
Qed.

Lemma digits1_length s d r : digits1 s = Some (d, r) → (length r < length s)%nat.
Proof.
  unfold digits1. destruct (span_digits s) as [[|c d'] r'] eqn:E; [done|]. intros [= <- <-].
  apply span_digits_length in E. simpl in E. lia.
Qed.

Lemma scan_num_length s lit r : scan_num s = Some (lit, r) → (length r < length s)%nat.
Proof.
  unfold scan_num.
  assert (∀ s0 i s1 f s2 e s3, scan_int s0 = Some (i, s1) → scan_frac s1 = Some (f, s2) → scan_exp s2 = Some (e, s3) →
    (length s3 < length s0)%nat) as Hn.
  { intros s0 i s1 f s2 e s3 Hi Hf He.
    assert (length s1 < length s0)%nat.
    { unfold scan_int in Hi. destruct s0 as [|c s0]; [done|]. destruct (Ascii.eqb c "0"); [simplify_eq; simpl; lia|].
      by apply digits1_length in Hi. }
    assert (length s2 ≤ length s1)%nat.
    { unfold scan_frac in Hf. destruct s1 as [|c s1']; [by simplify_eq|]. destruct (Ascii.eqb c "."); [|by simplify_eq].
      apply prepend_inv in Hf as (? & Hf & _). apply digits1_length in Hf. simpl. lia. }
    assert (length s3 ≤ length s2)%nat.
    { unfold scan_exp in He. destruct s2 as [|c s2']; [by simplify_eq|]. destruct (_ || _); [|by simplify_eq].
      destruct s2' as [|g s2'']; [done|]. destruct (_ || _); apply prepend_inv in He as (? & He & _);
        apply digits1_length in He; simpl in *; lia. }
    lia. }
  set (p := match s with c :: s' => if Ascii.eqb c "-" then ([c], s') else ([], s) | [] => ([], []) end).
  assert (length p.2 ≤ length s)%nat as Hp by (unfold p; destruct s as [|c s']; [done|]; destruct (Ascii.eqb c "-"); simpl; lia).
  destruct p as [sign s0]. intros H.
  destruct (scan_int s0) as [[i s1]|] eqn:Ei; [|done]. cbn [mbind option_bind] in H.
  destruct (scan_frac s1) as [[f s2]|] eqn:Ef; [|done]. cbn [mbind option_bind] in H.
  destruct (scan_exp s2) as [[e s3]|] eqn:Ee; [|done]. cbn [mbind option_bind] in H.
  assert (s3 = r) as <- by (by injection H). eapply Nat.lt_le_trans; [by eapply (Hn s0)|done].
Qed.

#[local] Arguments strip : simpl never.
#[local] Arguments scan_num : simpl never.

(** Break an option bind in a hypothesis. *)
Ltac bind_inv H :=
  match type of H with
  | (?o ≫= _) = Some _ =>
      let E := fresh "E" in destruct o as [?|] eqn:E; [cbn [mbind option_bind] in H|discriminate]
  end.

(** What is left is shorter. *)
Lemma parse_length n :
  (∀ d s v r, pval n d s = Some (v, r) → (length r < length s)%nat) ∧
  (∀ d s l r, pitems n d s = Some (l, r) → (length r < length s)%nat) ∧
  (∀ d s l r, pmembers n d s = Some (l, r) → (length r < length s)%nat).
Proof.
  induction n as [|n (IHv & IHi & IHm)]; [by split_and!|]. split_and!; intros d s v r H; simpl in H.
  - pose proof (skip_ws_length s). destruct (skip_ws s) as [|c s1]; [done|]. simpl in *.
    assert (∀ x s2, skip_ws s1 = x :: s2 → (length s2 < length s1)%nat) as Hx.
    { intros x s2 E. pose proof (skip_ws_length s1) as Hl. rewrite E in Hl. simpl in Hl. lia. }
    destruct (Ascii.eqb c quote_char).
    { bind_inv H. destruct p as [raw r']. apply scan_str_length in E. simplify_eq. lia. }
    destruct (Ascii.eqb c "[").
    { destruct (maxNestingDepth <=? d); [done|]. destruct (skip_ws s1) as [|x s2]; [done|]. specialize (Hx _ _ eq_refl).
      destruct (Ascii.eqb x "]"); [simplify_eq; lia|]. bind_inv H. destruct p as [l r']. apply IHi in E. simplify_eq. lia. }
    destruct (Ascii.eqb c "{").
    { destruct (maxNestingDepth <=? d); [done|]. destruct (skip_ws s1) as [|x s2]; [done|]. specialize (Hx _ _ eq_refl).
      destruct (Ascii.eqb x "}"); [simplify_eq; lia|]. bind_inv H. destruct p as [l r']. apply IHm in E. simplify_eq. lia. }
    destruct (Ascii.eqb c "n"); [|destruct (Ascii.eqb c "t"); [|destruct (Ascii.eqb c "f")]]; bind_inv H.
    1-3: apply strip_length in E; simplify_eq; lia.
    destruct p as [lit r']. apply scan_num_length in E. simplify_eq. simpl in E. lia.
  - bind_inv H. destruct p as [w s1]. apply IHv in E. pose proof (skip_ws_length s1).
    destruct (skip_ws s1) as [|x s2]; [done|]. simpl in *. destruct (Ascii.eqb x ",").
    + bind_inv H. destruct p as [l r']. apply IHi in E0. simplify_eq. lia.
    + destruct (Ascii.eqb x "]"); [|done]. simplify_eq. lia.
  - pose proof (skip_ws_length s). destruct (skip_ws s) as [|c s1]; [done|]. destruct (Ascii.eqb c quote_char); [|done].
    bind_inv H. destruct p as [k s2]. apply scan_str_length in E. pose proof (skip_ws_length s2).
    destruct (skip_ws s2) as [|x s3]; [done|]. destruct (Ascii.eqb x ":"); [|done].
    bind_inv H. destruct p as [w s4]. apply IHv in E0. pose proof (skip_ws_length s4).
    destruct (skip_ws s4) as [|y s5]; [done|]. simpl in *. destruct (Ascii.eqb y ",").
    + bind_inv H. destruct p as [l r']. apply IHm in E1. simplify_eq. lia.
    + destruct (Ascii.eqb y "}"); [|done]. simplify_eq. lia.
Qed.

(** Any fuel that is enough gives the same result, and [parse_fuel] is. *)
Lemma pval_fuel n :
  (∀ m d s, (2 * length s < n)%nat → (2 * length s < m)%nat → pval n d s = pval m d s) ∧
  (∀ m d s, (2 * length s + 1 < n)%nat → (2 * length s + 1 < m)%nat → pitems n d s = pitems m d s) ∧
  (∀ m d s, (2 * length s + 1 < n)%nat → (2 * length s + 1 < m)%nat → pmembers n d s = pmembers m d s).
Proof.
  induction n as [|n (IHv & IHi & IHm)]; [split_and!; intros; lia|].
  split_and!; intros [|m] d s Hn Hm; try lia; simpl.
  - pose proof (skip_ws_length s). destruct (skip_ws s) as [|c s1]; [done|]. simpl in *.
    by rewrite (IHi m (d + 1) s1), (IHm m (d + 1) s1) by lia.
  - rewrite (IHv m d s) by lia. destruct (pval m d s) as [[v s1]|] eqn:E; [|done]. cbn [mbind option_bind].
    apply (proj1 (parse_length m)) in E. pose proof (skip_ws_length s1). destruct (skip_ws s1) as [|x s2]; [done|].
    simpl in *. by rewrite (IHi m d s2) by lia.
  - pose proof (skip_ws_length s). destruct (skip_ws s) as [|c s1]; [done|]. destruct (Ascii.eqb c quote_char); [|done].
    destruct (scan_str s1) as [[k s2]|] eqn:Es; [|done]. cbn [mbind option_bind]. apply scan_str_length in Es.
    pose proof (skip_ws_length s2). destruct (skip_ws s2) as [|x s3]; [done|]. destruct (Ascii.eqb x ":"); [|done].
    simpl in *. rewrite (IHv m d s3) by lia. destruct (pval m d s3) as [[v s4]|] eqn:E; [|done]. cbn [mbind option_bind].
    apply (proj1 (parse_length m)) in E. pose proof (skip_ws_length s4). destruct (skip_ws s4) as [|y s5]; [done|].
    simpl in *. by rewrite (IHm m d s5) by lia.
Qed.

(** ** String literals are read back *)

Definition rune_ok (r : rune) : Prop :=
  match r with
  | RAscii c => code c < 128
  | RWide l => (∃ a b, l = [a; b] ∧ wide2 a b = true) ∨
               (∃ a b c, l = [a; b; c] ∧ wide2 a b = false ∧ wide3 a b c = true) ∨
               (∃ a b c d, l = [a; b; c; d] ∧ wide2 a b = false ∧ wide3 a b c = false ∧ wide4 a b c d = true)
  | RBad _ => False
  end.

Lemma runes_bytes_runes s : runes_bytes (runes s) = s.
Proof.
  induction s as [s IH] using (induction_ltof1 _ (@length ascii)). unfold ltof in IH.
  assert (∀ r p s', s = p ++ s' → rune_bytes r = p → p ≠ [] → runes_bytes (r :: runes s') = s) as Hr.
  { intros r p s' -> Hb Hp. unfold runes_bytes. cbn [fmap list_fmap concat]. rewrite Hb. f_equal. apply IH.
    rewrite length_app. destruct p; [done|simpl; lia]. }
  destruct s as [|a s1]; [done|]. simpl.
  destruct (code a <? 128); [by eapply (Hr _ [a])|].
  assert (runes_bytes (RBad a :: runes s1) = a :: s1) as Hbad by (by eapply (Hr _ [a])).
  destruct s1 as [|b s2]; [done|]. destruct (wide2 a b); [by eapply (Hr _ [a; b])|].
  destruct s2 as [|c s3]; [done|]. destruct (wide3 a b c); [by eapply (Hr _ [a; b; c])|].
  destruct s3 as [|d s4]; [done|]. destruct (wide4 a b c d); [by eapply (Hr _ [a; b; c; d])|done].
Qed.

Lemma between_high lo hi c : 128 ≤ lo → between lo hi c = true → 128 ≤ code c.
Proof. unfold between. intros ? [??]%andb_true_iff. lia. Qed.

Lemma wide_high :
  (∀ a b, wide2 a b = true → 128 ≤ code a ∧ 128 ≤ code b) ∧
  (∀ a b c, wide3 a b c = true → 128 ≤ code a ∧ 128 ≤ code b ∧ 128 ≤ code c) ∧
  (∀ a b c d, wide4 a b c d = true → 128 ≤ code a ∧ 128 ≤ code b ∧ 128 ≤ code c ∧ 128 ≤ code d).
Proof.
  unfold wide2, wide3, wide4, between. split_and!; intros; rewrite ?andb_true_iff, ?orb_true_iff, ?andb_true_iff in *; lia.
Qed.

Lemma rune_ok_high l c : rune_ok (RWide l) → c ∈ l → 128 ≤ code c.
Proof.
  destruct wide_high as (H2 & H3 & H4).
  intros [(a & b & -> & H)|[(a & b & e & -> & _ & H)|(a & b & e & d & -> & _ & _ & H)]] Hc;
    [apply H2 in H|apply H3 in H|apply H4 in H]; set_solver by lia.
Qed.

Lemma runes_cons r s : rune_ok r → runes (rune_bytes r ++ s) = r :: runes s.
Proof.
  destruct wide_high as (H2 & H3 & H4). destruct r as [c|l|c]; [| |done].
  - intros H. simpl in *. by rewrite (proj2 (Z.ltb_lt _ _)).
  - intros [(a & b & -> & H)|[(a & b & e & -> & Hn & H)|(a & b & e & d & -> & Hn & Hn' & H)]];
      [pose proof (H2 _ _ H)|pose proof (H3 _ _ _ H)|pose proof (H4 _ _ _ _ H)]; simpl;
      rewrite (proj2 (Z.ltb_ge (code a) 128)) by tauto; rewrite ?Hn, ?Hn', H; done.
Qed.

Lemma runes_concat l : Forall rune_ok l → runes (runes_bytes l) = l.
Proof.
  induction 1 as [|r l Hr _ IH]; [done|]. unfold runes_bytes in *. cbn [fmap list_fmap concat].
  by rewrite runes_cons, IH.
Qed.

Lemma runes_ok s : Forall (λ r, rune_ok r ∨ ∃ c, r = RBad c) (runes s).
Proof.
  induction s as [s IH] using (induction_ltof1 _ (@length ascii)). unfold ltof in IH.
  destruct s as [|a s1]; [constructor|]. simpl.
  destruct (Z.ltb_spec (code a) 128); [constructor; [by left|apply IH; simpl; lia]|].
  assert (Forall (λ r, rune_ok r ∨ ∃ c, r = RBad c) (RBad a :: runes s1)) as Hbad.
  { constructor; [by eauto|apply IH; simpl; lia]. }
  destruct s1 as [|b s2]; [done|]. destruct (wide2 a b) eqn:E2.
  { constructor; [left; left; by eauto|apply IH; simpl; lia]. }
  destruct s2 as [|c s3]; [done|]. destruct (wide3 a b c) eqn:E3.
  { constructor; [left; right; left; by eauto 10|apply IH; simpl; lia]. }
  destruct s3 as [|d s4]; [done|]. destruct (wide4 a b c d) eqn:E4; [|done].
  constructor; [left; right; right; by eauto 10|apply IH; simpl; lia].
Qed.

Lemma valid_runes s : valid_utf8 s = true → Forall rune_ok (runes s).
Proof.
  unfold valid_utf8. rewrite forallb_forall. intros H. pose proof (runes_ok s) as Hs. rewrite Forall_forall in Hs |- *.
  intros r Hr. destruct (Hs r Hr) as [?|[c ->]]; [done|]. by specialize (H _ (proj1 (list_elem_of_In _ _) Hr)).
Qed.

Lemma quote_rune_ok r : rune_ok r ∨ (∃ c, r = RBad c) → Forall rune_ok (quote_rune r).
Proof.
  intros H. destruct r as [c|l|c]; simpl.
  - assert (code c < 128) as Hc by naive_solver. clear H.
    destruct c as [[] [] [] [] [] [] [] []]; try (exfalso; vm_compute in Hc; discriminate Hc);
      repeat constructor.
  - destruct H as [H|[? [=]]]. case_decide; [by repeat constructor|]. case_decide; [by repeat constructor|].
    by constructor.
  - by repeat constructor.
Qed.

Lemma runes_quote s : runes (quote s) = mjoin (quote_rune <$> runes s).
Proof.
  apply runes_concat. pose proof (runes_ok s) as H. induction H as [|r l Hr _ IH]; [constructor|]. simpl.
  apply Forall_app. split; [by apply quote_rune_ok|done].
Qed.

Lemma unquote_rune r l : rune_ok r → unquote_runes (quote_rune r ++ l) = rune_bytes r ++ unquote_runes l.
Proof.
  intros H. destruct r as [c|w|c]; [| |done].
  - clear H. by destruct c as [[] [] [] [] [] [] [] []].
  - unfold quote_rune. case_decide as H1; [by rewrite H1|]. case_decide as H2; [by rewrite H2|]. done.
Qed.

(** A string of valid UTF-8 survives being quoted. *)
Lemma unquote_quote s : valid_utf8 s = true → unquote (quote s) = s.
Proof.
  intros H%valid_runes. unfold unquote. rewrite runes_quote. transitivity (runes_bytes (runes s)); [|apply runes_bytes_runes].
  induction H as [|r l Hr _ IH]; [done|]. csimpl. rewrite unquote_rune by done.
  unfold runes_bytes. csimpl. f_equal. apply IH.
Qed.

Lemma prepend_app p q r : prepend p (prepend q r) = prepend (p ++ q) r.
Proof. unfold prepend. destruct r as [[a b]|]; simpl; [|done]. by rewrite (assoc_L (++)). Qed.

Lemma scan_high c s : 128 ≤ code c → scan_str (c :: s) = prepend [c] (scan_str s).
Proof.
  intros H. cbn [scan_str]. destruct (Ascii.eqb_spec c quote_char) as [->|]; [vm_compute in H; by destruct H|].
  destruct (Ascii.eqb_spec c backslash) as [->|]; [vm_compute in H; by destruct H|].
  by rewrite (proj2 (Z.ltb_ge _ _)) by lia.
Qed.

Lemma scan_quote_rune r s : rune_ok r ∨ (∃ c, r = RBad c) →
  scan_str (runes_bytes (quote_rune r) ++ s) = prepend (runes_bytes (quote_rune r)) (scan_str s).
Proof.
  intros H. destruct r as [c|l|c]; simpl.
  - assert (code c < 128) as Hc by naive_solver. clear H.
    destruct c as [[] [] [] [] [] [] [] []]; try reflexivity; exfalso; vm_compute in Hc; discriminate Hc.
  - destruct H as [H|[? [=]]]. case_decide; [done|]. case_decide; [done|].
    unfold runes_bytes. simpl. rewrite app_nil_r. pose proof (λ c, rune_ok_high l c H) as Hh. clear -Hh.
    induction l as [|c l IH]; [simpl; by destruct (scan_str s) as [[? ?]|]|].
    rewrite <- app_comm_cons, scan_high by (apply Hh; set_solver). rewrite IH by set_solver. by rewrite prepend_app.
  - done.
Qed.

Lemma scan_quote s r : scan_str (quote s ++ quote_char :: r) = Some (quote s, r).
Proof.
  unfold quote. pose proof (runes_ok s) as H. induction H as [|x l Hx _ IH]; [done|].
  cbn [fmap list_fmap mjoin list_join]. unfold runes_bytes in *. rewrite fmap_app, concat_app, <- (assoc_L (++)).
  pose proof (scan_quote_rune x) as Hs. unfold runes_bytes in Hs. rewrite Hs by done.
  etransitivity; [exact (f_equal _ IH)|done].
Qed.

(** ** Printed values are read back *)

(** What may follow a number. *)
Definition num_end (r : list ascii) : Prop :=
  match r with [] => True | c :: _ => is_digit c = false ∧ c ≠ "."%char ∧ c ≠ "e"%char ∧ c ≠ "E"%char end.

Record num_ok (lit : list ascii) : Prop := mkNumOk {
  no_head : ∃ c l, lit = c :: l ∧ (is_digit c = true ∨ c = "-"%char);
  no_scan : ∀ r, num_end r → scan_num (lit ++ r) = Some (lit, r) }.
Definition raw_ok (raw : list ascii) : Prop := ∀ r, scan_str (raw ++ quote_char :: r) = Some (raw, r).

Fixpoint json_ok (v : json) : Prop :=
  match v with
  | JNum lit => num_ok lit
  | JStr raw => raw_ok raw
  | JArr l => fold_right (λ x P, json_ok x ∧ P) True l
  | JObj fs => fold_right (λ f P, (raw_ok f.1 ∧ json_ok f.2) ∧ P) True fs
  | _ => True
  end.

Fixpoint depth (v : json) : Z :=
  match v with
  | JArr l => 1 + fold_right (λ x m, Z.max (depth x) m) 0 l
  | JObj fs => 1 + fold_right (λ f m, Z.max (depth f.2) m) 0 fs
  | _ => 0
  end.

(** Induction into arrays and objects. *)
Lemma json_nested_ind (P : json → Prop) :
  P JNull → (∀ b, P (JBool b)) → (∀ lit, P (JNum lit)) → (∀ raw, P (JStr raw)) →
  (∀ l, Forall P l → P (JArr l)) → (∀ fs, Forall (λ f, P f.2) fs → P (JObj fs)) → ∀ v, P v.
Proof.
  intros H1 H2 H3 H4 H5 H6. fix IH 1. intros [| | | |l|fs]; [done|auto..| |].
  - apply H5. induction l; constructor; auto.
  - apply H6. induction fs; constructor; auto.
Qed.

Lemma skip_ws_line d s : skip_ws (line d ++ s) = skip_ws s.
Proof.
  unfold line. simpl. induction (d + (d + 0))%nat as [|n IH]; [done|]. simpl. apply IH.
Qed.

Lemma print_head d v :
  json_ok v → ∃ c s, print d v = c :: s ∧ is_ws c = false ∧ c ≠ "]"%char ∧ c ≠ ","%char.
Proof.
  destruct v as [|[]|lit|raw|[|x l]|[|f fs]]; intros H; try (eexists _, _; split; [reflexivity|done]).
  destruct (no_head _ H) as (c & l & -> & Hc). exists c, l. split; [done|].
  destruct Hc as [Hc| ->]; [|done]. split_and!; [|by intros ->..].
  unfold is_digit in Hc. unfold is_ws, code. apply andb_true_iff in Hc. rewrite !N.leb_le in Hc.
  rewrite !orb_false_iff, !Z.eqb_neq. lia.
Qed.

#[local] Arguments line : simpl never.

Lemma pval_line n d i s : pval n d (line i ++ s) = pval n d s.
Proof. destruct n as [|n]; [done|]. cbn [pval pitems pmembers]. by rewrite skip_ws_line. Qed.

Lemma pmembers_line n d i s : pmembers n d (line i ++ s) = pmembers n d s.
Proof. destruct n as [|n]; [done|]. cbn [pval pitems pmembers]. by rewrite skip_ws_line. Qed.

Lemma pitems_line n d i s : pitems n d (line i ++ s) = pitems n d s.
Proof. destruct n as [|n]; [done|]. cbn [pval pitems pmembers]. by rewrite pval_line. Qed.

(** With enough fuel. *)
Definition eventually (P : nat → Prop) : Prop := ∃ n0, ∀ n, (n0 ≤ n)%nat → P n.

Lemma eventually_S (P Q : nat → Prop) : eventually P → (∀ n, P n → Q (S n)) → eventually Q.
Proof. intros [n0 H] HPQ. exists (S n0). intros [|n] Hn; [lia|]. apply HPQ, H. lia. Qed.
Lemma eventually_now (Q : nat → Prop) : (∀ n, Q (S n)) → eventually Q.
Proof. intros H. exists 1%nat. intros [|n] Hn; [lia|]. apply H. Qed.
Lemma eventually_both (P Q : nat → Prop) : eventually P → eventually Q → eventually (λ n, P n ∧ Q n).
Proof. intros [n H1] [m H2]. exists (n + m)%nat. intros k Hk. split; [apply H1|apply H2]; lia. Qed.

Lemma ok_items l : json_ok (JArr l) ↔ Forall json_ok l.
Proof. simpl. induction l as [|x l IH]; simpl; [by split; constructor|]. by rewrite Forall_cons, IH. Qed.
Lemma ok_members fs : json_ok (JObj fs) ↔ Forall (λ f, raw_ok f.1 ∧ json_ok f.2) fs.
Proof. simpl. induction fs as [|x l IH]; simpl; [by split; constructor|]. by rewrite Forall_cons, IH. Qed.

Lemma depth_items m l : depth (JArr l) ≤ m ↔ Forall (λ x, depth x ≤ m - 1) l ∧ 1 ≤ m.
Proof.
  simpl. induction l as [|x l IH]; simpl; [split; [split; [constructor|lia]|lia]|]. rewrite Forall_cons. split.
  - intros H. assert (Forall (λ x, depth x ≤ m - 1) l ∧ 1 ≤ m) as [? ?] by (apply IH; lia). split_and!; [lia|done..].
  - intros [[H1 H2] H3]. assert (1 + fold_right (λ x m, Z.max (depth x) m) 0 l ≤ m) by (by apply IH). lia.
Qed.
Lemma depth_members m fs : depth (JObj fs) ≤ m ↔ Forall (λ f, depth f.2 ≤ m - 1) fs ∧ 1 ≤ m.
Proof.
  simpl. induction fs as [|x l IH]; simpl; [split; [split; [constructor|lia]|lia]|]. rewrite Forall_cons. split.
  - intros H. assert (Forall (λ f, depth f.2 ≤ m - 1) l ∧ 1 ≤ m) as [? ?] by (apply IH; lia). split_and!; [lia|done..].
  - intros [[H1 H2] H3]. assert (1 + fold_right (λ f m, Z.max (depth f.2) m) 0 l ≤ m) by (by apply IH). lia.
Qed.

Definition fits (d : Z) (v : json) : Prop := d + depth v ≤ maxNestingDepth.

(** A printed value before any rest that ends a number. *)
Definition reads_back (v : json) : Prop :=
  ∀ i d r, json_ok v → fits d v → num_end r → eventually (λ n, pval n d (print i v ++ r) = Some (v, r)).

Lemma items_read i i' d l r :
  Forall reads_back l → l ≠ [] → Forall json_ok l → Forall (fits d) l →
  eventually (λ n, pitems n d (separated i (map (print i) l) ++ line i' ++ "]"%char :: r) = Some (l, r)).
Proof.
  intros Hl. induction Hl as [|x l Hx Hl IH]; [done|]. intros _ [Hok Hoks]%Forall_cons [Hf Hfs]%Forall_cons.
  destruct l as [|y l].
  - eapply eventually_S; [apply (Hx i d (line i' ++ "]"%char :: r)); done|]. intros n Hn.
    cbn [separated map pitems]. rewrite Hn. cbn [mbind option_bind]. by rewrite skip_ws_line.
  - set (rest := separated i (map (print i) (y :: l)) ++ line i' ++ "]"%char :: r) in *.
    assert (separated i (map (print i) (x :: y :: l)) ++ line i' ++ "]"%char :: r =
            print i x ++ ","%char :: line i ++ rest) as ->.
    { unfold rest. cbn [map separated]. by rewrite <- !(assoc_L (++)), <- app_comm_cons, <- !(assoc_L (++)). }
    eapply eventually_S; [apply eventually_both; [apply (Hx i d (","%char :: line i ++ rest)); done|apply IH; done]|].
    intros n [Hn1 Hn2]. cbn [pitems]. rewrite Hn1. cbn [mbind option_bind skip_ws].
    change (is_ws ",") with false. cbn iota. change (Ascii.eqb "," ",") with true. cbn iota.
    rewrite pitems_line. rewrite Hn2. done.
Qed.

Lemma members_read i i' d fs r :
  Forall (λ f, reads_back f.2) fs → fs ≠ [] → Forall (λ f, raw_ok f.1 ∧ json_ok f.2) fs → Forall (λ f, fits d f.2) fs →
  eventually (λ n, pmembers n d (separated i (map (λ f, literal f.1 ++ txt ": " ++ print i f.2) fs) ++ line i' ++ "}"%char :: r) = Some (fs, r)).
Proof.
  intros Hl. induction Hl as [|[k x] l Hx Hl IH]; [done|]. intros _ [[Hk Hok] Hoks]%Forall_cons [Hf Hfs]%Forall_cons.
  cbn [fst snd] in Hk, Hok, Hf, Hx.
  assert (∀ n s, pmembers (S n) d (literal k ++ txt ": " ++ s) =
    '(v, s4) ← pval n d s;
    match skip_ws s4 with
    | y :: s5 => if Ascii.eqb y "," then '(l, r) ← pmembers n d s5; Some ((k, v) :: l, r)
                 else if Ascii.eqb y "}" then Some ([(k, v)], s5) else None
    | [] => None
    end) as Hhead.
  { intros n s. unfold literal. rewrite <- app_comm_cons, <- (assoc_L (++)). cbn [pmembers skip_ws].
    change (is_ws quote_char) with false. cbn iota. rewrite Ascii.eqb_refl.
    change ([quote_char] ++ txt ": " ++ s) with (quote_char :: ":"%char :: " "%char :: s).
    rewrite (Hk (":"%char :: " "%char :: s)). cbn [mbind option_bind skip_ws].
    change (is_ws ":") with false. cbn iota. change (Ascii.eqb ":" ":") with true. cbn iota.
    f_equal. destruct n; [done|]. simpl. done. }
  destruct l as [|f l].
  - eapply eventually_S; [apply (Hx i d (line i' ++ "}"%char :: r)); done|]. intros n Hn.
    cbn [separated map fst snd]. rewrite <- !(assoc_L (++)), Hhead, Hn. cbn [mbind option_bind]. by rewrite skip_ws_line.
  - set (pr := λ f : list ascii * json, literal f.1 ++ txt ": " ++ print i f.2) in *.
    set (rest := separated i (map pr (f :: l)) ++ line i' ++ "}"%char :: r) in *.
    assert (separated i (map pr ((k, x) :: f :: l)) ++ line i' ++ "}"%char :: r =
            literal k ++ txt ": " ++ print i x ++ ","%char :: line i ++ rest) as ->.
    { unfold rest. cbn [map separated]. change (pr (k, x)) with (literal k ++ txt ": " ++ print i x).
      by rewrite <- !(assoc_L (++)), <- app_comm_cons, <- !(assoc_L (++)). }
    eapply eventually_S; [apply eventually_both; [apply (Hx i d (","%char :: line i ++ rest)); done|apply IH; done]|].
    intros n [Hn1 Hn2]. rewrite Hhead, Hn1. cbn [mbind option_bind skip_ws].
    change (is_ws ",") with false. cbn iota. change (Ascii.eqb "," ",") with true. cbn iota.
    rewrite pmembers_line, Hn2. done.
Qed.

(** No other value begins like a number. *)
Lemma number_head c : is_digit c = true ∨ c = "-"%char →
  is_ws c = false ∧ Forall (λ x, Ascii.eqb c x = false) [quote_char; "["; "{"; "n"; "t"; "f"]%char.
Proof.
  intros [Hc| ->]; [|split; [done|repeat constructor]].
  unfold is_digit in Hc. apply andb_true_iff in Hc. rewrite !N.leb_le in Hc. split.
  - unfold is_ws, code. rewrite !orb_false_iff, !Z.eqb_neq. lia.
  - repeat constructor; apply Ascii.eqb_neq; intros ->; vm_compute in Hc; by destruct Hc.
Qed.

Lemma number_reads_back lit : reads_back (JNum lit).
Proof.
  intros i d r Hok _ Hr. apply eventually_now. intros n. cbn [print]. pose proof (no_scan _ Hok r Hr) as Hs.
  destruct (no_head _ Hok) as (c & l & E & Hc). rewrite E in *. rewrite <- app_comm_cons in *. cbn [pval skip_ws].
  destruct (number_head c Hc) as [-> Hx].
  rewrite !Forall_cons in Hx. destruct Hx as (-> & -> & -> & -> & -> & -> & _). by rewrite Hs.
Qed.

Lemma array_reads_back l : Forall reads_back l → reads_back (JArr l).
Proof.
  intros IH i d r Hok Hf _. apply ok_items in Hok. unfold fits in Hf. destruct l as [|x l].
  { apply eventually_now. intros n. cbn [print]. cbn [pval]. change (txt "[]" ++ r) with ("["%char :: "]"%char :: r).
    cbn [skip_ws]. simpl. rewrite (proj2 (Z.leb_gt _ _)); [done|]. simpl in Hf. lia. }
  assert (depth (JArr (x :: l)) ≤ maxNestingDepth - d) as [Hd Hd1]%depth_items by lia.
  eapply eventually_S; [apply (items_read (S i) i (d + 1) (x :: l) r); try done|].
  { eapply Forall_impl; [exact Hd|]. intros y Hy. cbv beta in Hy. unfold fits. lia. }
  intros n Hn. change (print i (JArr (x :: l)) ++ r) with
    ("["%char :: (line (S i) ++ separated (S i) (map (print (S i)) (x :: l)) ++ line i ++ ["]"%char]) ++ r).
  rewrite <- !(assoc_L (++)). change (["]"%char] ++ r) with ("]"%char :: r).
  set (rest := separated (S i) (map (print (S i)) (x :: l)) ++ line i ++ "]"%char :: r) in *.
  cbn [pval skip_ws]. change (is_ws "[") with false. cbn iota. change (Ascii.eqb "[" quote_char) with false. cbn iota.
  change (Ascii.eqb "[" "[") with true. cbn iota. rewrite (proj2 (Z.leb_gt _ _)) by lia.
  rewrite skip_ws_line, pitems_line, Hn. cbn [mbind option_bind].
  apply Forall_cons in Hok as [Hx _]. destruct (print_head (S i) x Hx) as (c & s & Hc & Hws & Hne & _).
  assert (∃ s', rest = c :: s') as [s' ->].
  { unfold rest. cbn [map]. destruct l; cbn [separated map]; rewrite Hc; by eexists. }
  cbn [skip_ws]. rewrite Hws. by rewrite (proj2 (Ascii.eqb_neq _ _) Hne).
Qed.

Lemma object_reads_back fs : Forall (λ f, reads_back f.2) fs → reads_back (JObj fs).
Proof.
  intros IH i d r Hok Hf _. apply ok_members in Hok. unfold fits in Hf. destruct fs as [|x l].
  { apply eventually_now. intros n. cbn [print]. cbn [pval]. change (txt "{}" ++ r) with ("{"%char :: "}"%char :: r).
    cbn [skip_ws]. simpl. rewrite (proj2 (Z.leb_gt _ _)); [done|]. simpl in Hf. lia. }
  assert (depth (JObj (x :: l)) ≤ maxNestingDepth - d) as [Hd Hd1]%depth_members by lia.
  eapply eventually_S; [apply (members_read (S i) i (d + 1) (x :: l) r); try done|].
  { eapply Forall_impl; [exact Hd|]. intros y Hy. cbv beta in Hy. unfold fits. lia. }
  intros n Hn. set (pr := λ f : list ascii * json, literal f.1 ++ txt ": " ++ print (S i) f.2) in *.
  change (print i (JObj (x :: l)) ++ r) with
    ("{"%char :: (line (S i) ++ separated (S i) (map pr (x :: l)) ++ line i ++ ["}"%char]) ++ r).
  rewrite <- !(assoc_L (++)). change (["}"%char] ++ r) with ("}"%char :: r).
  set (rest := separated (S i) (map pr (x :: l)) ++ line i ++ "}"%char :: r) in *.
  cbn [pval skip_ws]. change (is_ws "{") with false. cbn iota. change (Ascii.eqb "{" quote_char) with false. cbn iota.
  change (Ascii.eqb "{" "[") with false. change (Ascii.eqb "{" "{") with true. cbn iota.
  rewrite (proj2 (Z.leb_gt _ _)) by lia. rewrite skip_ws_line, pmembers_line, Hn. cbn [mbind option_bind].
  assert (∃ s', rest = quote_char :: s') as [s' ->].
  { unfold rest. cbn [map]. destruct l; cbn [separated map]; unfold pr, literal; by eexists. }
  done.
Qed.

Lemma print_reads_back v : reads_back v.
Proof.
  induction v as [|b|lit|raw|l IH|fs IH] using json_nested_ind;
    [| |apply number_reads_back| |by apply array_reads_back|by apply object_reads_back]; intros i d r Hok Hf Hr.
  - by apply eventually_now.
  - apply eventually_now. by destruct b.
  - apply eventually_now. intros n. cbn [print]. unfold literal. rewrite <- app_comm_cons, <- (assoc_L (++)).
    cbn [pval skip_ws]. change (is_ws quote_char) with false. cbn iota. rewrite Ascii.eqb_refl.
    change ([quote_char] ++ r) with (quote_char :: r). by rewrite (Hok r).
Qed.

(** [Unmarshal] reads what [MarshalIndent] wrote. *)
Lemma parse_print v : json_ok v → depth v ≤ maxNestingDepth → parse_json (print 0 v) = Some v.
Proof.
  intros Hok Hd. destruct (print_reads_back v 0%nat 0 [] Hok Hd I) as [n0 Hn].
  rewrite app_nil_r in Hn. unfold parse_json.
  rewrite (proj1 (pval_fuel _) (n0 + parse_fuel (print 0 v))%nat) by (unfold parse_fuel; lia).
  by rewrite Hn by lia.
Qed.

(** ** Numbers *)

(** [strconv.AppendInt] in base ten. *)
Definition int_text (z : Z) : list ascii :=
  if z <? 0 then "-"%char :: chars (pretty (Z.to_N (- z))) else chars (pretty (Z.to_N z)).

Lemma pretty_go_head x s :
  (0 < x)%N → ∃ c l, chars (pretty_N_go x s) = c :: l ∧ c ≠ "0"%char ∧ is_digit c = true.
Proof.
  revert s. induction (N.lt_wf_0 x) as [x _ IH]; intros s Hx. rewrite pretty_N_go_step by done.
  destruct (decide (x / 10 = 0)%N) as [E|E].
  - rewrite E, pretty_N_go_0. eexists _, _. split; [reflexivity|]. split; [|apply pretty_N_char_digit].
    assert (x < 10)%N as Hlt by (apply N.div_small_iff in E; lia). rewrite N.mod_small by done.
    intros Hc. pose proof (digit_val_pretty x Hlt) as Hd. rewrite Hc in Hd. change (digit_val "0") with 0 in Hd. lia.
  - apply IH; [apply N.div_lt; lia|by apply N.neq_0_lt_0].
Qed.

Lemma digits_num ds r :
  num_end r → (ds = ["0"%char] ∨ (∃ c l, ds = c :: l ∧ c ≠ "0"%char) ∧ forallb is_digit ds = true) →
  ('(i, s1) ← scan_int (ds ++ r); '(f, s2) ← scan_frac s1; '(e, s3) ← scan_exp s2; Some (i ++ f ++ e, s3)) = Some (ds, r).
Proof.
  intros Hr Hd.
  assert (scan_int (ds ++ r) = Some (ds, r)) as ->.
  { destruct Hd as [->|[(c & l & -> & Hc) Hd]]; [done|]. cbn [app scan_int]. rewrite (proj2 (Ascii.eqb_neq _ _) Hc).
    unfold digits1. rewrite app_comm_cons.
    assert (span_digits ((c :: l) ++ r) = (c :: l, r)) as ->; [|done].
    clear Hc. revert Hd. generalize (c :: l). intros ds Hd. induction ds as [|x ds IH]; simpl.
    - destruct r as [|y r]; [done|]. simpl. by destruct Hr as (-> & _).
    - simpl in Hd. apply andb_true_iff in Hd as [-> Hd]. by rewrite (IH Hd). }
  cbn [mbind option_bind]. destruct r as [|y r]; cbn [scan_frac scan_exp mbind option_bind]; [by rewrite app_nil_r|].
  destruct Hr as (_ & H1 & H2 & H3). rewrite (proj2 (Ascii.eqb_neq _ _) H1). cbn [mbind option_bind].
  cbn [scan_exp]. rewrite (proj2 (Ascii.eqb_neq _ _) H2), (proj2 (Ascii.eqb_neq _ _) H3). cbn. by rewrite app_nil_r.
Qed.

Lemma pretty_num (n : N) :
  chars (pretty n) = ["0"%char] ∨ (∃ c l, chars (pretty n) = c :: l ∧ c ≠ "0"%char) ∧ forallb is_digit (chars (pretty n)) = true.
Proof.
  unfold pretty at 1 2, pretty_N at 1 2. case_decide as H; [by left|]. right. split.
  - destruct (pretty_go_head n "" ltac:(lia)) as (c & l & H1 & H2 & _). eauto.
  - apply pretty_N_digits.
Qed.

Lemma int_text_ok z : num_ok (int_text z).
Proof.
  unfold int_text. destruct (z <? 0).
  - split; [by eauto|]. intros r Hr. unfold scan_num. rewrite <- app_comm_cons. cbn [Ascii.eqb Bool.eqb].
    pose proof (digits_num _ r Hr (pretty_num (Z.to_N (- z)))) as H.
    destruct (scan_int _) as [[i s1]|]; [|done]. cbn [mbind option_bind] in *.
    destruct (scan_frac s1) as [[f s2]|]; [|done]. cbn [mbind option_bind] in *.
    destruct (scan_exp s2) as [[e s3]|]; [|done]. cbn [mbind option_bind] in *. by injection H as <- <-.
  - pose proof (pretty_num (Z.to_N z)) as Hp. pose proof (pretty_N_digits (Z.to_N z)) as Hd.
    assert (∃ c l, chars (pretty (Z.to_N z)) = c :: l ∧ is_digit c = true) as (c & l & E & Hc).
    { destruct Hp as [E|[(c & l & E & _) _]]; rewrite E in *; [by eexists _, _|]. exists c, l. split; [done|].
      simpl in Hd. by apply andb_true_iff in Hd as [? _]. }
    split; [eauto|]. intros r Hr. pose proof (digits_num _ r Hr Hp) as H. unfold scan_num. rewrite E in *.
    rewrite <- app_comm_cons in *. destruct (Ascii.eqb_spec c "-") as [->|_]; [done|].
    destruct (scan_int _) as [[i s1]|]; [|done]. cbn [mbind option_bind] in *.
    destruct (scan_frac s1) as [[f s2]|]; [|done]. cbn [mbind option_bind] in *.
    destruct (scan_exp s2) as [[e s3]|]; [|done]. cbn [mbind option_bind] in *. by injection H as <- <-.
Qed.

Lemma atoi_int_text z : in_i 64 z → atoi (int_text z) = (z, true).
Proof.
  intros Hz. unfold in_i in Hz. unfold int_text. destruct (Z.ltb_spec z 0).
  - unfold atoi. cbn [Ascii.eqb Bool.eqb]. pose proof (pretty_N_digits (Z.to_N (- z))) as Hd.
    pose proof (dec_val_pretty (Z.to_N (- z))) as Hv. destruct (chars (pretty (Z.to_N (- z)))) as [|c l].
    { unfold dec_val in Hv. simpl in Hv. lia. }
    rewrite Hd, Hv, (proj2 (Z.leb_le _ _)) by lia. f_equal. lia.
  - rewrite atoi_pretty by lia. f_equal. lia.
Qed.
