(* ===== verification/Sandbox.v ===== *)
(** * Sandbox providers: pkg/sandbox/provider.go and pkg/sandbox/providers

    The interface every provider implements ([Provider], with what a caller
    may rely on in [ProviderLaws]), the five providers and what each makes of a
    configuration, of its scripts and of a command.  Nothing under src/ calls
    [Prepare] outside the tests, so no caller is modelled.  The command line
    tools the providers call (bwrap, firejail, sandbox-exec) are outside: what
    bwrap makes of an argument vector is the class [BwrapTool]. *)

From S2P Require Import Prelude Text Script CwTypes.

(** ** Commands and environments *)

(** What an [exec.Cmd] is built from; [cmd_Args] starts with the program. *)
Record Cmd := mkCmd { cmd_Args : list string; cmd_Env : list string }.

(** [env] in the order the map is iterated. *)
Definition envSlice (env : list (string * string)) : list string :=
  (λ kv, kv.1 +:+ "=" +:+ kv.2) <$> env.
Definition command (name : string) (args environ : list string) (env : list (string * string)) : Cmd :=
  mkCmd (name :: args) (environ ++ envSlice env).

(** The value a child sees for a name: of several entries the last one counts. *)
Definition strip (pre s : string) : option string :=
  if String.prefix pre s then Some (of_chars (drop (length (chars pre)) (chars s))) else None.
Definition entry_for (k : string) (e : string) : option string := strip (k +:+ "=") e.
Fixpoint env_value (l : list string) (k : string) : option string :=
  match l with
  | [] => None
  | e :: l' => match env_value l' k with Some v => Some v | None => entry_for k e end
  end.

Inductive sandbox_err :=
| ErrUnsupportedPlatform | ErrToolNotFound
| TypeErr (key want : string) | ElemErr (key : string) (i : nat) | UnknownKey (key : string)
| NonetAndNetns | NotExactlyOne | EmptyCmd
| CreateTempErr | WriteProfileErr | CloseProfileErr
| MkdirBaseErr | MkdirTempErr | ScriptErr | NoEntrypoint.

(** ** The interface *)

(** [F] holds the answers of the operating system during [Prepare]; the second
    argument of [inst_Teardown] holds the paths it refuses to remove. *)
Class Provider (P I F : Type) := {
  prov_Name : P → string;
  prov_Prepare : P → SandboxSpec → list Script → F → host_fs → P * host_fs * result sandbox_err I;
  inst_ID : I → string;
  inst_Exec : I → list string → string → list string → list (string * string) → result sandbox_err Cmd;
  inst_Teardown : I → gset string → host_fs → host_fs * bool
}.

(** What a caller may rely on: an instance owns a set of paths that were free
    when it was prepared; only those are touched by [Prepare]; a successful
    [Teardown] frees them and touches nothing else; a failed [Prepare] leaves
    no file.  [fair] says what the operating system guarantees and that no
    cleanup is refused; [tame] which scripts stay inside. *)
Class ProviderLaws (P I F : Type) `{Provider P I F} (fair : F → host_fs → Prop) (tame : list Script → Prop) := {
  owned : I → string → Prop;
  owned_dec : ∀ i p, Decision (owned i p);
  prepare_error_clean p spec scripts f fs p' fs' e :
    fair f fs → tame scripts → prov_Prepare p spec scripts f fs = (p', fs', Err e) → hf_files fs' = hf_files fs;
  prepare_touches_owned p spec scripts f fs p' fs' i :
    fair f fs → tame scripts → prov_Prepare p spec scripts f fs = (p', fs', Ok i) →
    ∀ q, (owned i q → hf_files fs !! q = None) ∧ (¬ owned i q → hf_files fs' !! q = hf_files fs !! q);
  teardown_frees_owned i fs fs' :
    inst_Teardown i ∅ fs = (fs', true) →
    ∀ q, (owned i q → hf_files fs' !! q = None) ∧ (¬ owned i q → hf_files fs' !! q = hf_files fs !! q);
  exec_environment i environ cmd args env c :
    inst_Exec i environ cmd args env = Ok c → cmd_Env c = environ ++ envSlice env
}.
#[global] Existing Instance owned_dec.

(** ** noop *)

Module Noop.
Record provider := mkProvider { p_counter : Z }.
Definition New : provider := mkProvider 0.
Definition Name (p : provider) : string := "noop".
Record instance := mkInstance { i_id : string }.
Definition Prepare (p : provider) (spec : SandboxSpec) (scripts : list Script) (f : unit) (fs : host_fs)
    : provider * host_fs * result sandbox_err instance :=
  let n := i64 (p_counter p + 1) in
  (mkProvider n, fs, Ok (mkInstance ("noop-" +:+ pretty n))).
Definition Exec (i : instance) (environ : list string) (cmd : string) (args : list string)
    (env : list (string * string)) : result sandbox_err Cmd :=
  Ok (command cmd args environ env).
Definition Teardown (i : instance) (stuck : gset string) (fs : host_fs) : host_fs * bool := (fs, true).
#[global] Instance noop_provider : Provider provider instance unit := {|
  prov_Name := Name; prov_Prepare := Prepare; inst_ID := i_id; inst_Exec := Exec; inst_Teardown := Teardown |}.
End Noop.

(** ** bubblewrap *)

(** [stringSlice], the same in both packages: a [[]string], or a [[]any] whose
    elements are all strings. *)
Fixpoint string_elems (l : list any_val) (name : string) (i : nat) : result sandbox_err (list string) :=
  match l with
  | [] => Ok []
  | VStr s :: l' => let! r := string_elems l' name (S i) in Ok (s :: r)
  | _ :: _ => Err (ElemErr name i)
  end.
Definition stringSlice (v : any_val) (name : string) : result sandbox_err (list string) :=
  match v with
  | VStrs l => Ok l
  | VList l => string_elems l name 0
  | _ => Err (TypeErr name "[]string")
  end.
Definition as_bool (v : any_val) (name : string) : result sandbox_err bool :=
  match v with VBool b => Ok b | _ => Err (TypeErr name "bool") end.
Definition as_string (v : any_val) (name : string) : result sandbox_err string :=
  match v with VStr s => Ok s | _ => Err (TypeErr name "string") end.

(** The entry of a Go map given as the list of its entries. *)
Fixpoint config_get (raw : list (string * any_val)) (k : string) : option any_val :=
  match raw with
  | [] => None
  | (k', v) :: raw' => if decide (k' = k) then Some v else config_get raw' k
  end.

(** The loop over a configuration, [set] its body, stopped by the first error. *)
Fixpoint range_entries {C} (set : C → string → any_val → result sandbox_err C) (raw : list (string * any_val)) (c : C)
    : result sandbox_err C :=
  match raw with
  | [] => Ok c
  | (k, v) :: raw' => let! c' := set c k v in range_entries set raw' c'
  end.

Module Bubblewrap.
Record provider := mkProvider { p_bwrap : string; p_counter : Z }.
(** [goos] is runtime.GOOS, [lookpath] the answer of exec.LookPath. *)
Definition New (BwrapPath goos : string) (lookpath : option string) : result sandbox_err provider :=
  if negb (goos =? "linux")%string then Err ErrUnsupportedPlatform
  else if (BwrapPath =? "")%string then
    match lookpath with None => Err ErrToolNotFound | Some p => Ok (mkProvider p 0) end
  else Ok (mkProvider BwrapPath 0).
Definition Name (p : provider) : string := "bubblewrap".

Record config := mkConfig { c_network : bool; c_bindRW : list string; c_bindRO : list string; c_chdir : string }.

Definition opt_field {A} (raw : list (string * any_val)) (k : string) (conv : any_val → string → result sandbox_err A)
    (dflt : A) : result sandbox_err A :=
  match config_get raw k with Some v => conv v k | None => Ok dflt end.
Definition parseConfig (raw : list (string * any_val)) : result sandbox_err config :=
  let! network := opt_field raw "network" as_bool false in
  let! chdir := opt_field raw "chdir" as_string "" in
  let! rw := opt_field raw "bind_rw" stringSlice [] in
  let! ro := opt_field raw "bind_ro" stringSlice [] in
  Ok (mkConfig network rw ro chdir).

Definition buildBwrapArgs (c : config) : list string :=
  ["--unshare-all"] ++
  (if c_network c then ["--share-net"] else []) ++
  ["--ro-bind"; "/"; "/"; "--proc"; "/proc"; "--dev"; "/dev"; "--tmpfs"; "/tmp"] ++
  (c_bindRO c ≫= λ p, ["--ro-bind"; p; p]) ++
  (c_bindRW c ≫= λ p, ["--bind"; p; p]) ++
  (if (c_chdir c =? "")%string then [] else ["--chdir"; c_chdir c]) ++
  ["--die-with-parent"].

Record instance := mkInstance { i_id : string; i_bwrap : string; i_bwrapArg : list string }.
Definition Prepare (p : provider) (spec : SandboxSpec) (scripts : list Script) (f : unit) (fs : host_fs)
    : provider * host_fs * result sandbox_err instance :=
  match parseConfig (sb_Config spec) with
  | Err e => (p, fs, Err e)
  | Ok cfg =>
      let n := i64 (p_counter p + 1) in
      (mkProvider (p_bwrap p) n, fs, Ok (mkInstance ("bubblewrap-" +:+ pretty n) (p_bwrap p) (buildBwrapArgs cfg)))
  end.
Definition Exec (i : instance) (environ : list string) (cmd : string) (args : list string)
    (env : list (string * string)) : result sandbox_err Cmd :=
  if (cmd =? "")%string then Err EmptyCmd
  else Ok (command (i_bwrap i) (i_bwrapArg i ++ ["--"; cmd] ++ args) environ env).
Definition Teardown (i : instance) (stuck : gset string) (fs : host_fs) : host_fs * bool := (fs, true).
#[global] Instance bubblewrap_provider : Provider provider instance unit := {|
  prov_Name := Name; prov_Prepare := Prepare; inst_ID := i_id; inst_Exec := Exec; inst_Teardown := Teardown |}.
End Bubblewrap.

(** ** firejail *)

Module Firejail.
Record provider := mkProvider { p_firejail : string; p_counter : Z }.
Definition New (FirejailPath goos : string) (lookpath : option string) : result sandbox_err provider :=
  if negb (goos =? "linux")%string then Err ErrUnsupportedPlatform
  else if (FirejailPath =? "")%string then
    match lookpath with None => Err ErrToolNotFound | Some p => Ok (mkProvider p 0) end
  else Ok (mkProvider FirejailPath 0).
Definition Name (p : provider) : string := "firejail".

Record config := mkConfig {
  c_profile : string; c_netns : string; c_nonet : bool; c_private : bool; c_noroot : bool;
  c_whitelist : list string; c_blacklist : list string; c_capsDrop : bool; c_seccomp : bool }.
Definition zero_config : config := mkConfig "" "" false false false [] [] false false.

(** One iteration of the loop over the map. *)
Definition set_field (c : config) (k : string) (v : any_val) : result sandbox_err config :=
  let '(mkConfig p n nn pr nr wl bl cd sc) := c in
  if decide (k = "profile") then let! x := as_string v k in Ok (mkConfig x n nn pr nr wl bl cd sc)
  else if decide (k = "netns") then let! x := as_string v k in Ok (mkConfig p x nn pr nr wl bl cd sc)
  else if decide (k = "nonet") then let! x := as_bool v k in Ok (mkConfig p n x pr nr wl bl cd sc)
  else if decide (k = "private") then let! x := as_bool v k in Ok (mkConfig p n nn x nr wl bl cd sc)
  else if decide (k = "noroot") then let! x := as_bool v k in Ok (mkConfig p n nn pr x wl bl cd sc)
  else if decide (k = "caps_drop") then let! x := as_bool v k in Ok (mkConfig p n nn pr nr wl bl x sc)
  else if decide (k = "seccomp") then let! x := as_bool v k in Ok (mkConfig p n nn pr nr wl bl cd x)
  else if decide (k = "whitelist") then let! x := stringSlice v k in Ok (mkConfig p n nn pr nr x bl cd sc)
  else if decide (k = "blacklist") then let! x := stringSlice v k in Ok (mkConfig p n nn pr nr wl x cd sc)
  else Err (UnknownKey k).
Definition parseConfig (raw : list (string * any_val)) : result sandbox_err config :=
  let! c := range_entries set_field raw zero_config in
  if c_nonet c && negb (c_netns c =? "")%string then Err NonetAndNetns else Ok c.

Definition flag (b : bool) (s : string) : list string := if b then [s] else [].
Definition valued (pre s : string) : list string := if (s =? "")%string then [] else [pre +:+ s].
Definition buildFirejailArgs (c : config) : list string :=
  ["--quiet"] ++ valued "--profile=" (c_profile c) ++ flag (c_private c) "--private" ++
  flag (c_noroot c) "--noroot" ++ flag (c_capsDrop c) "--caps.drop=all" ++ flag (c_seccomp c) "--seccomp" ++
  flag (c_nonet c) "--net=none" ++ valued "--netns=" (c_netns c) ++
  ((λ p, "--whitelist=" +:+ p) <$> c_whitelist c) ++ ((λ p, "--blacklist=" +:+ p) <$> c_blacklist c).

Record instance := mkInstance { i_id : string; i_firejail : string; i_fjArg : list string }.
Definition Prepare (p : provider) (spec : SandboxSpec) (scripts : list Script) (f : unit) (fs : host_fs)
    : provider * host_fs * result sandbox_err instance :=
  match parseConfig (sb_Config spec) with
  | Err e => (p, fs, Err e)
  | Ok cfg =>
      let n := i64 (p_counter p + 1) in
      (mkProvider (p_firejail p) n, fs, Ok (mkInstance ("firejail-" +:+ pretty n) (p_firejail p) (buildFirejailArgs cfg)))
  end.
Definition Exec (i : instance) (environ : list string) (cmd : string) (args : list string)
    (env : list (string * string)) : result sandbox_err Cmd :=
  if (cmd =? "")%string then Err EmptyCmd
  else Ok (command (i_firejail i) (i_fjArg i ++ [cmd] ++ args) environ env).
Definition Teardown (i : instance) (stuck : gset string) (fs : host_fs) : host_fs * bool := (fs, true).
#[global] Instance firejail_provider : Provider provider instance unit := {|
  prov_Name := Name; prov_Prepare := Prepare; inst_ID := i_id; inst_Exec := Exec; inst_Teardown := Teardown |}.
End Firejail.

(** ** sandbox-exec *)

Module SandboxExec.
Record provider := mkProvider { p_binary : string; p_tmpDir : string; p_counter : Z }.
Definition New (SandboxExecPath TmpDir goos tempdir : string) (lookpath : option string) : result sandbox_err provider :=
  if negb (goos =? "darwin")%string then Err ErrUnsupportedPlatform
  else
    let! bin := (if (SandboxExecPath =? "")%string then
                   match lookpath with None => Err ErrToolNotFound | Some p => Ok p end
                 else Ok SandboxExecPath) in
    Ok (mkProvider bin (if (TmpDir =? "")%string then tempdir else TmpDir) 0).
Definition Name (p : provider) : string := "sandbox-exec".

Record config := mkConfig { c_profileText : string; c_profileName : string; c_profileFile : string }.
Definition set_field (c : config) (k : string) (v : any_val) : result sandbox_err config :=
  let '(mkConfig t n f) := c in
  if decide (k = "profile") then let! x := as_string v k in Ok (mkConfig x n f)
  else if decide (k = "profile_name") then let! x := as_string v k in Ok (mkConfig t x f)
  else if decide (k = "profile_file") then let! x := as_string v k in Ok (mkConfig t n x)
  else Err (UnknownKey k).
Definition count_set (s : string) : nat := if (s =? "")%string then 0 else 1.
Definition parseConfig (raw : list (string * any_val)) : result sandbox_err config :=
  let! c := range_entries set_field raw (mkConfig "" "" "") in
  if (count_set (c_profileText c) + count_set (c_profileName c) + count_set (c_profileFile c) =? 1)%nat
  then Ok c else Err NotExactlyOne.

Record instance := mkInstance {
  i_id : string; i_binary : string; i_builtinName : string; i_profilePath : string; i_profileOwned : bool }.

(** What the operating system answers: the name CreateTemp makes up or its
    failure, how much of a failing write arrives, whether Close and the
    removals of the error paths fail. *)
Record faults := mkFaults {
  f_temp : option string; f_write : option nat; f_close_fails : bool; f_remove_fails : bool }.

Definition put_file (fs : host_fs) (name : string) (mode : Z) (b : bytes) : host_fs :=
  mkHostFs (<[name := (mode, b)]> (hf_files fs)) (hf_dirs fs).
Definition remove_file (fs : host_fs) (name : string) : host_fs :=
  mkHostFs (delete name (hf_files fs)) (hf_dirs fs).
Definition cleanup (f : faults) (fs : host_fs) (name : string) : host_fs :=
  if f_remove_fails f then fs else remove_file fs name.
Definition text_bytes (s : string) : bytes := byte_of_ascii <$> chars s.

(** The inline profile goes to a temporary file of mode 0600. *)
Definition materialize (f : faults) (text : string) (fs : host_fs) : host_fs * result sandbox_err string :=
  match f_temp f with
  | None => (fs, Err CreateTempErr)
  | Some name =>
      match f_write f with
      | Some k => (cleanup f (put_file fs name 384 (take k (text_bytes text))) name, Err WriteProfileErr)
      | None =>
          let fs1 := put_file fs name 384 (text_bytes text) in
          if f_close_fails f then (cleanup f fs1 name, Err CloseProfileErr) else (fs1, Ok name)
      end
  end.

Definition Prepare (p : provider) (spec : SandboxSpec) (scripts : list Script) (f : faults) (fs : host_fs)
    : provider * host_fs * result sandbox_err instance :=
  match parseConfig (sb_Config spec) with
  | Err e => (p, fs, Err e)
  | Ok cfg =>
      let n := i64 (p_counter p + 1) in
      let p' := mkProvider (p_binary p) (p_tmpDir p) n in
      let id := "sandbox-exec-" +:+ pretty n in
      if negb (c_profileName cfg =? "")%string then (p', fs, Ok (mkInstance id (p_binary p) (c_profileName cfg) "" false))
      else if negb (c_profileFile cfg =? "")%string then (p', fs, Ok (mkInstance id (p_binary p) "" (c_profileFile cfg) false))
      else if negb (c_profileText cfg =? "")%string then
        match materialize f (c_profileText cfg) fs with
        | (fs', Ok name) => (p', fs', Ok (mkInstance id (p_binary p) "" name true))
        | (fs', Err e) => (p', fs', Err e)
        end
      else (p', fs, Ok (mkInstance id (p_binary p) "" "" false))
  end.

Definition buildSandboxArgs (i : instance) : list string :=
  if negb (i_builtinName i =? "")%string then ["-n"; i_builtinName i]
  else if negb (i_profilePath i =? "")%string then ["-f"; i_profilePath i]
  else [].
Definition Exec (i : instance) (environ : list string) (cmd : string) (args : list string)
    (env : list (string * string)) : result sandbox_err Cmd :=
  if (cmd =? "")%string then Err EmptyCmd
  else Ok (command (i_binary i) (buildSandboxArgs i ++ [cmd] ++ args) environ env).
(** [os.Remove] fails for a file that is gone as for one it may not remove. *)
Definition Teardown (i : instance) (stuck : gset string) (fs : host_fs) : host_fs * bool :=
  if i_profileOwned i && negb (i_profilePath i =? "")%string then
    if decide (hf_files fs !! i_profilePath i = None ∨ i_profilePath i ∈ stuck) then (fs, false)
    else (remove_file fs (i_profilePath i), true)
  else (fs, true).
#[global] Instance sandboxexec_provider : Provider provider instance faults := {|
  prov_Name := Name; prov_Prepare := Prepare; inst_ID := i_id; inst_Exec := Exec; inst_Teardown := Teardown |}.
End SandboxExec.

(** ** scriptdir *)

Module ScriptDir.
Record provider := mkProvider { p_BaseDir : string }.
Definition New (BaseDir tempdir : string) : provider := mkProvider (if (BaseDir =? "")%string then tempdir else BaseDir).
Definition Name (p : provider) : string := "scriptdir".

(** [f_dir]: the directory MkdirTemp makes up; [f_writes]: the fault of each
    write; [f_stuck]: the paths that cannot be removed. *)
Record faults := mkFaults {
  f_base_fails : bool; f_dir : option string; f_umask : Z; f_writes : list write_fault; f_stuck : gset string }.

(** [os.RemoveAll]: the directory with everything below it, less what cannot be
    removed and the directories above that; it fails if there is such a path. *)
Definition refused (stuck : gset string) (fs : host_fs) (dir : string) : gset string :=
  filter (inside dir) (stuck ∩ (dom (hf_files fs) ∪ hf_dirs fs)).
Definition remove_all (stuck : gset string) (fs : host_fs) (dir : string) : host_fs :=
  let r := refused stuck fs dir in
  mkHostFs (filter (λ kv, inside dir kv.1 → kv.1 ∈ r) (hf_files fs))
    (filter (λ d, inside dir d → set_Exists (inside d) r) (hf_dirs fs)).
Definition cleanup (f : faults) (fs : host_fs) (dir : string) : host_fs := remove_all (f_stuck f) fs dir.

(** The loop over the scripts; [entrypoint] as in the code, empty until set. *)
Fixpoint write_scripts (dir : string) (umask : Z) (scripts : list Script) (flts : list write_fault) (fs : host_fs)
    (entrypoint : string) : host_fs * result sandbox_err string :=
  match scripts with
  | [] => (fs, Ok entrypoint)
  | s :: scripts' =>
      match WriteInto s dir umask (default NoFault (head flts)) fs with
      | (fs1, false) => (fs1, Err ScriptErr)
      | (fs1, true) =>
          write_scripts dir umask scripts' (tail flts) fs1
            (if (sc_InnerPath s =? "/cliwrap/entrypoint.sh")%string
             then path_join [dir; "cliwrap"; "entrypoint.sh"] else entrypoint)
      end
  end.

Record instance := mkInstance { i_dir : string; i_entrypoint : string }.
Definition Prepare (p : provider) (spec : SandboxSpec) (scripts : list Script) (f : faults) (fs : host_fs)
    : provider * host_fs * result sandbox_err instance :=
  if f_base_fails f then (p, fs, Err MkdirBaseErr)
  else
    let fs0 := mkHostFs (hf_files fs) ({[ p_BaseDir p ]} ∪ hf_dirs fs) in
    match f_dir f with
    | None => (p, fs0, Err MkdirTempErr)
    | Some dir =>
        let fs1 := mkHostFs (hf_files fs0) ({[ dir ]} ∪ hf_dirs fs0) in
        match write_scripts dir (f_umask f) scripts (f_writes f) fs1 "" with
        | (fs2, Err e) => (p, cleanup f fs2 dir, Err e)
        | (fs2, Ok entrypoint) =>
            if (entrypoint =? "")%string then (p, cleanup f fs2 dir, Err NoEntrypoint)
            else (p, fs2, Ok (mkInstance dir entrypoint))
        end
    end.

(** [filepath.Base] of a cleaned path. *)
Definition path_base (p : string) : string := of_chars (default [] (last (split_slash (chars p)))).
Definition ID (i : instance) : string := path_base (i_dir i).
Definition Exec (i : instance) (environ : list string) (cmd : string) (args : list string)
    (env : list (string * string)) : result sandbox_err Cmd :=
  Ok (command "/bin/sh" [i_entrypoint i] environ env).
Definition Teardown (i : instance) (stuck : gset string) (fs : host_fs) : host_fs * bool :=
  (remove_all stuck fs (i_dir i), bool_decide (refused stuck fs (i_dir i) = ∅)).
#[global] Instance scriptdir_provider : Provider provider instance faults := {|
  prov_Name := Name; prov_Prepare := Prepare; inst_ID := ID; inst_Exec := Exec; inst_Teardown := Teardown |}.
End ScriptDir.

(** ** The providers keep the interface's promises *)

Lemma command_env name args environ env : cmd_Env (command name args environ env) = environ ++ envSlice env.
Proof. done. Qed.

#[global] Instance noop_laws : ProviderLaws Noop.provider Noop.instance unit (λ _ _, True) (λ _, True).
Proof.
  refine {| owned := λ _ _, False |}; simpl; unfold Noop.Prepare, Noop.Exec, Noop.Teardown; intros; by simplify_eq.
Defined.
#[global] Instance bubblewrap_laws : ProviderLaws Bubblewrap.provider Bubblewrap.instance unit (λ _ _, True) (λ _, True).
Proof.
  refine {| owned := λ _ _, False |}; simpl; unfold Bubblewrap.Prepare, Bubblewrap.Exec, Bubblewrap.Teardown;
    intros; split_matches; naive_solver.
Defined.
#[global] Instance firejail_laws : ProviderLaws Firejail.provider Firejail.instance unit (λ _ _, True) (λ _, True).
Proof.
  refine {| owned := λ _ _, False |}; simpl; unfold Firejail.Prepare, Firejail.Exec, Firejail.Teardown;
    intros; split_matches; naive_solver.
Defined.

(** CreateTemp makes up a name that was free. *)
Definition temp_fair (f : SandboxExec.faults) (fs : host_fs) : Prop :=
  SandboxExec.f_remove_fails f = false ∧
  match SandboxExec.f_temp f with Some n => n ≠ ""%string ∧ hf_files fs !! n = None | None => True end.
Definition temp_owned (i : SandboxExec.instance) (q : string) : Prop :=
  SandboxExec.i_profileOwned i = true ∧ SandboxExec.i_profilePath i ≠ ""%string ∧ q = SandboxExec.i_profilePath i.

#[global] Instance sandboxexec_laws :
  ProviderLaws SandboxExec.provider SandboxExec.instance SandboxExec.faults temp_fair (λ _, True).
Proof.
  refine {| owned := temp_owned |}; simpl.
  - intros p spec scripts f fs p' fs' e [Hr Ht] _ H. unfold SandboxExec.Prepare, SandboxExec.materialize in H.
    repeat case_match; simplify_eq/=; try done; unfold SandboxExec.cleanup; rewrite Hr; simpl;
      destruct Ht as [_ Ht]; by rewrite delete_insert_id.
  - intros p spec scripts f fs p' fs' i [Hr Ht] _ H q. unfold SandboxExec.Prepare, SandboxExec.materialize in H.
    unfold temp_owned. repeat case_match; simplify_eq/=; try naive_solver. destruct Ht as [Hn Ht]. split; [naive_solver|].
    intros Hq. rewrite lookup_insert_ne; [done|]. naive_solver.
  - intros i fs fs' H q. unfold SandboxExec.Teardown, temp_owned in *. destruct (SandboxExec.i_profileOwned i); simpl in H.
    + destruct (String.eqb_spec (SandboxExec.i_profilePath i) ""); simplify_eq/=; [naive_solver|]. case_decide; simplify_eq; simpl.
      split; [intros (_ & _ & ->); by rewrite lookup_delete_eq|]. intros Hq. rewrite lookup_delete_ne; [done|]. naive_solver.
    + simplify_eq. naive_solver.
  - unfold SandboxExec.Exec. intros. by case_match; simplify_eq.
Defined.

(** MkdirTemp makes up a rooted directory with nothing below it. *)
Definition dir_fair (f : ScriptDir.faults) (fs : host_fs) : Prop :=
  ScriptDir.f_stuck f = ∅ ∧
  match ScriptDir.f_dir f with
  | Some d => (∃ r, d = String slash r) ∧ ∀ q, inside d q → hf_files fs !! q = None
  | None => True
  end.
Definition no_dotdot (scripts : list Script) : Prop :=
  Forall (λ s, dotdot ∉ split_slash (chars (sc_InnerPath s))) scripts.

(** The paths the scripts are written to. *)
Definition destinations (dir : string) (scripts : list Script) : list string := (λ s, script_dst s dir) <$> scripts.

Lemma destinations_inside dir scripts q :
  (∃ d, dir = String slash d) → no_dotdot scripts → q ∈ destinations dir scripts → inside dir q.
Proof.
  intros [d ->] Hs Hq. apply list_elem_of_fmap in Hq as (s & -> & Hin).
  apply script_dst_inside. by apply (proj1 (Forall_forall _ _) Hs).
Qed.

Lemma write_scripts_frame dir umask scripts flts fs ep fs' r q :
  ScriptDir.write_scripts dir umask scripts flts fs ep = (fs', r) → q ∉ destinations dir scripts →
  hf_files fs' !! q = hf_files fs !! q.
Proof.
  revert flts fs ep. induction scripts as [|s scripts IH]; intros flts fs ep H Hq; simpl in H; [by simplify_eq|].
  apply not_elem_of_cons in Hq as [Hne Hq].
  pose proof (write_into_frame s dir umask (default NoFault (head flts)) fs q Hne) as Hf.
  destruct (WriteInto _ _ _ _ _) as [fs1 []]; simpl in Hf; [by rewrite (IH _ _ _ H)|by simplify_eq].
Qed.

Lemma remove_all_lookup stuck fs dir q :
  hf_files (ScriptDir.remove_all stuck fs dir) !! q =
  if decide (inside dir q ∧ q ∉ stuck) then None else hf_files fs !! q.
Proof.
  simpl. case_decide as E.
  - apply map_lookup_filter_None_2. right. intros x _. unfold ScriptDir.refused. set_solver.
  - destruct (hf_files fs !! q) eqn:Eq; [|apply map_lookup_filter_None_2; by left].
    apply map_lookup_filter_Some_2; [done|]. intros Hi. apply elem_of_filter. split; [done|].
    apply elem_of_intersection. split; [by destruct (decide (q ∈ stuck)); [|naive_solver]|].
    apply elem_of_union_l, elem_of_dom. eauto.
Qed.

#[global] Instance scriptdir_laws :
  ProviderLaws ScriptDir.provider ScriptDir.instance ScriptDir.faults dir_fair no_dotdot.
Proof.
  refine {| owned := λ i, inside (ScriptDir.i_dir i) |}; simpl.
  - intros p spec scripts f fs p' fs' e [Hr Hd] Hs H. unfold ScriptDir.Prepare in H.
    case_match; simplify_eq; [done|]. destruct (ScriptDir.f_dir f) as [dir|]; simplify_eq; [|done].
    destruct Hd as [Hroot Hfree]. destruct (ScriptDir.write_scripts _ _ _ _ _ _) as [fs2 r] eqn:Ew.
    assert (hf_files (ScriptDir.remove_all ∅ fs2 dir) = hf_files fs) as Heq.
    { apply map_eq. intros q. rewrite remove_all_lookup. case_decide as E; [by rewrite Hfree by apply E|].
      rewrite (write_scripts_frame _ _ _ _ _ _ _ _ q Ew); [done|].
      intros Hin%destinations_inside; [set_solver|done..]. }
    unfold ScriptDir.cleanup in H. rewrite Hr in H. repeat case_match; by simplify_eq.
  - intros p spec scripts f fs p' fs' i [Hr Hd] Hs H q. unfold ScriptDir.Prepare in H.
    case_match; simplify_eq. destruct (ScriptDir.f_dir f) as [dir|]; simplify_eq.
    destruct Hd as [Hroot Hfree]. destruct (ScriptDir.write_scripts _ _ _ _ _ _) as [fs2 r] eqn:Ew.
    destruct r; [|done]. case_match; simplify_eq/=. split; [by apply Hfree|]. intros Hq.
    rewrite (write_scripts_frame _ _ _ _ _ _ _ _ q Ew); [done|]. by intros ?%destinations_inside.
  - intros i fs fs' [= <- _] q. rewrite remove_all_lookup. case_decide; set_solver.
  - intros i environ cmd args env c [= <-]. done.
Defined.

(** ** What bwrap makes of the argument vector *)

Inductive bwrap_op :=
| OpUnshareAll | OpShareNet | OpRoBind (src dst : string) | OpBind (src dst : string)
| OpProc (dst : string) | OpDev (dst : string) | OpTmpfs (dst : string) | OpChdir (dir : string) | OpDieWithParent.

(** bwrap(1): options are read left to right, each with its operands, and the
    command starts after [--]. *)
Class BwrapTool := { bwrap_read : list string → option (list bwrap_op * list string) }.
Class BwrapLaws `{BwrapTool} := {
  read_end l : bwrap_read ("--" :: l) = Some ([], l);
  read_flag l : bwrap_read ("--unshare-all" :: l) = (λ r, (OpUnshareAll :: r.1, r.2)) <$> bwrap_read l;
  read_share_net l : bwrap_read ("--share-net" :: l) = (λ r, (OpShareNet :: r.1, r.2)) <$> bwrap_read l;
  read_ro_bind a b l : bwrap_read ("--ro-bind" :: a :: b :: l) = (λ r, (OpRoBind a b :: r.1, r.2)) <$> bwrap_read l;
  read_bind a b l : bwrap_read ("--bind" :: a :: b :: l) = (λ r, (OpBind a b :: r.1, r.2)) <$> bwrap_read l;
  read_proc a l : bwrap_read ("--proc" :: a :: l) = (λ r, (OpProc a :: r.1, r.2)) <$> bwrap_read l;
  read_dev a l : bwrap_read ("--dev" :: a :: l) = (λ r, (OpDev a :: r.1, r.2)) <$> bwrap_read l;
  read_tmpfs a l : bwrap_read ("--tmpfs" :: a :: l) = (λ r, (OpTmpfs a :: r.1, r.2)) <$> bwrap_read l;
  read_chdir a l : bwrap_read ("--chdir" :: a :: l) = (λ r, (OpChdir a :: r.1, r.2)) <$> bwrap_read l;
  read_die l : bwrap_read ("--die-with-parent" :: l) = (λ r, (OpDieWithParent :: r.1, r.2)) <$> bwrap_read l
}.

(** What a path of the sandbox leads to: the last mount over it counts. *)
Inductive access := HostReadOnly | HostReadWrite | Private.
Definition mount_of (o : bwrap_op) : option (string * access) :=
  match o with
  | OpRoBind _ d => Some (d, HostReadOnly)
  | OpBind _ d => Some (d, HostReadWrite)
  | OpProc d | OpDev d | OpTmpfs d => Some (d, Private)
  | _ => None
  end.
Fixpoint path_access (ops : list bwrap_op) (q : string) : option access :=
  match ops with
  | [] => None
  | o :: ops' =>
      match path_access ops' q with
      | Some a => Some a
      | None => match mount_of o with Some (d, a) => if decide (inside d q) then Some a else None | None => None end
      end
  end.

Definition bwrap_ops (c : Bubblewrap.config) : list bwrap_op :=
  [OpUnshareAll] ++ (if Bubblewrap.c_network c then [OpShareNet] else []) ++
  [OpRoBind "/" "/"; OpProc "/proc"; OpDev "/dev"; OpTmpfs "/tmp"] ++
  ((λ p, OpRoBind p p) <$> Bubblewrap.c_bindRO c) ++ ((λ p, OpBind p p) <$> Bubblewrap.c_bindRW c) ++
  (if (Bubblewrap.c_chdir c =? "")%string then [] else [OpChdir (Bubblewrap.c_chdir c)]) ++ [OpDieWithParent].

Lemma read_binds `{BwrapLaws} (opt : string) (op : string → bwrap_op) l x :
  (∀ a y, bwrap_read (opt :: a :: a :: y) = (λ r, (op a :: r.1, r.2)) <$> bwrap_read y) →
  bwrap_read ((l ≫= λ p, [opt; p; p]) ++ x) = (λ r, ((op <$> l) ++ r.1, r.2)) <$> bwrap_read x.
Proof.
  intros Hopt. induction l as [|a l IH]; simpl; [by destruct (bwrap_read x) as [[]|]|].
  rewrite Hopt. unfold mbind in IH. rewrite IH. by destruct (bwrap_read x) as [[]|].
Qed.

Lemma bwrap_reads_args `{BwrapLaws} c cmd :
  bwrap_read (Bubblewrap.buildBwrapArgs c ++ "--" :: cmd) = Some (bwrap_ops c, cmd).
Proof.
  unfold Bubblewrap.buildBwrapArgs, bwrap_ops. rewrite <- !app_assoc. cbn [app]. rewrite read_flag.
  assert (∀ x, bwrap_read ((if Bubblewrap.c_network c then ["--share-net"] else []) ++ x) =
    (λ r, ((if Bubblewrap.c_network c then [OpShareNet] else []) ++ r.1, r.2)) <$> bwrap_read x) as ->.
  { intros x. destruct (Bubblewrap.c_network c); simpl; [by rewrite read_share_net|]. by destruct (bwrap_read x) as [[]|]. }
  rewrite read_ro_bind, read_proc, read_dev, read_tmpfs.
  rewrite (read_binds "--ro-bind" (λ p, OpRoBind p p)) by (intros; apply read_ro_bind).
  rewrite (read_binds "--bind" (λ p, OpBind p p)) by (intros; apply read_bind).
  destruct (Bubblewrap.c_chdir c =? "")%string; cbn [app]; rewrite ?read_chdir, read_die, read_end; done.
Qed.

Lemma path_access_app ops ops' q :
  path_access (ops ++ ops') q = match path_access ops' q with Some a => Some a | None => path_access ops q end.
Proof. induction ops as [|o ops IH]; simpl; [by case_match|]. rewrite IH. by repeat case_match. Qed.

Lemma path_access_mounts (op : string → bwrap_op) a l q :
  (∀ d, mount_of (op d) = Some (d, a)) →
  path_access (op <$> l) q = if decide (Exists (λ d, inside d q) l) then Some a else None.
Proof.
  intros Hop. induction l as [|d l IH]; [done|]. rewrite fmap_cons. cbn [path_access]. rewrite IH, Hop.
  repeat case_decide; try done; exfalso; rewrite Exists_cons in *; naive_solver.
Qed.

Lemma path_access_bwrap c q :
  path_access (bwrap_ops c) q =
  if decide (Exists (λ d, inside d q) (Bubblewrap.c_bindRW c)) then Some HostReadWrite
  else if decide (Exists (λ d, inside d q) (Bubblewrap.c_bindRO c)) then Some HostReadOnly
  else if decide (inside "/tmp" q ∨ inside "/dev" q ∨ inside "/proc" q) then Some Private else Some HostReadOnly.
Proof.
  unfold bwrap_ops. rewrite !path_access_app.
  rewrite (path_access_mounts _ HostReadWrite), (path_access_mounts _ HostReadOnly) by done.
  assert (path_access (if (Bubblewrap.c_chdir c =? "")%string then [] else [OpChdir (Bubblewrap.c_chdir c)]) q = None) as ->
    by by case_match.
  simpl. case_decide; [done|]. case_decide; [done|]. assert (inside "/" q) as Hroot by apply prefix_nil.
  repeat case_decide; naive_solver.
Qed.

(** C23: A command run through the bubblewrap provider: for a parsed
    configuration bwrap starts exactly the given command with its arguments,
    the network is the host's only if asked for, and a path leads to a writable
    part of the host exactly if it lies under a configured [bind_rw]; everything
    else is read-only or private, /tmp included unless re-bound. *)
Theorem bubblewrap_isolates `{BwrapLaws} p spec scripts fs p' fs' i cfg environ cmd args env :
  Bubblewrap.parseConfig (sb_Config spec) = Ok cfg → cmd ≠ ""%string →
  Bubblewrap.Prepare p spec scripts tt fs = (p', fs', Ok i) →
  ∃ c ops, Bubblewrap.Exec i environ cmd args env = Ok c ∧
    head (cmd_Args c) = Some (Bubblewrap.p_bwrap p) ∧
    bwrap_read (tail (cmd_Args c)) = Some (ops, cmd :: args) ∧
    OpUnshareAll ∈ ops ∧ OpDieWithParent ∈ ops ∧ (OpShareNet ∈ ops ↔ Bubblewrap.c_network cfg = true) ∧
    (∀ q, path_access ops q = Some HostReadWrite ↔ ∃ d, d ∈ Bubblewrap.c_bindRW cfg ∧ inside d q) ∧
    (∀ q, is_Some (path_access ops q)).
Proof.
  intros Hc Hcmd Hp. unfold Bubblewrap.Prepare in Hp. rewrite Hc in Hp. simplify_eq.
  unfold Bubblewrap.Exec. destruct (String.eqb_spec cmd "") as [|_]; [done|]. eexists _, (bwrap_ops cfg).
  split; [done|]. split; [done|]. cbn [command cmd_Args tail]. split; [apply bwrap_reads_args|].
  split; [unfold bwrap_ops; set_solver|]. split; [unfold bwrap_ops; set_solver|]. split; [|split].
  - unfold bwrap_ops. destruct (Bubblewrap.c_network cfg); [set_solver|].
    split; [|done]. destruct (Bubblewrap.c_chdir cfg =? "")%string; set_solver.
  - intros q. rewrite path_access_bwrap, <- Exists_exists. repeat case_decide; naive_solver.
  - intros q. rewrite path_access_bwrap. repeat case_decide; eauto.
Qed.

(** A reader that keeps the laws. *)
Definition more (op : bwrap_op) (r : option (list bwrap_op * list string)) : option (list bwrap_op * list string) :=
  (λ r, (op :: r.1, r.2)) <$> r.
Fixpoint bwrap_reference (l : list string) : option (list bwrap_op * list string) :=
  match l with
  | [] => None
  | o :: l1 =>
      if decide (o = "--") then Some ([], l1)
      else if decide (o = "--unshare-all") then more OpUnshareAll (bwrap_reference l1)
      else if decide (o = "--share-net") then more OpShareNet (bwrap_reference l1)
      else if decide (o = "--die-with-parent") then more OpDieWithParent (bwrap_reference l1)
      else match l1 with
      | [] => None
      | a :: l2 =>
          if decide (o = "--proc") then more (OpProc a) (bwrap_reference l2)
          else if decide (o = "--dev") then more (OpDev a) (bwrap_reference l2)
          else if decide (o = "--tmpfs") then more (OpTmpfs a) (bwrap_reference l2)
          else if decide (o = "--chdir") then more (OpChdir a) (bwrap_reference l2)
          else match l2 with
          | [] => None
          | b :: l3 => if decide (o = "--ro-bind") then more (OpRoBind a b) (bwrap_reference l3)
                       else if decide (o = "--bind") then more (OpBind a b) (bwrap_reference l3) else None
          end
      end
  end.
Definition reference_tool : BwrapTool := {| bwrap_read := bwrap_reference |}.
Lemma reference_laws : @BwrapLaws reference_tool.
Proof. by split. Qed.

Lemma bubblewrap_isolates_witness :
  let spec := mkSandboxSpec "bubblewrap" [("bind_rw", VList [VStr "/work"]); ("network", VBool false)] in
  let '(p', fs', r) := Bubblewrap.Prepare (Bubblewrap.mkProvider "/usr/bin/bwrap" 0) spec [] tt (mkHostFs ∅ ∅) in
  ∃ i c ops, r = Ok i ∧ Bubblewrap.Exec i [] "/bin/cp" ["-r"; "a"] [] = Ok c ∧
    bwrap_reference (tail (cmd_Args c)) = Some (ops, ["/bin/cp"; "-r"; "a"]) ∧
    OpShareNet ∉ ops ∧ path_access ops "/etc/passwd" ≠ Some HostReadWrite.
Proof.
  intros spec. destruct (@bubblewrap_isolates reference_tool reference_laws (Bubblewrap.mkProvider "/usr/bin/bwrap" 0)
    spec [] (mkHostFs ∅ ∅) _ _ _ _ [] "/bin/cp" ["-r"; "a"] [] eq_refl ltac:(done) eq_refl)
    as (c & ops & H1 & _ & H3 & _ & _ & H6 & H7 & _).
  eexists _, c, ops. split; [reflexivity|]. split; [exact H1|]. split; [exact H3|]. split; [by rewrite H6|].
  rewrite H7. intros (d & Hd & Hin). apply list_elem_of_singleton in Hd as ->. revert Hin. by apply (bool_decide_unpack _).
Defined.

(** ** What the configurations mean *)

(** The value a key gives a field, the field's own value where it is absent. *)
Definition get_or {A} (conv : any_val → string → result sandbox_err A) (raw : list (string * any_val)) (k : string) (d : A) : A :=
  match config_get raw k with
  | Some v => match conv v k with Ok x => x | Err _ => d end
  | None => d
  end.

Lemma config_get_notin raw k : k ∉ raw.*1 → config_get raw k = None.
Proof.
  induction raw as [|[k' v] raw IH]; [done|]. rewrite fmap_cons. intros [Hk Hr]%not_elem_of_cons. simpl in *.
  rewrite decide_False by (by intros <-). by apply IH.
Qed.

(** A configuration loop succeeds exactly when every entry does, whatever the
    order, and then holds the fields the keys give. *)
Lemma range_entries_spec {C} (set : C → string → any_val → result sandbox_err C) (ok : string → any_val → bool)
    (read : list (string * any_val) → C → C) :
  (∀ c, read [] c = c) →
  (∀ c k v raw, k ∉ raw.*1 → if ok k v then ∃ c1, set c k v = Ok c1 ∧ read raw c1 = read ((k, v) :: raw) c
                else ∃ e, set c k v = Err e) →
  ∀ raw c c', NoDup raw.*1 →
  range_entries set raw c = Ok c' ↔ Forall (λ kv, ok kv.1 kv.2 = true) raw ∧ c' = read raw c.
Proof.
  intros Hnil Hcons. induction raw as [|[k v] raw IH]; intros c c' Hnd; simpl.
  { rewrite Hnil, Forall_nil. naive_solver. }
  rewrite fmap_cons in Hnd. apply NoDup_cons in Hnd as [Hk Hnd]. specialize (Hcons c k v raw Hk).
  rewrite Forall_cons. simpl. destruct (ok k v).
  - destruct Hcons as (c1 & -> & <-). simpl. rewrite IH by done. naive_solver.
  - destruct Hcons as (e & ->). simpl. naive_solver.
Qed.

Definition firejail_read (raw : list (string * any_val)) (c : Firejail.config) : Firejail.config :=
  Firejail.mkConfig
    (get_or as_string raw "profile" (Firejail.c_profile c)) (get_or as_string raw "netns" (Firejail.c_netns c))
    (get_or as_bool raw "nonet" (Firejail.c_nonet c)) (get_or as_bool raw "private" (Firejail.c_private c))
    (get_or as_bool raw "noroot" (Firejail.c_noroot c)) (get_or stringSlice raw "whitelist" (Firejail.c_whitelist c))
    (get_or stringSlice raw "blacklist" (Firejail.c_blacklist c)) (get_or as_bool raw "caps_drop" (Firejail.c_capsDrop c))
    (get_or as_bool raw "seccomp" (Firejail.c_seccomp c)).
(** A known key with a value of its type. *)
Definition firejail_entry_ok (k : string) (v : any_val) : bool :=
  if decide (k = "profile") then is_ok (as_string v k)
  else if decide (k = "netns") then is_ok (as_string v k)
  else if decide (k = "nonet") then is_ok (as_bool v k)
  else if decide (k = "private") then is_ok (as_bool v k)
  else if decide (k = "noroot") then is_ok (as_bool v k)
  else if decide (k = "caps_drop") then is_ok (as_bool v k)
  else if decide (k = "seccomp") then is_ok (as_bool v k)
  else if decide (k = "whitelist") then is_ok (stringSlice v k)
  else if decide (k = "blacklist") then is_ok (stringSlice v k)
  else false.

Lemma get_or_cons {A} (conv : any_val → string → result sandbox_err A) k v raw k' d :
  k ∉ raw.*1 →
  get_or conv ((k, v) :: raw) k' d =
  if decide (k = k') then match conv v k' with Ok x => x | Err _ => d end else get_or conv raw k' d.
Proof. intros Hk. unfold get_or. simpl. by case_decide; subst. Qed.
Lemma get_or_absent {A} (conv : any_val → string → result sandbox_err A) raw k d : k ∉ raw.*1 → get_or conv raw k d = d.
Proof. intros Hk. unfold get_or. by rewrite config_get_notin. Qed.

(** One key of a configuration loop, its value converted by [conv]. *)
Ltac config_key K conv :=
  match goal with
  | k : string, v : any_val, raw : list (string * any_val) |- _ =>
      destruct (decide (k = K)) as [->|?];
      [repeat rewrite decide_False by done; destruct (conv v K); simpl; [|by eexists]; eexists; split; [reflexivity|]; simpl;
       by rewrite ?(get_or_absent _ raw K) by done|]
  end.

Lemma firejail_range raw c c' :
  NoDup raw.*1 →
  range_entries Firejail.set_field raw c = Ok c' ↔
  Forall (λ kv, firejail_entry_ok kv.1 kv.2 = true) raw ∧ c' = firejail_read raw c.
Proof.
  apply range_entries_spec; [by intros []|]. clear. intros c k v raw Hk. destruct c.
  unfold firejail_entry_ok, Firejail.set_field, firejail_read. cbn [Firejail.c_profile Firejail.c_netns Firejail.c_nonet
    Firejail.c_private Firejail.c_noroot Firejail.c_whitelist Firejail.c_blacklist Firejail.c_capsDrop Firejail.c_seccomp].
  rewrite !(get_or_cons _ k v raw) by done.
  config_key "profile" as_string. config_key "netns" as_string. config_key "nonet" as_bool. config_key "private" as_bool.
  config_key "noroot" as_bool. config_key "caps_drop" as_bool. config_key "seccomp" as_bool.
  config_key "whitelist" stringSlice. config_key "blacklist" stringSlice.
  by eexists.
Qed.

(** The argument vector read back: the last value of a valued option, every list entry. *)
Fixpoint option_values (pre : string) (l : list string) : list string :=
  match l with
  | [] => []
  | x :: l' => match strip pre x with Some v => v :: option_values pre l' | None => option_values pre l' end
  end.
Definition firejail_decode (l : list string) : Firejail.config :=
  let has s := existsb (String.eqb s) l in
  Firejail.mkConfig (default "" (head (option_values "--profile=" l))) (default "" (head (option_values "--netns=" l)))
    (has "--net=none") (has "--private") (has "--noroot") (option_values "--whitelist=" l) (option_values "--blacklist=" l)
    (has "--caps.drop=all") (has "--seccomp").

Lemma strip_app pre s : strip pre (pre +:+ s) = Some s.
Proof.
  unfold strip. assert (String.prefix pre (pre +:+ s) = true) as ->.
  { induction pre as [|c pre IH]; [by destruct s|]. simpl. by destruct (ascii_dec c c). }
  rewrite chars_app, drop_app_length. by rewrite of_chars_of.
Qed.

Lemma option_values_app pre l k : option_values pre (l ++ k) = option_values pre l ++ option_values pre k.
Proof. induction l as [|x l IH]; [done|]. simpl. rewrite IH. by case_match. Qed.
Lemma option_values_self pre l : option_values pre ((λ p, pre +:+ p) <$> l) = l.
Proof. induction l as [|x l IH]; [done|]. rewrite fmap_cons. cbn [option_values]. by rewrite strip_app, IH. Qed.
Lemma option_values_none pre l : Forall (λ x, strip pre x = None) l → option_values pre l = [].
Proof. induction 1 as [|x l Hx _ IH]; [done|]. simpl. by rewrite Hx. Qed.
Lemma existsb_absent s l : Forall (λ x, String.eqb s x = false) l → existsb (String.eqb s) l = false.
Proof. induction 1 as [|x l Hx _ IH]; [done|]. simpl. by rewrite Hx. Qed.

(** The options that precede the lists. *)
Definition firejail_head (c : Firejail.config) : list string :=
  ["--quiet"] ++ Firejail.valued "--profile=" (Firejail.c_profile c) ++ Firejail.flag (Firejail.c_private c) "--private" ++
  Firejail.flag (Firejail.c_noroot c) "--noroot" ++ Firejail.flag (Firejail.c_capsDrop c) "--caps.drop=all" ++
  Firejail.flag (Firejail.c_seccomp c) "--seccomp" ++ Firejail.flag (Firejail.c_nonet c) "--net=none" ++
  Firejail.valued "--netns=" (Firejail.c_netns c).

Lemma Forall_prefixed (Q : string → Prop) pre l : (∀ p, Q (pre +:+ p)) → Forall Q ((λ p, pre +:+ p) <$> l).
Proof. intros HQ. apply Forall_fmap, Forall_true. apply HQ. Qed.

(** Different configurations give different argument vectors. *)
Lemma firejail_decode_build c : firejail_decode (Firejail.buildFirejailArgs c) = c.
Proof.
  assert (Firejail.buildFirejailArgs c = firejail_head c ++ ((λ p, "--whitelist=" +:+ p) <$> Firejail.c_whitelist c) ++
            ((λ p, "--blacklist=" +:+ p) <$> Firejail.c_blacklist c)) as ->.
  { unfold Firejail.buildFirejailArgs, firejail_head. by rewrite <- !app_assoc. }
  unfold firejail_decode. rewrite !option_values_app, !existsb_app, !option_values_self.
  rewrite !(option_values_none _ (_ <$> _)) by (by apply Forall_prefixed).
  rewrite !(existsb_absent _ (_ <$> _)) by (by apply Forall_prefixed). rewrite !orb_false_r, !app_nil_r. cbn [app].
  destruct c as [p n nn pr nr wl bl cd sc]. unfold firejail_head, Firejail.valued. simpl.
  destruct (String.eqb_spec p "") as [->|Hp], (String.eqb_spec n "") as [->|Hn]; destruct nn, pr, nr, cd, sc;
    cbn [option_values app Firejail.flag]; rewrite ?strip_app; done.
Qed.

(** The configuration a firejail provider accepts, from the values of its keys. *)
Definition firejail_config (spec : SandboxSpec) : Firejail.config := firejail_read (sb_Config spec) Firejail.zero_config.

(** A firejail sandbox is prepared exactly if every key is known and has
    a value of its type and [nonet] and [netns] are not combined, whatever the
    order in which the map is iterated; the command then runs behind options
    that say exactly what the configuration says. *)
Theorem firejail_runs_configured p spec scripts fs environ cmd args env :
  NoDup (sb_Config spec).*1 → cmd ≠ ""%string →
  let cfg := firejail_config spec in
  match Firejail.Prepare p spec scripts tt fs with
  | (_, _, Ok i) =>
      Forall (λ kv, firejail_entry_ok kv.1 kv.2 = true) (sb_Config spec) ∧
      ¬ (Firejail.c_nonet cfg = true ∧ Firejail.c_netns cfg ≠ ""%string) ∧
      ∃ c opts, Firejail.Exec i environ cmd args env = Ok c ∧
        cmd_Args c = Firejail.p_firejail p :: opts ++ cmd :: args ∧ firejail_decode opts = cfg
  | (p', _, Err _) =>
      p' = p ∧ (Forall (λ kv, firejail_entry_ok kv.1 kv.2 = true) (sb_Config spec) →
                Firejail.c_nonet cfg = true ∧ Firejail.c_netns cfg ≠ ""%string)
  end.
Proof.
  intros Hnd Hcmd cfg. unfold Firejail.Prepare, Firejail.parseConfig.
  pose proof (λ c', firejail_range (sb_Config spec) Firejail.zero_config c' Hnd) as Hr.
  fold (firejail_config spec) in Hr. fold cfg in Hr. clearbody cfg.
  destruct (range_entries _ _ _) as [c'|e]; simpl.
  - destruct (proj1 (Hr c') eq_refl) as [Hok ->].
    destruct (Firejail.c_nonet cfg && negb (Firejail.c_netns cfg =? "")%string) eqn:E; simpl.
    + split; [done|]. intros _. apply andb_true_iff in E as [E1 E2%negb_true_iff%String.eqb_neq]. done.
    + split; [done|]. split.
      * intros [E1 E2]. rewrite E1 in E. simpl in E. by apply negb_false_iff, String.eqb_eq in E.
      * unfold Firejail.Exec. destruct (String.eqb_spec cmd "") as [|_]; [done|]. eexists _, _. split; [done|].
        split; [done|]. apply firejail_decode_build.
  - split; [done|]. intros Hok. pose proof (proj2 (Hr cfg) (conj Hok eq_refl)). done.
Qed.

Lemma firejail_runs_configured_witness :
  let spec := mkSandboxSpec "firejail" [("whitelist", VList [VStr "/a"; VStr "/b"]); ("nonet", VBool true)] in
  match Firejail.Prepare (Firejail.mkProvider "/usr/bin/firejail" 0) spec [] tt (mkHostFs ∅ ∅) with
  | (_, _, Ok i) => ∃ c opts, Firejail.Exec i [] "/bin/ls" ["-l"] [] = Ok c ∧
      cmd_Args c = "/usr/bin/firejail" :: opts ++ ["/bin/ls"; "-l"] ∧ firejail_decode opts = firejail_config spec
  | (_, _, Err _) => False
  end.
Proof.
  intros spec.
  pose proof (firejail_runs_configured (Firejail.mkProvider "/usr/bin/firejail" 0) spec [] (mkHostFs ∅ ∅) [] "/bin/ls" ["-l"] [])
    as H.
  destruct H as (_ & _ & H); [by apply (bool_decide_unpack _)|done|]. exact H.
Defined.

(** *** sandbox-exec *)

Definition sandboxexec_read (raw : list (string * any_val)) (c : SandboxExec.config) : SandboxExec.config :=
  SandboxExec.mkConfig (get_or as_string raw "profile" (SandboxExec.c_profileText c))
    (get_or as_string raw "profile_name" (SandboxExec.c_profileName c))
    (get_or as_string raw "profile_file" (SandboxExec.c_profileFile c)).
Definition sandboxexec_entry_ok (k : string) (v : any_val) : bool :=
  if decide (k = "profile") then is_ok (as_string v k)
  else if decide (k = "profile_name") then is_ok (as_string v k)
  else if decide (k = "profile_file") then is_ok (as_string v k)
  else false.

Lemma sandboxexec_range raw c c' :
  NoDup raw.*1 →
  range_entries SandboxExec.set_field raw c = Ok c' ↔
  Forall (λ kv, sandboxexec_entry_ok kv.1 kv.2 = true) raw ∧ c' = sandboxexec_read raw c.
Proof.
  apply range_entries_spec; [by intros []|]. clear. intros c k v raw Hk. destruct c.
  unfold sandboxexec_entry_ok, SandboxExec.set_field, sandboxexec_read.
  cbn [SandboxExec.c_profileText SandboxExec.c_profileName SandboxExec.c_profileFile].
  rewrite !(get_or_cons _ k v raw) by done.
  config_key "profile" as_string. config_key "profile_name" as_string. config_key "profile_file" as_string. by eexists.
Qed.

(** The child runs under the one profile the configuration names; an inline
    profile is on disk, complete, in a file only this instance owns. *)
Theorem sandboxexec_profile_in_place p spec scripts f fs p' fs' i :
  NoDup (sb_Config spec).*1 → temp_fair f fs →
  SandboxExec.Prepare p spec scripts f fs = (p', fs', Ok i) →
  match sandboxexec_read (sb_Config spec) (SandboxExec.mkConfig "" "" "") with
  | SandboxExec.mkConfig "" name "" => name ≠ ""%string ∧ SandboxExec.buildSandboxArgs i = ["-n"; name] ∧ fs' = fs
  | SandboxExec.mkConfig "" "" file => file ≠ ""%string ∧ SandboxExec.buildSandboxArgs i = ["-f"; file] ∧ fs' = fs
  | SandboxExec.mkConfig text "" "" =>
      ∃ n, SandboxExec.buildSandboxArgs i = ["-f"; n] ∧ owned i n ∧
           hf_files fs' !! n = Some (384, SandboxExec.text_bytes text)
  | _ => False
  end.
Proof.
  intros Hnd [_ Hf] H. unfold SandboxExec.Prepare, SandboxExec.parseConfig in H.
  destruct (range_entries _ _ _) as [c'|e] eqn:E; simpl in H; [|done].
  apply sandboxexec_range in E as [_ ->]; [|done].
  destruct (sandboxexec_read _ _) as [text name file]. unfold SandboxExec.materialize, SandboxExec.buildSandboxArgs in *.
  destruct text as [|t text], name as [|n name], file as [|g file]; simpl in *; simplify_eq/=; try done.
  destruct (SandboxExec.f_temp f) as [tmp|]; [|done]. destruct Hf as [Hne _].
  destruct (SandboxExec.f_write f); [done|]. destruct (SandboxExec.f_close_fails f); simplify_eq/=.
  exists tmp. apply String.eqb_neq in Hne as Hb. rewrite Hb. split_and!; [done|done|by apply lookup_insert_eq].
Qed.

(** *** scriptdir *)

Lemma entrypoint_path_join d :
  path_join [String slash d; "cliwrap"; "entrypoint.sh"] = path_join [String slash d; "cliwrap/entrypoint.sh"].
Proof. done. Qed.

(** The script that provides the entrypoint, as [Prepare] looks for it. *)
Definition is_entry (s : Script) : Prop := sc_InnerPath s = "/cliwrap/entrypoint.sh"%string.
#[global] Instance is_entry_dec s : Decision (is_entry s).
Proof. unfold is_entry. apply _. Defined.
Definition entry_path (dir : string) : string := path_join [dir; "cliwrap"; "entrypoint.sh"].

(** What the scripts leave at a path: of several with one destination the last. *)
Fixpoint written (dir : string) (scripts : list Script) (q : string) : option (Z * bytes) :=
  match scripts with
  | [] => None
  | s :: scripts' =>
      match written dir scripts' q with
      | Some x => Some x
      | None => if decide (script_dst s dir = q) then Some (sc_Mode s, sc_Contents s) else None
      end
  end.

Lemma written_last dir pre s : written dir (pre ++ [s]) (script_dst s dir) = Some (sc_Mode s, sc_Contents s).
Proof. induction pre as [|x pre IH]; simpl; [by rewrite decide_True|by rewrite IH]. Qed.

Lemma written_is_Some dir s scripts : s ∈ scripts → is_Some (written dir scripts (script_dst s dir)).
Proof.
  induction 1 as [s scripts|s x scripts _ [y IH]]; simpl; [|by rewrite IH].
  destruct (written _ _ _); [by eexists|]. rewrite decide_True by done. by eexists.
Qed.

Lemma written_destination dir scripts q : q ∉ destinations dir scripts → written dir scripts q = None.
Proof.
  induction scripts as [|s scripts IH]; [done|]. intros [Hne Hq]%not_elem_of_cons. simpl.
  rewrite IH by done. by rewrite decide_False by auto.
Qed.

Lemma write_into_cases s dir umask flt fs :
  match WriteInto s dir umask flt fs with
  | (fs', true) => flt = NoFault ∧
      ∀ q, hf_files fs' !! q = if decide (script_dst s dir = q) then Some (sc_Mode s, sc_Contents s) else hf_files fs !! q
  | (_, false) => flt ≠ NoFault
  end.
Proof.
  unfold WriteInto. destruct flt; simpl; try done. split; [done|]. intros q. rewrite !lookup_insert. by repeat case_decide.
Qed.

(** The loop over the scripts, on both outcomes. *)
Lemma write_scripts_cases dir umask scripts flts fs ep :
  match ScriptDir.write_scripts dir umask scripts flts fs ep with
  | (fs', Ok ep') =>
      (∀ q, hf_files fs' !! q = match written dir scripts q with Some x => Some x | None => hf_files fs !! q end) ∧
      ep' = if decide (Exists is_entry scripts) then entry_path dir else ep
  | (_, Err e) => e = ScriptErr ∧ ∃ k, (k < length scripts)%nat ∧ default NoFault (flts !! k) ≠ NoFault
  end.
Proof.
  revert flts fs ep. induction scripts as [|s scripts IH]; intros flts fs ep; cbn [ScriptDir.write_scripts written length].
  { split; [done|]. by rewrite decide_False by (by intros ?%Exists_nil). }
  pose proof (write_into_cases s dir umask (default NoFault (head flts)) fs) as Hw.
  destruct (WriteInto _ _ _ _ _) as [fs1 []].
  - destruct Hw as [_ Hw].
    specialize (IH (tail flts) fs1 (if (sc_InnerPath s =? "/cliwrap/entrypoint.sh")%string then entry_path dir else ep)).
    fold (entry_path dir).
    destruct (ScriptDir.write_scripts _ _ _ _ _ _) as [fs' [ep'|e]].
    + destruct IH as [IH1 ->]. split.
      * intros q. rewrite IH1, Hw. by repeat case_match.
      * destruct (String.eqb_spec (sc_InnerPath s) "/cliwrap/entrypoint.sh") as [He|He];
          repeat case_decide; rewrite ?Exists_cons in *; unfold is_entry in *; tauto || done.
    + destruct IH as [-> (k & Hk & Hf)]. split; [done|]. exists (S k). split; [lia|]. by destruct flts.
  - split; [done|]. exists O. split; [lia|]. by destruct flts.
Qed.

Lemma entry_destination s d : is_entry s → script_dst s (String slash d) = entry_path (String slash d).
Proof. unfold is_entry, script_dst, entry_path. intros ->. symmetry. apply entrypoint_path_join. Qed.

Lemma entry_inside d : inside (String slash d) (entry_path (String slash d)).
Proof.
  rewrite <- (entry_destination (mkScript "/cliwrap/entrypoint.sh" 0 [])) by done.
  apply script_dst_inside. by apply (bool_decide_unpack _).
Qed.

(** [Teardown] removes exactly what is below the directory and not refused, and
    succeeds if nothing was. *)
Lemma scriptdir_teardown i stuck fs q :
  let '(fs', ok) := ScriptDir.Teardown i stuck fs in
  (inside (ScriptDir.i_dir i) q → hf_files fs' !! q = if decide (q ∈ stuck) then hf_files fs !! q else None) ∧
  (¬ inside (ScriptDir.i_dir i) q → hf_files fs' !! q = hf_files fs !! q) ∧
  (ok = true → inside (ScriptDir.i_dir i) q → hf_files fs' !! q = None) ∧
  (stuck = ∅ → ok = true).
Proof.
  unfold ScriptDir.Teardown. set (dir := ScriptDir.i_dir i). rewrite remove_all_lookup. split_and!.
  - intros Hi. repeat case_decide; naive_solver.
  - intros Hi. case_decide; naive_solver.
  - intros Hok%bool_decide_eq_true Hi. case_decide as E; [done|].
    destruct (hf_files fs !! q) as [x|] eqn:Eq; [|done]. exfalso.
    assert (q ∈ ScriptDir.refused stuck fs dir) as Hq; [|rewrite Hok in Hq; set_solver].
    apply elem_of_filter. split; [done|]. apply elem_of_intersection. split.
    + destruct (decide (q ∈ stuck)); [done|naive_solver].
    + apply elem_of_union_l, elem_of_dom. eauto.
  - intros ->. apply bool_decide_eq_true. unfold ScriptDir.refused. set_solver.
Qed.

(** MkdirTemp makes up a rooted directory with nothing below it. *)
Definition dir_fresh (f : ScriptDir.faults) (fs : host_fs) : Prop :=
  match ScriptDir.f_dir f with
  | Some d => (∃ r, d = String slash r) ∧ ∀ q, inside d q → hf_files fs !! q = None
  | None => True
  end.

(** The clean-up of a failed [Prepare] leaves the files from before, up to what
    it may not remove and what scripts wrote elsewhere. *)
Lemma cleanup_restores f dir fs fs2 scripts q :
  (∀ q, inside dir q → hf_files fs !! q = None) →
  (∀ q, q ∉ destinations dir scripts → hf_files fs2 !! q = hf_files fs !! q) →
  hf_files (ScriptDir.cleanup f fs2 dir) !! q = hf_files fs !! q ∨
  (inside dir q ∧ q ∈ ScriptDir.f_stuck f) ∨ (¬ inside dir q ∧ q ∈ destinations dir scripts).
Proof.
  intros Hfree Hsame. unfold ScriptDir.cleanup. rewrite remove_all_lookup.
  case_decide as E; [left; by rewrite Hfree by apply E|].
  destruct (decide (q ∈ destinations dir scripts)) as [Hin|Hout]; [right|left; by rewrite Hsame].
  destruct (decide (inside dir q)); [left|by right].
  split; [done|]. destruct (decide (q ∈ ScriptDir.f_stuck f)); [done|naive_solver].
Qed.

(** Why [Prepare] gives up with an error. *)
Definition scriptdir_cause (e : sandbox_err) (scripts : list Script) (f : ScriptDir.faults) : Prop :=
  match e with
  | MkdirBaseErr => ScriptDir.f_base_fails f = true
  | MkdirTempErr => ScriptDir.f_dir f = None
  | ScriptErr => ∃ k, (k < length scripts)%nat ∧ default NoFault (ScriptDir.f_writes f !! k) ≠ NoFault
  | NoEntrypoint => Forall (λ s, ¬ is_entry s) scripts
  | _ => False
  end.


(** A sandbox whose child wrote a file, torn down. *)
Definition life_script : Script := NewEntrypointScript "/bin/echo" ["it's"] [("X", "a b")].
Definition life_faults : ScriptDir.faults := ScriptDir.mkFaults false (Some "/tmp/scriptdir-1") 18 [] ∅.


(** ** The environment of a child *)

Lemma prefix_split pre s : String.prefix pre s = true → ∃ r, s = pre +:+ r.
Proof.
  revert s. induction pre as [|c pre IH]; intros s H; [by exists s|]. destruct s as [|c' s]; [done|]. simpl in H.
  destruct (ascii_dec c c') as [->|]; [|done]. destruct (IH s H) as [r ->]. by exists r.
Qed.

Lemma entry_for_other k k' v :
  "="%char ∉ chars k → "="%char ∉ chars k' → k ≠ k' → entry_for k (k' +:+ "=" +:+ v) = None.
Proof.
  intros H1 H2 Hne. unfold entry_for, strip. destruct (String.prefix _ _) eqn:E; [|done]. exfalso.
  apply prefix_split in E as [r Hr]. apply (f_equal chars) in Hr. rewrite !chars_app, <- app_assoc in Hr.
  apply split_first in Hr as [Hr _]; [|done|done]. apply (inj chars) in Hr. by subst.
Qed.

Lemma entry_for_same k v : entry_for k (k +:+ "=" +:+ v) = Some v.
Proof.
  unfold entry_for. assert (k +:+ "=" +:+ v = (k +:+ "=") +:+ v) as ->; [|apply strip_app].
  apply (inj chars). by rewrite !chars_app, <- app_assoc.
Qed.

Lemma env_value_app l l' k :
  env_value (l ++ l') k = match env_value l' k with Some v => Some v | None => env_value l k end.
Proof. induction l as [|e l IH]; simpl; [by case_match|]. rewrite IH. by repeat case_match. Qed.

Lemma env_value_slice env k :
  "="%char ∉ chars k → Forall (λ kv, "="%char ∉ chars kv.1) env → NoDup env.*1 →
  env_value (envSlice env) k = list_to_map (M := gmap string string) env !! k.
Proof.
  intros Hk Henv. induction Henv as [|[k' v] env Hk' _ IH]; intros Hnd; [done|].
  rewrite fmap_cons in Hnd. apply NoDup_cons in Hnd as [Hn Hnd]. simpl in *. rewrite IH by done.
  destruct (decide (k = k')) as [->|Hne].
  - rewrite lookup_insert_eq. rewrite not_elem_of_list_to_map_1 by done. apply entry_for_same.
  - rewrite lookup_insert_ne by done. rewrite entry_for_other by done. by case_match.
Qed.

(** Through every provider the child sees each variable of the request
    with the requested value and every other variable as the host has it, in
    whatever order the map is iterated. *)
Theorem sandbox_environment {P I F} `{ProviderLaws P I F fair tame} (i : I) environ cmd args env l c k :
  l ≡ₚ map_to_list env → inst_Exec i environ cmd args l = Ok c →
  "="%char ∉ chars k → map_Forall (λ k' _, "="%char ∉ chars k') env →
  env_value (cmd_Env c) k =
  match (env : gmap string string) !! k with Some v => Some v | None => env_value environ k end.
Proof.
  intros Hl Hc Hk Henv. assert (NoDup l.*1) as Hnd by (rewrite Hl; apply NoDup_fst_map_to_list).
  rewrite (exec_environment _ _ _ _ _ _ Hc), env_value_app, env_value_slice.
  - by rewrite (list_to_map_proper _ _ Hnd Hl), list_to_map_to_list.
  - done.
  - rewrite Hl. apply Forall_forall. intros [k' v] Hin%elem_of_map_to_list. by apply (Henv k' v).
  - done.
Qed.

Lemma sandbox_environment_witness :
  let env := {[ "PATH" := "/bin" ]} : gmap string string in
  let c := command "/bin/ls" [] ["PATH=/usr/bin"; "HOME=/root"] [("PATH", "/bin")] in
  Noop.Exec (Noop.mkInstance "noop-1") ["PATH=/usr/bin"; "HOME=/root"] "/bin/ls" [] [("PATH", "/bin")] = Ok c ∧
  env_value (cmd_Env c) "PATH" = Some "/bin"%string.
Proof.
  intros env c. split; [reflexivity|].
  rewrite (sandbox_environment (Noop.mkInstance "noop-1") ["PATH=/usr/bin"; "HOME=/root"] "/bin/ls" [] env [("PATH", "/bin")] c "PATH");
    [reflexivity|reflexivity|reflexivity|by apply (bool_decide_unpack _)|].
  intros k v [<- _]%lookup_singleton_Some. by apply (bool_decide_unpack _).
Defined.
