(* ===== verification/Cgroup.v ===== *)
(** * Control groups: internal/cgroup

    A cgroup directory as the control files written into it.  What a failing
    system call answers is an argument; a reader of cpu.max and memory.max as
    the kernel documents their format says what a written limit means. *)

From S2P Require Import Prelude Text Config Collectors.

Definition DefaultMountPoint : string := "/sys/fs/cgroup".

Inductive cgroup_err := ErrUnsupportedPlatform | ErrCgroupV2Unavailable | ErrPermission | ErrOther.
(** How a system call fails. *)
Inductive sys_err := SysNotExist | SysPermission | SysExist | SysOther.

Record CPUMax := mkCPUMax { cm_Quota : Z; cm_Period : Z }.
Record Group := mkGroup { g_Path : string }.

(** The directories that exist and the contents of the control files. *)
Record cg_fs := mkCgFs { cg_dirs : gset string; cg_files : gmap string string }.

(** ** Linux: cgroup_linux.go *)

(** [mount], [parent_err], [mkdir]: the errors of the two stats and of mkdir. *)
Definition New (mount parent_err mkdir : option sys_err) (parent name : string) (fs : cg_fs) : cg_fs * result cgroup_err Group :=
  match mount with
  | Some SysNotExist => (fs, Err ErrCgroupV2Unavailable)
  | Some _ => (fs, Err ErrOther)
  | None =>
      match parent_err with
      | Some SysNotExist => (fs, Err ErrCgroupV2Unavailable)
      | Some _ => (fs, Err ErrOther)
      | None =>
          let path := path_join [parent; name] in
          match mkdir with
          | Some SysPermission => (fs, Err ErrPermission)
          | Some SysExist => (fs, Ok (mkGroup path))
          | Some _ => (fs, Err ErrOther)
          | None => (mkCgFs ({[path]} ∪ cg_dirs fs) (cg_files fs), Ok (mkGroup path))
          end
      end
  end.

Definition write (g : Group) (file content : string) (fail : option sys_err) (fs : cg_fs) : cg_fs * option cgroup_err :=
  match fail with
  | Some SysPermission => (fs, Some ErrPermission)
  | Some _ => (fs, Some ErrOther)
  | None => (mkCgFs (cg_dirs fs) (<[path_join [g_Path g; file] := content]> (cg_files fs)), None)
  end.

Definition AddPID (g : Group) (pid : Z) := write g "cgroup.procs" (pretty pid).

Definition cpu_max_line (m : CPUMax) : string :=
  let period := if cm_Period m <=? 0 then 100000 else cm_Period m in
  if cm_Quota m <=? 0 then "max " +:+ pretty period else pretty (cm_Quota m) +:+ " " +:+ pretty period.
Definition SetCPUMax (g : Group) (m : CPUMax) := write g "cpu.max" (cpu_max_line m).

Definition memory_max_line (m : Z) : string := if m =? 0 then "max" else pretty m.
Definition SetMemoryMax (g : Group) (m : Z) := write g "memory.max" (memory_max_line m).

Definition SetIOWeight (g : Group) (w : Z) := write g "io.weight" (pretty w).

Definition Remove (g : Group) (fail : option sys_err) (fs : cg_fs) : cg_fs * option cgroup_err :=
  match fail with
  | Some SysPermission => (fs, Some ErrPermission)
  | Some _ => (fs, Some ErrOther)
  | None => (mkCgFs (cg_dirs fs ∖ {[g_Path g]}) (cg_files fs), None)
  end.

(** ** Other systems: cgroup_other.go *)

Definition New_other (parent name : string) (fs : cg_fs) : cg_fs * result cgroup_err Group := (fs, Err ErrUnsupportedPlatform).
(** Every method. *)
Definition method_other (g : Group) (fs : cg_fs) : cg_fs * option cgroup_err := (fs, Some ErrUnsupportedPlatform).

(** ** What the kernel reads *)

(** A limit in a control file: [max] or a number. *)
Definition read_limit (l : list ascii) : option (option Z) :=
  if decide (l = chars "max") then Some None
  else let '(v, ok) := parse_uint l in if ok then Some (Some v) else None.
(** cpu.max: the limit, a space and the period. *)
Definition read_cpu_max (line : string) : option (option Z * Z) :=
  match split_on " "%char (chars line) with
  | [q; p] => match read_limit q, parse_uint p with Some lim, (v, true) => Some (lim, v) | _, _ => None end
  | _ => None
  end.

Lemma split_on_none c l : c ∉ l → split_on c l = [l].
Proof.
  induction l as [|x l IH]; [done|]. intros [Hx Hl]%not_elem_of_cons. simpl. rewrite IH by done.
  by apply not_eq_sym, Ascii.eqb_neq in Hx as ->.
Qed.
Lemma split_on_app c l k : c ∉ l → split_on c (l ++ c :: k) = l :: split_on c k.
Proof.
  induction l as [|x l IH]; simpl; [by rewrite Ascii.eqb_refl|]. intros [Hx Hl]%not_elem_of_cons. rewrite IH by done.
  by apply not_eq_sym, Ascii.eqb_neq in Hx as ->.
Qed.

Lemma pretty_no_space (n : Z) : 0 < n → " "%char ∉ chars (pretty n).
Proof. intros H. rewrite pretty_Z_pos by done. by apply pretty_N_no_char. Qed.
Lemma parse_pretty (n : Z) : 0 < n < 2 ^ 64 → parse_uint (chars (pretty n)) = (n, true).
Proof. intros H. rewrite pretty_Z_pos by lia. rewrite parse_uint_pretty by lia. by rewrite Z2N.id by lia. Qed.
Lemma read_limit_pretty (n : Z) : 0 < n < 2 ^ 64 → read_limit (chars (pretty n)) = Some (Some n).
Proof.
  intros H. unfold read_limit. rewrite decide_False; [by rewrite parse_pretty|].
  intros E. pose proof (parse_pretty n H) as Hp. by rewrite E in Hp.
Qed.

(** The limits a group is given are the ones the kernel reads: quota and
    period of cpu.max, no quota for zero or a negative one, the default period
    for none; and the bytes of memory.max, no limit for zero.  A failing write
    changes nothing and tells a missing permission apart. *)
Theorem cgroup_limits_read_back g m b fail fs
    (Hq : cm_Quota m < 2 ^ 63) (Hp : cm_Period m < 2 ^ 63) (Hb : 0 ≤ b < 2 ^ 64) :
  match SetCPUMax g m fail fs, SetMemoryMax g b fail fs with
  | (fs1, None), (fs2, None) =>
      fail = None ∧
      (cg_files fs1 !! path_join [g_Path g; "cpu.max"]) ≫= read_cpu_max =
        Some (if cm_Quota m <=? 0 then None else Some (cm_Quota m), if cm_Period m <=? 0 then 100000 else cm_Period m) ∧
      (cg_files fs2 !! path_join [g_Path g; "memory.max"]) ≫= (λ s, read_limit (chars s)) =
        Some (if b =? 0 then None else Some b)
  | (fs1, e1), (fs2, e2) => fs1 = fs ∧ fs2 = fs ∧ e1 = e2 ∧ (e1 = Some ErrPermission ↔ fail = Some SysPermission)
  end.
Proof.
  unfold SetCPUMax, SetMemoryMax, write. destruct fail as [[]|]; try (split_and!; naive_solver).
  cbn [cg_files]. rewrite !lookup_insert_eq. cbn [mbind option_bind]. split; [done|]. split.
  - unfold cpu_max_line, read_cpu_max. set (period := if cm_Period m <=? 0 then 100000 else cm_Period m).
    assert (0 < period < 2 ^ 64) as Hper by (unfold period; destruct (Z.leb_spec (cm_Period m) 0); lia).
    destruct (Z.leb_spec (cm_Quota m) 0) as [Hz|Hz]; rewrite !chars_app.
    + change (chars "max ") with (chars "max" ++ [" "%char]). rewrite <- app_assoc. cbn [app].
      rewrite (split_on_app " " (chars "max")) by (by apply (bool_decide_unpack _)).
      rewrite split_on_none by (apply pretty_no_space; lia). by rewrite parse_pretty.
    + change (chars " ") with [" "%char]. cbn [app]. rewrite split_on_app by (by apply pretty_no_space).
      rewrite split_on_none by (apply pretty_no_space; lia). by rewrite read_limit_pretty, parse_pretty by lia.
  - unfold memory_max_line. destruct (Z.eqb_spec b 0); [done|]. apply read_limit_pretty. lia.
Qed.

Lemma cgroup_limits_read_back_witness :
  (cg_files (SetCPUMax (mkGroup "/sys/fs/cgroup/p") (mkCPUMax 50000 0) None (mkCgFs ∅ ∅)).1 !! "/sys/fs/cgroup/p/cpu.max") ≫= read_cpu_max =
  Some (Some 50000, 100000).
Proof.
  pose proof (cgroup_limits_read_back (mkGroup "/sys/fs/cgroup/p") (mkCPUMax 50000 0) 0 None (mkCgFs ∅ ∅)
    ltac:(simpl; lia) ltac:(simpl; lia) ltac:(lia)) as (_ & H & _). exact H.
Defined.
