(* ===== verification/Platform.v ===== *)
(** * Platforms: internal/platform, and the stubs of a Windows build

    The helper of internal/platform over the operating system's answers, and
    what replaces the spawner and the pseudo-terminal in a build for Windows,
    internal/supervise/spawner_windows.go and
    internal/agent/runner_pty_windows.go. *)

From S2P Require Import Prelude.

(** The operating system: the search of an executable, opening a process by
    its number, and a signal to an open process. *)
Record os_calls (proc err sig : Type) := mkOsCalls {
  os_LookPath : string → result err string;
  os_FindProcess : Z → result err proc;
  os_Signal : proc → sig → option err;
  os_Kill_signal : sig }.
Arguments os_LookPath {_ _ _}. Arguments os_FindProcess {_ _ _}.
Arguments os_Signal {_ _ _}. Arguments os_Kill_signal {_ _ _}.

(** The interface every operating system implements. *)
Class Platform (err sig : Type) := mkPlatform {
  FindExecutable : string → result err string;
  SendSignal : Z → sig → option err;
  Kill : Z → option err }.

Section Base.
Context {proc err sig : Type} (os : os_calls proc err sig).

Definition base_FindExecutable (cmd : string) : result err string := os_LookPath os cmd.
Definition base_SendSignal (pid : Z) (s : sig) : option err :=
  match os_FindProcess os pid with
  | Err e => Some e
  | Ok p => os_Signal os p s
  end.
Definition base_Kill (pid : Z) : option err := base_SendSignal pid (os_Kill_signal os).

(** [basePlatform], which is [defaultImpl] on linux, darwin and windows. *)
Definition basePlatform : Platform err sig := {|
  FindExecutable := base_FindExecutable; SendSignal := base_SendSignal; Kill := base_Kill |}.
Definition Default : Platform err sig := basePlatform.

(** [Kill] succeeds exactly when the process opens and takes the kill signal. *)
Lemma platform_kill_succeeds pid :
  Kill (Platform := Default) pid = None ↔
  ∃ p, os_FindProcess os pid = Ok p ∧ os_Signal os p (os_Kill_signal os) = None.
Proof. simpl. unfold base_Kill, base_SendSignal. destruct (os_FindProcess os pid); naive_solver. Qed.
End Base.

(** ** The stubs of a Windows build *)

Inductive win_err := ErrUnsupportedOnWindows | ErrPTYUnsupportedOnWindows.

Definition win_Spawn (agentID : string) : result win_err () := Err ErrUnsupportedOnWindows.
(** [AgentHandle.Close]. *)
Definition win_handle_Close : option win_err := None.

Record win_ptyProc := mkPtyProc { win_onData : bool }.
Definition win_spawnPTY : result win_err win_ptyProc := Err ErrPTYUnsupportedOnWindows.
Definition win_setWinsize (cols rows : Z) : option win_err := Some ErrPTYUnsupportedOnWindows.
Definition win_Resize (p : win_ptyProc) (cols rows : Z) : option win_err := Some ErrPTYUnsupportedOnWindows.
Definition win_Winsize (p : win_ptyProc) : (Z * Z) * option win_err := ((0, 0), Some ErrPTYUnsupportedOnWindows).
Definition win_OnData (p : win_ptyProc) (cb : bool) : win_ptyProc := mkPtyProc cb.
Definition win_Close (p : win_ptyProc) : option win_err := Some ErrPTYUnsupportedOnWindows.
Definition win_WriteInput (p : win_ptyProc) (b : bytes) : option win_err := Some ErrPTYUnsupportedOnWindows.
Definition win_Signal (p : win_ptyProc) (sig : Z) : option win_err := Some ErrPTYUnsupportedOnWindows.
Definition win_startReadPump (p : win_ptyProc) : win_ptyProc := p.
