(* ===== verification/Mgmt.v ===== *)
(** * The management socket: internal/mgmt/proto.go, server.go, client.go

    The protocol between the command line tool and a running manager: requests
    and answers in the frames of the ipc layer, two requests that turn the
    connection into a stream, the synchronous client, and the life of the
    server.  The manager is known to the server only through the interface
    [ManagerAPI]; a handler's loop is given by its iterations, between which
    the manager and the other connections move. *)

From S2P Require Import Prelude Text Frame Message CwTypes EventBus.

(** ** Protocol: proto.go *)

Definition MsgListRequest : Z := 0xA0.
Definition MsgListResponse : Z := 0xA1.
Definition MsgStatusRequest : Z := 0xA2.
Definition MsgStatusResponse : Z := 0xA3.
Definition MsgLogsRequest : Z := 0xA4.
Definition MsgLogsStream : Z := 0xA5.
Definition MsgEventsSubscribe : Z := 0xA6.
Definition MsgEventsStream : Z := 0xA7.
Definition MsgStartRequest : Z := 0xA8.
Definition MsgStopRequest : Z := 0xA9.

Record ListEntry := mkListEntry {
  ent_ID : string; ent_Name : string; ent_State : string; ent_ChildPID : Z; ent_RSS : Z }.
Record ListResponsePayload := mkListResponse { lr_Entries : list ListEntry }.
Record StatusRequestPayload := mkStatusRequest { srq_ID : string }.
Record StatusResponsePayload := mkStatusResponse { sr_Entry : ListEntry; sr_Err : string }.
Record StartRequestPayload := mkStartRequest { start_ID : string }.
Record StopRequestPayload := mkStopRequest { stop_ID : string }.
Record LogsRequestPayload := mkLogsRequest {
  lq_ID : string; lq_Stream : Z; lq_Follow : bool; lq_SinceUnixNano : Z; lq_Lines : Z }.
Record LogsStreamPayload := mkLogsStream {
  ls_ID : string; ls_Stream : Z; ls_Data : bytes; ls_EOF : bool }.
Record EventsSubscribePayload := mkEventsSubscribe { es_ProcessIDs : list string; es_Types : list string }.
Record EventsStreamPayload := mkEventsStream {
  ev_ProcessID : string; ev_Type : string; ev_Timestamp : Z; ev_Summary : string }.

#[global] Instance zero_ListEntry : Zero ListEntry := mkListEntry "" "" "" 0 0.
#[global] Instance zero_ListResponse : Zero ListResponsePayload := mkListResponse [].
#[global] Instance zero_StatusRequest : Zero StatusRequestPayload := mkStatusRequest "".
#[global] Instance zero_StatusResponse : Zero StatusResponsePayload := mkStatusResponse zero "".
#[global] Instance zero_StopRequest : Zero StopRequestPayload := mkStopRequest "".
#[global] Instance zero_LogsRequest : Zero LogsRequestPayload := mkLogsRequest "" 0 false 0 0.
#[global] Instance zero_LogsStream : Zero LogsStreamPayload := mkLogsStream "" 0 [] false.
#[global] Instance zero_EventsSubscribe : Zero EventsSubscribePayload := mkEventsSubscribe [] [].
#[global] Instance zero_EventsStream : Zero EventsStreamPayload := mkEventsStream "" "" 0 "".

(** ** The manager's interface *)

(** What a receive on a channel finds. *)
Inductive chan_read (A : Type) := ChanGot (a : A) | ChanClosed | ChanEmpty.
Arguments ChanGot {A}.
Arguments ChanClosed {A}.
Arguments ChanEmpty {A}.

(** [E] is what scheduling, waits and the iteration order of maps decide of
    one call; [api_Stop] gives the text of its error. *)
Class ManagerAPI (M E : Type) := {
  api_List : E → M → list ListEntry;
  api_StatusOf : M → string → result string ListEntry;
  api_Stop : E → M → string → M * option string;
  api_LogsSnapshot : M → string → Z → M * bytes;
  api_LogsSnapshotFiltered : M → string → Z → Z → Z → M * bytes;
  api_WatchLogs : M → string → M * nat;
  api_watch_recv : M → nat → M * chan_read LogChunk;
  api_unregister : M → nat → M;
  api_Subscribe : M → Filter → M * nat;
  api_sub_recv : M → nat → M * chan_read Event;
  api_sub_close : M → nat → M
}.

(** ** The server: server.go *)

Definition hex_digit (n : Z) : ascii := ascii_of_N (Z.to_N (if n <? 10 then 48 + n else 87 + n)).
(** [%02x] of a byte. *)
Definition hex2 (n : Z) : string := of_chars [hex_digit (n / 16); hex_digit (n mod 16)].

Definition summarizeEvent (e : Event) : string := (EventType e ++ " " ++ ProcessID e)%string.

(** The answers of [handleRequest], which returns one of two payload types. *)
Inductive resp_payload := RespList (p : ListResponsePayload) | RespStatus (p : StatusResponsePayload).

(** What the handler of a connection is doing: [FollowBegin] between the
    snapshot and the registration of a follow request. *)
Inductive conn_mode :=
| ServeRequests
| FollowBegin (req : LogsRequestPayload)
| FollowLogs (req : LogsRequestPayload) (ch : nat)
| StreamEvents (sub : nat)
| ConnDone.

Record server_conn := mkSC { sc_reader : FrameReader; sc_writer : Writer; sc_mode : conn_mode }.

Section Server.
Context {M E : Type} `{!ManagerAPI M E}.
Context `{!Codec ListResponsePayload, !Codec StatusRequestPayload, !Codec StatusResponsePayload,
          !Codec StopRequestPayload, !Codec LogsRequestPayload, !Codec LogsStreamPayload,
          !Codec EventsSubscribePayload, !Codec EventsStreamPayload}.

Definition encode_resp (r : resp_payload) : result codec_err bytes :=
  match r with RespList p => EncodePayload p | RespStatus p => EncodePayload p end.

(** [var req T; _ = DecodePayload(body, &req)]. *)
Definition decode_ignore {A} `{!Codec A, !Zero A} (body : bytes) : A :=
  default zero (DecodePayload body (Some zero)).1.

Definition snapshotForRequest (m : M) (req : LogsRequestPayload) : M * bytes :=
  if (lq_SinceUnixNano req =? 0) && (lq_Lines req =? 0)
  then api_LogsSnapshot m (lq_ID req) (lq_Stream req)
  else api_LogsSnapshotFiltered m (lq_ID req) (lq_Stream req) (lq_SinceUnixNano req) (lq_Lines req).

(** A header with the length of [data] and its frame. *)
Definition write_data (w : Writer) (t seq : Z) (data : bytes) : Writer * option frame_err :=
  let '(w', _, err) := WriteFrame w (mkHeader t 0 seq (u32 (Z.of_nat (length data)))) data in (w', err).

(** [true]: an error was returned. *)
Definition writeLogsStreamFrame (w : Writer) (p : LogsStreamPayload) : Writer * bool :=
  match EncodePayload p with
  | Err _ => (w, true)
  | Ok data => let '(w', err) := write_data w MsgLogsStream 0 data in
               (w', match err with Some _ => true | None => false end)
  end.

Definition handleRequest (e : E) (m : M) (h : Header) (body : bytes) : M * resp_payload * Z :=
  if h_MsgType h =? MsgListRequest then
    (m, RespList (mkListResponse (api_List e m)), MsgListResponse)
  else if h_MsgType h =? MsgStatusRequest then
    let req := decode_ignore (A := StatusRequestPayload) body in
    (m, RespStatus match api_StatusOf m (srq_ID req) with
                   | Ok entry => mkStatusResponse entry ""
                   | Err msg => mkStatusResponse zero msg
                   end, MsgStatusResponse)
  else if h_MsgType h =? MsgStopRequest then
    let req := decode_ignore (A := StopRequestPayload) body in
    let '(m', err) := api_Stop e m (stop_ID req) in
    (m', RespStatus (mkStatusResponse zero (default "" err)), MsgStatusResponse)
  else
    (m, RespStatus (mkStatusResponse zero ("unknown request type 0x" ++ hex2 (h_MsgType h))), MsgStatusResponse).

(** The part of [handleLogsFollow] before the watcher is registered; the mode
    the handler is left in. *)
Definition follow_begin (m : M) (w : Writer) (req : LogsRequestPayload) : M * Writer * conn_mode :=
  if 1 <? lq_Stream req then
    let text := ("cliwrap: invalid stream id " ++ pretty (lq_Stream req) ++ " (want 0 or 1)" ++ String "010" "")%string in
    let '(w', _) := writeLogsStreamFrame w
      (mkLogsStream (lq_ID req) (lq_Stream req) (byte_of_ascii <$> chars text) true) in
    (m, w', ConnDone)
  else
    let '(m', snap) := snapshotForRequest m req in
    let '(w', failed) := writeLogsStreamFrame w (mkLogsStream (lq_ID req) (lq_Stream req) snap false) in
    (m', w', if failed then ConnDone else FollowBegin req).

(** [handleEventsStream] up to its loop. *)
Definition events_begin (m : M) (body : bytes) : M * conn_mode :=
  let req := decode_ignore (A := EventsSubscribePayload) body in
  let '(m', sub) := api_Subscribe m (mkFilter (es_Types req) (es_ProcessIDs req)) in
  (m', StreamEvents sub).

(** What the loop of [handleConn] does with one frame. *)
Definition handle_frame (e : E) (m : M) (w : Writer) (h : Header) (body : bytes) : M * Writer * conn_mode :=
  if h_MsgType h =? MsgEventsSubscribe then
    let '(m', mode) := events_begin m body in (m', w, mode)
  else match (if h_MsgType h =? MsgLogsRequest then decode_ok (A := LogsRequestPayload) body else None) with
  | Some req =>
      if lq_Follow req then follow_begin m w req
      else
        let '(m', snap) := snapshotForRequest m req in
        let '(w', failed) := writeLogsStreamFrame w (mkLogsStream (lq_ID req) (lq_Stream req) snap true) in
        (m', w', if failed then ConnDone else ServeRequests)
  | None =>
      let '(m', resp, respType) := handleRequest e m h body in
      match encode_resp resp with
      | Err _ => (m', w, ConnDone)
      | Ok data =>
          let '(w', err) := write_data w respType (h_SeqNo h) data in
          (m', w', match err with Some _ => ConnDone | None => ServeRequests end)
      end
  end.

Definition events_payload (ev : Event) : EventsStreamPayload :=
  mkEventsStream (ProcessID ev) (EventType ev) (Timestamp ev) (summarizeEvent ev).

(** The range over the watcher's channel in [handleLogsFollow]. *)
Definition follow_turn (m : M) (c : server_conn) (req : LogsRequestPayload) (ch : nat) : M * server_conn :=
  match api_watch_recv m ch with
  | (m', ChanGot chunk) =>
      if negb (chunk_Stream chunk =? lq_Stream req) then (m', c)
      else
        let '(w, failed) := writeLogsStreamFrame (sc_writer c)
          (mkLogsStream (lq_ID req) (chunk_Stream chunk) (chunk_Data chunk) false) in
        if failed then (api_unregister m' ch, mkSC (sc_reader c) w ConnDone)
        else (m', mkSC (sc_reader c) w (sc_mode c))
  | (m', ChanClosed) => (api_unregister m' ch, mkSC (sc_reader c) (sc_writer c) ConnDone)
  | (m', ChanEmpty) => (m', c)
  end.

(** The range over the subscription in [handleEventsStream]. *)
Definition events_turn (m : M) (c : server_conn) (sub : nat) : M * server_conn :=
  match api_sub_recv m sub with
  | (m', ChanGot ev) =>
      match EncodePayload (events_payload ev) with
      | Err _ => (m', c)
      | Ok data =>
          let '(w, err) := write_data (sc_writer c) MsgEventsStream 0 data in
          match err with
          | Some _ => (api_sub_close m' sub, mkSC (sc_reader c) w ConnDone)
          | None => (m', mkSC (sc_reader c) w (sc_mode c))
          end
      end
  | (m', ChanClosed) => (api_sub_close m' sub, mkSC (sc_reader c) (sc_writer c) ConnDone)
  | (m', ChanEmpty) => (m', c)
  end.

(** One iteration of the loop a connection's handler is in. *)
Definition conn_step (e : E) (m : M) (c : server_conn) : M * server_conn :=
  match sc_mode c with
  | ConnDone => (m, c)
  | ServeRequests =>
      let '(fr, h, body, err) := ReadFrame (sc_reader c) in
      match err with
      | Some _ => (m, mkSC fr (sc_writer c) ConnDone)
      | None => let '(m', w, mode) := handle_frame e m (sc_writer c) h body in (m', mkSC fr w mode)
      end
  | FollowBegin req =>
      let '(m', ch) := api_WatchLogs m (lq_ID req) in
      (m', mkSC (sc_reader c) (sc_writer c) (FollowLogs req ch))
  | FollowLogs req ch => follow_turn m c req ch
  | StreamEvents sub => events_turn m c sub
  end.

(** [handleConn] on a new connection. *)
Definition new_conn (r : Reader) (w : Writer) : server_conn :=
  mkSC (NewFrameReader r MaxPayloadSize) w ServeRequests.

(** ** The client: client.go *)

Record Client := mkClient { cl_r : FrameReader; cl_w : Writer; cl_seq : Z }.

Definition Dial (r : Reader) (w : Writer) : Client := mkClient (NewFrameReader r MaxPayloadSize) w 0.

Inductive client_err := ClientEncode (e : codec_err) | ClientFrame (e : frame_err).

Definition Stream {A} `{!Codec A} (t : Z) (payload : option A) (c : Client) : Client * option client_err :=
  let seq := u64 (cl_seq c + 1) in
  match match payload with None => Ok [] | Some p => EncodePayload p end with
  | Err e => (mkClient (cl_r c) (cl_w c) seq, Some (ClientEncode e))
  | Ok data =>
      let '(w, err) := write_data (cl_w c) t seq data in
      (mkClient (cl_r c) w seq, ClientFrame <$> err)
  end.

Definition Client_ReadFrame (c : Client) : Client * result client_err (Header * bytes) :=
  let '(fr, h, body, err) := ReadFrame (cl_r c) in
  (mkClient fr (cl_w c) (cl_seq c),
   match err with Some e => Err (ClientFrame e) | None => Ok (h, body) end).

End Server.

(** ** A client and its handler *)

Section Session.
Context {M E : Type} `{!ManagerAPI M E}.
Context `{!Codec ListResponsePayload, !Codec StatusRequestPayload, !Codec StatusResponsePayload,
          !Codec StopRequestPayload, !Codec LogsRequestPayload, !Codec LogsStreamPayload,
          !Codec EventsSubscribePayload, !Codec EventsStreamPayload}.

Record session := mkSession { ss_mgr : M; ss_client : Client; ss_server : server_conn }.

(** The bytes one side wrote arrive at the other. *)
Definition arrive (bs : bytes) (fr : FrameReader) : FrameReader :=
  mkFrameReader (mkReader (r_chunks (fr_r fr) ++ [bs]) (r_end (fr_r fr))) (fr_cap fr).
Definition drain (w : Writer) : Writer := mkWriter [] (w_room w).

Definition to_server (s : session) : session :=
  let c := ss_client s in let sc := ss_server s in
  mkSession (ss_mgr s) (mkClient (cl_r c) (drain (cl_w c)) (cl_seq c))
    (mkSC (arrive (w_out (cl_w c)) (sc_reader sc)) (sc_writer sc) (sc_mode sc)).
Definition to_client (s : session) : session :=
  let c := ss_client s in let sc := ss_server s in
  mkSession (ss_mgr s) (mkClient (arrive (w_out (sc_writer sc)) (cl_r c)) (cl_w c) (cl_seq c))
    (mkSC (sc_reader sc) (drain (sc_writer sc)) (sc_mode sc)).

(** [Call]: the request goes out, the handler runs once, the answer comes
    back. *)
Definition Call {A} `{!Codec A} (e : E) (t : Z) (payload : option A) (s : session)
    : session * result client_err (Header * bytes) :=
  match Stream t payload (ss_client s) with
  | (c, Some err) => (mkSession (ss_mgr s) c (ss_server s), Err err)
  | (c, None) =>
      let s1 := to_server (mkSession (ss_mgr s) c (ss_server s)) in
      let '(m, sc) := conn_step e (ss_mgr s1) (ss_server s1) in
      let s2 := to_client (mkSession m (ss_client s1) sc) in
      let '(c', r) := Client_ReadFrame (ss_client s2) in
      (mkSession (ss_mgr s2) c' (ss_server s2), r)
  end.

(** ** The management API as remote calls *)

Inductive request :=
| ReqList | ReqStatus (id : string) | ReqStop (id : string)
| ReqLogs (id : string) (stream since lines : Z).
Inductive response :=
| RespEntries (es : list ListEntry) | RespOne (p : StatusResponsePayload) | RespLog (p : LogsStreamPayload).

(** The abstract specification: the effect on the manager and the answer. *)
Definition api_spec (e : E) (m : M) (q : request) : M * response :=
  match q with
  | ReqList => (m, RespEntries (api_List e m))
  | ReqStatus id =>
      (m, RespOne match api_StatusOf m id with Ok en => mkStatusResponse en "" | Err t => mkStatusResponse zero t end)
  | ReqStop id => let '(m', err) := api_Stop e m id in (m', RespOne (mkStatusResponse zero (default "" err)))
  | ReqLogs id st since lines =>
      let '(m', bs) := if (since =? 0) && (lines =? 0) then api_LogsSnapshot m id st
                       else api_LogsSnapshotFiltered m id st since lines in
      (m', RespLog (mkLogsStream id st bs true))
  end.

(** A call and the decoding of its answer, as the commands of the command
    line tool make them. *)
Definition decoded {A} `{!Codec A, !Zero A} (k : A → response) (r : result client_err (Header * bytes)) : option response :=
  match r with Ok (_, body) => k <$> decode_ok body | Err _ => None end.

Definition do_request (e : E) (s : session) (q : request) : session * option response :=
  match q with
  | ReqList => let '(s', r) := Call (A := StatusRequestPayload) e MsgListRequest None s in
               (s', decoded (λ p, RespEntries (lr_Entries p)) r)
  | ReqStatus id => let '(s', r) := Call e MsgStatusRequest (Some (mkStatusRequest id)) s in (s', decoded RespOne r)
  | ReqStop id => let '(s', r) := Call e MsgStopRequest (Some (mkStopRequest id)) s in (s', decoded RespOne r)
  | ReqLogs id st since lines =>
      let '(s', r) := Call e MsgLogsRequest (Some (mkLogsRequest id st false since lines)) s in
      (s', decoded RespLog r)
  end.

Fixpoint do_requests (s : session) (qs : list (E * request)) : session * list (option response) :=
  match qs with
  | [] => (s, [])
  | (e, q) :: qs' =>
      let '(s1, r) := do_request e s q in
      let '(s2, rs) := do_requests s1 qs' in (s2, r :: rs)
  end.
Fixpoint api_specs (m : M) (qs : list (E * request)) : M * list response :=
  match qs with
  | [] => (m, [])
  | (e, q) :: qs' =>
      let '(m1, r) := api_spec e m q in
      let '(m2, rs) := api_specs m1 qs' in (m2, r :: rs)
  end.

(** Between two calls: nothing is under way in either direction. *)
Record ready (s : session) : Prop := mkReady {
  rd_mode : sc_mode (ss_server s) = ServeRequests;
  rd_sin : r_bytes (fr_r (sc_reader (ss_server s))) = [] ∧ fr_cap (sc_reader (ss_server s)) = MaxPayloadSize;
  rd_cin : r_bytes (fr_r (cl_r (ss_client s))) = [] ∧ fr_cap (cl_r (ss_client s)) = MaxPayloadSize;
  rd_out : sc_writer (ss_server s) = mkWriter [] None ∧ cl_w (ss_client s) = mkWriter [] None }.

Definition frame_of (t seq : Z) (data : bytes) : OutboxMessage :=
  mkMsg (mkHeader t 0 seq (Z.of_nat (length data))) data.

Lemma frame_of_ok t seq data :
  in_u 8 t → in_u 64 seq → Z.of_nat (length data) ≤ MaxPayloadSize → msg_ok (frame_of t seq data).
Proof.
  intros Ht Hs Hl. unfold MaxPayloadSize in Hl.
  split; [|done]. repeat split; simpl; try apply Ht; try apply Hs; lia.
Qed.

Lemma write_data_ok out t seq data :
  in_u 8 t → in_u 64 seq → Z.of_nat (length data) ≤ MaxPayloadSize →
  write_data (mkWriter out None) t seq data =
    (mkWriter (out ++ frame_bytes (frame_of t seq data)) None, None).
Proof.
  intros Ht Hs Hl. unfold write_data. assert (u32 (Z.of_nat (length data)) = Z.of_nat (length data)) as ->.
  { apply wrap_u_small. unfold MaxPayloadSize in Hl. split; lia. }
  pose proof (WriteFrame_ok out _ (frame_of_ok t seq data Ht Hs Hl)) as Hw. simpl in Hw. by rewrite Hw.
Qed.

Lemma r_bytes_arrive bs fr : r_bytes (fr_r (arrive bs fr)) = r_bytes (fr_r fr) ++ bs.
Proof. unfold r_bytes; simpl. rewrite concat_app. simpl. by rewrite app_nil_r. Qed.

Lemma u64_in z : in_u 64 (u64 z).
Proof. apply wrap_u_range. lia. Qed.

Lemma decode_ignore_marshal {A} `{!Codec A, !Zero A} (ok : A → Prop) `{!CodecLaws A ok} v bs :
  ok v → Marshal v = Ok bs → decode_ignore bs = v.
Proof. intros Hv Hm. unfold decode_ignore, DecodePayload. by rewrite (unmarshal_marshal v bs Hv Hm). Qed.

(** One exchange, given what the handler does with the request's frame. *)
Lemma Call_exchange {A} `{!Codec A} e t (payload : option A) s data rt rseq rdata m' :
  ready s → in_u 8 t → match payload with None => Ok [] | Some p => EncodePayload p end = Ok data →
  Z.of_nat (length data) ≤ MaxPayloadSize →
  (let seq := u64 (cl_seq (ss_client s) + 1) in
   handle_frame e (ss_mgr s) (mkWriter [] None) (m_Header (frame_of t seq data)) data =
     (m', mkWriter (frame_bytes (frame_of rt rseq rdata)) None, ServeRequests)) →
  in_u 8 rt → in_u 64 rseq → Z.of_nat (length rdata) ≤ MaxPayloadSize →
  ∃ s', Call e t payload s = (s', Ok (m_Header (frame_of rt rseq rdata), rdata)) ∧
    ready s' ∧ ss_mgr s' = m' ∧ cl_seq (ss_client s') = u64 (cl_seq (ss_client s) + 1).
Proof.
  intros [Hmode [Hsi Hsc] [Hci Hcc] [Hso Hco]] Ht Henc Hlen Hh Hrt Hrs Hrl. unfold Call, Stream.
  rewrite Henc, Hco, write_data_ok by (done || apply u64_in). cbn [fmap option_fmap option_map app].
  unfold to_server. cbn [ss_client ss_mgr ss_server cl_r cl_w cl_seq w_out w_room drain].
  unfold conn_step, follow_turn, events_turn. cbn [sc_mode sc_reader sc_writer ss_server]. rewrite Hmode.
  set (q := frame_of t _ data) in *.
  destruct (ReadFrame_frame (arrive (frame_bytes q) (sc_reader (ss_server s))) q [])
    as (fr & -> & Hb & _ & Hc).
  { apply frame_of_ok; try done. apply u64_in. }
  { cbn [arrive fr_cap]. by rewrite Hsc. }
  { rewrite r_bytes_arrive, Hsi. by rewrite app_nil_r. }
  rewrite Hso. simpl in Hh |- *. rewrite Hh. unfold to_client. cbn [ss_client ss_mgr ss_server sc_writer w_out].
  unfold Client_ReadFrame. cbn [cl_r].
  destruct (ReadFrame_frame (arrive (frame_bytes (frame_of rt rseq rdata)) (cl_r (ss_client s)))
    (frame_of rt rseq rdata) []) as (fr' & -> & Hb' & _ & Hc').
  { by apply frame_of_ok. }
  { cbn [arrive fr_cap]. by rewrite Hcc. }
  { rewrite r_bytes_arrive, Hci. by rewrite app_nil_r. }
  eexists. split; [done|]. split; [|done]. split; simpl; try done.
  - split; [done|]. by rewrite Hc.
  - split; [done|]. by rewrite Hc'.
Qed.

Context (okL : ListResponsePayload → Prop) (okSQ : StatusRequestPayload → Prop) (okS : StatusResponsePayload → Prop)
        (okP : StopRequestPayload → Prop) (okLQ : LogsRequestPayload → Prop) (okLS : LogsStreamPayload → Prop).
Context `{!CodecLaws ListResponsePayload okL, !CodecLaws StatusRequestPayload okSQ,
          !CodecLaws StatusResponsePayload okS, !CodecLaws StopRequestPayload okP,
          !CodecLaws LogsRequestPayload okLQ, !CodecLaws LogsStreamPayload okLS}.

(** A payload the codec can carry in one frame. *)
Definition fits {A} `{!Codec A} (ok : A → Prop) (v : A) : Prop :=
  ok v ∧ ∀ bs, Marshal v = Ok bs → Z.of_nat (length bs) ≤ MaxPayloadSize.
Definition req_fits (q : request) : Prop :=
  match q with
  | ReqList => True
  | ReqStatus id => fits okSQ (mkStatusRequest id)
  | ReqStop id => fits okP (mkStopRequest id)
  | ReqLogs id st since lines => fits okLQ (mkLogsRequest id st false since lines)
  end.
Definition resp_fits (r : response) : Prop :=
  match r with
  | RespEntries es => fits okL (mkListResponse es)
  | RespOne p => fits okS p
  | RespLog p => fits okLS p
  end.

Lemma fits_marshal {A} `{!Codec A, !Zero A} (ok : A → Prop) `{!CodecLaws A ok} v :
  fits ok v → ∃ bs, ok v ∧ EncodePayload v = Ok bs ∧ Z.of_nat (length bs) ≤ MaxPayloadSize.
Proof. intros [Hok Hl]. destruct (marshal_total v Hok) as [bs Hbs]. eauto. Qed.

(** A request that [handleRequest] answers. *)
Lemma handle_frame_request e m t seq data m' resp rt rdata :
  in_u 64 seq → in_u 8 rt → (t =? MsgEventsSubscribe) = false → (t =? MsgLogsRequest) = false →
  handleRequest e m (m_Header (frame_of t seq data)) data = (m', resp, rt) →
  encode_resp resp = Ok rdata → Z.of_nat (length rdata) ≤ MaxPayloadSize →
  handle_frame e m (mkWriter [] None) (m_Header (frame_of t seq data)) data =
    (m', mkWriter (frame_bytes (frame_of rt seq rdata)) None, ServeRequests).
Proof.
  intros Hseq Hrt He Hl Hh Hr Hlen. unfold handle_frame. cbn [m_Header frame_of h_MsgType h_SeqNo] in *.
  rewrite He, Hl, Hh, Hr, write_data_ok by done. done.
Qed.

Lemma do_request_spec e s q :
  ready s → req_fits q → resp_fits (api_spec e (ss_mgr s) q).2 →
  ∃ s', do_request e s q = (s', Some (api_spec e (ss_mgr s) q).2) ∧ ready s' ∧
    ss_mgr s' = (api_spec e (ss_mgr s) q).1 ∧ cl_seq (ss_client s') = u64 (cl_seq (ss_client s) + 1).
Proof.
  intros Hrd Hq Hr. set (seq := u64 (cl_seq (ss_client s) + 1)). pose proof (u64_in (cl_seq (ss_client s) + 1)) as Hseq.
  destruct q as [|id|id|id st since lines]; cbn [req_fits api_spec do_request] in *.
  - destruct (fits_marshal okL _ Hr) as (rb & Hok & Hrb & Hrl).
    destruct (Call_exchange (A := StatusRequestPayload) e MsgListRequest None s [] MsgListResponse seq rb (ss_mgr s))
      as (s' & -> & H'); try done.
    { eapply handle_frame_request; try done. }
    exists s'. cbn [decoded]. rewrite (decode_ok_marshal okL _ rb Hok Hrb). done.
  - destruct (fits_marshal okSQ _ Hq) as (qb & Hokq & Hqb & Hql).
    destruct (fits_marshal okS _ Hr) as (rb & Hok & Hrb & Hrl).
    destruct (Call_exchange e MsgStatusRequest (Some (mkStatusRequest id)) s qb MsgStatusResponse seq rb (ss_mgr s))
      as (s' & -> & H'); try done.
    { eapply handle_frame_request; try done. unfold handleRequest. cbn [m_Header frame_of h_MsgType].
      rewrite (decode_ignore_marshal okSQ _ qb Hokq Hqb). done. }
    exists s'. cbn [decoded]. rewrite (decode_ok_marshal okS _ rb Hok Hrb). done.
  - destruct (fits_marshal okP _ Hq) as (qb & Hokq & Hqb & Hql). destruct (api_Stop e (ss_mgr s) id) as [m' err] eqn:Es.
    destruct (fits_marshal okS _ Hr) as (rb & Hok & Hrb & Hrl).
    destruct (Call_exchange e MsgStopRequest (Some (mkStopRequest id)) s qb MsgStatusResponse seq rb m')
      as (s' & -> & H'); try done.
    { eapply (handle_frame_request _ _ _ _ _ _ (RespStatus (mkStatusResponse zero (default "" err)))); try done.
      unfold handleRequest. cbn [m_Header frame_of h_MsgType].
      rewrite (decode_ignore_marshal okP _ qb Hokq Hqb). cbn [stop_ID]. rewrite Es. done. }
    exists s'. cbn [decoded]. rewrite (decode_ok_marshal okS _ rb Hok Hrb). done.
  - destruct (fits_marshal okLQ _ Hq) as (qb & Hokq & Hqb & Hql).
    destruct (if (since =? 0) && (lines =? 0) then _ else _) as [m' bs] eqn:Es.
    destruct (fits_marshal okLS _ Hr) as (rb & Hok & Hrb & Hrl).
    destruct (Call_exchange e MsgLogsRequest (Some (mkLogsRequest id st false since lines)) s qb MsgLogsStream 0 rb m')
      as (s' & -> & H'); try done.
    { unfold handle_frame. cbn [m_Header frame_of h_MsgType]. change (MsgLogsRequest =? MsgEventsSubscribe) with false.
      rewrite Z.eqb_refl. cbn match. rewrite (decode_ok_marshal okLQ _ qb Hokq Hqb). cbn [lq_Follow].
      unfold snapshotForRequest. cbn [lq_SinceUnixNano lq_Lines lq_ID lq_Stream]. rewrite Es.
      unfold writeLogsStreamFrame. rewrite Hrb, write_data_ok by done. done. }
    exists s'. cbn [decoded]. rewrite (decode_ok_marshal okLS _ rb Hok Hrb). done.
Qed.

(** C7: the management socket implements the management API, as long as what
    is said fits a frame.  On a connection between calls, take any sequence of
    list, status, stop and log requests of which each request is UTF-8 text
    and, as JSON, at most 16 MiB long, and each answer of the manager's own
    methods likewise.  The client then gets exactly those answers, with exactly
    their effects on the manager, in order and each call its own answer, and
    afterwards the connection is between calls again.  An answer that does not
    fit is not delivered: for log requests, the only ones whose answers grow
    with the output of a process, the theorem on log requests says what
    happens instead (the server closes the connection). *)
Theorem management_calls_refine_api (s : session) (qs : list (E * request))
    (Hready : ready s) (Hreq : Forall (λ x, req_fits x.2) qs)
    (Hresp : Forall resp_fits (api_specs (ss_mgr s) qs).2) :
  let '(m', answers) := api_specs (ss_mgr s) qs in
  let '(s', rs) := do_requests s qs in
  rs = Some <$> answers ∧ ss_mgr s' = m' ∧ ready s' ∧
  cl_seq (ss_client s') = foldl (λ n _, u64 (n + 1)) (cl_seq (ss_client s)) qs.
Proof.
  revert s Hready Hresp. induction Hreq as [|[e q] qs Hq Hqs IH]; intros s Hrd Hr; [done|].
  cbn [api_specs do_requests foldl] in *. pose proof (do_request_spec e s q Hrd Hq) as H1.
  destruct (api_spec e (ss_mgr s) q) as [m1 r1]. destruct (api_specs m1 qs) as [m2 rs2] eqn:E2.
  inversion Hr as [|? ? Hr1 Hr2]; subst. destruct (H1 Hr1) as (s1 & -> & Hrd1 & Hm1 & Hc1). simpl in Hm1. subst m1.
  specialize (IH s1 Hrd1). rewrite E2 in IH. specialize (IH Hr2).
  destruct (do_requests s1 qs) as [s2 rs]. rewrite Hc1 in IH. destruct IH as (-> & -> & Hrd2 & Hc2). done.
Qed.

Lemma write_data_oversized w t seq data :
  MaxPayloadSize < Z.of_nat (length data) < 2 ^ 32 → write_data w t seq data = (w, Some ErrFrameTooLarge).
Proof.
  intros Hl. unfold write_data. rewrite (wrap_u_small 32) by (unfold MaxPayloadSize in Hl; split; lia).
  unfold WriteFrame. cbn [h_Length]. by rewrite (proj2 (Z.ltb_lt _ _)) by lia.
Qed.

(** A request the handler ends the connection on, without an answer. *)
Lemma Call_unanswered {A} `{!Codec A} e t (payload : option A) s data m' :
  ready s → r_end (fr_r (cl_r (ss_client s))) = EOF → in_u 8 t →
  match payload with None => Ok [] | Some p => EncodePayload p end = Ok data →
  Z.of_nat (length data) ≤ MaxPayloadSize →
  (let seq := u64 (cl_seq (ss_client s) + 1) in
   handle_frame e (ss_mgr s) (mkWriter [] None) (m_Header (frame_of t seq data)) data =
     (m', mkWriter [] None, ConnDone)) →
  ∃ s', Call e t payload s = (s', Err (ClientFrame (ErrStream EOF))) ∧
    sc_mode (ss_server s') = ConnDone ∧ ss_mgr s' = m'.
Proof.
  intros [Hmode [Hsi Hsc] [Hci Hcc] [Hso Hco]] Hend Ht Henc Hlen Hh. unfold Call, Stream.
  rewrite Henc, Hco, write_data_ok by (done || apply u64_in). cbn [fmap option_fmap option_map app].
  unfold to_server. cbn [ss_client ss_mgr ss_server cl_r cl_w cl_seq w_out w_room drain].
  unfold conn_step, follow_turn, events_turn. cbn [sc_mode sc_reader sc_writer ss_server]. rewrite Hmode.
  set (q := frame_of t _ data) in *.
  destruct (ReadFrame_frame (arrive (frame_bytes q) (sc_reader (ss_server s))) q [])
    as (fr & -> & _).
  { apply frame_of_ok; try done. apply u64_in. }
  { cbn [arrive fr_cap]. by rewrite Hsc. }
  { rewrite r_bytes_arrive, Hsi. by rewrite app_nil_r. }
  rewrite Hso. simpl in Hh |- *. rewrite Hh. unfold to_client. cbn [ss_client ss_mgr ss_server sc_writer w_out].
  unfold Client_ReadFrame. cbn [cl_r].
  destruct (ReadFrame_partial (arrive [] (cl_r (ss_client s))) (frame_of 0 0 []) []) as (fr' & h & ->).
  { apply frame_of_ok; [split; lia|split; lia|vm_compute; congruence]. }
  { cbn [arrive fr_cap]. by rewrite Hcc. }
  { apply prefix_nil. }
  { done. }
  { by rewrite r_bytes_arrive, Hci. }
  { done. }
  eexists. split; [done|]. done.
Qed.

(** C36: the size limit of log answers.  A log request on a connection
    between calls is answered exactly when the encoding of the answer fits
    into one frame; a larger snapshot (a ring buffer can be configured to hold
    one) is not sent at all: the server ends the connection and the client
    sees end of file. *)
Theorem log_request_answered_iff_fits (e : E) (s : session) (id : string) (st since lines : Z) (p : LogsStreamPayload)
    (data : bytes) (Hready : ready s) (Hend : r_end (fr_r (cl_r (ss_client s))) = EOF)
    (Hreq : req_fits (ReqLogs id st since lines)) (Hok : okLS p)
    (Hspec : (api_spec e (ss_mgr s) (ReqLogs id st since lines)).2 = RespLog p)
    (Hdata : EncodePayload p = Ok data) (Hlen : Z.of_nat (length data) < 2 ^ 32) :
  let '(s', r) := do_request e s (ReqLogs id st since lines) in
  ss_mgr s' = (api_spec e (ss_mgr s) (ReqLogs id st since lines)).1 ∧
  (Z.of_nat (length data) ≤ MaxPayloadSize ∧ r = Some (RespLog p) ∧ sc_mode (ss_server s') = ServeRequests ∨
   MaxPayloadSize < Z.of_nat (length data) ∧ r = None ∧ sc_mode (ss_server s') = ConnDone).
Proof.
  destruct (decide (Z.of_nat (length data) ≤ MaxPayloadSize)) as [Hle|Hgt].
  - destruct (do_request_spec e s (ReqLogs id st since lines) Hready Hreq) as (s' & -> & Hrd & Hm & _).
    { rewrite Hspec. split; [done|]. intros bs Hbs. unfold EncodePayload in Hdata. rewrite Hdata in Hbs. by simplify_eq. }
    rewrite Hspec, Hm. split; [done|]. left. split_and!; try done. apply Hrd.
  - destruct (fits_marshal okLQ _ Hreq) as (qb & Hokq & Hqb & Hql). cbn [do_request api_spec] in *.
    destruct (if (since =? 0) && (lines =? 0) then _ else _) as [m' bs] eqn:Es. simpl in Hspec. injection Hspec as Hp.
    destruct (Call_unanswered e MsgLogsRequest (Some (mkLogsRequest id st false since lines)) s qb m')
      as (s' & -> & Hmode & Hm); try done.
    { unfold handle_frame. cbn [m_Header frame_of h_MsgType]. change (MsgLogsRequest =? MsgEventsSubscribe) with false.
      rewrite Z.eqb_refl. cbn match. rewrite (decode_ok_marshal okLQ _ qb Hokq Hqb). cbn [lq_Follow].
      unfold snapshotForRequest. cbn [lq_SinceUnixNano lq_Lines lq_ID lq_Stream]. rewrite Es, Hp.
      unfold writeLogsStreamFrame. rewrite Hdata, write_data_oversized by lia. done. }
    split; [done|]. right. split_and!; [lia|done..].
Qed.
End Session.

(** ** The life of the server *)

(** [sv_accepting]: the accept loop runs; [sv_handlers]: the handlers still
    running, by number; [sv_socket]: the socket file exists. *)
Record Server := mkServer {
  sv_listening : bool; sv_socket : bool; sv_closed : bool; sv_accepting : bool;
  sv_wg : nat; sv_next : nat; sv_handlers : gset nat }.

Inductive server_err := ErrSocketPathRequired | ErrManagerRequired | ErrServerMkdir | ErrListen | ErrChmod.

(** What the system answers to the calls of [NewServer]. *)
Record server_answers := mkSrvAnswers { sa_mkdir : bool; sa_listen : bool; sa_chmod : bool }.

(** The result with whether the socket file exists afterwards, given whether
    one was there before; closing a listener removes its file. *)
Definition NewServer (path : string) (has_manager : bool) (a : server_answers) (stale : bool)
    : bool * result server_err Server :=
  if String.eqb path "" then (stale, Err ErrSocketPathRequired)
  else if negb has_manager then (stale, Err ErrManagerRequired)
  else if negb (sa_mkdir a) then (stale, Err ErrServerMkdir)
  else if negb (sa_listen a) then (false, Err ErrListen)
  else if negb (sa_chmod a) then (false, Err ErrChmod)
  else (true, Ok (mkServer true true false false 0 0 ∅)).

Definition Server_Start (s : Server) : Server :=
  mkServer (sv_listening s) (sv_socket s) (sv_closed s) true (S (sv_wg s)) (sv_next s) (sv_handlers s).

(** One return of [Accept] in [acceptLoop]: with a connection, or with an
    error ([ok = false], always once the listener is closed). *)
Definition accept_step (ok : bool) (s : Server) : Server :=
  if negb (sv_accepting s) then s
  else if ok && sv_listening s
  then mkServer true (sv_socket s) (sv_closed s) true (S (sv_wg s)) (S (sv_next s)) ({[sv_next s]} ∪ sv_handlers s)
  else mkServer (sv_listening s) (sv_socket s) (sv_closed s) false (pred (sv_wg s)) (sv_next s) (sv_handlers s).

(** Handler [i] returns. *)
Definition handler_done (i : nat) (s : Server) : Server :=
  if decide (i ∈ sv_handlers s)
  then mkServer (sv_listening s) (sv_socket s) (sv_closed s) (sv_accepting s) (pred (sv_wg s)) (sv_next s)
         (sv_handlers s ∖ {[i]})
  else s.

(** [Close] up to its wait; the flag: it returns nil at once. *)
Definition Server_Close_begin (s : Server) : Server * bool :=
  if sv_closed s then (s, true)
  else (mkServer false false true (sv_accepting s) (sv_wg s) (sv_next s) (sv_handlers s), false).

(** The wait: [None] while neither case is ready; [pick] chooses when both
    are. *)
Inductive close_result := CloseNil | CloseCtx.
Definition Server_Close_end (ctx_done pick : bool) (s : Server) : option close_result :=
  if (sv_wg s =? 0)%nat then Some (if ctx_done && pick then CloseCtx else CloseNil)
  else if ctx_done then Some CloseCtx else None.

Inductive server_op := SrvAccept (ok : bool) | SrvHandlerDone (i : nat) | SrvClose.
Definition server_step (s : Server) (op : server_op) : Server :=
  match op with
  | SrvAccept ok => accept_step ok s
  | SrvHandlerDone i => handler_done i s
  | SrvClose => (Server_Close_begin s).1
  end.

Definition server_inv (s : Server) : Prop :=
  sv_wg s = ((if sv_accepting s then 1 else 0) + size (sv_handlers s))%nat ∧
  (∀ i, i ∈ sv_handlers s → (i < sv_next s)%nat) ∧
  (sv_closed s = true → sv_listening s = false ∧ sv_socket s = false).

Lemma server_step_inv s op : server_inv s → server_inv (server_step s op).
Proof.
  intros Hinv. pose proof Hinv as (Hwg & Hlt & Hcl). destruct op as [ok|i|]; simpl.
  - unfold accept_step. destruct (sv_accepting s) eqn:Ea; simpl; [|done].
    destruct (ok && sv_listening s) eqn:El; split_and!; simpl; try lia.
    + rewrite size_union, size_singleton; [lia|]. intros j Hj1 Hj2. apply elem_of_singleton in Hj1 as ->.
      apply Hlt in Hj2. lia.
    + intros j [->%elem_of_singleton|Hj%Hlt]%elem_of_union; lia.
    + intros [Hc1 _]%Hcl. rewrite Hc1, andb_false_r in El. done.
    + done.
    + done.
  - unfold handler_done. case_decide as Hi; [|done]. split_and!; simpl.
    + rewrite size_difference, size_singleton by set_solver.
      assert (size (sv_handlers s) ≠ 0%nat) by (apply size_non_empty_iff; set_solver). lia.
    + set_solver.
    + done.
  - unfold Server_Close_begin. destruct (sv_closed s) eqn:E; [done|]. done.
Qed.

(** Closing the server.  In every interleaving of accepts, handlers
    returning and calls of [Close] after [Start], the wait of [Close] can end
    without its context only when the accept loop and every handler have
    returned, and then it can; once closed, the listener and the socket file
    are gone and no connection is accepted any more.  In particular one client
    that stays connected makes [Close] wait for its context. *)
Theorem server_close_joins_handlers (path : string) (a : server_answers) (stale sock : bool) (s0 : Server)
    (ops : list server_op) (Hnew : NewServer path true a stale = (sock, Ok s0)) :
  let s := foldl server_step (Server_Start s0) ops in
  (∀ pick, Server_Close_end false pick s = Some CloseNil ↔ sv_accepting s = false ∧ sv_handlers s = ∅) ∧
  (sv_handlers s ≠ ∅ → ∀ pick, Server_Close_end false pick s = None ∧ Server_Close_end true pick s = Some CloseCtx) ∧
  (sv_closed s = true → sv_socket s = false ∧ ∀ ok, sv_handlers (accept_step ok s) = sv_handlers s).
Proof.
  assert (server_inv (Server_Start s0)) as H0.
  { unfold NewServer in Hnew. repeat case_match; simplify_eq. split_and!; simpl; [reflexivity|set_solver|done]. }
  assert (server_inv (foldl server_step (Server_Start s0) ops)) as (Hwg & _ & Hcl).
  { clear Hnew. revert H0. generalize (Server_Start s0). induction ops as [|op ops IH]; intros s Hs; [done|].
    simpl. by apply IH, server_step_inv. }
  set (s := foldl _ _ _) in *. clearbody s. simpl. unfold Server_Close_end.
  assert (sv_wg s = 0%nat ↔ sv_accepting s = false ∧ sv_handlers s = ∅) as Hz.
  { rewrite Hwg. split.
    - intros Hs. destruct (sv_accepting s); [lia|]. split; [done|]. apply leibniz_equiv, size_empty_iff. lia.
    - intros [-> ->]. by rewrite size_empty. }
  split_and!.
  - intros pick. rewrite <- Hz. destruct (Nat.eqb_spec (sv_wg s) 0); split; done.
  - intros Hh pick. rewrite (proj2 (Nat.eqb_neq _ _)) by (intros [_ ?]%Hz; done). done.
  - intros [Hl Hs]%Hcl. split; [done|]. intros ok. unfold accept_step. rewrite Hl, andb_false_r.
    by destruct (sv_accepting s).
Qed.

Lemma server_close_joins_handlers_witness :
  let s := foldl server_step (Server_Start (mkServer true true false false 0 0 ∅))
             [SrvAccept true; SrvAccept true; SrvHandlerDone 0; SrvClose; SrvAccept false] in
  sv_wg s = 1%nat ∧ Server_Close_end true true s = Some CloseCtx ∧ sv_socket s = false.
Proof.
  destruct (server_close_joins_handlers "/run/manager.sock" (mkSrvAnswers true true true) true true _
    [SrvAccept true; SrvAccept true; SrvHandlerDone 0; SrvClose; SrvAccept false] eq_refl) as (_ & H2 & H3).
  split; [reflexivity|]. split; [|exact (proj1 (H3 eq_refl))].
  refine (proj2 (H2 _ true)). vm_compute. discriminate.
Defined.
