(* ===== verification/Manager.v ===== *)
(** * The public API: pkg/cliwrap

    The manager's registry of process handles, the life of a handle over its
    controller, the watcher that turns state changes into events, shutdown,
    and reattaching to a persistent session.

    [Start] holds the handle's lock while it negotiates with the agent, and
    [Close] clears the controller before it closes it, so both are given as a
    begin and an end between which other calls run. *)

From S2P Require Import Prelude Text Frame Seq Outbox Wal Spiller Message Conn RingBuffer CwTypes PtySubs.
From S2P Require Import Controller EventBus Supervise Agent.

(** ** Handles: process.go *)

(** [ph_ctrl]: the controller of a started handle; [ph_starting]:
    the one a pending [Start] works on; [ph_closing]: those of pending [Close]
    calls; [ph_onStateChange]: whether a callback is registered. *)
Record processHandle := mkPH {
  ph_spec : Spec;
  ph_ctrl : option Controller;
  ph_starting : option Controller;
  ph_closing : list Controller;
  ph_lastStatus : Status;
  ph_onStateChange : bool;
  ph_nextSeq : Z }.

Definition new_handle (spec : Spec) (ctrl : option Controller) : processHandle :=
  mkPH spec ctrl None [] zero_status false 0.
Definition set_ctrl (h : processHandle) (ctrl starting : option Controller) (closing : list Controller)
    : processHandle :=
  mkPH (ph_spec h) ctrl starting closing (ph_lastStatus h) (ph_onStateChange h) (ph_nextSeq h).

Inductive mgr_err :=
| ErrManagerClosed | ErrProcessAlreadyExists | ErrProcessAlreadyRunning | ErrProcessNotRunning | ErrProcessNotFound
| ErrPersistenceUnsupportedByAgent | ErrPTYNotConfigured | ErrSpecInvalid (e : SpecValidationError)
| ErrController (e : ctl_err) | ErrPayload (e : codec_err)
| ErrSessionNotFound | ErrAgentDead | ErrIncompatibleAgent (e : handshake_err).

(** [newStatus(s, pid)], the statuses handles report. *)
Definition ctrl_status (c : Controller) : Status :=
  mkStatus (ctl_State c) 0 (ChildPID c) 0 0 0 0 "" "" 0 (st_CPUPercent zero_status).

Definition Handle_Status (h : processHandle) : Status :=
  match ph_ctrl h with
  | Some c => ctrl_status c
  | None => if decide (st_State (ph_lastStatus h) = StatePending) then zero_status else ph_lastStatus h
  end.

(** [OnStateChange]. *)
Definition Handle_OnStateChange (h : processHandle) (cb : bool) : processHandle :=
  mkPH (ph_spec h) ((λ c, SetOnStateChange c cb) <$> ph_ctrl h) (ph_starting h) (ph_closing h)
    (ph_lastStatus h) cb (ph_nextSeq h).

Section Handles.
Context `{!Codec HelloPayload, !Codec StartChildPayload, !Codec StopChildPayload,
          !Codec CapabilityReply, !Codec ChildStartedPayload, !Codec ChildExitedPayload,
          !Codec ChildErrorPayload, !Codec LogChunkPayload, !Codec Message.PTYData,
          !Codec PTYRingDumpPayload, !Codec AckPayload, !Codec PTYWrite, !Codec PTYResize, !Codec PTYSignal}.

(** [newController]: the spawner is set, and so is the log callback. *)
Definition newController (runtimeDir : string) (outcap : Z) (disableWAL : bool) (sp : Spec) : result ctl_err Controller :=
  NewController sp true runtimeDir outcap disableWAL true.

(** [Start] up to the select of the capability negotiation.  The third
    component is the controller an error leaves to the collector. *)
Definition Handle_Start_begin (runtimeDir : string) (outcap : Z) (disableWAL : bool)
    (s : enq_sched) (sock : option (Reader * Writer)) (wal : option bytes) (wal_fails : bool)
    (h : processHandle) : processHandle * result mgr_err () * option Controller * list ctl_event :=
  match ph_ctrl h with
  | Some _ => (h, Err ErrProcessAlreadyRunning, None, [])
  | None =>
      match newController runtimeDir outcap disableWAL (ph_spec h) with
      | Err e => (h, Err (ErrController e), None, [])
      | Ok c =>
          let c1 := if ph_onStateChange h then SetOnStateChange c true else c in
          match Start_begin s sock wal wal_fails c1 with
          | (c', Err e, evs) => (h, Err (ErrController e), Some c', evs)
          | (c2, Ok _, evs) => (set_ctrl h None (Some c2) (ph_closing h), Ok (), None, evs)
          end
      end
  end.

(** The rest of [Start]; [None]: that case of the select is not ready. *)
Definition Handle_Start_end (s : enq_sched) (k : cap_case) (ctx_first fired pick : bool) (h : processHandle)
    : option (processHandle * result mgr_err () * option Controller * list ctl_event) :=
  match ph_starting h with
  | None => None
  | Some c =>
      match Start_finish s k c with
      | None => None
      | Some (c', Err e, evs) =>
          Some (set_ctrl h (ph_ctrl h) None (ph_closing h), Err (ErrController e), Some c', evs)
      | Some (c', Ok _, evs) =>
          if spec_Persistent (ph_spec h) && negb (agentHasFeature c' "persistence")
          then Some (set_ctrl h (ph_ctrl h) None (ph_closing h), Err ErrPersistenceUnsupportedByAgent,
                     Some (Controller.Close ctx_first fired pick c'), evs)
          else Some (set_ctrl h (Some c') None (ph_closing h), Ok (), None, evs)
      end
  end.

(** [Stop], once it has the handle's lock (see [lock_waits]), up to its waits:
    for the acknowledgement and, on a persistent handle, for the state to
    become terminal. *)
Definition Handle_Stop (s : enq_sched) (h : processHandle) : processHandle * result mgr_err stop_result * list ctl_event :=
  match ph_ctrl h with
  | None => (h, Err ErrProcessNotRunning, [])
  | Some c =>
      let '(c', r, evs) := Stop s c in
      (set_ctrl h (Some c') (ph_starting h) (ph_closing h), Ok r, evs)
  end.

(** The polling loop of [Stop] on a persistent handle: one pair per turn
    before the deadline, whether the context ended and the state read. *)
Inductive stop_wait := StopWaitDone | StopWaitCtx | StopWaitTimeout.
Fixpoint Handle_Stop_wait (polls : list (bool * State)) : stop_wait :=
  match polls with
  | [] => StopWaitTimeout
  | (ctx_done, st) :: polls' =>
      if ctx_done then StopWaitCtx
      else if decide (st = StateStopped ∨ st = StateCrashed ∨ st = StateFailed) then StopWaitDone
      else Handle_Stop_wait polls'
  end.

(** [Close] up to and after the controller's [Close] or [CloseConnOnly]. *)
Definition Handle_Close_begin (h : processHandle) : processHandle :=
  match ph_ctrl h with
  | None => h
  | Some c => set_ctrl h None (ph_starting h) (ph_closing h ++ [c])
  end.
Definition close_ctrl (persistent : bool) (ctx_first fired pick : bool) (c : Controller) : Controller :=
  if persistent then CloseConnOnly ctx_first fired pick c else Controller.Close ctx_first fired pick c.
Definition Handle_Close_end (k : nat) (ctx_first fired pick : bool) (h : processHandle)
    : processHandle * option Controller :=
  match ph_closing h !! k with
  | None => (h, None)
  | Some c =>
      let c' := close_ctrl (spec_Persistent (ph_spec h)) ctx_first fired pick c in
      (mkPH (ph_spec h) (ph_ctrl h) (ph_starting h) (delete k (ph_closing h)) (ctrl_status c')
         (ph_onStateChange h) (ph_nextSeq h), Some c')
  end.

(** [WriteInput], [Resize] and [Signal]: a payload sent in PTY mode. *)
Definition send_pty {A} `{!Codec A} (s : enq_sched) (t : Z) (payload : A) (h : processHandle)
    : processHandle * option mgr_err :=
  match spec_PTY (ph_spec h) with
  | None => (h, Some ErrPTYNotConfigured)
  | Some _ =>
      match ph_ctrl h with
      | None => (h, Some ErrProcessNotRunning)
      | Some c =>
          match EncodePayload payload with
          | Err e => (h, Some (ErrPayload e))
          | Ok b => let '(c', e) := SendPTY s c t b in
                    (set_ctrl h (Some c') (ph_starting h) (ph_closing h), ErrController <$> e)
          end
      end
  end.

Definition WriteInput (s : enq_sched) (b : bytes) (h : processHandle) : processHandle * option mgr_err :=
  match spec_PTY (ph_spec h), ph_ctrl h with
  | Some _, Some _ =>
      let seq := u64 (ph_nextSeq h + 1) in
      let h1 := mkPH (ph_spec h) (ph_ctrl h) (ph_starting h) (ph_closing h) (ph_lastStatus h)
                  (ph_onStateChange h) seq in
      send_pty s MsgTypePTYWrite (mkPTYWrite seq b) h1
  | _, _ => send_pty s MsgTypePTYWrite (mkPTYWrite 0 b) h
  end.
Definition Resize (s : enq_sched) (cols rows : Z) (h : processHandle) : processHandle * option mgr_err :=
  send_pty s MsgTypePTYResize (mkPTYResize cols rows) h.
Definition Signal (s : enq_sched) (sig : Z) (h : processHandle) : processHandle * option mgr_err :=
  send_pty s MsgTypePTYSignal (mkPTYSignal (i32 sig)) h.

(** [SubscribePTYData]: the channel subscribed; [None]: a closed one. *)
Definition Handle_SubscribePTYData (h : processHandle) : processHandle * option nat :=
  match spec_PTY (ph_spec h), ph_ctrl h with
  | Some _, Some c =>
      let '(p, a) := SubscribePTYData (ct_pty c) in
      (set_ctrl h (Some (with_child c (ct_childPID c) (ct_features c) (ct_crashSource c) p)) (ph_starting h) (ph_closing h), Some a)
  | _, _ => (h, None)
  end.

(** ** The watcher: manager_events.go *)

Record handleSeen := mkSeen {
  hs_lastState : State; hs_emitStarting : bool; hs_emitStarted : bool;
  hs_emitStopped : bool; hs_emitCrashed : bool }.

Definition zero_seen : handleSeen := mkSeen StatePending false false false false.

(** [publishTransition]: the flags afterwards and the events, in order. *)
Definition publishTransition (id : string) (now : Z) (st : State) (s : handleSeen) : handleSeen * list Event :=
  let b := mkBase id now in
  let starting := if hs_emitStarting s then [] else [ProcessStartingEvent b] in
  let started := if hs_emitStarted s then [] else [ProcessStartedEvent b 0 0] in
  match st with
  | StateStarting =>
      (mkSeen (hs_lastState s) true (hs_emitStarted s) (hs_emitStopped s) (hs_emitCrashed s), starting)
  | StateRunning =>
      (mkSeen (hs_lastState s) true true (hs_emitStopped s) (hs_emitCrashed s), starting ++ started)
  | StateStopped =>
      (mkSeen (hs_lastState s) true true true (hs_emitCrashed s),
       starting ++ started ++ (if hs_emitStopped s then [] else [ProcessStoppedEvent b 0]))
  | StateCrashed =>
      (mkSeen (hs_lastState s) true true (hs_emitStopped s) true,
       starting ++ started ++
       (if hs_emitCrashed s then []
        else [ProcessCrashedEvent b (mkCrashContext "unknown" 0 0 0 0 "") false 0]))
  | _ => (s, [])
  end.

(** One handle of one pass of [watchLoop]. *)
Definition observe (id : string) (now : Z) (st : State) (s : handleSeen) : handleSeen * list Event :=
  if decide (st = hs_lastState s) then (s, [])
  else let '(s', es) := publishTransition id now st s in
       (mkSeen st (hs_emitStarting s') (hs_emitStarted s') (hs_emitStopped s') (hs_emitCrashed s'), es).

(** ** The manager: manager.go *)

(** What [Shutdown] still has to do: stop or close a handle it listed. *)
Inductive shut_act := ShutStop (id : string) | ShutCloseBegin (id : string) | ShutCloseEnd (id : string).

(** [m_seen]: the local map of [watchLoop]; [m_shutdown]: the rest of a
    [Shutdown] in progress; [m_ended]: it returned, so the watcher has too. *)
Record Manager := mkMgr {
  m_spawner : SpawnerOptions;
  m_runtimeDir : string;
  m_persistentDir : string;
  m_outboxCapacity : Z;
  m_disableWAL : bool;
  m_handles : gmap string processHandle;
  m_closed : bool;
  m_seen : gmap string handleSeen;
  m_bus : option Bus;
  m_shutdown : list shut_act;
  m_ended : bool }.

Definition upd_handles (m : Manager) (hs : gmap string processHandle) : Manager :=
  mkMgr (m_spawner m) (m_runtimeDir m) (m_persistentDir m) (m_outboxCapacity m) (m_disableWAL m) hs (m_closed m) (m_seen m) (m_bus m)
    (m_shutdown m) (m_ended m).
Definition upd_shut (m : Manager) (closed : bool) (acts : list shut_act) (ended : bool) (bus : option Bus) : Manager :=
  mkMgr (m_spawner m) (m_runtimeDir m) (m_persistentDir m) (m_outboxCapacity m) (m_disableWAL m) (m_handles m) closed (m_seen m) bus acts ended.
Definition upd_watch (m : Manager) (seen : gmap string handleSeen) (bus : option Bus) : Manager :=
  mkMgr (m_spawner m) (m_runtimeDir m) (m_persistentDir m) (m_outboxCapacity m) (m_disableWAL m) (m_handles m) (m_closed m) seen bus
    (m_shutdown m) (m_ended m).

Inductive new_err := ErrAgentPathRequired | ErrRuntimeDirRequired.

(** What the options of [NewManager] set, apart from the log settings. *)
Record ManagerOptions := mkManagerOptions {
  mo_agentPath : string; mo_runtimeDir : string; mo_persistentDir : string; mo_outboxCapacity : Z;
  mo_agentOutboxCapacity : Z; mo_disableWAL : bool }.

(** The option functions of options.go on these fields, and their zero values. *)
Definition no_options : ManagerOptions := mkManagerOptions "" "" "" 0 0 false.
Definition WithAgentPath (path : string) (o : ManagerOptions) : ManagerOptions :=
  mkManagerOptions path (mo_runtimeDir o) (mo_persistentDir o) (mo_outboxCapacity o) (mo_agentOutboxCapacity o) (mo_disableWAL o).
Definition WithRuntimeDir (path : string) (o : ManagerOptions) : ManagerOptions :=
  mkManagerOptions (mo_agentPath o) path (mo_persistentDir o) (mo_outboxCapacity o) (mo_agentOutboxCapacity o) (mo_disableWAL o).
Definition WithPersistentDir (path : string) (o : ManagerOptions) : ManagerOptions :=
  mkManagerOptions (mo_agentPath o) (mo_runtimeDir o) path (mo_outboxCapacity o) (mo_agentOutboxCapacity o) (mo_disableWAL o).
Definition WithOutboxCapacity (n : Z) (o : ManagerOptions) : ManagerOptions :=
  mkManagerOptions (mo_agentPath o) (mo_runtimeDir o) (mo_persistentDir o) n (mo_agentOutboxCapacity o) (mo_disableWAL o).
Definition WithAgentOutboxCapacity (n : Z) (o : ManagerOptions) : ManagerOptions :=
  mkManagerOptions (mo_agentPath o) (mo_runtimeDir o) (mo_persistentDir o) (mo_outboxCapacity o) n (mo_disableWAL o).
Definition WithoutWAL (o : ManagerOptions) : ManagerOptions :=
  mkManagerOptions (mo_agentPath o) (mo_runtimeDir o) (mo_persistentDir o) (mo_outboxCapacity o) (mo_agentOutboxCapacity o) true.

(** An option that is only set when there is a directory. *)
Lemma persistent_option dir o :
  mo_persistentDir o = ""%string → (if String.eqb dir "" then o else WithPersistentDir dir o) = WithPersistentDir dir o.
Proof.
  intros H. destruct (String.eqb_spec dir ""); [subst|done]. destruct o. simpl in H. by subst.
Qed.

Definition NewManager (home : string) (o : ManagerOptions) : result new_err Manager :=
  if String.eqb (mo_agentPath o) "" then Err ErrAgentPathRequired
  else if String.eqb (mo_runtimeDir o) "" then Err ErrRuntimeDirRequired
  else
    let persistentDir := if String.eqb (mo_persistentDir o) "" then path_join [home; ".cliwrap"; "sessions"]
                         else mo_persistentDir o in
    let extra := if 0 <? mo_agentOutboxCapacity o
                 then ["CLIWRAP_AGENT_OUTBOX_CAPACITY=" ++ pretty (mo_agentOutboxCapacity o)]%string else [] in
    Ok (mkMgr (mkSpawnerOptions (mo_agentPath o) (mo_runtimeDir o) extra) (mo_runtimeDir o) persistentDir
          (mo_outboxCapacity o) (mo_disableWAL o) ∅ false ∅ None [] false).

(** The socket [Spawn] returns for a handle; [rw]: its two directions. *)
Definition spawn_socket (m : Manager) (h : processHandle) (a : os_answers) (rw : Reader * Writer)
    : option (Reader * Writer) :=
  let sp := ph_spec h in
  let opts := mkSpawnOpts (spec_Persistent sp)
                (if spec_Persistent sp then path_join [m_persistentDir m; spec_ID sp] else "") in
  match Spawn (m_spawner m) (spec_ID sp) opts a with
  | (_, Ok _) => Some rw
  | (_, Err _) => None
  end.

Definition Register (m : Manager) (spec : Spec) : Manager * result mgr_err () :=
  match CwTypes.Validate spec with
  | Some e => (m, Err (ErrSpecInvalid e))
  | None =>
      if m_closed m then (m, Err ErrManagerClosed)
      else match m_handles m !! spec_ID spec with
           | Some _ => (m, Err ErrProcessAlreadyExists)
           | None => (upd_handles m (<[spec_ID spec := new_handle spec None]> (m_handles m)), Ok ())
           end
  end.

(** [emit]: the bus exists from its first use on. *)
Definition emit (order : Bus → list nat) (b : option Bus) (e : Event) : option Bus :=
  let bus := default (New 256) b in Some (Publish (order bus) bus e).

Definition is_persistent (m : Manager) (id : string) : bool :=
  match m_handles m !! id with Some h => spec_Persistent (ph_spec h) | None => false end.

(** [Shutdown] up to its loops; [order]: how [range] lists the handles. *)
Definition Shutdown_begin (order : list string) (m : Manager) : Manager :=
  if m_closed m then m
  else upd_shut m true
         ((ShutStop <$> filter (λ id, is_persistent m id = false) order)
            ++ (order ≫= λ id, [ShutCloseBegin id; ShutCloseEnd id])) (m_ended m) (m_bus m).
Definition Shutdown_end (m : Manager) : Manager :=
  match m_shutdown m with
  | [] => if m_closed m then upd_shut m true [] true (EventBus.Close <$> m_bus m) else m
  | _ => m
  end.

(** What a run shows: an event published, a STOP_CHILD sent through a handle,
    a handle released and whether its agent was terminated. *)
Inductive mgr_event :=
| MPublished (e : Event) | MStopped (id : string) | MReleased (id : string) (killed : bool)
| MShutStop (id : string).

Definition on_handle (m : Manager) (id : string) (f : processHandle → processHandle * list mgr_event)
    : Manager * list mgr_event :=
  match m_handles m !! id with
  | None => (m, [])
  | Some h => let '(h', evs) := f h in (upd_handles m (<[id := h']> (m_handles m)), evs)
  end.

Definition released (id : string) (r : processHandle * option Controller) : processHandle * list mgr_event :=
  let '(h, c) := r in
  (h, match c with
      | Some c => [MReleased id (bool_decide (ct_handle c = Some true))]
      | None => []
      end).

(** The next act of the shutdown loops. *)
Definition Shutdown_step (s : enq_sched) (a b d : bool) (m : Manager) : Manager * list mgr_event :=
  match m_shutdown m with
  | [] => (m, [])
  | act :: acts =>
      let m1 := upd_shut m (m_closed m) acts (m_ended m) (m_bus m) in
      match act with
      | ShutStop id => on_handle m1 id (λ h, let '(h', _, _) := Handle_Stop s h in (h', [MShutStop id]))
      | ShutCloseBegin id => on_handle m1 id (λ h, (Handle_Close_begin h, []))
      | ShutCloseEnd id => on_handle m1 id (λ h, released id (Handle_Close_end (pred (length (ph_closing h))) a b d h))
      end
  end.

(** ** Reattaching: persistent.go *)

(** [Reattach]: the session's files, whether a PID is alive, and the dialled
    socket ([inl true]: it does not exist; [inl false]: another failure). *)
Definition Reattach (m : Manager) (fs : session_files) (alive : Z → bool)
    (dial : bool + (Reader * Writer)) (wal : option bytes) (wal_fails : bool)
    : Manager * result mgr_err () :=
  match sf_meta fs with
  | None => (m, Err ErrSessionNotFound)
  | Some meta =>
      if negb (alive (default (pm_AgentPID meta) (sf_pid fs))) then (m, Err ErrAgentDead)
      else match dial with
      | inl true => (m, Err ErrSessionNotFound)
      | inl false => (m, Err ErrAgentDead)
      | inr (r, w) =>
          match ReadHandshakeHello r with
          | (_, Err e) => (m, Err (ErrIncompatibleAgent e))
          | (r1, Ok hello) =>
              if negb (pm_StartedAt meta =? hello_StartedAt hello) then (m, Err ErrAgentDead)
              else match ReadHandshakePTYRingDump r1 with
              | (_, Err e) => (m, Err (ErrIncompatibleAgent e))
              | (r2, Ok dump) =>
                  match NewControllerFromReattach (pm_Spec meta) (Some (r2, w)) (rd_Bytes dump)
                          (m_runtimeDir m) wal wal_fails (m_outboxCapacity m) (m_disableWAL m) true with
                  | Err e => (m, Err (ErrController e))
                  | Ok c =>
                      match m_handles m !! pm_ID meta with
                      | Some _ => (m, Err ErrProcessAlreadyExists)
                      | None =>
                          (upd_handles m (<[pm_ID meta := new_handle (pm_Spec meta) (Some c)]> (m_handles m)), Ok ())
                      end
                  end
              end
          end
      end
  end.

(** ** Runs *)

Inductive live_op := LiveMessage (msg : OutboxMessage) | LiveDisconnect.
Definition live_step (c : Controller) (op : live_op) : Controller :=
  match op with LiveMessage msg => (handleMessage c msg).1 | LiveDisconnect => (on_disconnect c).1 end.

Inductive mgr_op :=
| MRegister (spec : Spec)
| MReattach (fs : session_files) (alive : Z → bool) (dial : bool + (Reader * Writer)) (wal : option bytes) (wf : bool)
| MCallback (id : string) (cb : bool)
| MStartBegin (id : string) (s : enq_sched) (os : os_answers) (rw : Reader * Writer) (wal : option bytes) (wf : bool)
| MStartEnd (id : string) (s : enq_sched) (k : cap_case) (a b d : bool)
| MStarting (id : string) (op : live_op)
| MLive (id : string) (op : live_op)
| MStop (id : string) (s : enq_sched)
| MInput (id : string) (s : enq_sched) (b : bytes)
| MResize (id : string) (s : enq_sched) (cols rows : Z)
| MSignal (id : string) (s : enq_sched) (sig : Z)
| MSubscribePTY (id : string)
| MCloseBegin (id : string)
| MCloseEnd (id : string) (k : nat) (a b d : bool)
| MObserve (id : string) (now : Z)
| MShutdown (order : list string)
| MShutStep (s : enq_sched) (a b d : bool)
| MShutEnd.

(** A pass of the watcher over one handle; [Status] waits for a pending
    [Start], and the watcher is gone once [Shutdown] returned. *)
Definition observe_step (m : Manager) (id : string) (now : Z) : Manager * list mgr_event :=
  match m_handles m !! id with
  | Some h =>
      match ph_starting h, m_ended m with
      | None, false =>
          let '(s', es) := observe id now (st_State (Handle_Status h)) (default zero_seen (m_seen m !! id)) in
          (upd_watch m (<[id := s']> (m_seen m))
             (foldl (emit (λ b, elements (b_subs b))) (m_bus m) es), MPublished <$> es)
      | _, _ => (m, [])
      end
  | None => (m, [])
  end.

(** A [Start] holds the lock of its handle until it returns: the other methods
    of the handle, and the shutdown loops that call them, wait for it. *)
Definition lock_waits (m : Manager) (op : mgr_op) : bool :=
  let busy id := match m_handles m !! id with
                 | Some h => match ph_starting h with Some _ => true | None => false end
                 | None => false
                 end in
  match op with
  | MCallback id _ | MStop id _ | MInput id _ _ | MResize id _ _ _ | MSignal id _ _ | MSubscribePTY id
  | MCloseBegin id => busy id
  | MShutStep _ _ _ _ => match m_shutdown m with
                         | ShutStop id :: _ | ShutCloseBegin id :: _ => busy id
                         | _ => false
                         end
  | _ => false
  end.

Definition mgr_act (m : Manager) (op : mgr_op) : Manager * list mgr_event :=
  match op with
  | MRegister spec => ((Register m spec).1, [])
  | MReattach fs alive dial wal wf => ((Reattach m fs alive dial wal wf).1, [])
  | MCallback id cb => on_handle m id (λ h, (Handle_OnStateChange h cb, []))
  | MStartBegin id s os rw wal wf =>
      on_handle m id (λ h, match ph_starting h with
                           | Some _ => (h, [])
                           | None => ((Handle_Start_begin (m_runtimeDir m) (m_outboxCapacity m) (m_disableWAL m)
                                         s (spawn_socket m h os rw) wal wf h).1.1.1, [])
                           end)
  | MStartEnd id s k a b d =>
      on_handle m id (λ h, match Handle_Start_end s k a b d h with Some (h', _, _, _) => (h', []) | None => (h, []) end)
  | MStarting id op =>
      on_handle m id (λ h, (set_ctrl h (ph_ctrl h) ((λ c, live_step c op) <$> ph_starting h) (ph_closing h), []))
  | MLive id op =>
      on_handle m id (λ h, (set_ctrl h ((λ c, live_step c op) <$> ph_ctrl h) (ph_starting h) (ph_closing h), []))
  | MStop id s => on_handle m id (λ h, ((Handle_Stop s h).1.1, [MStopped id]))
  | MInput id s b => on_handle m id (λ h, ((WriteInput s b h).1, []))
  | MResize id s c r => on_handle m id (λ h, ((Resize s c r h).1, []))
  | MSignal id s sig => on_handle m id (λ h, ((Signal s sig h).1, []))
  | MSubscribePTY id => on_handle m id (λ h, ((Handle_SubscribePTYData h).1, []))
  | MCloseBegin id => on_handle m id (λ h, (Handle_Close_begin h, []))
  | MCloseEnd id k a b d => on_handle m id (λ h, released id (Handle_Close_end k a b d h))
  | MObserve id now => observe_step m id now
  | MShutdown order =>
      if bool_decide (NoDup order ∧ list_to_set order =@{gset string} dom (m_handles m))
      then (Shutdown_begin order m, []) else (m, [])
  | MShutStep s a b d => Shutdown_step s a b d m
  | MShutEnd => (Shutdown_end m, [])
  end.

Definition mgr_step (m : Manager) (op : mgr_op) : Manager * list mgr_event :=
  if lock_waits m op then (m, []) else mgr_act m op.

(** ** What the event stream looks like *)

Inductive ev_kind := KStarting | KStarted | KStopped | KCrashed.
#[local] Instance ev_kind_eq_dec : EqDecision ev_kind.
Proof. solve_decision. Defined.

Definition kind (e : Event) : option ev_kind :=
  match e with
  | ProcessStartingEvent _ => Some KStarting
  | ProcessStartedEvent _ _ _ => Some KStarted
  | ProcessStoppedEvent _ _ => Some KStopped
  | ProcessCrashedEvent _ _ _ _ => Some KCrashed
  | _ => None
  end.
(** The life-cycle events of process [id]. *)
Definition kind_of (id : string) (e : mgr_event) : option ev_kind :=
  match e with MPublished e => if String.eqb (ProcessID e) id then kind e else None | _ => None end.

(** Nothing, the start announced, or started and then ends, each once. *)
Definition well_ordered (l : list ev_kind) : Prop :=
  match l with
  | [] | [KStarting] => True
  | KStarting :: KStarted :: ends => ends = [] ∨ ends = [KStopped] ∨ ends = [KCrashed]
                                     ∨ ends = [KStopped; KCrashed] ∨ ends = [KCrashed; KStopped]
  | _ => False
  end.

Record seen_ok (s : handleSeen) (l : list ev_kind) : Prop := mkSeenOk {
  so_order : well_ordered l;
  so_starting : hs_emitStarting s = bool_decide (KStarting ∈ l);
  so_started : hs_emitStarted s = bool_decide (KStarted ∈ l);
  so_stopped : hs_emitStopped s = bool_decide (KStopped ∈ l);
  so_crashed : hs_emitCrashed s = bool_decide (KCrashed ∈ l);
  so_last : match hs_lastState s with
            | StateStarting => KStarting ∈ l
            | StateRunning => KStarted ∈ l
            | StateStopped => KStopped ∈ l
            | StateCrashed => KCrashed ∈ l
            | _ => True
            end }.

(** The lists [well_ordered] allows. *)
Definition orders : list (list ev_kind) :=
  [[]; [KStarting]; [KStarting; KStarted]; [KStarting; KStarted; KStopped]; [KStarting; KStarted; KCrashed];
   [KStarting; KStarted; KStopped; KCrashed]; [KStarting; KStarted; KCrashed; KStopped]].

Lemma well_ordered_orders l : well_ordered l → l ∈ orders.
Proof.
  destruct l as [|[] [|[] l]]; simpl; try done; set_solver.
Qed.

Lemma kinds_of_other id id' es :
  Forall (λ e, ProcessID e = id') es →
  omap (kind_of id) (MPublished <$> es) = if String.eqb id' id then omap kind es else [].
Proof.
  intros H. induction H as [|e es <- H IH]; csimpl; [by destruct (String.eqb id' id)|]. rewrite IH.
  by destruct (String.eqb (ProcessID e) id).
Qed.

Lemma observe_id id now st s : Forall (λ e, ProcessID e = id) (observe id now st s).2.
Proof.
  unfold observe. destruct (decide (st = hs_lastState s)); [constructor|].
  destruct s as [last [] [] [] []], st; repeat constructor.
Qed.

Lemma observe_ok id now st s l :
  seen_ok s l → seen_ok (observe id now st s).1 (l ++ omap kind (observe id now st s).2).
Proof.
  intros [Ho H1 H2 H3 H4 H5]. unfold observe. destruct (decide (st = hs_lastState s)) as [Hst|Hst].
  { cbn. rewrite app_nil_r. by split. }
  destruct s as [last f1 f2 f3 f4]. simpl in *. subst f1 f2 f3 f4. apply well_ordered_orders in Ho.
  unfold orders in Ho. rewrite !elem_of_cons, elem_of_nil in Ho.
  destruct_or?; subst l; try done; destruct st; cbn;
    (split; [simpl; auto 10|try reflexivity..|simpl; done || (apply (bool_decide_unpack _); reflexivity)]).
Qed.

(** ** Agents of persistent handles are not terminated *)

Definition agent_spared (c : Controller) : Prop := ct_handle c ≠ Some true.

Lemma setState_handle c st : ct_handle (setState c st).1 = ct_handle c.
Proof. unfold setState. by destruct (decide _). Qed.

Lemma live_step_handle c op : ct_handle (live_step c op) = ct_handle c.
Proof.
  destruct op as [msg|]; simpl; [|unfold on_disconnect; by rewrite setState_handle].
  unfold handleMessage.
  repeat first [progress simpl | case_match]; try done;
    match goal with
    | H : setState ?c ?st = _ |- _ => pose proof (setState_handle c st) as Hs; rewrite H in Hs; done
    | H : (if decide ?P then setState ?c1 ?s1 else setState ?c2 ?s2) = _ |- _ =>
        destruct (decide P);
        match type of H with setState ?c ?st = _ =>
          pose proof (setState_handle c st) as Hs; rewrite H in Hs; done end
    | _ => by rewrite setState_handle
    end.
Qed.

Lemma send_handle {A} `{!Codec A} s c t (p : option A) ack : ct_handle (send s c t p ack).1 = ct_handle c.
Proof.
  unfold send. destruct (match p with None => Ok [] | Some p => EncodePayload p end); [|done].
  destruct (ct_conn c) as [cn|]; [|done]. by destruct (SendWithNewSeq _ _ _ _ _) as [[]].
Qed.

Lemma start_result_ok x c evs : start_result x = (c, Ok (), evs) → x = (c, Ok ()).
Proof. destruct x as [c' [[]|e]]; simpl; [by intros [= -> _]|]. by destruct (setState _ _). Qed.

Lemma Start_begin_spared s sock wal wf c c' evs :
  Start_begin s sock wal wf c = (c', Ok (), evs) → agent_spared c'.
Proof.
  unfold Start_begin, agent_spared. intros H. destruct (setState c StateStarting) as [c1 e1].
  destruct (start_result _) as [[c2 r] e2] eqn:Er. injection H as -> -> <-. apply start_result_ok in Er.
  unfold Start_spawn in Er. destruct sock as [rw|]; [|done]. destruct (NewConn _) as [cn|e]; [|done].
  match type of Er with context [send s ?c2 MsgHello ?p false] =>
    pose proof (send_handle s c2 MsgHello p false) as H1; destruct (send s c2 MsgHello p false) as [c3 q] end.
  match type of Er with context [send s ?c2 MsgTypeCapabilityQuery ?p false] =>
    pose proof (send_handle s c2 MsgTypeCapabilityQuery p false) as H2;
    destruct (send s c2 MsgTypeCapabilityQuery p false) as [c4 q'] end.
  destruct q'; [done|]. injection Er as <-. simpl in *. congruence.
Qed.

Lemma Start_child_handle s c c' : Start_child s c = (c', Ok ()) → ct_handle c' = ct_handle c.
Proof.
  unfold Start_child. destruct (match spec_PTY _ with Some _ => _ | None => _ end); [done|].
  match goal with |- context [send s c MsgStartChild ?p true] =>
    pose proof (send_handle s c MsgStartChild p true) as H; destruct (send s c MsgStartChild p true) end.
  intros. by simplify_eq/=.
Qed.

Lemma Start_finish_spared s k c c' evs :
  Start_finish s k c = Some (c', Ok (), evs) → agent_spared c → agent_spared c'.
Proof.
  unfold Start_finish, agent_spared. intros H Hs.
  destruct (Start_rest s k c) as [x|] eqn:Ex; [|done]. injection H as H. apply start_result_ok in H as ->.
  unfold Start_rest in Ex. destruct k; [destruct (ct_capReplyCh c) as [|[fs|]|]| |]; try done; injection Ex as Ex;
    apply Start_child_handle in Ex; simpl in Ex; congruence.
Qed.

Lemma Stop_handle s c : ct_handle (Stop s c).1.1 = ct_handle c.
Proof.
  unfold Stop. destruct (stop_early c); [done|].
  pose proof (setState_handle c StateStopping). destruct (setState c StateStopping) as [c1 e1].
  assert (ct_handle (Stop_send s c1).1 = ct_handle c1) as Hs.
  { unfold Stop_send. destruct (EncodePayload _); [|done]. destruct (agentHasFeature c1 _).
    - destruct (ct_conn c1); [|done]. destruct (SendAndAwaitAck_begin _ _ _ _ _) as [[cn' r] ?].
      by destruct r as [[]|].
    - match goal with |- context [send s c1 MsgStopChild ?p true] =>
        pose proof (send_handle s c1 MsgStopChild p true); destruct (send s c1 MsgStopChild p true) end.
      by simpl in *. }
  destruct (Stop_send s c1). simpl in *. congruence.
Qed.

Lemma close_ctrl_spared a b d c : agent_spared c → agent_spared (close_ctrl true a b d c).
Proof.
  unfold close_ctrl, CloseConnOnly, close_conn, agent_spared. intros H.
  destruct (ct_closed c); [done|]. repeat case_match; simplify_eq/=; done || congruence.
Qed.

(** The controllers a handle works with. *)
Definition ctrls (h : processHandle) : list Controller :=
  option_list (ph_ctrl h) ++ option_list (ph_starting h) ++ ph_closing h.

Definition handle_ok (h : processHandle) : Prop :=
  spec_Persistent (ph_spec h) = true → Forall agent_spared (ctrls h).

(** The next state of a handle keeps the spec and spares its agents. *)
Definition handle_next (h h' : processHandle) : Prop :=
  ph_spec h' = ph_spec h ∧ (handle_ok h → handle_ok h').

Lemma handle_next_refl h : handle_next h h.
Proof. done. Qed.

(** A handle whose controllers all come from spared ones. *)
Lemma handle_next_intro h h' :
  ph_spec h' = ph_spec h →
  (spec_Persistent (ph_spec h) = true → Forall agent_spared (ctrls h) → Forall agent_spared (ctrls h')) →
  handle_next h h'.
Proof. intros Hs H. split; [done|]. unfold handle_ok. rewrite Hs. auto. Qed.

Lemma option_list_map_spared f (o : option Controller) :
  (∀ c, agent_spared c → agent_spared (f c)) → Forall agent_spared (option_list o) →
  Forall agent_spared (option_list (f <$> o)).
Proof. intros Hf. destruct o as [c|]; simpl; [|done]. rewrite !Forall_singleton. apply Hf. Qed.

Lemma set_ctrl_next h c st cl :
  (spec_Persistent (ph_spec h) = true → Forall agent_spared (ctrls h) →
   Forall agent_spared (option_list c ++ option_list st ++ cl)) → handle_next h (set_ctrl h c st cl).
Proof. intros H. by apply handle_next_intro. Qed.

Lemma SendPTY_handle s c t b : ct_handle (SendPTY s c t b).1 = ct_handle c.
Proof.
  unfold SendPTY. destruct (ct_conn c); [|done]. by destruct (SendWithNewSeq _ _ _ _ _) as [[]].
Qed.

Lemma send_pty_next {A} `{!Codec A} s t (p : A) h : handle_next h (send_pty s t p h).1.
Proof.
  unfold send_pty. destruct (spec_PTY _); [|done]. destruct (ph_ctrl h) as [c|] eqn:Ec; [|done].
  destruct (EncodePayload p) as [b|]; [|done].
  pose proof (SendPTY_handle s c t b) as Hh. destruct (SendPTY s c t b) as [c' e]. simpl in *.
  apply set_ctrl_next. intros _. unfold ctrls. rewrite Ec, !Forall_app. simpl. rewrite !Forall_singleton.
  unfold agent_spared. by rewrite Hh.
Qed.

Lemma Start_begin_next rd oc dw s sock wal wf h :
  ph_starting h = None → handle_next h (Handle_Start_begin rd oc dw s sock wal wf h).1.1.1.
Proof.
  intros Hst. unfold Handle_Start_begin. destruct (ph_ctrl h) eqn:Ec; [done|].
  destruct (newController _ _ _ _) as [c|]; [|done].
  destruct (Start_begin s sock wal wf _) as [[c2 []] evs] eqn:E; [|done]. destruct a.
  apply set_ctrl_next. intros _. unfold ctrls. rewrite Ec, Hst. simpl. intros H. constructor; [|done].
  by eapply Start_begin_spared.
Qed.

Lemma Start_end_next s k a b d h h' r dropped evs :
  Handle_Start_end s k a b d h = Some (h', r, dropped, evs) → handle_next h h'.
Proof.
  unfold Handle_Start_end. destruct (ph_starting h) as [c|] eqn:Es; [|done].
  destruct (Start_finish s k c) as [[[c' []] evs']|] eqn:Ef; intros; [|simplify_eq|done].
  - destruct a0. destruct (_ && _); simplify_eq; apply set_ctrl_next; intros _; unfold ctrls; rewrite Es, !Forall_app.
    + naive_solver.
    + simpl. rewrite !Forall_singleton. intros (_ & Hc & Hcl). split_and!; [|done|done].
      by eapply Start_finish_spared.
  - apply set_ctrl_next. intros _. unfold ctrls. rewrite Es, !Forall_app. naive_solver.
Qed.

Lemma Close_begin_next h : handle_next h (Handle_Close_begin h).
Proof.
  unfold Handle_Close_begin. destruct (ph_ctrl h) as [c|] eqn:Ec; [|done].
  apply set_ctrl_next. intros _. unfold ctrls. rewrite Ec, !Forall_app. simpl. rewrite Forall_singleton. naive_solver.
Qed.

(** Ending a [Close]: the books stay right, and a persistent agent lives on. *)
Lemma Close_end_next k a b d h :
  handle_next h (Handle_Close_end k a b d h).1 ∧
  (handle_ok h → spec_Persistent (ph_spec h) = true →
   ∀ c, (Handle_Close_end k a b d h).2 = Some c → agent_spared c).
Proof.
  unfold Handle_Close_end. destruct (ph_closing h !! k) as [c|] eqn:Ek; [|done]. split.
  - apply handle_next_intro; [done|]. intros _. unfold ctrls. simpl. rewrite !Forall_app.
    intros (H1 & H2 & H3). split_and!; try done. by apply Forall_delete.
  - intros Hok Hp c' [= <-]. rewrite Hp. apply close_ctrl_spared. specialize (Hok Hp).
    unfold ctrls in Hok. rewrite !Forall_app in Hok. destruct Hok as (_ & _ & Hok).
    rewrite Forall_lookup in Hok. eauto.
Qed.

Lemma Handle_Stop_next s h : handle_next h (Handle_Stop s h).1.1.
Proof.
  unfold Handle_Stop. destruct (ph_ctrl h) as [c|] eqn:Ec; [|done].
  pose proof (Stop_handle s c) as Hh. destruct (Stop s c) as [[c' r] evs]. simpl in *.
  apply set_ctrl_next. intros _. unfold ctrls. rewrite Ec, !Forall_app. simpl. rewrite !Forall_singleton.
  unfold agent_spared. by rewrite Hh.
Qed.

(** ** The manager's invariant *)

(** Process [id] is registered and not persistent. *)
Definition ephemeral (m : Manager) (id : string) : Prop :=
  ∃ h, m_handles m !! id = Some h ∧ spec_Persistent (ph_spec h) = false.

Record mgr_inv (m : Manager) (evs : list mgr_event) : Prop := mkMgrInv {
  mi_seen : ∀ id, seen_ok (default zero_seen (m_seen m !! id)) (omap (kind_of id) evs);
  mi_handles : ∀ id h, m_handles m !! id = Some h → handle_ok h;
  mi_killed : ∀ id, MReleased id true ∈ evs → ephemeral m id;
  mi_stops : ∀ id, MShutStop id ∈ evs ∨ ShutStop id ∈ m_shutdown m → ephemeral m id }.

(** The outputs a step on handle [id] may have. *)
Definition outputs_ok (id : string) (h : processHandle) (es : list mgr_event) : Prop :=
  Forall (λ e, match e with
               | MPublished _ => False
               | MStopped _ => True
               | MReleased i killed => i = id ∧ (killed = true → spec_Persistent (ph_spec h) = false)
               | MShutStop i => i = id ∧ spec_Persistent (ph_spec h) = false
               end) es.

(** Every registered handle stays registered under its spec. *)
Definition registry_keeps (m m' : Manager) : Prop :=
  ∀ id h, m_handles m !! id = Some h → ∃ h', m_handles m' !! id = Some h' ∧ ph_spec h' = ph_spec h.

Lemma ephemeral_keeps m m' id : registry_keeps m m' → ephemeral m id → ephemeral m' id.
Proof. intros Hk (h & Hh & Hp). destruct (Hk _ _ Hh) as (h' & ? & Hs). exists h'. by rewrite Hs. Qed.

Lemma on_handle_keeps m id f :
  (∀ h, m_handles m !! id = Some h → ph_spec (f h).1 = ph_spec h) → registry_keeps m (on_handle m id f).1.
Proof.
  intros Hf id' h' Hh. unfold on_handle. destruct (m_handles m !! id) as [h|] eqn:E; [|by eauto].
  specialize (Hf h eq_refl). destruct (f h) as [h1 es]. simpl in *. destruct (decide (id = id')) as [->|].
  - exists h1. rewrite lookup_insert_eq. split; [done|]. congruence.
  - exists h'. by rewrite lookup_insert_ne.
Qed.

Lemma kinds_quiet id h es id' : outputs_ok id h es → omap (kind_of id') es = [].
Proof. intros H. induction H as [|e es He H IH]; [done|]. by destruct e. Qed.

Lemma on_handle_inv m evs id f :
  mgr_inv m evs →
  (∀ h, m_handles m !! id = Some h → handle_next h (f h).1 ∧ (handle_ok h → outputs_ok id h (f h).2)) →
  mgr_inv (on_handle m id f).1 (evs ++ (on_handle m id f).2).
Proof.
  intros [H1 H2 H3 H4] Hf.
  assert (registry_keeps m (on_handle m id f).1) as Hk by (apply on_handle_keeps; intros h Hh; by apply Hf).
  unfold on_handle in *. destruct (m_handles m !! id) as [h|] eqn:E; [|by rewrite app_nil_r; split].
  destruct (Hf h eq_refl) as [[Hspec Hok] Hout]. specialize (Hout (H2 _ _ E)).
  destruct (f h) as [h' es]. simpl in *.
  assert (∀ i k, MReleased i k ∈ es → k = true → ephemeral m i) as Hr.
  { intros i k Hin ->. unfold outputs_ok in Hout. rewrite Forall_forall in Hout.
    destruct (Hout _ Hin) as [-> Hp]. exists h. auto. }
  assert (∀ i, MShutStop i ∈ es → ephemeral m i) as Hs.
  { intros i Hin. unfold outputs_ok in Hout. rewrite Forall_forall in Hout.
    destruct (Hout _ Hin) as [-> Hp]. exists h. auto. }
  split; simpl.
  - intros id'. rewrite omap_app, (kinds_quiet id h es id' Hout), app_nil_r. apply H1.
  - intros id' h0 [[<- <-]|[_ Hh]]%lookup_insert_Some; [by apply Hok, (H2 id)|by apply (H2 id')].
  - intros id' [Hin|Hin]%elem_of_app; eapply ephemeral_keeps; eauto.
  - intros id' [[Hin|Hin]%elem_of_app|Hin]; eapply ephemeral_keeps; eauto.
Qed.

(** A step that leaves handles and the watcher alone. *)
Lemma mgr_inv_same m m' evs :
  mgr_inv m evs → m_handles m' = m_handles m → m_seen m' = m_seen m →
  (∀ id, ShutStop id ∈ m_shutdown m' → ShutStop id ∈ m_shutdown m ∨ ephemeral m id) → mgr_inv m' (evs ++ []).
Proof.
  intros [H1 H2 H3 H4] Eh Es Ha. rewrite app_nil_r.
  assert (∀ id, ephemeral m id → ephemeral m' id) as Hk by (unfold ephemeral; by rewrite Eh).
  split; rewrite ?Eh, ?Es; try done.
  - intros id Hin. auto.
  - intros id [Hin|Hin]; [by apply Hk, H4; left|]. destruct (Ha id Hin); [apply Hk, H4; by right|auto].
Qed.

(** A new handle is registered. *)
Lemma mgr_inv_add m evs id h :
  mgr_inv m evs → m_handles m !! id = None → handle_ok h →
  mgr_inv (upd_handles m (<[id := h]> (m_handles m))) (evs ++ []).
Proof.
  intros [H1 H2 H3 H4] Hn Hok. rewrite app_nil_r.
  assert (∀ i, ephemeral m i → ephemeral (upd_handles m (<[id := h]> (m_handles m))) i) as Hk.
  { intros i (h' & Hh & Hp). exists h'. simpl. split; [|done]. rewrite lookup_insert_ne; [done|congruence]. }
  split; simpl; try done; eauto.
  intros id' h0 [[<- <-]|[_ Hh]]%lookup_insert_Some; [done|by apply (H2 id')].
Qed.

Lemma reattach_spared spec sock init rd wal wf oc dw hl c :
  NewControllerFromReattach spec sock init rd wal wf oc dw hl = Ok c → agent_spared c.
Proof.
  unfold NewControllerFromReattach. intros H. repeat case_match; simplify_eq/=; done.
Qed.

Lemma observe_step_inv m evs id now :
  mgr_inv m evs → mgr_inv (observe_step m id now).1 (evs ++ (observe_step m id now).2).
Proof.
  intros H. unfold observe_step. destruct (m_handles m !! id) as [h|]; [|by apply (mgr_inv_same m); auto].
  destruct (ph_starting h); [by apply (mgr_inv_same m); auto|].
  destruct (m_ended m); [by apply (mgr_inv_same m); auto|].
  set (st := st_State (Handle_Status h)). set (s := default zero_seen (m_seen m !! id)).
  pose proof (observe_ok id now st s (omap (kind_of id) evs) (mi_seen _ _ H id)) as Ho.
  pose proof (observe_id id now st s) as Hid. destruct (observe id now st s) as [s' es]. simpl in *.
  destruct H as [H1 H2 H3 H4].
  assert (∀ i k, MReleased i k ∈ MPublished <$> es → False) as Hr.
  { intros i k (e & ? & _)%list_elem_of_fmap. done. }
  assert (∀ i, MShutStop i ∈ MPublished <$> es → False) as Hs.
  { intros i (e & ? & _)%list_elem_of_fmap. done. }
  split; simpl; try done.
  - intros id'. rewrite omap_app, (kinds_of_other id' id es Hid). destruct (String.eqb_spec id id') as [<-|Hne].
    + by rewrite lookup_insert_eq.
    + rewrite lookup_insert_ne, app_nil_r by done. apply H1.
  - intros id' [Hin|Hin]%elem_of_app; [by apply H3|by destruct (Hr _ _ Hin)].
  - intros id' [[Hin|Hin]%elem_of_app|Hin]; [by apply H4; left|by destruct (Hs _ Hin)|by apply H4; right].
Qed.

Lemma ok_outputs_nil id h : outputs_ok id h [].
Proof. constructor. Qed.

Lemma released_ok id k a b d h :
  handle_next h (released id (Handle_Close_end k a b d h)).1 ∧
  (handle_ok h → outputs_ok id h (released id (Handle_Close_end k a b d h)).2).
Proof.
  destruct (Close_end_next k a b d h) as [Hn Hs].
  destruct (Handle_Close_end k a b d h) as [h' [c|]]; simpl in *; (split; [done|]); intros Hok; [|constructor].
  apply Forall_singleton. split; [done|]. rewrite bool_decide_eq_true. intros Hc.
  destruct (spec_Persistent (ph_spec h)) eqn:Ep; [|done]. by destruct (Hs Hok eq_refl c eq_refl).
Qed.

Lemma is_persistent_ephemeral m id : id ∈ dom (m_handles m) → is_persistent m id = false → ephemeral m id.
Proof.
  intros [h Hh]%elem_of_dom. unfold is_persistent. rewrite Hh. intros. by exists h.
Qed.

Lemma Shutdown_begin_inv m evs order :
  mgr_inv m evs → list_to_set order =@{gset string} dom (m_handles m) →
  mgr_inv (Shutdown_begin order m) (evs ++ []).
Proof.
  intros H Hset. unfold Shutdown_begin. destruct (m_closed m); [by apply (mgr_inv_same m); auto|].
  apply (mgr_inv_same m); try done. simpl. intros id [Hin|Hin]%elem_of_app.
  - apply list_elem_of_fmap in Hin as (i & [= <-] & Hi). apply list_elem_of_filter in Hi as [Hp Hi]. right.
    apply is_persistent_ephemeral; [|done]. rewrite <- Hset. by apply elem_of_list_to_set.
  - apply list_elem_of_bind in Hin as (i & Hin & _). set_solver.
Qed.

Lemma Shutdown_step_inv s a b d m evs :
  mgr_inv m evs → mgr_inv (Shutdown_step s a b d m).1 (evs ++ (Shutdown_step s a b d m).2).
Proof.
  intros H. unfold Shutdown_step. destruct (m_shutdown m) as [|act acts] eqn:Ea; [by apply (mgr_inv_same m); auto|].
  set (m1 := upd_shut m (m_closed m) acts (m_ended m) (m_bus m)).
  assert (mgr_inv m1 evs) as H1.
  { rewrite <- (app_nil_r evs). apply (mgr_inv_same m); try done. rewrite Ea. simpl. set_solver. }
  destruct act as [id|id|id].
  - assert (ephemeral m id) as (h0 & Hh0 & Hp) by (apply (mi_stops _ _ H); right; rewrite Ea; left).
    apply on_handle_inv; [done|]. intros h Hh. simpl in Hh. assert (h0 = h) as <- by congruence.
    pose proof (Handle_Stop_next s h0). destruct (Handle_Stop s h0) as [[h' r] es]. simpl in *.
    split; [done|]. intros _. by apply Forall_singleton.
  - apply on_handle_inv; [done|]. intros h Hh. split; [apply Close_begin_next|intros _; apply ok_outputs_nil].
  - apply on_handle_inv; [done|]. intros h Hh. apply released_ok.
Qed.

Lemma Register_inv m evs spec : mgr_inv m evs → mgr_inv (Register m spec).1 (evs ++ []).
Proof.
  intros H. unfold Register. destruct (CwTypes.Validate spec); [by apply (mgr_inv_same m); auto|].
  destruct (m_closed m); [by apply (mgr_inv_same m); auto|].
  destruct (m_handles m !! spec_ID spec) eqn:E; [by apply (mgr_inv_same m); auto|].
  apply mgr_inv_add; try done. intros _. constructor.
Qed.

Lemma Reattach_cases m fs alive dial wal wf :
  (Reattach m fs alive dial wal wf).1 = m ∨
  ∃ meta c, m_handles m !! pm_ID meta = None ∧ agent_spared c ∧
    (Reattach m fs alive dial wal wf).1 =
    upd_handles m (<[pm_ID meta := new_handle (pm_Spec meta) (Some c)]> (m_handles m)).
Proof.
  unfold Reattach. repeat case_match; simplify_eq; auto.
  right. eexists _, _. split_and!; [done| |done]. by eapply reattach_spared.
Qed.

Lemma Reattach_inv m evs fs alive dial wal wf :
  mgr_inv m evs → mgr_inv (Reattach m fs alive dial wal wf).1 (evs ++ []).
Proof.
  intros H. destruct (Reattach_cases m fs alive dial wal wf) as [->|(meta & c & Hn & Hc & ->)].
  - by apply (mgr_inv_same m); auto.
  - apply mgr_inv_add; try done. intros _. by repeat constructor.
Qed.

Lemma Handle_OnStateChange_next h cb : handle_next h (Handle_OnStateChange h cb).
Proof.
  apply handle_next_intro; [done|]. intros _. unfold ctrls. simpl. rewrite !Forall_app.
  intros (H1 & H2 & H3). split_and!; try done. apply option_list_map_spared; [|done]. by intros c.
Qed.

Lemma live_next h ctrl_side op :
  handle_next h
    (if ctrl_side : bool
     then set_ctrl h ((λ c, live_step c op) <$> ph_ctrl h) (ph_starting h) (ph_closing h)
     else set_ctrl h (ph_ctrl h) ((λ c, live_step c op) <$> ph_starting h) (ph_closing h)).
Proof.
  assert (∀ c, agent_spared c → agent_spared (live_step c op)) as Hl.
  { intros c. unfold agent_spared. by rewrite live_step_handle. }
  destruct ctrl_side; apply set_ctrl_next; intros _; unfold ctrls; rewrite !Forall_app;
    intros (H1 & H2 & H3); split_and!; auto using option_list_map_spared.
Qed.

Lemma WriteInput_next s b h : handle_next h (WriteInput s b h).1.
Proof.
  unfold WriteInput. destruct (spec_PTY _) eqn:Ep; [|apply send_pty_next].
  destruct (ph_ctrl h) eqn:Ec; [|apply send_pty_next].
  set (h1 := mkPH _ _ _ _ _ _ _).
  destruct (send_pty_next s MsgTypePTYWrite (mkPTYWrite (u64 (ph_nextSeq h + 1)) b) h1) as [Hs Hok].
  split; [done|]. intros H. apply Hok. intros Hp. specialize (H Hp). unfold ctrls in *. simpl in *. by rewrite Ec in H.
Qed.

Lemma SubscribePTY_next h : handle_next h (Handle_SubscribePTYData h).1.
Proof.
  unfold Handle_SubscribePTYData. destruct (spec_PTY _); [|done]. destruct (ph_ctrl h) as [c|] eqn:Ec; [|done].
  destruct (SubscribePTYData (ct_pty c)) as [q a]. apply set_ctrl_next. intros _. unfold ctrls. rewrite Ec, !Forall_app. simpl. by rewrite !Forall_singleton.
Qed.

(** Steps on one handle without outputs. *)
Lemma quiet_step_inv m evs id f :
  mgr_inv m evs → (∀ h, m_handles m !! id = Some h → handle_next h (f h)) →
  mgr_inv (on_handle m id (λ h, (f h, []))).1 (evs ++ (on_handle m id (λ h, (f h, []))).2).
Proof. intros H Hf. apply on_handle_inv; [done|]. intros h Hh. split; [by apply Hf|intros _; apply ok_outputs_nil]. Qed.

Lemma mgr_step_inv m evs op : mgr_inv m evs → mgr_inv (mgr_step m op).1 (evs ++ (mgr_step m op).2).
Proof.
  intros H. unfold mgr_step. destruct (lock_waits m op); [by rewrite app_nil_r|]. destruct op; cbn [mgr_act].
  - by apply Register_inv.
  - by apply Reattach_inv.
  - apply (quiet_step_inv _ _ _ (λ h, Handle_OnStateChange h cb)); [done|]. intros; apply Handle_OnStateChange_next.
  - apply on_handle_inv; [done|]. intros h _. destruct (ph_starting h) eqn:Es.
    + split; [apply handle_next_refl|intros _; apply ok_outputs_nil].
    + split; [by apply Start_begin_next|intros _; apply ok_outputs_nil].
  - apply on_handle_inv; [done|]. intros h _. destruct (Handle_Start_end s k a b d h) as [[[[h' r] dr] es]|] eqn:E.
    + split; [by eapply Start_end_next|intros _; apply ok_outputs_nil].
    + split; [apply handle_next_refl|intros _; apply ok_outputs_nil].
  - apply on_handle_inv; [done|]. intros h _. split; [apply (live_next h false op)|intros _; apply ok_outputs_nil].
  - apply on_handle_inv; [done|]. intros h _. split; [apply (live_next h true op)|intros _; apply ok_outputs_nil].
  - apply on_handle_inv; [done|]. intros h _. split; [apply Handle_Stop_next|]. intros _. by apply Forall_singleton.
  - apply on_handle_inv; [done|]. intros h _. split; [apply WriteInput_next|intros _; apply ok_outputs_nil].
  - apply on_handle_inv; [done|]. intros h _. split; [apply send_pty_next|intros _; apply ok_outputs_nil].
  - apply on_handle_inv; [done|]. intros h _. split; [apply send_pty_next|intros _; apply ok_outputs_nil].
  - apply on_handle_inv; [done|]. intros h _. split; [apply SubscribePTY_next|intros _; apply ok_outputs_nil].
  - apply on_handle_inv; [done|]. intros h _. split; [apply Close_begin_next|intros _; apply ok_outputs_nil].
  - apply on_handle_inv; [done|]. intros h _. apply released_ok.
  - by apply observe_step_inv.
  - case_bool_decide as Ho; [|by apply (mgr_inv_same m); auto]. by apply Shutdown_begin_inv; [|apply Ho].
  - by apply Shutdown_step_inv.
  - unfold Shutdown_end. destruct (m_shutdown m) eqn:E; [|by apply (mgr_inv_same m); auto].
    destruct (m_closed m); [|by apply (mgr_inv_same m); auto]. apply (mgr_inv_same m); try done. simpl. set_solver.
Qed.

(** The manager's invariant along a run from a fresh manager. *)
Lemma mgr_run_inv home o m0 ops :
  NewManager home o = Ok m0 →
  let '(m, evs) := run_trace mgr_step m0 ops in mgr_inv m evs.
Proof.
  unfold NewManager. intros H. destruct (String.eqb (mo_agentPath o) ""); [done|].
  destruct (String.eqb (mo_runtimeDir o) ""); [done|]. injection H as <-.
  match goal with |- context [run_trace mgr_step ?x ops] => set (m0 := x) end.
  assert (mgr_inv m0 []) as H0.
  { split; simpl; try done; try set_solver; intros id; rewrite lookup_empty; by split. }
  apply (run_trace_inv mgr_step mgr_inv (λ _, True) (λ m evs op H _, mgr_step_inv m evs op H) ops m0 [] H0).
  by apply Forall_true.
Qed.

(** ** Properties *)

(** C21: the life-cycle events of a process.  In every run of the manager, the
    events published for one process are, in order: nothing, Starting, or
    Starting, Started and then at most one Stopped and one Crashed; and the
    state the watcher saw last has been announced. *)
Theorem process_events_ordered (home : string) (o : ManagerOptions) (m0 : Manager) (ops : list mgr_op) (id : string)
    (Hnew : NewManager home o = Ok m0) :
  let '(m, evs) := run_trace mgr_step m0 ops in
  let events := omap (kind_of id) evs in
  well_ordered events ∧
  match hs_lastState (default zero_seen (m_seen m !! id)) with
  | StateStarting => KStarting ∈ events
  | StateRunning => KStarted ∈ events
  | StateStopped => KStopped ∈ events
  | StateCrashed => KCrashed ∈ events
  | _ => True
  end.
Proof.
  pose proof (mgr_run_inv _ _ _ ops Hnew) as H. destruct (run_trace mgr_step m0 ops) as [m evs].
  destruct (mi_seen _ _ H id). by split.
Qed.

(** C12: persistent sessions outlive the manager.  In every run, whatever the
    interleaving of calls, messages, disconnects, closes and a shutdown: an
    agent is terminated by releasing its handle, and a stop is sent by
    [Shutdown], only for a registered process that is not persistent. *)
Theorem shutdown_spares_persistent (home : string) (o : ManagerOptions) (m0 : Manager) (ops : list mgr_op) (id : string)
    (Hnew : NewManager home o = Ok m0) :
  let '(m, evs) := run_trace mgr_step m0 ops in
  MReleased id true ∈ evs ∨ MShutStop id ∈ evs →
  ∃ h, m_handles m !! id = Some h ∧ spec_Persistent (ph_spec h) = false.
Proof.
  pose proof (mgr_run_inv _ _ _ ops Hnew) as H. destruct (run_trace mgr_step m0 ops) as [m evs].
  intros [Hr|Hs]; [by apply (mi_killed _ _ H)|apply (mi_stops _ _ H); by left].
Qed.
End Handles.

Module ManagerExample.
#[local] Instance ex_codec {A} : Codec A := echo_codec.
#[local] Instance cap_codec : Codec CapabilityReply := const_codec (mkCapabilityReply ["persistence"%string]).

Definition ex_options : ManagerOptions :=
  WithoutWAL (WithAgentOutboxCapacity 4096 (WithRuntimeDir "/run" (WithAgentPath "/agent" no_options))).
Definition ex_mgr : Manager :=
  mkMgr (mkSpawnerOptions "/agent" "/run" ["CLIWRAP_AGENT_OUTBOX_CAPACITY=4096"%string]) "/run"
    "/h/.cliwrap/sessions" 0 true ∅ false ∅ None [] false.
Lemma ex_new : NewManager "/h" ex_options = Ok ex_mgr.
Proof. reflexivity. Qed.
Definition ex_os : os_answers := mkOS [] true true true (Some 42) (Some true).
Definition ex_sock : Reader * Writer := (mkReader [] EOF, mkWriter [] None).
Definition ex_persistent : Spec := SpecBuilder.apply (SpecBuilder.NewSpec "q" "sh" []) SpecBuilder.Persistent.

(** Two processes are started, one persistent; the other one crashes; the
    manager shuts down. *)
Definition ex_ops : list mgr_op :=
  [MRegister (SpecBuilder.NewSpec "p" "cat" []); MRegister ex_persistent;
   MStartBegin "p" alone ex_os ex_sock None false; MStartEnd "p" alone CaseDeadline false false false;
   MLive "p" (LiveMessage (mkMsg (mkHeader MsgChildStarted 0 1 0) [])); MObserve "p" 10;
   MStartBegin "q" alone ex_os ex_sock None false;
   MStarting "q" (LiveMessage (mkMsg (mkHeader MsgTypeCapabilityReply 0 1 0) []));
   MStartEnd "q" alone CaseReply false false false;
   MLive "p" LiveDisconnect; MObserve "p" 20;
   MShutdown ["p"; "q"];
   MShutStep alone false false false; MShutStep alone false false false; MShutStep alone false false false;
   MShutStep alone false false false; MShutStep alone false false false; MShutEnd]%string.

Lemma process_events_ordered_witness :
  (let '(m, evs) := run_trace mgr_step ex_mgr ex_ops in
   let events := omap (kind_of "p") evs in
   well_ordered events ∧
   match hs_lastState (default zero_seen (m_seen m !! "p"%string)) with
   | StateStarting => KStarting ∈ events
   | StateRunning => KStarted ∈ events
   | StateStopped => KStopped ∈ events
   | StateCrashed => KCrashed ∈ events
   | _ => True
   end) ∧
  omap (kind_of "p") (run_trace mgr_step ex_mgr ex_ops).2 = [KStarting; KStarted; KCrashed].
Proof.
  split; [|vm_compute; reflexivity].
  pose proof (process_events_ordered "/h" ex_options ex_mgr ex_ops "p" ex_new) as H. exact H.
Defined.

Definition ex_released (e : mgr_event) : option (string * bool) :=
  match e with MReleased i killed => Some (i, killed) | _ => None end.
Definition is_stop_p (e : mgr_event) : bool :=
  match e with MShutStop i => String.eqb i "p" | _ => false end.

Lemma shutdown_spares_persistent_witness :
  (∃ h, m_handles (run_trace mgr_step ex_mgr ex_ops).1 !! "p"%string = Some h ∧
     spec_Persistent (ph_spec h) = false) ∧
  omap ex_released (run_trace mgr_step ex_mgr ex_ops).2 = [("p", true); ("q", false)]%string.
Proof.
  split; [|vm_compute; reflexivity].
  pose proof (shutdown_spares_persistent "/h" ex_options ex_mgr ex_ops "p" ex_new) as H.
  assert (existsb is_stop_p (run_trace mgr_step ex_mgr ex_ops).2 = true) as Hx by (vm_compute; reflexivity).
  destruct (run_trace mgr_step ex_mgr ex_ops) as [m evs]. apply H. right.
  apply existsb_exists in Hx as (e & Hin & He). destruct e as [| | |i]; try discriminate He.
  apply String.eqb_eq in He as ->. by apply list_elem_of_In.
Defined.
End ManagerExample.
