(* ===== verification/AgentMain.v ===== *)
(** * The agent process: cmd/cliwrap-agent/main.go and internal/agent/main.go

    Flags and environment, the start-up sequence of [Run] with its error
    paths, and its life until it returns: the dispatcher's goroutines and the
    reattach handler run while the main goroutine waits for a signal or for
    the shutdown request, drains the runners and closes the connection. *)

From S2P Require Import Prelude Text Frame Seq Outbox Wal Spiller Message Conn RingBuffer CwTypes.
From S2P Require Import Controller Supervise Agent Collectors Manager.

(** ** Configuration *)

Record AgentConfig := mkAgentConfig {
  ac_IPCFD : Z; ac_AgentID : string; ac_RuntimeDir : string; ac_OutboxCapacity : Z; ac_WALBytes : Z;
  ac_MaxRecvPayload : Z; ac_Persistent : bool }.

(** [os.Getenv]: the empty string when unset. *)
Definition Getenv (env : list string) (k : string) : string := default "" (getenv env k).

Definition DefaultConfig (env : list string) : AgentConfig :=
  mkAgentConfig 3 (Getenv env "CLIWRAP_AGENT_ID") (Getenv env "CLIWRAP_AGENT_RUNTIME")
    (let v := Getenv env "CLIWRAP_AGENT_OUTBOX_CAPACITY" in
     if String.eqb v "" then 1024
     else let '(n, ok) := atoi (chars v) in if ok && (0 <? n) then n else 1024)
    (256 * 1024 * 1024) MaxPayloadSize false.

(** [run] of the command: the flag, and the signals that end the context. *)
Inductive os_signal := SIGINT | SIGTERM | SIGHUP.
Definition persistent_flag (args : list string) : bool := existsb (String.eqb "--persistent") args.
Definition notify_signals (persistent : bool) : list os_signal :=
  [SIGINT; SIGTERM] ++ (if persistent then [] else [SIGHUP]).
Definition main_config (args env : list string) : AgentConfig :=
  let c := DefaultConfig env in
  mkAgentConfig (ac_IPCFD c) (ac_AgentID c) (ac_RuntimeDir c) (ac_OutboxCapacity c) (ac_WALBytes c) (ac_MaxRecvPayload c)
    (persistent_flag args).

(** The defaults [Run] fills in. *)
Definition resolve_config (pid : Z) (tempdir : string) (c : AgentConfig) : AgentConfig :=
  let id := if String.eqb (ac_AgentID c) "" then "agent-" +:+ pretty pid else ac_AgentID c in
  let dir := if String.eqb (ac_RuntimeDir c) "" then path_join [tempdir; "cliwrap-agent-" +:+ id] else ac_RuntimeDir c in
  mkAgentConfig (ac_IPCFD c) id dir (ac_OutboxCapacity c) (ac_WALBytes c) (ac_MaxRecvPayload c) (ac_Persistent c).

(** ** Start-up *)

Inductive main_err :=
| ErrMkdirRuntime | ErrNoSessionDir | ErrInit (e : init_err) | ErrFD | ErrAgentFileConn | ErrIpc (e : conn_err)
| ErrHello (e : codec_err).

(** What the system answers: the runtime directory, the session, the inherited
    descriptor, its two directions as a connection, the log under outbox. *)
Record main_answers := mkMainAnswers {
  ma_pid : Z; ma_tempdir : string; ma_now : Z; ma_mkdir : bool; ma_init : init_answers; ma_fd : bool;
  ma_rwc : option (Reader * Writer); ma_wal : option bytes; ma_walFails : bool }.

Inductive main_phase := MnWaiting | MnDraining | MnClosing | MnReturned.
#[global] Instance main_phase_dec : EqDecision main_phase.
Proof. solve_decision. Defined.

(** [mn_files]: the session directory of a persistent agent. *)
Record main_state := mkMain {
  mn_cfg : AgentConfig; mn_disp : Dispatcher; mn_pst : option persistentState; mn_startedAt : Z;
  mn_ctx : bool; mn_phase : main_phase }.

Section Main.
Context `{!Codec HelloAckPayload, !Codec AckPayload, !Codec ChildErrorPayload, !Codec CapabilityReply,
          !Codec ChildStartedPayload, !Codec ChildExitedPayload, !Codec LogChunkPayload,
          !Codec Message.PTYData, !Codec StartChildPayload, !Codec StopChildPayload, !Codec PTYWrite,
          !Codec PTYResize, !Codec PTYSignal, !Codec HelloPayload, !Codec PTYRingDumpPayload} (err_text : codec_err → string).

Definition conn_config (c : AgentConfig) (rwc : Reader * Writer) (wal : option bytes) (walFails : bool) : ConnConfig :=
  mkConnConfig (Some rwc) wal walFails (ac_OutboxCapacity c) (ac_WALBytes c) false (ac_MaxRecvPayload c).

Definition session_spec (id : string) : Spec :=
  mkSpec id "" "" [] ∅ "" RestartNever 0 0 0 StdinNone None zero_limits zero_log_options None true 0.

(** The dispatcher as [Run] wires it. *)
Definition wire_dispatcher (c : Conn) (dir : string) (pst : option persistentState) : Dispatcher :=
  match pst with
  | None => NewDispatcher c
  | Some p =>
      SetPersistentRingBuffer (SetPersistentSessionDir (SetPersistentShutdown (NewDispatcher c)) dir (sf_meta (pst_files p)))
        (Some (pst_ring p))
  end.

(** What happens after the session exists; every error path closes the session. *)
Definition run_connect (s : enq_sched) (cfg : AgentConfig) (dir : string) (a : main_answers) (pst : option persistentState)
    : result main_err main_state :=
  if negb (ma_fd a) then Err ErrFD
  else match ma_rwc a with
  | None => Err ErrAgentFileConn
  | Some rwc =>
      match NewConn (conn_config cfg rwc (ma_wal a) (ma_walFails a)) with
      | Err e => Err (ErrIpc e)
      | Ok conn =>
          let d := wire_dispatcher (Conn.Start (OnMessage conn true)) dir pst in
          match EncodePayload (mkHello ProtocolVersion (ac_AgentID cfg) (ma_now a)) with
          | Err e => Err (ErrHello e)
          | Ok data =>
              let '(c, _, _) := SendWithNewSeq s (d_conn d) MsgHello 0 data in
              Ok (mkMain cfg (upd_conn d c) pst (ma_now a) false MnWaiting)
          end
      end
  end.

(** [Run] up to its [select], with the files of the session directory. *)
Definition Run_begin (s : enq_sched) (env : list string) (c0 : AgentConfig) (a : main_answers) (fs : session_files)
    : session_files * result main_err main_state :=
  let cfg := resolve_config (ma_pid a) (ma_tempdir a) c0 in
  if negb (ma_mkdir a) then (fs, Err ErrMkdirRuntime)
  else if ac_Persistent cfg then
    let dir := Getenv env "CLIWRAP_SESSION_DIR" in
    if String.eqb dir "" then (fs, Err ErrNoSessionDir)
    else match initPersistent dir (ac_AgentID cfg) (session_spec (ac_AgentID cfg)) (ma_now a) (ma_now a) (ma_pid a) (ma_init a) fs with
    | (fs', Err e) => (fs', Err (ErrInit e))
    | (_, Ok p) =>
        match run_connect s cfg dir a (Some p) with
        | Ok st => (pst_files p, Ok st)
        | Err e => (pst_files (Persistent_Close p), Err e)
        end
    end
  else (fs, run_connect s cfg "" a None).

(** ** Until [Run] returns *)

Inductive main_event := MA (e : agent_event) | MWoken (by_ctx : bool) | MDrained (ok : bool) | MClosed | MReturn
| MAttached | MRejected | MDetached.

Inductive main_op :=
| MnAgent (op : agent_op)
| MnSignal                               (** the context ends *)
| MnWake (pick_ctx : bool)
| MnDrain (timeout pick_done : bool)     (** [timeout]: the 2.5 s are over *)
| MnClose
| MnAccept (w : Writer) (rwc : Reader) (wal : option bytes) (walFails : bool)
| MnDetach.

Definition set_disp (st : main_state) (d : Dispatcher) (p : option persistentState) : main_state :=
  mkMain (mn_cfg st) d p (mn_startedAt st) (mn_ctx st) (mn_phase st).
Definition set_main (st : main_state) (ctx : bool) (ph : main_phase) : main_state :=
  mkMain (mn_cfg st) (mn_disp st) (mn_pst st) (mn_startedAt st) ctx ph.

(** The ring of the session is the one the dispatcher's runner writes, and its
    meta.json the one the dispatcher updates. *)
Definition with_disp (d : Dispatcher) (p : persistentState) : persistentState :=
  let fs := pst_files p in
  mkPersistent (mkFiles (d_meta d) (sf_pid fs) (sf_sock fs) (sf_attached fs)) (pst_listening p) (pst_attached p) (default (pst_ring p) (d_ring d)).

(** One accepted connection: the attach lock, the handshake, a connection that
    becomes the dispatcher's; an error releases the lock. *)
Definition attach (st : main_state) (p : persistentState) (w : Writer) (r : Reader) (wal : option bytes) (walFails : bool)
    : main_state * list main_event :=
  match accept_conn (with_disp (mn_disp st) p) w with
  | (p1, _, false) => (set_disp st (mn_disp st) (Some p1), [MRejected])
  | (p1, _, true) =>
      match writeReattachHandshake p1 w (ac_AgentID (mn_cfg st)) (mn_startedAt st) with
      | (_, Some _) => (set_disp st (mn_disp st) (Some (markDetached p1)), [])
      | (w', None) =>
          match NewConn (conn_config (mn_cfg st) (r, w') wal walFails) with
          | Err _ => (set_disp st (mn_disp st) (Some (markDetached p1)), [])
          | Ok c => (set_disp st (AdoptConn (mn_disp st) (Conn.Start c) false false false).1 (Some p1), [MAttached])
          end
      end
  end.

(** The deferred [pst.Close] runs when [Run] returns. *)
Definition main_step (st : main_state) (op : main_op) : main_state * list main_event :=
  match mn_phase st, op with
  | MnReturned, _ => (st, [])
  | _, MnAgent op =>
      let '(d, evs) := agent_step err_text (mn_disp st) op in (set_disp st d (mn_pst st), MA <$> evs)
  | _, MnSignal => (set_main st true (mn_phase st), [])
  | MnWaiting, MnWake pick_ctx =>
      let req := match d_shutdownReq (mn_disp st) with Some true => true | _ => false end in
      match mn_ctx st, req with
      | false, false => (st, [])
      | c, r => (set_main st c MnDraining, [MWoken (c && (negb r || pick_ctx))])
      end
  | MnDraining, MnDrain timeout pick =>
      match Drain (mn_disp st) timeout pick with
      | None => (st, [])
      | Some ok => (set_main st (mn_ctx st) MnClosing, [MDrained ok])
      end
  | MnClosing, MnClose =>
      (mkMain (mn_cfg st) (mn_disp st) ((λ p, Persistent_Close (with_disp (mn_disp st) p)) <$> mn_pst st) (mn_startedAt st) (mn_ctx st) MnReturned, [MClosed; MReturn])
  | _, MnAccept w r wal walFails =>
      match mn_pst st with Some p => attach st p w r wal walFails | None => (st, []) end
  | _, MnDetach =>
      match mn_pst st with
      | Some p => if pst_attached p then (set_disp st (mn_disp st) (Some (markDetached p)), [MDetached]) else (st, [])
      | None => (st, [])
      end
  | _, _ => (st, [])
  end.

(** ** What a run shows *)

Definition agent_part (e : main_event) : option agent_event := match e with MA a => Some a | _ => None end.
Definition phase_part (e : main_event) : option main_event :=
  match e with MWoken _ | MDrained _ | MClosed | MReturn => Some e | _ => None end.
Definition attach_part (e : main_event) : option bool :=
  match e with MAttached => Some true | MDetached => Some false | _ => None end.
Definition agent_evs (evs : list main_event) : list agent_event := omap agent_part evs.

(** Attached and detached in turn, ending in [b]. *)
Fixpoint alternates (cur : bool) (l : list bool) (b : bool) : Prop :=
  match l with [] => cur = b | x :: l' => x = negb cur ∧ alternates x l' b end.

Definition phase_ok (ph : main_phase) (l : list main_event) : Prop :=
  match ph with
  | MnWaiting => l = []
  | MnDraining => ∃ b, l = [MWoken b]
  | MnClosing => ∃ b ok, l = [MWoken b; MDrained ok]
  | MnReturned => ∃ b ok, l = [MWoken b; MDrained ok; MClosed; MReturn]
  end.

Definition woken_ok (evs : list main_event) : Prop :=
  ∀ evs1 evs2, evs = evs1 ++ MWoken false :: evs2 → DShutdown ∈ agent_evs evs1.
Definition drained_ok (evs : list main_event) : Prop :=
  ∀ evs1 evs2, evs = evs1 ++ MDrained true :: evs2 → omap spawned (agent_evs evs1) = omap waited (agent_evs evs1).

Record main_inv (st : main_state) (evs : list main_event) : Prop := mkMainInv {
  mi_agent : agent_inv (mn_disp st) (agent_evs evs);
  mi_phase : phase_ok (mn_phase st) (omap phase_part evs);
  mi_woken : woken_ok evs;
  mi_drained : drained_ok evs;
  mi_attach : ∃ b, alternates false (omap attach_part evs) b ∧
                   match mn_pst st with Some p => mn_phase st ≠ MnReturned → pst_attached p = b | None => b = false end;
  mi_closed : mn_phase st = MnReturned → match mn_pst st with
              | Some p => pst_listening p = false ∧ sf_pid (pst_files p) = None ∧ sf_sock (pst_files p) = false
              | None => True end }.

(** An event of another kind does not add to what a property asks. *)
Lemma snoc_occurrence {A} (P : list A → Prop) (e : A) evs x :
  (∀ evs1 evs2, evs = evs1 ++ e :: evs2 → P evs1) → (x = e → P evs) →
  ∀ evs1 evs2, evs ++ [x] = evs1 ++ e :: evs2 → P evs1.
Proof.
  intros H Hx evs1 evs2 E. destruct evs2 as [|y evs2 _] using rev_ind.
  - apply app_inj_tail in E as [-> ->]. by apply Hx.
  - rewrite app_comm_cons, (assoc_L (++)) in E. apply app_inj_tail in E as [-> _]. eauto.
Qed.
Lemma app_occurrence {A} (P : list A → Prop) (e : A) evs es :
  (∀ evs1 evs2, evs = evs1 ++ e :: evs2 → P evs1) → e ∉ es →
  ∀ evs1 evs2, evs ++ es = evs1 ++ e :: evs2 → P evs1.
Proof.
  intros H. induction es as [|x es IH] using rev_ind; intros He; [by rewrite app_nil_r|].
  rewrite (assoc_L (++)). apply snoc_occurrence; [apply IH; set_solver|]. intros ->. set_solver.
Qed.

Lemma agent_evs_app evs es : agent_evs (evs ++ es) = agent_evs evs ++ agent_evs es.
Proof. apply omap_app. Qed.
Lemma agent_evs_MA es : agent_evs (MA <$> es) = es.
Proof. unfold agent_evs. induction es as [|e es IH]; [done|]. csimpl. by rewrite IH. Qed.
Lemma omap_MA {B} (f : main_event → option B) es : (∀ e, f (MA e) = None) → omap f (MA <$> es) = [].
Proof. intros Hf. induction es as [|e es IH]; [done|]. csimpl. by rewrite Hf. Qed.

(** Steps of the dispatcher and of the reattach handler keep the books of the
    main goroutine: [es] has none of its events. *)
Lemma main_inv_side st evs d p es :
  main_inv st evs → mn_phase st ≠ MnReturned → agent_inv d (agent_evs (evs ++ es)) →
  omap phase_part es = [] →
  (∀ b, alternates false (omap attach_part evs) b →
        match mn_pst st with Some p => pst_attached p = b | None => b = false end →
        ∃ b', alternates b (omap attach_part es) b' ∧ match p with Some p => pst_attached p = b' | None => b' = false end) →
  main_inv (set_disp st d p) (evs ++ es).
Proof.
  intros [H1 H2 H3 H4 (b & H5 & H5') H6] Hph Hd Hes Hatt.
  assert (∀ e, phase_part e = Some e → e ∉ es) as Hno.
  { intros e He Hin. apply list_elem_of_split in Hin as (l1 & l2 & ->). rewrite omap_app in Hes. csimpl in Hes.
    rewrite He in Hes. by destruct (omap phase_part l1). }
  split; simpl.
  - done.
  - by rewrite omap_app, Hes, app_nil_r.
  - refine (app_occurrence (λ l, DShutdown ∈ agent_evs l) (MWoken false) evs es H3 _). by apply Hno.
  - refine (app_occurrence (λ l, omap spawned (agent_evs l) = omap waited (agent_evs l)) (MDrained true) evs es H4 _).
    by apply Hno.
  - destruct (Hatt b H5) as (b' & Hb' & Hp); [destruct (mn_pst st); auto|]. exists b'. split; [|by destruct p].
    rewrite omap_app. clear -H5 Hb'. revert H5. generalize false as c. induction (omap attach_part evs) as [|x l IH]; intros c H5; simpl in *;
      [by subst|]. destruct H5 as [-> H5]. split; [done|by apply IH].
  - done.
Qed.

Lemma main_inv_agent st evs op :
  (∀ p : AckPayload, is_ok (EncodePayload p) = true) → main_inv st evs → mn_phase st ≠ MnReturned →
  let '(d, es) := agent_step err_text (mn_disp st) op in main_inv (set_disp st d (mn_pst st)) (evs ++ (MA <$> es)).
Proof.
  intros Hack Hi Hph. pose proof (agent_step_inv err_text (mn_disp st) (agent_evs evs) op Hack (mi_agent _ _ Hi)) as Hd.
  destruct (agent_step err_text (mn_disp st) op) as [d es]. apply main_inv_side; [done|done| | |].
  - by rewrite agent_evs_app, agent_evs_MA.
  - by apply omap_MA.
  - intros b _ Hb. exists b. rewrite omap_MA by done. split; [done|]. by destruct (mn_pst st).
Qed.

Lemma main_inv_quiet st evs d p es :
  main_inv st evs → mn_phase st ≠ MnReturned → core d = core (mn_disp st) → agent_evs es = [] → omap phase_part es = [] →
  (∀ b, match mn_pst st with Some p => pst_attached p = b | None => b = false end →
        ∃ b', alternates b (omap attach_part es) b' ∧ match p with Some p => pst_attached p = b' | None => b' = false end) →
  main_inv (set_disp st d p) (evs ++ es).
Proof.
  intros Hi Hph Hc He Hp Hatt. apply main_inv_side; [done|done| |done|by intros b _; apply Hatt].
  rewrite agent_evs_app, He. apply (inv_core (mn_disp st)); [apply Hi|done|apply quiet_none].
Qed.

Lemma main_inv_attach st evs p w r wal wf :
  main_inv st evs → mn_phase st ≠ MnReturned → mn_pst st = Some p →
  main_inv (attach st p w r wal wf).1 (evs ++ (attach st p w r wal wf).2).
Proof.
  intros Hi Hph Hp. unfold attach, accept_conn. cbn [with_disp pst_attached].
  destruct (pst_attached p) eqn:Ea; simpl.
  { apply main_inv_quiet; try done. intros b. rewrite Hp. intros <-. exists true. by rewrite Ea. }
  destruct (writeReattachHandshake _ _ _ _) as [w' [e|]]; simpl.
  { apply main_inv_quiet; try done. intros b. rewrite Hp, Ea. intros <-. by exists false. }
  destruct (NewConn _) as [c|e]; simpl.
  - apply main_inv_quiet; try done. intros b. rewrite Hp, Ea. intros <-. by exists true.
  - apply main_inv_quiet; try done. intros b. rewrite Hp, Ea. intros <-. by exists false.
Qed.

(** The main goroutine moves on and adds one kind of event. *)
Lemma main_inv_move st evs ctx ph es :
  main_inv st evs → agent_evs es = [] → omap attach_part es = [] → mn_phase st ≠ MnReturned → ph ≠ MnReturned →
  phase_ok ph (omap phase_part (evs ++ es)) → woken_ok (evs ++ es) → drained_ok (evs ++ es) →
  main_inv (set_main st ctx ph) (evs ++ es).
Proof.
  intros [H1 H2 H3 H4 (b & H5 & H5') H6] He Ha Hph Hph' Hp Hw Hd. split; simpl; try done.
  - by rewrite agent_evs_app, He, app_nil_r.
  - exists b. rewrite omap_app, Ha, app_nil_r. split; [done|]. destruct (mn_pst st); auto.
Qed.

Lemma main_inv_return st evs :
  main_inv st evs → mn_phase st = MnClosing →
  main_inv (mkMain (mn_cfg st) (mn_disp st) ((λ p, Persistent_Close (with_disp (mn_disp st) p)) <$> mn_pst st) (mn_startedAt st) (mn_ctx st) MnReturned)
    (evs ++ [MClosed; MReturn]).
Proof.
  intros [H1 H2 H3 H4 (b & H5 & H5') H6] Hph. rewrite Hph in *. split; simpl.
  - by rewrite agent_evs_app, app_nil_r.
  - rewrite omap_app. destruct H2 as (b' & ok & ->). by exists b', ok.
  - refine (app_occurrence (λ l, DShutdown ∈ agent_evs l) (MWoken false) evs _ H3 _). set_solver.
  - refine (app_occurrence (λ l, omap spawned (agent_evs l) = omap waited (agent_evs l)) (MDrained true) evs _ H4 _). set_solver.
  - exists b. rewrite omap_app, app_nil_r. split; [done|]. destruct (mn_pst st); [by intros []|auto].
  - intros _. by destruct (mn_pst st).
Qed.

Lemma main_inv_wake st evs pick :
  main_inv st evs → mn_phase st = MnWaiting →
  main_inv (main_step st (MnWake pick)).1 (evs ++ (main_step st (MnWake pick)).2).
Proof.
  intros Hi Hph. unfold main_step. rewrite Hph. set (req := match d_shutdownReq (mn_disp st) with Some true => true | _ => false end).
  assert (∀ b, (b = false → req = true) → main_inv (set_main st (mn_ctx st) MnDraining) (evs ++ [MWoken b])) as Hgo.
  { intros b Hb. pose proof (mi_phase _ _ Hi) as Hp. rewrite Hph in Hp. simpl in Hp.
    apply main_inv_move; [done|done|done|by rewrite Hph|done| | |].
    - rewrite omap_app, Hp. by exists b.
    - refine (snoc_occurrence (λ l, DShutdown ∈ agent_evs l) (MWoken false) evs _ (mi_woken _ _ Hi) _).
      intros [= ->]. specialize (Hb eq_refl). pose proof (ai_shut _ _ (mi_agent _ _ Hi)) as Hs. unfold req in Hb.
      destruct (d_shutdownReq (mn_disp st)) as [[]|]; try done. rewrite decide_True in Hs by done.
      assert (() ∈ omap shut (agent_evs evs)) as Hin by (rewrite Hs; by left).
      apply list_elem_of_omap in Hin as (e & He & Hsh). by destruct e.
    - refine (snoc_occurrence (λ l, omap spawned (agent_evs l) = omap waited (agent_evs l)) (MDrained true) evs _ (mi_drained _ _ Hi) _).
      done. }
  destruct (mn_ctx st) eqn:Ec, req eqn:Er; simpl; try (apply Hgo; by destruct pick); by rewrite app_nil_r.
Qed.

Lemma main_step_inv st evs op :
  (∀ p : AckPayload, is_ok (EncodePayload p) = true) → main_inv st evs →
  main_inv (main_step st op).1 (evs ++ (main_step st op).2).
Proof.
  intros Hack Hi. destruct (decide (mn_phase st = MnReturned)) as [Hr|Hr].
  { unfold main_step. rewrite Hr. by rewrite app_nil_r. }
  assert (main_inv st (evs ++ [])) as Hidle by by rewrite app_nil_r.
  destruct op as [op| |pick|timeout pick| |w r wal wf|].
  - pose proof (main_inv_agent st evs op Hack Hi Hr) as H. unfold main_step.
    destruct (mn_phase st); try done; by destruct (agent_step err_text (mn_disp st) op).
  - assert (main_inv (set_main st true (mn_phase st)) (evs ++ [])) as H.
    { apply main_inv_move; try done; rewrite app_nil_r; apply Hi. }
    unfold main_step. by destruct (mn_phase st).
  - destruct (decide (mn_phase st = MnWaiting)) as [Hw|Hw]; [by apply main_inv_wake|].
    unfold main_step. by destruct (mn_phase st).
  - unfold main_step. destruct (mn_phase st) eqn:Hph; try done. destruct (Drain (mn_disp st) timeout pick) as [ok|] eqn:Ed; [|done].
    pose proof (mi_phase _ _ Hi) as Hp. rewrite Hph in Hp. destruct Hp as [b Hp]. simpl.
    apply main_inv_move; [done|done|done|by rewrite Hph|done| | |].
    + rewrite omap_app, Hp. by exists b, ok.
    + refine (snoc_occurrence (λ l, DShutdown ∈ agent_evs l) (MWoken false) evs _ (mi_woken _ _ Hi) _). done.
    + refine (snoc_occurrence (λ l, omap spawned (agent_evs l) = omap waited (agent_evs l)) (MDrained true) evs _ (mi_drained _ _ Hi) _).
      intros [= ->]. by apply (drained_children (mn_disp st) _ (mi_agent _ _ Hi) timeout pick).
  - unfold main_step. destruct (mn_phase st) eqn:Hph; try done. by apply main_inv_return.
  - unfold main_step. destruct (mn_phase st) eqn:Hph; try done; destruct (mn_pst st) as [p|] eqn:Ep; try done;
      apply main_inv_attach; try done; by rewrite Hph.
  - assert (∀ p, mn_pst st = Some p → pst_attached p = true →
      main_inv (set_disp st (mn_disp st) (Some (markDetached p))) (evs ++ [MDetached])) as Hdet.
    { intros p Hp Ha. apply main_inv_quiet; try done. intros b. rewrite Hp, Ha. intros <-. by exists false. }
    unfold main_step. destruct (mn_phase st) eqn:Hph; try done; destruct (mn_pst st) as [p|] eqn:Ep; try done;
      destruct (pst_attached p) eqn:Ea; try done; by apply Hdet.
Qed.

Lemma run_connect_inv s cfg dir a pst st :
  run_connect s cfg dir a pst = Ok st → (∀ p, pst = Some p → pst_attached p = false) →
  main_inv st [] ∧ mn_pst st = pst ∧ mn_phase st = MnWaiting.
Proof.
  intros H Hp. unfold run_connect in H. destruct (ma_fd a); [|done]. cbn [negb] in H.
  destruct (ma_rwc a) as [rwc|]; [|done]. destruct (NewConn _) as [conn|e]; [|done].
  destruct (EncodePayload _) as [data|e]; [|done].
  destruct (SendWithNewSeq _ _ _ _ _) as [[c ok] evs]. simplify_eq. split; [|done]. split; simpl; try done.
  - apply agent_inv_new. destruct pst; [right|left]; done.
  - by intros [|? ?] ? ?.
  - by intros [|? ?] ? ?.
  - exists false. split; [done|]. destruct pst; auto.
Qed.

(** What a start-up that fails with [e] leaves in the session directory of an
    agent [id]: an error after the session was opened removes the pid file and
    the socket, one while opening it (at the listener or its mode) leaves
    meta.json and the pid file behind. *)
Definition files_left (a : main_answers) (id : string) (persistent : bool) (fs : session_files) (e : main_err)
    : session_files :=
  let meta := mkMeta id (session_spec id) (ma_pid a) (ma_now a) in
  match e with
  | ErrMkdirRuntime | ErrNoSessionDir => fs
  | ErrInit ErrSessionDirRequired | ErrInit ErrMkdirSession | ErrInit ErrRingSize => fs
  | ErrInit ErrWriteMeta => mkFiles (default None (ia_meta (ma_init a))) (sf_pid fs) (sf_sock fs) (sf_attached fs)
  | ErrInit ErrWritePid => mkFiles (Some meta) None (sf_sock fs) (sf_attached fs)
  | ErrInit ErrListen | ErrInit ErrChmod => mkFiles (Some meta) (Some (ma_pid a)) false (sf_attached fs)
  | ErrFD | ErrAgentFileConn | ErrIpc _ | ErrHello _ =>
      if persistent then mkFiles (Some meta) None false false else fs
  end.

(** Opening the session, error by error. *)
Lemma initPersistent_files dir id a fs :
  let meta := mkMeta id (session_spec id) (ma_pid a) (ma_now a) in
  match initPersistent dir id (session_spec id) (ma_now a) (ma_now a) (ma_pid a) (ma_init a) fs with
  | (fs', Err e) => ∀ b, fs' = files_left a id b fs (ErrInit e)
  | (fs', Ok p) => pst_files p = fs' ∧ fs' = mkFiles (Some meta) (Some (ma_pid a)) true (sf_attached fs) ∧
                   pst_attached p = false
  end.
Proof.
  unfold initPersistent. assert ((if ma_now a =? zero_time then ma_now a else ma_now a) = ma_now a) as -> by by case_match.
  destruct (String.eqb dir ""); [done|]. destruct (ia_mkdir _); [cbn [negb]|done].
  destruct (if _ <=? 0 then None else _); [|done]. destruct (ia_meta (ma_init a)) eqn:E.
  { intros b. simpl. by rewrite E. }
  destruct (ia_pid _); [cbn [negb]|done]. destruct (ia_listen _); [cbn [negb]|done].
  by destruct (ia_chmod _); [cbn [negb]|].
Qed.

End Main.

(** ** The settings of the host reach the agent *)

Lemma Getenv_skip env k e : strip_prefix (k ++ "=") e = None → Getenv (env ++ [e]) k = Getenv env k.
Proof. intros H. unfold Getenv. by rewrite getenv_skip. Qed.
Lemma Getenv_last env k v : Getenv (env ++ [k ++ "=" ++ v]%string) k = v.
Proof. unfold Getenv. by rewrite getenv_snoc. Qed.

(** C38: What the agent process configures itself with is what the host asked
    for: identity, runtime directory, outbox capacity and persistence travel
    from the manager's options through the spawner's command line and
    environment into the agent's configuration, whatever the host's own
    environment says. *)
Theorem agent_reads_host_settings home o m id opts environ :
  NewManager home o = Ok m →
  let c := agent_cmd (m_spawner m) id opts environ in
  let cfg := main_config (tail (cmd_Args c)) (cmd_Env c) in
  ac_AgentID cfg = id ∧ ac_RuntimeDir cfg = mo_runtimeDir o ∧ ac_Persistent cfg = sp_Persistent opts ∧
  (0 < mo_agentOutboxCapacity o < 2 ^ 63 → ac_OutboxCapacity cfg = mo_agentOutboxCapacity o) ∧
  (sp_Persistent opts = true → Getenv (cmd_Env c) "CLIWRAP_SESSION_DIR" = sp_SessionDir opts).
Proof.
  intros Hm. unfold NewManager in Hm. destruct (String.eqb_spec (mo_agentPath o) ""); [done|].
  destruct (String.eqb_spec (mo_runtimeDir o) "") as [|Hd]; [done|]. simplify_eq. cbn [m_spawner].
  apply String.eqb_neq in Hd. set (extra := if 0 <? mo_agentOutboxCapacity o then _ else _).
  set (base := environ ++ ["CLIWRAP_AGENT_ID=" ++ id]%string).
  set (full := (base ++ extra) ++ ["CLIWRAP_AGENT_RUNTIME=" ++ mo_runtimeDir o]%string).
  assert (agent_cmd (mkSpawnerOptions (mo_agentPath o) (mo_runtimeDir o) extra) id opts environ =
    if sp_Persistent opts
    then mkCmd [mo_agentPath o; "--persistent"]%string
      ((full ++ ["CLIWRAP_PERSISTENT=1"%string]) ++ ["CLIWRAP_SESSION_DIR=" ++ sp_SessionDir opts]%string) [AgentFD] (Some LogFD) "/" true
    else mkCmd [mo_agentPath o] full [AgentFD] None "" false) as ->.
  { unfold agent_cmd, full, base. cbn [so_RuntimeDir so_ExtraEnv so_AgentPath]. rewrite Hd. by rewrite <- !app_assoc. }
  assert (Getenv full "CLIWRAP_AGENT_ID" = id) as Hid.
  { unfold full. rewrite Getenv_skip by done. unfold extra. destruct (0 <? _); [rewrite Getenv_skip by done|rewrite app_nil_r];
      apply (Getenv_last environ "CLIWRAP_AGENT_ID"). }
  assert (Getenv full "CLIWRAP_AGENT_RUNTIME" = mo_runtimeDir o) as Hrt
    by apply (Getenv_last (base ++ extra) "CLIWRAP_AGENT_RUNTIME").
  assert (0 < mo_agentOutboxCapacity o < 2 ^ 63 →
    Getenv full "CLIWRAP_AGENT_OUTBOX_CAPACITY" = pretty (Z.to_N (mo_agentOutboxCapacity o))) as Hcap.
  { intros Hb. unfold full. rewrite Getenv_skip by done. unfold extra. rewrite (proj2 (Z.ltb_lt _ _)) by lia.
    rewrite pretty_Z_pos by lia. apply (Getenv_last base "CLIWRAP_AGENT_OUTBOX_CAPACITY"). }
  assert (0 < mo_agentOutboxCapacity o < 2 ^ 63 → ac_OutboxCapacity (DefaultConfig full) = mo_agentOutboxCapacity o) as Hout.
  { intros Hb. unfold DefaultConfig. cbn [ac_OutboxCapacity]. rewrite Hcap by done.
    pose proof (atoi_pretty (Z.to_N (mo_agentOutboxCapacity o)) ltac:(lia)) as Ha.
    destruct (String.eqb_spec (pretty (Z.to_N (mo_agentOutboxCapacity o))) "") as [E|_]; [by rewrite E in Ha|].
    rewrite Ha. rewrite Z2N.id by lia. by rewrite (proj2 (Z.ltb_lt _ _)) by lia. }
  destruct (sp_Persistent opts); cbn [cmd_Args cmd_Env tail]; unfold main_config;
    cbn [ac_AgentID ac_RuntimeDir ac_Persistent ac_OutboxCapacity].
  - unfold DefaultConfig in *. cbn [ac_AgentID ac_RuntimeDir ac_OutboxCapacity] in *.
    rewrite !(Getenv_skip _ _ ("CLIWRAP_SESSION_DIR=" ++ sp_SessionDir opts)%string), !(Getenv_skip _ _ "CLIWRAP_PERSISTENT=1") by done.
    split_and!; try done. intros _. apply (Getenv_last (full ++ _) "CLIWRAP_SESSION_DIR").
  - by split_and!.
Qed.

Lemma agent_reads_host_settings_witness :
  ∃ m, NewManager "/home/u" (mkManagerOptions "/agent" "/run" "" 0 4096 false) = Ok m ∧
  let c := agent_cmd (m_spawner m) "p1" (mkSpawnOpts true "/s/p1") ["CLIWRAP_AGENT_ID=other"; "HOME=/home/u"] in
  ac_OutboxCapacity (main_config (tail (cmd_Args c)) (cmd_Env c)) = 4096.
Proof.
  eexists. split; [reflexivity|]. intros c.
  destruct (agent_reads_host_settings "/home/u" (mkManagerOptions "/agent" "/run" "" 0 4096 false) _ "p1" (mkSpawnOpts true "/s/p1")
    ["CLIWRAP_AGENT_ID=other"; "HOME=/home/u"] eq_refl) as (_ & _ & _ & H & _).
  apply H. simpl. lia.
Defined.

Module AgentMainExample.
Existing Instance echo_codec.

Definition ex_answers : main_answers :=
  mkMainAnswers 7 "/tmp" 100 true (mkInit true None true true true) true (Some (mkReader [] EOF, mkWriter [] None)) None false.
Definition ex_files : session_files := mkFiles None None false false.
Definition ex_env : list string := ["CLIWRAP_AGENT_ID=p1"].
(** A signal, an immediate drain, and the end. *)
Definition ex_ops : list main_op := [MnSignal; MnWake true; MnDrain false false; MnClose].

Definition ex_start : session_files * result main_err main_state :=
  Run_begin (mkSched false false) ex_env (main_config [] ex_env) ex_answers ex_files.

Example ex_run :
  match ex_start with
  | (_, Ok st) => (run_trace (main_step (λ _, "")) st ex_ops).2 = [MWoken true; MDrained true; MClosed; MReturn]
  | (_, Err _) => False
  end.
Proof. vm_compute. reflexivity. Qed.

(** A persistent agent that cannot listen: its pid file stays. *)
Example ex_listen_fails :
  Run_begin (mkSched false false) ["CLIWRAP_AGENT_ID=p1"; "CLIWRAP_SESSION_DIR=/s/p1"]
    (main_config ["--persistent"] ["CLIWRAP_AGENT_ID=p1"])
    (mkMainAnswers 7 "/tmp" 100 true (mkInit true None true false true) true None None false) ex_files
  = (mkFiles (Some (mkMeta "p1" (session_spec "p1") 7 100)) (Some 7) false false, Err (ErrInit ErrListen)).
Proof. reflexivity. Qed.

End AgentMainExample.
