(* ===== verification/MetaFile.v ===== *)
(** * The meta file of a persistent session: internal/agent/persistent_meta.go

    [WritePersistentMeta] and [ReadPersistentMeta] down to the text of
    meta.json.  A struct is written as an object with its fields in order and
    read field by field, whatever their order, case or number in the text. *)

From Stdlib Require Import Floats.SpecFloat.
From stdpp Require Import sorting.
From S2P Require Import Prelude Text Json GoTime CwTypes Message Frame Conn Collectors Agent AgentMain.

(** ** Fields of an object *)

(** [appendFoldedName]: ASCII letters in upper case; the Kelvin sign and the
    long s are the only other runes that fold to ASCII. *)
Definition fold_rune (r : rune) : list ascii :=
  match r with
  | RAscii c => [if between 97 122 c then chr (code c - 32) else c]
  | RWide l => if decide (l = encode_rune 8490) then ["K"%char] else if decide (l = encode_rune 383) then ["S"%char] else l
  | RBad c => [c]
  end.
Definition fold_name (s : list ascii) : list ascii := mjoin (fold_rune <$> runes s).
(** A key of the text names the field [n]. *)
Definition names (n : string) (key : list ascii) : bool :=
  bool_decide (fold_name (unquote key) = fold_name (chars n)).

(** Every member that names the field is decoded into it, in order. *)
Definition field {A} (n : string) (dec : json → A → option A) (a : A) (fs : list (list ascii * json)) : option A :=
  foldl (λ acc f, a ← acc; if names n f.1 then dec f.2 a else Some a) (Some a) fs.

(** A struct: null leaves it as it is, and only an object decodes into it. *)
Definition dec_struct {A} (dec : list (list ascii * json) → A → option A) (v : json) (a : A) : option A :=
  match v with JNull => Some a | JObj fs => dec fs a | _ => None end.
(** A pointer to a struct. *)
Definition dec_ptr {A} (zero : A) (dec : list (list ascii * json) → A → option A) (v : json) (p : option A) : option (option A) :=
  match v with JNull => Some None | JObj fs => Some <$> dec fs (default zero p) | _ => None end.

Definition obj (l : list (string * json)) : json := JObj ((λ f, (quote (chars f.1), f.2)) <$> l).

(** ** Basic types *)

Definition enc_string (s : string) : json := JStr (quote (chars s)).
Definition dec_string (v : json) (s : string) : option string :=
  match v with JNull => Some s | JStr raw => Some (of_chars (unquote raw)) | _ => None end.

Definition enc_bool (b : bool) : json := JBool b.
Definition dec_bool (v : json) (b : bool) : option bool :=
  match v with JNull => Some b | JBool b' => Some b' | _ => None end.

Definition enc_int (z : Z) : json := JNum (int_text z).
Definition dec_int (v : json) (z : Z) : option Z :=
  match v with JNull => Some z | JNum lit => let '(n, ok) := atoi lit in if ok then Some n else None | _ => None end.
(** An unsigned integer of [w] bits. *)
Definition dec_uint (w : Z) (v : json) (z : Z) : option Z :=
  match v with
  | JNull => Some z
  | JNum lit => let '(n, ok) := parse_uint lit in if ok && (n <? 2 ^ w) then Some n else None
  | _ => None
  end.

(** The constants of an enumeration are its first numbers. *)
Definition restart_int (r : RestartPolicy) : Z :=
  match r with RestartNever => 0 | RestartOnFailure => 1 | RestartAlways => 2 | RestartOther n => n end.
Definition restart_of (n : Z) : RestartPolicy :=
  if n =? 0 then RestartNever else if n =? 1 then RestartOnFailure else if n =? 2 then RestartAlways else RestartOther n.
Definition exceed_int (e : ExceedAction) : Z :=
  match e with ExceedWarn => 0 | ExceedThrottle => 1 | ExceedKill => 2 | ExceedOther n => n end.
Definition exceed_of (n : Z) : ExceedAction :=
  if n =? 0 then ExceedWarn else if n =? 1 then ExceedThrottle else if n =? 2 then ExceedKill else ExceedOther n.
Definition stdin_int (m : StdinMode) : Z :=
  match m with StdinNone => 0 | StdinPipe => 1 | StdinInherit => 2 | StdinOther n => n end.
Definition stdin_of (n : Z) : StdinMode :=
  if n =? 0 then StdinNone else if n =? 1 then StdinPipe else if n =? 2 then StdinInherit else StdinOther n.
Definition dec_enum {A} (to : A → Z) (from : Z → A) (v : json) (a : A) : option A := from <$> dec_int v (to a).

(** ** Slices and maps *)

(** Which empty slices and maps are nil: nil is written as null. *)
Record nil_flags := mkNils { nil_Args : bool; nil_Env : bool; nil_Config : bool }.

Definition enc_strings (nil : bool) (l : list string) : json :=
  match l with [] => if nil then JNull else JArr [] | _ => JArr (enc_string <$> l) end.

(** A slice with the elements its memory holds beyond its length: null keeps
    what an element's place held. *)
Fixpoint dec_elems (l : list json) (mem : list string) : option (list string) :=
  match l with
  | [] => Some []
  | v :: l' => s ← dec_string v (default "" (head mem)); r ← dec_elems l' (tail mem); Some (s :: r)
  end.
Definition dec_strings (v : json) (a : list string * list string) : option (list string * list string) :=
  match v with
  | JNull => Some ([], [])
  | JArr [] => Some ([], [])
  | JArr l => r ← dec_elems l (a.1 ++ a.2); Some (r, drop (length l) (a.1 ++ a.2))
  | _ => None
  end.

(** The order of keys, by bytes. *)
Definition key_le (f g : string * json) : Prop := String.leb f.1 g.1 = true.
#[global] Instance key_le_dec : RelDecision key_le := λ f g, bool_eq_dec _ _.
(** The entries of a map in the order of their keys. *)
Definition enc_map (nil : bool) (l : list (string * json)) : json :=
  match l with [] => if nil then JNull else JObj [] | _ => obj (merge_sort key_le l) end.

Definition enc_env (nil : bool) (m : gmap string string) : json :=
  enc_map nil ((λ f, (f.1, enc_string f.2)) <$> map_to_list m).
Definition dec_env (v : json) (m : gmap string string) : option (gmap string string) :=
  match v with
  | JNull => Some ∅
  | JObj fs => foldl (λ acc f, m ← acc; s ← dec_string f.2 ""; Some (<[of_chars (unquote f.1) := s]> m)) (Some m) fs
  | _ => None
  end.

Section Meta.
(** [strconv.AppendFloat] as encoding/json calls it, [strconv.ParseFloat], and
    [time.Parse] on a text [parseRFC3339] does not take. *)
Context (float_text : spec_float → list ascii) (parse_float : list ascii → option spec_float)
        (parse_time : list ascii → option Z).

(** NaN and the infinities have no JSON. *)
Definition enc_float (f : spec_float) : option json :=
  match f with S754_nan | S754_infinity _ => None | _ => Some (JNum (float_text f)) end.
Definition dec_float (v : json) (f : spec_float) : option spec_float :=
  match v with JNull => Some f | JNum lit => parse_float lit | _ => None end.

(** Values of [any]. *)
Fixpoint enc_any (v : any_val) : option json :=
  match v with
  | VNil => Some JNull
  | VBool b => Some (JBool b)
  | VInt n => Some (enc_int n)
  | VFloat f => enc_float f
  | VStr s => Some (enc_string s)
  | VStrs l => Some (JArr (enc_string <$> l))
  | VList l =>
      JArr <$> (fix go (l : list any_val) : option (list json) :=
        match l with [] => Some [] | x :: l' => y ← enc_any x; ys ← go l'; Some (y :: ys) end) l
  | VMap m =>
      enc_map false <$> (fix go (m : list (string * any_val)) : option (list (string * json)) :=
        match m with [] => Some [] | (k, x) :: m' => y ← enc_any x; ys ← go m'; Some ((k, y) :: ys) end) m
  end.
Definition enc_entries : list (string * any_val) → option (list (string * json)) :=
  fix go (m : list (string * any_val)) :=
    match m with [] => Some [] | (k, x) :: m' => y ← enc_any x; ys ← go m'; Some ((k, y) :: ys) end.

Fixpoint assoc_insert {A} (k : string) (x : A) (m : list (string * A)) : list (string * A) :=
  match m with
  | [] => [(k, x)]
  | (k', y) :: m' => if String.eqb k k' then (k, x) :: m' else (k', y) :: assoc_insert k x m'
  end.

Fixpoint dec_any (v : json) : option any_val :=
  match v with
  | JNull => Some VNil
  | JBool b => Some (VBool b)
  | JNum lit => VFloat <$> parse_float lit
  | JStr raw => Some (VStr (of_chars (unquote raw)))
  | JArr l =>
      VList <$> (fix go (l : list json) : option (list any_val) :=
        match l with [] => Some [] | x :: l' => y ← dec_any x; ys ← go l'; Some (y :: ys) end) l
  | JObj fs =>
      VMap <$> (fix go (fs : list (list ascii * json)) (m : list (string * any_val)) : option (list (string * any_val)) :=
        match fs with
        | [] => Some m
        | (k, x) :: fs' => y ← dec_any x; go fs' (assoc_insert (of_chars (unquote k)) y m)
        end) fs []
  end.
Definition dec_config (v : json) (m : list (string * any_val)) : option (list (string * any_val)) :=
  match v with
  | JNull => Some []
  | JObj fs => foldl (λ acc f, m ← acc; y ← dec_any f.2; Some (assoc_insert (of_chars (unquote f.1)) y m)) (Some m) fs
  | _ => None
  end.

(** ** The structs *)

Definition enc_sandbox (nil : bool) (s : SandboxSpec) : option json :=
  c ← enc_entries (sb_Config s); Some (obj [("Provider", enc_string (sb_Provider s)); ("Config", enc_map nil c)]%string).
Definition dec_sandbox (fs : list (list ascii * json)) (s : SandboxSpec) : option SandboxSpec :=
  p ← field "Provider" dec_string (sb_Provider s) fs;
  c ← field "Config" dec_config (sb_Config s) fs; Some (mkSandboxSpec p c).

Definition enc_limits (r : ResourceLimits) : option json :=
  cpu ← enc_float (rl_MaxCPUPercent r);
  Some (obj [("MaxRSS", enc_int (rl_MaxRSS r)); ("MaxCPUPercent", cpu); ("OnExceed", enc_int (exceed_int (rl_OnExceed r)))]%string).
Definition dec_limits (fs : list (list ascii * json)) (r : ResourceLimits) : option ResourceLimits :=
  rss ← field "MaxRSS" (dec_uint 64) (rl_MaxRSS r) fs;
  cpu ← field "MaxCPUPercent" dec_float (rl_MaxCPUPercent r) fs;
  ex ← field "OnExceed" (dec_enum exceed_int exceed_of) (rl_OnExceed r) fs; Some (mkLimits rss cpu ex).

Definition enc_log (l : LogOptions) : json :=
  obj [("RingBufferBytes", enc_int (lo_RingBufferBytes l)); ("RotationDir", enc_string (lo_RotationDir l));
       ("RotationMaxSize", enc_int (lo_RotationMaxSize l)); ("RotationMaxFiles", enc_int (lo_RotationMaxFiles l));
       ("PreserveWALOnShutdown", enc_bool (lo_PreserveWALOnShutdown l))]%string.
Definition dec_log (fs : list (list ascii * json)) (l : LogOptions) : option LogOptions :=
  rb ← field "RingBufferBytes" dec_int (lo_RingBufferBytes l) fs;
  dir ← field "RotationDir" dec_string (lo_RotationDir l) fs;
  size ← field "RotationMaxSize" dec_int (lo_RotationMaxSize l) fs;
  files ← field "RotationMaxFiles" dec_int (lo_RotationMaxFiles l) fs;
  wal ← field "PreserveWALOnShutdown" dec_bool (lo_PreserveWALOnShutdown l) fs; Some (mkLogOptions rb dir size files wal).

Definition enc_pty (p : PTYConfig) : json :=
  obj [("InitialCols", enc_int (pty_InitialCols p)); ("InitialRows", enc_int (pty_InitialRows p));
       ("Echo", enc_bool (pty_Echo p))]%string.
Definition dec_pty (fs : list (list ascii * json)) (p : PTYConfig) : option PTYConfig :=
  cols ← field "InitialCols" (dec_uint 16) (pty_InitialCols p) fs;
  rows ← field "InitialRows" (dec_uint 16) (pty_InitialRows p) fs;
  echo ← field "Echo" dec_bool (pty_Echo p) fs; Some (mkPTYConfig cols rows echo).

Definition enc_spec (z : nil_flags) (s : Spec) : option json :=
  sb ← match spec_Sandbox s with None => Some JNull | Some b => enc_sandbox (nil_Config z) b end;
  rl ← enc_limits (spec_Resources s);
  Some (obj [("ID", enc_string (spec_ID s)); ("Name", enc_string (spec_Name s)); ("Command", enc_string (spec_Command s));
             ("Args", enc_strings (nil_Args z) (spec_Args s)); ("Env", enc_env (nil_Env z) (spec_Env s));
             ("WorkDir", enc_string (spec_WorkDir s)); ("Restart", enc_int (restart_int (spec_Restart s)));
             ("MaxRestarts", enc_int (spec_MaxRestarts s)); ("RestartBackoff", enc_int (spec_RestartBackoff s));
             ("StopTimeout", enc_int (spec_StopTimeout s)); ("Stdin", enc_int (stdin_int (spec_Stdin s)));
             ("Sandbox", sb); ("Resources", rl); ("LogOptions", enc_log (spec_LogOptions s));
             ("PTY", match spec_PTY s with None => JNull | Some p => enc_pty p end);
             ("Persistent", enc_bool (spec_Persistent s)); ("RingBufferSize", enc_int (spec_RingBufferSize s))]%string).

(** The spec, and what the memory of its arguments holds beyond them. *)
Definition dec_spec (fs : list (list ascii * json)) (a : Spec * list string) : option (Spec * list string) :=
  let '(s, mem) := a in
  id ← field "ID" dec_string (spec_ID s) fs; name ← field "Name" dec_string (spec_Name s) fs;
  command ← field "Command" dec_string (spec_Command s) fs;
  args ← field "Args" dec_strings (spec_Args s, mem) fs; env ← field "Env" dec_env (spec_Env s) fs;
  dir ← field "WorkDir" dec_string (spec_WorkDir s) fs;
  restart ← field "Restart" (dec_enum restart_int restart_of) (spec_Restart s) fs;
  restarts ← field "MaxRestarts" dec_int (spec_MaxRestarts s) fs;
  backoff ← field "RestartBackoff" dec_int (spec_RestartBackoff s) fs;
  stop ← field "StopTimeout" dec_int (spec_StopTimeout s) fs;
  stdin ← field "Stdin" (dec_enum stdin_int stdin_of) (spec_Stdin s) fs;
  sb ← field "Sandbox" (dec_ptr (mkSandboxSpec "" []) dec_sandbox) (spec_Sandbox s) fs;
  rl ← field "Resources" (dec_struct dec_limits) (spec_Resources s) fs;
  lo ← field "LogOptions" (dec_struct dec_log) (spec_LogOptions s) fs;
  pty ← field "PTY" (dec_ptr (mkPTYConfig 0 0 false) dec_pty) (spec_PTY s) fs;
  persistent ← field "Persistent" dec_bool (spec_Persistent s) fs;
  ring ← field "RingBufferSize" dec_int (spec_RingBufferSize s) fs;
  Some (mkSpec id name command args.1 env dir restart restarts backoff stop stdin sb rl lo pty persistent ring, args.2).

(** [time.Time.MarshalJSON] in a zone, and [UnmarshalJSON]. *)
Definition enc_time (off t : Z) : option json := JStr <$> time_text off t.
Definition dec_time (v : json) (t : Z) : option Z :=
  match v with
  | JNull => Some t
  | JStr raw => match parseRFC3339 raw with Some t' => Some t' | None => parse_time raw end
  | _ => None
  end.

Definition enc_meta (z : nil_flags) (off : Z) (version : string) (m : PersistentMeta) : option json :=
  sp ← enc_spec z (pm_Spec m); t ← enc_time off (pm_StartedAt m);
  Some (obj [("version", enc_string version); ("id", enc_string (pm_ID m)); ("spec", sp);
             ("agentPID", enc_int (pm_AgentPID m)); ("startedAt", t)]%string).

Definition dec_meta (v : json) : option (string * PersistentMeta) :=
  match v with
  | JNull => Some (""%string, mkMeta "" zero_spec 0 zero_time)
  | JObj fs =>
      version ← field "version" dec_string "" fs; id ← field "id" dec_string "" fs;
      sp ← field "spec" (dec_struct dec_spec) (zero_spec, []) fs;
      pid ← field "agentPID" dec_int 0 fs; t ← field "startedAt" dec_time zero_time fs;
      Some (version, mkMeta id sp.1 pid t)
  | _ => None
  end.

(** ** The file *)

Inductive meta_err := ErrMarshalMeta | ErrWriteMetaFile | ErrReadMeta | ErrUnmarshalMeta.

(** [z]: the empty slices and maps that are nil; [off]: the zone of the
    process; [fails]: the write failed and left this.  What the file holds
    afterwards, and the error. *)
Definition WritePersistentMeta (z : nil_flags) (off : Z) (fails : option (option string)) (file : option string)
    (version : string) (m : PersistentMeta) : option string * option meta_err :=
  match enc_meta z off version m with
  | None => (file, Some ErrMarshalMeta)
  | Some v => match fails with
              | Some left_ => (left_, Some ErrWriteMetaFile)
              | None => (Some (of_chars (print 0 v)), None)
              end
  end.

Definition ReadPersistentMeta (file : option string) : result meta_err (string * PersistentMeta) :=
  match file with
  | None => Err ErrReadMeta
  | Some b => match (v ← parse_json (chars b); dec_meta v) with Some r => Ok r | None => Err ErrUnmarshalMeta end
  end.
End Meta.

(** ** What is written is read back *)

(** Field names a struct can be read by: no two fold to the same. *)
Definition names_distinct (ns : list string) : bool :=
  forallb (λ n, valid_utf8 (chars n)) ns && bool_decide (NoDup ((λ n, fold_name (chars n)) <$> ns)).

Lemma names_quote n k : valid_utf8 (chars k) = true → names n (quote (chars k)) = bool_decide (fold_name (chars k) = fold_name (chars n)).
Proof. intros H. unfold names. by rewrite unquote_quote. Qed.

Definition members (l : list (string * json)) : list (list ascii * json) := (λ f, (quote (chars f.1), f.2)) <$> l.

Lemma field_miss {A} n (dec : json → A → option A) a l :
  forallb (λ k, valid_utf8 (chars k)) l.*1 = true → fold_name (chars n) ∉ (λ k, fold_name (chars k)) <$> l.*1 →
  field n dec a (members l) = Some a.
Proof.
  unfold field. induction l as [|[k v] l IH]; [done|]. csimpl. intros [Hk Hl]%andb_true_iff [Hn Hnl]%not_elem_of_cons.
  rewrite names_quote, bool_decide_eq_false_2 by (done || congruence). by apply IH.
Qed.

Lemma field_app {A} n (dec : json → A → option A) a fs gs :
  field n dec a (fs ++ gs) = b ← field n dec a fs; field n dec b gs.
Proof.
  unfold field. rewrite foldl_app. destruct (foldl _ (Some a) fs); [done|]. cbn [mbind option_bind].
  by induction gs.
Qed.

Lemma field_one {A} n v (dec : json → A → option A) a :
  valid_utf8 (chars n) = true → field n dec a [(quote (chars n), v)] = dec v a.
Proof. intros H. unfold field. cbn [foldl mbind option_bind fst snd]. by rewrite names_quote, bool_decide_eq_true_2. Qed.

(** A field of a written struct is what its value decodes to. *)
Lemma field_obj {A} n v (dec : json → A → option A) a l :
  names_distinct l.*1 = true → (n, v) ∈ l → field n dec a (members l) = dec v a.
Proof.
  intros [Hv Hd]%andb_true_iff Hin. apply bool_decide_eq_true in Hd.
  apply list_elem_of_split in Hin as (l1 & l2 & ->). rewrite !fmap_app in *. csimpl. cbn [fmap list_fmap] in *.
  apply NoDup_app in Hd as (_ & Hd1 & [Hd2 _]%NoDup_cons).
  rewrite forallb_app in Hv. apply andb_true_iff in Hv as [Hv1 [Hvn Hv2]%andb_true_iff].
  unfold members. rewrite fmap_app. csimpl. rewrite field_app, field_miss; [|done|].
  2:{ intros H. apply (Hd1 _ H). left. }
  cbn [mbind option_bind]. change ((quote (chars n), v) :: _) with ([(quote (chars n), v)] ++ members l2).
  rewrite field_app, field_one by done.
  destruct (dec v a) as [b|]; [|done]. cbn [mbind option_bind]. by apply field_miss.
Qed.

Lemma obj_members l : obj l = JObj (members l).
Proof. done. Qed.

Lemma obj_ok l : Forall (λ f, json_ok f.2) l → json_ok (obj l).
Proof.
  intros H. rewrite obj_members. apply ok_members. unfold members. rewrite Forall_fmap.
  eapply Forall_impl; [exact H|]. intros [k v] Hv. split; [|done]. intros r. apply scan_quote.
Qed.
Lemma obj_depth m l : 1 ≤ m → Forall (λ f, depth f.2 ≤ m - 1) l → depth (obj l) ≤ m.
Proof. intros Hm H. rewrite obj_members. apply depth_members. split; [|done]. unfold members. by rewrite Forall_fmap. Qed.

(** A string written without loss. *)
Definition utf8 (s : string) : Prop := valid_utf8 (chars s) = true.

Lemma enc_string_ok s : json_ok (enc_string s).
Proof. intros r. apply scan_quote. Qed.
Lemma enc_int_ok z : json_ok (enc_int z).
Proof. apply int_text_ok. Qed.

Lemma dec_enc_string s t : utf8 s → dec_string (enc_string s) t = Some s.
Proof. intros H. simpl. by rewrite unquote_quote, of_chars_of. Qed.
Lemma dec_enc_int z t : in_i 64 z → dec_int (enc_int z) t = Some z.
Proof. intros H. simpl. by rewrite atoi_int_text. Qed.
Lemma dec_enc_uint w z t : w ≤ 64 → in_u w z → dec_uint w (enc_int z) t = Some z.
Proof.
  intros Hw [H0 H]. simpl. unfold int_text. rewrite (proj2 (Z.ltb_ge _ _)) by done.
  assert (2 ^ w ≤ 2 ^ 64) by (apply Z.pow_le_mono_r; lia).
  rewrite parse_uint_pretty by lia. rewrite Z2N.id by done. by rewrite (proj2 (Z.ltb_lt _ _)).
Qed.
Lemma dec_enc_uint16 z t : in_u 16 z → dec_uint 16 (enc_int z) t = Some z.
Proof. by apply dec_enc_uint. Qed.
Lemma dec_enc_uint64 z t : in_u 64 z → dec_uint 64 (enc_int z) t = Some z.
Proof. by apply dec_enc_uint. Qed.
Lemma dec_enc_enum {A} (to : A → Z) (from : Z → A) a b :
  in_i 64 (to a) → from (to a) = a → dec_enum to from (enc_int (to a)) b = Some a.
Proof. intros H1 H2. unfold dec_enum. rewrite dec_enc_int by done. simpl. by rewrite H2. Qed.

Lemma dec_enc_strings nil l :
  Forall utf8 l → dec_strings (enc_strings nil l) ([], []) = Some (l, []).
Proof.
  intros H. destruct l as [|s l]; [by destruct nil|]. unfold enc_strings, dec_strings.
  assert (dec_elems (enc_string <$> s :: l) [] = Some (s :: l)) as E.
  { induction H as [|x k Hx _ IH]; [done|].
    cbn [fmap list_fmap dec_elems head default]. rewrite dec_enc_string by done. cbn [mbind option_bind tail].
    by rewrite IH. }
  cbn [fmap list_fmap fst snd app] in *. rewrite E. cbn [mbind option_bind]. by rewrite drop_nil.
Qed.
Lemma enc_strings_ok nil l : json_ok (enc_strings nil l) ∧ depth (enc_strings nil l) ≤ 1.
Proof.
  destruct l as [|s l]; [by destruct nil|]. unfold enc_strings. split.
  - apply ok_items. rewrite Forall_fmap. apply Forall_true. intros x. apply enc_string_ok.
  - apply depth_items. split; [|lia]. rewrite Forall_fmap. by apply Forall_true.
Qed.

Definition env_ok (m : gmap string string) : Prop :=
  map_Forall (λ k v, valid_utf8 (chars k) = true ∧ valid_utf8 (chars v) = true) m.

Lemma dec_env_fold l m0 :
  Forall (λ f, valid_utf8 (chars f.1) = true ∧ valid_utf8 (chars f.2) = true) l →
  foldl (λ acc f, m ← acc; s ← dec_string f.2 ""; Some (<[of_chars (unquote f.1) := s]> m)) (Some m0)
    (members ((λ f, (f.1, enc_string f.2)) <$> l)) = Some (foldl (λ (m : gmap string string) f, <[f.1 := f.2]> m) m0 l).
Proof.
  intros H. revert m0. induction H as [|[k v] l [Hk Hv] _ IH]; intros m0; [done|]. csimpl.
  cbn [fst snd] in *. rewrite !unquote_quote, !of_chars_of by done. apply IH.
Qed.

Lemma foldl_insert (l : list (string * string)) :
  foldl (λ (m : gmap string string) f, <[f.1 := f.2]> m) ∅ l = list_to_map (reverse l).
Proof. induction l as [|[k v] l IH] using rev_ind; [done|]. rewrite foldl_app, reverse_app. simpl. by rewrite IH. Qed.

(** The entries are written in some order. *)
Lemma enc_env_list nil m : m ≠ ∅ →
  ∃ l, l ≡ₚ map_to_list m ∧ enc_env nil m = obj ((λ f, (f.1, enc_string f.2)) <$> l).
Proof.
  intros Hm. unfold enc_env, enc_map. set (es := (λ f, (f.1, enc_string f.2)) <$> map_to_list m).
  pose proof (merge_sort_Permutation key_le es) as Hp. unfold es at 2 in Hp.
  apply Permutation_map_inv in Hp as (l & Hl & Hp). exists l. split; [done|].
  destruct es as [|e es'] eqn:E; [|by rewrite Hl].
  exfalso. apply Hm, map_to_list_empty_iff. by apply fmap_nil_inv in E.
Qed.

Lemma dec_enc_env nil m : env_ok m → dec_env (enc_env nil m) ∅ = Some m.
Proof.
  intros Hok. destruct (decide (m = ∅)) as [->|Hm]; [by destruct nil|].
  destruct (enc_env_list nil m Hm) as (l & Hp & ->). rewrite obj_members. unfold dec_env. rewrite dec_env_fold.
  - rewrite foldl_insert. f_equal. transitivity (list_to_map (map_to_list m) : gmap string string); [|apply list_to_map_to_list].
    apply list_to_map_proper.
    + rewrite (reverse_Permutation l), Hp. apply NoDup_fst_map_to_list.
    + by rewrite reverse_Permutation.
  - rewrite Hp. apply Forall_forall. intros [k v] Hkv%elem_of_map_to_list. by apply Hok.
Qed.

Lemma enc_env_ok nil m : json_ok (enc_env nil m) ∧ depth (enc_env nil m) ≤ 1.
Proof.
  destruct (decide (m = ∅)) as [->|Hm]; [by destruct nil|]. destruct (enc_env_list nil m Hm) as (l & _ & ->). split.
  - apply obj_ok. rewrite Forall_fmap. apply Forall_true. intros f. apply enc_string_ok.
  - apply obj_depth; [done|]. rewrite Forall_fmap. by apply Forall_true.
Qed.

(** ** Structs *)

(** A field of a written struct is read as its value is. *)
Lemma field_read {A B} n v (dec : json → A → option A) a b (k : A → option B) l :
  names_distinct l.*1 = true → (n, v) ∈ l → dec v a = Some b → (x ← field n dec a (members l); k x) = k b.
Proof. intros H1 H2 H3. by rewrite (field_obj n v), H3. Qed.

Lemma dec_enc_bool b b0 : dec_bool (enc_bool b) b0 = Some b.
Proof. done. Qed.

Ltac member := first [apply list_elem_of_here | apply list_elem_of_further; member].
Ltac distinct := cbn [fmap list_fmap fst]; vm_compute; reflexivity.
Create HintDb decode.
#[export] Hint Resolve dec_enc_string dec_enc_int dec_enc_uint16 dec_enc_uint64 dec_enc_bool dec_enc_env dec_enc_strings dec_enc_enum : decode.
(** Reads the fields of a written struct, one by one. *)
Ltac read_field := etransitivity; [eapply field_read; [distinct|member|by eauto with decode nocore]|cbv beta].
Ltac read_struct := rewrite obj_members; unfold dec_struct; repeat read_field.

Record log_ok (l : LogOptions) : Prop := {
  log_bytes : in_i 64 (lo_RingBufferBytes l); log_dir : utf8 (lo_RotationDir l);
  log_size : in_i 64 (lo_RotationMaxSize l); log_files : in_i 64 (lo_RotationMaxFiles l) }.

Lemma dec_enc_log l l0 : log_ok l → dec_struct dec_log (enc_log l) l0 = Some l.
Proof. intros []. unfold enc_log, dec_log. read_struct. by destruct l. Qed.
Lemma enc_log_ok l : json_ok (enc_log l) ∧ depth (enc_log l) ≤ 1.
Proof.
  split; [apply obj_ok|apply obj_depth; [done|]]; repeat constructor;
    first [apply enc_int_ok|apply enc_string_ok|done].
Qed.

Record pty_ok (p : PTYConfig) : Prop := {
  pty_cols : in_u 16 (pty_InitialCols p); pty_rows : in_u 16 (pty_InitialRows p) }.

Lemma dec_enc_pty p p0 : pty_ok p → dec_ptr (mkPTYConfig 0 0 false) dec_pty (enc_pty p) p0 = Some (Some p).
Proof.
  intros []. unfold enc_pty. rewrite obj_members. unfold dec_ptr. apply fmap_Some. exists p. split; [|done].
  unfold dec_pty. repeat read_field. by destruct p.
Qed.
Lemma enc_pty_ok p : json_ok (enc_pty p) ∧ depth (enc_pty p) ≤ 1.
Proof.
  split; [apply obj_ok|apply obj_depth; [done|]]; repeat constructor; first [apply enc_int_ok|done].
Qed.

Section Roundtrip.
Context (float_text : spec_float → list ascii) (parse_float : list ascii → option spec_float)
        (parse_time : list ascii → option Z).

(** A number whose text is read back as itself. *)
Definition float_ok (f : spec_float) : Prop :=
  is_Some (enc_float float_text f) ∧ num_ok (float_text f) ∧ parse_float (float_text f) = Some f.

(** The JSON [v] of [a] is well formed, at most [d] deep, and decodes to [a]. *)
Definition stands_for {A} (dec : json → A → option A) (a0 a : A) (d : Z) (v : json) : Prop :=
  dec v a0 = Some a ∧ json_ok v ∧ depth v ≤ d.

Lemma enc_float_stands f f0 : float_ok f → ∃ v, enc_float float_text f = Some v ∧ stands_for (dec_float parse_float) f0 f 0 v.
Proof. intros ([v Hv] & Ht & Hp). exists v. split; [done|]. by destruct f; simplify_eq/=. Qed.

Record limits_ok (r : ResourceLimits) : Prop := {
  limits_rss : in_u 64 (rl_MaxRSS r); limits_cpu : float_ok (rl_MaxCPUPercent r);
  limits_exceed : in_i 64 (exceed_int (rl_OnExceed r)); limits_exceed_of : exceed_of (exceed_int (rl_OnExceed r)) = rl_OnExceed r }.

Lemma enc_limits_stands r r0 : limits_ok r →
  ∃ v, enc_limits float_text r = Some v ∧ stands_for (dec_struct (dec_limits parse_float)) r0 r 1 v.
Proof.
  intros []. destruct (enc_float_stands (rl_MaxCPUPercent r) (rl_MaxCPUPercent r0)) as (cpu & E & Hd & Hok & Hde); [done|].
  unfold enc_limits. rewrite E. eexists. split; [done|]. split; [|split].
  - unfold dec_limits. read_struct. by destruct r.
  - apply obj_ok. repeat constructor; try done; apply enc_int_ok.
  - apply obj_depth; [done|]. repeat constructor; cbn [snd]; try done.
Qed.

Record spec_ok (s : Spec) : Prop := {
  spec_texts : utf8 (spec_ID s) ∧ utf8 (spec_Name s) ∧ utf8 (spec_Command s) ∧ utf8 (spec_WorkDir s);
  spec_args_ok : Forall utf8 (spec_Args s);
  spec_env_ok : env_ok (spec_Env s);
  spec_ints : in_i 64 (spec_MaxRestarts s) ∧ in_i 64 (spec_RestartBackoff s) ∧ in_i 64 (spec_StopTimeout s) ∧
              in_i 64 (spec_RingBufferSize s);
  spec_restart : in_i 64 (restart_int (spec_Restart s)) ∧ restart_of (restart_int (spec_Restart s)) = spec_Restart s;
  spec_stdin : in_i 64 (stdin_int (spec_Stdin s)) ∧ stdin_of (stdin_int (spec_Stdin s)) = spec_Stdin s;
  spec_sandbox : spec_Sandbox s = None;
  spec_limits : limits_ok (spec_Resources s);
  spec_log : log_ok (spec_LogOptions s);
  spec_pty : match spec_PTY s with Some p => pty_ok p | None => True end }.

Lemma enc_spec_stands z s : spec_ok s →
  ∃ v, enc_spec float_text z s = Some v ∧ stands_for (dec_struct (dec_spec parse_float)) (zero_spec, []) (s, []) 2 v.
Proof.
  intros [(Hid & Hname & Hcmd & Hdir) Hargs Henv (Hmr & Hrb & Hst & Hring) [Hr1 Hr2] [Hs1 Hs2] Hsb Hlim Hlog Hpty].
  destruct (enc_limits_stands _ zero_limits Hlim) as (rl & Erl & Hrl & Hrlok & Hrld).
  pose proof (dec_enc_log _ zero_log_options Hlog) as Hlo.
  assert (dec_ptr (mkPTYConfig 0 0 false) dec_pty (match spec_PTY s with None => JNull | Some p => enc_pty p end) None
          = Some (spec_PTY s)) as Hp by (destruct (spec_PTY s); [by apply dec_enc_pty|done]).
  assert (dec_ptr (mkSandboxSpec "" []) (dec_sandbox parse_float) JNull None = Some (spec_Sandbox s)) as Hb by by rewrite Hsb.
  unfold enc_spec. rewrite Erl, Hsb. eexists. split; [done|]. rewrite <- Hsb in *. split; [|split].
  - unfold dec_spec. read_struct. destruct s; simpl in *. by rewrite Hsb.
  - apply obj_ok. repeat constructor; cbn [snd]; try done;
      first [apply enc_int_ok|apply enc_string_ok|apply enc_strings_ok|apply enc_env_ok|apply enc_log_ok|idtac].
    destruct (spec_PTY s); [apply enc_pty_ok|done].
  - apply obj_depth; [done|]. repeat constructor; cbn [snd]; try done;
      first [apply enc_strings_ok|apply enc_env_ok|idtac]. destruct (spec_PTY s); [apply enc_pty_ok|done].
Qed.
End Roundtrip.

(** ** Times *)

(** The characters of a time stand for themselves in a string literal. *)
Definition time_char (c : ascii) : bool := is_digit c || bool_decide (c ∈ ["-"; "+"; ":"; "."; "T"; "Z"]%char).

Lemma scan_time_char c s : time_char c = true → scan_str (c :: s) = prepend [c] (scan_str s).
Proof.
  intros H. assert (Ascii.eqb c quote_char = false ∧ Ascii.eqb c backslash = false ∧ (code c <? 32) = false) as (H1 & H2 & H3).
  { revert H. destruct c as [[] [] [] [] [] [] [] []]; vm_compute; done. }
  cbn [scan_str]. by rewrite H1, H2, H3.
Qed.
Lemma scan_time s r : forallb time_char s = true → scan_str (s ++ quote_char :: r) = Some (s, r).
Proof.
  induction s as [|c s IH]; [done|]. intros [Hc Hs]%andb_true_iff. cbn [app].
  by rewrite scan_time_char, IH by done.
Qed.

Lemma digits_time l : forallb is_digit l = true → forallb time_char l = true.
Proof. rewrite !forallb_forall. intros H c Hc. unfold time_char. by rewrite H. Qed.
Lemma trim_zeros_time l : forallb time_char l = true → forallb time_char (trim_zeros l) = true.
Proof. destruct (trim_zeros_spec l) as [k E]. rewrite E at 1. by rewrite forallb_app, andb_true_iff; intros []. Qed.
Lemma pad_time w n : forallb time_char (pad w n) = true.
Proof. apply digits_time, pad_digits. Qed.

Lemma fraction_time ns : forallb time_char (fraction ns) = true.
Proof. unfold fraction. destruct (ns =? 0); [done|]. cbn [forallb]. by rewrite trim_zeros_time by apply pad_time. Qed.
Lemma zone_time off : forallb time_char (zone_text off) = true.
Proof.
  unfold zone_text. destruct (off =? 0); [done|]. cbn [forallb]. rewrite forallb_app. cbn [forallb].
  rewrite !pad_time. by destruct (_ <? 0).
Qed.

Lemma time_text_chars off t s : time_text off t = Some s → forallb time_char s = true.
Proof.
  unfold time_text. destruct (absDate _) as [[year month] day]. destruct (_ || _); [done|].
  intros E. apply (inj Some) in E as <-.
  repeat (rewrite forallb_app || cbn [forallb] || rewrite pad_time). by rewrite fraction_time, zone_time.
Qed.

(** ** The file *)

Section File.
Context (float_text : spec_float → list ascii) (parse_float : list ascii → option spec_float)
        (parse_time : list ascii → option Z).

Record meta_ok (off : Z) (version : string) (m : PersistentMeta) : Prop := {
  meta_texts : utf8 version ∧ utf8 (pm_ID m);
  meta_spec_ok : spec_ok float_text parse_float (pm_Spec m);
  meta_pid : in_i 64 (pm_AgentPID m);
  meta_time : off mod 60 = 0 ∧ is_Some (time_text off (pm_StartedAt m)) }.

Lemma enc_meta_stands z off version m : meta_ok off version m →
  ∃ v, enc_meta float_text z off version m = Some v ∧ dec_meta parse_float parse_time v = Some (version, m) ∧
       json_ok v ∧ depth v ≤ maxNestingDepth.
Proof.
  intros [[Hv Hid] Hspec Hpid [Hoff [t Ht]]].
  destruct (enc_spec_stands float_text parse_float z _ Hspec) as (sp & Esp & Hsp & Hspok & Hspd).
  unfold enc_meta, enc_time. rewrite Esp, Ht. eexists. split; [done|]. split; [|split].
  - assert (dec_time parse_time (JStr t) zero_time = Some (pm_StartedAt m)) as Htime
      by (unfold dec_time; by rewrite (time_text_read off _ _ Hoff Ht)).
    rewrite obj_members. unfold dec_meta. repeat read_field. by destruct m.
  - apply obj_ok. repeat constructor; cbn [snd]; try done; first [apply enc_string_ok|apply enc_int_ok|idtac].
    intros r. by apply scan_time, (time_text_chars off (pm_StartedAt m)).
  - transitivity 3; [|done]. apply obj_depth; [done|]. repeat constructor; cbn [snd]; try done.
Qed.

Lemma meta_file_ok (z : nil_flags) (off : Z) (file : option string) (version : string) (m : PersistentMeta)
    (Hok : meta_ok off version m) :
  ∃ text, WritePersistentMeta float_text z off None file version m = (Some text, None) ∧
          ReadPersistentMeta parse_float parse_time (Some text) = Ok (version, m).
Proof.
  destruct (enc_meta_stands z off version m Hok) as (v & E & Hd & Hv & Hdepth).
  unfold WritePersistentMeta, ReadPersistentMeta. rewrite E. eexists. split; [done|].
  rewrite chars_of, parse_print by done. cbn [mbind option_bind]. by rewrite Hd.
Qed.

(** ** The meta.json of an agent *)

(** What a payload must be for its texts to survive. *)
Record start_ok (p : StartChildPayload) : Prop := {
  start_texts : utf8 (sc_Command p) ∧ utf8 (sc_WorkDir p);
  start_args : Forall utf8 (sc_Args p);
  start_env : env_ok (sc_Env p);
  start_pty : match sc_PTY p with
              | Some c => in_u 16 (scp_InitialCols c) ∧ in_u 16 (scp_InitialRows c)
              | None => True
              end }.

Lemma session_spec_ok id : utf8 id → float_ok float_text parse_float (S754_zero false) →
  spec_ok float_text parse_float (session_spec id).
Proof. intros Hid Hz. split; try done; repeat split; try done. Qed.

(** Recording a start keeps the meta readable. *)
Lemma meta_spec_stays_ok sp p : spec_ok float_text parse_float sp → start_ok p → spec_ok float_text parse_float (meta_spec sp p).
Proof.
  intros [] [[Hc Hd] Ha He Hp]. split; simpl; try done.
  - naive_solver.
  - pose proof (wrap_i_range 64 (sc_StopTimeout p * 1000000) eq_refl). unfold i64. naive_solver.
  - destruct (sc_PTY p) as [c|]; [destruct Hp; by split|done].
Qed.

Lemma meta_specs_stay_ok ps sp :
  spec_ok float_text parse_float sp → Forall start_ok ps → spec_ok float_text parse_float (foldl meta_spec sp ps).
Proof. intros Hsp Hps. revert sp Hsp. induction Hps; [done|]; intros sp Hsp. by apply IHHps, meta_spec_stays_ok. Qed.

(** The meta of a dispatcher after the starts [ps]. *)
Definition started (m : PersistentMeta) (ps : list StartChildPayload) : PersistentMeta :=
  mkMeta (pm_ID m) (foldl meta_spec (pm_Spec m) ps) (pm_AgentPID m) (pm_StartedAt m).

Lemma update_metas d m ps : d_persistent d = true → d_sessionDir d ≠ "" → d_meta d = Some m →
  d_meta (foldl (update_meta None) d ps) = Some (started m ps).
Proof.
  revert d m. induction ps as [|p ps IH]; intros d m Hp Hd Hm; [by destruct m|]. cbn [foldl].
  apply String.eqb_neq in Hd as Hd'.
  assert (update_meta None d p = upd_persist d true (d_shutdownReq d) (d_sessionDir d) (Some (started m [p]))) as ->
    by (unfold update_meta; by rewrite Hp, Hd', Hm).
  by rewrite (IH _ (started m [p])).
Qed.

(** The update on the file itself: [startChild] reads meta.json, and writes it
    again unless it could not be read. *)
Definition update_meta_file (file : option string) (step : nil_flags * StartChildPayload) : option string :=
  match ReadPersistentMeta parse_float parse_time file with
  | Err _ => file
  | Ok (version, m) => (WritePersistentMeta float_text step.1 0 None file version (started m [step.2])).1
  end.

Lemma update_meta_files m ps text : meta_ok 0 "1.0" m → Forall start_ok ps.*2 →
  ReadPersistentMeta parse_float parse_time (Some text) = Ok ("1.0"%string, m) →
  ∃ text', foldl update_meta_file (Some text) ps = Some text' ∧
    ReadPersistentMeta parse_float parse_time (Some text') = Ok ("1.0"%string, started m ps.*2).
Proof.
  revert m text. induction ps as [|[z p] ps IH]; intros m text Hm Hps Hr; [exists text; by destruct m|].
  cbn [fmap list_fmap snd] in Hps. apply Forall_cons in Hps as [Hp Hps].
  assert (meta_ok 0 "1.0" (started m [p])) as Hm' by (destruct Hm; split; try done; by apply meta_spec_stays_ok).
  destruct (meta_file_ok z 0 (Some text) "1.0" _ Hm') as (text1 & Hw & Hr1).
  destruct (IH _ text1 Hm' Hps Hr1) as (text' & Hf & Hr'). exists text'. split; [|done].
  cbn [foldl]. unfold update_meta_file at 2. rewrite Hr. cbn [fst snd]. by rewrite Hw.
Qed.

(** The text of meta.json after the starts [ps] of an agent. *)
Lemma session_meta_text id now pid z file ps :
  utf8 id → 0 ≤ now < 2 ^ 63 → in_i 64 pid → Forall start_ok ps.*2 → float_ok float_text parse_float (S754_zero false) →
  ∃ text0 text, WritePersistentMeta float_text z 0 None file "1.0" (mkMeta id (session_spec id) pid now) = (Some text0, None) ∧
    foldl update_meta_file (Some text0) ps = Some text ∧
    ReadPersistentMeta parse_float parse_time (Some text) =
      Ok ("1.0"%string, mkMeta id (foldl meta_spec (session_spec id) ps.*2) pid now).
Proof.
  intros Hid Hnow Hpid Hps Hzero. set (m0 := mkMeta id (session_spec id) pid now).
  assert (meta_ok 0 "1.0" m0) as Hok.
  { split; [split; [reflexivity|done]|by apply session_spec_ok|done|split; [done|by apply clock_has_text]]. }
  destruct (meta_file_ok z 0 file "1.0" m0 Hok) as (text0 & Hw & Hr).
  destruct (update_meta_files m0 ps text0 Hok Hps Hr) as (text & Hf & Hr'). by exists text0, text.
Qed.

Lemma initPersistent_meta dir id spec now pid a fs fs' st :
  initPersistent dir id spec now now pid a fs = (fs', Ok st) →
  sf_meta fs' = Some (mkMeta id spec pid now) ∧ pst_files st = fs' ∧ dir ≠ ""%string.
Proof.
  unfold initPersistent. destruct (String.eqb_spec dir ""); [done|]. intros H.
  repeat case_match; simplify_eq/=; by repeat case_match.
Qed.

(** C11: the meta.json of a persistent agent can be read back.  Take an agent
    whose identity is UTF-8 text, started before the year 2262 (a clock in
    nanoseconds of 64 bits), and any sequence of starts whose command,
    arguments, environment and directory are UTF-8 text and whose terminal size,
    if any, is of 16 bits ([start_ok]); texts that are not UTF-8 are not kept,
    [ex_invalid_utf8] below.  Suppose the decimal text of the one
    floating-point number the file holds, zero, is read back as zero.  Then the
    text of meta.json, written at start-up and rewritten at every start, is
    read back as the meta the agent model holds: the identity and the start
    time of the agent to the nanosecond, and every start recorded. *)
Theorem session_meta_readable (dir id : string) (now pid : Z) (a : init_answers) (fs fs' : session_files)
    (st : persistentState) (c : Conn) (z : nil_flags) (file : option string)
    (ps : list (nil_flags * StartChildPayload))
    (Hid : utf8 id) (Hnow : 0 ≤ now < 2 ^ 63) (Hpid : in_i 64 pid) (Hps : Forall start_ok ps.*2)
    (Hzero : float_ok float_text parse_float (S754_zero false))
    (Hinit : initPersistent dir id (session_spec id) now now pid a fs = (fs', Ok st)) :
  ∃ m0 text0 text, sf_meta fs' = Some m0 ∧
    WritePersistentMeta float_text z 0 None file "1.0" m0 = (Some text0, None) ∧
    foldl update_meta_file (Some text0) ps = Some text ∧
    (let m := mkMeta id (foldl meta_spec (session_spec id) ps.*2) pid now in
     ReadPersistentMeta parse_float parse_time (Some text) = Ok ("1.0"%string, m) ∧
     d_meta (foldl (update_meta None) (wire_dispatcher c dir (Some st)) ps.*2) = Some m).
Proof.
  destruct (initPersistent_meta _ _ _ _ _ _ _ _ _ Hinit) as (Hm & Hs & Hne).
  destruct (session_meta_text id now pid z file ps Hid Hnow Hpid Hps Hzero) as (text0 & text & Hw & Hf & Hr).
  eexists _, text0, text. do 3 (split; [done|]). split; [done|].
  by apply (update_metas _ (mkMeta id (session_spec id) pid now)); simpl; rewrite ?Hs.
Qed.
End File.

(** ** Examples *)

Module MetaExample.
Definition float_text (f : spec_float) : list ascii := chars "0".
Definition parse_float (l : list ascii) : option spec_float := if bool_decide (l = chars "0") then Some (S754_zero false) else None.
Definition parse_time (l : list ascii) : option Z := None.

Lemma zero_num_ok : num_ok (chars "0").
Proof. apply (int_text_ok 0). Qed.

Definition ex_init : init_answers := mkInit true None true true true.
Definition ex_now : Z := 1709210096789000001.
Definition ex_start (arg : string) : StartChildPayload :=
  mkStartChild "vi" ["-n"; arg]%string (<["TERM" := "xterm"]> (<["LANG" := "C"]> ∅))%string "/tmp" 1 2500 (Some (mkStartChildPTY 80 24 true)).
Definition ex_write (m : PersistentMeta) : option string * option meta_err :=
  WritePersistentMeta float_text (mkNils true true true) 0 None None "1.0" m.

(** An argument that is not UTF-8 is not kept: each byte comes back as
    U+FFFD. *)
Definition ex_bad : string := of_chars ["a"%char; chr 255; "b"%char].
Example ex_invalid_utf8 :
  (ReadPersistentMeta parse_float parse_time
     (ex_write (mkMeta "s" (meta_spec (session_spec "s") (ex_start ex_bad)) 42 ex_now)).1) =
  Ok ("1.0"%string, mkMeta "s" (meta_spec (session_spec "s") (ex_start (of_chars (["a"%char] ++ replacement ++ ["b"%char])))) 42 ex_now).
Proof. vm_compute. reflexivity. Qed.

(** A year JSON cannot hold leaves the file as it was. *)
Example ex_year : ex_write (mkMeta "s" (session_spec "s") 42 (300000000000 * second)) = (None, Some ErrMarshalMeta).
Proof. vm_compute. reflexivity. Qed.

Definition ex_conn : result Conn.conn_err Conn :=
  NewConn (mkConnConfig (Some (mkReader [] EOF, mkWriter [] None)) None false 8 1024 true 0).

Lemma ex_start_ok arg : utf8 arg → start_ok (ex_start arg).
Proof.
  intros H. split; [by split| |unfold env_ok|by split].
  - apply Forall_cons_2; [reflexivity|]. by apply Forall_singleton.
  - apply (bool_decide_unpack _). vm_compute. exact I.
Qed.

Lemma session_meta_readable_witness :
  ∃ c fs' st, ex_conn = Ok c ∧
    initPersistent "/s" "s" (session_spec "s") ex_now ex_now 42 ex_init (mkFiles None None false false) = (fs', Ok st) ∧
    let ps := [(mkNils false false true, ex_start "a"); (mkNils true true true, ex_start "b")] in
    ∃ m0 text0 text, sf_meta fs' = Some m0 ∧
      WritePersistentMeta float_text (mkNils true true true) 0 None None "1.0" m0 = (Some text0, None) ∧
      foldl (update_meta_file float_text parse_float parse_time) (Some text0) ps = Some text ∧
      (let m := mkMeta "s" (foldl meta_spec (session_spec "s") ps.*2) 42 ex_now in
       ReadPersistentMeta parse_float parse_time (Some text) = Ok ("1.0"%string, m) ∧
       d_meta (foldl (update_meta None) (wire_dispatcher c "/s" (Some st)) ps.*2) = Some m).
Proof.
  destruct ex_conn as [c|] eqn:E; [|vm_compute in E; discriminate E].
  eexists c, _, _. split; [done|]. split; [reflexivity|]. cbv zeta.
  apply (session_meta_readable float_text parse_float parse_time "/s" "s" ex_now 42 ex_init (mkFiles None None false false) _ _ c).
  - reflexivity.
  - done.
  - done.
  - repeat apply Forall_cons_2; [by apply ex_start_ok..|by apply Forall_nil].
  - split; [by eexists|]. split; [apply zero_num_ok|done].
  - reflexivity.
Defined.
End MetaExample.
