(* ===== verification/Session.v ===== *)
(** * A persistent session across two hosts

    The agent of a session writes its files and its handshake; a host that
    starts later reads them.  Here the agent (Agent.v, MetaFile.v,
    SessionFiles.v) and [Manager.Reattach] (Manager.v) meet: on the text of
    the files and the bytes of the socket. *)

From Stdlib Require Import Floats.SpecFloat.
From S2P Require Import Prelude Text Frame Seq Outbox Wal Spiller Message Conn RingBuffer CwTypes PtySubs.
From S2P Require Import Controller Agent SessionFiles Json GoTime Manager AgentMain MetaFile.

(** Identities are ASCII. *)
Lemma ascii_utf8 l : forallb (λ c, code c <? 128) l = true → valid_utf8 l = true.
Proof.
  unfold valid_utf8. induction l as [|c l IH]; [done|]. cbn [forallb runes]. intros [-> Hl]%andb_true_iff. by apply IH.
Qed.
Lemma validID_utf8 id : validID id = true → utf8 id.
Proof.
  unfold validID, utf8, chars. destruct (String.list_ascii_of_string id) as [|c l]; [done|]. intros H. apply ascii_utf8.
  revert H. rewrite !forallb_forall. intros H x Hx. specialize (H x Hx). revert H. unfold id_char, code.
  rewrite !orb_true_iff, !andb_true_iff. lia.
Qed.

Section Session.
Context `{!Codec HelloPayload, !Codec StartChildPayload, !Codec StopChildPayload,
          !Codec CapabilityReply, !Codec ChildStartedPayload, !Codec ChildExitedPayload,
          !Codec ChildErrorPayload, !Codec LogChunkPayload, !Codec Message.PTYData,
          !Codec PTYRingDumpPayload, !Codec AckPayload, !Codec PTYWrite, !Codec PTYResize, !Codec PTYSignal}
  (okH : HelloPayload → Prop) (okD : PTYRingDumpPayload → Prop)
  `{!CodecLaws HelloPayload okH, !CodecLaws PTYRingDumpPayload okD}.
Context (float_text : spec_float → list ascii) (parse_float : list ascii → option spec_float)
        (parse_time : list ascii → option Z).

(** What [Reattach] finds under a session's directory: the texts of meta.json
    and of the pid file, read as it reads them. *)
Definition session_on_disk (meta pid : option string) (sock attached : bool) : session_files :=
  mkFiles match ReadPersistentMeta parse_float parse_time meta with Ok (_, m) => Some m | Err _ => None end
          match ReadPidFile pid with Ok p => Some p | Err _ => None end sock attached.

(** The text of meta.json of an agent: what [initPersistent] writes, and each
    start after it. *)
Definition agent_meta (z : nil_flags) (m : PersistentMeta) (starts : list (nil_flags * StartChildPayload)) : option string :=
  foldl (update_meta_file float_text parse_float parse_time) (WritePersistentMeta float_text z 0 None None "1.0" m).1 starts.

Lemma NewConn_opens cfg rw : cfg_RWC cfg = Some rw → cfg_WALFails cfg = false →
  ∃ c, NewConn cfg = Ok c ∧ r_bytes (fr_r (c_fr c)) = r_bytes rw.1.
Proof.
  intros Hr Hw. unfold NewConn, NewSpiller, OpenWAL. rewrite Hr, Hw. destruct rw as [r w].
  destruct (cfg_DisableWAL cfg); by eexists.
Qed.

Lemma reattach_controller spec r w initial runtimeDir wal outcap disableWAL hasLog : runtimeDir ≠ ""%string →
  ∃ c cn, NewControllerFromReattach spec (Some (r, w)) initial runtimeDir wal false outcap disableWAL hasLog = Ok c ∧
    ct_Spec c = spec ∧ ct_state c = StateRunning ∧ ps_buffer (ct_pty c) = initial ∧ ps_drained (ct_pty c) = false ∧
    ct_conn c = Some cn ∧ r_bytes (fr_r (c_fr cn)) = r_bytes r.
Proof.
  intros Hd. unfold NewControllerFromReattach. rewrite (proj2 (String.eqb_neq _ _) Hd).
  destruct (NewConn_opens (mkConnConfig (Some (r, w)) wal false (if outcap <=? 0 then 1024 else outcap)
    (256 * 1024 * 1024) disableWAL 0) (r, w)) as (cn & -> & Hb); [done..|].
  eexists _, _. split; [done|]. split_and!; [done|done|by destruct initial..|done|].
  unfold Start. by repeat case_match.
Qed.

(** C9: a host that starts after another has gone gets its session back.  An
    agent that was started with an identity [Register] accepts and told to
    start the children [starts] has written a meta.json and a pid file from
    which [Reattach], over any cut of the handshake on the socket, builds a
    running handle under that identity: the spec with every start recorded, a
    first subscriber to be shown exactly the last 256 KiB of all output, and
    a connection that begins at the first frame after the handshake. *)
Theorem reattach_resumes_session (dir id : string) (now pid : Z) (a : init_answers) (fs fs' : session_files)
    (st : persistentState) (z : nil_flags) (starts : list (nil_flags * StartChildPayload)) (out : list bytes)
    (probe : Z → bool) (m : Manager) (r : Reader) (w : Writer) (rest hb db : bytes) (wal : option bytes)
    (Hid : validID id = true) (Hnow : 0 ≤ now < 2 ^ 63) (Hpid : 0 < pid < 2 ^ 63)
    (Hstarts : Forall start_ok starts.*2) (Hzero : float_ok float_text parse_float (S754_zero false))
    (Hinit : initPersistent dir id (session_spec id) now now pid a fs = (fs', Ok st))
    (Halive : probe pid = true) (Hfree : m_handles m !! id = None) (Hdir : m_runtimeDir m ≠ ""%string) :
  let meta := mkMeta id (session_spec id) pid now in
  let spec := foldl meta_spec (session_spec id) starts.*2 in
  let hello := mkHello ProtocolVersion id now in
  let dump := mkPTYRingDump (last_n (Z.to_nat (256 * 1024)) (concat out)) in
  okH hello → okD dump → EncodePayload hello = Ok hb → EncodePayload dump = Ok db →
  Z.of_nat (length hb) ≤ MaxPayloadSize → Z.of_nat (length db) ≤ MaxPayloadSize →
  r_bytes r = w_out (writeReattachHandshake (ring_output st out) (mkWriter [] None) id now).1 ++ rest →
  sf_meta fs' = Some meta ∧
  ∃ c cn, Reattach m (session_on_disk (agent_meta z meta starts) (WritePidFile false pid) true false) (IsPidAlive probe)
      (inr (r, w)) wal false = (upd_handles m (<[id := new_handle spec (Some c)]> (m_handles m)), Ok ()) ∧
    ct_Spec c = spec ∧ ct_state c = StateRunning ∧ ps_buffer (ct_pty c) = rd_Bytes dump ∧ ps_drained (ct_pty c) = false ∧
    ct_conn c = Some cn ∧ r_bytes (fr_r (c_fr cn)) = rest.
Proof.
  intros meta spec hello dump HokH HokD Hhb Hdb Hhl Hdl Hr.
  destruct (initPersistent_meta _ _ _ _ _ _ _ _ _ Hinit) as (Hm & _ & _). split; [done|].
  destruct (session_meta_text float_text parse_float parse_time id now pid z None starts) as (text0 & text & Hw & Hf & Hread);
    [by apply validID_utf8|done|unfold in_i; lia|done..|].
  assert (session_on_disk (agent_meta z meta starts) (WritePidFile false pid) true false =
          mkFiles (Some (mkMeta id spec pid now)) (Some pid) true false) as ->.
  { unfold session_on_disk, agent_meta, meta. rewrite Hw. cbn [fst]. by rewrite Hf, Hread, pid_file_roundtrip by lia. }
  assert (mkPTYRingDump (AgentRing.Snapshot (pst_ring (ring_output st out))) = dump) as Hsnap.
  { unfold dump. f_equal. apply (agent_ring_last (256 * 1024)). by apply initPersistent_ring in Hinit. }
  rewrite <- Hsnap in HokD, Hdb.
  destruct (handshake_read okH okD (ring_output st out) id now r rest hb db HokH HokD Hhb Hdb Hhl ltac:(unfold MaxPayloadSize in *; lia) Hr)
    as (r1 & r2 & H1 & H2 & H3).
  rewrite Hsnap in H2. rewrite (proj2 (Z.ltb_ge _ _)) in H2 by done.
  destruct (reattach_controller spec r2 w (rd_Bytes dump) (m_runtimeDir m) wal (m_outboxCapacity m) (m_disableWAL m) true Hdir)
    as (c & cn & Hc & H4 & H5 & H6 & H7 & H8 & H9).
  exists c, cn. unfold Reattach, IsPidAlive. cbn [sf_meta sf_pid pm_StartedAt pm_Spec pm_ID].
  change (default _ _) with pid. rewrite (proj2 (Z.leb_gt _ _)), Halive by lia. cbn [negb].
  rewrite H1. cbn [hello_StartedAt]. rewrite Z.eqb_refl. cbn [negb]. rewrite H2, Hc, Hfree.
  split_and!; try done. rewrite H9. by apply H3.
Qed.
End Session.

Module SessionExample.
Import MetaExample.

(** One start and two chunks of output before the host is gone. *)
Definition ex_starts : list (nil_flags * StartChildPayload) := [(mkNils false false true, ex_start "a")].
Definition ex_output : list bytes := [[x61; x62]; [x63; x64]].
Definition ex_hello : HelloPayload := mkHello ProtocolVersion "s" ex_now.
Definition ex_dump : PTYRingDumpPayload := mkPTYRingDump (last_n (Z.to_nat (256 * 1024)) (concat ex_output)).

#[local] Instance hello_codec : Codec HelloPayload :=
  {| Marshal _ := Ok [x01]; Unmarshal _ _ := (ex_hello, None) |}.
#[local] Instance dump_codec : Codec PTYRingDumpPayload :=
  {| Marshal _ := Ok [x02]; Unmarshal _ _ := (ex_dump, None) |}.
#[local] Instance other_codec {A} : Codec A | 100 := echo_codec.
#[local] Instance hello_laws : CodecLaws HelloPayload (λ h, h = ex_hello).
Proof. split; [by eauto|]. by intros ? ? ->. Defined.
#[local] Instance dump_laws : CodecLaws PTYRingDumpPayload (λ d, d = ex_dump).
Proof. split; [by eauto|]. by intros ? ? ->. Defined.

Definition ex_files : session_files := mkFiles None None false false.
Definition ex_wire (st : persistentState) : bytes :=
  w_out (writeReattachHandshake (ring_output st ex_output) (mkWriter [] None) "s" ex_now).1.

Lemma reattach_resumes_session_witness :
  ∃ fs st, initPersistent "/s" "s" (session_spec "s") ex_now ex_now 42 ex_init ex_files = (fs, Ok st) ∧
  let meta := mkMeta "s" (session_spec "s") 42 ex_now in
  let spec := foldl meta_spec (session_spec "s") ex_starts.*2 in
  let m := ManagerExample.ex_mgr in
  let w := mkWriter [] None in
  sf_meta fs = Some meta ∧
  ∃ c cn, Reattach m (session_on_disk parse_float parse_time (agent_meta float_text parse_float parse_time (mkNils true true true) meta ex_starts)
        (WritePidFile false 42) true false) (IsPidAlive (λ _, true)) (inr (mkReader [ex_wire st; [x7a]] EOF, w)) None false =
      (upd_handles m (<["s"%string := new_handle spec (Some c)]> (m_handles m)), Ok ()) ∧
    ct_Spec c = spec ∧ ct_state c = StateRunning ∧ ps_buffer (ct_pty c) = rd_Bytes ex_dump ∧ ps_drained (ct_pty c) = false ∧
    ct_conn c = Some cn ∧ r_bytes (fr_r (c_fr cn)) = [x7a].
Proof.
  eexists _, _. split; [reflexivity|]. intros meta spec m w.
  eapply (reattach_resumes_session (λ h, h = ex_hello) (λ d, d = ex_dump) float_text parse_float parse_time
    "/s" "s" ex_now 42 ex_init ex_files _ _ (mkNils true true true) ex_starts ex_output (λ _, true) m
    (mkReader [ex_wire _; [x7a]] EOF) w [x7a] [x01] [x02] None); try reflexivity; try done.
  - apply Forall_cons_2; [by apply ex_start_ok|by apply Forall_nil].
  - split; [by eexists|]. split; [apply zero_num_ok|done].
Defined.
End SessionExample.
