(* ===== verification/AgentReports.v ===== *)
(** * What an agent tells its host

    The reports of the agent (CHILD_STARTED, CHILD_EXITED) against what its
    goroutines did, the frames it sends as operations of its connection, and
    what its steps keep: the facts System joins to the host's side. *)

From S2P Require Import Prelude Text Frame Seq Outbox Wal Spiller Message Conn Link RingBuffer CwTypes PtySubs.
From S2P Require Import Controller Agent.

(** The operations of the agent that do not come over the wire. *)
Definition agent_local (op : agent_op) : bool :=
  match op with AMsg _ _ _ _ _ | AAdopt _ => false | _ => true end.

Section Reports.
Context `{!Codec HelloAckPayload, !Codec AckPayload, !Codec ChildErrorPayload, !Codec CapabilityReply,
          !Codec ChildStartedPayload, !Codec ChildExitedPayload, !Codec LogChunkPayload,
          !Codec Message.PTYData, !Codec StartChildPayload, !Codec StopChildPayload, !Codec PTYWrite,
          !Codec PTYResize, !Codec PTYSignal} (err_text : codec_err → string).

(** ** What the agent tells, and what it did *)

Definition sent_started (e : agent_event) : option Z :=
  match e with DSent (AStarted p) => Some (cs_PID p) | _ => None end.
Definition sent_exited (e : agent_event) : option Z :=
  match e with DSent (AExited p) => Some (ce_ExitCode p) | _ => None end.

(** The values Go's field types hold. *)
Definition started_ok (p : ChildStartedPayload) : Prop := in_i 32 (cs_PID p) ∧ in_i 64 (cs_StartedAt p).
Definition exited_ok (p : ChildExitedPayload) : Prop :=
  in_i 32 (ce_PID p) ∧ in_i 32 (ce_ExitCode p) ∧ in_i 32 (ce_Signal p) ∧ in_i 64 (ce_ExitedAt p).
Definition sent_ok (e : agent_event) : Prop :=
  match e with
  | DSent (AStarted p) => started_ok p
  | DSent (AExited p) => exited_ok p
  | _ => True
  end.

(** Clock readings are 64-bit. *)
Definition agent_op_ok (op : agent_op) : Prop :=
  match op with GStarted _ _ _ now | GWait _ _ now => in_i 64 now | _ => True end.

(** A child waited for whose report is not out yet. *)
Definition returned (g : runner_g) : bool :=
  match g_phase g with PhReturned _ (Ok _) _ => true | _ => false end.
Definition returned_at_ok (g : runner_g) : Prop :=
  match g_phase g with PhReturned _ (Ok _) at_ => in_i 64 at_ | _ => True end.

Record report_inv (d : Dispatcher) (evs : list agent_event) : Prop := mkReportInv {
  ri_at : Forall returned_at_ok (d_gs d);
  ri_started : omap sent_started evs `sublist_of` (i32 <$> omap spawned evs);
  ri_exits : (length (omap sent_exited evs) + count returned (d_gs d) ≤ length (omap waited evs))%nat;
  ri_ok : Forall sent_ok evs }.

(** Events that report nothing about a child. *)
Definition no_report (es : list agent_event) : Prop :=
  omap sent_started es = [] ∧ omap sent_exited es = [] ∧ Forall sent_ok es.

Lemma no_report_nil : no_report [].
Proof. by repeat split. Qed.
Lemma no_report_cons e es : sent_started e = None → sent_exited e = None → no_report es → no_report (e :: es).
Proof.
  intros H1 H2 (E1 & E2 & E3). unfold no_report. csimpl. rewrite H1, H2. split_and!; try done.
  constructor; [|done]. by destruct e as [[]| | | | | | |].
Qed.
Lemma no_report_app es es' : no_report es → no_report es' → no_report (es ++ es').
Proof.
  intros (A1 & A2 & A3) (B1 & B2 & B3). unfold no_report. rewrite !omap_app, A1, A2, B1, B2.
  split_and!; try done. by apply Forall_app_2.
Qed.
#[local] Hint Resolve no_report_nil no_report_cons no_report_app : cliwrap.

Definition plain_msg (m : agent_msg) : Prop := match m with AStarted _ | AExited _ => False | _ => True end.

Lemma SendControl_no_report s d m a : plain_msg m → no_report (SendControl s d m a).2.
Proof.
  intros Hm. unfold SendControl. destruct (msg_frame m) as [t []]; [|apply no_report_nil].
  destruct (SendWithNewSeq _ _ _ _ _) as [[]]. simpl. apply no_report_cons; [by destruct m..|apply no_report_nil].
Qed.

Lemma SendControl_gs s d m a : d_gs (SendControl s d m a).1 = d_gs d.
Proof. pose proof (SendControl_core s d m a) as H. by injection H. Qed.

Lemma SendControl_cases s d m a :
  ∃ d' es, SendControl s d m a = (d', es) ∧ d_gs d' = d_gs d ∧ (es = [] ∨ es = [DSent m]).
Proof.
  unfold SendControl. destruct (msg_frame m) as [t [data|e]].
  - destruct (SendWithNewSeq _ _ _ _ _) as [[c b] x]. eexists _, _. split; [done|]. split; [done|by right].
  - exists d, []. auto.
Qed.

(** A step that reports nothing and moves no goroutine into or out of
    [PhReturned]. *)
Lemma report_inv_frame d d' evs es :
  report_inv d evs → no_report es → Forall returned_at_ok (d_gs d') →
  (count returned (d_gs d') ≤ count returned (d_gs d) + length (omap waited es))%nat →
  report_inv d' (evs ++ es).
Proof.
  intros [H1 H2 H3 H4] (E1 & E2 & E3) Hat Hc. split; rewrite ?omap_app, ?E1, ?E2, ?app_nil_r; try done.
  - rewrite fmap_app. by apply sublist_inserts_r.
  - rewrite length_app. lia.
  - by apply Forall_app_2.
Qed.

Lemma report_inv_same d d' evs es :
  report_inv d evs → no_report es → d_gs d' = d_gs d → report_inv d' (evs ++ es).
Proof. intros H Hn E. apply (report_inv_frame d); rewrite ?E; try done; [apply H|lia]. Qed.

(** Goroutines whose reports stay as they are. *)
Definition tame (gs gs' : list runner_g) : Prop :=
  (Forall returned_at_ok gs → Forall returned_at_ok gs') ∧ count returned gs' = count returned gs.

Lemma tame_refl gs : tame gs gs.
Proof. done. Qed.
Lemma tame_alter f gs i g :
  gs !! i = Some g → returned (f g) = returned g → (returned_at_ok g → returned_at_ok (f g)) →
  tame gs (alter f i gs).
Proof.
  intros Hi Hr Ha. split; [|by eapply count_keep].
  rewrite !Forall_lookup. intros H j x. destruct (decide (i = j)) as [<-|Hne].
  - rewrite list_lookup_alter_eq, Hi. intros [= <-]. eauto.
  - rewrite list_lookup_alter_ne by done. eauto.
Qed.
Lemma tame_phase gs i g ph :
  gs !! i = Some g → returned g = false → (∀ pid r at_, ph ≠ PhReturned pid (Ok r) at_) →
  tame gs (alter (λ g, mkG (g_payload g) (g_cancelled g) ph) i gs).
Proof.
  intros Hi Hr Hp. eapply tame_alter; [done| |].
  - rewrite Hr. unfold returned. simpl. destruct ph as [| | |? [] ?| | | |]; try done. by destruct (Hp pid a at_).
  - intros _. unfold returned_at_ok. simpl. destruct ph as [| | |? [] ?| | | |]; try done. by destruct (Hp pid a at_).
Qed.
#[local] Hint Resolve tame_refl : cliwrap.

Lemma report_inv_tame d d' evs es :
  report_inv d evs → no_report es → tame (d_gs d) (d_gs d') → report_inv d' (evs ++ es).
Proof. intros H Hn [T1 T2]. apply (report_inv_frame d); try done; [apply T1, H|lia]. Qed.

Lemma finish_tame s d h : no_report (finish s d h).2 ∧ d_gs (finish s d h).1 = d_gs d.
Proof.
  assert (∀ es, no_report es → no_report (DHandled h :: es)) as Hh by (intros; by apply no_report_cons).
  unfold finish. destruct (ack_required h); [|split; [apply Hh, no_report_nil|done]].
  pose proof (SendControl_no_report s d (AAck (mkAck (h_SeqNo h))) false I) as H1.
  pose proof (SendControl_gs s d (AAck (mkAck (h_SeqNo h))) false) as H2.
  destruct (SendControl _ _ _ _). simpl in *. auto.
Qed.

Lemma alter_none {A} (f : A → A) i (l : list A) : l !! i = None → alter f i l = l.
Proof. revert i. induction l as [|x l IH]; intros [|i] Hi; simplify_eq/=; [done..|]. f_equal. by apply IH. Qed.

Lemma startChild_tame s fail d p :
  no_report (startChild s fail d p).2 ∧ tame (d_gs d) (d_gs (startChild s fail d p).1).
Proof.
  unfold startChild. destruct (d_cancelFn d).
  { split; [by apply SendControl_no_report|rewrite SendControl_gs; apply tame_refl]. }
  split; [apply no_report_nil|]. simpl.
  assert (d_gs (update_meta fail (installLogSinks d) p) = d_gs d) as ->.
  { pose proof (update_meta_core fail (installLogSinks d) p) as Hc. by injection Hc. }
  split.
  - intros H. apply Forall_app_2; [done|]. by repeat constructor.
  - unfold count. rewrite filter_app, length_app. simpl. lia.
Qed.

Lemma handle_body_tame s nocap fail io d msg :
  no_report (handle_body err_text s nocap fail io d msg).2 ∧
  tame (d_gs d) (d_gs (handle_body err_text s nocap fail io d msg).1).
Proof.
  assert (∀ m, plain_msg m → no_report (SendControl s d m false).2 ∧
    tame (d_gs d) (d_gs (SendControl s d m false).1)) as Hs.
  { intros m Hm. rewrite SendControl_gs. auto using SendControl_no_report, tame_refl. }
  assert (∀ ph ev, sent_started ev = None → sent_exited ev = None →
    no_report (active_pty_op s d ph io ev).2 ∧ tame (d_gs d) (d_gs (active_pty_op s d ph io ev).1)) as Hp.
  { intros ph ev H1 H2. unfold active_pty_op. destruct (d_activePTY d); [destruct io; [by apply Hs|]|by apply Hs].
    split; [by apply no_report_cons|apply tame_refl]. }
  unfold handle_body.
  repeat match goal with
  | |- context [if ?b then _ else _] => destruct b
  | |- context [Unmarshal ?x ?y] => destruct (Unmarshal x y) as [? []]
  | |- context [decode_new ?x] => destruct (decode_new x) as [? []]
  end; first [by apply Hs | by apply startChild_tame | by apply Hp | split; [apply no_report_nil|apply tame_refl]].
Qed.

Lemma Handle_tame s nocap fail io d msg :
  no_report (Handle err_text s nocap fail io d msg).2 ∧
  tame (d_gs d) (d_gs (Handle err_text s nocap fail io d msg).1).
Proof.
  unfold Handle. destruct (is_stop (m_Header msg)).
  - assert (tame (d_gs d) (d_gs (stopChild d).1)) as Hs.
    { unfold stopChild. destruct (d_cancelFn d) as [i|]; [|apply tame_refl]. simpl.
      destruct (d_gs d !! i) as [g|] eqn:Hi.
      - by eapply tame_alter.
      - by rewrite alter_none. }
    destruct (stopChild d) as [d1 []]; simpl in *; [split; [apply no_report_nil|done]|].
    destruct (finish_tame s d1 (m_Header msg)) as [F1 F2]. by rewrite F2.
  - destruct (handle_body_tame s nocap fail io d msg) as [B1 B2].
    destruct (handle_body _ _ _ _ _ _ _) as [d1 e1]. simpl in *.
    destruct (finish_tame s d1 (m_Header msg)) as [F1 F2].
    destruct (finish s d1 (m_Header msg)) as [d2 e2]. simpl in *. rewrite F2. split; [by apply no_report_app|done].
Qed.

Lemma Handle_resume_tame s k d :
  no_report (Handle_resume s k d).2 ∧ tame (d_gs d) (d_gs (Handle_resume s k d).1).
Proof.
  unfold Handle_resume. destruct (d_wg d); [|split; [apply no_report_nil|done]].
  destruct (d_waiting d !! k) as [h|]; [|split; [apply no_report_nil|done]].
  destruct (finish_tame s (upd_waiting d (delete k (d_waiting d))) h) as [F1 F2].
  by rewrite F2.
Qed.

Lemma chunk_write_tame s d st p :
  no_report (chunk_write s d st p).2 ∧ d_gs (chunk_write s d st p).1 = d_gs d.
Proof.
  unfold chunk_write. destruct (d_sinks d) as [[o e]|]; [|split; [apply no_report_nil|done]].
  destruct (_ =? _)%nat; [split; [apply no_report_nil|done]|].
  split; [by apply SendControl_no_report|by rewrite SendControl_gs].
Qed.

Lemma on_data_tame s i b d : no_report (on_data s i b d).2 ∧ tame (d_gs d) (d_gs (on_data s i b d).1).
Proof.
  unfold on_data. destruct (d_gs d !! i) as [[p c []]|] eqn:Hi; simpl; try (split; [apply no_report_nil|done]).
  set (n := u64 (seq + 1)). set (d0 := set_phase d i (PhPty pid n)). set (m := APtyData _).
  pose proof (SendControl_no_report s d0 m false I) as H1. pose proof (SendControl_gs s d0 m false) as H2.
  destruct (SendControl s d0 m false) as [d1 e1]. destruct (chunk_write_tame s d1 0 b) as [C1 C2].
  destruct (chunk_write s d1 0 b) as [d2 e2]. simpl in *. split; [by apply no_report_app|].
  rewrite C2, H2. by eapply tame_phase.
Qed.

(** A child starts, is waited for, is reported. *)
Lemma run_started_report s i pid now d evs :
  in_i 64 now → report_inv d evs →
  report_inv (run_started s i pid now d).1 (evs ++ (run_started s i pid now d).2).
Proof.
  intros Hnow H. unfold run_started.
  destruct (d_gs d !! i) as [[p c []]|] eqn:Hi; simpl; try (by apply (report_inv_same d); [|apply no_report_nil|]).
  set (d2 := upd_child _ _ _ _ _ _). set (m := AStarted _).
  assert (tame (d_gs d) (d_gs d2)) as [T1 T2] by (simpl; by eapply tame_phase).
  destruct (SendControl_cases s d2 m false) as (d3 & es & -> & Eg & Hes).
  simpl. destruct H as [H1 H2 H3 H4]. rewrite <- T2, <- Eg in H3. split; rewrite ?omap_app.
  - rewrite Eg. auto.
  - rewrite fmap_app. apply sublist_app; [done|]. destruct Hes as [->| ->]; simpl; [apply sublist_nil_l|done].
  - destruct Hes as [->| ->]; csimpl; by rewrite !app_nil_r.
  - assert (sent_ok (DSent m)) as Hm by (split; [by apply wrap_i_range|done]).
    apply Forall_app_2; [done|]. constructor; [done|]. destruct Hes as [->| ->]; [done|].
    by apply Forall_singleton.
Qed.

Lemma run_wait_report i w now d evs :
  in_i 64 now → report_inv d evs → report_inv (run_wait i w now d).1 (evs ++ (run_wait i w now d).2).
Proof.
  intros Hnow H. unfold run_wait.
  destruct (d_gs d !! i) as [[p c ph]|] eqn:Hi; [|by apply (report_inv_same d); [|apply no_report_nil|]].
  assert (∀ pid d', returned (mkG p c ph) = false →
    d_gs d' = alter (λ g, mkG (g_payload g) (g_cancelled g) (PhReturned pid (exit_status w) now)) i (d_gs d) →
    report_inv d' (evs ++ [DWaited pid])) as Hw.
  { intros pid d' Hr Hg. apply (report_inv_frame d); [done|apply no_report_cons; [done..|apply no_report_nil]| |].
    - rewrite Hg. pose proof (ri_at _ _ H) as Ha. revert Ha. rewrite !Forall_lookup. intros Ha j x.
      destruct (decide (i = j)) as [<-|Hne].
      + rewrite list_lookup_alter_eq, Hi. intros [= <-]. unfold returned_at_ok. simpl. by destruct (exit_status w).
      + rewrite list_lookup_alter_ne by done. apply Ha.
    - rewrite Hg. set (f := λ g : runner_g, _). pose proof (count_alter returned f _ i _ Hi) as Hc.
      rewrite Hr in Hc. simpl in *. destruct (returned (f _)); lia. }
  destruct ph; try (by apply (report_inv_same d); [|apply no_report_nil|]).
  - destruct (sc_PTY p); [by apply (report_inv_same d); [|apply no_report_nil|]|]. by apply Hw.
  - by apply Hw.
Qed.

Lemma run_report_report s i d evs :
  report_inv d evs → report_inv (run_report s i d).1 (evs ++ (run_report s i d).2).
Proof.
  intros H. unfold run_report.
  destruct (d_gs d !! i) as [[p c []]|] eqn:Hi; simpl; try (by apply (report_inv_same d); [|apply no_report_nil|]).
  set (d0 := set_phase d i PhReported).
  pose proof (count_alter returned (λ g, mkG (g_payload g) (g_cancelled g) PhReported) _ i _ Hi) as Hc.
  pose proof (ri_at _ _ H) as Ha.
  assert (Forall returned_at_ok (d_gs d0)) as Ha0.
  { revert Ha. rewrite !Forall_lookup. intros Ha j x. simpl. destruct (decide (i = j)) as [<-|Hne].
    - rewrite list_lookup_alter_eq, Hi. by intros [= <-].
    - rewrite list_lookup_alter_ne by done. apply Ha. }
  destruct r as [[code sig]|text].
  - rewrite Forall_lookup in Ha. specialize (Ha i _ Hi). simpl in Ha.
    set (m := AExited _). destruct H as [H1 H2 H3 H4].
    destruct (SendControl_cases s d0 m false) as (d1 & es & -> & Eg & Hes).
    simpl. split; rewrite ?omap_app, ?Eg; try done.
    + rewrite fmap_app. destruct Hes as [->| ->]; csimpl; by rewrite !app_nil_r.
    + simpl in *. rewrite length_app. destruct Hes as [->| ->]; csimpl; rewrite ?app_nil_r; simpl; lia.
    + assert (sent_ok (DSent m)) as Hm by (split_and!; [by apply wrap_i_range..|done]).
      apply Forall_app_2; [done|]. destruct Hes as [->| ->]; [done|]. by apply Forall_singleton.
  - apply (report_inv_frame d); [done|by apply SendControl_no_report| |]; rewrite SendControl_gs; [done|].
    simpl in *. lia.
Qed.

(** Every step of the agent keeps the books of its reports. *)
Lemma agent_step_report d evs op :
  agent_op_ok op → report_inv d evs →
  report_inv (agent_step err_text d op).1 (evs ++ (agent_step err_text d op).2).
Proof.
  intros Hop H. assert (report_inv d (evs ++ [])) as H0 by (by apply (report_inv_same d); [|apply no_report_nil|]).
  assert (∀ d', tame (d_gs d) (d_gs d') → report_inv d' (evs ++ [])) as Hq
    by (intros; by apply (report_inv_tame d); [|apply no_report_nil|]).
  destruct op; cbn [agent_step].
  - destruct (Handle_tame s nocap fail io d msg). by apply (report_inv_tame d).
  - destruct (Handle_resume_tame s k d). by apply (report_inv_tame d).
  - by apply Hq.
  - unfold run_fail. destruct (d_gs d !! i) as [[p c []]|] eqn:Hi; simpl; try done. apply Hq. by eapply tame_phase.
  - by apply run_started_report.
  - unfold run_pty_register. destruct (d_gs d !! i) as [[p c []]|] eqn:Hi; simpl; try done.
    destruct (sc_PTY p); [|done]. apply Hq. by eapply tame_phase.
  - destruct (on_data_tame s i b d). by apply (report_inv_tame d).
  - unfold pipe_data. destruct (d_gs d !! i) as [[p c []]|]; simpl; try done.
    destruct (chunk_write_tame s d (if stderr then 1 else 0) b) as [C1 C2]. by apply (report_inv_same d).
  - by apply run_wait_report.
  - by apply run_report_report.
  - unfold run_clear. destruct (d_gs d !! i) as [[p c []]|] eqn:Hi; simpl; try done.
    apply (report_inv_tame d); [done| |].
    + unfold requestPersistentShutdown. destruct (negb _); [apply no_report_nil|].
      destruct (d_shutdownReq _) as [[]|]; try apply no_report_nil. apply no_report_cons; [done..|apply no_report_nil].
    + assert (∀ d1, d_gs (requestPersistentShutdown d1).1 = d_gs d1) as ->.
      { intros d1. unfold requestPersistentShutdown. destruct (negb _); [done|]. by destruct (d_shutdownReq _) as [[]|]. }
      simpl. by eapply tame_phase.
  - unfold run_done. destruct (d_gs d !! i) as [[p c []]|] eqn:Hi; simpl; try done. apply Hq. by eapply tame_phase.
  - unfold run_release. destruct (d_gs d !! i) as [[p c []]|] eqn:Hi; simpl; try done. apply Hq. by eapply tame_phase.
Qed.

(** ** The agent's sends, seen from its connection *)

Definition agent_frame (e : agent_event) : option (Z * bytes) :=
  match e with
  | DSent m => match msg_frame m with (t, Ok data) => Some (t, data) | _ => None end
  | _ => None
  end.

(** Nobody awaits acknowledgements on this side. *)
Definition no_await (t : Z) : Prop := False.

(** At most [n] sends lead from one connection to the other; their frames are
    those of the events. *)
Definition sends (n : nat) (d d' : Dispatcher) (es : list agent_event) : Prop :=
  ∃ cops, Forall (owner_op no_await) cops ∧ OpRead ∉ cops ∧
    d_conn d' = (run_trace conn_step (d_conn d) cops).1 ∧ omap op_frame cops = omap agent_frame es ∧
    (length cops ≤ n)%nat.

Lemma sends_quiet n d d' es : omap agent_frame es = [] → d_conn d' = d_conn d → sends n d d' es.
Proof. intros H1 H2. exists []. split_and!; try done; [by intros ?%elem_of_nil|simpl; lia]. Qed.

Lemma sends_trans n m d d1 d2 es es' :
  sends n d d1 es → sends m d1 d2 es' → sends (n + m) d d2 (es ++ es').
Proof.
  intros (o1 & A1 & A2 & A3 & A4 & A5) (o2 & B1 & B2 & B3 & B4 & B5). exists (o1 ++ o2).
  rewrite run_trace_app, !omap_app, length_app, elem_of_app, A4, B4. rewrite B3, A3.
  destruct (run_trace conn_step (d_conn d) o1) as [c1 x1]. simpl. destruct (run_trace conn_step c1 o2). simpl.
  split_and!; try done; [by apply Forall_app_2|tauto|lia].
Qed.

Lemma sends_le n m d d' es : sends n d d' es → (n ≤ m)%nat → sends m d d' es.
Proof. intros (o & H1 & H2 & H3 & H4 & H5) ?. exists o. split_and!; try done. lia. Qed.

Lemma sends_same n d d0 d' es : d_conn d0 = d_conn d → sends n d0 d' es → sends n d d' es.
Proof. unfold sends. by intros ->. Qed.
Lemma sends_same_r n d d0 d' es : d_conn d' = d_conn d0 → sends n d d0 es → sends n d d' es.
Proof. unfold sends. by intros ->. Qed.

Lemma sends_cons n d d' e es : agent_frame e = None → sends n d d' es → sends n d d' (e :: es).
Proof. intros He (o & H1 & H2 & H3 & H4 & H5). exists o. csimpl. by rewrite He. Qed.

Lemma SendControl_sends s d m a : sends 1 d (SendControl s d m a).1 (SendControl s d m a).2.
Proof.
  assert (in_u 8 (msg_frame m).1) as Ht by (destruct m; done).
  unfold SendControl. destruct (msg_frame m) as [t [data|e]] eqn:Em; [|by apply sends_quiet].
  set (fl := if a then FlagAckRequired else 0). assert (in_u 8 fl) by (by destruct a).
  exists [OpSendNew s t fl data]. simpl. rewrite ?Em. destruct (SendWithNewSeq _ _ _ _ _) as [[c b] x].
  split_and!; simpl; try done.
  - apply Forall_singleton. by split.
  - by intros ?%list_elem_of_singleton.
  - by rewrite Em.
Qed.

Lemma chunk_write_sends s d st p : sends 1 d (chunk_write s d st p).1 (chunk_write s d st p).2.
Proof.
  unfold chunk_write. destruct (d_sinks d) as [[o e]|]; [|by apply sends_quiet].
  destruct (_ =? _)%nat; [by apply sends_quiet|].
  set (d1 := upd_runner _ _ _ _). apply (sends_same 1 d d1); [done|]. apply SendControl_sends.
Qed.

Lemma finish_sends s d h : sends 1 d (finish s d h).1 (finish s d h).2.
Proof.
  unfold finish. destruct (ack_required h); [|by apply sends_quiet].
  pose proof (SendControl_sends s d (AAck (mkAck (h_SeqNo h))) false) as H.
  destruct (SendControl _ _ _ _). by apply sends_cons.
Qed.

Lemma handle_body_sends s nocap fail io d msg :
  sends 1 d (handle_body err_text s nocap fail io d msg).1 (handle_body err_text s nocap fail io d msg).2.
Proof.
  assert (∀ ph ev, agent_frame ev = None →
    sends 1 d (active_pty_op s d ph io ev).1 (active_pty_op s d ph io ev).2) as Hp.
  { intros ph ev He. unfold active_pty_op. destruct (d_activePTY d); [destruct io|]; try apply SendControl_sends.
    apply sends_quiet; [|done]. csimpl. by rewrite He. }
  assert (∀ p, sends 1 d (startChild s fail d p).1 (startChild s fail d p).2) as Hst.
  { intros p. unfold startChild. destruct (d_cancelFn d); [apply SendControl_sends|].
    apply sends_quiet; [done|]. simpl. unfold update_meta. by repeat case_match. }
  unfold handle_body.
  repeat match goal with
  | |- context [if ?b then _ else _] => destruct b
  | |- context [Unmarshal ?x ?y] => destruct (Unmarshal x y) as [? []]
  | |- context [decode_new ?x] => destruct (decode_new x) as [? []]
  end; first [by apply SendControl_sends | by apply Hst | by apply Hp | by apply sends_quiet].
Qed.

Lemma Handle_sends s nocap fail io d msg :
  sends 2 d (Handle err_text s nocap fail io d msg).1 (Handle err_text s nocap fail io d msg).2.
Proof.
  unfold Handle. destruct (is_stop (m_Header msg)).
  - assert (d_conn (stopChild d).1 = d_conn d) as Hc by (unfold stopChild; by destruct (d_cancelFn d)).
    destruct (stopChild d) as [d1 []]; simpl in *; [by apply sends_quiet|].
    apply (sends_same 2 d d1); [done|]. eapply sends_le; [apply finish_sends|lia].
  - pose proof (handle_body_sends s nocap fail io d msg) as H1.
    destruct (handle_body _ _ _ _ _ _ _) as [d1 e1]. pose proof (finish_sends s d1 (m_Header msg)) as H2.
    destruct (finish s d1 (m_Header msg)) as [d2 e2]. simpl in *. by apply (sends_trans 1 1 d d1).
Qed.

Lemma agent_step_sends d op :
  match op with AAdopt _ => False | _ => True end →
  sends 2 d (agent_step err_text d op).1 (agent_step err_text d op).2.
Proof.
  intros Hop. destruct op; try done; cbn [agent_step].
  - apply Handle_sends.
  - unfold Handle_resume. destruct (d_wg d); [|by apply sends_quiet].
    destruct (d_waiting d !! k) as [h|]; [|by apply sends_quiet].
    eapply sends_le; [|by apply (le_S 1)]. set (d1 := upd_waiting _ _).
    apply (sends_same 1 d d1); [done|apply finish_sends].
  - unfold run_fail. by repeat case_match; apply sends_quiet.
  - unfold run_started. destruct (g_phase <$> d_gs d !! i) as [[]|]; try by apply sends_quiet.
    set (d1 := upd_child _ _ _ _ _ _). eapply sends_le; [|by apply (le_S 1)].
    pose proof (SendControl_sends s d1 (AStarted (mkChildStarted (i32 pid) now)) false) as H.
    destruct (SendControl _ _ _ _). apply sends_cons; [done|]. by apply (sends_same 1 d d1).
  - unfold run_pty_register. by repeat case_match; apply sends_quiet.
  - unfold on_data. destruct (g_phase <$> d_gs d !! i) as [[]|]; try by apply sends_quiet.
    set (d0 := set_phase _ _ _). set (m := APtyData _).
    pose proof (SendControl_sends s d0 m false) as H1. destruct (SendControl s d0 m false) as [d1 e1].
    pose proof (chunk_write_sends s d1 0 b) as H2. destruct (chunk_write s d1 0 b) as [d2 e2]. simpl in *.
    eapply sends_same_r; [done|]. apply (sends_same 2 d d0); [done|]. by apply (sends_trans 1 1 d0 d1).
  - unfold pipe_data. destruct (g_phase <$> d_gs d !! i) as [[]|]; try by apply sends_quiet.
    eapply sends_le; [apply chunk_write_sends|lia].
  - unfold run_wait. by repeat case_match; apply sends_quiet.
  - unfold run_report. destruct (g_phase <$> d_gs d !! i) as [[]|]; try by apply sends_quiet.
    eapply sends_le; [|by apply (le_S 1)]. set (d1 := set_phase _ _ _).
    apply (sends_same 1 d d1); [done|apply SendControl_sends].
  - unfold run_clear. destruct (g_phase <$> d_gs d !! i) as [[]|]; try by apply sends_quiet.
    unfold requestPersistentShutdown. by repeat case_match; apply sends_quiet.
  - unfold run_done. by repeat case_match; apply sends_quiet.
  - unfold run_release. by repeat case_match; apply sends_quiet.
Qed.

(** ** What the goroutines and handlers keep *)

Definition payloads (d : Dispatcher) : list StartChildPayload := g_payload <$> d_gs d.

Lemma payloads_alter (f : runner_g → runner_g) i (gs : list runner_g) :
  (∀ g, g_payload (f g) = g_payload g) → g_payload <$> alter f i gs = g_payload <$> gs.
Proof.
  intros Hf. revert i. induction gs as [|g gs IH]; intros [|i]; csimpl; [done..|by rewrite Hf|by rewrite IH].
Qed.

Lemma SendControl_payloads s d m a : payloads (SendControl s d m a).1 = payloads d.
Proof. unfold payloads. by rewrite SendControl_gs. Qed.

Lemma finish_payloads s d h : payloads (finish s d h).1 = payloads d.
Proof. unfold payloads. by rewrite (proj2 (finish_tame s d h)). Qed.

Lemma SendControl_handled s d m a :
  omap handled (SendControl s d m a).2 = [] ∧ d_waiting (SendControl s d m a).1 = d_waiting d.
Proof.
  unfold SendControl. destruct (msg_frame m) as [t [data|]]; [|done].
  by destruct (SendWithNewSeq _ _ _ _ _) as [[]].
Qed.

Lemma chunk_write_handled s d st p :
  omap handled (chunk_write s d st p).2 = [] ∧ d_waiting (chunk_write s d st p).1 = d_waiting d.
Proof.
  unfold chunk_write. destruct (d_sinks d) as [[o e]|]; [|done].
  destruct (_ =? _)%nat; [done|]. set (d1 := upd_runner _ _ _ _). apply (SendControl_handled s d1).
Qed.

Lemma finish_handled s d h :
  omap handled (finish s d h).2 = [h] ∧ d_waiting (finish s d h).1 = d_waiting d.
Proof.
  unfold finish. destruct (ack_required h); [|done].
  destruct (SendControl_handled s d (AAck (mkAck (h_SeqNo h))) false) as [E1 E2].
  destruct (SendControl _ _ _ _). simpl in *. split; [by f_equal|done].
Qed.

(** A step that is not a message: the goroutines keep their payloads, and the
    handlers that return were waiting. *)
Definition local_frame (d d' : Dispatcher) (es : list agent_event) : Prop :=
  payloads d' = payloads d ∧ ∀ h, h ∈ omap handled es ∨ h ∈ d_waiting d' → h ∈ d_waiting d.

Lemma local_frame_quiet d d' es :
  omap handled es = [] → payloads d' = payloads d → d_waiting d' = d_waiting d → local_frame d d' es.
Proof. intros E1 E2 E3. split; [done|]. rewrite E1, E3. by intros h [?%elem_of_nil|?]. Qed.

Lemma set_phase_payloads d i ph : payloads (set_phase d i ph) = payloads d.
Proof. by apply payloads_alter. Qed.

(** A frame sent after the goroutine of a child moved. *)
Lemma local_frame_send s d d0 e m a :
  omap handled e = [] → payloads d0 = payloads d → d_waiting d0 = d_waiting d →
  local_frame d (SendControl s d0 m a).1 (e ++ (SendControl s d0 m a).2).
Proof.
  intros He Hp Hw. destruct (SendControl_handled s d0 m a) as [E1 E2]. apply local_frame_quiet.
  - by rewrite omap_app, He, E1.
  - by rewrite SendControl_payloads.
  - by rewrite E2.
Qed.

Lemma Handle_resume_frame s k d : local_frame d (Handle_resume s k d).1 (Handle_resume s k d).2.
Proof.
  unfold Handle_resume. destruct (d_wg d); [|by apply local_frame_quiet].
  destruct (d_waiting d !! k) as [h0|] eqn:Hk; [|by apply local_frame_quiet].
  set (d1 := upd_waiting d _). split; [by rewrite finish_payloads|]. intros h.
  destruct (finish_handled s d1 h0) as [-> ->].
  intros [->%list_elem_of_singleton|Hh]; [by eapply list_elem_of_lookup_2|].
  apply list_elem_of_lookup in Hh as [j Hj]. simpl in Hj. rewrite list_lookup_delete in Hj.
  case_decide; by eapply list_elem_of_lookup_2.
Qed.

Lemma on_data_frame s i b d : local_frame d (on_data s i b d).1 (on_data s i b d).2.
Proof.
  unfold on_data. destruct (g_phase <$> d_gs d !! i) as [[]|]; try by apply local_frame_quiet.
  set (d0 := set_phase d i _). set (m := APtyData _). destruct (SendControl_handled s d0 m false) as [E1 E2].
  pose proof (SendControl_payloads s d0 m false) as E3. destruct (SendControl s d0 m false) as [d1 e1].
  destruct (chunk_write_handled s d1 0 b) as [F1 F2]. pose proof (proj2 (chunk_write_tame s d1 0 b)) as F3.
  destruct (chunk_write s d1 0 b) as [d2 e2]. simpl in *. apply local_frame_quiet.
  - by rewrite omap_app, E1, F1.
  - unfold payloads in *. simpl. rewrite F3, E3. apply set_phase_payloads.
  - simpl. by rewrite F2, E2.
Qed.

Lemma agent_local_frame d op :
  agent_local op = true → local_frame d (agent_step err_text d op).1 (agent_step err_text d op).2.
Proof.
  intros Hop. destruct op; try done; cbn [agent_step];
    [apply Handle_resume_frame| | | |apply on_data_frame| | | | | |].
  - unfold run_fail. destruct (g_phase <$> d_gs d !! i) as [[]|]; apply local_frame_quiet; (done || apply set_phase_payloads).
  - unfold run_started. destruct (g_phase <$> d_gs d !! i) as [[]|]; try by apply local_frame_quiet.
    set (d1 := upd_child _ _ _ _ _ _). set (m := AStarted _).
    pose proof (local_frame_send s d d1 [DSpawned pid] m false eq_refl ltac:(apply set_phase_payloads) eq_refl) as H.
    by destruct (SendControl s d1 m false).
  - unfold run_pty_register. destruct (d_gs d !! i) as [[p c []]|]; try by apply local_frame_quiet.
    destruct (sc_PTY p); apply local_frame_quiet; try done. apply set_phase_payloads.
  - unfold pipe_data. destruct (g_phase <$> d_gs d !! i) as [[]|]; try by apply local_frame_quiet.
    set (st := if stderr then 1 else 0). destruct (chunk_write_handled s d st b) as [F1 F2].
    pose proof (proj2 (chunk_write_tame s d st b)) as F3. apply local_frame_quiet; try done.
    unfold payloads. by rewrite F3.
  - unfold run_wait. destruct (d_gs d !! i) as [[p c ph]|]; [|by apply local_frame_quiet].
    destruct ph; [by apply local_frame_quiet|destruct (sc_PTY p)| |by apply local_frame_quiet..];
      apply local_frame_quiet; (done || apply set_phase_payloads).
  - unfold run_report. destruct (g_phase <$> d_gs d !! i) as [[]|]; try by apply local_frame_quiet.
    match goal with |- context [SendControl s ?d0 ?m false] => set (d1 := d0); set (m1 := m) end.
    apply (local_frame_send s d d1 [] m1 false); [done|apply set_phase_payloads|done].
  - unfold run_clear. destruct (g_phase <$> d_gs d !! i) as [[]|]; try by apply local_frame_quiet.
    set (d1 := clearRunning _). assert (payloads d1 = payloads d) as Hp by apply set_phase_payloads.
    unfold requestPersistentShutdown. destruct (negb _); [by apply local_frame_quiet|].
    destruct (d_shutdownReq d1) as [[]|]; by apply local_frame_quiet.
  - unfold run_done. destruct (g_phase <$> d_gs d !! i) as [[]|]; apply local_frame_quiet; try done.
    apply set_phase_payloads.
  - unfold run_release. destruct (g_phase <$> d_gs d !! i) as [[]|]; apply local_frame_quiet; try done.
    apply set_phase_payloads.
Qed.

End Reports.
