(* ===== verification/System.v ===== *)
(** * A host and its agent over one socket pair

    The controller of internal/controller on one end, the dispatcher of
    internal/agent on the other, each on its own [Conn], and the bytes between
    them.  A step is one operation of either side, one iteration of one of the
    four goroutines of the two connections, bytes arriving on one of the two
    sockets, or the socket pair going down. *)

From S2P Require Import Supervise Collectors Manager AgentMain.
From S2P Require Import Prelude Text Frame Seq Outbox Wal Spiller Message Conn Link RingBuffer CwTypes PtySubs.
From S2P Require Import Controller Agent AgentReports Runner.

(** [sy_up], [sy_down]: how many of the bytes the agent and the host wrote
    have arrived; [sy_cut]: the socket pair is down. *)
Record Sys := mkSys {
  sy_host : Controller; sy_agent : Dispatcher; sy_up : nat; sy_down : nat; sy_cut : bool }.

Definition sys_host (s : Sys) (h : Controller) : Sys := mkSys h (sy_agent s) (sy_up s) (sy_down s) (sy_cut s).
Definition sys_agent (s : Sys) (d : Dispatcher) : Sys := mkSys (sy_host s) d (sy_up s) (sy_down s) (sy_cut s).
Definition host_conn (h : Controller) (cn : Conn) : Controller :=
  with_conn h (ct_handle h) (Some cn) (ct_capReplyCh h).

Inductive sys_event :=
| SyHost (e : ctl_event) | SyAgent (e : agent_event)
| SyStopWaiting (seq : Z) (ch : nat)     (** [Stop] waits for an acknowledgement *)
| SyStopAcked (seq : Z) (ch : nat).      (** that wait returned nil *)

Inductive sys_op :=
| SyStartFinish (s : enq_sched) (k : cap_case)
| SyStop (s : enq_sched)
| SyAwait (seq : Z) (ch : nat) (ctx_done : bool) (k : await_case)
| SyPTY (s : enq_sched) (t : Z) (payload : bytes)
| SyClose (kill ctx_first fired pick : bool)
| SyHostRead
| SyHostWrite (fired pick : bool)
| SyAgentOp (op : agent_op)
| SyAgentRead (s : enq_sched) (nocap : bool) (fail : option (option PersistentMeta)) (io : option string)
| SyAgentWrite (fired pick : bool)
| SyUp (n : nat) | SyDown (n : nat)
| SyCut.

(** What a message or a disconnect does to its end. *)
Definition first_handled (es : list conn_event) : option OutboxMessage := head (omap ev_handled es).
Definition disconnected (es : list conn_event) : bool :=
  existsb (λ e, match e with EvDisconnect _ => true | _ => false end) es.

Section System.
Context `{!Codec HelloPayload, !Codec StartChildPayload, !Codec StopChildPayload,
          !Codec CapabilityReply, !Codec ChildStartedPayload, !Codec ChildExitedPayload,
          !Codec ChildErrorPayload, !Codec LogChunkPayload, !Codec Message.PTYData,
          !Codec PTYRingDumpPayload, !Codec AckPayload, !Codec HelloAckPayload, !Codec PTYWrite,
          !Codec PTYResize, !Codec PTYSignal} (err_text : codec_err → string).

(** [readLoop] of the host: a frame goes to [handleMessage], the end of the
    stream to the disconnect callback. *)
Definition host_read (cut : bool) (h : Controller) : Controller * list ctl_event :=
  match ct_conn h with
  | None => (h, [])
  | Some cn =>
      if read_blocks cn && negb cut then (h, [])
      else
        let '(cn', es) := readLoop_step cn in
        let h1 := host_conn h cn' in
        match first_handled es with
        | Some m => handleMessage h1 m
        | None => if disconnected es then on_disconnect h1 else (h1, [])
        end
  end.

(** [readLoop] of the agent, whose handler runs in the reader's goroutine: it
    takes no frame while a stop handler waits for the child. *)
Definition agent_read (cut : bool) (s : enq_sched) (nocap : bool) (fail : option (option PersistentMeta))
    (io : option string) (d : Dispatcher) : Dispatcher * list agent_event :=
  match d_waiting d with
  | _ :: _ => (d, [])
  | [] =>
      if read_blocks (d_conn d) && negb cut then (d, [])
      else
        let '(c', es) := readLoop_step (d_conn d) in
        let d1 := upd_conn d c' in
        match first_handled es with
        | Some m => Handle err_text s nocap fail io d1 m
        | None => (d1, [])
        end
  end.

Definition pty_type (t : Z) : bool :=
  (t =? MsgTypePTYWrite) || (t =? MsgTypePTYResize) || (t =? MsgTypePTYSignal).

(** The next [n] bytes after the first [k] of [out]. *)
Definition next_bytes (n k : nat) (out : bytes) : bytes := take n (drop k out).

Definition sys_step (s : Sys) (op : sys_op) : Sys * list sys_event :=
  let h := sy_host s in
  let d := sy_agent s in
  match op with
  | SyStartFinish sc k =>
      match Start_finish sc k h with
      | Some (h', _, evs) => (sys_host s h', SyHost <$> evs)
      | None => (s, [])
      end
  | SyStop sc =>
      let '(h', r, evs) := Stop sc h in
      (sys_host s h', (SyHost <$> evs) ++ match r with StopWaiting q ch => [SyStopWaiting q ch] | _ => [] end)
  | SyAwait q ch ctx k =>
      match ct_conn h with
      | None => (s, [])
      | Some cn =>
          match SendAndAwaitAck_end cn q ch ctx k with
          | Some (cn', e) => (sys_host s (host_conn h cn'), match e with None => [SyStopAcked q ch] | Some _ => [] end)
          | None => (s, [])
          end
      end
  | SyPTY sc t p => if pty_type t then (sys_host s (SendPTY sc h t p).1, []) else (s, [])
  | SyClose kill a b p => (sys_host s (close_conn kill a b p h), [])
  | SyHostRead => let '(h', evs) := host_read (sy_cut s) h in (sys_host s h', SyHost <$> evs)
  | SyHostWrite f p =>
      match ct_conn h with
      | None => (s, [])
      | Some cn => (sys_host s (host_conn h (writeLoop_step f p cn).1), [])
      end
  | SyAgentOp op =>
      if agent_local op then let '(d', evs) := agent_step err_text d op in (sys_agent s d', SyAgent <$> evs)
      else (s, [])
  | SyAgentRead sc nocap fail io =>
      let '(d', evs) := agent_read (sy_cut s) sc nocap fail io d in (sys_agent s d', SyAgent <$> evs)
  | SyAgentWrite f p => (sys_agent s (upd_conn d (writeLoop_step f p (d_conn d)).1), [])
  | SyUp n =>
      match ct_conn h with
      | None => (s, [])
      | Some cn =>
          let b := next_bytes n (sy_up s) (w_out (c_fw (d_conn d))) in
          (mkSys (host_conn h (arrive b cn)) d (sy_up s + length b) (sy_down s) (sy_cut s), [])
      end
  | SyDown n =>
      match ct_conn h with
      | None => (s, [])
      | Some cn =>
          let b := next_bytes n (sy_down s) (w_out (c_fw cn)) in
          (mkSys h (upd_conn d (arrive b (d_conn d))) (sy_up s) (sy_down s + length b) (sy_cut s), [])
      end
  | SyCut => (mkSys h d (sy_up s) (sy_down s) true, [])
  end.


(** ** The host's sends, seen from its connection *)

Definition stop_await (t : Z) : Prop := t = MsgStopChild.

(** The only START_CHILD frames are those of the spec. *)
Definition host_frame_ok (sp : Spec) (f : Z * bytes) : Prop :=
  f.1 = MsgStartChild → Marshal (start_payload sp) = Ok f.2.

Definition ev_exited (e : ctl_event) : option Z := match e with CEExited code => Some code | _ => None end.
Definition ctl_quiet (evs : list ctl_event) : Prop := omap ev_started evs = [] ∧ omap ev_exited evs = [].

(** At most one send leads from one connection to the other; [es] is what
    happened on the connection. *)
Definition ctl_sends (c c' : Controller) (es : list conn_event) : Prop :=
  ct_Spec c' = ct_Spec c ∧
  ∀ cn, ct_conn c = Some cn → ∃ cops,
    Forall (owner_op stop_await) cops ∧ OpRead ∉ cops ∧ (length cops ≤ 1)%nat ∧
    Forall (host_frame_ok (ct_Spec c)) (omap op_frame cops) ∧
    es = (run_trace conn_step cn cops).2 ∧ ct_conn c' = Some (run_trace conn_step cn cops).1.

Lemma ctl_sends_none c c' : ct_conn c' = ct_conn c → ct_Spec c' = ct_Spec c → ctl_sends c c' [].
Proof.
  intros H1 H2. split; [done|]. intros cn Hcn. exists []. rewrite H1, Hcn.
  split_and!; try done; [by intros ?%elem_of_nil|simpl; lia].
Qed.

Lemma ctl_sends_one c c' cn op :
  ct_conn c = Some cn → ct_Spec c' = ct_Spec c → owner_op stop_await op → op ≠ OpRead →
  (∀ f, op_frame op = Some f → host_frame_ok (ct_Spec c) f) →
  ct_conn c' = Some (conn_step cn op).1 → ctl_sends c c' (conn_step cn op).2.
Proof.
  intros Hcn Hsp Ho Hr Hf Hc. split; [done|]. intros cn0. rewrite Hcn. intros [= <-]. exists [op].
  split_and!; simpl.
  - by apply Forall_singleton.
  - by intros <-%list_elem_of_singleton.
  - lia.
  - csimpl. destruct (op_frame op) as [f|]; [|done]. apply Forall_singleton. auto.
  - destruct (conn_step cn op). simpl. by rewrite app_nil_r.
  - rewrite Hc. by destruct (conn_step cn op).
Qed.

Lemma setState_same c st : ct_conn (setState c st).1 = ct_conn c ∧ ct_Spec (setState c st).1 = ct_Spec c ∧
  ct_features (setState c st).1 = ct_features c ∧ ctl_quiet (setState c st).2.
Proof. unfold setState. by case_decide. Qed.

Lemma send_ctl_sends {A} `{!Codec A} s c t (payload : option A) ack :
  in_u 8 t →
  (∀ p data, payload = Some p → EncodePayload p = Ok data → host_frame_ok (ct_Spec c) (t, data)) →
  (payload = None → host_frame_ok (ct_Spec c) (t, [])) →
  ∃ es, ctl_sends c (send s c t payload ack).1 es.
Proof.
  intros Ht Hp Hn. unfold send.
  destruct (match payload with Some p => EncodePayload p | None => Ok [] end) as [data|e] eqn:Ed.
  2:{ exists []. by apply ctl_sends_none. }
  destruct (ct_conn c) as [cn|] eqn:Ec; [|exists []; by apply ctl_sends_none].
  set (fl := if ack then FlagAckRequired else 0). assert (in_u 8 fl) by (by destruct ack).
  exists (conn_step cn (OpSendNew s t fl data)).2.
  apply ctl_sends_one; try done.
  - by destruct (SendWithNewSeq s cn t fl data) as [[]].
  - intros f [= <-]. destruct payload as [p|]; [by eapply Hp|]. injection Ed as <-. auto.
  - simpl. by destruct (SendWithNewSeq s cn t fl data) as [[]].
Qed.

Lemma ctl_sends_same c c0 c' es :
  ct_conn c0 = ct_conn c → ct_Spec c0 = ct_Spec c → ctl_sends c0 c' es → ctl_sends c c' es.
Proof. unfold ctl_sends. by intros -> ->. Qed.

Lemma ctl_sends_trans_none c c1 c' es :
  ctl_sends c c1 es → ct_conn c' = ct_conn c1 → ct_Spec c' = ct_Spec c1 → ctl_sends c c' es.
Proof. intros [H1 H2] E1 E2. split; [by rewrite E2|]. by setoid_rewrite E1. Qed.

Lemma Start_child_sends s c : ∃ es, ctl_sends c (Start_child s c).1 es.
Proof.
  unfold Start_child.
  destruct (match spec_PTY (ct_Spec c) with Some _ => _ | None => _ end).
  - exists []. by apply ctl_sends_none.
  - destruct (send_ctl_sends s c MsgStartChild (Some (start_payload (ct_Spec c))) true) as [es Hes]; [done| |done|].
    + intros p data [= <-] Hd _. apply Hd.
    + destruct (send _ _ _ _ _). by exists es.
Qed.

Lemma start_result_same x :
  ct_conn (start_result x).1.1 = ct_conn x.1 ∧ ct_Spec (start_result x).1.1 = ct_Spec x.1 ∧
  ct_features (start_result x).1.1 = ct_features x.1 ∧ ctl_quiet (start_result x).2.
Proof.
  destruct x as [c [[]|e]]; [done|]. simpl. pose proof (setState_same c StateCrashed) as H.
  by destruct (setState c StateCrashed).
Qed.

Lemma Start_finish_sends s k c c' r evs :
  Start_finish s k c = Some (c', r, evs) → ∃ es, ctl_sends c c' es ∧ ctl_quiet evs.
Proof.
  unfold Start_finish. destruct (Start_rest s k c) as [x|] eqn:Ex; [|done]. intros [= H].
  destruct (start_result_same x) as (E1 & E2 & _ & E3). rewrite H in E1, E2, E3. simpl in E1, E2, E3.
  assert (∀ c0, ct_conn c0 = ct_conn c → ct_Spec c0 = ct_Spec c → Start_child s c0 = x →
    ∃ es, ctl_sends c c' es ∧ ctl_quiet evs) as Hs.
  { intros c0 F1 F2 <-. destruct (Start_child_sends s c0) as [es He]. exists es. split; [|done].
    eapply ctl_sends_same; [..|by eapply ctl_sends_trans_none]; done. }
  unfold Start_rest in Ex. destruct k; [destruct (ct_capReplyCh c) as [|[f|]|]| |]; try done; injection Ex as Ex;
    try (by eapply Hs; [..|exact Ex]).
  subst x. exists []. split; [|done]. by apply ctl_sends_none.
Qed.

Lemma Stop_send_sends s c :
  ∃ es, ctl_sends c (Stop_send s c).1 es ∧
  ∀ q ch cn, ct_conn c = Some cn → (Stop_send s c).2 = StopWaiting q ch → EvRegister q ch ∈ es.
Proof.
  unfold Stop_send. destruct (EncodePayload _) as [data|e] eqn:Ed; [|exists []; by split; [apply ctl_sends_none|]].
  assert (∀ d, host_frame_ok (ct_Spec c) (MsgStopChild, d)) as Hok by (by intros d Hd).
  destruct (agentHasFeature c "frame_ack").
  - destruct (ct_conn c) as [cn|] eqn:Ec; [|exists []; by split; [apply ctl_sends_none|]].
    set (op := OpAwaitBegin s MsgStopChild 0 data). exists (conn_step cn op).2.
    assert (ctl_sends c (with_conn c (ct_handle c) (Some (conn_step cn op).1) (ct_capReplyCh c)) (conn_step cn op).2) as Hs.
    { apply ctl_sends_one; [congruence|done|done|done|intros f [= <-]; apply Hok|done]. }
    simpl in *. destruct (SendAndAwaitAck_begin s cn MsgStopChild 0 data) as [[cn' [[q ch]|e]] x] eqn:Ea;
      (split; [exact Hs|]); simpl; [|done].
    intros q' ch' cn0 _ [= <- <-]. unfold SendAndAwaitAck_begin in Ea. destruct (c_closed cn); [done|].
    destruct (Next _) as [g n]. destruct (enqueue _ _ _) as [[c2 []] ev]; simplify_eq/=. apply list_elem_of_here.
  - set (p := Some _). destruct (send_ctl_sends s c MsgStopChild p true) as [es Hes];
      [done|by intros ? ? _ _ ?|done|].
    destruct (send s c MsgStopChild p true) as [c2 err]. by exists es.
Qed.

Lemma Stop_sends s c :
  ∃ es, ctl_sends c (Stop s c).1.1 es ∧ ctl_quiet (Stop s c).2 ∧
  ∀ q ch cn, ct_conn c = Some cn → (Stop s c).1.2 = StopWaiting q ch → EvRegister q ch ∈ es.
Proof.
  unfold Stop. destruct (stop_early c); [exists []; split; [by apply ctl_sends_none|by split]|].
  destruct (setState_same c StateStopping) as (E1 & E2 & _ & E4).
  destruct (setState c StateStopping) as [c1 e1]. simpl in *.
  destruct (Stop_send_sends s c1) as (es & H1 & H2). destruct (Stop_send s c1) as [c2 r]. simpl in *. exists es.
  split; [by eapply ctl_sends_same|]. split; [done|]. intros q ch cn Hcn. apply (H2 q ch cn). congruence.
Qed.

Lemma SendPTY_sends s c t p : pty_type t = true → ∃ es, ctl_sends c (SendPTY s c t p).1 es.
Proof.
  intros Ht. assert (in_u 8 t ∧ t ≠ MsgStartChild) as [Hu Hne].
  { unfold pty_type, MsgTypePTYWrite, MsgTypePTYResize, MsgTypePTYSignal, MsgStartChild, in_u in *. lia. }
  unfold SendPTY. destruct (ct_conn c) as [cn|] eqn:Ec; [|exists []; by apply ctl_sends_none].
  exists (conn_step cn (OpSendNew s t 0 p)).2. apply ctl_sends_one; try done.
  - by destruct (SendWithNewSeq s cn t 0 p) as [[]].
  - intros f [= <-]. by intros ?.
  - simpl. by destruct (SendWithNewSeq s cn t 0 p) as [[]].
Qed.

(** ** What the host is told *)

Definition frame_started (f : Z * bytes) : option Z :=
  if f.1 =? MsgChildStarted then cs_PID <$> decode_ok (A := ChildStartedPayload) f.2 else None.
Definition frame_exited (f : Z * bytes) : option Z :=
  if f.1 =? MsgChildExited then ce_ExitCode <$> decode_ok (A := ChildExitedPayload) f.2 else None.

Lemma handleMessage_told c m :
  ct_conn (handleMessage c m).1 = ct_conn c ∧ ct_Spec (handleMessage c m).1 = ct_Spec c ∧
  omap ev_started (handleMessage c m).2 = option_list (frame_started (frame_of_msg m)) ∧
  omap ev_exited (handleMessage c m).2 = option_list (frame_exited (frame_of_msg m)).
Proof.
  unfold handleMessage, frame_started, frame_exited, frame_of_msg. simpl.
  set (t := h_MsgType (m_Header m)). set (body := m_Payload m).
  destruct (Z.eqb_spec t MsgTypeCapabilityReply) as [->|].
  { destruct (decode_new body) as [p [e|]]; [done|]. by destruct (ct_capReplyCh c) as [|[f|]|]. }
  destruct (Z.eqb_spec t MsgHelloAck) as [->|]; [done|].
  destruct (Z.eqb_spec t MsgChildStarted) as [->|].
  { destruct (decode_ok (A := ChildStartedPayload) body) as [p|]; [|done].
    set (c1 := with_child _ _ _ _ _). destruct (setState_same c1 StateRunning) as (E1 & E2 & _ & E3 & E4).
    destruct (setState c1 StateRunning) as [c2 l]. simpl in E1, E2, E3, E4 |- *.
    split_and!; [done..|f_equal; exact E3|exact E4]. }
  destruct (Z.eqb_spec t MsgChildExited) as [->|].
  { destruct (decode_ok (A := ChildExitedPayload) body) as [p|]; [|done].
    destruct (setState_same c StateStopped) as (E1 & E2 & _ & E3 & E4).
    destruct (setState_same c StateCrashed) as (F1 & F2 & _ & F3 & F4). case_decide.
    - destruct (setState c StateStopped) as [c2 l].
      simpl in E1, E2, E3, E4 |- *. split_and!; [done..|exact E3|f_equal; exact E4].
    - destruct (setState c StateCrashed) as [c2 l].
      simpl in F1, F2, F3, F4 |- *. split_and!; [done..|exact F3|f_equal; exact F4]. }
  destruct (Z.eqb_spec t MsgChildError) as [->|].
  { destruct (decode_new body) as [p e]. destruct (setState_same c StateCrashed) as (F1 & F2 & _ & F3 & F4).
    destruct (negb _); [|done]. by rewrite F1, F2, F3, F4. }
  destruct (Z.eqb_spec t MsgLogChunk) as [->|].
  { destruct (negb _); [done|]. by destruct (decode_ok (A := LogChunkPayload) body). }
  destruct (Z.eqb_spec t MsgTypePTYData) as [->|].
  { by destruct (decode_new body) as [p [e|]]. }
  destruct (Z.eqb_spec t MsgTypePTYRingDump) as [->|]; [|done].
  by destruct (decode_ok (A := PTYRingDumpPayload) body).
Qed.

(** ** The joint invariant *)

Definition host_ev (e : sys_event) : option ctl_event := match e with SyHost e => Some e | _ => None end.
Definition agent_ev (e : sys_event) : option agent_event := match e with SyAgent e => Some e | _ => None end.

(** The agent handled the stop request [q], and by then every child it had
    started had been waited for. *)
Definition stop_done (q : Z) (evs : list agent_event) : Prop :=
  ∃ a1 h a2, evs = a1 ++ DHandled h :: a2 ∧ is_stop h = true ∧ h_SeqNo h = q ∧
             omap spawned a1 = omap waited a1.

(** When [Stop] returns nil after its wait, the stop is done. *)
Definition acked_ok (evs : list sys_event) : Prop :=
  ∀ e1 q ch e2, evs = e1 ++ SyStopAcked q ch :: e2 → SyStopWaiting q ch ∈ e1 →
    stop_done q (omap agent_ev e1).

(** [cn], [hc], [hfr]: the host's connection, its history and what the host
    sent; [ac]: the history of the agent's connection; [a0]: what the agent
    sent before its first message. *)
Record sys_rel (sp : Spec) (a0 : list (Z * bytes)) (s : Sys) (evs : list sys_event)
    (cn : Conn) (hc : list conn_event) (hfr : list (Z * bytes)) (ac : list conn_event) : Prop := mkSysRel {
  sr_conn : ct_conn (sy_host s) = Some cn;
  sr_spec : ct_Spec (sy_host s) = sp;
  sr_link : link_inv stop_await no_await cn hc hfr (d_conn (sy_agent s)) ac
              (a0 ++ omap agent_frame (omap agent_ev evs)) (sy_up s) (sy_down s);
  sr_hfr : Forall (host_frame_ok sp) hfr;
  sr_life : agent_inv (sy_agent s) (omap agent_ev evs);
  sr_report : report_inv (sy_agent s) (omap agent_ev evs);
  sr_handled : ∀ h, h ∈ omap handled (omap agent_ev evs) ∨ h ∈ d_waiting (sy_agent s) →
               ∃ m, m ∈ omap ev_written hc ∧ m_Header m = h;
  sr_payloads : Forall (λ g, g_payload g = start_payload sp) (d_gs (sy_agent s));
  sr_started : omap ev_started (omap host_ev evs) = omap (frame_started ∘ frame_of_msg) (omap ev_handled hc);
  sr_exited : omap ev_exited (omap host_ev evs) = omap (frame_exited ∘ frame_of_msg) (omap ev_handled hc);
  sr_waiting : ∀ q ch, SyStopWaiting q ch ∈ evs → EvRegister q ch ∈ hc;
  sr_acked : acked_ok evs }.

Definition no_ack_event (es : list sys_event) : Prop := ∀ q ch, SyStopAcked q ch ∉ es.

Lemma acked_ok_app evs es : acked_ok evs → no_ack_event es → acked_ok (evs ++ es).
Proof.
  intros H Hes e1 q ch e2 Heq Hin. apply app_eq_inv in Heq as [(k & -> & Hk)|(k & -> & Hk)].
  - destruct k as [|x k]; simplify_eq/=.
    + exfalso. apply (Hes q ch). set_solver.
    + by eapply H.
  - exfalso. apply (Hes q ch). rewrite Hk. set_solver.
Qed.

Lemma host_events_proj (l : list ctl_event) :
  omap host_ev (SyHost <$> l) = l ∧ omap agent_ev (SyHost <$> l) = [] ∧ no_ack_event (SyHost <$> l) ∧
  ∀ q ch, SyStopWaiting q ch ∉ SyHost <$> l.
Proof.
  split_and!.
  - induction l as [|x l IH]; [done|]. csimpl. by f_equal.
  - induction l as [|x l IH]; [done|]. by csimpl.
  - by intros q ch (x & ? & _)%list_elem_of_fmap.
  - by intros q ch (x & ? & _)%list_elem_of_fmap.
Qed.
Lemma agent_events_proj (l : list agent_event) :
  omap agent_ev (SyAgent <$> l) = l ∧ omap host_ev (SyAgent <$> l) = [] ∧ no_ack_event (SyAgent <$> l) ∧
  ∀ q ch, SyStopWaiting q ch ∉ SyAgent <$> l.
Proof.
  split_and!.
  - induction l as [|x l IH]; [done|]. csimpl. by f_equal.
  - induction l as [|x l IH]; [done|]. by csimpl.
  - by intros q ch (x & ? & _)%list_elem_of_fmap.
  - by intros q ch (x & ? & _)%list_elem_of_fmap.
Qed.

Lemma written_mono hc es (m : OutboxMessage) : m ∈ omap ev_written hc → m ∈ omap ev_written (hc ++ es).
Proof. rewrite omap_app, elem_of_app. auto. Qed.

(** The host's side moves: its connection by [cops], which handled [hs]. *)
Lemma sys_host_move sp a0 s evs cn hc hfr ac h' cops cevs xs :
  sys_rel sp a0 s evs cn hc hfr ac →
  Forall (owner_op stop_await) cops → g_n (c_seqs cn) + Z.of_nat (length cops) < 2 ^ 64 →
  Forall (host_frame_ok sp) (omap op_frame cops) →
  let '(cn', es) := run_trace conn_step cn cops in
  ct_conn h' = Some cn' → ct_Spec h' = sp →
  omap ev_started cevs = omap (frame_started ∘ frame_of_msg) (omap ev_handled es) →
  omap ev_exited cevs = omap (frame_exited ∘ frame_of_msg) (omap ev_handled es) →
  (xs = [] ∨ ∃ q ch, xs = [SyStopWaiting q ch] ∧ EvRegister q ch ∈ es) →
  sys_rel sp a0 (sys_host s h') (evs ++ (SyHost <$> cevs) ++ xs) cn' (hc ++ es)
    (hfr ++ omap op_frame cops) ac ∧ g_n (c_seqs cn') ≤ g_n (c_seqs cn) + Z.of_nat (length cops).
Proof.
  intros [R1 R2 R3 R4 R5 R6 R7 R8 R9 R10 R11 R12] Hops Hg Hfr.
  pose proof (link_run _ _ _ _ _ _ _ _ _ _ cops R3 Hops Hg) as Hl.
  destruct (run_trace conn_step cn cops) as [cn' es]. destruct Hl as [Hl Hg'].
  intros Hc Hs H1 H2 Hx. split; [|done].
  destruct (host_events_proj cevs) as (P1 & P2 & P3 & P4).
  assert (omap host_ev xs = [] ∧ omap agent_ev xs = [] ∧ no_ack_event xs) as (X1 & X2 & X3).
  { destruct Hx as [->|(q & ch & -> & _)]; split_and!; try done; intros ? ?;
      [apply not_elem_of_nil|by intros ?%list_elem_of_singleton]. }
  split; simpl; rewrite ?omap_app, ?P1, ?P2, ?X1, ?X2, ?app_nil_r, ?(app_nil_r (omap agent_ev evs)); try done.
  - by apply Forall_app_2.
  - intros h Hh. destruct (R7 h Hh) as (m & Hm & <-). exists m. split; [|done].
    rewrite elem_of_app. by left.
  - by rewrite R9, H1.
  - by rewrite R10, H2.
  - intros q ch. rewrite !elem_of_app. intros [Hin|[Hin|Hin]].
    + left. by apply R11.
    + by apply P4 in Hin.
    + destruct Hx as [->|(q' & ch' & -> & Hr)]; [by apply elem_of_nil in Hin|].
      apply list_elem_of_singleton in Hin as [= -> ->]. by right.
  - apply acked_ok_app; [done|]. intros q ch. rewrite elem_of_app. intros [Hin|Hin];
      [by apply P3 in Hin|by apply X3 in Hin].
Qed.

(** *** The agent's side *)

(** The agent's side moves: its connection by [cops]. *)
Lemma sys_agent_move sp a0 s evs cn hc hfr ac d' cops es :
  sys_rel sp a0 s evs cn hc hfr ac →
  Forall (owner_op no_await) cops → g_n (c_seqs (d_conn (sy_agent s))) + Z.of_nat (length cops) < 2 ^ 64 →
  omap op_frame cops = omap agent_frame es →
  d_conn d' = (run_trace conn_step (d_conn (sy_agent s)) cops).1 →
  agent_inv d' (omap agent_ev evs ++ es) → report_inv d' (omap agent_ev evs ++ es) →
  (∀ h, h ∈ omap handled es ∨ h ∈ d_waiting d' →
     h ∈ d_waiting (sy_agent s) ∨ ∃ m, m ∈ omap ev_written hc ∧ m_Header m = h) →
  Forall (λ p, p = start_payload sp) (payloads d') →
  ∃ ac', sys_rel sp a0 (sys_agent s d') (evs ++ (SyAgent <$> es)) cn hc hfr ac' ∧
    g_n (c_seqs (d_conn d')) ≤ g_n (c_seqs (d_conn (sy_agent s))) + Z.of_nat (length cops).
Proof.
  intros [R1 R2 R3 R4 R5 R6 R7 R8 R9 R10 R11 R12] Hops Hg Hfr Hc Hl Hr Hh Hp.
  pose proof (link_run _ _ _ _ _ _ _ _ _ _ cops (link_sym _ _ _ _ _ _ _ _ _ _ R3) Hops Hg) as Hk.
  destruct (run_trace conn_step (d_conn (sy_agent s)) cops) as [c' ces]. destruct Hk as [Hk Hg'].
  simpl in Hc. rewrite Hc. exists (ac ++ ces). split; [|done].
  destruct (agent_events_proj es) as (P1 & P2 & P3 & P4).
  split; simpl; rewrite ?omap_app, ?P1, ?P2, ?app_nil_r, ?Hc; try done.
  - apply link_sym in Hk. by rewrite Hfr, <- (assoc_L (++)) in Hk.
  - intros h. rewrite elem_of_app. intros [[Hin|Hin]|Hin]; [apply R7; by left| |].
    + destruct (Hh h) as [Hw|Hm]; [by left|apply R7; by right|done].
    + destruct (Hh h) as [Hw|Hm]; [by right|apply R7; by right|done].
  - unfold payloads in Hp. by rewrite Forall_fmap in Hp.
  - intros q ch. rewrite elem_of_app. intros [Hin|Hin]; [by apply R11|by apply P4 in Hin].
  - by apply acked_ok_app.
Qed.

(** One frame at most reaches a handler per iteration of [readLoop]. *)
Lemma read_one c : omap ev_handled (readLoop_step c).2 = option_list (first_handled (readLoop_step c).2).
Proof.
  unfold readLoop_step, readLoop_exit, fireDisconnect, first_handled. by repeat (case_match; simplify_eq/=).
Qed.

Context (start_ok : StartChildPayload → Prop) `{!CodecLaws StartChildPayload start_ok}
  `{!CodecLaws AckPayload (λ p, in_u 64 (ack_AckedSeq p))} `{!CodecLaws ChildStartedPayload started_ok}
  `{!CodecLaws ChildExitedPayload exited_ok}
  (Hack : ∀ p : AckPayload, is_ok (EncodePayload p) = true).

(** Handling a message that starts a child only with the host's payload. *)
Lemma Handle_payloads s nocap fail io d msg sp :
  start_ok (start_payload sp) → host_frame_ok sp (frame_of_msg msg) →
  Forall (λ p, p = start_payload sp) (payloads d) →
  Forall (λ p, p = start_payload sp) (payloads (Handle err_text s nocap fail io d msg).1).
Proof.
  intros Hok Hf H. unfold Handle. destruct (is_stop (m_Header msg)).
  - assert (payloads (stopChild d).1 = payloads d) as Hs.
    { unfold stopChild. destruct (d_cancelFn d); [|done]. by apply payloads_alter. }
    destruct (stopChild d) as [d1 []]; simpl in *; [by rewrite <- Hs in H|]. rewrite finish_payloads. by rewrite Hs.
  - assert (Forall (λ p, p = start_payload sp) (payloads (handle_body err_text s nocap fail io d msg).1)) as Hb.
    { assert (∀ m, Forall (λ p, p = start_payload sp) (payloads (SendControl s d m false).1)) as Hs
        by (intros m; by rewrite SendControl_payloads).
      assert (∀ ph ev, Forall (λ p, p = start_payload sp) (payloads (active_pty_op s d ph io ev).1)) as Hp.
      { intros ph ev. unfold active_pty_op. destruct (d_activePTY d); [destruct io|]; auto. }
      unfold handle_body. destruct (_ =? MsgHello); [apply Hs|].
      destruct (Z.eqb_spec (h_MsgType (m_Header msg)) MsgStartChild) as [Et|].
      { pose proof (unmarshal_marshal (start_payload sp) (m_Payload msg) Hok (Hf Et)) as Hu. rewrite Hu.
        unfold startChild. destruct (d_cancelFn d); [apply Hs|].
        pose proof (update_meta_core fail (installLogSinks d) (start_payload sp)) as Hc.
        unfold payloads. simpl. injection Hc as _ _ _ -> _. rewrite fmap_app. apply Forall_app_2; [done|].
        by apply Forall_singleton. }
      repeat match goal with
      | |- context [if ?b then _ else _] => destruct b
      | |- context [decode_new ?x] => destruct (decode_new x) as [? []]
      end; auto. }
    destruct (handle_body _ _ _ _ _ _ _) as [d1 e1]. simpl in Hb.
    pose proof (finish_payloads s d1 (m_Header msg)) as Hf2. destruct (finish s d1 (m_Header msg)). simpl in *.
    by rewrite Hf2.
Qed.

Lemma Handle_handled s nocap fail io d msg h :
  h ∈ omap handled (Handle err_text s nocap fail io d msg).2 ∨
  h ∈ d_waiting (Handle err_text s nocap fail io d msg).1 → h ∈ d_waiting d ∨ h = m_Header msg.
Proof.
  unfold Handle. destruct (is_stop (m_Header msg)).
  - assert (d_waiting (stopChild d).1 = d_waiting d) as Hs by (unfold stopChild; by destruct (d_cancelFn d)).
    destruct (stopChild d) as [d1 []]; simpl in *.
    + rewrite Hs. intros [?%elem_of_nil|[|?%list_elem_of_singleton]%elem_of_app]; auto. done.
    + destruct (finish_handled s d1 (m_Header msg)) as [-> ->]. rewrite Hs.
      intros [?%list_elem_of_singleton|]; auto.
  - assert (omap handled (handle_body err_text s nocap fail io d msg).2 = [] ∧
            d_waiting (handle_body err_text s nocap fail io d msg).1 = d_waiting d) as [B1 B2].
    { pose proof (SendControl_handled s d) as HS.
      assert (∀ ph ev, handled ev = None → omap handled (active_pty_op s d ph io ev).2 = [] ∧
        d_waiting (active_pty_op s d ph io ev).1 = d_waiting d) as HP.
      { intros ph ev He. unfold active_pty_op. destruct (d_activePTY d); [destruct io|]; try apply HS.
        csimpl. by rewrite He. }
      assert (∀ p, omap handled (startChild s fail d p).2 = [] ∧ d_waiting (startChild s fail d p).1 = d_waiting d) as HC.
      { intros p. unfold startChild. destruct (d_cancelFn d); [apply HS|]. simpl. unfold update_meta. by repeat case_match. }
      unfold handle_body.
      repeat match goal with
      | |- context [if ?b then _ else _] => destruct b
      | |- context [Unmarshal ?x ?y] => destruct (Unmarshal x y) as [? []]
      | |- context [decode_new ?x] => destruct (decode_new x) as [? []]
      end; first [apply HS | apply HC | by apply HP | done]. }
    destruct (handle_body _ _ _ _ _ _ _) as [d1 e1]. simpl in *.
    destruct (finish_handled s d1 (m_Header msg)) as [F1 F2]. destruct (finish s d1 (m_Header msg)) as [d2 e2].
    simpl in *. rewrite omap_app, B1, F1, F2, B2. intros [?%list_elem_of_singleton|]; auto.
Qed.

(** *** What is on the wire *)

Lemma written_queued c evs m : Conn.send_inv c evs → m ∈ omap ev_written evs → m ∈ omap ev_queued evs.
Proof. intros [(lost & H1 & _) _ _ _ _ _ _] Hm. rewrite H1. set_solver. Qed.

(** A frame read by an end was sent by the owner of the other. *)
Lemma wire_frame Q c evs fr inb arr m :
  end_inv Q c evs fr inb arr → m ∈ omap ev_written evs → frame_of_msg m ∈ fr.
Proof.
  intros H Hm. eapply elem_of_sublist; [|apply (ei_frames _ _ _ _ _ _ H)].
  apply list_elem_of_fmap. exists m. split; [done|]. eapply written_queued; [apply H|done].
Qed.

Lemma handled_written Q c evs fr inb arr m :
  end_inv Q c evs fr inb arr → m ∈ omap ev_handled evs → m ∈ inb.
Proof.
  intros H Hm. destruct (ei_recv _ _ _ _ _ _ H) as (k & _ & Hk & _). rewrite Hk in Hm. unfold app_messages in Hm.
  apply list_elem_of_filter in Hm as [_ Hm]. eapply elem_of_take in Hm as (i & Hi & _). by eapply list_elem_of_lookup_2.
Qed.

(** The frames the agent may have sent before its first message. *)
Definition hello_only (a0 : list (Z * bytes)) : Prop := Forall (λ f, f.1 = MsgHello) a0.

(** An acknowledgement the host decodes is one the agent sent. *)
Lemma acks_are_sent sp a0 s evs cn hc hfr ac q :
  hello_only a0 → sys_rel sp a0 s evs cn hc hfr ac → q ∈ omap ev_acked hc →
  ∃ h, h ∈ omap handled (omap agent_ev evs) ∧ h_SeqNo h = q ∧ ∃ m, m ∈ omap ev_written hc ∧ m_Header m = h.
Proof.
  intros Ha0 R Hq. destruct (li_1 _ _ _ _ _ _ _ _ _ _ (sr_link _ _ _ _ _ _ _ _ R)) as [_ _ _ _ _ (k & _ & _ & Hk & _)].
  rewrite Hk in Hq. unfold wire_acks in Hq. apply list_elem_of_omap in Hq as (m & Hm & Hq).
  apply elem_of_take in Hm as (i & Hi & _). apply list_elem_of_lookup_2 in Hi.
  pose proof (wire_frame _ _ _ _ _ _ _ (li_2 _ _ _ _ _ _ _ _ _ _ (sr_link _ _ _ _ _ _ _ _ R)) Hi) as Hf.
  destruct (is_ack_msg m) eqn:Em; [|done]. unfold is_ack_msg in Em.
  apply elem_of_app in Hf as [Hf|Hf].
  { exfalso. unfold hello_only in Ha0. rewrite Forall_forall in Ha0. specialize (Ha0 _ Hf). simpl in Ha0.
    by rewrite Ha0 in Em. }
  apply list_elem_of_omap in Hf as (e & He & Hf). destruct e as [am| | | | | | |]; try done. simpl in Hf.
  destruct (msg_frame am) as [t [data|]] eqn:Eam; [|done]. injection Hf as Ht Hdata.
  assert (∃ p, am = AAck p) as [p ->] by (rewrite <- Ht in Em; destruct am; injection Eam as <- _; by eauto).
  injection Eam as _ Hp.
  assert (ack_AckedSeq p ∈ omap acked (omap agent_ev evs)) as Hin.
  { apply list_elem_of_omap. by exists (DSent (AAck p)). }
  rewrite (ai_acks _ _ (sr_life _ _ _ _ _ _ _ _ R)) in Hin. apply list_elem_of_fmap in Hin as (h & Heq & Hh).
  apply list_elem_of_filter in Hh as [_ Hh].
  destruct (sr_handled _ _ _ _ _ _ _ _ R h) as (m' & Hm' & Hm'h); [by left|].
  assert (in_u 64 (ack_AckedSeq p)) as Hr.
  { rewrite Heq, <- Hm'h.
    pose proof (si_ok _ _ (ei_send _ _ _ _ _ _ (li_1 _ _ _ _ _ _ _ _ _ _ (sr_link _ _ _ _ _ _ _ _ R)))) as Hok.
    rewrite Forall_forall in Hok. apply (Hok _ Hm'). }
  rewrite <- Hdata in Hq. rewrite (decode_ok_marshal _ p data Hr Hp) in Hq. injection Hq as <-.
  exists h. split_and!; [done|done|]. by exists m'.
Qed.

(** The key step: a wait of [Stop] that returned nil. *)
Lemma stop_acked_done sp a0 s evs cn hc hfr ac q ch :
  hello_only a0 → sys_rel sp a0 s evs cn hc hfr ac → SyStopWaiting q ch ∈ evs →
  c_chans cn !! ch = Some true → stop_done q (omap agent_ev evs).
Proof.
  intros Ha0 R Hw Hch. pose proof (sr_waiting _ _ _ _ _ _ _ _ R _ _ Hw) as Hreg.
  destruct (sr_link _ _ _ _ _ _ _ _ R) as [L1 _ _ _].
  destruct (ai_closed _ _ (ei_ack _ _ _ _ _ _ L1) _ _ Hreg Hch) as (e1 & e2 & Heq & Hin).
  assert (q ∈ omap ev_acked hc) as Hq.
  { apply list_elem_of_omap. exists (EvAckFrame q). split; [rewrite Heq; set_solver|done]. }
  destruct (acks_are_sent sp a0 s evs cn hc hfr ac q Ha0 R Hq) as (h & Hh & Hseq & m & Hm & Hmh).
  destruct (ei_reg _ _ _ _ _ _ L1 _ _ Hreg) as [_ Hty].
  specialize (Hty m (written_queued _ _ _ (ei_send _ _ _ _ _ _ L1) Hm) ltac:(unfold seq_of; by rewrite Hmh)).
  apply list_elem_of_omap in Hh as (e & He & Hh). destruct e as [| | | | | | |h']; try done. injection Hh as ->.
  apply list_elem_of_split in He as (a1 & a2 & He). exists a1, h, a2. unfold stop_await in Hty. rewrite Hmh in Hty.
  assert (is_stop h = true) as Hst by (unfold is_stop; by rewrite Hty).
  split_and!; try done. by apply (ai_stops _ _ (sr_life _ _ _ _ _ _ _ _ R) a1 h a2).
Qed.

(** *** Steps *)

Definition sys_op_ok (op : sys_op) : Prop := match op with SyAgentOp op => agent_op_ok op | _ => True end.

Definition sys_inv (sp : Spec) (a0 : list (Z * bytes)) (n : Z) (s : Sys) (evs : list sys_event) : Prop :=
  ∃ cn hc hfr ac, sys_rel sp a0 s evs cn hc hfr ac ∧
    g_n (c_seqs cn) ≤ n ∧ g_n (c_seqs (d_conn (sy_agent s))) ≤ n.

Lemma told_nothing {A} (f : OutboxMessage → option A) es : unheard es → omap f (omap ev_handled es) = [].
Proof. by intros [-> _]. Qed.

(** An operation of the controller that sends at most one frame. *)
Lemma sys_inv_host_sends sp a0 n s evs h' cevs xs es :
  sys_inv sp a0 n s evs → n + 6 < 2 ^ 64 → ctl_sends (sy_host s) h' es → ctl_quiet cevs →
  (xs = [] ∨ ∃ q ch, xs = [SyStopWaiting q ch] ∧ EvRegister q ch ∈ es) →
  sys_inv sp a0 (n + 6) (sys_host s h') (evs ++ (SyHost <$> cevs) ++ xs).
Proof.
  intros (cn & hc & hfr & ac & R & G1 & G2) Hn [Hsp Hs] [Q1 Q2] Hx.
  destruct (Hs cn (sr_conn _ _ _ _ _ _ _ _ R)) as (cops & C1 & C2 & C3 & C4 & C5 & C6).
  rewrite (sr_spec _ _ _ _ _ _ _ _ R) in C4, Hsp.
  pose proof (sys_host_move sp a0 s evs cn hc hfr ac h' cops cevs xs R C1 ltac:(lia) C4) as Hm.
  pose proof (unheard_run cops cn C2) as Hu.
  destruct (run_trace conn_step cn cops) as [cn' es']. simpl in *. subst es'.
  destruct Hm as [R' G']; try done; [by rewrite (told_nothing _ es Hu)..|].
  eexists _, _, _, _. split; [exact R'|]. simpl. lia.
Qed.

(** A step of the host's connection that hands nothing over. *)
Lemma sys_inv_host_conn sp a0 n s evs h' cops :
  sys_inv sp a0 n s evs → n + 6 < 2 ^ 64 →
  Forall (owner_op stop_await) cops → (length cops ≤ 6)%nat → omap op_frame cops = [] →
  (∀ cn, ct_conn (sy_host s) = Some cn →
     ct_conn h' = Some (run_trace conn_step cn cops).1 ∧ unheard (run_trace conn_step cn cops).2) →
  ct_Spec h' = ct_Spec (sy_host s) →
  sys_inv sp a0 (n + 6) (sys_host s h') evs.
Proof.
  intros (cn & hc & hfr & ac & R & G1 & G2) Hn C1 C2 C3 Hc Hsp.
  destruct (Hc cn (sr_conn _ _ _ _ _ _ _ _ R)) as [H1 H2].
  pose proof (sys_host_move sp a0 s evs cn hc hfr ac h' cops [] [] R C1 ltac:(lia) ltac:(by rewrite C3)) as Hm.
  destruct (run_trace conn_step cn cops) as [cn' es]. simpl in *.
  destruct Hm as [R' G']; [done|by rewrite Hsp, (sr_spec _ _ _ _ _ _ _ _ R)| | |by left|].
  1,2: by rewrite (told_nothing _ es H2).
  rewrite app_nil_r in R'. eexists _, _, _, _. split; [exact R'|]. simpl. lia.
Qed.

Lemma sys_inv_le sp a0 n m s evs : sys_inv sp a0 n s evs → n ≤ m → sys_inv sp a0 m s evs.
Proof. intros (cn & hc & hfr & ac & R & G1 & G2) ?. exists cn, hc, hfr, ac. split; [done|]. lia. Qed.

Lemma sys_rel_acked sp a0 s evs cn hc hfr ac q ch :
  sys_rel sp a0 s evs cn hc hfr ac → (SyStopWaiting q ch ∈ evs → stop_done q (omap agent_ev evs)) →
  sys_rel sp a0 s (evs ++ [SyStopAcked q ch]) cn hc hfr ac.
Proof.
  intros [R1 R2 R3 R4 R5 R6 R7 R8 R9 R10 R11 R12] Hq.
  split; rewrite ?omap_app; simpl; rewrite ?app_nil_r, ?(app_nil_r (omap agent_ev evs)); try done.
  - intros q' ch'. rewrite elem_of_app. intros [?|?%list_elem_of_singleton]; [by apply R11|done].
  - intros e1 q' ch' e2 Heq Hin. destruct e2 as [|e e2 _] using rev_ind.
    + apply app_inj_tail in Heq as [-> [= -> ->]]. by apply Hq.
    + rewrite app_comm_cons, (assoc_L (++)) in Heq. apply app_inj_tail in Heq as [-> _]. by eapply R12.
Qed.

Lemma sys_inv_await sp a0 n s evs q ch ctx k cn cn' e :
  hello_only a0 → sys_inv sp a0 n s evs → n + 6 < 2 ^ 64 → ct_conn (sy_host s) = Some cn →
  SendAndAwaitAck_end cn q ch ctx k = Some (cn', e) →
  sys_inv sp a0 (n + 6) (sys_host s (host_conn (sy_host s) cn'))
    (evs ++ match e with None => [SyStopAcked q ch] | Some _ => [] end).
Proof.
  intros Ha0 H Hn Hcn He. assert (sys_inv sp a0 (n + 6) (sys_host s (host_conn (sy_host s) cn')) evs) as H1.
  { apply (sys_inv_host_conn sp a0 n s evs _ [OpAwaitEnd q ch ctx k]); try done; [by repeat constructor|simpl; lia|].
    intros cn0. rewrite Hcn. intros [= <-]. simpl. rewrite He. by destruct e. }
  destruct e as [e|]; [by rewrite app_nil_r|].
  assert (cn' = cn ∧ c_chans cn !! ch = Some true) as [-> Hch].
  { unfold SendAndAwaitAck_end in He. destruct k; repeat case_match; simplify_eq/=; done. }
  destruct H1 as (cn1 & hc & hfr & ac & R & G). exists cn1, hc, hfr, ac. split; [|done].
  assert (cn1 = cn) as -> by (pose proof (sr_conn _ _ _ _ _ _ _ _ R) as E; simpl in E; congruence).
  apply sys_rel_acked; [done|]. intros Hw. by eapply stop_acked_done.
Qed.

Lemma sys_host_id s : sys_host s (sy_host s) = s.
Proof. by destruct s. Qed.

Lemma sys_inv_close sp a0 n s evs kill a b p :
  sys_inv sp a0 n s evs → n + 6 < 2 ^ 64 →
  sys_inv sp a0 (n + 6) (sys_host s (close_conn kill a b p (sy_host s))) evs.
Proof.
  intros H Hn. pose proof H as (cn & hc & hfr & ac & R & G).
  pose proof (sr_conn _ _ _ _ _ _ _ _ R) as Hcn. unfold close_conn.
  destruct (ct_closed (sy_host s)); [rewrite sys_host_id; eapply sys_inv_le; [done|lia]|].
  set (c1 := with_closed _ _ _). change (ct_conn c1) with (ct_conn (sy_host s)). rewrite Hcn.
  assert (∀ h', ct_Spec h' = ct_Spec (sy_host s) → ct_conn h' = Some cn → sys_inv sp a0 (n + 6) (sys_host s h') evs) as Hsame.
  { intros h' E1 E2. apply (sys_inv_host_conn sp a0 n s evs h' []); try done; [simpl; lia|].
    intros cn0. rewrite Hcn. by intros [= <-]. }
  destruct (Conn.Close a b p cn) as [[[cn' r] es]|] eqn:Ec.
  - pose proof (Close_run _ _ _ _ _ _ _ Ec) as Hrun.
    pose proof (Close_unheard _ _ _ _ _ _ _ _ _ _ _ _ (li_1 _ _ _ _ _ _ _ _ _ _ (sr_link _ _ _ _ _ _ _ _ R)) Ec) as Hu.
    assert (∀ h', ct_Spec h' = ct_Spec (sy_host s) → ct_conn h' = Some cn' → sys_inv sp a0 (n + 6) (sys_host s h') evs) as Hc.
    { intros h' E1 E2. apply (sys_inv_host_conn sp a0 n s evs h' (close_ops a b p)); try done;
        [unfold close_ops; simpl; by repeat constructor|].
      intros cn0. rewrite Hcn. intros [= <-]. by rewrite Hrun. }
    simpl. destruct (ct_handle (sy_host s)), kill; by apply Hc.
  - simpl. destruct (ct_handle (sy_host s)), kill; by apply Hsame.
Qed.

Lemma sys_inv_host_read sp a0 n s evs :
  sys_inv sp a0 n s evs → n + 6 < 2 ^ 64 →
  let '(h', es) := host_read (sy_cut s) (sy_host s) in
  sys_inv sp a0 (n + 6) (sys_host s h') (evs ++ (SyHost <$> es)).
Proof.
  intros H Hn. pose proof H as (cn & hc & hfr & ac & R & G1 & G2).
  pose proof (sr_conn _ _ _ _ _ _ _ _ R) as Hcn. pose proof (sr_spec _ _ _ _ _ _ _ _ R) as Hsp.
  unfold host_read. rewrite Hcn. destruct (read_blocks cn && negb (sy_cut s)).
  { rewrite sys_host_id, app_nil_r. eapply sys_inv_le; [done|lia]. }
  assert (∀ h' cevs, ct_conn h' = Some (readLoop_step cn).1 → ct_Spec h' = sp →
    omap ev_started cevs = omap (frame_started ∘ frame_of_msg) (omap ev_handled (readLoop_step cn).2) →
    omap ev_exited cevs = omap (frame_exited ∘ frame_of_msg) (omap ev_handled (readLoop_step cn).2) →
    sys_inv sp a0 (n + 6) (sys_host s h') (evs ++ (SyHost <$> cevs))) as Hm.
  { intros h' cevs E1 E2 E3 E4.
    pose proof (sys_host_move sp a0 s evs cn hc hfr ac h' [OpRead] cevs [] R) as Hm. cbn [run_trace conn_step] in Hm.
    destruct (readLoop_step cn) as [cn' es]. simpl in *. rewrite !app_nil_r in Hm.
    destruct Hm as [R' G']; try done; [by repeat constructor|lia|by left|].
    eexists _, _, _, _. split; [exact R'|]. simpl. lia. }
  pose proof (read_one cn) as Hone. destruct (readLoop_step cn) as [cn' es]. simpl in *.
  set (h1 := host_conn (sy_host s) cn') in *. destruct (first_handled es) as [m|].
  - destruct (handleMessage_told h1 m) as (T1 & T2 & T3 & T4). destruct (handleMessage h1 m) as [h' cevs]. simpl in *.
    apply Hm; [by rewrite T1|by rewrite T2|rewrite T3, Hone|rewrite T4, Hone]; simpl;
      [by destruct (frame_started _)|by destruct (frame_exited _)].
  - rewrite Hone in Hm. destruct (disconnected es).
    + unfold on_disconnect. set (h2 := with_child _ _ _ _ _). destruct (setState_same h2 StateCrashed) as (E1 & E2 & _ & E3 & E4).
      destruct (setState h2 StateCrashed) as [h' cevs]. simpl in *. apply Hm; [by rewrite E1|by rewrite E2|done..].
    + by apply (Hm h1 []).
Qed.

(** The agent: anything that is not a message, and a message off the wire. *)
Lemma sys_inv_agent_local sp a0 n s evs op :
  sys_inv sp a0 n s evs → n + 6 < 2 ^ 64 → agent_local op = true → agent_op_ok op →
  let '(d', es) := agent_step err_text (sy_agent s) op in
  sys_inv sp a0 (n + 6) (sys_agent s d') (evs ++ (SyAgent <$> es)).
Proof.
  intros (cn & hc & hfr & ac & R & G1 & G2) Hn Hl Hop.
  destruct (agent_step_sends err_text (sy_agent s) op) as (cops & C1 & _ & C3 & C4 & C5); [by destruct op|].
  destruct (agent_local_frame err_text (sy_agent s) op Hl) as [F1 F2].
  pose proof (agent_step_inv err_text _ _ op Hack (sr_life _ _ _ _ _ _ _ _ R)) as I1.
  pose proof (agent_step_report err_text _ _ op Hop (sr_report _ _ _ _ _ _ _ _ R)) as I2.
  destruct (agent_step err_text (sy_agent s) op) as [d' es]. simpl in *.
  destruct (sys_agent_move sp a0 s evs cn hc hfr ac d' cops es R C1) as (ac' & R' & G'); try done; [lia| | |].
  - intros h Hh. left. by apply F2.
  - rewrite F1. unfold payloads. rewrite Forall_fmap. apply (sr_payloads _ _ _ _ _ _ _ _ R).
  - exists cn, hc, hfr, ac'. split; [done|]. simpl. lia.
Qed.

(** A step of the agent's connection that hands nothing over. *)
Lemma sys_inv_agent_conn sp a0 n s evs op :
  sys_inv sp a0 n s evs → n + 6 < 2 ^ 64 → owner_op no_await op → op_frame op = None →
  sys_inv sp a0 (n + 1) (sys_agent s (upd_conn (sy_agent s) (conn_step (d_conn (sy_agent s)) op).1)) evs.
Proof.
  intros (cn & hc & hfr & ac & R & G1 & G2) Hn Ho Hf.
  destruct (sys_agent_move sp a0 s evs cn hc hfr ac (upd_conn (sy_agent s) (conn_step (d_conn (sy_agent s)) op).1) [op] [] R)
    as (ac' & R' & G'); try done.
  - by apply Forall_singleton.
  - simpl. lia.
  - csimpl. by rewrite Hf.
  - simpl. by destruct (conn_step _ op).
  - eapply inv_core; [apply (sr_life _ _ _ _ _ _ _ _ R)|done|apply quiet_none].
  - eapply report_inv_same; [apply (sr_report _ _ _ _ _ _ _ _ R)|apply no_report_nil|done].
  - intros h [Hh|Hh]; [by apply elem_of_nil in Hh|by left].
  - unfold payloads. rewrite Forall_fmap. apply (sr_payloads _ _ _ _ _ _ _ _ R).
  - rewrite app_nil_r in R'. exists cn, hc, hfr, ac'. split; [done|]. simpl in *. lia.
Qed.

Lemma sys_inv_agent_read sp a0 n s evs sc nocap fail io :
  sys_inv sp a0 n s evs → n + 6 < 2 ^ 64 → start_ok (start_payload sp) →
  let '(d', es) := agent_read (sy_cut s) sc nocap fail io (sy_agent s) in
  sys_inv sp a0 (n + 6) (sys_agent s d') (evs ++ (SyAgent <$> es)).
Proof.
  intros H Hn Hstart. assert (sys_agent s (sy_agent s) = s) as Hid by (by destruct s).
  unfold agent_read. destruct (d_waiting (sy_agent s)) as [|w ws] eqn:Ew.
  2:{ rewrite Hid, app_nil_r. eapply sys_inv_le; [done|lia]. }
  destruct (read_blocks (d_conn (sy_agent s)) && negb (sy_cut s)).
  { rewrite Hid, app_nil_r. eapply sys_inv_le; [done|lia]. }
  destruct H as (cn & hc & hfr & ac & R & G1 & G2). pose proof (sr_link _ _ _ _ _ _ _ _ R) as L.
  pose proof (read_step_inv _ _ _ _ _ _ (li_2 _ _ _ _ _ _ _ _ _ _ L)
    (wire_of_peer _ _ _ (ei_send _ _ _ _ _ _ (li_1 _ _ _ _ _ _ _ _ _ _ L)) (prefix_take _ _))) as E.
  pose proof (read_one (d_conn (sy_agent s))) as Hone.
  destruct (readLoop_step (d_conn (sy_agent s))) as [c' ces] eqn:Er. simpl in *.
  set (d1 := upd_conn (sy_agent s) c') in *.
  assert (agent_inv d1 (omap agent_ev evs)) as I1.
  { rewrite <- (app_nil_r (omap agent_ev evs)).
    eapply inv_core; [apply (sr_life _ _ _ _ _ _ _ _ R)|done|apply quiet_none]. }
  assert (report_inv d1 (omap agent_ev evs)) as I2.
  { rewrite <- (app_nil_r (omap agent_ev evs)).
    eapply report_inv_same; [apply (sr_report _ _ _ _ _ _ _ _ R)|apply no_report_nil|done]. }
  assert (Forall (λ p, p = start_payload sp) (payloads d1)) as I3.
  { unfold payloads. rewrite Forall_fmap. apply (sr_payloads _ _ _ _ _ _ _ _ R). }
  assert (∀ d' cops es, Forall (owner_op no_await) cops → (length cops ≤ 2)%nat →
    d_conn d' = (run_trace conn_step c' cops).1 → omap op_frame cops = omap agent_frame es →
    agent_inv d' (omap agent_ev evs ++ es) → report_inv d' (omap agent_ev evs ++ es) →
    (∀ h, h ∈ omap handled es ∨ h ∈ d_waiting d' → ∃ m, m ∈ omap ev_written hc ∧ m_Header m = h) →
    Forall (λ p, p = start_payload sp) (payloads d') →
    sys_inv sp a0 (n + 6) (sys_agent s d') (evs ++ (SyAgent <$> es))) as Hm.
  { intros d' cops es C1 C2 C3 C4 J1 J2 J3 J4.
    destruct (sys_agent_move sp a0 s evs cn hc hfr ac d' (OpRead :: cops) es R) as (ac' & R' & G'); try done.
    - by constructor.
    - simpl. lia.
    - cbn [run_trace conn_step]. rewrite Er, C3. by destruct (run_trace conn_step c' cops).
    - intros h Hh. right. by apply J3.
    - exists cn, hc, hfr, ac'. split; [done|]. simpl in *. lia. }
  destruct (first_handled ces) as [m|].
  - assert (m ∈ omap ev_written hc) as Hmw.
    { eapply handled_written; [exact E|]. rewrite omap_app, elem_of_app. right. rewrite Hone. apply list_elem_of_here. }
    destruct (Handle_sends err_text sc nocap fail io d1 m) as (cops & C1 & _ & C3 & C4 & C5).
    pose proof (Handle_inv err_text sc nocap fail io d1 _ m Hack I1) as J1.
    destruct (Handle_tame err_text sc nocap fail io d1 m) as [T1 T2].
    assert (host_frame_ok sp (frame_of_msg m)) as Hf.
    { pose proof (sr_hfr _ _ _ _ _ _ _ _ R) as Hf. rewrite Forall_forall in Hf. apply Hf.
      by eapply wire_frame; [apply (li_1 _ _ _ _ _ _ _ _ _ _ L)|]. }
    pose proof (Handle_payloads sc nocap fail io d1 m sp Hstart Hf I3) as J4.
    pose proof (Handle_handled sc nocap fail io d1 m) as J3.
    destruct (Handle err_text sc nocap fail io d1 m) as [d' es]. simpl in *.
    apply (Hm d' cops); try done; [by apply (report_inv_tame d1)|].
    intros h Hh. destruct (J3 h Hh) as [Hw| ->]; [|by exists m]. rewrite Ew in Hw. by apply elem_of_nil in Hw.
  - apply (Hm d1 [] []); rewrite ?app_nil_r; try done; [simpl; lia|].
    intros h [Hh|Hh]; [by apply elem_of_nil in Hh|]. simpl in Hh. rewrite Ew in Hh. by apply elem_of_nil in Hh.
Qed.

(** Bytes on the sockets. *)
Lemma sys_inv_wire sp a0 n s evs s' cn cn' :
  sys_inv sp a0 n s evs → ct_conn (sy_host s) = Some cn → 
  ct_conn (sy_host s') = Some cn' → ct_Spec (sy_host s') = ct_Spec (sy_host s) →
  core (sy_agent s') = core (sy_agent s) → d_waiting (sy_agent s') = d_waiting (sy_agent s) →
  c_seqs cn' = c_seqs cn → c_seqs (d_conn (sy_agent s')) = c_seqs (d_conn (sy_agent s)) →
  (∀ Q1 Q2 e1 f1 e2 f2, link_inv Q1 Q2 cn e1 f1 (d_conn (sy_agent s)) e2 f2 (sy_up s) (sy_down s) →
     link_inv Q1 Q2 cn' e1 f1 (d_conn (sy_agent s')) e2 f2 (sy_up s') (sy_down s')) →
  sys_inv sp a0 n s' evs.
Proof.
  intros (cn0 & hc & hfr & ac & [R1 R2 R3 R4 R5 R6 R7 R8 R9 R10 R11 R12] & G1 & G2) Hcn H1 H2 H3 H4 H5 H6 Hl.
  assert (cn0 = cn) as -> by congruence.
  assert (d_gs (sy_agent s') = d_gs (sy_agent s)) as Hgs by (by injection H3).
  exists cn', hc, hfr, ac. rewrite H5, H6. split; [|done]. split; rewrite ?H4, ?Hgs; try done.
  - congruence.
  - auto.
  - rewrite <- (app_nil_r (omap agent_ev evs)). by eapply inv_core; [done| |apply quiet_none].
  - rewrite <- (app_nil_r (omap agent_ev evs)). by eapply report_inv_same; [done|apply no_report_nil|].
Qed.

Lemma arrive_seqs b c : c_seqs (arrive b c) = c_seqs c.
Proof. unfold arrive. by destruct (c_closing c). Qed.

(** Every step. *)
Lemma sys_step_inv sp a0 n s evs op :
  hello_only a0 → start_ok (start_payload sp) → sys_inv sp a0 n s evs → sys_op_ok op → n + 6 < 2 ^ 64 →
  sys_inv sp a0 (n + 6) (sys_step s op).1 (evs ++ (sys_step s op).2).
Proof.
  intros Ha0 Hstart H Hop Hn. pose proof H as (cn & hc & hfr & ac & R & G).
  pose proof (sr_conn _ _ _ _ _ _ _ _ R) as Hcn.
  assert (sys_inv sp a0 (n + 6) s (evs ++ [])) as Hid by (rewrite app_nil_r; eapply sys_inv_le; [done|lia]).
  assert (∀ s', sys_inv sp a0 n s' evs → sys_inv sp a0 (n + 6) s' (evs ++ [])) as Hle
    by (intros; rewrite app_nil_r; eapply sys_inv_le; [done|lia]).
  destruct op; cbn [sys_step]; rewrite ?Hcn.
  - destruct (Start_finish s0 k (sy_host s)) as [[[h' r] es]|] eqn:E; [|done].
    destruct (Start_finish_sends _ _ _ _ _ _ E) as (ces & S1 & S2). simpl.
    rewrite <- (app_nil_r (SyHost <$> es)). eapply sys_inv_host_sends; try done. by left.
  - destruct (Stop_sends s0 (sy_host s)) as (ces & S1 & S2 & S3).
    destruct (Stop s0 (sy_host s)) as [[h' r] es]. simpl in *. eapply sys_inv_host_sends; try done.
    destruct r as [e|q ch]; [by left|right]. exists q, ch. split; [done|]. by eapply S3.
  - destruct (SendAndAwaitAck_end cn seq ch ctx_done k) as [[cn' e]|] eqn:E; [|done]. simpl.
    by eapply sys_inv_await.
  - destruct (pty_type t) eqn:Et; [|done]. destruct (SendPTY_sends s0 (sy_host s) t payload Et) as [ces S1]. simpl.
    apply (sys_inv_host_sends sp a0 n s evs _ [] [] ces); try done. by left.
  - simpl. rewrite app_nil_r. by apply sys_inv_close.
  - pose proof (sys_inv_host_read sp a0 n s evs H Hn) as Hr. by destruct (host_read _ _).
  - simpl. rewrite app_nil_r.
    apply (sys_inv_host_conn sp a0 n s evs _ [OpWrite fired pick]); try done; [by repeat constructor|simpl; lia|].
    intros cn0. rewrite Hcn. intros [= <-]. simpl. pose proof (unheard_step cn (OpWrite fired pick) ltac:(done)) as Hu.
    simpl in Hu. destruct (writeLoop_step fired pick cn) as [cn' es]. simpl in *. by rewrite app_nil_r.
  - destruct (agent_local op) eqn:El; [|done].
    pose proof (sys_inv_agent_local sp a0 n s evs op H Hn El Hop) as Hr. by destruct (agent_step _ _ _).
  - pose proof (sys_inv_agent_read sp a0 n s evs s0 nocap fail io H Hn Hstart) as Hr. by destruct (agent_read _ _ _ _ _ _).
  - simpl. rewrite app_nil_r. eapply sys_inv_le; [by apply (sys_inv_agent_conn sp a0 n s evs (OpWrite fired pick))|lia].
  - apply Hle. eapply (sys_inv_wire sp a0 n s evs _ cn); try done; [apply arrive_seqs|]. intros. by apply link_arrive.
  - apply Hle. eapply (sys_inv_wire sp a0 n s evs _ cn cn); try done; [simpl; by rewrite arrive_seqs|].
    intros. apply link_sym. simpl. by apply link_arrive, link_sym.
  - apply Hle. by eapply (sys_inv_wire sp a0 n s evs _ cn cn).
Qed.

(** The host's life in a joint run is a life of the controller. *)
Lemma sys_ctl_inv s evs op :
  ctl_inv (sy_host s) evs → ctl_inv (sy_host (sys_step s op).1) (evs ++ omap host_ev (sys_step s op).2).
Proof.
  intros H. assert (∀ h', Controller.same_life (sy_host s) h' → ctl_inv h' (evs ++ [])) as Hs
    by (intros; rewrite app_nil_r; by eapply ctl_inv_same).
  assert (∀ cop xs, omap host_ev xs = [] →
    ctl_inv (ctl_step (sy_host s) cop).1 (evs ++ omap host_ev ((SyHost <$> (ctl_step (sy_host s) cop).2) ++ xs))) as Hc.
  { intros cop xs Hx. rewrite omap_app, Hx, app_nil_r, (proj1 (host_events_proj _)). by apply ctl_inv_step. }
  assert (∀ l, omap host_ev (SyAgent <$> l) = []) as Ha by apply agent_events_proj.
  destruct op; cbn [sys_step].
  - specialize (Hc (CtlStartFinish s0 k) [] eq_refl). simpl in Hc.
    destruct (Start_finish s0 k (sy_host s)) as [[[h' r] es]|]; simpl in *; [by rewrite app_nil_r in Hc|done].
  - pose proof (Hc (CtlStop s0)) as Hc'. simpl in Hc'. destruct (Stop s0 (sy_host s)) as [[h' r] es]. simpl in *.
    apply Hc'. by destruct r.
  - destruct (ct_conn (sy_host s)) as [cn|]; [|by apply Hs].
    destruct (SendAndAwaitAck_end cn seq ch ctx_done k) as [[cn' [e|]]|]; by apply Hs.
  - destruct (pty_type t); [|by apply Hs]. apply Hs. unfold SendPTY.
    destruct (ct_conn (sy_host s)) as [cn|]; [|done]. by destruct (SendWithNewSeq s0 cn t 0 payload) as [[]].
  - by apply (Hc (CtlClose kill ctx_first fired pick) []).
  - unfold host_read. destruct (ct_conn (sy_host s)) as [cn|]; [|by apply Hs].
    destruct (_ && _); [by apply Hs|]. destruct (readLoop_step cn) as [cn' es].
    set (h1 := host_conn (sy_host s) cn'). assert (ctl_inv h1 evs) as H1 by by eapply ctl_inv_same.
    assert (∀ cop, let '(h', evs') := ctl_step h1 cop in ctl_inv h' (evs ++ omap host_ev (SyHost <$> evs'))) as H2.
    { intros cop. pose proof (ctl_inv_step h1 evs cop H1) as Hx. destruct (ctl_step h1 cop) as [h' evs'].
      by rewrite (proj1 (host_events_proj _)). }
    destruct (first_handled es) as [m|]; [|destruct (disconnected es)].
    + specialize (H2 (CtlMessage m)). simpl in H2. by destruct (handleMessage h1 m).
    + specialize (H2 CtlDisconnect). simpl in H2. by destruct (on_disconnect h1).
    + simpl. by rewrite app_nil_r.
  - destruct (ct_conn (sy_host s)) as [cn|]; by apply Hs.
  - destruct (agent_local op); [|by apply Hs]. destruct (agent_step _ _ _) as [d' es]. simpl. rewrite Ha. by apply Hs.
  - destruct (agent_read _ _ _ _ _ _) as [d' es]. simpl. rewrite Ha. by apply Hs.
  - by apply Hs.
  - destruct (ct_conn (sy_host s)) as [cn|]; by apply Hs.
  - destruct (ct_conn (sy_host s)) as [cn|]; by apply Hs.
  - by apply Hs.
Qed.

(** Runs keep both. *)
Lemma sys_run_inv sp a0 evs0 ops : ∀ n s evs,
  hello_only a0 → start_ok (start_payload sp) → sys_inv sp a0 n s evs → ctl_inv (sy_host s) (evs0 ++ omap host_ev evs) →
  Forall sys_op_ok ops → n + 6 * Z.of_nat (length ops) < 2 ^ 64 →
  let '(s', es) := run_trace sys_step s ops in
  (∃ n', sys_inv sp a0 n' s' (evs ++ es)) ∧ ctl_inv (sy_host s') (evs0 ++ omap host_ev (evs ++ es)).
Proof.
  induction ops as [|op ops IH]; intros n s evs Ha0 Hst H Hc Hops Hn.
  - simpl. rewrite app_nil_r. eauto.
  - inversion Hops; subst. cbn [run_trace length] in *.
    pose proof (sys_step_inv sp a0 n s evs op Ha0 Hst H ltac:(done) ltac:(lia)) as H1.
    pose proof (sys_ctl_inv s _ op Hc) as Hc1. rewrite <- (assoc_L (++)), <- omap_app in Hc1.
    destruct (sys_step s op) as [s1 e1]. simpl in *.
    specialize (IH (n + 6) s1 (evs ++ e1) Ha0 Hst H1 Hc1 ltac:(done) ltac:(lia)).
    destruct (run_trace sys_step s1 ops) as [s2 e2]. by rewrite <- (assoc_L (++)) in IH.
Qed.

(** ** From start-up *)

(** A dispatcher on its connection, one HELLO sent. *)
Definition agent_fresh (room : option nat) (sa : enq_sched) (a1 : Dispatcher) : Prop :=
  ∃ c0 cfg d data, NewConn cfg = Ok c0 ∧ cfg_RWC cfg = Some (mkReader [] EOF, mkWriter [] room) ∧
    cfg_MaxRecvPayload cfg = MaxPayloadSize ∧
    a1 = upd_conn d (conn_step (Conn.Start (OnMessage c0 true)) (OpSendNew sa MsgHello 0 data)).1 ∧
    d_gs d = [] ∧ d_waiting d = [] ∧
    (core d = core (NewDispatcher (d_conn d)) ∨ core d = core (SetPersistentShutdown (NewDispatcher (d_conn d)))).

Lemma run_connect_fresh sa cfg dir a pst st room :
  ma_rwc a = Some (mkReader [] EOF, mkWriter [] room) → ac_MaxRecvPayload cfg = MaxPayloadSize →
  run_connect sa cfg dir a pst = Ok st → agent_fresh room sa (mn_disp st).
Proof.
  intros Hrwc Hcap Hr. unfold run_connect in Hr. destruct (negb (ma_fd a)); [done|].
  rewrite Hrwc in Hr. destruct (NewConn _) as [c0|] eqn:Ec; [|done].
  destruct (EncodePayload _) as [data|]; [|done].
  set (d := wire_dispatcher (Conn.Start (OnMessage c0 true)) dir pst) in Hr.
  assert (d_conn d = Conn.Start (OnMessage c0 true)) as Hd by (unfold d; by destruct pst).
  rewrite Hd in Hr. destruct (SendWithNewSeq sa (Conn.Start (OnMessage c0 true)) MsgHello 0 data) as [[c b] x] eqn:Es.
  injection Hr as <-. eexists c0, _, d, data. split; [exact Ec|].
  cbn [conn_step]. rewrite Es. split_and!; try done; unfold d; destruct pst; auto.
Qed.

Lemma Run_begin_fresh sa env args a fs fs' st room :
  ma_rwc a = Some (mkReader [] EOF, mkWriter [] room) →
  Run_begin sa env (main_config args env) a fs = (fs', Ok st) → agent_fresh room sa (mn_disp st).
Proof.
  intros Hrwc H. unfold Run_begin in H. destruct (negb (ma_mkdir a)); [done|]. destruct (ac_Persistent _).
  - destruct (String.eqb _ _); [done|]. destruct (initPersistent _ _ _ _ _ _ _ _) as [? [p|]]; [|done].
    destruct (run_connect _ _ _ _ _) as [st'|] eqn:E; [|done]. injection H as <- <-.
    by eapply run_connect_fresh; [done| |exact E].
  - injection H as <- E. by eapply run_connect_fresh; [done| |exact E].
Qed.

(** What a successful [Start_begin] leaves: two frames sent on a fresh
    connection. *)
Lemma Start_begin_fresh sh room wal wf c h evs :
  Start_begin sh (Some (mkReader [] EOF, mkWriter [] room)) wal wf c = (h, Ok (), evs) →
  ∃ c0 cfg h1 h2 e1 e2, NewConn cfg = Ok c0 ∧ cfg_RWC cfg = Some (mkReader [] EOF, mkWriter [] room) ∧
    cfg_MaxRecvPayload cfg = 0 ∧
    ct_conn h1 = Some (Conn.Start (SetOnDisconnect (OnMessage c0 true) true)) ∧ ct_Spec h1 = ct_Spec c ∧
    ctl_sends h1 h2 e1 ∧ ctl_sends h2 h e2.
Proof.
  unfold Start_begin. destruct (setState_same c StateStarting) as (E1 & E2 & _ & E4).
  destruct (setState c StateStarting) as [c1 ev1]. simpl in E1, E2, E4.
  destruct (start_result _) as [[c2 r] ev2] eqn:Er. intros [= -> -> <-].
  assert (∀ x, start_result x = (h, Ok (), ev2) → x = (h, Ok ())) as Hok.
  { intros [c3 [[]|e]]; simpl; [by intros [= -> _]|]. by destruct (setState c3 StateCrashed). }
  apply Hok in Er. unfold Start_spawn in Er. revert Er.
  destruct (NewConn _) as [c0|e] eqn:Ec; [|done].
  set (h1 := with_conn _ _ _ _). set (hello := Some _).
  destruct (send_ctl_sends sh h1 MsgHello hello false) as [e1 H1]; [done|by intros ? ? _ _ ?|done|].
  destruct (send sh h1 MsgHello hello false) as [h2 x]. simpl in H1.
  destruct (send_ctl_sends (A := HelloPayload) sh h2 MsgTypeCapabilityQuery None false) as [e2 H2]; [done|done|by intros _ ?|].
  destruct (send sh h2 MsgTypeCapabilityQuery None false) as [h3 [q|]]; [done|].
  intros [= <-]. eexists c0, _, h1, h2, e1, e2. split; [exact Ec|]. by split_and!.
Qed.

Lemma sys_inv_init sh room wal wf c h evs roomA sa d sp :
  Start_begin sh (Some (mkReader [] EOF, mkWriter [] room)) wal wf c = (h, Ok (), evs) → ct_Spec c = sp →
  agent_fresh roomA sa d → ∃ a0, hello_only a0 ∧ sys_inv sp a0 13 (mkSys h d 0 0 false) [].
Proof.
  intros Hs Hsp (ca & cfga & d0 & data & A1 & A2 & A3 & -> & A4 & A5 & A6).
  destruct (Start_begin_fresh _ _ _ _ _ _ _ Hs) as (ch & cfgh & h1 & h2 & e1 & e2 & B1 & B2 & B3 & B4 & B5 & B6 & B7).
  destruct (end_inv_init stop_await cfgh room ch true B2 (or_introl B3) B1) as (I1 & G1 & O1).
  destruct (end_inv_init no_await cfga roomA ca (c_onDisconnect ca) A2 (or_intror A3) A1) as (I2 & G2 & O2).
  assert (SetOnDisconnect (OnMessage ca true) (c_onDisconnect ca) = OnMessage ca true) as Hca by (by destruct ca).
  rewrite Hca in I2, G2, O2.
  set (cn := Conn.Start (SetOnDisconnect (OnMessage ch true) true)) in *.
  set (ca1 := Conn.Start (OnMessage ca true)) in *.
  assert (link_inv stop_await no_await cn [] [] ca1 [] [] 0 0) as L0.
  { split; simpl; rewrite ?O1, ?O2; simpl; try done; lia. }
  pose proof (link_run _ _ _ _ _ _ _ _ _ _ [OpSendNew sa MsgHello 0 data] (link_sym _ _ _ _ _ _ _ _ _ _ L0)
    ltac:(by repeat constructor) ltac:(rewrite G2; simpl; lia)) as L1.
  cbn [run_trace] in L1. destruct (conn_step ca1 (OpSendNew sa MsgHello 0 data)) as [ca2 x2]. simpl in L1.
  destruct L1 as [L1 L2]. rewrite G2 in L2. simpl in L2. rewrite app_nil_r in L1.
  exists [(MsgHello, data)]. split; [by apply Forall_singleton|].
  set (d := upd_conn d0 ca2).
  assert (core d = core (NewDispatcher (d_conn d)) ∨ core d = core (SetPersistentShutdown (NewDispatcher (d_conn d)))) as Hcore
    by apply A6.
  assert (sys_inv sp [(MsgHello, data)] 1 (mkSys h1 d 0 0 false) []) as S0.
  { exists cn, [], [], x2. split; [|rewrite G1; simpl; lia]. split; simpl; try done.
    - by rewrite B5.
    - by apply link_sym.
    - by apply agent_inv_new.
    - split; simpl; rewrite ?A4; done.
    - rewrite A5. intros hh [?%elem_of_nil|?%elem_of_nil]; done.
    - by rewrite A4.
    - by intros q ch' ?%elem_of_nil.
    - intros [|? ?] q ch' ? ?; by simplify_eq. }
  apply (sys_inv_host_sends sp _ 1 (mkSys h1 d 0 0 false) [] h2 [] [] e1) in S0; [|lia|done|done|by left].
  apply (sys_inv_host_sends sp _ 7 (mkSys h2 d 0 0 false) [] h [] [] e2) in S0; [|lia|done|done|by left].
  exact S0.
Qed.

(** ** What the host may conclude *)

Lemma sublist_omap {A B} (f : A → option B) (l k : list A) : l `sublist_of` k → omap f l `sublist_of` omap f k.
Proof.
  induction 1 as [|x l k _ IH|x l k _ IH]; csimpl; [done|destruct (f x); [by apply sublist_skip|done]|].
  destruct (f x); [by apply sublist_cons|done].
Qed.

(** The messages the host was handed, as frames, are among those the agent
    sent, in order. *)
Lemma handled_frames sp a0 s evs cn hc hfr ac :
  sys_rel sp a0 s evs cn hc hfr ac →
  frame_of_msg <$> omap ev_handled hc `sublist_of` a0 ++ omap agent_frame (omap agent_ev evs).
Proof.
  intros R. destruct (sr_link _ _ _ _ _ _ _ _ R) as [L1 L2 _ _].
  destruct (ei_recv _ _ _ _ _ _ L1) as (k & _ & Hk & _). rewrite Hk.
  etrans; [|apply (ei_frames _ _ _ _ _ _ L2)]. apply fmap_sublist.
  destruct (ei_send _ _ _ _ _ _ L2) as [(lost & Hq & _) _ _ _ _ _ _]. rewrite Hq.
  apply sublist_inserts_r. etrans; [apply sublist_filter|]. apply sublist_take.
Qed.

(** A report read back is the report sent. *)
Lemma frame_started_sent e :
  sent_ok e → agent_frame e ≫= frame_started = match agent_frame e with Some _ => sent_started e | None => None end.
Proof.
  intros He. destruct e as [m| | | | | | |]; try done. simpl. destruct (msg_frame m) as [t [data|]] eqn:Em; [|done].
  simpl. unfold frame_started. simpl. destruct m; injection Em as <- Em; try done.
  cbn [Z.eqb MsgChildStarted]. by rewrite (decode_ok_marshal _ p data He Em).
Qed.
Lemma frame_exited_sent e :
  sent_ok e → agent_frame e ≫= frame_exited = match agent_frame e with Some _ => sent_exited e | None => None end.
Proof.
  intros He. destruct e as [m| | | | | | |]; try done. simpl. destruct (msg_frame m) as [t [data|]] eqn:Em; [|done].
  simpl. unfold frame_exited. simpl. destruct m; injection Em as <- Em; try done.
  cbn [Z.eqb MsgChildExited]. by rewrite (decode_ok_marshal _ p data He Em).
Qed.

Lemma reports_read {B} (f : Z * bytes → option B) (g : agent_event → option B) a0 evs :
  omap f a0 = [] →
  Forall (λ e, agent_frame e ≫= f = match agent_frame e with Some _ => g e | None => None end) evs →
  omap f (a0 ++ omap agent_frame evs) `sublist_of` omap g evs.
Proof.
  intros Ha H. rewrite omap_app, Ha. simpl. induction H as [|e evs He _ IH]; [done|]. csimpl.
  destruct (agent_frame e) as [fr|]; simpl in He; csimpl.
  - rewrite He. destruct (g e); [by apply sublist_skip|done].
  - destruct (g e); [by apply sublist_cons|done].
Qed.

Lemma omap_compose {A B C} (f : B → option C) (g : A → B) (l : list A) : omap (f ∘ g) l = omap f (g <$> l).
Proof. induction l as [|x l IH]; [done|]. csimpl. by rewrite IH. Qed.

Lemma told_is_true sp a0 n s evs :
  hello_only a0 → sys_inv sp a0 n s evs →
  omap ev_started (omap host_ev evs) `sublist_of` (i32 <$> omap spawned (omap agent_ev evs)) ∧
  (length (omap ev_exited (omap host_ev evs)) ≤ length (omap waited (omap agent_ev evs)))%nat.
Proof.
  intros Ha0 (cn & hc & hfr & ac & R & _). pose proof (handled_frames _ _ _ _ _ _ _ _ R) as Hf.
  pose proof (sr_report _ _ _ _ _ _ _ _ R) as [_ P2 P3 P4].
  assert (omap frame_started a0 = [] ∧ omap frame_exited a0 = []) as [Z1 Z2].
  { clear -Ha0. induction Ha0 as [|f a0 Hf _ [IH1 IH2]]; [done|]. csimpl. unfold frame_started, frame_exited in *.
    by rewrite Hf. }
  rewrite (sr_started _ _ _ _ _ _ _ _ R), (sr_exited _ _ _ _ _ _ _ _ R), !omap_compose. split.
  - etrans; [apply (sublist_omap _ _ _ Hf)|]. etrans; [|exact P2]. apply reports_read; [done|].
    eapply Forall_impl; [exact P4|]. intros e. apply frame_started_sent.
  - pose proof (sublist_length _ _ (sublist_omap frame_exited _ _ Hf)) as Hl.
    assert (omap frame_exited (a0 ++ omap agent_frame (omap agent_ev evs)) `sublist_of` omap sent_exited (omap agent_ev evs)) as Hs.
    { apply reports_read; [done|]. eapply Forall_impl; [exact P4|]. intros e. apply frame_exited_sent. }
    apply sublist_length in Hs. lia.
Qed.

Lemma Start_begin_quiet sh sock wal wf c : ctl_quiet (Start_begin sh sock wal wf c).2.
Proof.
  assert (∀ l l', ctl_quiet l → ctl_quiet l' → ctl_quiet (l ++ l')) as Happ.
  { intros l l' [A1 A2] [B1 B2]. unfold ctl_quiet. by rewrite !omap_app, A1, A2, B1, B2. }
  unfold Start_begin. destruct (setState_same c StateStarting) as (_ & _ & _ & E1).
  destruct (setState c StateStarting) as [c1 e1]. simpl in E1.
  pose proof (start_result_same (Start_spawn sh sock wal wf c1)) as (_ & _ & _ & E2).
  destruct (start_result _) as [[c2 r] e2]. by apply Happ.
Qed.

(** C2: supervision end to end.  A host's [Start] spawned an agent, the two
    talk over one socket pair; consider any interleaving of the host's
    operations, the four connection goroutines, the agent's message handlers
    and child goroutines, any splitting of the bytes on the way, and a socket
    pair that may go down at any time.  When a [Stop] that waited for its
    acknowledgement returns nil, the agent has handled that very request and
    by then [cmd.Wait] had returned for every child it had started.  The PIDs
    the host was told are those of children the agent started, in order; it is
    told of no more exits than children were waited for; every child is
    started with the payload of the host's spec; the host's state is Running
    only with the PID of a child the agent started, and Stopped only after a
    child was waited for. *)
Theorem supervision_end_to_end (spec : Spec) (rdir : string) (outcap : Z) (dw hl : bool)
    (c0 h : Controller) (sh : enq_sched) (room : option nat) (wal : option bytes) (wf : bool) (evs0 : list ctl_event)
    (sa : enq_sched) (env args : list string) (am : main_answers) (roomA : option nat)
    (fs fs' : session_files) (st : main_state) (ops : list sys_op)
    (Hnew : NewController spec true rdir outcap dw hl = Ok c0)
    (Hstart : Start_begin sh (Some (mkReader [] EOF, mkWriter [] room)) wal wf (SetOnStateChange c0 true) = (h, Ok (), evs0))
    (Hrwc : ma_rwc am = Some (mkReader [] EOF, mkWriter [] roomA))
    (Hagent : Run_begin sa env (main_config args env) am fs = (fs', Ok st))
    (Hok : start_ok (start_payload spec)) (Hops : Forall sys_op_ok ops) (Hlen : Z.of_nat (length ops) < 2 ^ 61) :
  let '(s, evs) := run_trace sys_step (mkSys h (mn_disp st) 0 0 false) ops in
  let told := evs0 ++ omap host_ev evs in
  let did := omap agent_ev evs in
  acked_ok evs ∧
  omap ev_started told `sublist_of` (i32 <$> omap spawned did) ∧
  (length (omap ev_exited told) ≤ length (omap waited did))%nat ∧
  Forall (λ g, g_payload g = start_payload spec) (d_gs (sy_agent s)) ∧
  (ct_state (sy_host s) = StateRunning → ∃ pid, pid ∈ omap spawned did ∧ ct_childPID (sy_host s) = i32 pid) ∧
  (ct_state (sy_host s) = StateStopped → omap waited did ≠ []).
Proof.
  set (c := SetOnStateChange c0 true) in *.
  assert (ct_Spec c = spec ∧ ctl_inv c []) as [Hsp Hc].
  { unfold NewController in Hnew. destruct (String.eqb rdir ""); simplify_eq/=.
    split; [done|]. split; simpl; done || (split_and!; done). }
  pose proof (ctl_inv_start_begin c [] sh (Some (mkReader [] EOF, mkWriter [] room)) wal wf Hc) as H0.
  pose proof (Start_begin_quiet sh (Some (mkReader [] EOF, mkWriter [] room)) wal wf c) as Hq.
  rewrite Hstart in H0, Hq. simpl in H0, Hq.
  destruct (sys_inv_init sh room wal wf c h evs0 roomA sa (mn_disp st) spec Hstart Hsp
    (Run_begin_fresh _ _ _ _ _ _ _ _ Hrwc Hagent)) as (a0 & Ha0 & Hi).
  pose proof (sys_run_inv spec a0 evs0 ops 13 (mkSys h (mn_disp st) 0 0 false) [] Ha0 Hok Hi
    ltac:(simpl; by rewrite app_nil_r) Hops ltac:(lia)) as H.
  destruct (run_trace sys_step _ ops) as [s evs]. simpl in H. destruct H as [[n Hn] Hctl].
  destruct (told_is_true _ _ _ _ _ Ha0 Hn) as [T1 T2]. destruct Hq as [Q1 Q2].
  pose proof Hn as (cn & hc & hfr & ac & R & _). cbn zeta.
  assert (omap ev_started (evs0 ++ omap host_ev evs) = omap ev_started (omap host_ev evs)) as E1 by (by rewrite omap_app, Q1).
  assert (omap ev_exited (evs0 ++ omap host_ev evs) = omap ev_exited (omap host_ev evs)) as E2 by (by rewrite omap_app, Q2).
  rewrite E1, E2. split_and!; [apply R|done|done|apply (sr_payloads _ _ _ _ _ _ _ _ R)| |].
  - intros Hs. pose proof (cti_running _ _ Hctl Hs) as Hne. rewrite (cti_pid _ _ Hctl). rewrite E1 in Hne |- *.
    destruct (last (omap ev_started (omap host_ev evs))) as [pid|] eqn:El; [|by apply last_None in El].
    apply last_Some_elem_of in El. eapply elem_of_sublist in El; [|exact T1].
    apply list_elem_of_fmap in El as (p & -> & Hp). by exists p.
  - intros Hs Hw. destruct (cti_stopped _ _ Hctl Hs) as (code & Hin & _). rewrite Hw in T2. simpl in T2.
    assert (code ∈ omap ev_exited (evs0 ++ omap host_ev evs)) as Hx by (apply list_elem_of_omap; by exists (CEExited code)).
    rewrite E2 in Hx. destruct (omap ev_exited (omap host_ev evs)); [by apply elem_of_nil in Hx|simpl in T2; lia].
Qed.
End System.

(** ** What the child is started with *)

(** What the host's spec becomes on the way to [Runner.Run], and to the
    meta file of a persistent agent: command, arguments, environment, working
    directory and pseudo-terminal arrive unchanged, the stop timeout is cut to
    milliseconds, so that one below a millisecond is replaced by the default. *)
Theorem child_runs_host_spec (sp base : Spec) (Ht : 0 ≤ spec_StopTimeout sp < 2 ^ 63) :
  let t := spec_StopTimeout sp - spec_StopTimeout sp mod 1000000 in
  run_spec (start_payload sp) =
    mkRunSpec (spec_Command sp) (spec_Args sp) (spec_Env sp) (spec_WorkDir sp) t (spec_PTY sp) ∧
  stop_timeout (rs_StopTimeout (run_spec (start_payload sp))) =
    (if spec_StopTimeout sp <? 1000000 then defaultStopTimeout else t) ∧
  (let m := meta_spec base (start_payload sp) in
   spec_Command m = spec_Command sp ∧ spec_Args m = spec_Args sp ∧ spec_Env m = spec_Env sp ∧
   spec_WorkDir m = spec_WorkDir sp ∧ spec_StopTimeout m = t ∧
   spec_PTY m = match spec_PTY sp with Some c => Some c | None => spec_PTY base end).
Proof.
  intros t. assert (i64 (Milliseconds (spec_StopTimeout sp) * 1000000) = t) as Et.
  { unfold Milliseconds. rewrite Z.quot_div_nonneg by lia.
    pose proof (Z.div_mod (spec_StopTimeout sp) 1000000 ltac:(lia)).
    pose proof (Z.mod_pos_bound (spec_StopTimeout sp) 1000000 ltac:(lia)).
    unfold t. rewrite <- (wrap_i_small 64 (_ - _)) by (unfold in_i; lia). unfold i64. f_equal. lia. }
  assert (pty_config (start_payload sp) = spec_PTY sp) as Ep.
  { unfold pty_config, start_payload. simpl. by destruct (spec_PTY sp) as [[]|]. }
  split_and!.
  - unfold run_spec. rewrite Ep. simpl. by rewrite Et.
  - simpl. rewrite Et. unfold t, stop_timeout. destruct (Z.ltb_spec (spec_StopTimeout sp) 1000000).
    + rewrite Z.mod_small by lia. by rewrite Z.sub_diag.
    + pose proof (Z.div_mod (spec_StopTimeout sp) 1000000 ltac:(lia)).
      pose proof (Z.mod_pos_bound (spec_StopTimeout sp) 1000000 ltac:(lia)).
      assert (1 ≤ spec_StopTimeout sp / 1000000) by (apply Z.div_le_lower_bound; lia).
      rewrite (proj2 (Z.leb_gt _ _)); [done|lia].
  - simpl. split_and!; try done. by destruct (spec_PTY sp) as [[]|].
Qed.

Lemma child_runs_host_spec_witness :
  stop_timeout (rs_StopTimeout (run_spec (start_payload (SpecBuilder.NewSpec "p" "cat" [])))) = 10000000000.
Proof. apply (child_runs_host_spec (SpecBuilder.NewSpec "p" "cat" []) zero_spec). by split. Defined.

(** ** A run from start to an acknowledged stop *)

Module SystemExample.
Import AckCodec.
Definition ex_spec : Spec := SpecBuilder.NewSpec "p" "cat" [].
Definition ex_start_ok (p : StartChildPayload) : Prop := p = start_payload ex_spec.

#[local] Instance c_hello : Codec HelloPayload := const_codec zero.
#[local] Instance c_start : Codec StartChildPayload := const_codec (start_payload ex_spec).
#[local] Instance c_stop : Codec StopChildPayload := const_codec zero.
#[local] Instance c_cap : Codec CapabilityReply := const_codec BuildCapabilityReply.
#[local] Instance c_error : Codec ChildErrorPayload := const_codec zero.
#[local] Instance c_log : Codec LogChunkPayload := const_codec zero.
#[local] Instance c_data : Codec Message.PTYData := const_codec zero.
#[local] Instance c_dump : Codec PTYRingDumpPayload := const_codec zero.
#[local] Instance c_helloack : Codec HelloAckPayload := const_codec (mkHelloAck 0 []).
#[local] Instance c_write : Codec PTYWrite := const_codec zero.
#[local] Instance c_resize : Codec PTYResize := const_codec zero.
#[local] Instance c_signal : Codec PTYSignal := const_codec zero.

(** Big-endian fields of fixed width. *)
#[local] Instance c_started : Codec ChildStartedPayload := {|
  Marshal p := Ok (be_put 4 (cs_PID p) ++ be_put 8 (cs_StartedAt p));
  Unmarshal bs t := (mkChildStarted (i32 (be_get (take 4 bs))) (i64 (be_get (drop 4 bs))), None) |}.
#[local] Instance c_exited : Codec ChildExitedPayload := {|
  Marshal p := Ok (be_put 4 (ce_PID p) ++ be_put 4 (ce_ExitCode p) ++ be_put 4 (ce_Signal p) ++
                   be_put 8 (ce_ExitedAt p) ++ String.list_byte_of_string (ce_Reason p));
  Unmarshal bs t := (mkChildExited (i32 (be_get (take 4 bs))) (i32 (be_get (take 4 (drop 4 bs))))
    (i32 (be_get (take 4 (drop 8 bs)))) (i64 (be_get (take 8 (drop 12 bs))))
    (String.string_of_list_byte (drop 20 bs)), None) |}.

Lemma wrap_be n z : in_i (8 * Z.of_nat (S n)) z → wrap_i (8 * Z.of_nat (S n)) (be_get (be_put (S n) z)) = z.
Proof.
  intros Hz. rewrite be_get_put. transitivity (wrap_i (8 * Z.of_nat (S n)) z); [|apply wrap_i_small; [lia|done]].
  unfold wrap_i. by rewrite Z.add_mod_idemp_l by lia.
Qed.

#[local] Instance l_start : CodecLaws StartChildPayload ex_start_ok.
Proof. split; [by eauto|]. by intros v bs -> _. Qed.
#[local] Instance l_started : CodecLaws ChildStartedPayload started_ok.
Proof.
  split; [by eauto|]. intros [p t] bs [Hp Ht] E.
  assert (be_put 4 p ++ be_put 8 t = bs) as <- by (by injection E). cbn [Unmarshal c_started cs_PID cs_StartedAt].
  rewrite take_app_length', drop_app_length' by done. f_equal. f_equal; [by apply (wrap_be 3)|by apply (wrap_be 7)].
Qed.
#[local] Instance l_exited : CodecLaws ChildExitedPayload exited_ok.
Proof.
  split; [by eauto|]. intros [p c s t r] bs (Hp & Hc & Hs & Ht) E.
  set (rest := String.list_byte_of_string r).
  assert (be_put 4 p ++ be_put 4 c ++ be_put 4 s ++ be_put 8 t ++ rest = bs) as <- by (by injection E).
  cbn [Unmarshal c_exited].
  set (bs := be_put 4 p ++ _).
  change (take 4 bs) with (be_put 4 p). change (take 4 (drop 4 bs)) with (be_put 4 c).
  change (take 4 (drop 8 bs)) with (be_put 4 s). change (take 8 (drop 12 bs)) with (be_put 8 t).
  change (drop 20 bs) with rest. f_equal.
  f_equal; [by apply (wrap_be 3)..|by apply (wrap_be 7)|]. apply String.string_of_list_byte_of_string.
Qed.

Definition ex_answers : main_answers :=
  mkMainAnswers 7 "/tmp" 100 true (mkInit true None true true true) true (Some (mkReader [] EOF, mkWriter [] None)) None false.

(** The agent's first answers, START_CHILD, the child running, an acknowledged
    stop that ends it with SIGTERM. *)
Definition ex_ops : list sys_op :=
  let hw := SyHostWrite false false in
  let aw := SyAgentWrite false false in
  let rd := SyAgentRead alone false None None in
  let hr := SyHostRead in
  [hw; hw; hw; hw; SyDown 200; rd; rd; rd; rd; aw; aw; aw; aw; aw; aw; SyUp 400; hr; hr; hr; hr; hr; hr;
   SyStartFinish alone CaseReply; hw; hw; SyDown 10; SyDown 100; rd; rd; SyAgentOp (GStarted alone 0 42 1000);
   aw; aw; aw; aw; SyUp 400; hr; hr; hr; hr;
   SyStop alone; hw; hw; SyDown 200; rd; SyAgentOp (GWait 0 (WaitSignal 15) 2000); SyAgentOp (GReport alone 0);
   SyAgentOp (GClear 0); SyAgentOp (GDone 0); SyAgentOp (AResume alone 0);
   aw; aw; aw; aw; SyUp 400; hr; hr; hr; hr; SyAwait 4 0 false CaseAck].

Definition ex_host : result ctl_err Controller := NewController ex_spec true "/run" 0 true false.
Definition ex_agent : session_files * result main_err main_state :=
  Run_begin alone ["CLIWRAP_AGENT_ID=p"%string] (main_config [] ["CLIWRAP_AGENT_ID=p"%string]) ex_answers (mkFiles None None false false).
Definition ex_sock : Reader * Writer := (mkReader [] EOF, mkWriter [] None).
Definition ex_begin (c0 : Controller) : Controller * result ctl_err () * list ctl_event :=
  Start_begin alone (Some ex_sock) None false (SetOnStateChange c0 true).
Definition ex_step : Sys → sys_op → Sys * list sys_event := sys_step (λ _, ""%string).

(** What the run shows of the stop: the child is waited for, the request
    handled, its acknowledgement awaited. *)
Definition ex_trace (evs : list sys_event) : list sys_event :=
  filter (λ e, match e with SyAgent (DWaited _) | SyHost (CEExited _) | SyStopWaiting _ _ | SyStopAcked _ _ => true | _ => false end = true) evs.

Example ex_system_run :
  match ex_host, ex_agent with
  | Ok c0, (_, Ok st) =>
      match ex_begin c0 with
      | (h, Ok _, _) =>
          let '(s, evs) := run_trace ex_step (mkSys h (mn_disp st) 0 0 false) ex_ops in
          ex_trace evs = [SyStopWaiting 4 0; SyAgent (DWaited 42); SyHost (CEExited 143); SyStopAcked 4 0] ∧
          ct_state (sy_host s) = StateStopped
      | _ => False
      end
  | _, _ => False
  end.
Proof. vm_compute. by split. Qed.

Lemma supervision_end_to_end_witness :
  match ex_host, ex_agent with
  | Ok c0, (_, Ok st) =>
      match ex_begin c0 with
      | (h, Ok _, e0) =>
          let '(s, evs) := run_trace ex_step (mkSys h (mn_disp st) 0 0 false) ex_ops in
          acked_ok evs ∧ omap ev_started (e0 ++ omap host_ev evs) `sublist_of` (i32 <$> omap spawned (omap agent_ev evs)) ∧
          omap waited (omap agent_ev evs) ≠ []
      | _ => False
      end
  | _, _ => False
  end.
Proof.
  pose proof ex_system_run as Hr.
  destruct ex_host as [c0|] eqn:E1; [|done]. destruct ex_agent as [fs' [st|]] eqn:E2; [|done].
  destruct (ex_begin c0) as [[h [[]|]] e0] eqn:E3; [|done].
  pose proof (supervision_end_to_end (λ _, ""%string) ex_start_ok (λ p, @eq_refl bool true)
    ex_spec "/run" 0 true false c0 h alone None None false e0 alone _ [] ex_answers None (mkFiles None None false false) fs' st
    ex_ops E1 E3 eq_refl E2 eq_refl ltac:(repeat constructor; vm_compute; congruence) ltac:(vm_compute; congruence)) as H.
  fold ex_step in H. destruct (run_trace ex_step _ ex_ops) as [s evs].
  destruct Hr as [_ Hs], H as (H1 & H2 & _ & _ & _ & H6). split_and!; auto.
Defined.
End SystemExample.
