(* ===== verification/MgmtApi.v ===== *)
(** * The manager behind the management socket: pkg/cliwrap/mgmt_api.go,
    manager_resource.go, persistent.go (ListPersistent)

    The manager with its log pipeline implements the interface the server
    uses, so that what the server does with an abstract manager holds of the
    real one: what a client of an event stream or of a log follow receives. *)

From S2P Require Import Prelude Text Frame Seq Outbox Wal Spiller Message Conn RingBuffer CwTypes LogCollect Rotator.
From S2P Require Import ManagerLogs PtySubs Controller EventBus Supervise Agent Mgmt Manager.

(** A manager with its log pipeline. *)
Record hub := mkHub { hub_mgr : Manager; hub_logs : managerLogs }.

Definition hub_bus (m : hub) : Bus := default (New 256) (m_bus (hub_mgr m)).
Definition set_bus (m : hub) (b : Bus) : hub :=
  mkHub (upd_watch (hub_mgr m) (m_seen (hub_mgr m)) (Some b)) (hub_logs m).
Definition set_logs (m : hub) (l : managerLogs) : hub := mkHub (hub_mgr m) l.

(** What is decided outside of one API call: the order in which [range] lists
    the handles, the schedule of [Stop]'s send, and how its wait ends. *)
Record api_env := mkApiEnv { ae_order : list string; ae_sched : enq_sched; ae_wait : option string }.

Definition toListEntry (h : processHandle) : ListEntry :=
  let st := Handle_Status h in
  mkListEntry (spec_ID (ph_spec h)) (spec_Name (ph_spec h)) (State_String (st_State st)) (st_ChildPID st) (st_RSS st).

(** The keys of the map in some order. *)
Definition range_keys (order : list string) (hs : gmap string processHandle) : list string :=
  if decide (order ≡ₚ (map_to_list hs).*1) then order else (map_to_list hs).*1.

Definition Manager_List (e : api_env) (m : Manager) : list ListEntry :=
  toListEntry <$> omap (λ id, m_handles m !! id) (range_keys (ae_order e) (m_handles m)).

Definition StatusOf (m : Manager) (id : string) : result mgr_err ListEntry :=
  match m_handles m !! id with
  | None => Err ErrProcessNotFound
  | Some h => Ok (toListEntry h)
  end.

(** The texts of the sentinels of errors.go; the others wrap further errors. *)
Definition mgr_err_text (err : mgr_err) : option string :=
  match err with
  | ErrProcessNotFound => Some "cliwrap: process not found"
  | ErrProcessAlreadyExists => Some "cliwrap: process already exists"
  | ErrProcessNotRunning => Some "cliwrap: process not running"
  | ErrProcessAlreadyRunning => Some "cliwrap: process already running"
  | ErrManagerClosed => Some "cliwrap: manager is closed"
  | ErrPTYNotConfigured => Some "cliwrap: PTY operations require Spec.PTY to be set"
  | ErrSessionNotFound => Some "cliwrap: persistent session not found"
  | ErrAgentDead => Some "cliwrap: persistent agent is no longer alive"
  | ErrPersistenceUnsupportedByAgent => Some "cliwrap: agent does not support persistent sessions"
  | ErrSpecInvalid _ | ErrController _ | ErrPayload _ | ErrIncompatibleAgent _ => None
  end%string.

(** [ChildPIDs]: the processes that run. *)
Definition ChildPIDs (m : Manager) : gmap string Z :=
  omap (λ h, match ph_ctrl h with
             | Some c => if decide (ctl_State c = StateRunning) then Some (ChildPID c) else None
             | None => None
             end) (m_handles m).

(** ** Sessions on disk: ListPersistent *)

Record PersistentSessionInfo := mkInfo {
  pi_ID : string; pi_Spec : Spec; pi_AgentPID : Z; pi_StartedAt : Z; pi_Alive : bool; pi_Attached : bool }.

(** An entry of the directory: whether it is a directory, and its files. *)
Record dir_entry := mkDirEntry { de_isDir : bool; de_files : session_files }.

Definition session_info (alive : Z → bool) (e : dir_entry) : option PersistentSessionInfo :=
  if negb (de_isDir e) then None
  else match sf_meta (de_files e) with
  | None => None
  | Some meta =>
      let pid := default (pm_AgentPID meta) (sf_pid (de_files e)) in
      Some (mkInfo (pm_ID meta) (pm_Spec meta) pid (pm_StartedAt meta) (alive pid) (sf_attached (de_files e)))
  end.

(** What [os.ReadDir] answers: no such directory, another error, or the
    entries. *)
Inductive readdir := DirMissing | DirError | DirEntries (es : list dir_entry).

Definition info_le (a b : PersistentSessionInfo) : Prop := String.le (pi_ID a) (pi_ID b).
#[global] Instance info_le_dec : RelDecision info_le.
Proof. intros a b. unfold info_le. apply _. Defined.

Definition ListPersistent (alive : Z → bool) (r : readdir) : option (list PersistentSessionInfo) :=
  match r with
  | DirMissing => Some []
  | DirError => None
  | DirEntries es => Some (merge_sort info_le (omap (session_info alive) es))
  end.

Section Api.
Context `{!Codec HelloPayload, !Codec StartChildPayload, !Codec StopChildPayload,
          !Codec CapabilityReply, !Codec ChildStartedPayload, !Codec ChildExitedPayload,
          !Codec ChildErrorPayload, !Codec LogChunkPayload, !Codec Message.PTYData,
          !Codec PTYRingDumpPayload, !Codec AckPayload, !Codec PTYWrite, !Codec PTYResize, !Codec PTYSignal}.
Context (o : logSettings) (d : dir).

(** [Stop], no [Start] of the handle holding its lock (it would wait for it);
    an error of the send or of the wait is [ae_wait]. *)
Definition Manager_Stop (e : api_env) (m : Manager) (id : string) : Manager * option string :=
  match m_handles m !! id with
  | None => (m, mgr_err_text ErrProcessNotFound)
  | Some h =>
      match Handle_Stop (ae_sched e) h with
      | (_, Err err, _) => (m, mgr_err_text err)
      | (h', Ok r, _) =>
          (upd_handles m (<[id := h']> (m_handles m)),
           match r with
           | StopDone None => if spec_Persistent (ph_spec h) then ae_wait e else None
           | _ => ae_wait e
           end)
      end
  end.

#[export] Instance hub_api : ManagerAPI hub api_env := {|
  api_List e m := Manager_List e (hub_mgr m);
  api_StatusOf m id := match StatusOf (hub_mgr m) id with Ok en => Ok en | Err err => Err (default "" (mgr_err_text err)) end;
  api_Stop e m id := let '(mg, err) := Manager_Stop e (hub_mgr m) id in (mkHub mg (hub_logs m), err);
  api_LogsSnapshot m id st := let '(l, bs) := logsSnapshotImpl o d id st (hub_logs m) in (set_logs m l, bs);
  api_LogsSnapshotFiltered m id st since lines :=
    let '(l, bs) := logsSnapshotFilteredImpl o d id st since lines (hub_logs m) in (set_logs m l, default [] bs);
  api_WatchLogs m id := let '(l, a) := WatchLogs id (hub_logs m) in (set_logs m l, a);
  api_watch_recv m a :=
    match ml_store (hub_logs m) !! a with
    | Some (mkWatcher f (c :: q) cl) => (set_logs m (set_watcher (hub_logs m) a (mkWatcher f q cl)), ChanGot c)
    | Some (mkWatcher _ [] true) => (m, ChanClosed)
    | _ => (m, ChanEmpty)
    end;
  api_unregister m a := set_logs m (unregister a (hub_logs m));
  api_Subscribe m f := let '(b, a) := Subscribe (hub_bus m) f in (set_bus m b, a);
  api_sub_recv m a :=
    match recv (hub_bus m) a with
    | (b, Some ev) => (set_bus m b, ChanGot ev)
    | (b, None) => (m, match b_store b !! a with Some s => if sb_chClosed s then ChanClosed else ChanEmpty
                                                 | None => ChanEmpty end)
    end;
  api_sub_close m a := set_bus m (disconnect (hub_bus m) a)
|}.
End Api.

(** ** The registry as clients see it *)

Lemma range_keys_perm order hs : range_keys order hs ≡ₚ (map_to_list hs).*1.
Proof. unfold range_keys. by case_decide. Qed.

(** Lookups along a list of keys. *)
Lemma omap_lookup_keys (hs : gmap string processHandle) l :
  Forall (λ x, hs !! x.1 = Some x.2) l → omap (λ id, hs !! id) l.*1 = l.*2.
Proof. induction 1 as [|[id h] l Hx _ IH]; [done|]. simpl in *. rewrite Hx. by f_equal. Qed.

Lemma list_entries_perm e m :
  Manager_List e m ≡ₚ toListEntry <$> (map_to_list (m_handles m)).*2.
Proof.
  unfold Manager_List. apply fmap_Permutation.
  rewrite <- (omap_lookup_keys (m_handles m) (map_to_list (m_handles m))).
  - apply omap_Permutation, range_keys_perm.
  - apply Forall_forall. intros [id h] Hx. by apply elem_of_map_to_list in Hx.
Qed.

(** What clients see of the registry.  The list request returns, in
    whatever order the map is iterated, exactly one row per registered
    process, and the status request for an id finds that process's row or
    reports that it is not registered. *)
Theorem list_and_status_show_registry (e : api_env) (m : Manager) :
  Manager_List e m ≡ₚ toListEntry <$> (map_to_list (m_handles m)).*2 ∧
  length (Manager_List e m) = size (m_handles m) ∧
  (∀ id en, StatusOf m id = Ok en ↔ ∃ h, m_handles m !! id = Some h ∧ en = toListEntry h) ∧
  (∀ id en, StatusOf m id = Ok en → en ∈ Manager_List e m) ∧
  (∀ id, StatusOf m id = Err ErrProcessNotFound ↔ id ∉ dom (m_handles m)).
Proof.
  assert (∀ id en, StatusOf m id = Ok en ↔ ∃ h, m_handles m !! id = Some h ∧ en = toListEntry h) as Hst.
  { intros id en. unfold StatusOf. destruct (m_handles m !! id) as [h|]; naive_solver. }
  split_and!; [apply list_entries_perm| |done| |].
  - rewrite list_entries_perm, !length_fmap. by rewrite length_map_to_list.
  - intros id en (h & Hh & ->)%Hst. rewrite list_entries_perm. apply list_elem_of_fmap. exists h. split; [done|].
    apply list_elem_of_fmap. exists (id, h). split; [done|]. by apply elem_of_map_to_list.
  - intros id. rewrite not_elem_of_dom. unfold StatusOf. by destruct (m_handles m !! id).
Qed.

#[global] Instance info_le_total : Total info_le.
Proof. intros a b. unfold info_le. apply (total String.le). Qed.
#[global] Instance info_le_trans : Transitive info_le.
Proof. intros a b c. unfold info_le. apply (transitivity (R := String.le)). Qed.

(** The listing of persistent sessions.  A missing directory gives no
    sessions and another error is passed on; otherwise every directory with
    readable metadata appears exactly once, in the order of the ids, with the
    process id of its pid file (or of its metadata), whether that process is
    alive and whether a host is attached, and nothing else appears. *)
Theorem list_persistent_correct (alive : Z → bool) (r : readdir) :
  match r with
  | DirMissing => ListPersistent alive r = Some []
  | DirError => ListPersistent alive r = None
  | DirEntries es => ∃ out, ListPersistent alive r = Some out ∧ StronglySorted info_le out ∧
      out ≡ₚ omap (session_info alive) es ∧
      ∀ i, i ∈ out ↔ ∃ e meta, e ∈ es ∧ de_isDir e = true ∧ sf_meta (de_files e) = Some meta ∧
        let pid := default (pm_AgentPID meta) (sf_pid (de_files e)) in
        i = mkInfo (pm_ID meta) (pm_Spec meta) pid (pm_StartedAt meta) (alive pid) (sf_attached (de_files e))
  end.
Proof.
  destruct r as [| |es]; [done..|]. eexists. split; [done|].
  split; [apply StronglySorted_merge_sort; apply _|].
  pose proof (merge_sort_Permutation info_le (omap (session_info alive) es)) as Hp. split; [done|].
  intros i. rewrite Hp, list_elem_of_omap. split.
  - intros (e & He & Hi). unfold session_info in Hi. destruct (de_isDir e) eqn:Ed; [|done]. simpl in Hi.
    destruct (sf_meta (de_files e)) as [meta|] eqn:Em; [|done]. simplify_eq. eauto 10.
  - intros (e & meta & He & Hd & Hm & ->). exists e. split; [done|]. unfold session_info. by rewrite Hd, Hm.
Qed.

(** ** Event streams *)

Section Streams.
Context `{!Codec HelloPayload, !Codec StartChildPayload, !Codec StopChildPayload,
          !Codec CapabilityReply, !Codec ChildStartedPayload, !Codec ChildExitedPayload,
          !Codec ChildErrorPayload, !Codec LogChunkPayload, !Codec Message.PTYData,
          !Codec PTYRingDumpPayload, !Codec AckPayload, !Codec PTYWrite, !Codec PTYResize, !Codec PTYSignal}.
Context `{!Codec ListResponsePayload, !Codec StatusRequestPayload, !Codec StatusResponsePayload,
          !Codec StopRequestPayload, !Codec LogsRequestPayload, !Codec LogsStreamPayload,
          !Codec EventsSubscribePayload, !Codec EventsStreamPayload}.
Context (o : logSettings) (d : dir).

(** What moves while a handler streams: the bus, and the handler itself. *)
Inductive stream_op := StBus (op : bus_op) | StConn (e : api_env).

Definition stream_step (st : hub * server_conn) (op : stream_op) : (hub * server_conn) * list bus_event :=
  match op with
  | StBus op => let '(b, evs) := bus_step (hub_bus st.1) op in ((set_bus st.1 b, st.2), evs)
  | StConn e =>
      (conn_step (ManagerAPI0 := hub_api o d) e st.1 st.2,
       match sc_mode st.2 with
       | StreamEvents sub => (bus_step (hub_bus st.1) (BRecv sub)).2
       | _ => []
       end)
  end.

Context (okE : EventsStreamPayload → Prop) `{!CodecLaws EventsStreamPayload okE}.

(** What the others do: they publish events that fit a frame and do not
    receive from the handler's subscription. *)
Definition others_ok (sub : nat) (op : stream_op) : Prop :=
  match op with
  | StBus (BPublish _ ev) => fits okE (events_payload ev)
  | StBus (BRecv a) => a ≠ sub
  | _ => True
  end.

Lemma hub_bus_set m b : hub_bus (set_bus m b) = b.
Proof. done. Qed.

(** The frames on the wire carry the events received. *)
Definition carried (out : bytes) (evs : list Event) : Prop :=
  ∃ datas, out = stream_bytes (frame_of MsgEventsStream 0 <$> datas) ∧
    decode_ok <$> datas = (λ ev, Some (events_payload ev)) <$> evs ∧
    Forall (λ data, msg_ok (frame_of MsgEventsStream 0 data)) datas.

Record stream_inv (sub n : nat) (f : Filter) (st : hub * server_conn) (evs : list bus_event) : Prop := mkStreamInv {
  st_bus : bus_inv (λ a, (n ≤ a)%nat) (hub_bus st.1) evs;
  st_sub : ∃ s, b_store (hub_bus st.1) !! sub = Some s ∧ sb_filter s = f;
  st_mode : sc_mode st.2 = StreamEvents sub ∨ sc_mode st.2 = ConnDone;
  st_fit : Forall (λ ev, fits okE (events_payload ev)) (omap published evs);
  st_out : ∃ out, sc_writer st.2 = mkWriter out None ∧ carried out (omap (bus_received sub) evs) }.

Lemma disconnect_filter b a c s :
  b_store b !! a = Some s → ∃ s', b_store (disconnect b c) !! a = Some s' ∧ sb_filter s' = sb_filter s.
Proof.
  intros Hs. unfold disconnect. case_decide; [|eauto]. simpl. destruct (decide (a = c)) as [->|].
  - rewrite list_lookup_alter_eq, Hs. simpl. eauto.
  - rewrite list_lookup_alter_ne by done. eauto.
Qed.

(** Filters never change. *)
Lemma bus_step_filter b op a s :
  bus_wf b → b_store b !! a = Some s →
  ∃ s', b_store (bus_step b op).1 !! a = Some s' ∧ sb_filter s' = sb_filter s.
Proof.
  intros Hwf Hs. destruct op as [f|c|order ev|c|]; simpl.
  - exists s. split; [|done]. by apply lookup_app_l_Some.
  - by apply disconnect_filter.
  - case_decide as Hen; [|eauto]. unfold Publish. destruct (b_closed b); [eauto|]. destruct Hen as [Hnd Hen].
    destruct (publish_fold ev order b Hwf Hnd) as (_ & _ & _ & _ & _ & F6).
    { intros x Hx. rewrite <- Hen. by apply elem_of_list_to_set. }
    simpl. rewrite F6, Hs. simpl. eexists. split; [done|]. unfold sub_after. by repeat case_match.
  - destruct (recv b c) as [b' r] eqn:E. unfold recv in E. repeat case_match; simplify_eq/=; eauto.
    destruct (decide (a = c)) as [->|]; [|rewrite list_lookup_insert_ne by done; eauto].
    rewrite list_lookup_insert_eq by (by eapply lookup_lt_Some). simplify_eq. eauto.
  - unfold EventBus.Close. destruct (b_closed b); [eauto|]. simpl. rewrite list_lookup_imap, Hs. simpl.
    eexists. split; [done|]. by case_decide.
Qed.

Lemma carried_snoc out evs ev data :
  carried out evs → okE (events_payload ev) → Marshal (events_payload ev) = Ok data →
  Z.of_nat (length data) ≤ MaxPayloadSize →
  carried (out ++ frame_bytes (frame_of MsgEventsStream 0 data)) (evs ++ [ev]).
Proof.
  intros (ds & -> & Hd & Hm) Hok Hmar Hlen. exists (ds ++ [data]). split_and!.
  - unfold stream_bytes. rewrite !fmap_app, concat_app. simpl. by rewrite app_nil_r.
  - rewrite !fmap_app, Hd. simpl. by rewrite (decode_ok_marshal okE (events_payload ev) data Hok Hmar).
  - apply Forall_app. split; [done|]. constructor; [|done]. by apply frame_of_ok.
Qed.

Lemma stream_bus_inv sub n f st evs op :
  (n ≤ sub)%nat → stream_inv sub n f st evs → others_ok sub (StBus op) →
  stream_inv sub n f (stream_step st (StBus op)).1 (evs ++ (stream_step st (StBus op)).2).
Proof.
  intros Hn [Hb (s & Hs & Hf) Hmode Hfit (out & Hw & Hc)] Hop. simpl.
  pose proof (bus_inv_step _ _ _ op Hb) as Hb'. destruct (bus_step_filter _ op _ _ (bi_wf _ _ _ Hb) Hs) as (s' & Hs' & Hf').
  assert (omap (bus_received sub) (bus_step (hub_bus st.1) op).2 = []) as Hr.
  { destruct op as [|?|? ev|c|]; simpl in *; try done; [by case_decide|].
    destruct (recv _ c) as [? [e|]]; simpl; [|done]. by rewrite decide_False. }
  assert (Forall (λ ev, fits okE (events_payload ev)) (omap published (bus_step (hub_bus st.1) op).2)) as Hp.
  { destruct op as [|?|? ev|c|]; simpl in *; try done; [case_decide; repeat constructor; apply Hop|].
    by destruct (recv _ c) as [? [e|]]. }
  destruct (bus_step (hub_bus st.1) op) as [b' new]. simpl in *. split; simpl.
  - done.
  - exists s'. by rewrite Hf', Hf.
  - done.
  - rewrite omap_app. by apply Forall_app.
  - exists out. rewrite omap_app, Hr, app_nil_r. done.
Qed.

Lemma stream_conn_inv sub n f st evs e :
  (n ≤ sub)%nat → stream_inv sub n f st evs →
  stream_inv sub n f (stream_step st (StConn e)).1 (evs ++ (stream_step st (StConn e)).2).
Proof.
  intros Hn Hinv. pose proof Hinv as [Hb (s & Hs & Hf) Hmode Hfit (out & Hw & Hc)]. destruct st as [m c]. simpl in *.
  unfold conn_step, follow_turn, events_turn. destruct Hmode as [Hm|Hm]; rewrite Hm; simpl; [|by rewrite app_nil_r].
  pose proof (bus_inv_step _ _ _ (BRecv sub) Hb) as Hb'.
  destruct (bus_step_filter _ (BRecv sub) _ _ (bi_wf _ _ _ Hb) Hs) as (s' & Hs' & Hf').
  simpl in Hb', Hs' |- *. unfold recv in Hb', Hs' |- *. rewrite Hs in *. destruct s as [f0 [|ev q] nd cl]; simpl in *.
  - rewrite app_nil_r in *. rewrite Hs. simpl. destruct cl; [|done]. destruct (disconnect_filter _ _ sub _ Hs) as (s2 & Hs2 & Hf2).
    pose proof (disconnect_inv _ _ _ sub Hb) as Hd. rewrite app_nil_r in Hd.
    split; simpl; try done; [|by right|by exists out]. exists s2. simpl in Hf2. by rewrite Hf2.
  - assert (ev ∈ omap published evs) as Hpub.
    { pose proof (bi_order _ _ _ Hb sub _ Hn Hs) as Ho. eapply sublist_subseteq in Ho.
      assert (ev ∈ matching f0 evs) as Hin by (apply Ho; set_solver). by apply list_elem_of_filter in Hin as [_ ?]. }
    rewrite Forall_forall in Hfit. destruct (fits_marshal okE _ (Hfit ev Hpub)) as (data & Hok & Hmar & Hlen).
    unfold EncodePayload in *. rewrite Hmar, Hw, write_data_ok by done. simpl.
    assert (carried (out ++ frame_bytes (frame_of MsgEventsStream 0 data)) (omap (bus_received sub) (evs ++ [BReceived sub ev]))) as Hc'.
    { rewrite omap_app. simpl. rewrite decide_True by done. by apply carried_snoc. }
    split; simpl; try done.
    + eexists. rewrite list_lookup_insert_eq by (by eapply lookup_lt_Some). done.
    + by left.
    + rewrite omap_app. simpl. rewrite app_nil_r. by apply Forall_forall.
    + eauto.
Qed.

(** Event streams end to end.  A client subscribes on a manager with any
    history.  Whatever is published, subscribed, unsubscribed, received by
    others and closed while its handler runs, the bytes the handler has
    written are a sequence of well-formed event frames, which decode, in order
    and each once, to events that were published after the subscription and
    that both its filters match. *)
Theorem event_stream_delivers (pre : list bus_op) (m : hub) (c : server_conn) (req : EventsSubscribePayload) (body : bytes)
    (ops : list stream_op)
    (Hbus : hub_bus m = (run_trace bus_step (New 256) pre).1)
    (Hreq : decode_ignore body = req) (Hw : sc_writer c = mkWriter [] None)
    (Hops : Forall (others_ok (length (b_store (hub_bus m)))) ops) :
  let f := mkFilter (es_Types req) (es_ProcessIDs req) in
  let '(m1, mode) := events_begin (ManagerAPI0 := hub_api o d) m body in
  let '(st, evs) := run_trace stream_step (m1, mkSC (sc_reader c) (sc_writer c) mode) ops in
  ∃ got, got `sublist_of` matching f evs ∧ carried (w_out (sc_writer st.2)) got.
Proof.
  set (n := length (b_store (hub_bus m))) in *. intros f.
  assert (bus_inv (λ a, (n ≤ a)%nat) (hub_bus m) []) as H0.
  { pose proof (run_trace_inv bus_step (bus_inv (λ _, True)) (λ _, True) (λ b evs op H _, bus_inv_step _ b evs op H)
      pre (New 256) []) as Hrun. rewrite Hbus. destruct (run_trace _ _ pre) as [b evs0]. simpl in *.
    destruct Hrun as [H1 H2 _ _]; [|by apply Forall_true|].
    { split; try done. intros a. simpl. split; [set_solver|]. by intros (s & ? & _). }
    split; try done. intros a s Ha Hs%lookup_lt_Some. unfold n in Ha. rewrite Hbus in Ha. lia. }
  unfold events_begin. simpl. unfold Subscribe. simpl. rewrite Hreq. fold f.
  pose proof (subscribe_bus_inv _ _ _ f H0) as H1. simpl in H1.
  pose proof (run_trace_inv stream_step (stream_inv n n f) (others_ok n)) as Hrun.
  specialize (Hrun (λ st evs op Hi Ho, match op as op return others_ok n op → _ with
    | StBus b => stream_bus_inv n n f st evs b (Nat.le_refl n) Hi
    | StConn e => λ _, stream_conn_inv n n f st evs e (Nat.le_refl n) Hi end Ho) ops).
  specialize (Hrun (set_bus m (Subscribe (hub_bus m) f).1, mkSC (sc_reader c) (sc_writer c) (StreamEvents n)) []).
  change (set_bus m _) with (set_bus m (Subscribe (hub_bus m) f).1).
  destruct (run_trace stream_step _ ops) as [st evs]. destruct Hrun as [Hb (s & Hs & Hf) _ _ (out & Ho & Hc)]; [|done|].
  - split; simpl; try done.
    + exists (mkSub f [] 0 (b_closed (hub_bus m))). split; [|done].
      by rewrite lookup_app_r, Nat.sub_diag.
    + by left.
    + exists []. split; [done|]. by exists [].
  - simpl in *. exists (omap (bus_received n) evs). rewrite Ho. split; [|done].
    pose proof (bi_order _ _ _ Hb n s (Nat.le_refl n) Hs) as Hsub. rewrite Hf in Hsub.
    etrans; [|exact Hsub]. by apply sublist_inserts_r.
Qed.
End Streams.

(** ** Following logs *)

Section Follow.
Context `{!Codec HelloPayload, !Codec StartChildPayload, !Codec StopChildPayload,
          !Codec CapabilityReply, !Codec ChildStartedPayload, !Codec ChildExitedPayload,
          !Codec ChildErrorPayload, !Codec LogChunkPayload, !Codec Message.PTYData,
          !Codec PTYRingDumpPayload, !Codec AckPayload, !Codec PTYWrite, !Codec PTYResize, !Codec PTYSignal}.
Context `{!Codec ListResponsePayload, !Codec StatusRequestPayload, !Codec StatusResponsePayload,
          !Codec StopRequestPayload, !Codec LogsRequestPayload, !Codec LogsStreamPayload,
          !Codec EventsSubscribePayload, !Codec EventsStreamPayload}.
Context (o : logSettings) (d : dir).

(** What moves while a handler follows: the log pipeline and the handler. *)
Inductive follow_op := FoLogs (op : log_op) | FoConn (e : api_env).

Definition follow_step (st : hub * server_conn) (op : follow_op) : (hub * server_conn) * list log_event :=
  match op with
  | FoLogs op => let '(l, evs) := log_step o d (hub_logs st.1) op in ((set_logs st.1 l, st.2), evs)
  | FoConn e =>
      if ml_panic (hub_logs st.1) then (st, [])
      else (conn_step (ManagerAPI0 := hub_api o d) e st.1 st.2,
            match sc_mode st.2 with
            | FollowBegin req => [LWatched (WatchLogs (lq_ID req) (hub_logs st.1)).2 (lq_ID req)]
            | FollowLogs _ ch => (watch_recv ch (hub_logs st.1)).2
            | _ => []
            end)
  end.

Context (okLS : LogsStreamPayload → Prop) `{!CodecLaws LogsStreamPayload okLS}.

Definition chunk_payload (req : LogsRequestPayload) (c : LogChunk) : LogsStreamPayload :=
  mkLogsStream (lq_ID req) (chunk_Stream c) (chunk_Data c) false.

(** Only the handler receives from its channel. *)
Definition others_leave (ch : nat) (op : follow_op) : Prop :=
  match op with FoLogs (OpRecv a) => a ≠ ch | _ => True end.

(** The frames on the wire after [out0] carry the requested stream's part of
    the chunks received. *)
Definition followed (req : LogsRequestPayload) (out0 out : bytes) (cs : list LogChunk) : Prop :=
  ∃ datas, out = out0 ++ stream_bytes (frame_of MsgLogsStream 0 <$> datas) ∧
    decode_ok <$> datas = (λ c, Some (chunk_payload req c)) <$> filter (λ c, chunk_Stream c = lq_Stream req) cs ∧
    Forall (λ data, msg_ok (frame_of MsgLogsStream 0 data)) datas.

(** Chunks of the requested stream that fit a frame. *)
Definition followable (req : LogsRequestPayload) (c : LogChunk) : Prop :=
  chunk_Stream c = lq_Stream req → fits okLS (chunk_payload req c).
Definition chunk_followable (req : LogsRequestPayload) (op : follow_op) : Prop :=
  match op with FoLogs op => op_chunk (followable req) op | FoConn _ => True end.

Record follow_inv (ch : nat) (req : LogsRequestPayload) (out0 : bytes) (st : hub * server_conn) (evs : list log_event)
    : Prop := mkFollowInv {
  fo_logs : logs_inv (hub_logs st.1) evs;
  fo_chunks : chunks_ok (followable req) (hub_logs st.1);
  fo_chan : ∃ w, ml_store (hub_logs st.1) !! ch = Some w ∧ lw_processID w = lq_ID req;
  fo_mode : sc_mode st.2 = FollowLogs req ch ∨ sc_mode st.2 = ConnDone;
  fo_out : ∃ out, sc_writer st.2 = mkWriter out None ∧ followed req out0 out (omap (received_by ch) evs) }.

Lemma followed_snoc req out0 out cs c data :
  followed req out0 out cs → chunk_Stream c = lq_Stream req → okLS (chunk_payload req c) →
  Marshal (chunk_payload req c) = Ok data → Z.of_nat (length data) ≤ MaxPayloadSize →
  followed req out0 (out ++ frame_bytes (frame_of MsgLogsStream 0 data)) (cs ++ [c]).
Proof.
  intros (ds & -> & Hd & Hm) Hst Hok Hmar Hlen. exists (ds ++ [data]). split_and!.
  - unfold stream_bytes. rewrite !fmap_app, concat_app, app_assoc. simpl. by rewrite app_nil_r.
  - rewrite filter_app, !fmap_app, Hd, filter_cons, decide_True by done. simpl.
    by rewrite (decode_ok_marshal okLS (chunk_payload req c) data Hok Hmar).
  - apply Forall_app. split; [done|]. constructor; [|done]. by apply frame_of_ok.
Qed.

(** A watcher's filter never changes. *)
Lemma log_step_filter s op a w :
  ml_store s !! a = Some w →
  ∃ w', ml_store (log_step o d s op).1 !! a = Some w' ∧ lw_processID w' = lw_processID w.
Proof.
  intros Hw. unfold log_step. destruct (ml_panic s); [eauto|]. destruct op as [now p st data|p|p|p|b| |b]; simpl.
  - unfold emit_write, ensureCollector. repeat case_match; simplify_eq/=; eauto.
  - unfold emit_snapshot. repeat case_match; simplify_eq/=; eauto.
  - unfold emit_send. repeat case_match; simplify_eq/=; eauto;
      (destruct (decide (n = a)) as [->|]; [rewrite list_lookup_insert_eq by (by eapply lookup_lt_Some)|
       rewrite list_lookup_insert_ne by done]; simplify_eq; eauto).
  - exists w. split; [|done]. by apply lookup_app_l_Some.
  - unfold unregister. destruct (list_find _ _) as [[]|]; simpl; [|eauto]. destruct (decide (b = a)) as [->|].
    + rewrite list_lookup_alter_eq, Hw. simpl. eauto.
    + rewrite list_lookup_alter_ne by done. eauto.
  - rewrite close_all_lookup, Hw. case_decide; simpl; eauto.
  - unfold watch_recv. repeat case_match; simplify_eq/=; eauto;
      (destruct (decide (b = a)) as [->|]; [rewrite list_lookup_insert_eq by (by eapply lookup_lt_Some)|
       rewrite list_lookup_insert_ne by done]; simplify_eq; eauto).
Qed.

Lemma follow_logs_inv ch req out0 st evs op :
  follow_inv ch req out0 st evs → others_leave ch (FoLogs op) → chunk_followable req (FoLogs op) →
  follow_inv ch req out0 (follow_step st (FoLogs op)).1 (evs ++ (follow_step st (FoLogs op)).2).
Proof.
  intros [Hl Hc (w & Hw & Hf) Hm (out & Ho & Hfo)] Hop Hcf. simpl.
  pose proof (log_step_inv o d _ _ op Hl) as Hl'. pose proof (log_step_chunks o d _ _ op Hc Hcf) as Hc'.
  destruct (log_step_filter (hub_logs st.1) op ch w Hw) as (w' & Hw' & Hf').
  assert (omap (received_by ch) (log_step o d (hub_logs st.1) op).2 = []) as Hr.
  { unfold log_step. destruct (ml_panic _); [done|]. destruct op as [| | | | | |a]; simpl in *; try done.
    - unfold emit_snapshot. by repeat case_match.
    - unfold emit_send. by repeat case_match.
    - unfold watch_recv. repeat case_match; try done. simpl. by rewrite decide_False by congruence. }
  destruct (log_step o d (hub_logs st.1) op) as [l' new]. simpl in *. split; simpl; try done.
  - exists w'. by rewrite Hf', Hf.
  - exists out. rewrite omap_app, Hr, app_nil_r. done.
Qed.

Lemma follow_conn_inv ch req out0 st evs e :
  follow_inv ch req out0 st evs →
  follow_inv ch req out0 (follow_step st (FoConn e)).1 (evs ++ (follow_step st (FoConn e)).2).
Proof.
  intros Hinv. pose proof Hinv as [Hl Hc (w & Hw & Hf) Hm (out & Ho & Hfo)]. destruct st as [m c]. simpl in *.
  destruct (ml_panic (hub_logs m)) eqn:Ep; [by rewrite app_nil_r|].
  unfold conn_step, follow_turn, events_turn. destruct Hm as [Hm|Hm]; rewrite Hm; simpl; [|by rewrite app_nil_r].
  pose proof (log_step_inv o d _ _ (OpRecv ch) Hl) as Hl'.
  pose proof (log_step_chunks o d _ _ (OpRecv ch) Hc I) as Hc'.
  unfold log_step in Hl', Hc'. rewrite Ep in Hl', Hc'. unfold watch_recv in *. rewrite Hw in *.
  destruct w as [f [|ck q] cl]; simpl in *; [rewrite app_nil_r|]; simpl.
  - destruct cl; simpl; [|done]. pose proof (log_step_chunks o d _ _ (OpUnregister ch) Hc I) as Hu.
    destruct (log_step_filter (hub_logs m) (OpUnregister ch) ch _ Hw) as (w' & Hw' & Hf').
    unfold log_step in Hu, Hw'. rewrite Ep in Hu, Hw'.
    split; simpl; try done; [by apply unregister_inv| |by right|by exists out]. exists w'. simpl in Hf'. by rewrite Hf'.
  - assert (∃ w', ml_store (set_watcher (hub_logs m) ch (mkWatcher f q cl)) !! ch = Some w' ∧ lw_processID w' = lq_ID req) as Hw'.
    { exists (mkWatcher f q cl). simpl. by rewrite list_lookup_insert_eq by (by eapply lookup_lt_Some). }
    assert (omap (received_by ch) (evs ++ [LReceived ch ck]) = omap (received_by ch) evs ++ [ck]) as Hr.
    { rewrite omap_app. simpl. by rewrite decide_True. }
    assert (followable req ck) as Hfk.
    { destruct Hc as [_ Hc]. rewrite Forall_lookup in Hc. specialize (Hc _ _ Hw). simpl in Hc. by inversion Hc. }
    destruct (Z.eqb_spec (chunk_Stream ck) (lq_Stream req)) as [Hst|Hst]; simpl.
    + destruct (fits_marshal okLS _ (Hfk Hst)) as (data & Hok & Hmar & Hlen).
      unfold writeLogsStreamFrame. change (mkLogsStream _ _ _ _) with (chunk_payload req ck).
      rewrite Hmar, Ho, write_data_ok by done. simpl.
      split; simpl; try done; [by left|]. rewrite Hr. eexists. split; [done|]. by apply followed_snoc.
    + split; simpl; try done; [by left|]. exists out. split; [done|]. rewrite Hr.
      destruct Hfo as (ds & H1 & H2 & H3). exists ds. split_and!; try done.
      rewrite filter_app, filter_cons, decide_False by done. simpl. by rewrite app_nil_r.
Qed.

(** Log following end to end.  A handler that has sent its snapshot and
    registers its watcher, on a pipeline with any history, writes from then on
    only well-formed log frames, which decode, in order and each once, to the
    requested stream's part of what it received.  As long as it is registered
    and fewer than 256 chunks have come, what it received is everything of the
    process emitted since the registration, but for what is queued or held by
    a running emission. *)
Theorem follow_stream_delivers (pre : list log_op) (m : hub) (c : server_conn) (req : LogsRequestPayload) (out0 : bytes)
    (e : api_env) (ops : list follow_op)
    (Hlogs : hub_logs m = (run_trace (log_step o d) zero_logs pre).1) (Hpanic : ml_panic (hub_logs m) = false)
    (Hmode : sc_mode c = FollowBegin req) (Hw : sc_writer c = mkWriter out0 None) (Hid : lq_ID req ≠ "")
    (Hpre : Forall (op_chunk (followable req)) pre) (Hfit : Forall (chunk_followable req) ops)
    (Hops : Forall (others_leave (length (ml_store (hub_logs m)))) ops) :
  let ch := length (ml_store (hub_logs m)) in
  let '(st, evs) := run_trace follow_step (m, c) (FoConn e :: ops) in
  ∃ got out, sc_writer st.2 = mkWriter out None ∧ followed req out0 out got ∧
    ∀ w, ch ∈ ml_watchers (hub_logs st.1) → ml_store (hub_logs st.1) !! ch = Some w →
      (length (got ++ lw_ch w) < watchBuffer)%nat →
      omap (emitted_by (lq_ID req)) evs = got ++ lw_ch w ++ in_flight (hub_logs st.1) ch (lq_ID req).
Proof.
  intros ch. pose proof (log_run_inv o d pre) as H0.
  assert (chunks_ok (followable req) (hub_logs m)) as Hc0.
  { rewrite Hlogs. clear Hlogs H0. apply (run_trace_state_inv (log_step o d) (chunks_ok (followable req)) (op_chunk (followable req)));
      [|split; [apply map_Forall_empty|constructor]|done].
    intros s op. apply log_step_chunks. }
  destruct (run_trace (log_step o d) zero_logs pre) as [l evs0]. simpl in Hlogs. subst l.
  set (evs1 := evs0 ++ [LWatched ch (lq_ID req)]).
  cbn [run_trace]. destruct (follow_step (m, c) (FoConn e)) as [st1 o1] eqn:E1.
  assert (o1 = [LWatched ch (lq_ID req)] ∧ follow_inv ch req out0 st1 evs1) as [-> H1].
  { unfold follow_step in E1. simpl in E1. rewrite Hpanic in E1. unfold conn_step, follow_turn, events_turn in E1. rewrite Hmode in E1. simpl in E1.
    injection E1 as <- <-. split; [done|]. pose proof (watch_inv (lq_ID req) _ _ H0) as Hwi. simpl in Hwi.
    pose proof (log_step_chunks o d _ _ (OpWatch (lq_ID req)) Hc0 I) as Hck. unfold log_step in Hck. rewrite Hpanic in Hck.
    split; simpl; try done.
    - eexists. by rewrite lookup_app_r, Nat.sub_diag by done.
    - by left.
    - exists out0. split; [done|]. unfold evs1. rewrite omap_app. simpl.
      rewrite (proj2 (li_new _ _ H0 ch ltac:(done))). exists []. split_and!; try done. by rewrite app_nil_r. }
  pose proof (run_trace_inv follow_step (follow_inv ch req out0) (λ op, others_leave ch op ∧ chunk_followable req op)
    (λ st evs op Hi Ho, match op as op return others_leave ch op ∧ chunk_followable req op → _ with
      | FoLogs b => λ Ho, follow_logs_inv ch req out0 st evs b Hi (proj1 Ho) (proj2 Ho)
      | FoConn e => λ _, follow_conn_inv ch req out0 st evs e Hi end Ho) ops st1 evs1 H1) as Hrun.
  specialize (Hrun ltac:(apply Forall_and; done)). destruct (run_trace follow_step st1 ops) as [st evs].
  destruct Hrun as [Hl _ (w0 & Hw0 & Hf0) _ (out & Ho & Hfo)].
  exists (omap (received_by ch) (evs1 ++ evs)), out. split; [done|]. split; [done|].
  intros w Hin Hw' Hlt. rewrite Hw0 in Hw'. injection Hw' as <-.
  destruct (follow_spec _ _ _ _ Hl Hin Hw0) as (since & Hsince & Hall & Hp).
  unfold evs1 in Hsince. rewrite <- app_assoc, since_watch_app, (proj2 (li_fresh _ _ H0 ch "" ltac:(done))) in Hsince.
  simpl in Hsince. rewrite decide_True in Hsince by done. injection Hsince as <-.
  destruct (Hp (lq_ID req)) as (_ & _ & _ & Hcomp).
  { rewrite Hf0. unfold watches. by rewrite String.eqb_refl, orb_true_r. }
  specialize (Hcomp Hlt). rewrite omap_app. cbn [omap list_omap emitted_by app].
  rewrite Hcomp, filter_all; [by rewrite app_assoc|].
  eapply Forall_impl; [exact Hall|]. intros x. simpl. rewrite Hf0. unfold watches.
  rewrite (proj2 (String.eqb_neq _ _)) by done. by intros ->%String.eqb_eq.
Qed.
End Follow.

(** ** Examples *)

Module MgmtExample.

(** Codecs that carry one value of each type. *)
Lemma const_codec_laws {A} `{!Zero A} (v : A) : CodecLaws A (Codec0 := const_codec v) (λ x, x = v).
Proof. split; [by eauto|]. by intros x bs ->. Qed.

#[local] Instance ex_codec {A} : Codec A | 10 := echo_codec.
#[local] Instance ex_status_req : Codec StatusRequestPayload := const_codec (mkStatusRequest "x").
#[local] Instance ex_stop_req : Codec StopRequestPayload := const_codec (mkStopRequest "x").
#[local] Instance ex_status : Codec StatusResponsePayload :=
  const_codec (mkStatusResponse zero "cliwrap: process not found").
#[local] Instance ex_list : Codec ListResponsePayload := const_codec (mkListResponse []).
#[local] Instance ex_logs_req : Codec LogsRequestPayload := const_codec (mkLogsRequest "p" 0 false 0 0).
#[local] Instance ex_logs : Codec LogsStreamPayload := const_codec (mkLogsStream "p" 0 [] true).
#[local] Instance ex_events : Codec EventsStreamPayload := const_codec (events_payload ex_event).

#[local] Instance ex_status_req_laws : CodecLaws StatusRequestPayload _ := const_codec_laws _.
#[local] Instance ex_stop_req_laws : CodecLaws StopRequestPayload _ := const_codec_laws _.
#[local] Instance ex_status_laws : CodecLaws StatusResponsePayload _ := const_codec_laws _.
#[local] Instance ex_list_laws : CodecLaws ListResponsePayload _ := const_codec_laws _.
#[local] Instance ex_logs_req_laws : CodecLaws LogsRequestPayload _ := const_codec_laws _.
#[local] Instance ex_logs_laws : CodecLaws LogsStreamPayload _ := const_codec_laws _.
#[local] Instance ex_events_laws : CodecLaws EventsStreamPayload _ := const_codec_laws _.

Definition ex_settings : logSettings := mkLogSettings 0 "" 0 0.
#[local] Instance ex_api : ManagerAPI hub api_env := hub_api ex_settings ∅.

Definition ex_hub : hub := mkHub ManagerExample.ex_mgr zero_logs.
Definition ex_env : api_env := mkApiEnv [] (mkSched false false) None.
Definition ex_session : session :=
  mkSession ex_hub (Dial (mkReader [] EOF) (mkWriter [] None)) (new_conn (mkReader [] EOF) (mkWriter [] None)).

Lemma ex_ready : ready ex_session.
Proof. by split. Qed.

(** What a const codec carries fits a frame. *)
Lemma const_fits {A} (v : A) : @fits A (const_codec v) (λ x, x = v) v.
Proof. split; [done|]. intros bs [= <-]. vm_compute. discriminate. Qed.

Lemma management_calls_refine_api_witness :
  let '(s', rs) := do_requests ex_session [(ex_env, ReqStatus "x"); (ex_env, ReqList); (ex_env, ReqStop "x")] in
  rs = [Some (RespOne (mkStatusResponse zero "cliwrap: process not found")); Some (RespEntries []);
        Some (RespOne (mkStatusResponse zero "cliwrap: process not found"))] ∧
  ready s' ∧ cl_seq (ss_client s') = 3.
Proof.
  pose proof (management_calls_refine_api _ _ _ _ _ _ ex_session
    [(ex_env, ReqStatus "x"); (ex_env, ReqList); (ex_env, ReqStop "x")] ex_ready) as H.
  specialize (H ltac:(repeat constructor; try exact I; intros bs [= <-]; vm_compute; discriminate)).
  specialize (H ltac:(repeat constructor; try exact I; intros bs [= <-]; vm_compute; discriminate)).
  destruct (do_requests _ _) as [s' rs]. cbn [api_specs] in H. destruct H as (H1 & _ & H2 & H3).
  split_and!; [exact H1|exact H2|exact H3].
Defined.

Lemma log_request_answered_iff_fits_witness :
  let '(s', r) := do_request ex_env ex_session (ReqLogs "p" 0 0 0) in
  r = Some (RespLog (mkLogsStream "p" 0 [] true)) ∧ sc_mode (ss_server s') = ServeRequests.
Proof.
  pose proof (log_request_answered_iff_fits _ _ _ _ _ (λ x, x = mkLogsStream "p" 0 [] true) ex_env ex_session "p" 0 0 0 (mkLogsStream "p" 0 [] true) []
    ex_ready eq_refl (const_fits _) eq_refl) as H.
  specialize (H ltac:(reflexivity) ltac:(reflexivity) ltac:(simpl; lia)).
  destruct (do_request _ _ _) as [s' r]. destruct H as [_ [(_ & Hr & Hm)|(Hl & _)]]; [done|].
  vm_compute in Hl. discriminate.
Defined.

(** A subscriber to everything; one event is published and streamed. *)
Definition ex_stream : list stream_op := [StBus (BPublish [0%nat] ex_event); StConn ex_env].
Definition ex_sc : server_conn := new_conn (mkReader [] EOF) (mkWriter [] None).

Lemma event_stream_delivers_witness :
  let '(m1, mode) := events_begin ex_hub [] in
  let '(st, evs) := run_trace (stream_step ex_settings ∅) (m1, mkSC (sc_reader ex_sc) (sc_writer ex_sc) mode) ex_stream in
  (∃ got, got `sublist_of` matching (mkFilter [] []) evs ∧ carried (w_out (sc_writer st.2)) got) ∧
  length (w_out (sc_writer st.2)) = 17%nat.
Proof.
  pose proof (event_stream_delivers ex_settings ∅ _ [] ex_hub ex_sc zero [] ex_stream eq_refl eq_refl eq_refl) as H.
  specialize (H ltac:(constructor; [apply const_fits|repeat constructor])).
  destruct (events_begin ex_hub []) as [m1 mode] eqn:E. cbn in E. injection E as <- <-.
  destruct (run_trace _ _ ex_stream) as [st evs] eqn:Er. split; [exact H|].
  vm_compute in Er. injection Er as <- <-. reflexivity.
Defined.

(** A follower of stream 0 of "p" whose writer has sent the snapshot. *)
Definition ex_follow_req : LogsRequestPayload := mkLogsRequest "p" 0 true 0 0.
Definition ex_follower : server_conn :=
  mkSC (NewFrameReader (mkReader [] EOF) MaxPayloadSize) (mkWriter [] None) (FollowBegin ex_follow_req).
Definition ex_follow : list follow_op :=
  [FoLogs (OpWrite 1 "p" 1 [x61]); FoLogs (OpSnapshot "p"); FoLogs (OpSend "p"); FoConn ex_env].

Lemma follow_stream_delivers_witness :
  let '(st, evs) := run_trace (follow_step ex_settings ∅) (ex_hub, ex_follower) (FoConn ex_env :: ex_follow) in
  (∃ got out, sc_writer st.2 = mkWriter out None ∧ followed ex_follow_req [] out got ∧
    ∀ w, 0%nat ∈ ml_watchers (hub_logs st.1) → ml_store (hub_logs st.1) !! 0%nat = Some w →
      (length (got ++ lw_ch w) < watchBuffer)%nat →
      omap (emitted_by "p") evs = got ++ lw_ch w ++ in_flight (hub_logs st.1) 0 "p") ∧
  0%nat ∈ ml_watchers (hub_logs st.1) ∧ omap (emitted_by "p") evs = [mkChunk "p" 1 [x61]].
Proof.
  pose proof (follow_stream_delivers ex_settings ∅ (λ x, x = mkLogsStream "p" 0 [] true) [] ex_hub ex_follower ex_follow_req []
    ex_env ex_follow eq_refl eq_refl eq_refl eq_refl ltac:(discriminate) ltac:(constructor)
    ltac:(repeat constructor; discriminate) ltac:(repeat constructor)) as H.
  cbn zeta in H. destruct (run_trace _ _ (FoConn ex_env :: ex_follow)) as [st evs] eqn:Er. split; [exact H|].
  vm_compute in Er. injection Er as <- <-. split; [apply list_elem_of_here|reflexivity].
Defined.

(** A chunk that arrives between a follower's snapshot and its registration is
    in neither: the handler answers a follow request, the chunk is emitted,
    the handler registers and goes on; the log now holds the chunk, but the
    only frame on the wire is the empty snapshot. *)
Lemma follow_misses_chunk_before_registration :
  let '(m1, w1, mode) := follow_begin ex_hub (mkWriter [] None) ex_follow_req in
  let '(st, evs) := run_trace (follow_step ex_settings ∅)
    (m1, mkSC (sc_reader ex_follower) w1 mode)
    [FoLogs (OpWrite 1 "p" 0 [x61]); FoLogs (OpSnapshot "p"); FoConn ex_env; FoConn ex_env] in
  sc_mode st.2 = FollowLogs ex_follow_req 0 ∧ omap (emitted_by "p") evs = [mkChunk "p" 0 [x61]] ∧
  sc_writer st.2 = w1 ∧ (logsSnapshotImpl ex_settings ∅ "p" 0 (hub_logs st.1)).2 = [x61].
Proof. vm_compute. done. Qed.
End MgmtExample.
