(* ===== verification/Cli.v ===== *)
(** * The command line tool: cmd/cliwrap

    The commands that talk to a running manager over the management socket
    (list, status, stop, logs, events), how they find the socket, and what
    [run] and [validate] do with a configuration.  A command is a function of
    its arguments and of the session it is connected to; it gives what it
    prints and its exit code.  Times of day are printed as nanoseconds. *)

From Stdlib Require Import Floats.SpecFloat.
From S2P Require Import Prelude Text Frame Outbox Conn Message CwTypes ManagerLogs EventBus Config Flags.
From S2P Require Import Controller Collectors Supervise Mgmt Manager MgmtApi.

(** ** Finding the manager: cmd_list.go, cmd_run.go *)

Definition sock_in (dir : string) : string := path_join [dir; "manager.sock"].

(** [env]: CLIWRAP_RUNTIME_DIR; [hint]: the content of the hint file, if the
    cache directory is known and the file can be read. *)
Definition managerSocketPath (override env : string) (hint : option string) (tempdir : string) : string :=
  if negb (String.eqb override "") then sock_in override
  else if negb (String.eqb env "") then sock_in env
  else match hint with
       | Some b => sock_in (of_chars (TrimSpace (chars b)))
       | None => path_join [tempdir; "cliwrap"; "manager.sock"]
       end.

(** What the hint file contains afterwards; [cache]: the cache directory is
    known and the write succeeds. *)
Definition writeRuntimeHint (cache : bool) (dir : string) (hint : option string) : option string :=
  if cache then Some dir else hint.

(** The socket [run] serves. *)
Definition run_socket (runtime_dir : string) : string := sock_in runtime_dir.

(** ** What a command prints *)

Inductive cli_io :=
| POut (line : string)                       (** a line on stdout *)
| PErr (line : string) (err : option client_err)  (** a line on stderr, with the error it ends in *)
| PRow (cells : list string)                 (** a row of a table on stdout *)
| PBytes (stream : Z) (data : bytes).        (** raw log bytes: stdout, or stderr for stream 1 *)

Definition runtime_flag : flag := mkFlag "runtime-dir" "runtimeDir" KString.

(** [strings.Split] and the trimming of [parseCSV]; the empty list is nil. *)
Definition parseCSV (s : string) : list string :=
  match TrimSpace (chars s) with
  | [] => []
  | l => of_chars <$> filter (λ p, p ≠ []) (TrimSpace <$> split_on ","%char l)
  end.

Definition parseStreamFlag (v : string) : option (list Z) :=
  if String.eqb v "stdout" then Some [0]
  else if String.eqb v "stderr" then Some [1]
  else if String.eqb v "all" || String.eqb v "" then Some [0; 1]
  else None.

(** [writeStreamBytes]; the write itself succeeds. *)
Definition writeStreamBytes (stream : Z) (data : bytes) : list cli_io := [PBytes (if stream =? 1 then 1 else 0) data].

(** The errors that end a stream cleanly. *)
Definition clean_end (e : client_err) : bool :=
  match e with
  | ClientFrame (ErrStream e) => bool_decide (e ∈ [EOF; ErrUnexpectedEOF; ErrClosedPipe])
  | _ => false
  end.

Section Commands.
Context {M E : Type} `{!ManagerAPI M E}.
Context `{!Codec ListResponsePayload, !Codec StatusRequestPayload, !Codec StatusResponsePayload,
          !Codec StopRequestPayload, !Codec LogsRequestPayload, !Codec LogsStreamPayload,
          !Codec EventsSubscribePayload, !Codec EventsStreamPayload}.

(** The result of a command: the session after it, if there was one. *)
Definition outcome : Type := option (session (M := M)) * list cli_io * Z.

(** ** stop: cmd_stop.go *)

(** One identifier; a payload that does not decode counts as the zero value. *)
Definition stop_one (e : E) (id : string) (s : session) : session * list cli_io * Z :=
  match Call e MsgStopRequest (Some (mkStopRequest id)) s with
  | (s', Err err) => (s', [PErr ("cliwrap stop " +:+ id) (Some err)], 1)
  | (s', Ok (_, body)) =>
      let resp : StatusResponsePayload := decode_ignore body in
      if String.eqb (sr_Err resp) "" then (s', [POut ("stopped " +:+ id)], 0)
      else (s', [PErr ("cliwrap stop " +:+ id +:+ ": " +:+ sr_Err resp) None], 1)
  end.
Fixpoint stop_ids (es : list E) (ids : list string) (s : session) (rc : Z) : session * list cli_io * Z :=
  match ids, es with
  | id :: ids', e :: es' =>
      let '(s1, io1, rc1) := stop_one e id s in
      let '(s2, io2, rc2) := stop_ids es' ids' s1 (if rc1 =? 0 then rc else 1) in (s2, io1 ++ io2, rc2)
  | _, _ => (s, [], rc)
  end.

(** [dial]: what Dial of the socket path gives. *)
Definition stopCommand (dial : string → option session) (sock : string → string) (es : list E) (args : list string) : outcome :=
  match parse_flags [runtime_flag] args with
  | Err _ => (None, [], 2)
  | Ok (_, []) => (None, [PErr "usage: cliwrap stop <id> [<id>...]" None], 2)
  | Ok (set, ids) =>
      match dial (sock (get_string set "runtimeDir" "")) with
      | None => (None, [PErr "cliwrap stop" None], 1)
      | Some s => let '(s', io, rc) := stop_ids es ids s 0 in (Some s', io, rc)
      end
  end.

(** ** status: cmd_status.go *)

Definition statusCommand (dial : string → option session) (sock : string → string) (e : E) (args : list string) : outcome :=
  match parse_flags [runtime_flag] args with
  | Err _ => (None, [], 2)
  | Ok (_, []) => (None, [PErr "usage: cliwrap status <id>" None], 2)
  | Ok (set, id :: _) =>
      match dial (sock (get_string set "runtimeDir" "")) with
      | None => (None, [PErr "cliwrap status" None], 1)
      | Some s =>
          match Call e MsgStatusRequest (Some (mkStatusRequest id)) s with
          | (s', Err err) => (Some s', [PErr "cliwrap status" (Some err)], 1)
          | (s', Ok (_, body)) =>
              match decode_ok (A := StatusResponsePayload) body with
              | None => (Some s', [PErr "cliwrap status: decode" None], 1)
              | Some resp =>
                  if String.eqb (sr_Err resp) "" then
                    let en := sr_Entry resp in
                    (Some s', [POut ("ID:      " +:+ ent_ID en); POut ("Name:    " +:+ ent_Name en);
                               POut ("State:   " +:+ ent_State en); POut ("ChildPID:" +:+ pretty (ent_ChildPID en))], 0)
                  else (Some s', [PErr (sr_Err resp) None], 1)
              end
          end
      end
  end.

(** ** list: cmd_list.go *)

Definition list_flags : list flag :=
  [runtime_flag; mkFlag "persistent" "persistent" KBool; mkFlag "persistent-dir" "persistentDir" KString].

Definition entry_row (e : ListEntry) : cli_io := PRow [ent_ID e; ent_Name e; ent_State e; pretty (ent_ChildPID e)].

(** [persistent]: what listPersistentCommand does with a directory. *)
Definition listCommand (persistent : string → list cli_io * Z) (dial : string → option session) (sock : string → string)
    (e : E) (args : list string) : outcome :=
  match parse_flags list_flags args with
  | Err _ => (None, [], 2)
  | Ok (set, _) =>
      if get_bool set "persistent" then let '(io, rc) := persistent (get_string set "persistentDir" "") in (None, io, rc)
      else match dial (sock (get_string set "runtimeDir" "")) with
      | None => (None, [PErr "cliwrap list" None], 1)
      | Some s =>
          match Call (A := StatusRequestPayload) e MsgListRequest None s with
          | (s', Err err) => (Some s', [PErr "cliwrap list" (Some err)], 1)
          | (s', Ok (_, body)) =>
              match decode_ok (A := ListResponsePayload) body with
              | None => (Some s', [PErr "cliwrap list: decode" None], 1)
              | Some resp => (Some s', PRow ["ID"; "NAME"; "STATE"; "PID"] :: (entry_row <$> lr_Entries resp), 0)
              end
          end
      end
  end.

(** ** logs: cmd_logs.go *)

Definition logs_flags : list flag :=
  [runtime_flag; mkFlag "stream" "stream" KString; mkFlag "follow" "follow" KBool; mkFlag "f" "follow" KBool;
   mkFlag "since" "since" KDuration; mkFlag "lines" "lines" KInt; mkFlag "n" "lines" KInt].

Definition printOneStream (e : E) (id : string) (stream since lines : Z) (s : session) : session * list cli_io * bool :=
  match Call e MsgLogsRequest (Some (mkLogsRequest id stream false since lines)) s with
  | (s', Err err) => (s', [PErr "cliwrap logs: call" (Some err)], false)
  | (s', Ok (_, body)) =>
      match decode_ok (A := LogsStreamPayload) body with
      | None => (s', [PErr "cliwrap logs: decode" None], false)
      | Some resp => (s', match ls_Data resp with [] => [] | d => writeStreamBytes stream d end, true)
      end
  end.
Fixpoint print_streams (es : list E) (id : string) (streams : list Z) (since lines : Z) (s : session)
    : session * list cli_io * Z :=
  match streams, es with
  | st :: streams', e :: es' =>
      let '(s1, io1, ok) := printOneStream e id st since lines s in
      if ok then let '(s2, io2, rc) := print_streams es' id streams' since lines s1 in (s2, io1 ++ io2, rc)
      else (s1, io1, 1)
  | _, _ => (s, [], 0)
  end.

(** The loop over the frames of a followed stream; [fuel] bounds the turns. *)
Fixpoint follow_loop (fuel : nat) (stream : Z) (c : Client) : option (Client * list cli_io * Z) :=
  match fuel with
  | O => None
  | S n =>
      match Client_ReadFrame c with
      | (c', Err err) => Some (c', if clean_end err then [] else [PErr "cliwrap logs: read" (Some err)], if clean_end err then 0 else 1)
      | (c', Ok (h, body)) =>
          if negb (h_MsgType h =? MsgLogsStream) then Some (c', [PErr "cliwrap logs: unexpected message type" None], 1)
          else match decode_ok (A := LogsStreamPayload) body with
          | None => match follow_loop n stream c' with
                    | Some (c2, io, rc) => Some (c2, PErr "cliwrap logs: decode" None :: io, rc)
                    | None => None
                    end
          | Some resp =>
              let io := match ls_Data resp with [] => [] | d => writeStreamBytes stream d end in
              if ls_EOF resp then Some (c', io, 0)
              else match follow_loop n stream c' with
                   | Some (c2, io2, rc) => Some (c2, io ++ io2, rc)
                   | None => None
                   end
          end
      end
  end.

(** The request of [followOneStream]; the loop runs on what the server sends. *)
Definition follow_request (id : string) (stream since lines : Z) (c : Client) : Client * option client_err :=
  Stream MsgLogsRequest (Some (mkLogsRequest id stream true since lines)) c.

(** Everything up to the requests: what is asked of which streams. *)
Inductive logs_plan := LogsUsage (io : list cli_io) | LogsFollow (id : string) (stream since lines : Z)
| LogsPrint (id : string) (streams : list Z) (since lines : Z).
Definition logs_plan_of (now : Z) (set : list (string * flag_val)) (ids : list string) : logs_plan :=
  match ids with
  | [] => LogsUsage [PErr "usage: cliwrap logs [--stream stdout|stderr|all] [--follow|-f] [--since DUR] [--lines|-n N] <id>" None]
  | id :: _ =>
      let since := get_duration set "since" 0 in
      let sinceNano := if 0 <? since then i64 (now - since) else 0 in
      let lines := get_int set "lines" 0 in
      match parseStreamFlag (get_string set "stream" "all") with
      | None => LogsUsage [PErr "cliwrap logs: unknown --stream value" None]
      | Some streams =>
          if get_bool set "follow" then
            match streams with
            | [st] => LogsFollow id st sinceNano lines
            | _ => LogsUsage [PErr "cliwrap logs: --follow requires --stream=stdout or --stream=stderr (not 'all')" None]
            end
          else LogsPrint id streams sinceNano lines
      end
  end.

(** [served]: the client after the server answered a follow request. *)
Definition logsCommand (dial : string → option session) (sock : string → string) (served : session → Client → Client)
    (fuel : nat) (now : Z) (es : list E) (args : list string) : option outcome :=
  match parse_flags logs_flags args with
  | Err _ => Some (None, [], 2)
  | Ok (set, ids) =>
      match logs_plan_of now set ids with
      | LogsUsage io => Some (None, io, 2)
      | plan =>
          match dial (sock (get_string set "runtimeDir" "")) with
          | None => Some (None, [PErr "cliwrap logs" None], 1)
          | Some s =>
              match plan with
              | LogsFollow id st since lines =>
                  match follow_request id st since lines (ss_client s) with
                  | (c, Some err) => Some (Some s, [PErr "cliwrap logs: subscribe" (Some err)], 1)
                  | (c, None) => match follow_loop fuel st (served s c) with
                                 | Some (_, io, rc) => Some (Some s, io, rc)
                                 | None => None
                                 end
                  end
              | LogsPrint id streams since lines =>
                  let '(s', io, rc) := print_streams es id streams since lines s in Some (Some s', io, rc)
              | LogsUsage io => Some (None, io, 2)
              end
          end
      end
  end.

(** ** events: cmd_events.go *)

Definition events_flags : list flag := [runtime_flag; mkFlag "process" "processFilter" KString; mkFlag "type" "typeFilter" KString].

Definition events_filter (set : list (string * flag_val)) : EventsSubscribePayload :=
  mkEventsSubscribe (parseCSV (get_string set "processFilter" "")) (parseCSV (get_string set "typeFilter" "")).

Definition event_row (ev : EventsStreamPayload) : cli_io :=
  PRow [pretty (ev_Timestamp ev); ev_Type ev; ev_ProcessID ev; ev_Summary ev].

Fixpoint events_loop (fuel : nat) (c : Client) : option (Client * list cli_io * Z) :=
  match fuel with
  | O => None
  | S n =>
      match Client_ReadFrame c with
      | (c', Err err) => Some (c', if clean_end err then [] else [PErr "cliwrap events: read" (Some err)], if clean_end err then 0 else 1)
      | (c', Ok (h, body)) =>
          if negb (h_MsgType h =? MsgEventsStream) then Some (c', [PErr "cliwrap events: unexpected message type" None], 1)
          else match events_loop n c' with
          | None => None
          | Some (c2, io, rc) =>
              Some (c2, match decode_ok (A := EventsStreamPayload) body with
                        | None => PErr "cliwrap events: decode" None
                        | Some ev => event_row ev
                        end :: io, rc)
          end
      end
  end.

Definition eventsCommand (dial : string → option session) (sock : string → string) (served : session → Client → Client)
    (fuel : nat) (args : list string) : option outcome :=
  match parse_flags events_flags args with
  | Err _ => Some (None, [], 2)
  | Ok (set, _) =>
      match dial (sock (get_string set "runtimeDir" "")) with
      | None => Some (None, [PErr "cliwrap events" None], 1)
      | Some s =>
          match Stream MsgEventsSubscribe (Some (events_filter set)) (ss_client s) with
          | (c, Some err) => Some (Some s, [PErr "cliwrap events: subscribe" (Some err)], 1)
          | (c, None) => match events_loop fuel (served s c) with
                         | Some (_, io, rc) => Some (Some s, io, rc)
                         | None => None
                         end
          end
      end
  end.

(** ** What the commands do over a connection between calls *)

Context (okL : ListResponsePayload → Prop) (okSQ : StatusRequestPayload → Prop) (okS : StatusResponsePayload → Prop)
        (okP : StopRequestPayload → Prop) (okLQ : LogsRequestPayload → Prop) (okLS : LogsStreamPayload → Prop).
Context `{!CodecLaws ListResponsePayload okL, !CodecLaws StatusRequestPayload okSQ,
          !CodecLaws StatusResponsePayload okS, !CodecLaws StopRequestPayload okP,
          !CodecLaws LogsRequestPayload okLQ, !CodecLaws LogsStreamPayload okLS}.

(** What decodes is what decoding gives when its error is ignored. *)
Lemma decode_ok_ignore {A} `{!Codec A, !Zero A} (b : bytes) (v : A) : decode_ok b = Some v → decode_ignore b = v.
Proof. unfold decode_ok, decode_ignore. intros H. destruct (DecodePayload b (Some zero)) as [[w|] [x|]]; by simplify_eq/=. Qed.

(** The exit code and the lines for the answers of the stops. *)
Definition stop_lines (ids : list string) (errs : list string) : list cli_io :=
  zip_with (λ id err, if String.eqb err "" then POut ("stopped " +:+ id)
                      else PErr ("cliwrap stop " +:+ id +:+ ": " +:+ err) None) ids errs.
(** The manager's own stops, in order: its state and the texts of the errors. *)
Fixpoint api_stops (m : M) (es : list E) (ids : list string) : M * list string :=
  match ids, es with
  | id :: ids', e :: es' =>
      let '(m1, err) := api_Stop e m id in
      let '(m2, errs) := api_stops m1 es' ids' in (m2, default "" err :: errs)
  | _, _ => (m, [])
  end.

Lemma stop_one_spec e id s :
  ready s → fits okP (mkStopRequest id) →
  (let '(m', err) := api_Stop e (ss_mgr s) id in fits okS (mkStatusResponse zero (default "" err))) →
  ∃ s', stop_one e id s = (s', stop_lines [id] [default "" (api_Stop e (ss_mgr s) id).2],
                           if String.eqb (default "" (api_Stop e (ss_mgr s) id).2) "" then 0 else 1) ∧
        ready s' ∧ ss_mgr s' = (api_Stop e (ss_mgr s) id).1.
Proof.
  intros Hrd Hq Hr. pose proof (do_request_spec okL okSQ okS okP okLQ okLS e s (ReqStop id) Hrd Hq) as H.
  cbn [api_spec do_request] in H. destruct (api_Stop e (ss_mgr s) id) as [m' err]. cbn [fst snd resp_fits] in *.
  destruct (H Hr) as (s' & Hd & Hrd' & Hm & _). exists s'.
  unfold stop_one. destruct (Call e MsgStopRequest _ s) as [s1 [[h body]|ce]]; cbn [decoded] in Hd; simplify_eq.
  destruct (decode_ok body) as [p|] eqn:Ed; simplify_eq/=. rewrite (decode_ok_ignore body _ Ed). simpl.
  by destruct (String.eqb (default "" err) "").
Qed.

(** [cliwrap stop] over a working connection: every identifier is
    stopped, in order and through the manager's own [Stop]; each gets its line,
    on stdout if it stopped and on stderr with the manager's error if not; and
    the exit code is 0 exactly if all of them stopped. *)
Theorem stop_command_reports dial sock s es set ids args m' errs
    (Hargs : parse_flags [runtime_flag] args = Ok (set, ids)) (Hne : ids ≠ [])
    (Hdial : dial (sock (get_string set "runtimeDir" "")) = Some s) (Hready : ready s)
    (Hes : length es = length ids) (Hids : Forall (λ id, fits okP (mkStopRequest id)) ids)
    (Hstops : api_stops (ss_mgr s) es ids = (m', errs))
    (Hfit : Forall (λ err, fits okS (mkStatusResponse zero err)) errs) :
  ∃ s' rc, stopCommand dial sock es args = (Some s', stop_lines ids errs, rc) ∧ ready s' ∧ ss_mgr s' = m' ∧
    (rc = 0 ↔ Forall (λ err, err = ""%string) errs).
Proof.
  unfold stopCommand. rewrite Hargs. destruct ids as [|id0 ids0] eqn:Eids; [done|]. rewrite <- Eids in *. clear Eids id0 ids0 Hne.
  rewrite Hdial. clear Hargs Hdial.
  assert (∀ es s rc0 errs m', ready s → length es = length ids → api_stops (ss_mgr s) es ids = (m', errs) →
    Forall (λ err, fits okS (mkStatusResponse zero err)) errs →
    ∃ s' rc, stop_ids es ids s rc0 = (s', stop_lines ids errs, rc) ∧ ready s' ∧ ss_mgr s' = m' ∧
      ((rc0 = 0 ∨ rc0 = 1) → (rc = 0 ∨ rc = 1) ∧ (rc = 0 ↔ rc0 = 0 ∧ Forall (λ err, err = ""%string) errs))) as Hgo.
  { clear -Hids CodecLaws0 CodecLaws1 CodecLaws2 CodecLaws3 CodecLaws4 CodecLaws5.
    induction Hids as [|id ids Hid _ IH]; intros es s rc0 errs m' Hrd Hlen Hst Hfit.
    - destruct es; [|done]. simpl in Hst. simplify_eq. exists s, rc0. rewrite Forall_nil. naive_solver.
    - destruct es as [|e es]; [done|]. cbn [api_stops] in Hst. destruct (api_Stop e (ss_mgr s) id) as [m1 err] eqn:Es.
      destruct (api_stops m1 es ids) as [m2 errs'] eqn:Er. simplify_eq. apply Forall_cons in Hfit as [Hf Hfit].
      destruct (stop_one_spec e id s Hrd Hid) as (s1 & H1 & Hrd1 & Hm1); [by rewrite Es|]. rewrite Es in H1, Hm1. simpl in H1, Hm1.
      subst m1. cbn [stop_ids]. rewrite H1.
      edestruct (IH es s1 (if (if String.eqb (default "" err) "" then 0 else 1) =? 0 then rc0 else 1) errs' m' Hrd1)
        as (s' & rc & H2 & Hrd2 & Hm2 & Hrc); [simpl in Hlen; lia|done|done|]. rewrite H2. exists s', rc.
      split; [done|]. split; [done|]. split; [done|]. intros H0. rewrite Forall_cons.
      destruct (String.eqb_spec (default "" err) "") as [Eq|Ne]; simpl in Hrc; naive_solver lia. }
  destruct (Hgo es s 0 errs m' Hready Hes Hstops Hfit) as (s' & rc & -> & Hrd & Hm & Hrc).
  exists s', rc. split; [done|]. split; [done|]. split; [done|]. destruct Hrc as [_ Hrc]; [by left|]. rewrite Hrc. naive_solver.
Qed.

(** What one snapshot answer prints. *)
Definition log_lines (stream : Z) (data : bytes) : list cli_io :=
  match data with [] => [] | d => writeStreamBytes stream d end.

(** A payload in a frame the server may have sent. *)
Definition carries (m : OutboxMessage) (p : LogsStreamPayload) : Prop :=
  msg_ok m ∧ h_Length (m_Header m) ≤ MaxPayloadSize ∧ h_MsgType (m_Header m) = MsgLogsStream ∧
  okLS p ∧ Marshal p = Ok (m_Payload m).

Lemma follow_one c m p rest n stream :
  carries m p → r_bytes (fr_r (cl_r c)) = frame_bytes m ++ rest → fr_cap (cl_r c) = MaxPayloadSize →
  ∃ c', r_bytes (fr_r (cl_r c')) = rest ∧ r_end (fr_r (cl_r c')) = r_end (fr_r (cl_r c)) ∧ fr_cap (cl_r c') = MaxPayloadSize ∧
    follow_loop (S n) stream c =
    if ls_EOF p then Some (c', log_lines stream (ls_Data p), 0)
    else match follow_loop n stream c' with
         | Some (c2, io2, rc) => Some (c2, log_lines stream (ls_Data p) ++ io2, rc)
         | None => None
         end.
Proof.
  intros (Hok & Hlen & Hty & Hp & Hm) Hb Hc.
  destruct (ReadFrame_frame (cl_r c) m rest Hok) as (fr' & Hr & Hb' & He & Hc'); [by rewrite Hc|done|].
  exists (mkClient fr' (cl_w c) (cl_seq c)). cbn [cl_r]. split; [done|]. split; [done|]. split; [congruence|].
  cbn [follow_loop]. unfold Client_ReadFrame. rewrite Hr, Hty, Z.eqb_refl. cbn [negb].
  rewrite (decode_ok_marshal okLS p (m_Payload m) Hp Hm). unfold log_lines. by destruct (ls_Data p).
Qed.

(** [cliwrap logs -f]: of the frames the server sends on a followed
    stream, however they are cut into pieces, the command writes exactly the
    data, in order, to stdout or stderr as the stream says, and exits with 0
    when the server closes the connection, also in the middle of a frame, or
    marks the end; enough fuel is one turn per frame. *)
Theorem follow_prints_stream c stream mps last cut fuel
    (Hcap : fr_cap (cl_r c) = MaxPayloadSize) (Hend : r_end (fr_r (cl_r c)) = EOF)
    (Hmps : Forall (λ mp, carries mp.1 mp.2 ∧ ls_EOF mp.2 = false) mps)
    (Hlast : msg_ok last ∧ h_Length (m_Header last) ≤ MaxPayloadSize)
    (Hcut : cut `prefix_of` frame_bytes last) (Hpart : cut ≠ frame_bytes last)
    (Hbytes : r_bytes (fr_r (cl_r c)) = stream_bytes mps.*1 ++ cut) (Hfuel : (length mps < fuel)%nat) :
  ∃ c', follow_loop fuel stream c = Some (c', mps.*2 ≫= λ p, log_lines stream (ls_Data p), 0).
Proof.
  revert c fuel Hcap Hend Hbytes Hfuel. induction Hmps as [|[m p] mps [Hc He] _ IH]; intros c fuel Hcap Hend Hbytes Hfuel;
    (destruct fuel as [|n]; [simpl in Hfuel; lia|]); cbn [fst snd] in *.
  - cbn [follow_loop]. unfold Client_ReadFrame.
    destruct (ReadFrame_partial (cl_r c) last cut (proj1 Hlast)) as (fr' & h & ->); try done; [rewrite Hcap; apply Hlast|].
    destruct (0 <? length cut)%nat; by eexists.
  - rewrite fmap_cons in Hbytes. cbn [stream_bytes fst] in Hbytes.
    assert (stream_bytes (m :: mps.*1) = frame_bytes m ++ stream_bytes mps.*1) as Hs by done. rewrite Hs, <- app_assoc in Hbytes.
    destruct (follow_one c m p (stream_bytes mps.*1 ++ cut) n stream Hc Hbytes Hcap) as (c1 & Hb1 & He1 & Hc1 & ->).
    rewrite He. destruct (IH c1 n Hc1 ltac:(by rewrite He1) Hb1 ltac:(simpl in Hfuel; lia)) as (c2 & ->). by exists c2.
Qed.
End Commands.

(** A manager started by [cliwrap run] is found: with the hint file
    written, a client command without override uses the socket the manager
    serves, and an override or CLIWRAP_RUNTIME_DIR naming the same directory
    gives it too. *)
Theorem client_finds_manager dir env override hint tempdir :
  TrimSpace (chars dir) = chars dir → dir ≠ ""%string →
  managerSocketPath "" "" (writeRuntimeHint true dir hint) tempdir = run_socket dir ∧
  managerSocketPath dir env override tempdir = run_socket dir ∧
  managerSocketPath "" dir override tempdir = run_socket dir.
Proof.
  intros Ht Hne. apply String.eqb_neq in Hne. unfold managerSocketPath, run_socket. cbn [writeRuntimeHint].
  rewrite Hne, Ht, of_chars_of. done.
Qed.

Lemma client_finds_manager_witness :
  managerSocketPath "" "" (writeRuntimeHint true "/run/cliwrap" None) "/tmp" = "/run/cliwrap/manager.sock"%string.
Proof. destruct (client_finds_manager "/run/cliwrap" "" None None "/tmp") as (H & _); [reflexivity|done|exact H]. Defined.

(** A relative runtime directory is written as it is: another working
    directory reads a different socket from it. *)
Example relative_hint : managerSocketPath "" "" (writeRuntimeHint true "run" None) "/tmp" = "run/manager.sock"%string.
Proof. reflexivity. Qed.
Example csv_filter : parseCSV " a, ,b " = ["a"; "b"].
Proof. reflexivity. Qed.

(** ** run and validate: cmd_run.go, cmd_validate.go *)

(** [LoadFile]; [file]: the content of the file, if it can be read. *)
Definition LoadFile (lookup_env : string → option string) (yaml : string → option rawConfig) (file : option string) : option Config :=
  match file with
  | None => None
  | Some data => match Load lookup_env yaml data with Ok cfg => Some cfg | Err _ => None end
  end.

Definition config_flags : list flag := [mkFlag "f" "path" KString].
Definition config_path (args : list string) : option string :=
  match parse_flags config_flags args with Err _ => None | Ok (set, _) => Some (get_string set "path" "cliwrap.yaml") end.

Definition validateCommand (load : string → option Config) (args : list string) : list cli_io * Z :=
  match config_path args with
  | None => ([], 2)
  | Some path =>
      match load path with
      | None => ([PErr "cliwrap: validate" None], 1)
      | Some cfg => ([POut ("OK: " +:+ pretty (Z.of_nat (length (cfg_Groups cfg))) +:+ " groups, " +:+
                            pretty (Z.of_nat (length (all_processes cfg))) +:+ " processes")], 0)
      end
  end.

(** The options [run] builds; [self_dir]: the directory of the executable. *)
Definition run_options (self_dir : string) (cfg : Config) : ManagerOptions * logSettings :=
  let rt := cfg_Runtime cfg in
  let agentPath := if String.eqb (rt_AgentPath rt) "" then path_join [self_dir; "cliwrap-agent"] else rt_AgentPath rt in
  let o1 := if 0 <? rt_LogRingBufferBytes rt then WithLogRingBufferBytes (rt_LogRingBufferBytes rt) (mkLogSettings 0 "" 0 0)
            else mkLogSettings 0 "" 0 0 in
  let o2 := if String.eqb (rt_LogFileDir rt) "" then o1
            else let o := WithLogFileDir (rt_LogFileDir rt) o1 in
                 if (0 <? rt_LogFileMaxSize rt) || (0 <? rt_LogFileMaxFiles rt)
                 then WithLogFileRotation (rt_LogFileMaxSize rt) (rt_LogFileMaxFiles rt) o else o in
  (WithRuntimeDir (rt_Dir rt) (WithAgentPath agentPath no_options), o2).

(** The loop that registers; the specification it failed on. *)
Fixpoint register_all (m : Manager) (specs : list Spec) : Manager * option string :=
  match specs with
  | [] => (m, None)
  | sp :: specs' => match Register m sp with (m', Ok _) => register_all m' specs' | (m', Err _) => (m', Some (spec_ID sp)) end
  end.

Inductive run_result := RunExit (io : list cli_io) (code : Z) (hint : option string) | RunServing (m : Manager) (logs : logSettings) (sock : string) (hint : option string).

(** [run] until the management server serves; [server]: NewServer succeeds. *)
Definition runCommand (load : string → option Config) (self_dir home : string) (cache server : bool) (hint : option string)
    (args : list string) : run_result :=
  match config_path args with
  | None => RunExit [] 2 hint
  | Some path =>
      match load path with
      | None => RunExit [PErr "cliwrap run" None] 1 hint
      | Some cfg =>
          if String.eqb (rt_Dir (cfg_Runtime cfg)) "" then RunExit [PErr "cliwrap run: runtime.dir is required" None] 1 hint
          else
            let '(o, logs) := run_options self_dir cfg in
            match NewManager home o with
            | Err _ => RunExit [PErr "cliwrap run" None] 1 hint
            | Ok m =>
                let hint' := writeRuntimeHint cache (rt_Dir (cfg_Runtime cfg)) hint in
                match register_all m (all_processes cfg) with
                | (_, Some id) => RunExit [PErr ("cliwrap run: register " +:+ id) None] 1 hint'
                | (m', None) =>
                    if server then RunServing m' logs (run_socket (rt_Dir (cfg_Runtime cfg))) hint'
                    else RunExit [PErr "cliwrap run: mgmt server" None] 1 hint'
                end
            end
      end
  end.

Lemma path_clean_nonempty l : path_clean l ≠ [].
Proof. unfold path_clean. destruct (match l with c :: _ => Ascii.eqb c slash | [] => false end); [done|]. by case_match. Qed.
Lemma path_join_nonempty a b : b ≠ ""%string → path_join [a; b] ≠ ""%string.
Proof.
  intros Hb. unfold path_join. cbn [fmap list_fmap]. rewrite !filter_cons.
  rewrite (decide_True (P := chars b ≠ [])) by (intros E; apply Hb; by rewrite <- (of_chars_of b), E).
  intros E. apply (f_equal chars) in E. revert E. case_decide; rewrite chars_of; apply path_clean_nonempty.
Qed.

Lemma register_all_ok m specs :
  m_closed m = false → Forall (λ p, CwTypes.Validate p = None) specs → NoDup (spec_ID <$> specs) →
  (∀ sp, sp ∈ specs → m_handles m !! spec_ID sp = None) →
  ∃ m', register_all m specs = (m', None) ∧
    (∀ sp, sp ∈ specs → m_handles m' !! spec_ID sp = Some (new_handle sp None)) ∧
    (∀ id, id ∉ spec_ID <$> specs → m_handles m' !! id = m_handles m !! id).
Proof.
  revert m. induction specs as [|sp specs IH]; intros m Hcl Hval Hnd Hfree; [exists m; set_solver|].
  apply Forall_cons in Hval as [Hv Hval]. rewrite fmap_cons in Hnd. apply NoDup_cons in Hnd as [Hn Hnd].
  cbn [register_all]. unfold Register. rewrite Hv, Hcl, Hfree by set_solver.
  edestruct (IH (upd_handles m (<[spec_ID sp := new_handle sp None]> (m_handles m)))) as (m' & H1 & H2 & H3); [done|done|done| |].
  { intros sp' Hin. simpl. rewrite lookup_insert_ne; [apply Hfree; set_solver|]. intros E. apply Hn. rewrite E. by apply list_elem_of_fmap_2. }
  exists m'. split; [exact H1|]. split.
  - intros sp' [->|Hin]%elem_of_cons; [|by apply H2]. rewrite H3 by done. by apply lookup_insert_eq.
  - intros id Hid. rewrite fmap_cons, not_elem_of_cons in Hid. destruct Hid. rewrite H3 by done. by apply lookup_insert_ne.
Qed.

Lemma register_all_spawner m specs r : register_all m specs = r → m_spawner r.1 = m_spawner m.
Proof.
  intros <-. revert m. induction specs as [|sp specs IH]; intros m; [done|]. cbn [register_all].
  assert (m_spawner (Register m sp).1 = m_spawner m) as Hr by (unfold Register; by repeat case_match).
  destruct (Register m sp) as [m' []]; simpl in *; [by rewrite IH|done].
Qed.

(** A configuration that loads runs: with a runtime directory, [cliwrap
    run] registers every process of every group under its own identifier with
    exactly its specification, and nothing else, and serves the management
    socket of that directory; registration cannot fail after a successful
    load, and the clients' default lookup gives that socket. *)
Theorem run_registers_configuration lookup_env yaml file data cfg self_dir home args path hint
    (Hpath : config_path args = Some path) (Hfile : file path = Some data)
    (Hload : Load lookup_env yaml data = Ok cfg) (Hdir : rt_Dir (cfg_Runtime cfg) ≠ ""%string) :
  let load p := LoadFile lookup_env yaml (file p) in
  ∃ m logs hint', runCommand load self_dir home true true hint args = RunServing m logs (run_socket (rt_Dir (cfg_Runtime cfg))) hint' ∧
    hint' = Some (rt_Dir (cfg_Runtime cfg)) ∧
    dom (m_handles m) = list_to_set (spec_ID <$> all_processes cfg) ∧
    (∀ sp, sp ∈ all_processes cfg → m_handles m !! spec_ID sp = Some (new_handle sp None)) ∧
    (rt_AgentPath (cfg_Runtime cfg) ≠ ""%string → so_AgentPath (m_spawner m) = rt_AgentPath (cfg_Runtime cfg)).
Proof.
  intros load. destruct (Load_valid _ _ _ _ Hload) as [Hval Hnd].
  unfold runCommand, load, LoadFile. rewrite Hpath, Hfile, Hload. apply String.eqb_neq in Hdir as Hd. rewrite Hd.
  unfold run_options. cbv zeta.
  set (agent := if String.eqb (rt_AgentPath (cfg_Runtime cfg)) "" then _ else _).
  assert (String.eqb agent "" = false) as Ha.
  { unfold agent. destruct (String.eqb_spec (rt_AgentPath (cfg_Runtime cfg)) "") as [_|Hn]; apply String.eqb_neq; [|done].
    by apply path_join_nonempty. }
  unfold NewManager. cbn [mo_agentPath mo_runtimeDir WithRuntimeDir WithAgentPath no_options]. rewrite Ha, Hd. cbv zeta.
  match goal with |- context [register_all ?m _] => destruct (register_all_ok m (all_processes cfg)) as (m' & H1 & H2 & H3) end;
    [done|done|done|done|].
  assert (m_spawner m' = mkSpawnerOptions agent (rt_Dir (cfg_Runtime cfg)) []) as Hs by (by apply register_all_spawner in H1).
  rewrite H1. eexists _, _, _. split; [reflexivity|]. split; [done|]. split; [|split; [done|]].
  - apply set_eq. intros id. rewrite elem_of_dom, elem_of_list_to_set. split.
    + intros [h Hh]. destruct (decide (id ∈ spec_ID <$> all_processes cfg)) as [|Hno]; [done|]. by rewrite H3 in Hh.
    + intros (sp & -> & Hin)%list_elem_of_fmap. rewrite H2 by done. by eexists.
  - intros Hn. rewrite Hs. cbn [so_AgentPath]. unfold agent. by apply String.eqb_neq in Hn as ->.
Qed.

(** ** list --persistent: cmd_list_persistent.go *)

Definition session_row (i : PersistentSessionInfo) : cli_io :=
  PRow [pi_ID i; pretty (pi_AgentPID i); pretty (pi_StartedAt i);
        if pi_Alive i then "true" else "false  stale (rm -rf to clean)"; if pi_Attached i then "yes" else "no"].

(** [envdir], [envagent]: CLIWRAP_PERSISTENT_DIR and CLIWRAP_AGENT_PATH. *)
Definition listPersistentCommand (alive : Z → bool) (read : string → readdir) (home tempdir envdir envagent override : string)
    : list cli_io * Z :=
  let dir := if String.eqb override "" then envdir else override in
  let agent := if String.eqb envagent "" then "/usr/bin/true" else envagent in
  let o := WithRuntimeDir (path_join [tempdir; "cliwrap-list-persistent"]) (WithAgentPath agent no_options) in
  match NewManager home (if String.eqb dir "" then o else WithPersistentDir dir o) with
  | Err _ => ([PErr "cliwrap list --persistent" None], 1)
  | Ok m =>
      match ListPersistent alive (read (m_persistentDir m)) with
      | None => ([PErr "cliwrap list --persistent" None], 1)
      | Some infos => (PRow ["ID"; "PID"; "STARTED"; "ALIVE"; "ATTACHED"] :: (session_row <$> infos), 0)
      end
  end.

(** The command always has a manager: it fails only if the directory cannot be
    read, looks where it is told first, and prints a row per session found,
    sorted. *)
Theorem list_persistent_command alive read home tempdir envdir envagent override :
  let dir := if String.eqb override "" then (if String.eqb envdir "" then path_join [home; ".cliwrap"; "sessions"] else envdir)
             else override in
  listPersistentCommand alive read home tempdir envdir envagent override =
  match ListPersistent alive (read dir) with
  | None => ([PErr "cliwrap list --persistent" None], 1)
  | Some infos => (PRow ["ID"; "PID"; "STARTED"; "ALIVE"; "ATTACHED"] :: (session_row <$> infos), 0)
  end.
Proof.
  unfold listPersistentCommand. cbv zeta. rewrite persistent_option by done. unfold NewManager.
  cbn [mo_agentPath mo_runtimeDir mo_persistentDir WithPersistentDir WithRuntimeDir WithAgentPath no_options].
  assert (String.eqb (if String.eqb envagent "" then "/usr/bin/true" else envagent) "" = false) as ->
    by (destruct (String.eqb_spec envagent ""); [done|by apply String.eqb_neq]).
  assert (String.eqb (path_join [tempdir; "cliwrap-list-persistent"]) "" = false) as ->
    by (by apply String.eqb_neq, path_join_nonempty).
  cbn [m_persistentDir]. destruct (String.eqb override "") eqn:E; [done|by rewrite E].
Qed.

(** ** The command table: main.go *)

Inductive command_kind := CmdRun | CmdValidate | CmdList | CmdStatus | CmdStop | CmdKill | CmdLogs | CmdEvents | CmdVersion | CmdHelp.
(** [None]: usage, or an unknown command; the exit code is then 2. *)
Definition command_of (argv : list string) : option (command_kind * list string) :=
  match argv with
  | [] => None
  | c :: args =>
      if String.eqb c "run" then Some (CmdRun, args) else if String.eqb c "validate" then Some (CmdValidate, args)
      else if String.eqb c "list" then Some (CmdList, args) else if String.eqb c "status" then Some (CmdStatus, args)
      else if String.eqb c "stop" then Some (CmdStop, args) else if String.eqb c "kill" then Some (CmdKill, args)
      else if String.eqb c "logs" then Some (CmdLogs, args) else if String.eqb c "events" then Some (CmdEvents, args)
      else if String.eqb c "version" then Some (CmdVersion, args)
      else if String.eqb c "-h" || String.eqb c "--help" || String.eqb c "help" then Some (CmdHelp, args)
      else None
  end.

Module CliExample.
#[local] Existing Instances MgmtExample.ex_codec MgmtExample.ex_status_req MgmtExample.ex_stop_req MgmtExample.ex_status
  MgmtExample.ex_list MgmtExample.ex_logs_req MgmtExample.ex_logs MgmtExample.ex_status_req_laws MgmtExample.ex_stop_req_laws
  MgmtExample.ex_status_laws MgmtExample.ex_list_laws MgmtExample.ex_logs_req_laws MgmtExample.ex_logs_laws MgmtExample.ex_api.

Lemma stop_command_reports_witness :
  ∃ s' rc, stopCommand (λ p, if String.eqb p "/run/manager.sock" then Some MgmtExample.ex_session else None)
      (λ o, managerSocketPath o "" None "/tmp") [MgmtExample.ex_env] ["--runtime-dir=/run"; "x"] =
    (Some s', [PErr "cliwrap stop x: cliwrap: process not found" None], rc) ∧ ready s' ∧ rc ≠ 0.
Proof.
  destruct (stop_command_reports _ _ _ _ _ _ (λ p, if String.eqb p "/run/manager.sock" then Some MgmtExample.ex_session else None)
    (λ o, managerSocketPath o "" None "/tmp") MgmtExample.ex_session [MgmtExample.ex_env] [("runtimeDir", FvString "/run")] ["x"]
    ["--runtime-dir=/run"; "x"] (ss_mgr MgmtExample.ex_session) ["cliwrap: process not found"] eq_refl ltac:(done) eq_refl
    MgmtExample.ex_ready eq_refl) as (s' & rc & H1 & H2 & _ & H3).
  { constructor; [apply MgmtExample.const_fits|constructor]. }
  { reflexivity. }
  { constructor; [apply MgmtExample.const_fits|constructor]. }
  exists s', rc. split; [exact H1|]. split; [exact H2|]. rewrite H3. intros Hf. by inversion Hf.
Defined.

(** One frame with the snapshot, then the server goes away. *)
Definition ex_frame : OutboxMessage := frame_of MsgLogsStream 0 [].
Definition ex_payload : LogsStreamPayload := mkLogsStream "p" 1 [x61; x62] false.
Definition ex_client : Client := mkClient (mkFrameReader (mkReader [take 3 (frame_bytes ex_frame); drop 3 (frame_bytes ex_frame)] EOF) MaxPayloadSize)
  (mkWriter [] None) 1.

Lemma ex_frame_ok : msg_ok ex_frame.
Proof. apply frame_of_ok; [split; done|split; done|done]. Qed.

Lemma follow_prints_stream_witness :
  ∃ c', follow_loop (Codec5 := const_codec ex_payload) 2 1 ex_client = Some (c', [PBytes 1 [x61; x62]], 0).
Proof.
  apply (follow_prints_stream (Codec5 := const_codec ex_payload) (λ x, x = ex_payload)
    (CodecLaws5 := MgmtExample.const_codec_laws ex_payload) ex_client 1 [(ex_frame, ex_payload)] ex_frame [] 2).
  all: try reflexivity.
  - constructor; [|constructor]. split; [|reflexivity]. split; [apply ex_frame_ok|]. repeat split; reflexivity || done.
  - split; [apply ex_frame_ok|done].
  - apply prefix_nil.
  - done.
  - simpl. lia.
Defined.

Definition ex_raw : rawConfig :=
  mkRawConfig "1" (mkRuntime "/run" "" "" 0 "" 0 0) (mkRawBudget (S754_zero false) "" (S754_zero false)) []
    [mkRawGroup "g" [mkRawProcess "redis" "" "/bin/redis" [] ∅ "" "" 0 "" "" "" (mkRawResources "" (S754_zero false) "")]].

Lemma run_registers_configuration_witness :
  ∃ m logs hint, runCommand (λ p, LoadFile (λ _, None) (λ _, Some ex_raw) (if String.eqb p "a.yaml" then Some "x" else None))
      "/usr/bin" "/home/u" true true None ["-f"; "a.yaml"] = RunServing m logs "/run/manager.sock" hint ∧
    dom (m_handles m) = {["redis"%string]}.
Proof.
  assert (∃ cfg, Load (λ _, None) (λ _, Some ex_raw) "x" = Ok cfg ∧ rt_Dir (cfg_Runtime cfg) = "/run"%string ∧
    (spec_ID <$> all_processes cfg) = ["redis"]) as (cfg & Hl & Hd & Hp) by (eexists; split; [reflexivity|done]).
  destruct (run_registers_configuration (λ _, None) (λ _, Some ex_raw) (λ p, if String.eqb p "a.yaml" then Some "x" else None) "x" cfg
    "/usr/bin" "/home/u" ["-f"; "a.yaml"] "a.yaml" None eq_refl eq_refl Hl ltac:(by rewrite Hd)) as (m & logs & hint & H1 & _ & H3 & _).
  exists m, logs, hint. rewrite Hd in H1. rewrite Hp in H3. split; [exact H1|]. rewrite H3. set_solver.
Defined.
End CliExample.
