(* ===== verification/Serve.v ===== *)
(** * Serving and killing: cmd/cliwrap/cmd_run.go, cmd_kill.go

    What [cliwrap run] does once everything is registered: it starts the
    processes one after the other, serves until a signal, shuts the manager
    down and closes the management server.  Meanwhile messages of the agents,
    disconnects, the watcher and stop requests of management clients interleave
    at will.  And [cliwrap kill], which ends a persistent session. *)

From Stdlib Require Import Floats.SpecFloat.
From S2P Require Import Prelude Text Frame Seq Outbox Wal Spiller Message Conn RingBuffer CwTypes PtySubs.
From S2P Require Import Controller EventBus Supervise Agent Manager MgmtApi Config Flags Cli.

(** ** run after registration: cmd_run.go *)

(** [PhStart]: the handles still to start, and whether the first is being
    started; [PhClosing]: the manager is shut down, the server not closed. *)
Inductive serve_phase := PhStart (ids : list string) (begun : bool) | PhServing | PhStopping | PhClosing | PhExited.

Record serve := mkServe { sv_mgr : Manager; sv_phase : serve_phase; sv_ctx : bool }.
Definition with_phase (st : serve) (m : Manager) (p : serve_phase) : serve := mkServe m p (sv_ctx st).

Inductive serve_event :=
| SvMgr (e : mgr_event)
| SvSpawned (id : string)      (** an agent process exists for [id] *)
| SvKilled (id : string)       (** a failing start terminated it *)
| SvShown (io : cli_io)
| SvExit (code : Z).

Inductive serve_op :=
| SvStartBegin (s : enq_sched) (os : os_answers) (rw : Reader * Writer) (wal : option bytes) (wf : bool)
| SvStartEnd (s : enq_sched) (k : cap_case) (a b d : bool)
| SvServing
| SvSignal
| SvEnv (op : mgr_op)
| SvShutdown (order : list string)
| SvShutStep (s : enq_sched) (a b d : bool)
| SvShutEnd
| SvServerClosed.

Definition serve_init (m : Manager) (specs : list Spec) : serve := mkServe m (PhStart (spec_ID <$> specs) false) false.

(** What happened to the agent of a controller that a failing start drops. *)
Definition dropped_agent (id : string) (c : option Controller) : list serve_event :=
  match c with
  | Some c => match ct_handle c with
              | Some killed => SvSpawned id :: if killed : bool then [SvKilled id] else []
              | None => []
              end
  | None => []
  end.
Definition start_failed (id : string) : serve_event := SvShown (PErr ("cliwrap run: start " +:+ id) None).

(** What the rest of the program may do: the readers of the connections, the
    watcher, and stop requests; a stop waits for a pending start. *)
Definition env_ok (m : Manager) (op : mgr_op) : bool :=
  match op with
  | MStarting _ _ | MLive _ _ | MObserve _ _ => true
  | MStop id _ => match m_handles m !! id with
                  | Some h => match ph_starting h with None => true | Some _ => false end
                  | None => true
                  end
  | _ => false
  end.
Definition mgr_events (evs : list mgr_event) : list serve_event := SvMgr <$> evs.

Section Serve.
Context `{!Codec HelloPayload, !Codec StartChildPayload, !Codec StopChildPayload,
          !Codec CapabilityReply, !Codec ChildStartedPayload, !Codec ChildExitedPayload,
          !Codec ChildErrorPayload, !Codec LogChunkPayload, !Codec Message.PTYData,
          !Codec PTYRingDumpPayload, !Codec AckPayload, !Codec PTYWrite, !Codec PTYResize, !Codec PTYSignal}.

(** [h.Start] of the next handle, in its two halves. *)
Definition serve_start (st : serve) (id : string) (ids : list string)
    (s : enq_sched) (os : os_answers) (rw : Reader * Writer) (wal : option bytes) (wf : bool) : serve * list serve_event :=
  let m := sv_mgr st in
  match m_handles m !! id with
  | None => (st, [])
  | Some h =>
      match Handle_Start_begin (m_runtimeDir m) (m_outboxCapacity m) (m_disableWAL m) s (spawn_socket m h os rw) wal wf h with
      | (h', Ok _, _, _) => (with_phase st (upd_handles m (<[id := h']> (m_handles m))) (PhStart (id :: ids) true), [SvSpawned id])
      | (h', Err _, c, _) =>
          (with_phase st (upd_handles m (<[id := h']> (m_handles m))) (PhStart ids false), dropped_agent id c ++ [start_failed id])
      end
  end.
Definition serve_started (st : serve) (id : string) (ids : list string) (s : enq_sched) (k : cap_case) (a b d : bool)
    : serve * list serve_event :=
  let m := sv_mgr st in
  match m_handles m !! id with
  | None => (st, [])
  | Some h =>
      match Handle_Start_end s k a b d h with
      | None => (st, [])
      | Some (h', r, c, _) =>
          (with_phase st (upd_handles m (<[id := h']> (m_handles m))) (PhStart ids false),
           match r with Ok _ => [] | Err _ => tail (dropped_agent id c) ++ [start_failed id] end)
      end
  end.

Definition serve_step (st : serve) (op : serve_op) : serve * list serve_event :=
  let m := sv_mgr st in
  match sv_phase st, op with
  | PhExited, _ => (st, [])
  | p, SvSignal => (mkServe m p true, [])
  | p, SvEnv op =>
      if env_ok m op then let '(m', evs) := mgr_step m op in (with_phase st m' p, mgr_events evs) else (st, [])
  | PhStart (id :: ids) false, SvStartBegin s os rw wal wf => serve_start st id ids s os rw wal wf
  | PhStart (id :: ids) true, SvStartEnd s k a b d =>
      match k, sv_ctx st with
      | CaseCtxDone, false => (st, [])
      | _, _ => serve_started st id ids s k a b d
      end
  | PhStart [] _, SvServing =>
      (with_phase st m PhServing,
       [SvShown (POut ("cliwrap: running " +:+ pretty (Z.of_nat (size (m_handles m))) +:+ " processes; Ctrl-C to exit"))])
  | PhServing, SvShutdown order =>
      if sv_ctx st && bool_decide (NoDup order ∧ list_to_set order =@{gset string} dom (m_handles m))
      then (with_phase st (Shutdown_begin order m) PhStopping, []) else (st, [])
  | PhStopping, SvShutStep s a b d => let '(m', evs) := Shutdown_step s a b d m in (with_phase st m' PhStopping, mgr_events evs)
  | PhStopping, SvShutEnd =>
      match m_shutdown m with [] => (with_phase st (Shutdown_end m) PhClosing, []) | _ => (st, []) end
  | PhClosing, SvServerClosed => (with_phase st m PhExited, [SvExit 0])
  | _, _ => (st, [])
  end.

(** ** What the agents of a handle go through *)

(** The agent behind a controller runs, and the controller can end it. *)
Definition agent_up (c : Controller) : Prop := ct_handle c = Some false ∧ ct_closed c = false.

(** Two controllers with the same agent. *)
Definition same_agent (c c' : Controller) : Prop := ct_handle c' = ct_handle c ∧ ct_closed c' = ct_closed c.

Lemma same_agent_up c c' : same_agent c c' → agent_up c → agent_up c'.
Proof. unfold same_agent, agent_up. intros [-> ->]. done. Qed.
Lemma same_agent_trans c1 c2 c3 : same_agent c1 c2 → same_agent c2 c3 → same_agent c1 c3.
Proof. unfold same_agent. intros [] []. split; congruence. Qed.

Lemma setState_agent c st : same_agent c (setState c st).1.
Proof. unfold setState. by destruct (decide _). Qed.
Lemma send_agent {A} `{!Codec A} s c t (p : option A) ack : same_agent c (send s c t p ack).1.
Proof. unfold send. repeat (case_match; simplify_eq/=); by split. Qed.

Lemma live_step_agent c op : same_agent c (live_step c op).
Proof.
  destruct op as [msg|]; simpl; [|unfold on_disconnect; eapply same_agent_trans; [|apply setState_agent]; done].
  unfold handleMessage.
  repeat first [progress simpl | case_match]; try done;
    match goal with
    | H : setState ?c ?st = _ |- _ => pose proof (setState_agent c st) as Hs; rewrite H in Hs; done
    | H : (if decide ?P then setState ?c1 ?s1 else setState ?c2 ?s2) = _ |- _ =>
        destruct (decide P);
        match type of H with setState ?c ?st = _ =>
          pose proof (setState_agent c st) as Hs; rewrite H in Hs; done end
    | _ => apply setState_agent
    end.
Qed.

Lemma Stop_agent s c : same_agent c (Stop s c).1.1.
Proof.
  unfold Stop. destruct (stop_early c); [done|].
  pose proof (setState_agent c StateStopping). destruct (setState c StateStopping) as [c1 e1].
  assert (same_agent c1 (Stop_send s c1).1) as Hs.
  { unfold Stop_send. destruct (EncodePayload _); [|done]. destruct (agentHasFeature c1 _).
    - destruct (ct_conn c1); [|done]. destruct (SendAndAwaitAck_begin _ _ _ _ _) as [[cn' r] ?].
      by destruct r as [[]|].
    - match goal with |- context [send s c1 MsgStopChild ?p true] =>
        pose proof (send_agent s c1 MsgStopChild p true); destruct (send s c1 MsgStopChild p true) end.
      done. }
  destruct (Stop_send s c1). by eapply same_agent_trans.
Qed.

(** A start that ends leaves the agent as it was left. *)
Lemma start_result_agent x c r evs : start_result x = (c, r, evs) → r = x.2 ∧ same_agent x.1 c.
Proof.
  destruct x as [c1 [[]|e]]; simpl; [by intros [= -> -> _]|].
  pose proof (setState_agent c1 StateCrashed) as H. destruct (setState c1 StateCrashed). by intros [= -> -> _].
Qed.

(** The first half of a start gives a running agent, or none is left. *)
Lemma Start_begin_agent s sock wal wf c c' r evs :
  Start_begin s sock wal wf c = (c', r, evs) → ct_handle c = None → ct_closed c = false →
  match r with Ok _ => agent_up c' | Err _ => ct_handle c' = None ∨ ct_handle c' = Some true end.
Proof.
  unfold Start_begin. intros H Hn Hcl.
  pose proof (setState_agent c StateStarting) as H0. destruct (setState c StateStarting) as [c1 e1]. simpl in H0.
  destruct (start_result _) as [[c2 r2] e2] eqn:Er. injection H as -> -> _.
  apply start_result_agent in Er as [-> [Hh Hc]]. destruct H0 as [G1 G2]. unfold Start_spawn in *.
  destruct sock as [rw|]; [|left; simpl in *; congruence].
  destruct (NewConn _) as [cn|e]; [|by right].
  match type of Hh with context [send s ?c2 MsgHello ?p false] =>
    pose proof (send_agent s c2 MsgHello p false) as H1; destruct (send s c2 MsgHello p false) as [c3 q] end.
  match type of Hh with context [send s ?c2 MsgTypeCapabilityQuery ?p false] =>
    pose proof (send_agent s c2 MsgTypeCapabilityQuery p false) as H2;
    destruct (send s c2 MsgTypeCapabilityQuery p false) as [c4 q'] end.
  destruct q'; [by right|]. destruct H1, H2. simpl in *. split; congruence.
Qed.

(** The second half keeps it, or ends it. *)
Lemma Start_finish_agent s k c c' r evs :
  Start_finish s k c = Some (c', r, evs) →
  match r with Ok _ => same_agent c c' | Err _ => ct_handle c' = Some true end.
Proof.
  unfold Start_finish. destruct (Start_rest s k c) as [x|] eqn:Ex; [|done]. intros [= [-> Hx]%start_result_agent].
  assert (∀ c2, same_agent c c2 → Start_child s c2 = x →
            match x.2 with Ok _ => same_agent c x.1 | Err _ => ct_handle x.1 = Some true end) as Hc.
  { intros c2 H2 <-. unfold Start_child. destruct (match spec_PTY _ with Some _ => _ | None => _ end); [done|].
    match goal with |- context [send s c2 MsgStartChild ?p true] =>
      pose proof (send_agent s c2 MsgStartChild p true) as H; destruct (send s c2 MsgStartChild p true) end.
    simpl in *. by eapply same_agent_trans. }
  assert (match x.2 with Ok _ => same_agent c x.1 | Err _ => ct_handle x.1 = Some true end) as Hr.
  { unfold Start_rest in Ex. destruct k; [destruct (ct_capReplyCh c) as [|[fs|]|]| |]; try done; injection Ex as Ex;
      try (by eapply Hc; [|exact Ex]). by subst x. }
  destruct (x.2); [by eapply same_agent_trans|]. by rewrite (proj1 Hx).
Qed.

Lemma close_ctrl_agent p a b d c : agent_up c → ct_handle (close_ctrl p a b d c) = Some (negb p).
Proof.
  intros [Hh Hc]. unfold close_ctrl, CloseConnOnly, Controller.Close, close_conn. rewrite Hc.
  destruct p; repeat (case_match; simplify_eq/=); congruence.
Qed.

(** A handle that works with the same agents as before. *)
Definition same_agents (h h' : processHandle) : Prop :=
  ph_spec h' = ph_spec h ∧ (ph_ctrl h' = None ↔ ph_ctrl h = None) ∧ (ph_starting h' = None ↔ ph_starting h = None) ∧
  ph_closing h' = ph_closing h ∧ (Forall agent_up (ctrls h) → Forall agent_up (ctrls h')).

Lemma same_agents_length h h' : same_agents h h' → length (ctrls h') = length (ctrls h).
Proof.
  intros (_ & H1 & H2 & H3 & _). unfold ctrls. rewrite !length_app, H3.
  destruct (ph_ctrl h), (ph_ctrl h'), (ph_starting h), (ph_starting h'); simpl; try done;
    exfalso; naive_solver.
Qed.

Lemma up_option (o : option Controller) f :
  (∀ c, same_agent c (f c)) → Forall agent_up (option_list o) → Forall agent_up (option_list (f <$> o)).
Proof. intros Hf. destruct o as [c|]; simpl; [|done]. rewrite !Forall_singleton. by apply same_agent_up. Qed.

Lemma Handle_Stop_agents s h : same_agents h (Handle_Stop s h).1.1.
Proof.
  unfold Handle_Stop. destruct (ph_ctrl h) as [c|] eqn:Ec; [|done].
  pose proof (Stop_agent s c) as Hc. destruct (Stop s c) as [[c' r] evs]. simpl in *.
  split_and!; simpl; try done; [by rewrite Ec|]. unfold ctrls. rewrite Ec, !Forall_app. simpl. rewrite !Forall_singleton.
  intros (H1 & H2). split; [by eapply same_agent_up|done].
Qed.

Lemma live_agents h (ctrl_side : bool) op :
  same_agents h
    (if ctrl_side then set_ctrl h ((λ c, live_step c op) <$> ph_ctrl h) (ph_starting h) (ph_closing h)
     else set_ctrl h (ph_ctrl h) ((λ c, live_step c op) <$> ph_starting h) (ph_closing h)).
Proof.
  pose proof (λ c, live_step_agent c op) as Hl.
  destruct ctrl_side; split_and!; simpl; try done; try apply fmap_None;
    unfold ctrls; rewrite !Forall_app; simpl; intuition auto using up_option.
Qed.

(** How the first half of a start ends: with an agent, or with none left. *)
Lemma start_begin_agents rd oc dw s sock wal wf h h' r c evs id :
  Handle_Start_begin rd oc dw s sock wal wf h = (h', r, c, evs) →
  match r with
  | Ok _ => ∃ c', agent_up c' ∧ h' = set_ctrl h None (Some c') (ph_closing h)
  | Err _ => h' = h ∧ (dropped_agent id c = [] ∨ dropped_agent id c = [SvSpawned id; SvKilled id])
  end.
Proof.
  unfold Handle_Start_begin. intros H. destruct (ph_ctrl h); [simplify_eq; by auto|]. unfold newController, NewController in H. cbn [negb] in H.
  destruct (String.eqb rd ""); [simplify_eq; by auto|].
  match type of H with context [Start_begin s sock wal wf ?c1] => set (c1' := c1) in H;
    destruct (Start_begin s sock wal wf c1') as [[c2 r2] es] eqn:E end.
  apply Start_begin_agent in E; [|by unfold c1'; destruct (ph_onStateChange h)..].
  destruct r2; simplify_eq; [by eauto|]. split; [done|]. simpl. destruct E as [->| ->]; auto.
Qed.

(** The second half ends with the agent handed to the handle, or terminated. *)
Lemma start_end_agents s k a b d h c0 h' r c evs id :
  Handle_Start_end s k a b d h = Some (h', r, c, evs) → ph_starting h = Some c0 → agent_up c0 →
  match r with
  | Ok _ => ∃ c', agent_up c' ∧ h' = set_ctrl h (Some c') None (ph_closing h)
  | Err _ => h' = set_ctrl h (ph_ctrl h) None (ph_closing h) ∧ tail (dropped_agent id c) = [SvKilled id]
  end.
Proof.
  unfold Handle_Start_end. intros H Hs Hup. rewrite Hs in H.
  destruct (Start_finish s k c0) as [[[c' r'] es]|] eqn:E; [|done]. apply Start_finish_agent in E.
  destruct r' as [[]|e]; [|simplify_eq; split; [done|]; simpl; by rewrite E].
  assert (agent_up c') as Hup' by (by eapply same_agent_up).
  destruct (spec_Persistent (ph_spec h) && negb (agentHasFeature c' "persistence")); simplify_eq; [|by eauto].
  split; [done|]. pose proof (close_ctrl_agent false a b d c' Hup') as Hk. unfold close_ctrl in Hk. simpl. by rewrite Hk.
Qed.

(** Closing a handle. *)
Lemma close_begin_agents h :
  length (ctrls (Handle_Close_begin h)) = length (ctrls h) ∧
  (Forall agent_up (ctrls h) → Forall agent_up (ctrls (Handle_Close_begin h))) ∧
  ph_spec (Handle_Close_begin h) = ph_spec h ∧ ph_ctrl (Handle_Close_begin h) = None ∧
  ph_starting (Handle_Close_begin h) = ph_starting h ∧
  (length (ph_closing (Handle_Close_begin h)) ≤ S (length (ph_closing h)))%nat.
Proof.
  unfold Handle_Close_begin. destruct (ph_ctrl h) as [c|] eqn:Ec; [|split_and!; [done..|lia]].
  unfold ctrls. simpl. rewrite Ec, !length_app, !Forall_app. simpl. split_and!; try done; try lia. naive_solver.
Qed.

(** Ending the close of a handle with at most one close pending. *)
Lemma close_end_agents a b d h id :
  Forall agent_up (ctrls h) → ph_ctrl h = None → ph_starting h = None → (length (ph_closing h) ≤ 1)%nat →
  let r := released id (Handle_Close_end (pred (length (ph_closing h))) a b d h) in
  ctrls r.1 = [] ∧ ph_spec r.1 = ph_spec h ∧
  r.2 = (λ _, MReleased id (negb (spec_Persistent (ph_spec h)))) <$> ctrls h.
Proof.
  unfold ctrls, Handle_Close_end. intros Hup Hc Hs Hl. rewrite Hc, Hs in *. simpl in *.
  destruct (ph_closing h) as [|c [|]] eqn:Ecl; simpl in *; [by rewrite Hc, Hs, Ecl| |lia].
  rewrite Forall_singleton in Hup. split_and!; [done..|].
  f_equal. f_equal. rewrite (close_ctrl_agent _ a b d _ Hup). by destruct (spec_Persistent _).
Qed.

(** ** Counting agents *)

Definition count (f : serve_event → bool) (evs : list serve_event) : nat := length (filter (λ e, f e = true) evs).
Definition is_spawned (id : string) (e : serve_event) : bool :=
  match e with SvSpawned i => String.eqb i id | _ => false end.
(** The handle of [id] was released; [killed]: its agent was terminated. *)
Definition is_released (id : string) (killed : bool) (e : serve_event) : bool :=
  match e with SvMgr (MReleased i k) => String.eqb i id && Bool.eqb k killed | _ => false end.
Definition is_killed (id : string) (e : serve_event) : bool :=
  match e with SvKilled i => String.eqb i id | _ => false end.
Definition spawned (id : string) (evs : list serve_event) : nat := count (is_spawned id) evs.
(** Agents terminated, by a failing start or by closing the handle. *)
Definition ended (id : string) (evs : list serve_event) : nat := (count (is_killed id) evs + count (is_released id true) evs)%nat.
(** Agents left running when their handle was released. *)
Definition left_running (id : string) (evs : list serve_event) : nat := count (is_released id false) evs.

Lemma count_app f l1 l2 : count f (l1 ++ l2) = (count f l1 + count f l2)%nat.
Proof. unfold count. by rewrite filter_app, length_app. Qed.
Lemma count_cons f e l : count f (e :: l) = ((if f e then 1 else 0) + count f l)%nat.
Proof. unfold count. rewrite filter_cons. destruct (f e); case_decide; done. Qed.
Lemma count_nil f : count f [] = 0%nat.
Proof. done. Qed.

(** Counts the events of a given list. *)
Ltac counts := unfold spawned, ended, left_running; cbn [app fmap list_fmap negb]; rewrite ?count_cons, ?count_nil; simpl; rewrite ?String.eqb_refl; simpl.

(** The process an event counts for. *)
Definition concerns (e : serve_event) : option string :=
  match e with SvSpawned i | SvKilled i | SvMgr (MReleased i _) => Some i | _ => None end.
Definition about (id : string) (es : list serve_event) : Prop := Forall (λ e, ∀ i, concerns e = Some i → i = id) es.

Lemma count_zero i es f :
  Forall (λ e, concerns e ≠ Some i) es →
  f ∈ [is_spawned i; is_killed i; is_released i true; is_released i false] → count f es = 0%nat.
Proof.
  intros Ha Hf. induction Ha as [|e es He Ha IH]; [done|]. rewrite count_cons, IH, Nat.add_0_r.
  destruct (f e) eqn:Ef; [|done]. exfalso. apply He.
  rewrite !elem_of_cons in Hf. destruct Hf as [->|[->|[->|[->|Hf%elem_of_nil]]]]; [..|done];
    destruct e as [[]|?|?|?|?]; simpl in *; try done; try (apply andb_true_iff in Ef as [Ef _]);
    by apply String.eqb_eq in Ef as ->.
Qed.

(** Events about other processes leave the counts of [i] alone. *)
Lemma counts_quiet i evs es :
  Forall (λ e, concerns e ≠ Some i) es →
  spawned i (evs ++ es) = spawned i evs ∧ ended i (evs ++ es) = ended i evs ∧
  left_running i (evs ++ es) = left_running i evs ∧ count (is_released i true) (evs ++ es) = count (is_released i true) evs.
Proof.
  intros Hq. unfold spawned, ended, left_running. rewrite !count_app.
  rewrite !(count_zero i es _ Hq), !Nat.add_0_r by set_solver. done.
Qed.

(** The books on process [id] with handle [h]. *)
Record books (id : string) (h : processHandle) (evs : list serve_event) : Prop := mkBooks {
  bk_up : Forall agent_up (ctrls h);
  bk_sum : spawned id evs = (ended id evs + left_running id evs + length (ctrls h))%nat;
  bk_kind : if spec_Persistent (ph_spec h) then count (is_released id true) evs = 0%nat else left_running id evs = 0%nat }.

Definition all_books (m : Manager) (evs : list serve_event) : Prop :=
  ∀ id h, m_handles m !! id = Some h → books id h evs.

(** Other processes' events change no books. *)
Lemma books_other id i h evs es : about id es → i ≠ id → books i h evs → books i h (evs ++ es).
Proof.
  intros Ha Hne [H1 H2 H3]. destruct (counts_quiet i evs es) as (E1 & E2 & E3 & E4).
  { eapply Forall_impl; [exact Ha|]. simpl. intros e He E. by apply Hne, He. }
  split; rewrite ?E1, ?E2, ?E3, ?E4; done.
Qed.

(** An update of one handle. *)
Lemma books_upd m m' evs es id h' :
  all_books m evs → m_handles m' = <[id := h']> (m_handles m) → about id es → books id h' (evs ++ es) → all_books m' (evs ++ es).
Proof.
  intros Hb Hm Ha Hh i h. rewrite Hm, lookup_insert. case_decide as E.
  - intros [= <-]. by subst.
  - intros Hi. apply (books_other id); auto.
Qed.

(** A step that accounts for the agents it adds and removes. *)
Lemma books_next id h h' evs es :
  books id h evs → ph_spec h' = ph_spec h → Forall agent_up (ctrls h') →
  (spawned id es + length (ctrls h) = ended id es + left_running id es + length (ctrls h'))%nat →
  (if spec_Persistent (ph_spec h) then count (is_released id true) es = 0%nat else left_running id es = 0%nat) →
  books id h' (evs ++ es).
Proof.
  intros [H1 H2 H3] Hs Hup Hsum Hk. unfold spawned, ended, left_running in *.
  split; [done| |]; unfold spawned, ended, left_running; rewrite ?Hs, !count_app; [lia|].
  destruct (spec_Persistent (ph_spec h)); lia.
Qed.

(** A step that keeps the agents of a handle and shows nothing that counts. *)
Lemma books_same id h h' evs es :
  books id h evs → same_agents h h' → Forall (λ e, concerns e = None) es → books id h' (evs ++ es).
Proof.
  intros [H1 H2 H3] Hs Hq. pose proof (same_agents_length _ _ Hs) as Hl. destruct Hs as (Hsp & _ & _ & _ & Hup).
  destruct (counts_quiet id evs es) as (E1 & E2 & E3 & E4).
  { eapply Forall_impl; [exact Hq|]. simpl. congruence. }
  split; rewrite ?E1, ?E2, ?E3, ?E4, ?Hsp, ?Hl; auto.
Qed.

(** ** The invariant of a run *)

(** What [Shutdown] does to one handle in its second loop. *)
Definition close_acts (id : string) : list shut_act := [ShutCloseBegin id; ShutCloseEnd id].

(** The handles are idle, and closed but for those the rest of the loop closes. *)
Definition to_close (hs : gmap string processHandle) (ids : list string) : Prop :=
  ∀ id h, hs !! id = Some h → ph_starting h = None ∧ ph_closing h = [] ∧ (id ∈ ids ∨ ph_ctrl h = None).
(** The same in the middle of closing the handle of [i]. *)
Definition mid_close (hs : gmap string processHandle) (i : string) (ids : list string) : Prop :=
  ∀ id h, hs !! id = Some h → ph_starting h = None ∧
    if decide (id = i) then ph_ctrl h = None ∧ (length (ph_closing h) ≤ 1)%nat
    else ph_closing h = [] ∧ (id ∈ ids ∨ ph_ctrl h = None).

Definition stopping (m : Manager) : Prop :=
  (∃ l1 l2, m_shutdown m = (ShutStop <$> l1) ++ (l2 ≫= close_acts) ∧ to_close (m_handles m) l2) ∨
  (∃ i l2, m_shutdown m = ShutCloseEnd i :: (l2 ≫= close_acts) ∧ mid_close (m_handles m) i l2).

Definition phase_ok (m : Manager) (p : serve_phase) : Prop :=
  match p with
  | PhStart ids begun =>
      m_closed m = false ∧
      ∀ id h, m_handles m !! id = Some h → ph_closing h = [] ∧ (ph_starting h ≠ None → begun = true ∧ head ids = Some id ∧ ph_ctrl h = None)
  | PhServing => m_closed m = false ∧ ∀ id h, m_handles m !! id = Some h → ph_closing h = [] ∧ ph_starting h = None
  | PhStopping => m_closed m = true ∧ stopping m
  | PhClosing | PhExited => ∀ id h, m_handles m !! id = Some h → ctrls h = []
  end.

Record serve_inv (st : serve) (evs : list serve_event) : Prop := mkServeInv {
  si_books : all_books (sv_mgr st) evs;
  si_phase : phase_ok (sv_mgr st) (sv_phase st);
  si_exit : sv_phase st = PhExited → last evs = Some (SvExit 0) }.

(** The manager moved, but its handles work with the same agents. *)
Record mgr_same (m m' : Manager) : Prop := mkMgrSame {
  ms_closed : m_closed m' = m_closed m;
  ms_shutdown : m_shutdown m' = m_shutdown m;
  ms_handles : ∀ id h', m_handles m' !! id = Some h' → ∃ h, m_handles m !! id = Some h ∧ same_agents h h' }.

Lemma mgr_same_refl m : mgr_same m m.
Proof. split; [done..|]. intros id h Hl. by exists h. Qed.

Lemma on_handle_same m id f :
  (∀ h, m_handles m !! id = Some h → same_agents h (f h).1) → mgr_same m (on_handle m id f).1.
Proof.
  intros Hf. unfold on_handle. destruct (m_handles m !! id) as [h|] eqn:E; [|by apply mgr_same_refl].
  specialize (Hf h eq_refl). destruct (f h) as [h1 es]. split; [done..|]. simpl in *. intros i h'.
  rewrite lookup_insert. case_decide as Hi; [subst; intros [= <-]; by eauto|]. intros Hh. by exists h'.
Qed.

Lemma to_close_same m m' ids : mgr_same m m' → to_close (m_handles m) ids → to_close (m_handles m') ids.
Proof.
  intros [_ _ Hh] Hc id h' Hl. destruct (Hh _ _ Hl) as (h & Hm & _ & H1 & H2 & H3 & _).
  destruct (Hc _ _ Hm) as (? & ? & ?). rewrite H3, H2, H1. done.
Qed.
Lemma mid_close_same m m' i ids : mgr_same m m' → mid_close (m_handles m) i ids → mid_close (m_handles m') i ids.
Proof.
  intros [_ _ Hh] Hc id h' Hl. destruct (Hh _ _ Hl) as (h & Hm & _ & H1 & H2 & H3 & _).
  specialize (Hc _ _ Hm). rewrite H3, H2. case_decide; rewrite H1; done.
Qed.

Lemma phase_same m m' p : mgr_same m m' → phase_ok m p → phase_ok m' p.
Proof.
  intros Hs. pose proof Hs as [Hc Hd Hh].
  destruct p as [ids begun| | | |]; simpl; rewrite ?Hc.
  - intros [? Hp]. split; [done|]. intros id h' Hl. destruct (Hh _ _ Hl) as (h & Hm & _ & H1 & H2 & H3 & _).
    destruct (Hp _ _ Hm) as [? Hst]. rewrite H3. split; [done|]. intros Hn. rewrite H1. apply Hst. by rewrite <- H2.
  - intros [? Hp]. split; [done|]. intros id h' Hl. destruct (Hh _ _ Hl) as (h & Hm & _ & _ & H2 & H3 & _). rewrite H3, H2. by eapply Hp.
  - intros [? [(l1 & l2 & E & Ht)|(i & l2 & E & Ht)]]; (split; [done|]); [left; exists l1, l2|right; exists i, l2]; rewrite Hd;
      eauto using to_close_same, mid_close_same.
  - intros Hp id h' Hl. destruct (Hh _ _ Hl) as (h & Hm & Ha). apply nil_length_inv. rewrite (same_agents_length _ _ Ha). by rewrite (Hp _ _ Hm).
  - intros Hp id h' Hl. destruct (Hh _ _ Hl) as (h & Hm & Ha). apply nil_length_inv. rewrite (same_agents_length _ _ Ha). by rewrite (Hp _ _ Hm).
Qed.

Lemma all_books_same m m' evs es :
  mgr_same m m' → Forall (λ e, concerns e = None) es → all_books m evs → all_books m' (evs ++ es).
Proof.
  intros [_ _ Hh] Hq Hb id h' Hl. destruct (Hh _ _ Hl) as (h & Hm & Ha). eapply books_same; eauto.
Qed.

Lemma serve_inv_same st m' p es evs :
  serve_inv st evs → mgr_same (sv_mgr st) m' → Forall (λ e, concerns e = None) es →
  (phase_ok (sv_mgr st) (sv_phase st) → phase_ok (sv_mgr st) p) → (p = PhExited → last (evs ++ es) = Some (SvExit 0)) →
  ∀ ctx, serve_inv (mkServe m' p ctx) (evs ++ es).
Proof.
  intros [Hb Hp He] Hs Hq Hpp Hx ctx. split; simpl; [by eapply all_books_same|eapply phase_same; eauto|done].
Qed.

(** ** Every step keeps it *)

Lemma on_handle_events m id f (P : mgr_event → Prop) :
  (∀ h, m_handles m !! id = Some h → Forall P (f h).2) → Forall P (on_handle m id f).2.
Proof.
  intros Hf. unfold on_handle. destruct (m_handles m !! id) as [h|]; [|done].
  specialize (Hf h eq_refl). by destruct (f h).
Qed.

Lemma env_same m op :
  env_ok m op = true →
  mgr_same m (mgr_step m op).1 ∧ Forall (λ e, concerns e = None) (mgr_events (mgr_step m op).2).
Proof.
  intros Hok. unfold mgr_events. rewrite Forall_fmap. unfold compose. unfold mgr_step.
  destruct (lock_waits m op); [split; [apply mgr_same_refl|done]|]. destruct op; try done; cbn [mgr_act].
  - split; [|by apply on_handle_events]. apply on_handle_same. intros h _. apply (live_agents h false op).
  - split; [|by apply on_handle_events]. apply on_handle_same. intros h _. apply (live_agents h true op).
  - split; [|apply on_handle_events; intros; by apply Forall_singleton]. apply on_handle_same. intros h _. apply Handle_Stop_agents.
  - unfold observe_step. destruct (m_handles m !! id) as [h|]; [|split; [apply mgr_same_refl|done]].
    destruct (ph_starting h), (m_ended m); try (split; [apply mgr_same_refl|done]).
    destruct (Manager.observe _ _ _ _) as [s' es]. split; [by split; [..|apply (mgr_same_refl m)]|].
    simpl. rewrite Forall_fmap. by apply Forall_true.
Qed.

Lemma serve_start_inv st evs id ids s os rw wal wf :
  serve_inv st evs → sv_phase st = PhStart (id :: ids) false →
  let r := serve_start st id ids s os rw wal wf in serve_inv r.1 (evs ++ r.2).
Proof.
  intros H Hph. pose proof H as [Hb Hp Hx]. unfold serve_start. rewrite Hph in Hp. destruct Hp as [Hcl Hh].
  destruct (m_handles (sv_mgr st) !! id) as [h|] eqn:E; [|by rewrite app_nil_r].
  destruct (Hb _ _ E) as [Hup Hsum Hkind]. destruct (Hh _ _ E) as [Hnc Hns].
  assert (ph_starting h = None) as Hs0 by (destruct (ph_starting h); [by destruct Hns|done]).
  destruct (Handle_Start_begin _ _ _ _ _ _ _ h) as [[[h' r] c] es] eqn:Eb.
  apply (start_begin_agents _ _ _ _ _ _ _ _ _ _ _ _ id) in Eb as Ha.
  destruct r as [[]|e]; simpl.
  - destruct Ha as (c' & Hc' & ->). split; simpl; [|split; [done|]|done].
    + eapply books_upd; [done|done|by apply Forall_singleton; intros ? [= <-]|].
      apply (books_next id h); [done|done|unfold ctrls; simpl; rewrite Hnc; by apply Forall_singleton| |].
      * unfold Handle_Start_begin in Eb. destruct (ph_ctrl h) eqn:Ec; [done|].
        unfold ctrls. rewrite Ec, Hs0, Hnc. by counts.
      * counts. by destruct (spec_Persistent _).
    + intros i hi. rewrite lookup_insert. case_decide as Hi; [intros [= <-]; by subst|].
      intros Hl. destruct (Hh _ _ Hl) as [? Hn]. split; [done|]. intros Hs. by destruct (Hn Hs).
  - destruct Ha as [-> Hd]. split; simpl; [|split; [done|]|done].
    + eapply books_upd; [done|done| |].
      * destruct Hd as [-> | ->]; repeat constructor; simpl; congruence.
      * apply (books_next id h); [done|done|done| |]; destruct Hd as [-> | ->]; counts;
          try lia; by destruct (spec_Persistent _).
    + intros i hi. rewrite lookup_insert. case_decide as Hi; [intros [= <-]; subst; split; [done|congruence]|].
      intros Hl. destruct (Hh _ _ Hl) as [? Hn]. split; [done|]. intros Hs. by destruct (Hn Hs).
Qed.

Lemma serve_started_inv st evs id ids s k a b d :
  serve_inv st evs → sv_phase st = PhStart (id :: ids) true →
  let r := serve_started st id ids s k a b d in serve_inv r.1 (evs ++ r.2).
Proof.
  intros H Hph. pose proof H as [Hb Hp Hx]. unfold serve_started. rewrite Hph in Hp. destruct Hp as [Hcl Hh].
  destruct (m_handles (sv_mgr st) !! id) as [h|] eqn:E; [|by rewrite app_nil_r].
  pose proof (Hb _ _ E) as Hbk. destruct (Hh _ _ E) as [Hnc _].
  destruct (Handle_Start_end s k a b d h) as [[[[h' r] c] es]|] eqn:Ee; [|by rewrite app_nil_r].
  destruct (ph_starting h) as [c0|] eqn:Es; [|by unfold Handle_Start_end in Ee; rewrite Es in Ee].
  assert (agent_up c0) as Hc0.
  { destruct Hbk as [Hup _ _]. unfold ctrls in Hup. rewrite Es, !Forall_app in Hup. destruct Hup as (_ & Hup & _).
    by inversion Hup. }
  assert (∀ i hi h1, ph_closing h1 = [] → ph_starting h1 = None → <[id := h1]> (m_handles (sv_mgr st)) !! i = Some hi →
            ph_closing hi = [] ∧ (ph_starting hi ≠ None → false = true ∧ head ids = Some i ∧ ph_ctrl hi = None)) as Hnext.
  { intros i hi h1 H1 H2. rewrite lookup_insert. case_decide as Hi; [intros [= <-]; by rewrite H2|].
    intros Hl. destruct (Hh _ _ Hl) as [? Hn]. split; [done|]. intros Hs. by destruct (Hn Hs) as (_ & [= ->] & _). }
  apply (start_end_agents _ _ _ _ _ _ c0 _ _ _ _ id) in Ee; [|done..].
  destruct r as [[]|e]; simpl.
  - destruct Ee as (c' & Hc' & ->). split; simpl; [|split; [done|intros i hi; by apply Hnext]|done].
    eapply books_upd; [done|done|by constructor|].
    apply (books_next id h); [done|done| | |by destruct (spec_Persistent _)].
    + unfold ctrls; simpl; rewrite Hnc; by apply Forall_singleton.
    + destruct (Hh _ _ E) as [_ Hc]. unfold ctrls. rewrite Es, (proj2 (proj2 (Hc ltac:(by rewrite Es)))), Hnc. by counts.
  - destruct Ee as [-> Hd]. split; simpl; [|split; [done|intros i hi; by apply Hnext]|done]. rewrite Hd.
    eapply books_upd; [done|done| |].
    + repeat constructor; simpl; congruence.
    + apply (books_next id h); [done|done| | |counts; by destruct (spec_Persistent _)].
      * destruct Hbk as [Hup _ _]. unfold ctrls in *. simpl. rewrite !Forall_app in *. naive_solver.
      * unfold ctrls. simpl. rewrite Es, !length_app. counts. lia.
Qed.

(** The manager with the rest of the shutdown loops ahead of it. *)
Definition at_acts (m : Manager) (acts : list shut_act) : Manager := upd_shut m (m_closed m) acts (m_ended m) (m_bus m).

Lemma all_books_acts m evs acts : all_books m evs → all_books (at_acts m acts) evs.
Proof. done. Qed.

(** One handle of the second loop, first and second half. *)
Lemma close_begin_step m evs i l2 acts :
  all_books m evs → to_close (m_handles m) (i :: l2) → m_shutdown m = ShutCloseEnd i :: acts →
  let m' := (on_handle m i (λ h, (Handle_Close_begin h, []))).1 in
  all_books m' (evs ++ []) ∧ m_closed m' = m_closed m ∧ m_shutdown m' = m_shutdown m ∧ mid_close (m_handles m') i l2.
Proof.
  intros Hb Hc Ha. unfold on_handle. destruct (m_handles m !! i) as [h|] eqn:E; simpl.
  - destruct (close_begin_agents h) as (H1 & H2 & H3 & H4 & H5 & H6). destruct (Hc _ _ E) as (Hs & Hcl & _).
    split_and!; [|done..|].
    + eapply books_upd; [done|done|by constructor|]. pose proof (Hb _ _ E) as Hbk.
      apply (books_next i h); [done|done|apply H2, Hbk|by rewrite H1|by destruct (spec_Persistent _)].
    + intros id hi. rewrite lookup_insert. case_decide as Hi; [intros [= <-]; subst|intros Hl].
      * rewrite decide_True by done. rewrite H5, H4, Hcl in *. by simpl in H6.
      * rewrite decide_False by done. destruct (Hc _ _ Hl) as (? & ? & [Hin| ?]); split; auto.
        apply elem_of_cons in Hin as [->|]; [done|auto].
  - rewrite app_nil_r. split_and!; try done. intros id hi Hl. destruct (Hc _ _ Hl) as (? & ? & Hin).
    case_decide; [subst; congruence|]. split_and!; try done. destruct Hin as [[->|]%elem_of_cons|]; [congruence|auto..].
Qed.

Lemma close_end_step m evs a b d i l2 :
  all_books m evs → mid_close (m_handles m) i l2 →
  let r := on_handle m i (λ h, released i (Handle_Close_end (pred (length (ph_closing h))) a b d h)) in
  all_books r.1 (evs ++ mgr_events r.2) ∧ m_closed r.1 = m_closed m ∧ m_shutdown r.1 = m_shutdown m ∧ to_close (m_handles r.1) l2.
Proof.
  intros Hb Hc. unfold on_handle. destruct (m_handles m !! i) as [h|] eqn:E.
  - pose proof (Hb _ _ E) as Hbk. pose proof (Hc _ _ E) as (Hs & Hd). rewrite decide_True in Hd by done. destruct Hd as [Hctl Hl].
    destruct (close_end_agents a b d h i (bk_up _ _ _ Hbk) Hctl Hs Hl) as (H1 & H2 & H3).
    destruct (released i _) as [h' es] eqn:Er. cbn [fst snd] in H1, H2, H3. simpl. subst es.
    split_and!; [|done..|].
    + eapply books_upd; [done|done| |].
      * unfold about, mgr_events. rewrite !Forall_fmap. apply Forall_true. simpl. congruence.
      * assert (ctrls h = [] ∨ ∃ c, ctrls h = [c]) as Hcs.
        { unfold ctrls. rewrite Hctl, Hs. simpl. destruct (ph_closing h) as [|c [|]]; [by left|right; by eexists|simpl in Hl; lia]. }
        apply (books_next i h); [done|done|by rewrite H1| |]; rewrite ?H1; unfold mgr_events;
          destruct (spec_Persistent (ph_spec h)), Hcs as [-> |[c ->]]; by counts.
    + intros id hi. rewrite lookup_insert. case_decide as Hi; [intros [= <-]; subst|intros Hlk].
      * unfold ctrls in H1. apply app_eq_nil in H1 as [H1 H4]. apply app_eq_nil in H4 as [H4 H5].
        destruct (ph_ctrl h'), (ph_starting h'); try done. auto.
      * specialize (Hc _ _ Hlk). rewrite decide_False in Hc by done. naive_solver.
  - simpl. rewrite app_nil_r. split_and!; try done. intros id hi Hl. specialize (Hc _ _ Hl).
    rewrite decide_False in Hc by congruence. naive_solver.
Qed.

Lemma shut_step_inv st evs s a b d :
  serve_inv st evs → sv_phase st = PhStopping →
  let '(m', es) := Shutdown_step s a b d (sv_mgr st) in serve_inv (with_phase st m' PhStopping) (evs ++ mgr_events es).
Proof.
  intros [Hb Hp Hx] Hph. rewrite Hph in Hp. destruct Hp as [Hcl Hst]. unfold Shutdown_step.
  destruct Hst as [(l1 & l2 & Ha & Hc)|(i & l2 & Ha & Hc)]; rewrite Ha.
  - destruct l1 as [|i l1]; [destruct l2 as [|i l2]|]; simpl.
    + rewrite app_nil_r. split; simpl; [done| |done]. split; [done|]. left. by exists [], [].
    + destruct (close_begin_step (at_acts (sv_mgr st) (ShutCloseEnd i :: (l2 ≫= close_acts))) evs i l2 (l2 ≫= close_acts))
        as (H1 & H2 & H3 & H4); [done|done|done|]. unfold at_acts in *.
      destruct (on_handle _ i _) as [m' es] eqn:Eo. simpl in *.
      assert (es = []) as -> by (unfold on_handle in Eo; repeat case_match; by simplify_eq).
      split; simpl; [done| |done]. split; [by rewrite H2|]. right. exists i, l2. by rewrite H3.
    + match goal with |- context [on_handle ?m0 i ?f] => set (m1 := m0); set (f1 := f);
        pose proof (on_handle_same m1 i f1) as Hs; pose proof (on_handle_events m1 i f1 (λ e, concerns (SvMgr e) = None)) as He;
        destruct (on_handle m1 i f1) as [m' es] end. simpl in Hs, He.
      assert (∀ h, same_agents h (f1 h).1 ∧ Forall (λ e, concerns (SvMgr e) = None) (f1 h).2) as Hf.
      { intros h. unfold f1. pose proof (Handle_Stop_agents s h). destruct (Handle_Stop s h) as [[h' r] x]. split; [done|by apply Forall_singleton]. }
      specialize (Hs (λ h _, proj1 (Hf h))). specialize (He (λ h _, proj2 (Hf h))).
      split; simpl; [|split|done].
      * eapply all_books_same; [exact Hs| |done]. unfold mgr_events. by rewrite Forall_fmap.
      * by rewrite (ms_closed _ _ Hs).
      * left. exists l1, l2. split; [by rewrite (ms_shutdown _ _ Hs)|]. by apply (to_close_same m1).
  - destruct (close_end_step (at_acts (sv_mgr st) (l2 ≫= close_acts)) evs a b d i l2) as (H1 & H2 & H3 & H4); [done|done|].
    unfold at_acts in *. destruct (on_handle _ i _) as [m' es]. simpl in *.
    split; simpl; [done| |done]. split; [by rewrite H2|]. left. exists [], l2. by rewrite H3.
Qed.

Lemma shutdown_begin_inv st evs order :
  serve_inv st evs → sv_phase st = PhServing → list_to_set order =@{gset string} dom (m_handles (sv_mgr st)) →
  serve_inv (with_phase st (Shutdown_begin order (sv_mgr st)) PhStopping) (evs ++ []).
Proof.
  intros [Hb Hp Hx] Hph Ho. rewrite Hph in Hp. destruct Hp as [Hcl Hh]. rewrite app_nil_r. unfold Shutdown_begin. rewrite Hcl.
  split; simpl; [done| |done]. split; [done|]. left. eexists _, order. split; [done|]. intros id h Hl. simpl in Hl.
  destruct (Hh _ _ Hl). split_and!; [done..|]. left. assert (id ∈ dom (m_handles (sv_mgr st))) as Hd by (by eapply elem_of_dom_2).
  rewrite <- Ho in Hd. by apply elem_of_list_to_set in Hd.
Qed.

Lemma shutdown_done m : stopping m → m_shutdown m = [] → ∀ id h, m_handles m !! id = Some h → ctrls h = [].
Proof.
  intros [(l1 & l2 & E & Hc)|(i & l2 & E & Hc)] Hn id h Hl; rewrite E in Hn; [|done].
  apply app_eq_nil in Hn as [_ Hn]. destruct l2 as [|]; [|done]. destruct (Hc _ _ Hl) as (H1 & H2 & [H3|H3]); [by apply elem_of_nil in H3|].
  unfold ctrls. by rewrite H1, H2, H3.
Qed.

Lemma serve_step_inv st evs op : serve_inv st evs → serve_inv (serve_step st op).1 (evs ++ (serve_step st op).2).
Proof.
  intros H. unfold serve_step. pose proof H as [Hb Hp Hx].
  assert (serve_inv st (evs ++ [])) as H0 by (by rewrite app_nil_r).
  assert (∀ p ctx, sv_phase st = p → serve_inv (mkServe (sv_mgr st) p ctx) (evs ++ [])) as Hsig.
  { intros p ctx <-. apply (serve_inv_same st); [done|apply mgr_same_refl|by constructor|done|by rewrite app_nil_r]. }
  assert (∀ p o, sv_phase st = p → p ≠ PhExited → serve_inv
    (if env_ok (sv_mgr st) o then let '(m', es) := mgr_step (sv_mgr st) o in (with_phase st m' p, mgr_events es) else (st, [])).1
    (evs ++ (if env_ok (sv_mgr st) o then let '(m', es) := mgr_step (sv_mgr st) o in (with_phase st m' p, mgr_events es) else (st, [])).2)) as Henv.
  { intros p o <- Hne. destruct (env_ok _ o) eqn:Eo; [|done]. destruct (env_same _ _ Eo) as [Hs Hq].
    destruct (mgr_step _ o) as [m' es]. by apply (serve_inv_same st). }
  destruct (sv_phase st) as [[|id ids] [|]| | | |] eqn:Ep; destruct op; try exact H0; try (by apply Hsig); try (by apply Henv).
  all: cbn [fst snd].
  1,2: apply (serve_inv_same st); [done|apply mgr_same_refl|by apply Forall_singleton| |done]; intros _; destruct Hp as [? Hh];
    split; [done|]; intros i h Hl; destruct (Hh _ _ Hl) as [? Hs]; split; [done|];
    destruct (ph_starting h); [by destruct Hs as (_ & [=] & _)|done].
  - destruct k; [| |destruct (sv_ctx st); [|done]]; by apply serve_started_inv.
  - by apply serve_start_inv.
  - destruct (sv_ctx st && _) eqn:E; [|done]. apply andb_true_iff in E as [_ [_ E]%bool_decide_eq_true].
    by apply shutdown_begin_inv.
  - pose proof (shut_step_inv st evs s a b d H Ep) as Hs. by destruct (Shutdown_step s a b d (sv_mgr st)).
  - destruct (m_shutdown (sv_mgr st)) eqn:E; [|done]. rewrite app_nil_r. destruct Hp as [Hcl Hst].
    unfold Shutdown_end. rewrite E, Hcl. split; simpl; [done|by apply shutdown_done|done].
  - apply (serve_inv_same st); [done|apply mgr_same_refl|by apply Forall_singleton| |intros _; by rewrite last_snoc]. by rewrite Ep.
Qed.

Lemma serve_run_inv st evs ops : serve_inv st evs → let '(st', es) := run_trace serve_step st ops in serve_inv st' (evs ++ es).
Proof.
  intros H. apply (run_trace_inv serve_step serve_inv (λ _, True) (λ st evs op H _, serve_step_inv st evs op H) ops st evs H).
  by apply Forall_true.
Qed.

Lemma serve_init_inv m specs :
  m_closed m = false → (∀ id h, m_handles m !! id = Some h → ctrls h = []) → serve_inv (serve_init m specs) [].
Proof.
  intros Hcl Hn. split; simpl; [|split; [done|]|done].
  - intros id h Hl. split; [by rewrite (Hn _ _ Hl)|by rewrite (Hn _ _ Hl)|by destruct (spec_Persistent _)].
  - intros id h Hl. specialize (Hn _ _ Hl). unfold ctrls in Hn. apply app_eq_nil in Hn as [_ Hn]. apply app_eq_nil in Hn as [Hs Hc].
    split; [done|]. by destruct (ph_starting h).
Qed.

(** Registration leaves a manager of fresh handles. *)
Lemma register_all_fresh m specs :
  m_closed m = false → (∀ id h, m_handles m !! id = Some h → ctrls h = []) →
  m_closed (register_all m specs).1 = false ∧ ∀ id h, m_handles (register_all m specs).1 !! id = Some h → ctrls h = [].
Proof.
  revert m. induction specs as [|sp specs IH]; intros m Hcl Hn; [done|]. cbn [register_all].
  assert (m_closed (Register m sp).1 = false ∧ ∀ id h, m_handles (Register m sp).1 !! id = Some h → ctrls h = []) as [H1 H2].
  { unfold Register. repeat case_match; try done. split; [done|]. simpl. intros id h. rewrite lookup_insert.
    case_decide; [intros [= <-]; done|apply Hn]. }
  destruct (Register m sp) as [m' []]; simpl in *; [by apply IH|done].
Qed.

Lemma run_serving_fresh load self_dir home cache server hint args m logs sock hint' :
  runCommand load self_dir home cache server hint args = RunServing m logs sock hint' →
  m_closed m = false ∧ ∀ id h, m_handles m !! id = Some h → ctrls h = [].
Proof.
  unfold runCommand. destruct (config_path args) as [path|]; [|done]. destruct (load path) as [cfg|]; [|done].
  destruct (String.eqb _ ""); [done|]. destruct (run_options self_dir cfg) as [o l].
  destruct (NewManager home o) as [m0|] eqn:En; [|done].
  assert (m_closed m0 = false ∧ ∀ id h, m_handles m0 !! id = Some h → ctrls h = []) as [H1 H2].
  { unfold NewManager in En. destruct (String.eqb _ ""); [done|]. destruct (String.eqb _ ""); [done|].
    injection En as <-. split; [done|]. simpl. intros id h. by rewrite lookup_empty. }
  pose proof (register_all_fresh m0 (all_processes cfg) H1 H2) as Hr.
  destruct (register_all m0 (all_processes cfg)) as [m' []]; [done|]. destruct server; [|done]. intros [= <- _ _ _]. exact Hr.
Qed.

(** The shutdown loops take one act at a time. *)
Lemma Shutdown_step_acts s a b d m :
  m_shutdown (Shutdown_step s a b d m).1 = tail (m_shutdown m) ∧ m_closed (Shutdown_step s a b d m).1 = m_closed m.
Proof.
  unfold Shutdown_step. destruct (m_shutdown m) as [|act acts] eqn:E; [done|].
  set (m1 := upd_shut _ _ _ _ _).
  assert (∀ id f, m_shutdown (on_handle m1 id f).1 = acts ∧ m_closed (on_handle m1 id f).1 = m_closed m) as Hon.
  { intros id f. unfold on_handle. destruct (m_handles m1 !! id) as [h|]; [by destruct (f h)|done]. }
  destruct act; apply Hon.
Qed.

Lemma shut_steps s a b d n st :
  sv_phase st = PhStopping → length (m_shutdown (sv_mgr st)) = n →
  let st' := (run_trace serve_step st (replicate n (SvShutStep s a b d))).1 in
  sv_phase st' = PhStopping ∧ m_shutdown (sv_mgr st') = [].
Proof.
  revert st. induction n as [|n IH]; intros st Hp Hl; simpl; [split; [done|by apply nil_length_inv]|].
  assert (serve_step st (SvShutStep s a b d) =
    let '(m', es) := Shutdown_step s a b d (sv_mgr st) in (with_phase st m' PhStopping, mgr_events es)) as ->
    by (unfold serve_step; by rewrite Hp).
  destruct (Shutdown_step_acts s a b d (sv_mgr st)) as [Ha _].
  destruct (Shutdown_step s a b d (sv_mgr st)) as [m' es]. simpl in Ha.
  specialize (IH (with_phase st m' PhStopping) eq_refl). simpl in IH. rewrite Ha in IH.
  specialize (IH ltac:(destruct (m_shutdown (sv_mgr st)); simpl in *; lia)).
  destruct (run_trace serve_step (with_phase st m' PhStopping) _). done.
Qed.

(** Once [run] serves and a signal arrived, a bounded number of steps exits. *)
Lemma run_exits_after_signal (st : serve) (order : list string) (s : enq_sched) (a b d : bool)
    (Hserving : sv_phase st = PhServing) (Hsignal : sv_ctx st = true) (Hopen : m_closed (sv_mgr st) = false)
    (Horder : order ≡ₚ elements (dom (m_handles (sv_mgr st)))) :
  ∃ n, (n ≤ 3 * size (m_handles (sv_mgr st)))%nat ∧
    sv_phase (run_trace serve_step st (SvShutdown order :: replicate n (SvShutStep s a b d) ++ [SvShutEnd; SvServerClosed])).1 = PhExited.
Proof.
  set (m1 := Shutdown_begin order (sv_mgr st)). exists (length (m_shutdown m1)). split.
  - unfold m1, Shutdown_begin. rewrite Hopen. simpl. rewrite length_app, length_fmap.
    pose proof (length_filter (λ id, is_persistent (sv_mgr st) id = false) order).
    assert (length (order ≫= λ id, [ShutCloseBegin id; ShutCloseEnd id]) = (2 * length order)%nat) as ->
      by (clear; induction order as [|x l IH]; [done|rewrite bind_cons, length_app, IH; simpl; lia]).
    assert (length order = size (m_handles (sv_mgr st))) by (by rewrite Horder, <- size_dom). lia.
  - cbn [run_trace]. unfold serve_step at 1. rewrite Hserving, Hsignal, bool_decide_true; cbn [andb].
    2:{ split; [rewrite Horder; apply NoDup_elements|]. rewrite Horder. by rewrite list_to_set_elements_L. }
    rewrite run_trace_app. pose proof (shut_steps s a b d (length (m_shutdown m1)) (with_phase st m1 PhStopping) eq_refl eq_refl) as [H1 H2].
    fold m1. destruct (run_trace serve_step (with_phase st m1 PhStopping) _) as [st2 es]. simpl in H1, H2.
    cbn [run_trace]. unfold serve_step at 1. rewrite H1, H2. done.
Qed.
(** C13: What [cliwrap run] does to its agents.  From a configuration that is
    served, in every interleaving of the starts, the messages of the agents,
    disconnects, the watcher, stop requests and the shutdown: the agents spawned
    for a process are exactly those terminated, those left running when their
    handle was released, and those a handle still holds; only agents of
    persistent processes are ever left running, and closing their handle never
    terminates them; and when the program exits no handle holds an agent.  So
    at its exit every agent of a process that is not persistent has been
    terminated, whether its start failed or succeeded.  And the exit comes: once
    [run] serves and a signal arrived, at most three steps per registered
    process and three more lead to it, whatever order the handles are listed in
    and however the closes go (what a stop waits for is bounded by the context
    of the shutdown). *)
Theorem run_accounts_for_agents load self_dir home cache hint args path cfg m logs sock hint' (ops : list serve_op)
    (Hpath : config_path args = Some path) (Hload : load path = Some cfg)
    (Hrun : runCommand load self_dir home cache true hint args = RunServing m logs sock hint') :
  let '(st, evs) := run_trace serve_step (serve_init m (all_processes cfg)) ops in
  (∀ id h, m_handles (sv_mgr st) !! id = Some h →
     spawned id evs = (ended id evs + left_running id evs + length (ctrls h))%nat ∧
     (spec_Persistent (ph_spec h) = false → left_running id evs = 0%nat) ∧
     (spec_Persistent (ph_spec h) = true → count (is_released id true) evs = 0%nat) ∧
     (sv_phase st = PhExited → ctrls h = [])) ∧
  (sv_phase st = PhExited → last evs = Some (SvExit 0)) ∧
  (sv_phase st = PhServing → sv_ctx st = true → ∀ order s a b d, order ≡ₚ elements (dom (m_handles (sv_mgr st))) →
     ∃ n, (n ≤ 3 * size (m_handles (sv_mgr st)))%nat ∧
       sv_phase (run_trace serve_step st (SvShutdown order :: replicate n (SvShutStep s a b d) ++ [SvShutEnd; SvServerClosed])).1 = PhExited).
Proof.
  destruct (run_serving_fresh _ _ _ _ _ _ _ _ _ _ _ Hrun) as [Hcl Hn].
  pose proof (serve_run_inv _ [] ops (serve_init_inv m (all_processes cfg) Hcl Hn)) as H.
  destruct (run_trace serve_step _ ops) as [st evs]. destruct H as [Hb Hp Hx]. split; [|split; [done|]].
  2:{ intros Hsv Hc order s a b d Ho. apply run_exits_after_signal; [done|done| |done]. rewrite Hsv in Hp. by destruct Hp. }
  intros id h Hl. destruct (Hb _ _ Hl) as [_ Hs Hk]. split_and!; [done| | |].
  - intros Hper. by rewrite Hper in Hk.
  - intros Hper. by rewrite Hper in Hk.
  - intros He. rewrite He in Hp. by apply (Hp id).
Qed.

End Serve.

(** ** kill: cmd_kill.go *)

Definition kill_flags : list flag := [mkFlag "persistent-dir" "persistentDir" KString; mkFlag "timeout" "timeout" KDuration].

(** What the system and the agent answer.  [ka_files]: the files of a session
    directory; [ka_before]: what the agent sends before the stop; [ka_turns]: for
    each turn of the wait, what the agent sends before it and whether the
    context has ended; [ka_acked]: an awaited acknowledgement comes in time. *)
Record kill_answers := mkKillAnswers {
  ka_files : string → session_files; ka_alive : Z → bool; ka_dial : bool + (Reader * Writer);
  ka_wal : option bytes; ka_walFails : bool; ka_sched : enq_sched; ka_before : list live_op; ka_acked : bool;
  ka_turns : list (bool * list live_op); ka_close : bool * bool * bool }.

Definition is_terminal (s : State) : bool := bool_decide (s = StateStopped ∨ s = StateCrashed ∨ s = StateFailed).

Section Kill.
Context `{!Codec HelloPayload, !Codec StartChildPayload, !Codec StopChildPayload,
          !Codec CapabilityReply, !Codec ChildStartedPayload, !Codec ChildExitedPayload,
          !Codec ChildErrorPayload, !Codec LogChunkPayload, !Codec Message.PTYData,
          !Codec PTYRingDumpPayload, !Codec AckPayload}.

(** The wait of [Stop] on a persistent handle, with the agent's messages. *)
Fixpoint wait_child (turns : list (bool * list live_op)) (c : Controller) : Controller * stop_wait :=
  match turns with
  | [] => (c, StopWaitTimeout)
  | (ctx_done, ops) :: turns' =>
      let c' := foldl live_step c ops in
      if ctx_done then (c', StopWaitCtx) else if is_terminal (ct_state c') then (c', StopWaitDone) else wait_child turns' c'
  end.

(** [h.Stop(ctx)], with whether it returned nil. *)
Definition stop_handle (a : kill_answers) (h : processHandle) : processHandle * bool :=
  match Handle_Stop (ka_sched a) h with
  | (h', Err _, _) => (h', false)
  | (h', Ok r, _) =>
      let sent := match r with StopDone None => true | StopDone (Some _) => false | StopWaiting _ _ => ka_acked a end in
      match ph_ctrl h' with
      | Some c =>
          if negb sent then (h', false)
          else if spec_Persistent (ph_spec h') then
            let '(c', w) := wait_child (ka_turns a) c in
            (set_ctrl h' (Some c') (ph_starting h') (ph_closing h'), match w with StopWaitDone => true | _ => false end)
          else (h', true)
      | None => (h', false)
      end
  end.

(** [h.Close(ctx)]: the handle, what was released, and whether it returned nil. *)
Definition close_handle (a : kill_answers) (id : string) (h : processHandle) : processHandle * list mgr_event * bool :=
  let '(ctx_first, fired, pick) := ka_close a in
  let ok := match ph_ctrl h with
            | Some c => match ct_closed c, ct_conn c with
                        | false, Some cn => match Conn.Close ctx_first fired pick cn with Some (_, CloseOk, _) => true | _ => false end
                        | _, _ => true
                        end
            | None => true
            end in
  let h1 := Handle_Close_begin h in
  (released id (Handle_Close_end (pred (length (ph_closing h1))) ctx_first fired pick h1), ok).

(** The deferred [mgr.Shutdown], to its end. *)
Definition shutdown_all (a : kill_answers) (m : Manager) : Manager * list mgr_event :=
  let '(x, y, z) := ka_close a in
  let m1 := Shutdown_begin (elements (dom (m_handles m))) m in
  let '(m2, evs) := run_trace (λ m (_ : unit), Shutdown_step (ka_sched a) x y z m) m1 (replicate (length (m_shutdown m1)) ()) in
  (Shutdown_end m2, evs).

(** [killCommand] from the manager on; [id] is the argument. *)
Definition kill_session (a : kill_answers) (m : Manager) (id : string) : list cli_io * Z * Manager * list mgr_event :=
  let connecting := POut ("Connecting to session " +:+ id +:+ "...") in
  let files := ka_files a (path_join [m_persistentDir m; id]) in
  let exit io code m evs := let '(m', evs') := shutdown_all a m in (io, code, m', evs ++ evs') in
  match Reattach m files (ka_alive a) (ka_dial a) (ka_wal a) (ka_walFails a) with
  | (m1, Err ErrAgentDead) =>
      exit [connecting; PErr ("Session " +:+ id +:+ " is stale (agent dead). Run `rm -rf <dir>/" +:+ id +:+ "/` to clean up.") None] 1 m1 []
  | (m1, Err _) => exit [connecting; PErr "cliwrap kill" None] 1 m1 []
  | (m1, Ok _) =>
      let key := match sf_meta files with Some meta => pm_ID meta | None => id end in
      match m_handles m1 !! key with
      | None => exit [connecting] 1 m1 []
      | Some h =>
          let h0 := set_ctrl h ((λ c, foldl live_step c (ka_before a)) <$> ph_ctrl h) (ph_starting h) (ph_closing h) in
          let '(h1, stopped) := stop_handle a h0 in
          let '(h2, evs, closed) := close_handle a key h1 in
          let m2 := upd_handles m1 (<[key := h2]> (m_handles m1)) in
          if negb stopped then exit [connecting; POut "Stopping child..."; PErr "cliwrap kill: stop" None] 1 m2 evs
          else if negb closed then exit [connecting; POut "Stopping child..."; PErr "cliwrap kill: close" None] 1 m2 evs
          else exit [connecting; POut "Stopping child..."; POut "Cleanup complete."] 0 m2 evs
      end
  end.

(** [envdir], [envagent]: CLIWRAP_PERSISTENT_DIR and CLIWRAP_AGENT_PATH; the
    manager after it, if one was made. *)
Definition killCommand (a : kill_answers) (home tempdir envdir envagent : string) (args : list string)
    : list cli_io * Z * option (Manager * list mgr_event) :=
  match parse_flags kill_flags args with
  | Err _ => ([], 2, None)
  | Ok (set, [id]) =>
      let override := get_string set "persistentDir" "" in
      let pdir := if String.eqb override "" then envdir else override in
      let agent := if String.eqb envagent "" then "/usr/bin/true" else envagent in
      let o := WithRuntimeDir (path_join [tempdir; "cliwrap-kill"]) (WithAgentPath agent no_options) in
      match NewManager home (if String.eqb pdir "" then o else WithPersistentDir pdir o) with
      | Err _ => ([PErr "cliwrap kill" None], 1, None)
      | Ok m => let '(io, code, m', evs) := kill_session a m id in (io, code, Some (m', evs))
      end
  | Ok _ => ([PErr "usage: cliwrap kill <session-id>" None], 2, None)
  end.

(** A message that ends the child for the host, or the loss of the agent. *)
Definition terminal_report (op : live_op) : Prop :=
  match op with
  | LiveDisconnect => True
  | LiveMessage msg => h_MsgType (m_Header msg) = MsgChildExited ∨ h_MsgType (m_Header msg) = MsgChildError
  end.

Lemma setState_terminal c s : is_terminal s = false → is_terminal (ct_state c) = false → is_terminal (ct_state (setState c s).1) = false.
Proof. unfold setState. by destruct (decide _). Qed.

Lemma live_step_terminal c op :
  ¬ terminal_report op → is_terminal (ct_state c) = false → is_terminal (ct_state (live_step c op)) = false.
Proof.
  destruct op as [msg|]; simpl; [|by intros []]. intros [H1 H2]%Decidable.not_or Hc.
  unfold handleMessage. rewrite (proj2 (Z.eqb_neq _ _) H1), (proj2 (Z.eqb_neq _ _) H2).
  repeat (case_match; simplify_eq/=; try done).
  match goal with H : setState ?c1 StateRunning = _ |- _ =>
    pose proof (setState_terminal c1 StateRunning eq_refl Hc) as Hs; rewrite H in Hs end. done.
Qed.

Lemma live_steps_terminal ops c :
  is_terminal (ct_state c) = false → is_terminal (ct_state (foldl live_step c ops)) = true → ∃ op, op ∈ ops ∧ terminal_report op.
Proof.
  revert c. induction ops as [|op ops IH]; intros c Hc H; simpl in H; [congruence|].
  assert (terminal_report op ∨ ¬ terminal_report op) as [Ht|Ht] by (destruct op as [msg|]; simpl; [lia|by left]).
  - exists op. split; [by left|done].
  - destruct (IH _ (live_step_terminal _ _ Ht Hc) H) as (op' & ? & ?). exists op'. split; [by right|done].
Qed.

Lemma wait_child_reported turns c c' :
  is_terminal (ct_state c) = false → wait_child turns c = (c', StopWaitDone) →
  ∃ op, op ∈ concat turns.*2 ∧ terminal_report op.
Proof.
  revert c. induction turns as [|[ctx_done ops] turns IH]; intros c Hc; simpl; [done|]. destruct ctx_done; [done|].
  destruct (is_terminal (ct_state (foldl live_step c ops))) eqn:E.
  - intros _. destruct (live_steps_terminal _ _ Hc E) as (op & ? & ?). exists op. split; [by apply elem_of_app; left|done].
  - intros H. destruct (IH _ E H) as (op & ? & ?). exists op. split; [by apply elem_of_app; right|done].
Qed.

Lemma Stop_terminal s c : is_terminal (ct_state c) = false → is_terminal (ct_state (Stop s c).1.1) = false.
Proof.
  intros Hc. unfold Stop. destruct (stop_early c); [done|].
  pose proof (setState_terminal c StateStopping eq_refl Hc). destruct (setState c StateStopping) as [c1 e1].
  pose proof (Stop_send_life s c1) as (Hs & _). destruct (Stop_send s c1). simpl in *. congruence.
Qed.

(** A controller whose agent the host never started. *)
Definition foreign (c : Controller) : Prop := ct_handle c = None.

Lemma live_steps_foreign ops c : foreign c → foreign (foldl live_step c ops).
Proof.
  revert c. induction ops as [|op ops IH]; intros c Hc; simpl; [done|]. apply IH.
  destruct (live_step_agent c op) as [Hh _]. unfold foreign. by rewrite Hh.
Qed.
Lemma wait_child_foreign turns c : foreign c → foreign (wait_child turns c).1.
Proof.
  revert c. induction turns as [|[x ops] turns IH]; intros c Hc; simpl; [done|].
  pose proof (live_steps_foreign ops c Hc). destruct x; [done|]. case_match; [done|by apply IH].
Qed.
Lemma close_ctrl_foreign p a b d c : foreign c → foreign (close_ctrl p a b d c).
Proof.
  unfold foreign, close_ctrl, CloseConnOnly, Controller.Close, close_conn. intros H.
  destruct p; repeat (case_match; simplify_eq/=; try done); congruence.
Qed.

(** A session that was reattached: its metadata, and a controller that says Running. *)
Lemma Reattach_spec m fs alive dial wal wf :
  match Reattach m fs alive dial wal wf with
  | (m1, Err _) => m1 = m
  | (m1, Ok _) => ∃ meta c, sf_meta fs = Some meta ∧ alive (default (pm_AgentPID meta) (sf_pid fs)) = true ∧
      foreign c ∧ ct_state c = StateRunning ∧
      m1 = upd_handles m (<[pm_ID meta := new_handle (pm_Spec meta) (Some c)]> (m_handles m))
  end.
Proof.
  unfold Reattach, foreign. destruct (sf_meta fs) as [meta|] eqn:Em; [|done]. destruct (alive _) eqn:Ea; [|done]. cbn [negb].
  destruct dial as [[]|[r w]]; [done..|]. destruct (ReadHandshakeHello r) as [r1 [hello|]]; [|done].
  destruct (negb _); [done|]. destruct (ReadHandshakePTYRingDump r1) as [r2 [dump|]]; [|done].
  destruct (NewControllerFromReattach _ _ _ _ _ _ _ _ _) as [c|] eqn:En; [|done].
  destruct (m_handles m !! pm_ID meta) eqn:El; [done|]. exists meta, c. split_and!; try done;
    unfold NewControllerFromReattach in En; repeat case_match; by simplify_eq/=.
Qed.

(** The handle of a reattached session, after the stop and the close. *)
Lemma stop_handle_spec a h c :
  ph_ctrl h = Some c → ph_starting h = None → ph_closing h = [] → foreign c →
  ∃ c', ph_ctrl (stop_handle a h).1 = Some c' ∧ foreign c' ∧ ph_starting (stop_handle a h).1 = None ∧
    ph_closing (stop_handle a h).1 = [] ∧
    (spec_Persistent (ph_spec h) = true → is_terminal (ct_state c) = false → (stop_handle a h).2 = true →
     ∃ op, op ∈ concat (ka_turns a).*2 ∧ terminal_report op).
Proof.
  intros Hc Hs Hcl Hf. unfold stop_handle, Handle_Stop. rewrite Hc.
  destruct (Stop_agent (ka_sched a) c) as [Hh _]. pose proof (Stop_terminal (ka_sched a) c) as Ht.
  destruct (Stop (ka_sched a) c) as [[c' r] evs]. cbn [fst snd] in *. cbn [ph_ctrl set_ctrl ph_spec].
  assert (foreign c') as Hf' by (unfold foreign; by rewrite Hh).
  destruct (negb _); [exists c'; naive_solver|].
  destruct (spec_Persistent (ph_spec h)); [|exists c'; naive_solver].
  pose proof (wait_child_foreign (ka_turns a) c' Hf') as Hw. pose proof (wait_child_reported (ka_turns a) c') as Hr.
  destruct (wait_child (ka_turns a) c') as [c2 w]. exists c2. simpl. split_and!; try done.
  intros _ Hn Hd. destruct w; [|done..]. eapply Hr; eauto.
Qed.

Lemma close_handle_spec a id h c :
  ph_ctrl h = Some c → ph_starting h = None → ph_closing h = [] → foreign c →
  ctrls (close_handle a id h).1.1 = [] ∧ (close_handle a id h).1.2 = [MReleased id false].
Proof.
  intros Hc Hs Hcl Hf. unfold close_handle. destruct (ka_close a) as [[x y] z]. unfold Handle_Close_begin. rewrite Hc. simpl.
  rewrite Hcl. unfold Handle_Close_end. simpl. unfold ctrls. simpl. rewrite Hs. split; [done|].
  rewrite bool_decide_false; [done|]. by rewrite (close_ctrl_foreign _ _ _ _ _ Hf).
Qed.

(** Shutting down a manager whose handles are all closed. *)
Definition all_closed (m : Manager) : Prop := ∀ id h, m_handles m !! id = Some h → ctrls h = [].

Lemma shutdown_step_closed s x y z m :
  all_closed m → all_closed (Shutdown_step s x y z m).1 ∧ ∀ id k, MReleased id k ∉ (Shutdown_step s x y z m).2.
Proof.
  intros H. unfold Shutdown_step. destruct (m_shutdown m) as [|act acts]; [split; [done|set_solver]|].
  set (m1 := upd_shut _ _ _ _ _).
  assert (∀ id f, (∀ h, ctrls h = [] → ctrls (f h).1 = [] ∧ ∀ i k, MReleased i k ∉ (f h).2) →
            all_closed (on_handle m1 id f).1 ∧ ∀ i k, MReleased i k ∉ (on_handle m1 id f).2) as Hon.
  { intros id f Hf. unfold on_handle. destruct (m_handles m1 !! id) as [h|] eqn:E; [|split; [done|set_solver]].
    destruct (Hf h (H _ _ E)) as [H1 H2]. destruct (f h) as [h' es]. split; [|done]. simpl in *. intros i hi.
    cbn [m_handles upd_handles]. rewrite lookup_insert. case_decide; [intros [= <-]; done|apply H]. }
  assert (∀ h, ctrls h = [] → ph_ctrl h = None ∧ ph_closing h = []) as Hnil.
  { unfold ctrls. intros h [H1 [_ H3]%app_eq_nil]%app_eq_nil. by destruct (ph_ctrl h). }
  destruct act; apply Hon; intros h Hh; destruct (Hnil h Hh) as [H1 H2].
  - unfold Handle_Stop. rewrite H1. split; [done|set_solver].
  - unfold Handle_Close_begin. rewrite H1. split; [done|set_solver].
  - unfold Handle_Close_end. rewrite H2. simpl. split; [done|set_solver].
Qed.

Lemma shutdown_all_closed a m :
  m_closed m = false → all_closed m →
  let '(m', evs) := shutdown_all a m in
  m_closed m' = true ∧ m_ended m' = true ∧ all_closed m' ∧ ∀ id k, MReleased id k ∉ evs.
Proof.
  intros Hcl Hn. unfold shutdown_all. destruct (ka_close a) as [[x y] z].
  set (m1 := Shutdown_begin _ m). assert (m_closed m1 = true ∧ all_closed m1) as [H1 H2] by (unfold m1, Shutdown_begin; by rewrite Hcl).
  clearbody m1. set (n := length (m_shutdown m1)). assert (length (m_shutdown m1) = n) as Hlen by done. clearbody n.
  revert m1 H1 H2 Hlen. clear m Hcl Hn. induction n as [|n IH]; intros m H1 H2 Hlen; cbn [replicate run_trace].
  - unfold Shutdown_end. apply nil_length_inv in Hlen as ->. rewrite H1. split_and!; [done..|set_solver].
  - destruct (Shutdown_step_acts (ka_sched a) x y z m) as [Ha Hc].
    destruct (shutdown_step_closed (ka_sched a) x y z m H2) as [H3 H4].
    destruct (Shutdown_step (ka_sched a) x y z m) as [m2 es]. simpl in *.
    specialize (IH m2 ltac:(congruence) H3 ltac:(rewrite Ha; destruct (m_shutdown m); simpl in *; lia)).
    destruct (run_trace _ m2 _) as [m3 es']. destruct IH as (? & ? & ? & Hno). split_and!; [done..|].
    intros id k [?|?]%elem_of_app; [by eapply H4|by eapply Hno].
Qed.

(** Why a kill that succeeded may say so. *)
Definition kill_confirmed (a : kill_answers) (dir : string) : Prop :=
  ∃ meta, sf_meta (ka_files a dir) = Some meta ∧
    ka_alive a (default (pm_AgentPID meta) (sf_pid (ka_files a dir))) = true ∧
    (spec_Persistent (pm_Spec meta) = true → ∃ op, op ∈ ka_before a ++ concat (ka_turns a).*2 ∧ terminal_report op).

(** What holds of every way a kill with a manager ends. *)
Definition kill_ended (r : list cli_io * Z * Manager * list mgr_event) : Prop :=
  let '(io, code, m, evs) := r in
  m_closed m = true ∧ m_ended m = true ∧ all_closed m ∧ (∀ id killed, MReleased id killed ∈ evs → killed = false).

Lemma kill_session_spec a m id :
  m_closed m = false → m_handles m = ∅ →
  kill_ended (kill_session a m id) ∧
  ((kill_session a m id).1.1.2 = 0 ∧ POut "Cleanup complete." ∈ (kill_session a m id).1.1.1 ∧
     kill_confirmed a (path_join [m_persistentDir m; id]) ∨
   (kill_session a m id).1.1.2 = 1).
Proof.
  intros Hcl Hm. unfold kill_session.
  assert (∀ m1 io code evs, m_closed m1 = false → all_closed m1 → (∀ i k, MReleased i k ∈ evs → k = false) →
    kill_ended (let '(m', evs') := shutdown_all a m1 in (io, code, m', evs ++ evs'))) as Hexit.
  { intros m1 io code evs H1 H2 H3. pose proof (shutdown_all_closed a m1 H1 H2) as H. destruct (shutdown_all a m1) as [m' evs'].
    destruct H as (? & ? & ? & Hno). split_and!; [done..|]. intros i k [Hin|Hin]%elem_of_app; [by eapply H3|by destruct (Hno i k)]. }
  assert (∀ m1 (io : list cli_io) (code : Z) (evs : list mgr_event),
    (let '(m', evs') := shutdown_all a m1 in (io, code, m', evs ++ evs')).1.1 = (io, code)) as Hres.
  { intros. by destruct (shutdown_all a m1). }
  set (dir := path_join [m_persistentDir m; id]).
  pose proof (Reattach_spec m (ka_files a dir) (ka_alive a) (ka_dial a) (ka_wal a) (ka_walFails a)) as Hr.
  destruct (Reattach m _ _ _ _ _) as [m1 [[]|e]].
  2:{ subst m1. assert (all_closed m) by (intros i h; by rewrite Hm, lookup_empty).
      destruct e; (split; [apply Hexit; [done..|set_solver]|right; by rewrite Hres]). }
  destruct Hr as (meta & c & Hmeta & Halive & Hf & Hst & ->). rewrite Hmeta. cbn [m_handles upd_handles]. rewrite lookup_insert_eq.
  set (h0 := set_ctrl _ _ _ _).
  pose proof (live_steps_foreign (ka_before a) c Hf) as Hf0.
  destruct (stop_handle_spec a h0 _ eq_refl eq_refl eq_refl Hf0) as (c' & H1 & Hf1 & H2 & H3 & Hrep).
  destruct (stop_handle a h0) as [h1 stopped]. cbn [fst snd] in *.
  destruct (close_handle_spec a (pm_ID meta) h1 c' H1 H2 H3 Hf1) as [Hc He].
  destruct (close_handle a (pm_ID meta) h1) as [[h2 evs] closed]. cbn [fst snd] in *. subst evs.
  set (m2 := upd_handles _ _).
  assert (all_closed m2) as Hm2.
  { intros i hi. unfold m2. cbn [m_handles upd_handles]. rewrite Hm, insert_insert_eq, lookup_insert.
    case_decide; [by intros [= <-]|by rewrite lookup_empty]. }
  assert (∀ i k, MReleased i k ∈ [MReleased (pm_ID meta) false] → k = false) as Hrel by (intros i k [= ? ?]%list_elem_of_singleton; done).
  destruct stopped; cbn [negb]; [|split; [by apply Hexit|right; by rewrite Hres]].
  destruct closed; cbn [negb]; [|split; [by apply Hexit|right; by rewrite Hres]].
  split; [by apply Hexit|left]. rewrite Hres. split_and!; [done|simpl; set_solver|].
  exists meta. split_and!; [done..|]. intros Hp.
  destruct (is_terminal (ct_state (foldl live_step c (ka_before a)))) eqn:Et.
  - destruct (live_steps_terminal (ka_before a) c) as (op & ? & ?); [by rewrite Hst|done|].
    exists op. split; [by apply elem_of_app; left|done].
  - destruct (Hrep Hp eq_refl eq_refl) as (op & ? & ?). exists op. split; [by apply elem_of_app; right|done].
Qed.

(** What [cliwrap kill] does.  It exits with 2 without touching anything if the
    arguments are wrong; otherwise with 0 or 1, with the manager shut down and no
    connection kept, and it never terminates an agent process itself.  It says
    that the cleanup is complete and exits with 0 only if the session exists, its
    agent is alive and, the session being persistent, the agent reported the end
    of the child or the connection to it was lost. *)
Theorem kill_command_reports a home tempdir envdir envagent args :
  match parse_flags kill_flags args with
  | Ok (set, [id]) =>
      let pdir := if String.eqb (get_string set "persistentDir" "") ""
                  then if String.eqb envdir "" then path_join [home; ".cliwrap"; "sessions"] else envdir
                  else get_string set "persistentDir" "" in
      ∃ io code m evs, killCommand a home tempdir envdir envagent args = (io, code, Some (m, evs)) ∧
        kill_ended (io, code, m, evs) ∧
        (code = 0 ∧ POut "Cleanup complete." ∈ io ∧ kill_confirmed a (path_join [pdir; id]) ∨ code = 1)
  | _ => (killCommand a home tempdir envdir envagent args).1.2 = 2 ∧ (killCommand a home tempdir envdir envagent args).2 = None
  end.
Proof.
  unfold killCommand. destruct (parse_flags kill_flags args) as [[set [|id []]]|]; try done. cbv zeta.
  set (agent := if String.eqb envagent "" then _ else _).
  assert (String.eqb agent "" = false) as Ha.
  { unfold agent. destruct (String.eqb envagent "") eqn:E; [done|exact E]. }
  rewrite persistent_option by done. unfold NewManager. cbn [mo_agentPath mo_runtimeDir mo_persistentDir WithPersistentDir WithRuntimeDir WithAgentPath no_options]. rewrite Ha.
  assert (String.eqb (path_join [tempdir; "cliwrap-kill"%string]) "" = false) as -> by (apply String.eqb_neq; by apply path_join_nonempty).
  match goal with |- context [kill_session a ?m0 id] => destruct (kill_session_spec a m0 id eq_refl eq_refl) as [H1 H2];
    destruct (kill_session a m0 id) as [[[io code] m] evs] end.
  cbn [fst snd m_persistentDir] in *. exists io, code, m, evs. split; [done|]. split; [done|].
  destruct H2 as [(? & ? & Hk)|]; [left|by right]. split_and!; [done..|].
  destruct (String.eqb (get_string set "persistentDir" "") "") eqn:E; [exact Hk|]. rewrite E in Hk. exact Hk.
Qed.
End Kill.

Module ServeExample.
#[local] Existing Instances ManagerExample.ex_codec ManagerExample.cap_codec.

Definition ex_load (p : string) : option Config :=
  LoadFile (λ _, None) (λ _, Some CliExample.ex_raw) (if String.eqb p "a.yaml" then Some "x"%string else None).
Definition ex_config : Config :=
  match ex_load "a.yaml" with Some cfg => cfg | None => mkConfig "" (mkRuntime "" "" "" 0 "" 0 0) (mkBudget (S754_zero false) 0 (S754_zero false)) [] [] end.
Definition ex_run : run_result := runCommand ex_load "/usr/bin" "/home/u" true true None ["-f"; "a.yaml"]%string.
Definition ex_manager : Manager := match ex_run with RunServing m _ _ _ => m | _ => ManagerExample.ex_mgr end.

(** The process starts, prints, the agent's connection breaks, a signal comes. *)
Definition ex_ops : list serve_op :=
  [SvStartBegin alone ManagerExample.ex_os ManagerExample.ex_sock None false; SvStartEnd alone CaseDeadline false false false;
   SvServing; SvEnv (MLive "redis" (LiveMessage (mkMsg (mkHeader MsgChildStarted 0 1 0) []))); SvEnv (MObserve "redis" 5);
   SvEnv (MStop "redis" alone); SvEnv (MLive "redis" LiveDisconnect); SvSignal; SvShutdown ["redis"];
   SvShutStep alone false false false; SvShutStep alone false false false; SvShutStep alone false false false;
   SvShutEnd; SvServerClosed]%string.

Definition ex_ended (r : serve * list serve_event) : bool :=
  match sv_phase r.1, m_handles (sv_mgr r.1) !! "redis"%string with
  | PhExited, Some h => negb (spec_Persistent (ph_spec h)) && (spawned "redis" r.2 =? 1)%nat
  | _, _ => false
  end.

Lemma run_accounts_for_agents_witness :
  let '(st, evs) := run_trace serve_step (serve_init ex_manager (all_processes ex_config)) ex_ops in
  last evs = Some (SvExit 0) ∧ spawned "redis" evs = 1%nat ∧ ended "redis" evs = 1%nat.
Proof.
  assert (ex_run = RunServing ex_manager (run_options "/usr/bin" ex_config).2 "/run/manager.sock" (Some "/run"%string)) as Hr
    by (vm_compute; reflexivity).
  pose proof (run_accounts_for_agents ex_load "/usr/bin" "/home/u" true None ["-f"; "a.yaml"]%string "a.yaml" ex_config
    ex_manager _ _ _ ex_ops eq_refl eq_refl Hr) as H.
  assert (ex_ended (run_trace serve_step (serve_init ex_manager (all_processes ex_config)) ex_ops) = true) as Hc
    by (vm_compute; reflexivity).
  destruct (run_trace serve_step _ ex_ops) as [st evs]. destruct H as (Hb & He & _). unfold ex_ended in Hc. cbn [fst snd] in Hc.
  destruct (sv_phase st) eqn:Ep; try discriminate Hc. destruct (m_handles (sv_mgr st) !! "redis"%string) as [h|] eqn:El; [|discriminate Hc].
  apply andb_true_iff in Hc as [Hp Hs]. apply negb_true_iff in Hp. apply Nat.eqb_eq in Hs.
  destruct (Hb _ _ El) as (Hsum & Hleft & _ & Hn). rewrite Hleft, Hn, Hs in Hsum by done. simpl in Hsum.
  split; [by apply He|]. split; [exact Hs|lia].
Defined.

(** A session whose agent answers the handshake, and says in the second turn of
    the wait that the child has exited. *)
Definition ex_meta : PersistentMeta := mkMeta "q" ManagerExample.ex_persistent 7 0.
Definition ex_hello : list bytes :=
  [frame_bytes (mkMsg (mkHeader MsgHello 0 0 0) []); frame_bytes (mkMsg (mkHeader MsgTypePTYRingDump 0 0 0) [])].
Definition ex_answers : kill_answers :=
  mkKillAnswers (λ p, if String.eqb p "/s/q" then mkFiles (Some ex_meta) (Some 7) true false else mkFiles None None false false)
    (λ pid, pid =? 7) (inr (mkReader ex_hello EOF, mkWriter [] None)) None false alone [] true
    [(false, []); (false, [LiveMessage (mkMsg (mkHeader MsgChildExited 0 1 0) [])])] (false, false, false).
Definition ex_kill (a : kill_answers) (args : list string) : list cli_io * Z :=
  (killCommand a "/h" "/tmp" "/s" "" args).1.

Example kill_succeeds :
  ex_kill ex_answers ["q"]%string =
  ([POut "Connecting to session q..."; POut "Stopping child..."; POut "Cleanup complete."], 0)%string.
Proof. vm_compute. reflexivity. Qed.
(** The connection breaks instead; the command reports success all the same. *)
Example kill_trusts_disconnect :
  let a := mkKillAnswers (ka_files ex_answers) (ka_alive ex_answers) (ka_dial ex_answers) None false alone [] true
             [(false, [LiveDisconnect])] (false, false, false) in
  ex_kill a ["q"]%string = ([POut "Connecting to session q..."; POut "Stopping child..."; POut "Cleanup complete."], 0)%string.
Proof. vm_compute. reflexivity. Qed.
Example kill_unknown_session :
  ex_kill ex_answers ["--persistent-dir=/t"; "q"]%string =
  ([POut "Connecting to session q..."; PErr "cliwrap kill" None], 1)%string.
Proof. vm_compute. reflexivity. Qed.
End ServeExample.
